(* ===== verification/_CoqProject ===== *)
-Q . S2P
Prelude.v
Floats.v
MemHier.v
MTRand.v
Hash.v
ReplPolicies.v
CacheArrays.v
PrioQueue.v
TimingEvent.v
ContentionSim.v
WeaveSpec.v
WeaveProps.v
UMon.v
Partition.v
WayPart.v
PartitionProps.v
World.v
Coherence.v
Cache.v
Translation.v
ProcMaps.v
Memory.v
TwoLevel.v
TwoLevelRun.v
HierarchyProps.v
FTMProps.v
IntrusiveList.v
SimpleCore.v
IdealArrays.v
Prefetcher.v
DDRMem.v
DDRBase.v
DDRExec.v
DDRQueue.v
DDRTiming.v
DDREvents.v
DDRInv.v
DDRMach.v
DDRMake.v
DDRProps.v
Barrier.v
Scheduler.v
SchedulerInv.v
SchedulerOps.v
SchedulerCalls.v
SchedulerProps.v
