(* ===== verification/Prelude.v ===== *)
(** * zsim with first-time-miss caches: a verification library

    The program (src/src) is the zsim architectural simulator, extended with
    first-time-miss (FTM) accounting: pages of shared libraries are simulated as
    common lines between processes, and the first access of a core to a line
    that another brought in is charged as a miss.  A simulation alternates bound
    phases, in which the threads of the simulated processes run on simulated
    cores and their accesses are charged by the caches, and weave phases, in
    which the recorded events are replayed for contention.  This library models
    the memory hierarchy (arrays, policies, coherence, FTM tables, memories), the
    DDR controller, the monitors that partition a cache, the event structures
    and loops of the weave phase, and the barrier and the scheduler that run the
    threads through the phases, and proves what makes them correct.

    ** Files

    - Prelude: machine words, faults, a state monad with faults and its total
      weakest precondition [wp], loops, list and bit lemmas.  Floats: doubles.
    - MemHier (memory_hierarchy.h/.cpp): requests, MESI states, name tables.
    - MTRand (mtrand.h), Hash (hash.h/.cpp): the generator and the hash families.
    - ReplPolicies (repl_policies.h): replacement policies behind the class
      [ReplPolicy], with the contract [ReplPolicyLaws].
    - CacheArrays (cache_arrays.h/.cpp): set-associative, CEASER and Z-cache
      arrays behind [CacheArray], with the contract [CacheArrayLaws].
    - PrioQueue (prio_queue.h), TimingEvent (timing_event.h/.cpp,
      event_recorder.h): the calendar queue, the event graph and its records.
    - ContentionSim (contention_sim.h/.cpp, timing_event.cpp): queueing and
      completion of events, crossings between domains, the phase loops;
      WeaveSpec: the invariant of a phase of one domain; WeaveProps: its
      properties and a phase that runs.
    - UMon (utility_monitor.h/.cpp), Partition (partition_mapper, partitioner,
      monitor, lookahead), WayPart (part_repl_policies.h): the monitors of a
      partitioned cache, the allocation computed from their curves, and the
      policy that enforces it; PartitionProps: their properties.
    - World: configuration [Sys] and state [World] of a simulated hierarchy, the
      locks, and the primitive accesses.
    - Coherence (coherence_ctrls.h/.cpp): bottom and top controllers.
    - Cache (cache.h/.cpp, filter_cache.h): access, skewed access, invalidation,
      refresh, FTM accounting, filter caches with address translation.
    - Translation, ProcMaps (filter_cache.h, zsim.cpp 478-684): the
      specification of the translation, and the tables it reads.
    - Memory (mem_ctrls.h/.cpp): fixed-latency and M/D/1 memory controllers
      behind [MemCtrl], with the contract [MemCtrlLaws].
    - TwoLevel, TwoLevelRun: the invariant of a two-level hierarchy (filter
      caches over one inclusive cache over memories), and that accesses keep it.
    - HierarchyProps, FTMProps: the properties of the hierarchy and of FTM.
    - SimpleCore (simple_core.h/.cpp, null_core.cpp): simple cores on the
      two-level hierarchy, through phases.
    - IntrusiveList (intrusive_list.h): the linked lists as pointers in a store,
      and their specification as sequences.
    - IdealArrays (ideal_arrays.h): the fully associative LRU array on these
      lists, behind [CacheArray]; Prefetcher (prefetcher.h/.cpp): the stream
      prefetcher, behind a parent of the class [Parent].
    - DDRMem (ddr_mem.h/.cpp): the DDR3 controller, one definition a method;
      DDRBase: clocks, windows, lists of a bank, accesses to the state; DDRExec:
      what queueing and issuing do, as relations; DDRQueue, DDRTiming, DDREvents:
      the invariants of the queues, of the command timing and of the accesses;
      DDRInv: ticks keep them; DDRMach: legal runs of accesses, ticks and
      refreshes; DDRMake: the constructor; DDRProps: the properties.
    - Barrier (barrier.h): the phase barrier, its invariant and specification.
    - Scheduler (scheduler.h/.cpp): threads, contexts, queues, and the calls;
      SchedulerInv: the invariant; SchedulerOps: the steps that keep it;
      SchedulerCalls: the calls, with the barrier; SchedulerProps: runs of calls.

    ** Conventions

    Unsigned machine words are [Z], wrapped where the source's arithmetic can
    wrap.  A failed assertion, a panic, an access out of range and a lock taken
    twice are values of [fault].  One simulated thread runs at a time: locks are
    the set of those held, and taking a held lock never returns ([Deadlock]).
    Objects call each other through the tree of the configuration; [fuel] is the
    number of levels of calls still allowed, and the theorems say how many are
    enough (three for two levels and a memory).  Loops over tables have the
    table's size as bound, so they need no fuel.

    ** Theorems

    - Hierarchy: any run of loads and stores completes without fault from the
      system as built, for any arrays and memories meeting their contracts, with
      or without translation, and ends coherent and inclusive; what one access
      grants.
    - Cores: simple cores run any legal sequence of blocks, loads, stores, joins
      and phase ends on the hierarchy without failing.
    - FTM: the charge of an access and its counters; the tables after a remap;
      the translation meets its specification; pages are shared exactly when
      library code and offset agree, other pages are isolated between processes;
      what the four-character codes, deleted files, process 0 and stale or
      misindexed owner bits get wrong.
    - Arrays and policies: a replacement keeps the array and evicts one line;
      partitions are disjoint; each policy evicts what it promises; an ideal
      array hits by reuse distance.
    - Prefetcher: what an access asks of the parent and answers; streams of any
      ascending stride are covered.
    - Partitioning: a monitor's curve is that of reference LRU stacks; the
      lookahead allocation ends and hands out every bucket; a way-partitioned
      fill keeps its counts; the sizes an allocation can wrap.
    - Lists: the pointer operations refine operations on sequences.
    - Barrier: its operations refine three sets with two rules (no more than the
      bound run at once, a phase ends once all have run); from every state of
      the invariant some thread can go on.
    - Scheduler: every run of calls that threads can make returns without a
      failed assertion and keeps the joint invariant of scheduler and barrier
      (a running thread has a context and is in the barrier, a queued one has
      none); no context idles while a thread that may run on it waits.
    - DDR: any legal run of a controller the constructor accepts fails no
      assertion, obeys the timing constraints of the device and loses no access;
      without new accesses it drains and stops; a read is overtaken a bounded
      number of times.  Cycles stay below 2^62 over the system frequency
      ([fits]), so that the 64-bit products of the clock conversions are exact.
    - Queue and events: dequeue, enqueue, firstCycle, linking of events.
    - Phases: on any acyclic graph of one domain a phase ends, runs what was
      due, forgets nothing, and drains the graph when its limit is late enough
      (loop fuel: the number of events; done's: the depth of the graph).
    - Hashes: linearity and a reference loop for H3, the Feistel permutation.

    Random draws (the barrier's shuffle) are arguments of the
    operations, of which the theorems ask only their range ([draws_ok],
    [tick_draws]).

    ** Not modelled

    The Pin tool, the out-of-order core and the decoder (driven by the XED and
    Pin libraries), the scheduler's watchdog thread and the host waits it serves
    (futexes, blocking system calls), the process tree, initialisation from
    configuration files, statistics output, the second DRAM model (detailed_mem),
    the DRAMSim2 wrapper, the timing and tracing caches, the network table, the
    Vantage policy and partitioned ideal arrays.  Configuration reaches the model
    as [Sys]; the content of /proc/<pid>/maps is a parameter. *)

From stdpp Require Export base numbers list gmap strings.
From Stdlib Require Export ZArith Lia Ring Bool.

(** ** Machine integers

    Unsigned machine words are [Z] values kept in range by an explicit wrap,
    written at every place where the C++ arithmetic can overflow. *)

Declare Scope zsim_scope.
Delimit Scope zsim_scope with zsim.

Definition wrap (w : Z) (x : Z) : Z := (x `mod` 2 ^ w)%Z.

Notation u32 := (wrap 32).
Notation u64 := (wrap 64).
Notation "x +64 y" := (u64 (x + y)%Z) (at level 50, left associativity) : zsim_scope.
Notation "x -64 y" := (u64 (x - y)%Z) (at level 50, left associativity) : zsim_scope.
Notation "x +32 y" := (u32 (x + y)%Z) (at level 50, left associativity) : zsim_scope.
Notation "x -32 y" := (u32 (x - y)%Z) (at level 50, left associativity) : zsim_scope.
Open Scope zsim_scope.

Definition max32 : Z := 2 ^ 32.
Definition max64 : Z := 2 ^ 64.

Lemma wrap_small w x : (0 <= x < 2 ^ w)%Z -> wrap w x = x.
Proof. intros H. apply Z.mod_small, H. Qed.

Lemma wrap_bound w x : (0 <= w)%Z -> (0 <= wrap w x < 2 ^ w)%Z.
Proof. intros H. apply Z.mod_pos_bound. apply Z.pow_pos_nonneg; lia. Qed.

Lemma u64_small x : (0 <= x < max64)%Z -> u64 x = x.
Proof. apply wrap_small. Qed.

Lemma u32_small x : (0 <= x < max32)%Z -> u32 x = x.
Proof. apply wrap_small. Qed.

Lemma u32_bound x : (0 <= u32 x < max32)%Z.
Proof. apply wrap_bound. lia. Qed.

Lemma u64_bound x : (0 <= u64 x < max64)%Z.
Proof. apply wrap_bound. lia. Qed.

Global Opaque max32 max64.

Lemma max32_eq : max32 = 4294967296%Z.
Proof. reflexivity. Qed.

Lemma max64_eq : max64 = 18446744073709551616%Z.
Proof. reflexivity. Qed.

(** ** Faults

    What the C++ does when it cannot go on: a failed [assert], a [panic], an
    out-of-range array access (undefined behaviour), a lock taken twice by the
    single simulated thread.  [OutOfFuel] is the model's own: a recursion was
    given too little fuel. *)

Inductive fault :=
  | AssertFailed
  | Panicked
  | OutOfRange
  | Deadlock
  | OutOfFuel.

Global Instance fault_eq_dec : EqDecision fault.
Proof. solve_decision. Defined.

Inductive outcome (A : Type) :=
  | Ok (a : A)
  | Fault (f : fault).
Arguments Ok {A} a.
Arguments Fault {A} f.

Definition is_ok {A} (o : outcome A) : bool :=
  match o with Ok _ => true | Fault _ => false end.

Global Instance outcome_ret : MRet outcome := fun A a => Ok a.
Global Instance outcome_bind : MBind outcome := fun A B f o =>
  match o with Ok a => f a | Fault e => Fault e end.

(** [assert(b)] of log.h. *)
Definition check (b : bool) : outcome unit := if b then Ok tt else Fault AssertFailed.

(** Array reads and writes: out of range is a fault, never a default. *)
Definition rd {A} (l : list A) (i : nat) : outcome A :=
  match l !! i with Some x => Ok x | None => Fault OutOfRange end.

Definition wr {A} (l : list A) (i : nat) (x : A) : outcome (list A) :=
  if bool_decide (i < length l)%nat then Ok (<[i := x]> l) else Fault OutOfRange.

Lemma rd_some {A} (l : list A) i x : l !! i = Some x -> rd l i = Ok x.
Proof. unfold rd. intros ->. reflexivity. Qed.

Lemma rd_ok {A} (l : list A) i x : rd l i = Ok x <-> l !! i = Some x.
Proof. unfold rd. destruct (l !! i); split; congruence. Qed.

Lemma wr_ok {A} (l : list A) i x l' :
  wr l i x = Ok l' <-> (i < length l)%nat /\ l' = <[i := x]> l.
Proof. unfold wr. case_bool_decide; split; intros; simplify_eq; intuition congruence. Qed.

Lemma wr_lt {A} (l : list A) i x : (i < length l)%nat -> wr l i x = Ok (<[i := x]> l).
Proof. intros H. apply wr_ok. auto. Qed.

(** One entry of an array changed in place. *)
Definition upd {A} (l : list A) (i : nat) (f : A -> A) : outcome (list A) := x ← rd l i; wr l i (f x).

Lemma upd_ok {A} (l : list A) i x (f : A -> A) : l !! i = Some x -> upd l i f = Ok (<[i := f x]> l).
Proof.
  intros H. unfold upd. rewrite (rd_some _ _ _ H). cbn [mbind outcome_bind].
  by apply wr_lt, (lookup_lt_Some _ _ _ H).
Qed.

Lemma rd_lt `{Inhabited A} (l : list A) i : (i < length l)%nat -> rd l i = Ok (l !!! i).
Proof. intros Hi. apply rd_some. by apply list_lookup_lookup_total_lt. Qed.

Lemma upd_lt `{Inhabited A} (l : list A) i (f : A -> A) :
  (i < length l)%nat -> upd l i f = Ok (<[i := f (l !!! i)]> l).
Proof. intros Hi. apply upd_ok. by apply list_lookup_lookup_total_lt. Qed.

(** A loop over a list that carries an array (or any value) along. *)
Section loop.
Context {A X : Type} (f : A -> X -> outcome A).
Fixpoint loop (a : A) (l : list X) : outcome A :=
  match l with [] => mret a | x :: l' => a ← f a x; loop a l' end.
End loop.

(** ** A state monad with faults *)

Definition ST (S A : Type) : Type := S -> outcome (A * S).

Global Instance ST_ret S : MRet (ST S) := fun A a s => Ok (a, s).
Global Instance ST_bind S : MBind (ST S) := fun A B f m s =>
  match m s with Ok (a, s') => f a s' | Fault e => Fault e end.

Definition get {S} : ST S S := fun s => Ok (s, s).
Definition put {S} (s : S) : ST S unit := fun _ => Ok (tt, s).
Definition modify {S} (f : S -> S) : ST S unit := fun s => Ok (tt, f s).
Definition throw {S A} (e : fault) : ST S A := fun _ => Fault e.
Definition lift {S A} (o : outcome A) : ST S A :=
  fun s => match o with Ok a => Ok (a, s) | Fault e => Fault e end.
Definition whenS {S} (b : bool) (m : ST S unit) : ST S unit := if b then m else mret tt.
Definition assertS {S} (b : bool) : ST S unit := lift (check b).

(** Total weakest precondition: the computation returns (no fault) and the
    result satisfies the postcondition. *)
Definition wp {S A} (m : ST S A) (s : S) (Q : A -> S -> Prop) : Prop :=
  match m s with Ok (a, s') => Q a s' | Fault _ => False end.

Section wp_rules.
Context {S : Type}.

Lemma wp_ret {A} (a : A) s (Q : A -> S -> Prop) : Q a s -> wp (mret a) s Q.
Proof. intros H. exact H. Qed.

Lemma wp_bind {A B} (m : ST S A) (f : A -> ST S B) s Q :
  wp m s (fun a s' => wp (f a) s' Q) -> wp (mbind f m) s Q.
Proof. unfold wp, mbind, ST_bind. destruct (m s) as [[a s']|e]; auto. Qed.

Lemma wp_mono {A} (m : ST S A) s (Q Q' : A -> S -> Prop) :
  wp m s Q -> (forall a s', Q a s' -> Q' a s') -> wp m s Q'.
Proof. unfold wp. destruct (m s) as [[a s']|e]; auto. Qed.

Lemma wp_get s (Q : S -> S -> Prop) : Q s s -> wp get s Q.
Proof. intros H. exact H. Qed.

Lemma wp_modify f s (Q : unit -> S -> Prop) : Q tt (f s) -> wp (modify f) s Q.
Proof. intros H. exact H. Qed.

Lemma wp_assert b s (Q : unit -> S -> Prop) : b = true -> Q tt s -> wp (assertS b) s Q.
Proof. intros -> H. exact H. Qed.

Lemma wp_when (b : bool) (m : ST S unit) s (Q : unit -> S -> Prop) :
  (b = true -> wp m s Q) -> (b = false -> Q tt s) -> wp (whenS b m) s Q.
Proof. intros H1 H2. destruct b; [by apply H1|by apply H2]. Qed.

Lemma wp_lift {A} (o : outcome A) a s (Q : A -> S -> Prop) :
  o = Ok a -> Q a s -> wp (lift o) s Q.
Proof. intros -> H. exact H. Qed.

Lemma wp_ok {A} (m : ST S A) s Q :
  wp m s Q <-> exists a s', m s = Ok (a, s') /\ Q a s'.
Proof.
  unfold wp. destruct (m s) as [[a s']|e]; split.
  - intros H. exists a, s'. auto.
  - intros (a' & s'' & H & HQ). congruence.
  - intros [].
  - intros (a' & s'' & H & HQ). congruence.
Qed.
End wp_rules.

(** Loops over a list, with the loop invariant on the part already done. *)
Section for_each.
Context {S X : Type} (f : X -> ST S unit).
Fixpoint for_each (l : list X) : ST S unit :=
  match l with [] => mret tt | x :: l' => _ ← f x; for_each l' end.
End for_each.

Lemma wp_for_each {S X} (f : X -> ST S unit) (l : list X) s (I : list X -> S -> Prop) :
  I [] s ->
  (forall done x rest s, l = done ++ x :: rest -> I done s -> wp (f x) s (fun _ s' => I (done ++ [x]) s')) ->
  wp (for_each f l) s (fun _ s' => I l s').
Proof.
  intros H0 Hstep. assert (forall rest done s, l = done ++ rest -> I done s ->
    wp (for_each f rest) s (fun _ s' => I l s')) as Hgo; [|by apply (Hgo l [])].
  induction rest as [|x rest IH]; intros pre s1 El HI; subst l; cbn [for_each].
  - rewrite app_nil_r in *. by apply wp_ret.
  - apply wp_bind. eapply wp_mono; [by eapply Hstep|]; cbv beta. intros ? s2 HI2.
    apply (IH (pre ++ [x])); [by rewrite <- app_assoc|exact HI2].
Qed.

(** ** Words: range facts closed under the bit operations

    The [word] hint database carries a width bound through an expression. *)

Definition word (w x : Z) : Prop := (0 <= x < 2 ^ w)%Z.

Lemma word_testbit w x : (0 <= w)%Z ->
  word w x <-> (0 <= x)%Z /\ forall i, (w <= i)%Z -> Z.testbit x i = false.
Proof.
  intros Hw. unfold word. split.
  - intros [H0 H1]. split; [done|]. intros i Hi.
    rewrite <- (Z.mod_small x (2 ^ w)) by lia. apply Z.mod_pow2_bits_high; lia.
  - intros [H0 Hb]. split; [done|].
    enough (x = x `mod` 2 ^ w)%Z as -> by (apply Z.mod_pos_bound, Z.pow_pos_nonneg; lia).
    apply Z.bits_inj'. intros i Hi. destruct (Z_lt_le_dec i w).
    + by rewrite Z.mod_pow2_bits_low by lia.
    + rewrite Z.mod_pow2_bits_high by lia. by apply Hb.
Qed.

Section word_closure.
Context (w : Z) (Hw : (0 <= w)%Z).

Lemma word_lxor x y : word w x -> word w y -> word w (Z.lxor x y).
Proof using Hw.
  rewrite !word_testbit by done. intros [Hx Hbx] [Hy Hby]. split.
  - by apply Z.lxor_nonneg.
  - intros i Hi. by rewrite Z.lxor_spec, Hbx, Hby.
Qed.

Lemma word_lor x y : word w x -> word w y -> word w (Z.lor x y).
Proof using Hw.
  rewrite !word_testbit by done. intros [Hx Hbx] [Hy Hby]. split.
  - by apply Z.lor_nonneg.
  - intros i Hi. by rewrite Z.lor_spec, Hbx, Hby.
Qed.

Lemma word_land_l x y : word w x -> word w (Z.land x y).
Proof using Hw.
  rewrite !word_testbit by done. intros [Hx Hbx]. split.
  - apply Z.land_nonneg. by left.
  - intros i Hi. by rewrite Z.land_spec, Hbx.
Qed.

Lemma word_land_r x y : word w y -> word w (Z.land x y).
Proof using Hw. rewrite Z.land_comm. apply word_land_l. Qed.

Lemma word_shiftr x n : (0 <= n)%Z -> word w x -> word w (Z.shiftr x n).
Proof using Hw.
  intros Hn. rewrite !word_testbit by done. intros [Hx Hbx]. split.
  - by apply Z.shiftr_nonneg.
  - intros i Hi. rewrite Z.shiftr_spec by lia. apply Hbx. lia.
Qed.

Lemma word_wrap x : word w (wrap w x).
Proof using Hw. by apply wrap_bound. Qed.
End word_closure.

Lemma word_mono w w' x : (w <= w')%Z -> word w x -> word w' x.
Proof.
  intros Hw [H0 H1]. split; [done|]. eapply Z.lt_le_trans; [exact H1|].
  apply Z.pow_le_mono_r; lia.
Qed.

Lemma word_0 w : (0 <= w)%Z -> word w 0.
Proof. split; [lia|]. apply Z.pow_pos_nonneg; lia. Qed.

Create HintDb word discriminated.
#[export] Hint Resolve word_lxor word_lor word_wrap word_0 : word.
#[export] Hint Extern 1 (word _ (Z.shiftr _ _)) => apply word_shiftr; [lia|lia|] : word.
#[export] Hint Extern 1 (_ <= _)%Z => lia : word.

(** Boolean-to-bit bridge for [x & 1]. *)
Lemma land_1_bit x : Z.land x 1 = (if Z.testbit x 0 then 1 else 0)%Z.
Proof.
  change 1%Z with (Z.ones 1) at 1. rewrite Z.land_ones by lia.
  change (2 ^ 1)%Z with 2%Z. by rewrite Zmod_odd, <- Z.bit0_odd.
Qed.

(** Equality of XOR expressions up to associativity, commutativity and
    cancellation: bit by bit, then the Boolean ring. *)
Ltac lxor_ac :=
  let i := fresh "i" in let Hi := fresh "Hi" in
  apply Z.bits_inj'; intros i Hi; rewrite ?Z.lxor_spec, ?Z.bits_0;
  repeat match goal with |- context [Z.testbit ?x i] => generalize (Z.testbit x i); intros ? end;
  rewrite ?xorb_false_r, ?xorb_false_l; first [reflexivity | ring].

Lemma land_lxor_distr x y m : Z.land (Z.lxor x y) m = Z.lxor (Z.land x m) (Z.land y m).
Proof.
  apply Z.bits_inj'. intros i Hi. rewrite Z.lxor_spec, !Z.land_spec, Z.lxor_spec.
  by destruct (Z.testbit x i), (Z.testbit y i), (Z.testbit m i).
Qed.

(** Two rows of width [w] that share a point are the same row. *)
Lemma row_unique w s s' i : (s * w <= i < s * w + w)%Z -> (s' * w <= i < s' * w + w)%Z -> s = s'.
Proof.
  intros H1 H2. rewrite (Z.div_unique i w s (i - s * w)) by lia.
  symmetry. apply (Z.div_unique i w s' (i - s' * w)); lia.
Qed.

(** *** Lists without duplicates: one element dropped, one put after another *)

Lemma filter_others (p : nat) (l : list nat) : p ∉ l -> filter (fun x => x <> p) l = l.
Proof.
  induction l as [|x l IH]; [done|]. intros Hn. rewrite not_elem_of_cons in Hn. destruct Hn as [Hx Hn].
  rewrite filter_cons_True by done. by rewrite IH.
Qed.

Lemma filter_without (k k' : list nat) e : NoDup (k ++ e :: k') -> filter (fun x => x <> e) (k ++ e :: k') = k ++ k'.
Proof.
  intros Hnd. apply NoDup_app in Hnd as (_ & Hd & Hnd). apply NoDup_cons in Hnd as [Hn _].
  rewrite filter_app, filter_cons_False by (intros Hne; by apply Hne). rewrite !filter_others; [done|done|].
  intros Hin. apply (Hd e Hin). by left.
Qed.

Lemma insert_after (l1 l2 : list nat) (cur p : nat) : NoDup (l1 ++ cur :: l2) ->
  flat_map (fun x => if bool_decide (x = cur) then [x; p] else [x]) (l1 ++ cur :: l2) = (l1 ++ [cur]) ++ p :: l2.
Proof.
  assert (forall l, cur ∉ l -> flat_map (fun x => if bool_decide (x = cur) then [x; p] else [x]) l = l) as Hid.
  { induction l as [|x l IH]; [done|]. rewrite not_elem_of_cons. intros [Hx Hl]. cbn. rewrite bool_decide_false by done. cbn. by rewrite IH. }
  intros Hnd. apply NoDup_app in Hnd as (_ & Hd & Hnd). apply NoDup_cons in Hnd as [Hn _].
  rewrite flat_map_app. cbn. rewrite bool_decide_true by done. rewrite !Hid; [by rewrite <- app_assoc|done|].
  intros Hin. apply (Hd cur Hin). by left.
Qed.
