(* ===== verification/Floats.v ===== *)
(** * Double precision

    C++ doubles as the Standard Library's [SpecFloat] at binary64, and the facts
    the models need: small integers are exact, quotients of non-negative
    integers are not below 0. *)

From Stdlib Require Export SpecFloat.
From S2P Require Import Prelude.
Local Open Scope Z_scope.

Definition f64 (m e : Z) : spec_float := binary_normalize 53 1024 m e false.
Definition f64_of_Z (x : Z) : spec_float := f64 x 0.
Definition f64_add := SFadd 53 1024.
Definition f64_sub := SFsub 53 1024.
Definition f64_mul := SFmul 53 1024.
Definition f64_div := SFdiv 53 1024.
Definition f64_ltb (x y : spec_float) : bool := SFltb x y.

(** Conversion to an integer, towards zero. *)
Definition f64_trunc (x : spec_float) : Z :=
  match x with
  | S754_finite s m e =>
      let a := if 0 <=? e then Z.pos m * 2 ^ e else Z.pos m / 2 ^ (- e) in
      if s then - a else a
  | _ => 0
  end.

Definition f64_half : spec_float := f64 1 (-1).
Definition f64_one : spec_float := f64 1 0.
Definition f64_0_95 : spec_float := f64 0x1E666666666666 (-53).

(** ** Integers are exact *)

Lemma digits2_shift p d : Z.pos (digits2_pos (Pos.iter xO p d)) = Z.pos (digits2_pos p) + Z.pos d.
Proof.
  revert p. induction d as [|d IH] using Pos.peano_ind; intros p; [cbn; lia|].
  rewrite Pos.iter_succ. cbn [digits2_pos]. rewrite Pos2Z.inj_succ, IH. lia.
Qed.

Lemma digits2_bound p : Z.pos p < 2 ^ Z.pos (digits2_pos p) /\ 2 ^ (Z.pos (digits2_pos p) - 1) <= Z.pos p.
Proof.
  induction p as [p IH|p IH|]; [..|done]; cbn [digits2_pos]; rewrite Pos2Z.inj_succ;
    replace (Z.succ (Z.pos (digits2_pos p)) - 1) with (Z.succ (Z.pos (digits2_pos p) - 1)) by lia; rewrite !Z.pow_succ_r by lia; lia.
Qed.

Lemma digits2_53 p : Z.pos p < 2 ^ 53 -> Z.pos (digits2_pos p) <= 53.
Proof.
  intros H. destruct (digits2_bound p) as [_ Hl]. destruct (Z_le_gt_dec (Z.pos (digits2_pos p)) 53) as [|Hg]; [done|].
  pose proof (Z.pow_le_mono_r 2 53 (Z.pos (digits2_pos p) - 1) ltac:(lia) ltac:(lia)). lia.
Qed.

(** A mantissa of 53 digits with a small exponent is not rounded. *)
Lemma round_aux_exact m e : Z.pos (digits2_pos m) = 53 -> -1074 <= e <= 971 ->
  binary_round_aux 53 1024 false (Z.pos m) e loc_Exact = S754_finite false m e.
Proof.
  intros Hd He. assert (forall r s, shr {| shr_m := Z.pos m; shr_r := r; shr_s := s |} e (fexp 53 1024 (Z.pos (digits2_pos m) + e) - e)
    = ({| shr_m := Z.pos m; shr_r := r; shr_s := s |}, e)) as Hs.
  { intros r s. replace (fexp 53 1024 (Z.pos (digits2_pos m) + e) - e) with 0; [done|]. unfold fexp, emin. rewrite Hd. lia. }
  unfold binary_round_aux, shr_fexp. cbn [Zdigits2 shr_record_of_loc]. rewrite Hs. cbn [shr_m loc_of_shr_record round_nearest_even].
  cbn [Zdigits2]. rewrite Hs. cbn [shr_m]. rewrite (proj2 (Z.leb_le e _)) by lia. done.
Qed.

Lemma f64_exact p : Z.pos p < 2 ^ 53 -> exists m e, f64_of_Z (Z.pos p) = S754_finite false m e.
Proof.
  intros Hp. pose proof (digits2_53 p Hp). unfold f64_of_Z, f64, binary_normalize, binary_round, shl_align.
  replace (fexp 53 1024 (Z.pos (digits2_pos p) + 0) - 0) with (Z.pos (digits2_pos p) - 53) by (unfold fexp, emin; lia).
  destruct (Z.pos (digits2_pos p) - 53) as [|d|d] eqn:Ed; [|lia|].
  - exists p, 0. apply round_aux_exact; lia.
  - exists (Pos.iter xO p d), (fexp 53 1024 (Z.pos (digits2_pos p) + 0)). apply round_aux_exact; [rewrite digits2_shift; lia|].
    unfold fexp, emin. lia.
Qed.

(** ** Quotients *)

(** Not negative, and a number. *)
Definition f64_nonneg (x : spec_float) : Prop :=
  match x with S754_zero s => True | S754_finite s _ _ | S754_infinity s => s = false | S754_nan => False end.

Lemma f64_minus_one_lt x : f64_nonneg x -> f64_ltb (f64_of_Z (-1)) x = true.
Proof. destruct x as [s|s| |s m e]; cbn; [done|by intros ->|done|by intros ->]. Qed.

Lemma shr_1_nonneg mrs : 0 <= shr_m mrs -> 0 <= shr_m (shr_1 mrs).
Proof. destruct mrs as [[|[p|p|]|p] r s]; cbn; lia. Qed.

Lemma iter_shr_nonneg n mrs : 0 <= shr_m mrs -> 0 <= shr_m (SpecFloat.iter_pos shr_1 n mrs).
Proof. revert mrs. induction n as [n IH|n IH|]; intros mrs H; cbn; auto using shr_1_nonneg. Qed.

Lemma shr_fexp_nonneg m e l : 0 <= m -> 0 <= shr_m (shr_fexp 53 1024 m e l).1.
Proof.
  intros Hm. unfold shr_fexp, shr. assert (0 <= shr_m (shr_record_of_loc m l)) by by destruct l as [|[]].
  destruct (_ - e); [done|by apply iter_shr_nonneg|done].
Qed.

Lemma round_aux_nonneg m e l : 0 <= m -> f64_nonneg (binary_round_aux 53 1024 false m e l).
Proof.
  intros Hm. unfold binary_round_aux. pose proof (shr_fexp_nonneg m e l Hm) as H1. destruct (shr_fexp 53 1024 m e l) as [r1 e1].
  assert (0 <= round_nearest_even (shr_m r1) (loc_of_shr_record r1)) as H2.
  { cbn in H1. unfold round_nearest_even. destruct (loc_of_shr_record r1) as [|[]]; [done| |done|lia]. case_match; lia. }
  pose proof (shr_fexp_nonneg _ e1 loc_Exact H2) as H3. destruct (shr_fexp 53 1024 _ e1 loc_Exact) as [r2 e2]. cbn in H3.
  destruct (shr_m r2); [done| |lia]. by destruct (_ <=? _).
Qed.

Lemma f64_div_nonneg x y : 0 <= x < 2 ^ 53 -> 0 < y < 2 ^ 53 -> f64_nonneg (f64_div (f64_of_Z x) (f64_of_Z y)).
Proof.
  intros Hx Hy. destruct y as [|y|y]; [lia| |lia]. destruct (f64_exact y ltac:(lia)) as (my & ey & ->).
  destruct x as [|x|x]; [done| |lia]. destruct (f64_exact x ltac:(lia)) as (mx & ex & ->).
  unfold f64_div, SFdiv. cbn [xorb]. unfold SFdiv_core_binary. set (s := _ - _ - _).
  set (m' := match s with Z.pos _ => _ | _ => _ end).
  assert (0 <= m') as Hm'. { unfold m'. destruct s; [lia| |lia]. by apply Z.shiftl_nonneg. }
  pose proof (Z_div_mod m' (Z.pos my) ltac:(lia)) as Hd. destruct (Z.div_eucl m' (Z.pos my)) as [q r].
  apply round_aux_nonneg. destruct Hd as [E Hr]. nia.
Qed.
