(* ===== verification/MemHier.v ===== *)
(** * Memory hierarchy types (src/src/memory_hierarchy.h, memory_hierarchy.cpp)

    Access and invalidation types, MESI states, request records and flags, and
    the debug-name tables. *)

From S2P Require Import Prelude.

Inductive AccessType := GETS | GETX | PUTS | PUTX.
Inductive InvType := INV | INVX | FWD.
(** The source's [I], [S], [E], [M]; the prefix keeps [S] free for [nat]. *)
Inductive MESIState := stI | stS | stE | stM.

Global Instance AccessType_eq_dec : EqDecision AccessType.
Proof. solve_decision. Defined.
Global Instance InvType_eq_dec : EqDecision InvType.
Proof. solve_decision. Defined.
Global Instance MESIState_eq_dec : EqDecision MESIState.
Proof. solve_decision. Defined.

Definition IsGet (t : AccessType) : bool :=
  match t with GETS | GETX => true | _ => false end.
Definition IsPut (t : AccessType) : bool :=
  match t with PUTS | PUTX => true | _ => false end.

(** ** Debug names: the three static tables of memory_hierarchy.cpp *)

Definition accessTypeNames : list string := ["GETS"; "GETX"; "PUTS"; "PUTX"]%string.
Definition invTypeNames : list string := ["INV"; "INVX"]%string.
Definition mesiStateNames : list string := ["I"; "S"; "E"; "M"]%string.

(** The enumerators' integer values. *)
Definition AccessType_val (t : AccessType) : nat :=
  match t with GETS => 0 | GETX => 1 | PUTS => 2 | PUTX => 3 end.
Definition InvType_val (t : InvType) : nat :=
  match t with INV => 0 | INVX => 1 | FWD => 2 end.
Definition MESIState_val (s : MESIState) : nat :=
  match s with stI => 0 | stS => 1 | stE => 2 | stM => 3 end.

(** [assert_msg(t < sizeof(table)/sizeof(char* ))], then the table entry. *)
Definition name_in (table : list string) (v : nat) : outcome string :=
  check (bool_decide (v < length table)%nat) ≫= fun _ => rd table v.

Definition AccessTypeName (t : AccessType) : outcome string :=
  name_in accessTypeNames (AccessType_val t).
Definition InvTypeName (t : InvType) : outcome string :=
  name_in invTypeNames (InvType_val t).
Definition MESIStateName (s : MESIState) : outcome string :=
  name_in mesiStateNames (MESIState_val s).

(** ** Requests *)

(** Flag bits of [MemReq::Flag]. *)
Definition IFETCH : Z := 2.
Definition NOEXCL : Z := 4.
Definition NONINCLWB : Z := 8.
Definition PUTX_KEEPEXCL : Z := 16.
Definition PREFETCH : Z := 32.

(** The [MESIState*] of a request: the requester's line in its bottom
    controller's array, or the core-side dummy variable (always [I]). *)
Inductive StateRef :=
  | DummyState
  | LineState (cache : nat) (lineId : nat).

(** The [lock_t*] of a request: the child's ccLock, its filter lock, or null. *)
Inductive LockRef :=
  | NoLock
  | CCLock (cache : nat)
  | FilterLock (cache : nat).

Record MemReq := mkReq {
  lineAddr : Z;
  type : AccessType;
  childId : nat;
  state : StateRef;
  cycle : Z;
  childLock : LockRef;
  initialState : MESIState;
  srcId : nat;
  flags : Z
}.

(** [MemReq::is] and [MemReq::set]. *)
Definition req_is (r : MemReq) (f : Z) : bool := negb (Z.land (flags r) f =? 0)%Z.
Definition req_set (r : MemReq) (f : Z) : MemReq :=
  mkReq (lineAddr r) (type r) (childId r) (state r) (cycle r) (childLock r)
        (initialState r) (srcId r) (Z.lor (flags r) f).
Definition req_with_type (r : MemReq) (t : AccessType) : MemReq :=
  mkReq (lineAddr r) t (childId r) (state r) (cycle r) (childLock r)
        (initialState r) (srcId r) (flags r).

(** An invalidation. [bool* writeback] is threaded through the calls as a value. *)
Record InvReq := mkInv {
  i_lineAddr : Z;
  i_type : InvType;
  i_cycle : Z;
  i_srcId : nat
}.
