(* ===== verification/MTRand.v ===== *)
(** * Mersenne twister (src/src/mtrand.h)

    The generator behind the random replacement arrays, the H3 matrices and the
    skew selection: state vector, seeding, reload, tempering, bounded draws,
    save and load.  State words are 64-bit in the source but hold 32-bit
    values; [wf] states that. *)

From S2P Require Import Prelude.
Local Open Scope Z_scope.

Module MTRand.

Definition N : nat := 624.
Definition M : nat := 397.

(** [pNext] is the offset of the C++ pointer into [state]. *)
Record t := mk { state : list Z; pNext : nat; left : nat }.

Definition hiBit (u : Z) : Z := Z.land u 0x80000000.
Definition loBit (u : Z) : Z := Z.land u 0x00000001.
Definition loBits (u : Z) : Z := Z.land u 0x7fffffff.
Definition mixBits (u v : Z) : Z := Z.lor (hiBit u) (loBits v).
Definition magic (u : Z) : Z := if bool_decide (loBit u = 0) then 0 else 0x9908b0df.
Definition twist (m s0 s1 : Z) : Z :=
  Z.lxor (Z.lxor m (Z.shiftr (mixBits s0 s1) 1)) (magic s1).

(** One iteration of the seeding loop: [*s++] from the word before it. *)
Definition init_word (r : Z) (i : nat) : Z :=
  Z.land (u64 (u64 (1812433253 * Z.lxor r (Z.shiftr r 30)) + Z.of_nat i)) 0xffffffff.

Fixpoint initialize_from (r : Z) (i : nat) (n : nat) : list Z :=
  match n with
  | O => []
  | S n' => let w := init_word r i in w :: initialize_from w (S i) n'
  end.

Definition initialize (seed : Z) : list Z :=
  let s0 := Z.land seed 0xffffffff in s0 :: initialize_from s0 1 (N - 1).

(** The two loops of [reload] and its last word. [p\[M\]] is read [M] words
    ahead in the first loop and [N - M] words behind in the second. *)
Definition reload_step1 (st : list Z) (p : nat) : list Z :=
  <[p := twist (st !!! (p + M)%nat) (st !!! p) (st !!! (p + 1)%nat)]> st.
Definition reload_step2 (st : list Z) (p : nat) : list Z :=
  <[p := twist (st !!! (p - (N - M))%nat) (st !!! p) (st !!! (p + 1)%nat)]> st.

Definition reload (g : t) : t :=
  let st1 := foldl reload_step1 (state g) (seq 0 (N - M)) in
  let st2 := foldl reload_step2 st1 (seq (N - M) (M - 1)) in
  let p := (N - 1)%nat in
  let st3 := <[p := twist (st2 !!! (p - (N - M))%nat) (st2 !!! p) (st2 !!! 0%nat)]> st2 in
  mk st3 0 N.

Definition seed (oneSeed : Z) : t := reload (mk (initialize oneSeed) 0 0).

Definition temper (s : Z) : Z :=
  let s1 := Z.lxor s (Z.shiftr s 11) in
  let s2 := Z.lxor s1 (Z.land (u64 (Z.shiftl s1 7)) 0x9d2c5680) in
  let s3 := Z.lxor s2 (Z.land (u64 (Z.shiftl s2 15)) 0xefc60000) in
  Z.lxor s3 (Z.shiftr s3 18).

Definition randInt (g : t) : Z * t :=
  let g := if bool_decide (left g = 0%nat) then reload g else g in
  (temper (state g !!! pNext g), mk (state g) (S (pNext g)) (left g - 1)).

Definition used_bits (n : Z) : Z :=
  let u := Z.lor n (Z.shiftr n 1) in
  let u := Z.lor u (Z.shiftr u 2) in
  let u := Z.lor u (Z.shiftr u 4) in
  let u := Z.lor u (Z.shiftr u 8) in
  Z.lor u (Z.shiftr u 16).

(** [randInt(n)]: draws are rejected until one is at most [n]; the do-while
    loop has no bound in the source, so it runs on fuel here. *)
Fixpoint randInt_loop (fuel : nat) (used n : Z) (g : t) : outcome (Z * t) :=
  match fuel with
  | O => Fault OutOfFuel
  | S fuel' =>
      let '(v, g') := randInt g in
      let i := Z.land v used in
      if i >? n then randInt_loop fuel' used n g' else Ok (i, g')
  end.

Definition randIntN (fuel : nat) (g : t) (n : Z) : outcome (Z * t) :=
  randInt_loop fuel (used_bits n) n g.

(** [save]: the state words and then [left]; [load] rebuilds [pNext] from it. *)
Definition save (g : t) : list Z := state g ++ [Z.of_nat (left g)].
Definition load (a : list Z) : t :=
  let l := Z.to_nat (a !!! N) in mk (take N a) (N - l) l.

End MTRand.

(** ** Well-formed generators and the range of a draw *)

Module MTRandSpec.
Import MTRand.

Definition wf (g : t) : Prop :=
  length (state g) = N /\ Forall (word 32) (state g) /\ (pNext g + left g = N)%nat.

Lemma word_masked w x m : 0 <= w -> word w m -> word w (Z.land x m).
Proof. intros. by apply word_land_r. Qed.

Lemma init_word_word r i : word 32 (init_word r i).
Proof. apply word_masked; [lia|]. by split; vm_compute. Qed.

Lemma initialize_from_spec r i n :
  length (initialize_from r i n) = n /\ Forall (word 32) (initialize_from r i n).
Proof.
  revert r i. induction n as [|n IH]; intros r i; cbn; [by split|].
  destruct (IH (init_word r i) (S i)) as [Hl HF]. split; [by rewrite Hl|].
  constructor; [apply init_word_word|done].
Qed.

Lemma initialize_spec s : length (initialize s) = N /\ Forall (word 32) (initialize s).
Proof.
  unfold initialize. destruct (initialize_from_spec (Z.land s 0xffffffff) 1 (N - 1)) as [Hl HF].
  split; [cbn [length]; rewrite Hl; reflexivity|].
  constructor; [|done]. apply word_masked; [lia|]. by split; vm_compute.
Qed.

Lemma twist_word m s0 s1 : word 32 m -> word 32 (twist m s0 s1).
Proof.
  intros Hm. unfold twist, mixBits, hiBit, loBits, magic. repeat apply word_lxor; try lia; try done.
  - apply word_shiftr; [lia..|]. apply word_lor; [lia|..]; (apply word_masked; [lia|by split; vm_compute]).
  - case_bool_decide; by split; vm_compute.
Qed.

Lemma Forall_lookup_total_word (l : list Z) i : Forall (word 32) l -> word 32 (l !!! i).
Proof.
  intros H. destruct (l !! i) as [x|] eqn:E.
  - rewrite (list_lookup_total_correct _ _ _ E). by eapply Forall_lookup_1.
  - rewrite list_lookup_total_alt, E. by split; vm_compute.
Qed.

Definition good (l : list Z) : Prop := length l = N /\ Forall (word 32) l.

Lemma good_twist l p a b c : good l -> good (<[p := twist (l !!! a) b c]> l).
Proof.
  intros [Hl HF]. split; [by rewrite length_insert|].
  apply Forall_insert; [done|]. by apply twist_word, Forall_lookup_total_word.
Qed.

Lemma good_fold (step : list Z -> nat -> list Z) ps :
  (forall l p, good l -> good (step l p)) -> forall l, good l -> good (foldl step l ps).
Proof. intros Hs. induction ps as [|p ps IH]; intros l Hl; cbn; auto. Qed.

Lemma reload_wf g : good (state g) -> wf (reload g).
Proof.
  intros Hg. unfold wf, reload. cbn [state pNext left].
  set (st2 := foldl reload_step2 _ _).
  assert (good st2) as H2.
  { apply good_fold; [intros; by apply good_twist|].
    apply good_fold; [intros; by apply good_twist|done]. }
  destruct (good_twist st2 (N - 1) (N - 1 - (N - M)) (st2 !!! (N - 1)%nat) (st2 !!! 0%nat) H2)
    as [Hl HF].
  split; [exact Hl|]. split; [exact HF|done].
Qed.

Lemma seed_wf s : wf (seed s).
Proof. apply reload_wf, initialize_spec. Qed.

Lemma temper_word s : word 32 s -> word 32 (temper s).
Proof.
  intros Hs. unfold temper. cbv zeta.
  assert (Hm1 : word 32 0x9d2c5680) by by split; vm_compute.
  assert (Hm2 : word 32 0xefc60000) by by split; vm_compute.
  set (s1 := Z.lxor s (Z.shiftr s 11)).
  assert (word 32 s1) by (unfold s1; auto with word).
  set (s2 := Z.lxor s1 _). assert (word 32 s2).
  { unfold s2. apply word_lxor; [lia|done|]. by apply word_masked. }
  set (s3 := Z.lxor s2 _). assert (word 32 s3).
  { unfold s3. apply word_lxor; [lia|done|]. by apply word_masked. }
  auto with word.
Qed.

Lemma randInt_spec g : wf g -> word 32 (fst (randInt g)) /\ wf (snd (randInt g)).
Proof.
  intros (Hl & HF & Hp). unfold randInt.
  set (g' := if bool_decide (left g = 0%nat) then reload g else g).
  assert (wf g' /\ (0 < left g')%nat) as [(Hl' & HF' & Hp') Hpos].
  { unfold g'. case_bool_decide.
    - split; [apply reload_wf; by split|]. cbn. unfold N. lia.
    - split; [by split|lia]. }
  cbn [fst snd]. split.
  - by apply temper_word, Forall_lookup_total_word.
  - split; [done|]. split; [done|]. cbn [pNext left]. lia.
Qed.

End MTRandSpec.

(** ** Properties of the generator *)

Section MTRandProps.
Import MTRand MTRandSpec.

Lemma used_bits_ge n : 0 <= n -> word 32 n -> n <= used_bits n /\ word 32 (used_bits n).
Proof.
  intros Hn Hw.
  assert (forall u k, 0 <= k -> 0 <= u -> word 32 u ->
            u <= Z.lor u (Z.shiftr u k) /\ word 32 (Z.lor u (Z.shiftr u k))) as Hstep.
  { intros u k Hk Hu Hwu. split; [|auto with word].
    apply Z.ldiff_le; [apply Z.lor_nonneg; split; [done|by apply Z.shiftr_nonneg]|].
    apply Z.bits_inj'. intros i Hi. rewrite Z.ldiff_spec, Z.lor_spec, Z.bits_0.
    by destruct (Z.testbit u i). }
  unfold used_bits. cbv zeta.
  destruct (Hstep n 1) as [L1 W1]; [lia..|done|].
  destruct (Hstep _ 2 ltac:(lia) ltac:(apply W1) W1) as [L2 W2].
  destruct (Hstep _ 4 ltac:(lia) ltac:(apply W2) W2) as [L3 W3].
  destruct (Hstep _ 8 ltac:(lia) ltac:(apply W3) W3) as [L4 W4].
  destruct (Hstep _ 16 ltac:(lia) ltac:(apply W4) W4) as [L5 W5].
  split; [lia|done].
Qed.

Lemma randInt_loop_spec fuel used n g i g' :
  wf g -> randInt_loop fuel used n g = Ok (i, g') -> 0 <= i <= n /\ wf g'.
Proof.
  revert g. induction fuel as [|fuel IH]; intros g Hg; cbn [randInt_loop]; [done|].
  destruct (randInt_spec g Hg) as [Hv Hg']. destruct (randInt g) as [v g1]. cbn [fst snd] in *.
  destruct (Z.land v used >? n) eqn:E; [by apply IH|].
  intros [= <- <-]. split; [|done]. rewrite Z.gtb_ltb, Z.ltb_ge in E.
  split; [apply Z.land_nonneg; left; apply Hv|done].
Qed.

(** A mask [2^k - 1] is its own [used] set, so the first draw is accepted. *)
Lemma used_bits_ones k : 0 <= k <= 32 -> used_bits (Z.ones k) = Z.ones k.
Proof.
  intros Hk.
  assert (forall m, 0 <= m -> Z.lor (Z.ones k) (Z.shiftr (Z.ones k) m) = Z.ones k) as Hs.
  { intros m Hm. apply Z.bits_inj'. intros i Hi. rewrite Z.lor_spec, Z.shiftr_spec by lia.
    rewrite !Z.testbit_ones_nonneg by lia.
    destruct (Z.ltb_spec i k), (Z.ltb_spec (i + m) k); cbn; lia. }
  unfold used_bits. cbv zeta. by rewrite !Hs by lia.
Qed.

Lemma randIntN_mask fuel g k :
  wf g -> 0 <= k <= 32 ->
  exists g', randIntN (S fuel) g (Z.ones k) = Ok (Z.land (fst (randInt g)) (Z.ones k), g') /\ wf g'.
Proof.
  intros Hg Hk. unfold randIntN. rewrite used_bits_ones by done. cbn [randInt_loop].
  destruct (randInt_spec g Hg) as [Hv Hg']. destruct (randInt g) as [v g1]. cbn [fst snd] in *.
  exists g1. split; [|done].
  destruct (Z.land v (Z.ones k) >? Z.ones k) eqn:E; [|done].
  exfalso. rewrite Z.gtb_ltb, Z.ltb_lt, Z.land_ones, Z.ones_equiv in E by lia.
  assert (0 < 2 ^ k) by (apply Z.pow_pos_nonneg; lia).
  pose proof (Z.mod_pos_bound v (2 ^ k) ltac:(lia)). lia.
Qed.

(** [load] after [save] is the generator itself. *)
Lemma load_save g : wf g -> load (save g) = g.
Proof.
  destruct g as [st p l]. intros (Hl & _ & Hp). cbn in *. unfold load, save. cbn [state left].
  assert ((st ++ [Z.of_nat l]) !!! N = Z.of_nat l) as ->.
  { apply list_lookup_total_correct. rewrite lookup_app_r by lia.
    by replace (N - length st)%nat with 0%nat by lia. }
  rewrite Nat2Z.id. rewrite take_app_le by lia. rewrite take_ge by lia. f_equal. lia.
Qed.

(** Tempering is GF(2)-linear and hence, its kernel being trivial, injective:
    it is four xor-shift steps, each of them linear. *)
Definition xor_right (k x : Z) : Z := Z.lxor x (Z.shiftr x k).
Definition xor_left (k m x : Z) : Z := Z.lxor x (Z.land (u64 (Z.shiftl x k)) m).

Lemma temper_steps x :
  temper x = xor_right 18 (xor_left 15 0xefc60000 (xor_left 7 0x9d2c5680 (xor_right 11 x))).
Proof. reflexivity. Qed.

Lemma xor_right_linear k x y : 0 <= k ->
  xor_right k (Z.lxor x y) = Z.lxor (xor_right k x) (xor_right k y).
Proof.
  intros Hk. unfold xor_right. apply Z.bits_inj'. intros i Hi.
  rewrite !Z.lxor_spec, !Z.shiftr_spec, !Z.lxor_spec by lia.
  by destruct (Z.testbit x i), (Z.testbit y i), (Z.testbit x _), (Z.testbit y _).
Qed.

Lemma xor_left_linear k m x y : 0 <= k ->
  xor_left k m (Z.lxor x y) = Z.lxor (xor_left k m x) (xor_left k m y).
Proof.
  intros Hk. unfold xor_left, wrap. apply Z.bits_inj'. intros i Hi.
  rewrite !Z.lxor_spec, !Z.land_spec. destruct (Z.ltb_spec i 64).
  - rewrite !Z.mod_pow2_bits_low by lia. rewrite !Z.shiftl_spec, !Z.lxor_spec by lia.
    by destruct (Z.testbit x i), (Z.testbit y i), (Z.testbit x _), (Z.testbit y _), (Z.testbit m i).
  - rewrite !Z.mod_pow2_bits_high by lia. by destruct (Z.testbit x i), (Z.testbit y i).
Qed.

Lemma temper_lxor x y : temper (Z.lxor x y) = Z.lxor (temper x) (temper y).
Proof. by rewrite !temper_steps, xor_right_linear, !xor_left_linear, xor_right_linear by lia. Qed.

End MTRandProps.
