(* ===== verification/Hash.v ===== *)
(** * Hash families (src/src/hash.h, src/src/hash.cpp)

    H3 with its hand-unrolled loop, the four-round Feistel cipher of the CEASER
    array, the identity family, and the SHA1 family as built without PolarSSL. *)

From S2P Require Import Prelude MTRand.
Local Open Scope Z_scope.

(** ** H3 *)

Module H3.

Record t := mk { numFuncs : nat; resShift : Z; hMatrix : list Z }.

Definition resShift_of (outputBits : Z) : outcome Z :=
  if outputBits <=? 8 then Ok 3
  else if outputBits <=? 16 then Ok 2
  else if outputBits <=? 32 then Ok 1
  else if outputBits <=? 64 then Ok 0
  else Fault Panicked.

Definition words (rs : Z) : nat := Z.to_nat (Z.shiftr 64 rs).

(** One matrix word: 64 draws, one bit each, most significant first. *)
Fixpoint gen_word (n : nat) (val : Z) (rnd : MTRand.t) : Z * MTRand.t :=
  match n with
  | O => (val, rnd)
  | S n' =>
      let val := u64 (Z.shiftl val 1) in
      let '(r, rnd) := MTRand.randInt rnd in
      gen_word n' (if r `mod` 2 =? 0 then val +64 1 else val) rnd
  end.

Fixpoint gen_matrix (n : nat) (rnd : MTRand.t) : list Z :=
  match n with
  | O => []
  | S n' => let '(w, rnd) := gen_word 64 0 rnd in w :: gen_matrix n' rnd
  end.

Definition make (numFunctions : nat) (outputBits randSeed : Z) : outcome t :=
  rs ← resShift_of outputBits;
  mret (mk numFunctions rs (gen_matrix (words rs * numFunctions) (MTRand.seed randSeed))).

(** [(x << k) | (x >> (64 - k))]. *)
Definition rotl (k x : Z) : Z := Z.lor (u64 (Z.shiftl x k)) (Z.shiftr x (64 - k)).

(** One pass of the 8-way unrolled loop. *)
Definition hash_block (h : list Z) (val : Z) (base : nat) (res : Z) : outcome Z :=
  h0 ← rd h base; h1 ← rd h (base + 1)%nat; h2 ← rd h (base + 2)%nat; h3 ← rd h (base + 3)%nat;
  h4 ← rd h (base + 4)%nat; h5 ← rd h (base + 5)%nat; h6 ← rd h (base + 6)%nat; h7 ← rd h (base + 7)%nat;
  let res0 := Z.land val h0 in let res1 := Z.land val h1 in
  let res2 := Z.land val h2 in let res3 := Z.land val h3 in
  let res4 := Z.land val h4 in let res5 := Z.land val h5 in
  let res6 := Z.land val h6 in let res7 := Z.land val h7 in
  let res := Z.lxor res (Z.lxor (Z.lxor (Z.lxor res0 (rotl 1 res1)) (rotl 2 res2)) (rotl 3 res3)) in
  let res := Z.lxor res (Z.lxor (Z.lxor (Z.lxor (rotl 4 res4) (rotl 5 res5)) (rotl 6 res6)) (rotl 7 res7)) in
  mret (rotl 8 res).

Fixpoint hash_loop (h : list Z) (val : Z) (base : nat) (n : nat) (res : Z) : outcome Z :=
  match n with
  | O => mret res
  | S n' => res ← hash_block h val base res; hash_loop h val (base + 8)%nat n' res
  end.

(** Folding of the 64-bit result by [resShift]. *)
Definition fold_bits (rs res : Z) : Z :=
  if rs =? 1 then Z.lxor (Z.shiftr res 32) res
  else if rs =? 2 then
    let res := Z.lxor (Z.shiftr res 32) res in Z.lxor (Z.shiftr res 16) res
  else if rs =? 3 then
    let res := Z.lxor (Z.shiftr res 32) res in
    let res := Z.lxor (Z.shiftr res 16) res in Z.lxor (Z.shiftr res 8) res
  else res.

Definition hash (f : t) (id : nat) (val : Z) : outcome Z :=
  _ ← check (bool_decide (id < numFuncs f)%nat);
  let base := Z.to_nat (Z.shiftl (Z.of_nat id) (6 - resShift f)) in
  res ← hash_loop (hMatrix f) val base (words (resShift f) / 8) 0;
  mret (fold_bits (resShift f) res).

(** The "original, simpler code" quoted in the comment above [hash]. *)
Fixpoint reference_loop (h : list Z) (val : Z) (x : nat) (n : nat) (res : Z) : outcome Z :=
  match n with
  | O => mret res
  | S n' =>
      w ← rd h x;
      let res := Z.lxor res (Z.land val w) in
      reference_loop h val (S x) n' (Z.lor (u64 (Z.shiftl res 1)) (Z.shiftr res 63))
  end.

Definition hash_reference (h : list Z) (id : nat) (val : Z) : outcome Z :=
  reference_loop h val (id * 64) 64 0.

End H3.

(** ** Feistel *)

Module Feistel.

Record t := mk { sMat : list (list Z); pMat : list (list Z); keys : list Z; width : Z }.

(** The inner constructor loop: the 32 rows of one round's S and P matrices.
    The two draws joined by [|] are taken left to right. *)
Fixpoint gen_rows (n : nat) (rng : MTRand.t) : list Z * list Z * MTRand.t :=
  match n with
  | O => ([], [], rng)
  | S n' =>
      let '(a, rng) := MTRand.randInt rng in
      let '(b, rng) := MTRand.randInt rng in
      let '(c, rng) := MTRand.randInt rng in
      let '(ss, ps, rng) := gen_rows n' rng in
      (Z.lor a (u64 (Z.shiftl b 32)) :: ss, c :: ps, rng)
  end.

Fixpoint gen_rounds (k : nat) (rng : MTRand.t) : list (list Z) * list (list Z) * MTRand.t :=
  match k with
  | O => ([], [], rng)
  | S k' =>
      let '(s, p, rng) := gen_rows 32 rng in
      let '(ss, ps, rng) := gen_rounds k' rng in (s :: ss, p :: ps, rng)
  end.

Fixpoint gen_keys (n : nat) (rng : MTRand.t) : list Z :=
  match n with
  | O => []
  | S n' => let '(k, rng) := MTRand.randInt rng in u64 (Z.shiftl k 32) :: gen_keys n' rng
  end.

Definition make (seed : Z) : t :=
  let '(ss, ps, rng) := gen_rounds 4 (MTRand.seed seed) in
  mk ss ps (gen_keys 4 rng) 64.

(** XOR of the bits of [val] at the positions where [row] is 0. *)
Fixpoint bitXor_from (val row : Z) (i n : nat) (result : Z) : Z :=
  match n with
  | O => result
  | S n' =>
      let t1 := Z.land (Z.shiftr val (Z.of_nat i)) 1 in
      let t2 := Z.land (Z.shiftr row (Z.of_nat i)) 1 in
      bitXor_from val row (S i) n' (if t2 =? 0 then Z.lxor result t1 else result)
  end.

Definition bitXor (val row : Z) (size : nat) : outcome Z :=
  let result := bitXor_from val row 0 size 0 in
  _ ← check (result - Z.land result 1 =? 0);
  mret result.

(** [acc | (bitXor(v, rows\[j\], size) << j)] for the 32 rows. *)
Fixpoint matrix_apply (rows : list Z) (v : Z) (size : nat) (j n : nat) (acc : Z) : outcome Z :=
  match n with
  | O => mret acc
  | S n' =>
      row ← rd rows j;
      temp ← bitXor v row size;
      matrix_apply rows v size (S j) n' (Z.lor acc (u32 (Z.shiftl temp (Z.of_nat j))))
  end.

Definition round (f : t) (i : nat) (up_down : Z * Z) : outcome (Z * Z) :=
  let '(up_input, down_input) := up_down in
  k ← rd (keys f) i;
  s ← rd (sMat f) i;
  p ← rd (pMat f) i;
  let f_input := Z.lor up_input k in
  let n := Z.to_nat (width f / 2) in
  s_result ← matrix_apply s f_input 64 0 n 0;
  _ ← check (Z.shiftr s_result 32 =? 0);
  p_result ← matrix_apply p s_result 32 0 n 0;
  _ ← check (Z.shiftr s_result 32 =? 0);
  _ ← check (Z.shiftr p_result 32 =? 0);
  _ ← check (Z.shiftr up_input 32 =? 0);
  _ ← check (Z.shiftr down_input 32 =? 0);
  mret (Z.lxor down_input p_result, up_input).

Definition rounds (f : t) (up_down : Z * Z) : outcome (Z * Z) :=
  st ← round f 0 up_down; st ← round f 1 st; st ← round f 2 st; round f 3 st.

(** [stage_output] is the last round's new [up_input]. *)
Definition hash (f : t) (id : nat) (val : Z) : outcome Z :=
  let l := Z.shiftr val 32 in
  let r := Z.shiftr (u64 (Z.shiftl val 32)) 32 in
  st ← rounds f (l, r);
  mret (fst st).

End Feistel.

(** ** The polymorphic [HashFamily] *)

Inductive HashFamily :=
  | IdHash
  | H3Hash (h : H3.t)
  | FeistelHash (f : Feistel.t)
  | SHA1Hash.

Definition hash (hf : HashFamily) (id : nat) (val : Z) : outcome Z :=
  match hf with
  | IdHash => Ok val
  | H3Hash h => H3.hash h id val
  | FeistelHash f => Feistel.hash f id val
  | SHA1Hash => Fault Panicked
  end.

(** ** Rotations *)

Section rotations.
Import H3.

Lemma rotl_spec k x i : word 64 x -> 0 <= k < 64 -> 0 <= i ->
  Z.testbit (rotl k x) i = (i <? 64) && Z.testbit x ((i - k) `mod` 64).
Proof.
  intros Hx Hk Hi. unfold rotl, wrap. apply word_testbit in Hx as [Hx0 Hx]; [|lia].
  rewrite Z.lor_spec, Z.shiftr_spec by lia. destruct (Z.ltb_spec i 64); cbn.
  - rewrite Z.mod_pow2_bits_low, Z.shiftl_spec by lia. destruct (Z_lt_le_dec i k).
    + rewrite Z.testbit_neg_r by lia. cbn. f_equal.
      replace (i - k) with (i - k + 64 + (-1) * 64) by lia.
      rewrite Z.mod_add, Z.mod_small by lia. lia.
    + rewrite (Z.mod_small (i - k)) by lia. rewrite (Hx (i + _)) by lia. by rewrite orb_false_r.
  - rewrite Z.mod_pow2_bits_high by lia. apply Hx. lia.
Qed.

Lemma rotl_word k x : 0 <= k < 64 -> word 64 x -> word 64 (rotl k x).
Proof.
  intros Hk Hx. unfold rotl. apply word_lor; [lia|by apply word_wrap|].
  by apply word_shiftr; [lia..|].
Qed.

Lemma rotl_lxor k x y : word 64 x -> word 64 y -> 0 <= k < 64 ->
  rotl k (Z.lxor x y) = Z.lxor (rotl k x) (rotl k y).
Proof.
  intros Hx Hy Hk. apply Z.bits_inj'. intros i Hi.
  rewrite Z.lxor_spec, !rotl_spec by (done || by apply word_lxor).
  rewrite Z.lxor_spec. by destruct (i <? 64), (Z.testbit x _), (Z.testbit y _).
Qed.

Lemma rotl_rotl j k x : word 64 x -> 0 <= j < 64 -> 0 <= k < 64 -> j + k < 64 ->
  rotl j (rotl k x) = rotl (j + k) x.
Proof.
  intros Hx Hj Hk Hjk. apply Z.bits_inj'. intros i Hi.
  pose proof (Z.mod_pos_bound (i - j) 64 ltac:(lia)).
  rewrite !rotl_spec by (done || lia || by apply rotl_word).
  rewrite (proj2 (Z.ltb_lt ((i - j) `mod` 64) 64)) by lia. cbn [andb].
  rewrite Zminus_mod_idemp_l. by replace (i - (j + k)) with (i - j - k) by lia.
Qed.

Lemma rotl_0 x : word 64 x -> rotl 0 x = x.
Proof.
  intros Hx. apply Z.bits_inj'. intros i Hi. rewrite rotl_spec by (done || lia).
  rewrite Z.sub_0_r. destruct (Z.ltb_spec i 64); cbn; [by rewrite Z.mod_small by lia|].
  symmetry. apply word_testbit in Hx as [_ Hx]; [|lia]. by apply Hx.
Qed.

End rotations.

#[export] Hint Extern 2 (word _ (H3.rotl _ _)) => apply rotl_word; [lia|] : word.
#[export] Hint Extern 3 (word _ (Z.land _ _)) => apply word_land_l; [lia|] : word.

(** ** H3: totality, linearity, and the comment's reference loop *)

Module H3Spec.
Import H3.

Definition wf (f : t) : Prop :=
  0 <= resShift f <= 3 /\
  length (hMatrix f) = (words (resShift f) * numFuncs f)%nat /\
  Forall (word 64) (hMatrix f).

(** The value of a pass over eight rows, without the bounds checks. *)
Definition xor_rows (val : Z) (rows : list Z) : Z :=
  foldr Z.lxor 0 (imap (fun k r => rotl (Z.of_nat k) (Z.land val r)) rows).

Definition block_pure (h : list Z) (val : Z) (base : nat) (res : Z) : Z :=
  rotl 8 (Z.lxor res (xor_rows val (take 8 (drop base h)))).

Fixpoint loop_pure (h : list Z) (val : Z) (base : nat) (n : nat) (res : Z) : Z :=
  match n with
  | O => res
  | S n' => loop_pure h val (base + 8) n' (block_pure h val base res)
  end.

Lemma take8 {A} (h : list A) base : (base + 8 <= length h)%nat ->
  exists a b c d e f g i, take 8 (drop base h) = [a; b; c; d; e; f; g; i].
Proof.
  intros Hb. assert (length (take 8 (drop base h)) = 8%nat) as Hl.
  { rewrite length_take, length_drop. lia. }
  destruct (take 8 (drop base h)) as [|a [|b [|c [|d [|e [|f [|g [|i [|]]]]]]]]]; try discriminate Hl.
  eauto 10.
Qed.

Lemma rd_take_drop {A} (h : list A) base k n x :
  take n (drop base h) !! k = Some x -> rd h (base + k) = Ok x.
Proof.
  intros Hk. apply rd_some. rewrite lookup_take_Some, lookup_drop in Hk. by destruct Hk.
Qed.

Lemma hash_block_pure h val base res : word 64 val ->
  (base + 8 <= length h)%nat ->
  hash_block h val base res = Ok (block_pure h val base res).
Proof.
  intros Hv Hb. destruct (take8 h base Hb) as (a & b & c & d & e & f & g & i & Ht).
  unfold hash_block, block_pure. rewrite Ht.
  rewrite <- (Nat.add_0_r base) at 1.
  rewrite (rd_take_drop h base 0 8 a), (rd_take_drop h base 1 8 b), (rd_take_drop h base 2 8 c),
    (rd_take_drop h base 3 8 d), (rd_take_drop h base 4 8 e), (rd_take_drop h base 5 8 f),
    (rd_take_drop h base 6 8 g), (rd_take_drop h base 7 8 i) by (by rewrite Ht).
  unfold mbind, mret, outcome_bind, outcome_ret, xor_rows. cbn [imap foldr].
  unfold compose. change (Z.of_nat 0) with 0.
  rewrite (rotl_0 (Z.land val a)) by (apply word_land_l; [lia|done]).
  by rewrite Z.lxor_0_r, !Z.lxor_assoc.
Qed.

Lemma block_pure_word h val base res : word 64 val -> word 64 res ->
  word 64 (block_pure h val base res).
Proof.
  intros Hv Hr. unfold block_pure. apply rotl_word; [lia|]. apply word_lxor; [lia|done|].
  unfold xor_rows. assert (length (take 8 (drop base h)) <= 8)%nat as Hl by (rewrite length_take; lia).
  revert Hl. generalize (take 8 (drop base h)) as l. intros l Hl.
  cut (forall l off, (off + length l <= 8)%nat ->
    word 64 (foldr Z.lxor 0 (imap (fun k r => rotl (Z.of_nat (off + k)) (Z.land val r)) l))).
  { intros H. apply (H l 0%nat). lia. }
  clear l Hl. induction l as [|r l IH]; intros off Hl; cbn -[Z.of_nat rotl]; [by apply word_0|].
  cbn [length] in Hl. apply word_lxor; [lia|apply rotl_word; [lia|by apply word_land_l]|].
  specialize (IH (S off) ltac:(lia)). erewrite imap_ext; [exact IH|].
  intros. unfold compose. f_equal. lia.
Qed.

Lemma hash_loop_pure h val base n res : word 64 val ->
  (base + 8 * n <= length h)%nat ->
  hash_loop h val base n res = Ok (loop_pure h val base n res).
Proof.
  intros Hv. revert base res. induction n as [|n IH]; intros base res Hb; cbn; [done|].
  rewrite hash_block_pure by (done || lia). unfold mbind, outcome_bind. apply IH. lia.
Qed.

Lemma xor_rows_lxor x y l : word 64 x -> word 64 y -> (length l <= 8)%nat ->
  xor_rows (Z.lxor x y) l = Z.lxor (xor_rows x l) (xor_rows y l).
Proof.
  intros Hx Hy Hl. unfold xor_rows.
  cut (forall l off, (off + length l <= 8)%nat ->
    let s v := foldr Z.lxor 0 (imap (fun k r => rotl (Z.of_nat (off + k)) (Z.land v r)) l) in
    s (Z.lxor x y) = Z.lxor (s x) (s y)).
  { intros H. apply (H l 0%nat). lia. }
  clear l Hl. induction l as [|r l IH]; intros off Hl; [done|].
  cbn [length] in Hl. specialize (IH (S off) ltac:(lia)). cbv zeta in *.
  cbn [imap foldr]. rewrite land_lxor_distr.
  rewrite rotl_lxor by (lia || by apply word_land_l).
  assert (forall v, foldr Z.lxor 0 (imap ((fun k r0 => rotl (Z.of_nat (off + k)) (Z.land v r0)) ∘ S) l)
    = foldr Z.lxor 0 (imap (fun k r0 => rotl (Z.of_nat (S off + k)) (Z.land v r0)) l)) as Hsh.
  { intros v. f_equal. apply imap_ext. intros. unfold compose. f_equal. lia. }
  rewrite !Hsh, IH. lxor_ac.
Qed.


Lemma block_pure_lxor h base x y r1 r2 :
  word 64 x -> word 64 y -> word 64 r1 -> word 64 r2 -> (base + 8 <= length h)%nat ->
  block_pure h (Z.lxor x y) base (Z.lxor r1 r2) =
  Z.lxor (block_pure h x base r1) (block_pure h y base r2).
Proof.
  intros Hx Hy H1 H2 Hb. unfold block_pure.
  rewrite xor_rows_lxor by (done || rewrite length_take; lia).
  set (l := take 8 (drop base h)).
  assert (forall v, word 64 v -> word 64 (xor_rows v l)) as Hw.
  { intros v Hv. pose proof (block_pure_word h v base 0 Hv (word_0 64 ltac:(lia))) as W.
    destruct (take8 h base Hb) as (a & b & c & d & e & f & g & i & Ht).
    unfold l. rewrite Ht. unfold xor_rows. cbn [imap foldr]. unfold compose.
    repeat (apply word_lxor; [lia|apply rotl_word; [lia|by apply word_land_l]|]). by apply word_0. }
  rewrite <- rotl_lxor; [f_equal; lxor_ac|apply word_lxor; [lia|done|by apply Hw]..|lia].
Qed.

Lemma loop_pure_lxor h n : forall base x y r1 r2,
  word 64 x -> word 64 y -> word 64 r1 -> word 64 r2 -> (base + 8 * n <= length h)%nat ->
  loop_pure h (Z.lxor x y) base n (Z.lxor r1 r2) =
  Z.lxor (loop_pure h x base n r1) (loop_pure h y base n r2).
Proof.
  induction n as [|n IH]; intros base x y r1 r2 Hx Hy H1 H2 Hb; cbn [loop_pure]; [done|].
  rewrite block_pure_lxor by (done || lia).
  apply IH; try done; try lia; by apply block_pure_word.
Qed.

Lemma loop_pure_word h val n : forall base res, word 64 val -> word 64 res ->
  word 64 (loop_pure h val base n res).
Proof.
  induction n as [|n IH]; intros base res Hv Hr; cbn [loop_pure]; [done|].
  apply IH; [done|]. by apply block_pure_word.
Qed.

Lemma shiftr_lxor a b k : 0 <= k -> Z.shiftr (Z.lxor a b) k = Z.lxor (Z.shiftr a k) (Z.shiftr b k).
Proof.
  intros Hk. apply Z.bits_inj'. intros i Hi.
  rewrite Z.lxor_spec, !Z.shiftr_spec by lia. by rewrite Z.lxor_spec.
Qed.

Lemma fold_bits_lxor rs a b : fold_bits rs (Z.lxor a b) = Z.lxor (fold_bits rs a) (fold_bits rs b).
Proof.
  unfold fold_bits. cbv zeta.
  repeat case_match; rewrite ?shiftr_lxor by lia; try done; lxor_ac.
Qed.

Lemma fold_bits_word rs a : word 64 a -> word 64 (fold_bits rs a).
Proof. intros Ha. unfold fold_bits. cbv zeta. repeat case_match; auto 10 with word. Qed.

(** Where function [id]'s rows start, and that they fit in the matrix. *)
Lemma base_of (f : t) id : wf f -> (id < numFuncs f)%nat ->
  Z.to_nat (Z.shiftl (Z.of_nat id) (6 - resShift f)) = (id * words (resShift f))%nat /\
  (id * words (resShift f) + 8 * (words (resShift f) / 8) <= length (hMatrix f))%nat.
Proof.
  intros (Hr & Hl & _) Hid. rewrite Hl, Z.shiftl_mul_pow2 by lia.
  assert (resShift f = 0 \/ resShift f = 1 \/ resShift f = 2 \/ resShift f = 3) as Hcase by lia.
  unfold words. destruct Hcase as [-> | [-> | [-> | ->]]]; split;
    repeat match goal with |- context [Z.to_nat (Z.shiftr ?a ?b)] =>
      let v := eval vm_compute in (Z.to_nat (Z.shiftr a b)) in
      change (Z.to_nat (Z.shiftr a b)) with v end;
    repeat match goal with |- context [(?a / 8)%nat] =>
      let v := eval vm_compute in (a / 8)%nat in change (a / 8)%nat with v end;
    cbn [Z.sub Z.opp Z.pow Z.add Z.pos_sub]; try nia;
    change (2 ^ (6 - 0)) with 64; change (2 ^ (6 - 1)) with 32;
    change (2 ^ (6 - 2)) with 16; change (2 ^ (6 - 3)) with 8; lia.
Qed.

Definition hash_pure (f : t) (id : nat) (val : Z) : Z :=
  fold_bits (resShift f)
    (loop_pure (hMatrix f) val (id * words (resShift f)) (words (resShift f) / 8) 0).

Lemma hash_ok f id val : wf f -> (id < numFuncs f)%nat -> word 64 val ->
  hash f id val = Ok (hash_pure f id val) /\ word 64 (hash_pure f id val).
Proof.
  intros Hwf Hid Hv. destruct (base_of f id Hwf Hid) as [Hb Hlen]. unfold hash, hash_pure.
  rewrite bool_decide_eq_true_2 by done. cbn [check]. unfold mbind, outcome_bind, mret, outcome_ret.
  rewrite Hb, hash_loop_pure by done. split; [done|].
  apply fold_bits_word, loop_pure_word; [done|]. by apply word_0.
Qed.

Lemma gen_word_word n : forall val rnd, word 64 val -> word 64 (fst (gen_word n val rnd)).
Proof.
  induction n as [|n IH]; intros val rnd Hv; cbn [gen_word]; [done|].
  destruct (MTRand.randInt rnd) as [r rnd']. apply IH. case_match; auto with word.
Qed.

Lemma gen_matrix_spec n : forall rnd,
  length (gen_matrix n rnd) = n /\ Forall (word 64) (gen_matrix n rnd).
Proof.
  induction n as [|n IH]; intros rnd; cbn [gen_matrix]; [by split|].
  pose proof (gen_word_word 64 0 rnd (word_0 64 ltac:(lia))) as Hw.
  destruct (gen_word 64 0 rnd) as [w rnd']. destruct (IH rnd') as [Hl HF].
  cbn [length]. rewrite Hl. split; [done|]. by constructor.
Qed.

Lemma h3_make_wf nf bits seed f : make nf bits seed = Ok f -> wf f /\ numFuncs f = nf.
Proof.
  unfold make, resShift_of, mbind, outcome_bind, mret, outcome_ret.
  destruct (bits <=? 8), (bits <=? 16), (bits <=? 32), (bits <=? 64); intros; simplify_eq;
    (split; [|done]); unfold wf; cbn [resShift hMatrix numFuncs]; (split; [lia|apply gen_matrix_spec]).
Qed.


(** Rows of every 8-row block in reverse order: what the unrolled loop reads,
    seen from the comment's one-row-per-step loop. *)
Definition block_reverse (h : list Z) : list Z :=
  map (fun i => h !!! (8 * (i / 8) + (7 - i `mod` 8))%nat) (seq 0 (length h)).

Lemma rd_block_reverse h b k : (8 * b + 8 <= length h)%nat -> (k < 8)%nat ->
  rd (block_reverse h) (8 * b + k) = Ok (h !!! (8 * b + (7 - k))%nat).
Proof.
  intros Hb Hk. apply rd_some. unfold block_reverse.
  rewrite list_lookup_fmap, lookup_seq_lt by lia. cbn [fmap option_fmap option_map].
  do 2 f_equal. rewrite Nat.add_0_l.
  replace (8 * b + k)%nat with (k + b * 8)%nat by lia.
  rewrite Nat.div_add, Nat.div_small, Nat.Div0.mod_add, Nat.mod_small by lia. lia.
Qed.

(** Evaluate the closed rotation amounts of a goal. *)
Ltac rotl_amounts :=
  repeat match goal with |- context [rotl ?k _] =>
    lazymatch k with Z0 => fail | Zpos _ => fail | _ =>
      let c := eval vm_compute in k in change k with c end end.

Lemma reference_step h val b k n r : word 64 val -> word 64 r ->
  (8 * b + 8 <= length h)%nat -> (k < 8)%nat ->
  reference_loop (block_reverse h) val (8 * b + k) (S n) r =
  reference_loop (block_reverse h) val (8 * b + S k) n
    (Z.lxor (rotl 1 r) (rotl 1 (Z.land val (h !!! (8 * b + (7 - k))%nat)))).
Proof.
  intros Hv Hr Hb Hk. cbn [reference_loop]. rewrite rd_block_reverse by done.
  unfold mbind, outcome_bind. rewrite <- rotl_lxor by (done || lia || by apply word_land_l).
  by rewrite Nat.add_succ_r.
Qed.

Lemma reference_block h val b n r : word 64 val -> word 64 r -> (8 * b + 8 <= length h)%nat ->
  reference_loop (block_reverse h) val (8 * b) (8 + n) r =
  reference_loop (block_reverse h) val (8 * b + 8) n
    (Z.lxor (rotl 8 r) (foldr Z.lxor 0
       (map (fun k => rotl (Z.of_nat k + 1) (Z.land val (h !!! (8 * b + k)%nat))) (seq 0 8)))).
Proof.
  intros Hv Hr Hb. rewrite <- (Nat.add_0_r (8 * b)) at 1. cbn [Nat.add].
  cbn [map seq foldr].
  set (v k := Z.land val (h !!! (8 * b + k)%nat)).
  assert (forall k, word 64 (v k)) as Hw by (intros; by apply word_land_l).
  fold (v 0%nat) (v 1%nat) (v 2%nat) (v 3%nat) (v 4%nat) (v 5%nat) (v 6%nat) (v 7%nat).
  do 8 (rewrite reference_step by (lia || auto 20 with word); cbn [Nat.sub]).
  fold (v 0%nat) (v 1%nat) (v 2%nat) (v 3%nat) (v 4%nat) (v 5%nat) (v 6%nat) (v 7%nat).
  f_equal.
  repeat rewrite rotl_lxor by (lia || auto 20 with word).
  repeat rewrite rotl_rotl by (lia || auto 20 with word).
  rotl_amounts.
  lxor_ac.
Qed.

Lemma block_pure_rotl h val b r : word 64 val -> word 64 r -> (8 * b + 8 <= length h)%nat ->
  block_pure h val (8 * b) (rotl 7 r) =
  rotl 7 (Z.lxor (rotl 8 r) (foldr Z.lxor 0
       (map (fun k => rotl (Z.of_nat k + 1) (Z.land val (h !!! (8 * b + k)%nat))) (seq 0 8)))).
Proof.
  intros Hv Hr Hb. unfold block_pure.
  assert (take 8 (drop (8 * b) h) = map (fun k => h !!! (8 * b + k)%nat) (seq 0 8)) as ->.
  { destruct (take8 h (8 * b) ltac:(lia)) as (x0 & x1 & x2 & x3 & x4 & x5 & x6 & x7 & Ht).
    assert (forall k x, take 8 (drop (8 * b) h) !! k = Some x -> x = h !!! (8 * b + k)%nat) as Hk.
    { intros k x Hx. symmetry. apply list_lookup_total_correct.
      rewrite lookup_take_Some, lookup_drop in Hx. by destruct Hx. }
    rewrite Ht in *. cbn [map seq].
    by rewrite <- (Hk 0%nat x0), <- (Hk 1%nat x1), <- (Hk 2%nat x2), <- (Hk 3%nat x3),
      <- (Hk 4%nat x4), <- (Hk 5%nat x5), <- (Hk 6%nat x6), <- (Hk 7%nat x7). }
  unfold xor_rows. cbn [map seq imap foldr]. unfold compose.
  set (v k := Z.land val (h !!! (8 * b + k)%nat)).
  assert (forall k, word 64 (v k)) as Hw by (intros; by apply word_land_l).
  fold (v 0%nat) (v 1%nat) (v 2%nat) (v 3%nat) (v 4%nat) (v 5%nat) (v 6%nat) (v 7%nat).
  rotl_amounts.
  repeat rewrite rotl_lxor by (lia || auto 20 with word).
  repeat rewrite rotl_rotl by (lia || auto 20 with word).
  rotl_amounts.
  lxor_ac.
Qed.

Lemma reference_equiv_loop h val n : forall b r, word 64 val -> word 64 r ->
  (8 * b + 8 * n <= length h)%nat ->
  exists r', reference_loop (block_reverse h) val (8 * b) (8 * n) r = Ok r' /\ word 64 r' /\
             loop_pure h val (8 * b) n (rotl 7 r) = rotl 7 r'.
Proof.
  induction n as [|n IH]; intros b r Hv Hr Hb; [by exists r|].
  replace (8 * S n)%nat with (8 + 8 * n)%nat by lia.
  rewrite reference_block by (done || lia). cbn [loop_pure].
  rewrite block_pure_rotl by (done || lia).
  replace (8 * b + 8)%nat with (8 * S b)%nat by lia.
  apply IH; [done| |lia].
  assert (forall k, word 64 (Z.land val (h !!! k))) as Hw by (intros; by apply word_land_l).
  cbn [map seq foldr]. change (Z.of_nat 0) with 0. auto 20 with word.
Qed.

End H3Spec.

(** ** Feistel: totality, range, invertible rounds *)

Module FeistelSpec.
Import Feistel.

(** Four rounds of 32-row matrices over 64-bit words, as the constructor builds. *)
Definition wf (f : t) : Prop :=
  width f = 64 /\ length (keys f) = 4%nat /\ length (sMat f) = 4%nat /\ length (pMat f) = 4%nat /\
  Forall (fun rows => length rows = 32%nat) (sMat f) /\
  Forall (fun rows => length rows = 32%nat) (pMat f).

Lemma bitXor_from_bit val row n : forall i r,
  r = 0 \/ r = 1 -> bitXor_from val row i n r = 0 \/ bitXor_from val row i n r = 1.
Proof.
  induction n as [|n IH]; intros i r Hr; cbn [bitXor_from]; [done|].
  apply IH. case_match; [|done]. rewrite land_1_bit.
  destruct Hr as [-> | ->], (Z.testbit _ 0); cbn; auto.
Qed.

Lemma bitXor_ok val row size :
  exists b, bitXor val row size = Ok b /\ (b = 0 \/ b = 1).
Proof.
  unfold bitXor. destruct (bitXor_from_bit val row size 0 0) as [E|E]; [by left|..];
    rewrite E; cbn; eauto.
Qed.

Lemma matrix_apply_ok rows v size n : forall j acc,
  (j + n <= 32)%nat -> length rows = 32%nat -> word 32 acc ->
  exists r, matrix_apply rows v size j n acc = Ok r /\ word 32 r.
Proof.
  induction n as [|n IH]; intros j acc Hj Hl Ha; cbn [matrix_apply]; [by exists acc|].
  destruct (lookup_lt_is_Some_2 rows j) as [row Hrow]; [lia|].
  rewrite (rd_some _ _ _ Hrow). unfold mbind, outcome_bind. destruct (bitXor_ok v row size) as (b & -> & Hb).
  apply IH; [lia|done|]. auto with word.
Qed.

Lemma word_shiftr_0 x : word 32 x -> (Z.shiftr x 32 =? 0) = true.
Proof.
  intros [H0 H1]. apply Z.eqb_eq. rewrite Z.shiftr_div_pow2 by lia. by apply Z.div_small.
Qed.

(** What a round computes, its asserts holding. *)
Lemma round_ok f i up down : wf f -> (i < 4)%nat -> word 32 up -> word 32 down ->
  exists p, round f i (up, down) = Ok (Z.lxor down p, up) /\ word 32 p.
Proof.
  intros (Hw & Hk & Hs & Hp & HFs & HFp) Hi Hu Hd. unfold round.
  destruct (lookup_lt_is_Some_2 (keys f) i) as [k Ek]; [lia|].
  destruct (lookup_lt_is_Some_2 (sMat f) i) as [s Es]; [lia|].
  destruct (lookup_lt_is_Some_2 (pMat f) i) as [p Ep]; [lia|].
  rewrite (rd_some _ _ _ Ek), (rd_some _ _ _ Es), (rd_some _ _ _ Ep), Hw.
  unfold mbind, outcome_bind. change (Z.to_nat (64 / 2)) with 32%nat.
  destruct (matrix_apply_ok s (Z.lor up k) 64 32 0 0) as (sr & -> & Hsr);
    [lia|by eapply (Forall_lookup_1 _ _ _ _ HFs)|by apply word_0|].
  rewrite word_shiftr_0 by done. cbn [check].
  destruct (matrix_apply_ok p sr 32 32 0 0) as (pr & -> & Hpr);
    [lia|by eapply (Forall_lookup_1 _ _ _ _ HFp)|by apply word_0|].
  rewrite !word_shiftr_0 by done. cbn [check]. eauto.
Qed.

(** The permutation value only depends on [up]. *)
Lemma round_xor f i up down1 down2 r1 r2 :
  round f i (up, down1) = Ok r1 -> round f i (up, down2) = Ok r2 ->
  Z.lxor (fst r1) (fst r2) = Z.lxor down1 down2 /\ snd r1 = up /\ snd r2 = up.
Proof.
  unfold round. unfold mbind, outcome_bind.
  destruct (rd (keys f) i) as [k|], (rd (sMat f) i) as [s|], (rd (pMat f) i) as [p|]; try discriminate.
  destruct (matrix_apply s _ _ _ _ _) as [sr|]; [|discriminate].
  destruct (check (Z.shiftr sr 32 =? 0)); [|discriminate].
  destruct (matrix_apply p _ _ _ _ _) as [pr|]; [|discriminate].
  destruct (check (Z.shiftr pr 32 =? 0)), (check (Z.shiftr up 32 =? 0)); try discriminate.
  destruct (check (Z.shiftr down1 32 =? 0)), (check (Z.shiftr down2 32 =? 0)); try discriminate.
  intros [= <-] [= <-]. cbn. split; [|done]. lxor_ac.
Qed.

Lemma round_inj f i a b r : round f i a = Ok r -> round f i b = Ok r -> a = b.
Proof.
  destruct a as [u1 d1], b as [u2 d2]. intros H1 H2.
  assert (u1 = u2) as ->.
  { destruct (round_xor _ _ _ _ _ _ _ H1 H1) as (_ & E1 & _).
    destruct (round_xor _ _ _ _ _ _ _ H2 H2) as (_ & E2 & _). congruence. }
  destruct (round_xor _ _ _ _ _ _ _ H1 H2) as (E & _). rewrite Z.lxor_nilpotent in E.
  symmetry in E. apply Z.lxor_eq in E. congruence.
Qed.

Lemma rounds_inj f a b r : rounds f a = Ok r -> rounds f b = Ok r -> a = b.
Proof.
  unfold rounds, mbind, outcome_bind.
  destruct (round f 0 a) as [a1|] eqn:A1; [|discriminate].
  destruct (round f 1 a1) as [a2|] eqn:A2; [|discriminate].
  destruct (round f 2 a2) as [a3|] eqn:A3; [|discriminate]. intros A4.
  destruct (round f 0 b) as [b1|] eqn:B1; [|discriminate].
  destruct (round f 1 b1) as [b2|] eqn:B2; [|discriminate].
  destruct (round f 2 b2) as [b3|] eqn:B3; [|discriminate]. intros B4.
  pose proof (round_inj _ _ _ _ _ A4 B4) as ->. pose proof (round_inj _ _ _ _ _ A3 B3) as ->.
  pose proof (round_inj _ _ _ _ _ A2 B2) as ->. exact (round_inj _ _ _ _ _ A1 B1).
Qed.

Lemma rounds_ok f up down : wf f -> word 32 up -> word 32 down ->
  exists up' down', rounds f (up, down) = Ok (up', down') /\ word 32 up' /\ word 32 down'.
Proof.
  intros Hf Hu Hd. unfold rounds.
  destruct (round_ok f 0 up down Hf ltac:(lia) Hu Hd) as (p0 & -> & P0).
  unfold mbind, outcome_bind. set (u1 := Z.lxor down p0). assert (word 32 u1) by (unfold u1; auto with word).
  destruct (round_ok f 1 u1 up Hf ltac:(lia)) as (p1 & -> & P1); [done..|].
  set (u2 := Z.lxor up p1). assert (word 32 u2) by (unfold u2; auto with word).
  destruct (round_ok f 2 u2 u1 Hf ltac:(lia)) as (p2 & -> & P2); [done..|].
  set (u3 := Z.lxor u1 p2). assert (word 32 u3) by (unfold u3; auto with word).
  destruct (round_ok f 3 u3 u2 Hf ltac:(lia)) as (p3 & -> & P3); [done..|].
  eexists _, _. split; [done|]. auto with word.
Qed.

Lemma halves_word val : word 64 val ->
  word 32 (Z.shiftr val 32) /\ word 32 (Z.shiftr (u64 (Z.shiftl val 32)) 32).
Proof.
  intros [H0 H1]. split.
  - split; [by apply Z.shiftr_nonneg|]. rewrite Z.shiftr_div_pow2 by lia.
    apply Z.div_lt_upper_bound; [lia|]. by rewrite <- Z.pow_add_r by lia.
  - pose proof (wrap_bound 64 (Z.shiftl val 32) ltac:(lia)) as [B0 B1].
    split; [by apply Z.shiftr_nonneg|]. rewrite Z.shiftr_div_pow2 by lia.
    apply Z.div_lt_upper_bound; [lia|]. by rewrite <- Z.pow_add_r by lia.
Qed.

Lemma halves_inj v w : word 64 v -> word 64 w ->
  Z.shiftr v 32 = Z.shiftr w 32 ->
  Z.shiftr (u64 (Z.shiftl v 32)) 32 = Z.shiftr (u64 (Z.shiftl w 32)) 32 -> v = w.
Proof.
  intros Hv Hw Eh El. apply Z.bits_inj'. intros i Hi. destruct (Z_lt_le_dec i 32).
  - apply (f_equal (fun z => Z.testbit z i)) in El. revert El. unfold wrap.
    rewrite !Z.shiftr_spec, !Z.mod_pow2_bits_low, !Z.shiftl_spec by lia.
    by replace (i + 32 - 32) with i by lia.
  - apply (f_equal (fun z => Z.testbit z (i - 32))) in Eh. revert Eh.
    rewrite !Z.shiftr_spec by lia. by replace (i - 32 + 32) with i by lia.
Qed.

Lemma gen_rows_length n : forall rng,
  length (fst (fst (gen_rows n rng))) = n /\ length (snd (fst (gen_rows n rng))) = n.
Proof.
  induction n as [|n IH]; intros rng; cbn [gen_rows]; [done|].
  destruct (MTRand.randInt rng) as [a r1], (MTRand.randInt r1) as [b r2], (MTRand.randInt r2) as [c r3].
  specialize (IH r3). destruct (gen_rows n r3) as [[ss ps] r4]. cbn in *. lia.
Qed.

Lemma gen_rounds_length n : forall rng,
  let g := gen_rounds n rng in
  length (fst (fst g)) = n /\ length (snd (fst g)) = n /\
  Forall (fun rows => length rows = 32%nat) (fst (fst g)) /\
  Forall (fun rows => length rows = 32%nat) (snd (fst g)).
Proof.
  induction n as [|n IH]; intros rng; cbn [gen_rounds]; [repeat split; constructor|].
  pose proof (gen_rows_length 32 rng) as [L1 L2].
  destruct (gen_rows 32 rng) as [[s p] r1]. specialize (IH r1).
  destruct (gen_rounds n r1) as [[ss ps] r2]. cbn in *. destruct IH as (I1 & I2 & I3 & I4).
  repeat split; try lia; by constructor.
Qed.

Lemma gen_keys_length n : forall rng, length (gen_keys n rng) = n.
Proof.
  induction n as [|n IH]; intros rng; cbn [gen_keys]; [done|].
  destruct (MTRand.randInt rng). cbn. by rewrite IH.
Qed.

Lemma feistel_make_wf seed : wf (make seed).
Proof.
  unfold make. pose proof (gen_rounds_length 4 (MTRand.seed seed)) as H.
  destruct (gen_rounds 4 (MTRand.seed seed)) as [[ss ps] rng]. cbv zeta in H.
  destruct H as (H1 & H2 & H3 & H4). unfold wf. cbn [width keys sMat pMat fst snd] in *.
  rewrite gen_keys_length. by repeat split.
Qed.

End FeistelSpec.

(** ** Properties *)

Module HashProps.

(** C37: the unrolled H3 loop is linear over GF(2): hashing the XOR of two
    addresses gives the XOR of their hashes, for every output width, and every
    call on a declared function index returns. *)
Theorem h3_linear (f : H3.t) (id : nat) (x y : Z) :
  H3Spec.wf f -> (id < H3.numFuncs f)%nat -> word 64 x -> word 64 y ->
  exists hx hy, H3.hash f id x = Ok hx /\ H3.hash f id y = Ok hy /\
                H3.hash f id (Z.lxor x y) = Ok (Z.lxor hx hy).
Proof.
  intros Hf Hid Hx Hy.
  destruct (H3Spec.hash_ok f id x Hf Hid Hx) as [-> _].
  destruct (H3Spec.hash_ok f id y Hf Hid Hy) as [-> _].
  destruct (H3Spec.hash_ok f id (Z.lxor x y) Hf Hid) as [-> _]; [by apply word_lxor|].
  eexists _, _. split; [done|]. split; [done|]. f_equal.
  destruct (H3Spec.base_of f id Hf Hid) as [_ Hlen]. unfold H3Spec.hash_pure.
  rewrite <- H3Spec.fold_bits_lxor. f_equal.
  rewrite <- H3Spec.loop_pure_lxor by (done || by apply word_0). by rewrite Z.lxor_0_r.
Qed.

Definition h3_small : H3.t := H3.mk 2 3 (map Z.of_nat (seq 1000 16)).

Lemma h3_small_wf : H3Spec.wf h3_small.
Proof.
  split; [cbn; lia|]. split; [reflexivity|]. repeat (constructor; [by split; vm_compute|]). constructor.
Qed.

Lemma h3_linear_witness :
  exists hx hy, H3.hash h3_small 1 0x1234 = Ok hx /\ H3.hash h3_small 1 0xff00 = Ok hy /\
                H3.hash h3_small 1 (Z.lxor 0x1234 0xff00) = Ok (Z.lxor hx hy).
Proof.
  apply (h3_linear h3_small 1 0x1234 0xff00);
    [apply h3_small_wf|cbn; lia|by split; vm_compute|by split; vm_compute].
Defined.

(** the hand-unrolled 64-bit H3 loop equals the simple one-row-per-step loop
    quoted in the source comment, run on the matrix with every block of eight
    rows reversed, rotated left by seven bits. *)
Theorem h3_unrolled_reference (f : H3.t) (id : nat) (val : Z) :
  H3Spec.wf f -> H3.resShift f = 0 -> (id < H3.numFuncs f)%nat -> word 64 val ->
  exists r, H3.hash_reference (H3Spec.block_reverse (H3.hMatrix f)) id val = Ok r /\
            H3.hash f id val = Ok (H3.rotl 7 r).
Proof.
  intros Hf Hr Hid Hv. destruct (H3Spec.hash_ok f id val Hf Hid Hv) as [-> _].
  destruct (H3Spec.base_of f id Hf Hid) as [_ Hlen].
  unfold H3Spec.hash_pure, H3.hash_reference. rewrite Hr in *.
  change (H3.words 0) with 64%nat in *. change (64 / 8)%nat with 8%nat in *.
  destruct (H3Spec.reference_equiv_loop (H3.hMatrix f) val 8 (id * 8) 0) as (r & E & Hw & EQ);
    [done|by apply word_0|lia|].
  replace (8 * (id * 8))%nat with (id * 64)%nat in * by lia.
  change (8 * 8)%nat with 64%nat in E. exists r. split; [done|].
  change (H3.rotl 7 0) with 0 in EQ. rewrite EQ. reflexivity.
Qed.

Definition h3_wide : H3.t := H3.mk 1 0 (map (fun i => Z.of_nat i * 0x9e3779b97f4a7c15 mod 2 ^ 64) (seq 1 64)).

Lemma h3_wide_wf : H3Spec.wf h3_wide.
Proof.
  split; [cbn; lia|]. split; [reflexivity|]. apply Forall_forall. intros x Hx.
  unfold h3_wide in Hx. cbn [H3.hMatrix] in Hx. rewrite list_elem_of_In in Hx.
  apply in_map_iff in Hx as (i & <- & _). apply Z.mod_pos_bound. lia.
Qed.

Lemma h3_unrolled_reference_witness :
  exists r, H3.hash_reference (H3Spec.block_reverse (H3.hMatrix h3_wide)) 0 0xabc = Ok r /\
            H3.hash h3_wide 0 0xabc = Ok (H3.rotl 7 r).
Proof.
  apply (h3_unrolled_reference h3_wide 0 0xabc);
    [apply h3_wide_wf|reflexivity|cbn; lia|by split; vm_compute].
Defined.

(** the comment's loop, on the same matrix, is a different function from
    [hash]: there is a well-formed 64-bit H3 family and an address they disagree on. *)
Theorem h3_comment_loop_differs :
  exists f val r r', H3Spec.wf f /\ word 64 val /\ H3.resShift f = 0 /\
    H3.hash f 0 val = Ok r /\ H3.hash_reference (H3.hMatrix f) 0 val = Ok r' /\ r <> r'.
Proof.
  exists h3_wide, 5.
  destruct (H3.hash h3_wide 0 5) as [r|] eqn:E; [|by vm_compute in E].
  destruct (H3.hash_reference (H3.hMatrix h3_wide) 0 5) as [r'|] eqn:E'; [|by vm_compute in E'].
  exists r, r'. split; [apply h3_wide_wf|]. split; [by split; vm_compute|].
  split; [done|]. split; [done|]. split; [done|].
  vm_compute in E, E'. injection E as <-. injection E' as <-. discriminate.
Qed.

(** C38: the Feistel hash returns for every 64-bit address (no assert of its four
    rounds can fail), its output fits in 32 bits, and the four rounds are
    injective: two addresses with the same final pair of halves are equal. *)
Theorem feistel_permutation (seed : Z) (id : nat) (v w : Z) :
  word 64 v -> word 64 w ->
  let f := Feistel.make seed in
  let half x := (Z.shiftr x 32, Z.shiftr (u64 (Z.shiftl x 32)) 32) in
  (exists h, Feistel.hash f id v = Ok h /\ word 32 h) /\
  (Feistel.rounds f (half v) = Feistel.rounds f (half w) -> v = w).
Proof.
  intros Hv Hw f half. pose proof (FeistelSpec.feistel_make_wf seed) as Hf. fold f in Hf. clearbody f.
  destruct (FeistelSpec.halves_word v Hv) as [Hl Hr].
  destruct (FeistelSpec.rounds_ok f _ _ Hf Hl Hr) as (u & d & E & Hu & Hd).
  split.
  - exists u. unfold Feistel.hash. rewrite E. done.
  - unfold half. rewrite E. intros E'. symmetry in E'.
    pose proof (FeistelSpec.rounds_inj _ _ _ _ E E') as EQ. apply pair_equal_spec in EQ as [E1 E2].
    by apply FeistelSpec.halves_inj.
Qed.

Lemma feistel_permutation_witness :
  let f := Feistel.make 7 in
  let half x := (Z.shiftr x 32, Z.shiftr (u64 (Z.shiftl x 32)) 32) in
  (exists h, Feistel.hash f 0 0x12345678abc = Ok h /\ word 32 h) /\
  (Feistel.rounds f (half 0x12345678abc) = Feistel.rounds f (half 0x12345678abc) ->
   0x12345678abc = 0x12345678abc).
Proof.
  apply (feistel_permutation 7 0%nat 0x12345678abc 0x12345678abc); by split; vm_compute.
Defined.

End HashProps.
