(* ===== verification/ReplPolicies.v ===== *)
(** * Replacement policies (src/src/repl_policies.h)

    Every policy of the file as a record and its operations, and the
    [ReplPolicy] interface through which the cache arrays use them: [update] on
    an access, [rank] over a candidate list on a replacement, [replaced] when the
    new line goes in. *)

From S2P Require Import Prelude MemHier MTRand.
Local Open Scope Z_scope.

(** What a policy asks the coherence controller ([CC::numSharers], [isValid], [isSharer]). *)
Record CCView := mkView {
  cv_numSharers : nat -> Z;
  cv_isValid : nat -> bool;
  cv_isSharer : nat -> nat -> bool
}.

(** ** The interface and its contract *)

(** [rank] returns [None] for the C++ [(uint32_t)-1] of an empty candidate list. *)
Class ReplPolicy (R : Type) := {
  rp_update : R -> nat -> MemReq -> outcome R;
  rp_replaced : R -> nat -> outcome R;
  rp_rank : R -> CCView -> MemReq -> list nat -> outcome (option nat * R)
}.

(** [rp_wf n k r]: a policy over [n] lines ranking [k] candidates at a time.
    [rp_ready]: no replacement is in progress ([replaced] was called since the
    last [rank]). *)
Class ReplPolicyLaws (R : Type) `{ReplPolicy R} := {
  rp_wf : nat -> nat -> R -> Prop;
  rp_ready : R -> Prop;
  rp_update_ok n k r id req : rp_wf n k r -> (id < n)%nat ->
    exists r', rp_update r id req = Ok r' /\ rp_wf n k r' /\ (rp_ready r -> rp_ready r');
  rp_replaced_ok n k r id : rp_wf n k r -> (id < n)%nat ->
    exists r', rp_replaced r id = Ok r' /\ rp_wf n k r' /\ rp_ready r';
  rp_rank_ok n k r v req cands : rp_wf n k r -> rp_ready r ->
    (0 < k)%nat -> length cands = k -> Forall (fun c => c < n)%nat cands ->
    exists c r', rp_rank r v req cands = Ok (Some c, r') /\ c ∈ cands /\ rp_wf n k r'
}.

(** The candidate loop shared by LRU and SHARP: [s] is the 64-bit score cut to
    the [uint32_t] local, [bestScore] starts at [(uint64_t)-1]. *)
Fixpoint rank_min (score : nat -> outcome Z) (cands : list nat) (bestCand : option nat) (bestScore : Z)
    : outcome (option nat) :=
  match cands with
  | [] => mret bestCand
  | c :: cs =>
      sc ← score c;
      let s := u32 sc in
      rank_min score cs (if s <? bestScore then Some c else bestCand) (Z.min s bestScore)
  end.

Definition noScore : Z := 2 ^ 64 - 1.

(** ** LRU *)

Module LRU.

Record t := mk { sharersAware : bool; timestamp : Z; array : list Z }.

Definition init (aware : bool) (numLines : nat) : t := mk aware 1 (replicate numLines 0).

Definition update (r : t) (id : nat) (_ : MemReq) : outcome t :=
  a ← wr (array r) id (timestamp r);
  mret (mk (sharersAware r) (timestamp r +64 1) a).

Definition replaced (r : t) (id : nat) : outcome t :=
  a ← wr (array r) id 0; mret (mk (sharersAware r) (timestamp r) a).

Definition score (r : t) (v : CCView) (id : nat) : outcome Z :=
  ts ← rd (array r) id;
  let sharers := if sharersAware r then cv_numSharers v id else 0 in
  mret (u64 (u64 (sharers * timestamp r) + ts * Z.b2z (cv_isValid v id))).

Definition rank (r : t) (v : CCView) (_ : MemReq) (cands : list nat) : outcome (option nat * t) :=
  c ← rank_min (score r v) cands None noScore; mret (c, r).

#[global] Instance policy : ReplPolicy t :=
  { rp_update := update; rp_replaced := replaced; rp_rank := rank }.

End LRU.

(** ** SHARP: LRU that also spares the requester's own private lines *)

Module SHARP.

Record t := mk { sharersAware : bool; timestamp : Z; array : list Z }.

Definition init (aware : bool) (numLines : nat) : t := mk aware 1 (replicate numLines 0).

Definition update (r : t) (id : nat) (_ : MemReq) : outcome t :=
  a ← wr (array r) id (timestamp r);
  mret (mk (sharersAware r) (timestamp r +64 1) a).

Definition replaced (r : t) (id : nat) : outcome t :=
  a ← wr (array r) id 0; mret (mk (sharersAware r) (timestamp r) a).

Definition score (r : t) (v : CCView) (srcId id : nat) : outcome Z :=
  ts ← rd (array r) id;
  let sharers := if sharersAware r then cv_numSharers v id else 0 in
  mret (u64 (u64 (sharers * timestamp r) + ts * Z.b2z (cv_isValid v id)
             + Z.b2z (cv_isSharer v id srcId))).

Definition rank (r : t) (v : CCView) (req : MemReq) (cands : list nat) : outcome (option nat * t) :=
  c ← rank_min (score r v (srcId req)) cands None noScore; mret (c, r).

#[global] Instance policy : ReplPolicy t :=
  { rp_update := update; rp_replaced := replaced; rp_rank := rank }.

End SHARP.

(** ** Tree LRU

    It derives from the sharers-aware LRU, whose [rankCands] is the one the
    arrays call: [recordCandidate] and [getBestCandidate] have no caller. *)

Module TreeLRU.

Record t := mk { lru : LRU.t; candArray : list nat; numCands : nat; candIdx : nat }.

Definition init (numLines numCands : nat) : outcome t :=
  if negb (Z.land (Z.of_nat numCands) (u32 (Z.of_nat numCands - 1)) =? 0) then Fault Panicked
  else Ok (mk (LRU.init true numLines) (replicate numCands 0%nat) numCands 0).

Definition recordCandidate (r : t) (id : nat) : outcome t :=
  ca ← wr (candArray r) (candIdx r) id;
  mret (mk (lru r) ca (numCands r) (S (candIdx r))).

(** Largest timestamp of the candidates in positions [\[i, i + n)]. *)
Fixpoint max_ts (r : t) (i n : nat) (acc : Z) : outcome Z :=
  match n with
  | O => mret acc
  | S n' =>
      c ← rd (candArray r) i; ts ← rd (LRU.array (lru r)) c; max_ts r (S i) n' (Z.max acc ts)
  end.

(** The halving search; the interval shrinks at every step. *)
Fixpoint search (fuel : nat) (r : t) (start end_ : nat) : outcome nat :=
  match fuel with
  | O => Fault OutOfFuel
  | S fuel' =>
      if bool_decide (1 < end_ - start)%nat then
        let pivot := (start + (end_ - start) / 2)%nat in
        t1 ← max_ts r start (pivot - start) 0;
        t2 ← max_ts r pivot (end_ - pivot) 0;
        if t1 >? t2 then search fuel' r pivot end_ else search fuel' r start pivot
      else mret start
  end.

Definition getBestCandidate (r : t) : outcome nat :=
  _ ← check (bool_decide (candIdx r = numCands r));
  start ← search (S (numCands r)) r 0 (numCands r);
  rd (candArray r) start.

Definition replaced (r : t) (id : nat) : outcome t :=
  l ← LRU.replaced (lru r) id; mret (mk l (candArray r) (numCands r) 0).

Definition update (r : t) (id : nat) (req : MemReq) : outcome t :=
  l ← LRU.update (lru r) id req; mret (mk l (candArray r) (numCands r) (candIdx r)).

Definition rank (r : t) (v : CCView) (req : MemReq) (cands : list nat) : outcome (option nat * t) :=
  '(c, l) ← LRU.rank (lru r) v req cands;
  mret (c, mk l (candArray r) (numCands r) (candIdx r)).

#[global] Instance policy : ReplPolicy t :=
  { rp_update := update; rp_replaced := replaced; rp_rank := rank }.

End TreeLRU.

(** ** NRU: two bits per line *)

Module NRU.

Record t := mk {
  array : list Z; candArray : list nat; numLines : nat; numCands : nat;
  youngLines : Z; candVal : Z; candIdx : nat
}.

Definition init (numLines numCands : nat) : t :=
  mk (replicate numLines 0) (replicate numCands 0%nat) numLines numCands 0 (Z.shiftl 1 20) 0.

Definition update (r : t) (id : nat) (_ : MemReq) : outcome t :=
  x ← rd (array r) id;
  let young := youngLines r +32 (1 - Z.shiftr x 1) in
  a ← wr (array r) id (Z.lor x 2);
  mret (if Z.of_nat (numLines r) / 2 <=? young
        then mk (map (fun y => Z.shiftr y 1) a) (candArray r) (numLines r) (numCands r) 0 (candVal r) (candIdx r)
        else mk a (candArray r) (numLines r) (numCands r) young (candVal r) (candIdx r)).

Definition recordCandidate (r : t) (id : nat) : outcome t :=
  iVal ← rd (array r) id;
  if iVal <? candVal r then
    ca ← wr (candArray r) 0 id;
    mret (mk (array r) ca (numLines r) (numCands r) (youngLines r) iVal 1)
  else if iVal =? candVal r then
    ca ← wr (candArray r) (candIdx r) id;
    mret (mk (array r) ca (numLines r) (numCands r) (youngLines r) (candVal r) (S (candIdx r)))
  else mret r.

Definition getBestCandidate (r : t) : outcome nat :=
  _ ← check (bool_decide (0 < candIdx r)%nat);
  rd (candArray r) (Z.to_nat (youngLines r `mod` Z.of_nat (candIdx r))).

Definition replaced (r : t) (id : nat) : outcome t :=
  a ← wr (array r) id 0;
  mret (mk a (candArray r) (numLines r) (numCands r) (youngLines r) (Z.shiftl 1 20) 0).

Fixpoint recordAll (r : t) (cands : list nat) : outcome t :=
  match cands with
  | [] => mret r
  | c :: cs => r ← recordCandidate r c; recordAll r cs
  end.

(** [LegacyReplPolicy::rank]. *)
Definition rank (r : t) (_ : CCView) (_ : MemReq) (cands : list nat) : outcome (option nat * t) :=
  r ← recordAll r cands; c ← getBestCandidate r; mret (Some c, r).

#[global] Instance policy : ReplPolicy t :=
  { rp_update := update; rp_replaced := replaced; rp_rank := rank }.

End NRU.

(** ** Random *)

Module Rand.

Record t := mk { candArray : list nat; numCands : nat; rnd : MTRand.t; candIdx : nat; drawFuel : nat }.

(** The seed is [0x23A5F + this]; the address of the object is an argument. *)
Definition init (numCands : nat) (this : Z) (fuel : nat) : t :=
  mk (replicate numCands 0%nat) numCands (MTRand.seed (u64 (0x23A5F + this))) 0 fuel.

Definition update (r : t) (_ : nat) (_ : MemReq) : outcome t := mret r.

Definition recordCandidate (r : t) (id : nat) : outcome t :=
  ca ← wr (candArray r) (candIdx r) id;
  mret (mk ca (numCands r) (rnd r) (S (candIdx r)) (drawFuel r)).

Definition getBestCandidate (r : t) : outcome (nat * t) :=
  _ ← check (bool_decide (candIdx r = numCands r));
  '(idx, g) ← MTRand.randIntN (drawFuel r) (rnd r) (u32 (Z.of_nat (numCands r) - 1));
  c ← rd (candArray r) (Z.to_nat idx);
  mret (c, mk (candArray r) (numCands r) g (candIdx r) (drawFuel r)).

Definition replaced (r : t) (_ : nat) : outcome t :=
  mret (mk (candArray r) (numCands r) (rnd r) 0 (drawFuel r)).

Fixpoint recordAll (r : t) (cands : list nat) : outcome t :=
  match cands with
  | [] => mret r
  | c :: cs => r ← recordCandidate r c; recordAll r cs
  end.

Definition rank (r : t) (_ : CCView) (_ : MemReq) (cands : list nat) : outcome (option nat * t) :=
  r ← recordAll r cands; '(c, r) ← getBestCandidate r; mret (Some c, r).

#[global] Instance policy : ReplPolicy t :=
  { rp_update := update; rp_replaced := replaced; rp_rank := rank }.

End Rand.

(** ** LFU *)

Module LFU.

Record info := mkInfo { ts : Z; acc : Z }.
Record rank_t := mkRank { lfuInfo : info; sharers : Z; valid : bool }.
Record t := mk { timestamp : Z; bestCandidate : option nat; array : list info; bestRank : rank_t }.

Definition reset_rank : rank_t := mkRank (mkInfo 0 0) 0 false.

Definition lessThan (a b : rank_t) (curTs : Z) : bool :=
  if negb (valid a) && valid b then true
  else if Bool.eqb (valid a) (valid b) then
    if (sharers a =? 0) && (0 <? sharers b) then true
    else if (0 <? sharers a) && (sharers b =? 0) then false
    else if acc (lfuInfo a) =? 0 then true
    else if acc (lfuInfo b) =? 0 then false
    else
      let own := (curTs -64 ts (lfuInfo a)) / acc (lfuInfo a) in
      let other := (curTs -64 ts (lfuInfo b)) / acc (lfuInfo b) in
      other <? own
  else false.

Definition init (numLines : nat) : t := mk 1 None (replicate numLines (mkInfo 0 0)) reset_rank.

Definition update (r : t) (id : nat) (_ : MemReq) : outcome t :=
  e ← rd (array r) id;
  let acc' := acc e +64 1 in
  _ ← check (negb (acc' =? 0)); (* division by acc + 1 *)
  a ← wr (array r) id (mkInfo ((u64 (acc e * ts e) +64 timestamp r) / acc') acc');
  mret (mk (timestamp r +64 1000) (bestCandidate r) a (bestRank r)).

Definition recordCandidate (r : t) (v : CCView) (id : nat) : outcome t :=
  e ← rd (array r) id;
  let candRank := mkRank e (cv_numSharers v id) (cv_isValid v id) in
  mret (if bool_decide (bestCandidate r = None) || lessThan candRank (bestRank r) (timestamp r)
        then mk (timestamp r) (Some id) (array r) candRank else r).

Definition getBestCandidate (r : t) : outcome nat :=
  match bestCandidate r with Some c => Ok c | None => Fault AssertFailed end.

Definition replaced (r : t) (id : nat) : outcome t :=
  e ← rd (array r) id;
  a ← wr (array r) id (mkInfo (ts e) 0);
  mret (mk (timestamp r) None a reset_rank).

Fixpoint recordAll (r : t) (v : CCView) (cands : list nat) : outcome t :=
  match cands with
  | [] => mret r
  | c :: cs => r ← recordCandidate r v c; recordAll r v cs
  end.

Definition rank (r : t) (v : CCView) (_ : MemReq) (cands : list nat) : outcome (option nat * t) :=
  r ← recordAll r v cands; c ← getBestCandidate r; mret (Some c, r).

#[global] Instance policy : ReplPolicy t :=
  { rp_update := update; rp_replaced := replaced; rp_rank := rank }.

End LFU.

(** ** Access-order violation profiling over LRU *)

Module ProfViol.

Record accTimes_t := mkTimes { read : Z; write : Z }.
Record t := mk {
  base : LRU.t; accTimes : list accTimes_t;
  profRAW : Z; profWAR : Z; profRAR : Z; profWAW : Z; profNoViolAcc : Z;
  profAAE : Z; profNoViolEv : Z; replCycle : Z
}.

Definition init (numLines : nat) (aware : bool) : t :=
  mk (LRU.init aware numLines) (replicate numLines (mkTimes 0 0)) 0 0 0 0 0 0 0 0.

(** Which violation counter an access at [cycle] increments, if any:
    [Some readViol], or [None] for no violation. *)
Definition violation (cycle : Z) (t : accTimes_t) : outcome (option bool) :=
  if cycle <? Z.max (read t) (write t) then
    if cycle <? Z.min (read t) (write t) then mret (Some (read t <? write t))
    else if cycle <? read t then mret (Some true)
    else _ ← check (cycle <? write t); mret (Some false)
  else mret None.

Definition record (p : t) (is_read : bool) (viol : option bool) : t :=
  let '(mk b a raw war rar waw nv aae nve rc) := p in
  match is_read, viol with
  | true, Some true => mk b a raw war (rar +64 1) waw nv aae nve rc
  | true, Some false => mk b a (raw +64 1) war rar waw nv aae nve rc
  | false, Some true => mk b a raw (war +64 1) rar waw nv aae nve rc
  | false, Some false => mk b a raw war rar (waw +64 1) nv aae nve rc
  | _, None => mk b a raw war rar waw (nv +64 1) aae nve rc
  end.

Definition set_base (p : t) (b : LRU.t) : t :=
  let '(mk _ a raw war rar waw nv aae nve rc) := p in mk b a raw war rar waw nv aae nve rc.
Definition set_times (p : t) (a : list accTimes_t) : t :=
  let '(mk b _ raw war rar waw nv aae nve rc) := p in mk b a raw war rar waw nv aae nve rc.

(** The base policy's [update] runs both before and after the profiling code. *)
Definition update (p : t) (id : nat) (req : MemReq) : outcome t :=
  b ← LRU.update (base p) id req;
  let p := set_base p b in
  let is_read := bool_decide (type req = GETS) in
  _ ← check (is_read || bool_decide (type req = GETX));
  tm ← rd (accTimes p) id;
  viol ← violation (cycle req) tm;
  let p := record p is_read viol in
  a ← wr (accTimes p) id (if is_read then mkTimes (Z.max (read tm) (cycle req)) (write tm)
                          else mkTimes (read tm) (Z.max (write tm) (cycle req)));
  let p := set_times p a in
  b ← LRU.update (base p) id req;
  mret (set_base p b).

Definition replaced (p : t) (id : nat) : outcome t :=
  b ← LRU.replaced (base p) id;
  tm ← rd (accTimes p) id;
  a ← wr (accTimes p) id (mkTimes 0 0);
  let '(mk _ _ raw war rar waw nv aae nve rc) := p in
  mret (if rc <? Z.max (read tm) (write tm)
        then mk b a raw war rar waw nv (aae +64 1) nve rc
        else mk b a raw war rar waw nv aae (nve +64 1) rc).

Definition rank (p : t) (v : CCView) (req : MemReq) (cands : list nat) : outcome (option nat * t) :=
  '(c, b) ← LRU.rank (base p) v req cands; mret (c, set_base p b).

#[global] Instance policy : ReplPolicy t :=
  { rp_update := update; rp_replaced := replaced; rp_rank := rank }.

End ProfViol.

(** ** The candidate loop *)

Lemma mbind_ok {A B} (o : outcome A) (f : A -> outcome B) b :
  mbind f o = Ok b <-> exists a, o = Ok a /\ f a = Ok b.
Proof.
  unfold mbind, outcome_bind. destruct o; split.
  - eauto.
  - by intros (? & [= <-] & ?).
  - done.
  - by intros (? & ? & ?).
Qed.

Lemma rank_min_some score cands : forall best bs,
  (forall c, c ∈ cands -> exists s, score c = Ok s) ->
  exists o, rank_min score cands best bs = Ok o /\
    (forall b, best = Some b -> exists c, o = Some c /\ (c = b \/ c ∈ cands)) /\
    (best = None -> bs = noScore -> cands <> [] -> exists c, o = Some c /\ c ∈ cands).
Proof.
  induction cands as [|c cs IH]; intros best bs Hs; cbn [rank_min].
  - exists best. split; [done|]. split; [|done]. intros b ->. eauto.
  - destruct (Hs c) as [s Es]; [set_solver|]. rewrite Es. unfold mbind, outcome_bind.
    set (best' := if u32 s <? bs then Some c else best).
    destruct (IH best' (Z.min (u32 s) bs)) as (o & -> & Hb & Hn); [set_solver|].
    exists o. split; [done|]. split.
    + intros b ->. assert (exists b', best' = Some b' /\ (b' = b \/ b' = c)) as (b' & Eb & Hb').
      { unfold best'. destruct (u32 s <? bs); eauto. }
      destruct (Hb b' Eb) as (c' & -> & Hc'). exists c'. split; [done|]. set_solver.
    + intros -> -> _. assert (best' = Some c) as Eb.
      { unfold best'. rewrite (proj2 (Z.ltb_lt _ _)); [done|].
        pose proof (wrap_bound 32 s ltac:(lia)). unfold noScore. lia. }
      destruct (Hb c Eb) as (c' & -> & Hc'). exists c'. split; [done|]. set_solver.
Qed.

(** With every score below 2^32 the cut to [uint32_t] loses nothing and the loop
    returns the first candidate of least score. *)
Lemma rank_min_least (sc : nat -> Z) score cands : forall best bs o,
  (forall c, c ∈ cands -> score c = Ok (sc c) /\ word 32 (sc c)) ->
  (match best with Some b => bs = sc b | None => bs = noScore end) ->
  rank_min score cands best bs = Ok o ->
  match o with
  | Some c => (best = Some c \/ c ∈ cands) /\ (forall d, d ∈ cands -> sc c <= sc d) /\
              (forall b, best = Some b -> sc c <= sc b)
  | None => best = None /\ cands = []
  end.
Proof.
  induction cands as [|c cs IH]; intros best bs o Hs Hbs; cbn [rank_min].
  - intros [= <-]. destruct best as [b|]; [|done].
    split; [by left|]. split; [set_solver|]. by intros ? [= <-].
  - destruct (Hs c) as [Es Hw]; [set_solver|]. rewrite Es. unfold mbind, outcome_bind.
    rewrite (wrap_small 32 (sc c)) by done. intros Hr.
    assert (forall c', c' ∈ cs -> score c' = Ok (sc c') /\ word 32 (sc c')) as Hs'.
    { intros. apply Hs. by apply list_elem_of_further. }
    destruct (Z.ltb_spec (sc c) bs) as [Hlt|Hge].
    + assert (Z.min (sc c) bs = sc c) as Em by lia. rewrite Em in Hr.
      specialize (IH (Some c) (sc c) o Hs' eq_refl Hr).
      destruct o as [d|]; [|by destruct IH]. destruct IH as (H1 & H2 & H3).
      pose proof (H3 c eq_refl) as H3'. split; [set_solver|]. split.
      * intros e He. apply elem_of_cons in He as [-> | He]; auto.
      * intros b ->. cbn in Hbs. lia.
    + assert (Z.min (sc c) bs = bs) as Em by lia. rewrite Em in Hr.
      destruct best as [b|]; cycle 1.
      { exfalso. subst bs. destruct Hw as [_ Hw]. unfold noScore in Hge. lia. }
      specialize (IH (Some b) bs o Hs' Hbs Hr).
      destruct o as [d|]; [|by destruct IH]. destruct IH as (H1 & H2 & H3).
      pose proof (H3 b eq_refl) as H3'. split; [set_solver|]. split; [|done].
      intros e He. apply elem_of_cons in He as [-> | He]; [lia|auto].
Qed.

(** ** The contract, policy by policy *)

Module ReplLaws.

Lemma wr_update {A} (l : list A) i x n : length l = n -> (i < n)%nat ->
  wr l i x = Ok (<[i := x]> l) /\ length (<[i := x]> l) = n.
Proof. intros <- Hi. rewrite wr_lt by done. by rewrite length_insert. Qed.

Lemma rd_total {A} (l : list A) i n : length l = n -> (i < n)%nat -> exists x, rd l i = Ok x /\ l !! i = Some x.
Proof.
  intros <- Hi. destruct (lookup_lt_is_Some_2 l i Hi) as [x Hx]. exists x. by rewrite (rd_some _ _ _ Hx).
Qed.

Lemma nonempty_of_length {A} (l : list A) k : length l = k -> (0 < k)%nat -> l <> [].
Proof. intros <- Hk ->. cbn in Hk. lia. Qed.

(** Timestamp policies: the array keeps its length, nothing else is needed. *)
#[global, refine] Instance lru_laws : ReplPolicyLaws LRU.t :=
  { rp_wf n k r := length (LRU.array r) = n; rp_ready _ := True }.
Proof.
  - intros n k r id req Hl Hi. cbn. unfold LRU.update.
    destruct (wr_update (LRU.array r) id (LRU.timestamp r) n Hl Hi) as [-> Hl']. eexists. split; [done|]. done.
  - intros n k r id Hl Hi. cbn. unfold LRU.replaced.
    destruct (wr_update (LRU.array r) id 0 n Hl Hi) as [-> Hl']. eexists. split; [done|]. done.
  - intros n k r v req cands Hl _ Hk Hc HF. cbn. unfold LRU.rank.
    destruct (rank_min_some (LRU.score r v) cands None noScore) as (o & -> & _ & Hn).
    { intros c Hin. rewrite Forall_forall in HF. destruct (rd_total (LRU.array r) c n Hl (HF c Hin)) as (x & Hx & _).
      unfold LRU.score. rewrite Hx. unfold mbind, outcome_bind. eauto. }
    destruct Hn as (c & -> & Hin); [done|done|by eapply nonempty_of_length|]. cbn. eauto.
Defined.

#[global, refine] Instance sharp_laws : ReplPolicyLaws SHARP.t :=
  { rp_wf n k r := length (SHARP.array r) = n; rp_ready _ := True }.
Proof.
  - intros n k r id req Hl Hi. cbn. unfold SHARP.update.
    destruct (wr_update (SHARP.array r) id (SHARP.timestamp r) n Hl Hi) as [-> Hl']. eexists. split; [done|]. done.
  - intros n k r id Hl Hi. cbn. unfold SHARP.replaced.
    destruct (wr_update (SHARP.array r) id 0 n Hl Hi) as [-> Hl']. eexists. split; [done|]. done.
  - intros n k r v req cands Hl _ Hk Hc HF. cbn. unfold SHARP.rank.
    destruct (rank_min_some (SHARP.score r v (srcId req)) cands None noScore) as (o & -> & _ & Hn).
    { intros c Hin. rewrite Forall_forall in HF. destruct (rd_total (SHARP.array r) c n Hl (HF c Hin)) as (x & Hx & _).
      unfold SHARP.score. rewrite Hx. unfold mbind, outcome_bind. eauto. }
    destruct Hn as (c & -> & Hin); [done|done|by eapply nonempty_of_length|]. cbn. eauto.
Defined.

#[global, refine] Instance tree_laws : ReplPolicyLaws TreeLRU.t :=
  { rp_wf n k r := length (LRU.array (TreeLRU.lru r)) = n; rp_ready _ := True }.
Proof.
  - intros n k r id req Hl Hi. cbn. unfold TreeLRU.update.
    destruct (rp_update_ok (ReplPolicyLaws := lru_laws) n k (TreeLRU.lru r) id req Hl Hi) as (l & E & Hl' & _).
    cbn in E. rewrite E. eexists. split; [done|]. done.
  - intros n k r id Hl Hi. cbn. unfold TreeLRU.replaced.
    destruct (rp_replaced_ok (ReplPolicyLaws := lru_laws) n k (TreeLRU.lru r) id Hl Hi) as (l & E & Hl' & _).
    cbn in E. rewrite E. eexists. split; [done|]. done.
  - intros n k r v req cands Hl _ Hk Hc HF. cbn. unfold TreeLRU.rank.
    destruct (rp_rank_ok (ReplPolicyLaws := lru_laws) n k (TreeLRU.lru r) v req cands Hl Logic.I Hk Hc HF)
      as (c & l & E & Hin & Hl').
    cbn in E. rewrite E. eexists _, _. split; [done|]. done.
Defined.

(** *** NRU *)

Definition young (x : Z) : Prop := 2 <= x.
Global Instance young_dec x : Decision (young x).
Proof. unfold young. apply _. Defined.

Definition count_young (l : list Z) : nat := length (filter young l).

(** Two-bit entries; [youngLines] counts at least every young line, and stays
    below half of the lines (or at zero when half rounds to zero). *)
Definition nru_wf (n k : nat) (r : NRU.t) : Prop :=
  length (NRU.array r) = n /\ NRU.numLines r = n /\ length (NRU.candArray r) = k /\ NRU.numCands r = k /\
  Forall (fun x => 0 <= x <= 3) (NRU.array r) /\ Z.of_nat n < max32 /\
  Z.of_nat (count_young (NRU.array r)) <= NRU.youngLines r /\
  (NRU.youngLines r = 0 \/ NRU.youngLines r < Z.of_nat n / 2).

Definition nru_ready (r : NRU.t) : Prop := NRU.candVal r = Z.shiftl 1 20 /\ NRU.candIdx r = 0%nat.

Lemma count_young_insert l i x y : l !! i = Some x ->
  (count_young (<[i := y]> l) + (if decide (young x) then 1 else 0) =
   count_young l + (if decide (young y) then 1 else 0))%nat.
Proof.
  revert i. unfold count_young. induction l as [|z l IH]; intros [|i] Hx; [done|done|..].
  - injection Hx as ->. change (<[0%nat:=y]> (x :: l)) with (y :: l).
    rewrite !filter_cons. repeat case_decide; cbn [length]; lia.
  - change (<[S i:=y]> (z :: l)) with (z :: <[i:=y]> l). specialize (IH i Hx).
    rewrite !filter_cons. destruct (decide (young z)); cbn [length]; lia.
Qed.

Lemma count_young_shift l : Forall (fun x => 0 <= x <= 3) l ->
  count_young (map (fun y => Z.shiftr y 1) l) = 0%nat /\
  Forall (fun x => 0 <= x <= 3) (map (fun y => Z.shiftr y 1) l).
Proof.
  unfold count_young. induction 1 as [|x l Hx _ IH]; cbn [map]; [by repeat constructor|].
  assert (0 <= Z.shiftr x 1 <= 1).
  { assert (x = 0 \/ x = 1 \/ x = 2 \/ x = 3) as [-> | [-> | [-> | ->]]] by lia; by split. }
  rewrite filter_cons, decide_False by (unfold young; lia). destruct IH. split; [done|].
  constructor; [lia|done].
Qed.

Lemma two_bit x : 0 <= x <= 3 ->
  0 <= Z.lor x 2 <= 3 /\ young (Z.lor x 2) /\ Z.shiftr x 1 = (if decide (young x) then 1 else 0).
Proof.
  intros Hx. assert (x = 0 \/ x = 1 \/ x = 2 \/ x = 3) as [-> | [-> | [-> | ->]]] by lia;
    repeat split; try done; by (rewrite decide_False || rewrite decide_True).
Qed.

Ltac nru_cbn := cbn [NRU.array NRU.candArray NRU.numLines NRU.numCands NRU.youngLines NRU.candVal NRU.candIdx].

Lemma nru_update_ok n k r id req : nru_wf n k r -> (id < n)%nat ->
  exists r', NRU.update r id req = Ok r' /\ nru_wf n k r' /\ (nru_ready r -> nru_ready r').
Proof.
  intros (Hl & Hn & Hc & Hk & HF & Hmax & Hy & Hlt) Hi. unfold NRU.update.
  destruct (rd_total (NRU.array r) id n Hl Hi) as (x & Ex & Lx). rewrite Ex.
  pose proof (Forall_lookup_1 _ _ _ _ HF Lx) as Hx. destruct (two_bit x Hx) as (H3 & Hyoung & Hsh).
  destruct (wr_update (NRU.array r) id (Z.lor x 2) n Hl Hi) as [Ew Hl'].
  unfold mbind, outcome_bind. rewrite Ew. cbn zeta.
  pose proof (count_young_insert (NRU.array r) id x (Z.lor x 2) Lx) as Hcnt.
  rewrite (decide_True (P := young (Z.lor x 2))) in Hcnt by done.
  rewrite max32_eq in Hmax.
  assert (0 <= Z.of_nat n / 2 <= Z.of_nat n) by (Z.div_mod_to_equations; lia).
  assert (u32 (NRU.youngLines r + (1 - Z.shiftr x 1)) = NRU.youngLines r + (1 - Z.shiftr x 1)) as Eu.
  { apply u32_small. rewrite max32_eq, Hsh. case_decide; lia. }
  rewrite Eu. assert (Forall (fun z => 0 <= z <= 3) (<[id:=Z.lor x 2]> (NRU.array r))) as HF'
    by (apply Forall_insert; [done|lia]).
  rewrite Hsh. eexists. split; [reflexivity|]. 
  match goal with |- context [?a <=? ?b] => destruct (Z.leb_spec a b) end;
    (split; [|by intros [? ?]]); unfold nru_wf; nru_cbn.
  - destruct (count_young_shift _ HF') as [-> HF'']. rewrite length_map, Hl', max32_eq.
    repeat split; try done; lia.
  - rewrite Hl', max32_eq. rewrite Hn in *. destruct (decide (young x)); repeat split; try done; lia.
Qed.

Lemma nru_replaced_ok n k r id : nru_wf n k r -> (id < n)%nat ->
  exists r', NRU.replaced r id = Ok r' /\ nru_wf n k r' /\ nru_ready r'.
Proof.
  intros (Hl & Hn & Hc & Hk & HF & Hmax & Hy & Hlt) Hi. unfold NRU.replaced.
  destruct (rd_total (NRU.array r) id n Hl Hi) as (x & _ & Lx).
  destruct (wr_update (NRU.array r) id 0 n Hl Hi) as [-> Hl'].
  pose proof (count_young_insert (NRU.array r) id x 0 Lx) as Hcnt.
  rewrite (decide_False (P := young 0)) in Hcnt by (unfold young; lia).
  eexists. split; [reflexivity|]. unfold nru_wf, nru_ready; nru_cbn. rewrite Hl'.
  repeat split; try done; try lia; apply Forall_insert; [done|lia].
Qed.

(** The candidate buffer during a [rank]: its first [candIdx] slots hold the
    recorded candidates of least age. *)
Definition nru_buffer (r0 r : NRU.t) (done_ : list nat) : Prop :=
  NRU.array r = NRU.array r0 /\ NRU.numLines r = NRU.numLines r0 /\
  NRU.numCands r = NRU.numCands r0 /\ NRU.youngLines r = NRU.youngLines r0 /\
  length (NRU.candArray r) = length (NRU.candArray r0) /\
  (NRU.candIdx r <= length done_)%nat /\
  (done_ = [] -> NRU.candVal r = Z.shiftl 1 20) /\
  (done_ <> [] -> (0 < NRU.candIdx r)%nat) /\
  (forall c, c ∈ done_ -> exists x, NRU.array r0 !! c = Some x /\ NRU.candVal r <= x) /\
  (forall i, (i < NRU.candIdx r)%nat -> exists c, NRU.candArray r !! i = Some c /\ c ∈ done_ /\
     NRU.array r0 !! c = Some (NRU.candVal r)).

Lemma nru_record_ok n r0 r done_ c :
  length (NRU.array r0) = n -> Forall (fun x => 0 <= x <= 3) (NRU.array r0) ->
  (c < n)%nat -> (length done_ < length (NRU.candArray r0))%nat -> nru_buffer r0 r done_ ->
  exists r', NRU.recordCandidate r c = Ok r' /\ nru_buffer r0 r' (done_ ++ [c]).
Proof.
  intros Hl HF Hc Hlen (Ha & Hn & Hk & Hy & Hca & Hidx & He & Hne & Hmin & Hbuf).
  unfold NRU.recordCandidate. rewrite Ha.
  destruct (rd_total (NRU.array r0) c n Hl Hc) as (x & -> & Lx).
  pose proof (Forall_lookup_1 _ _ _ _ HF Lx) as Hx. cbn in Hx.
  unfold mbind, outcome_bind, mret, outcome_ret.
  assert (forall P : Prop, done_ ++ [c] = [] -> P) as Happ by (intros P E; by destruct done_).
  destruct (Z.ltb_spec x (NRU.candVal r)) as [Hlt|Hge]; [|destruct (Z.eqb_spec x (NRU.candVal r)) as [Heq|Hneq]].
  - rewrite wr_lt by lia. eexists. split; [reflexivity|]. unfold nru_buffer; nru_cbn.
    rewrite length_insert, length_app. cbn [length]. repeat (split; [first [done|lia|by apply Happ]|]). split.
    + intros d [Hd | ->%list_elem_of_singleton]%elem_of_app; [|eexists; split; [done|lia]].
      destruct (Hmin d Hd) as (y & Ly & Hy'). exists y. split; [done|lia].
    + intros i Hi. assert (i = 0%nat) as -> by lia. exists c.
      rewrite list_lookup_insert_eq by lia. split; [done|]. split; [set_solver|done].
  - rewrite wr_lt by lia. eexists. split; [reflexivity|]. unfold nru_buffer; nru_cbn.
    rewrite length_insert, length_app. cbn [length]. repeat (split; [first [done|lia|by apply Happ]|]). split.
    + intros d [Hd | ->%list_elem_of_singleton]%elem_of_app; [by apply Hmin|]. exists x. split; [done|lia].
    + intros i Hi. destruct (decide (i = NRU.candIdx r)) as [->|Hi'].
      * exists c. rewrite list_lookup_insert_eq by lia. subst x. split; [done|]. split; [set_solver|done].
      * destruct (Hbuf i ltac:(lia)) as (d & Hd & Hin & Hv). exists d.
        rewrite list_lookup_insert_ne by done. split; [done|]. split; [set_solver|done].
  - eexists. split; [reflexivity|]. unfold nru_buffer. rewrite length_app. cbn [length].
    assert (done_ <> []) as Hnd.
    { intros ->. rewrite (He eq_refl) in Hge. change (Z.shiftl 1 20) with 1048576 in Hge. lia. }
    repeat (split; [first [done|lia|by apply Happ|by intros; apply Hne]|]). split.
    + intros d [Hd | ->%list_elem_of_singleton]%elem_of_app; [by apply Hmin|]. exists x. split; [done|lia].
    + intros i Hi. destruct (Hbuf i Hi) as (d & Hd & Hin & Hv). exists d. split; [done|]. split; [set_solver|done].
Qed.

Lemma nru_recordAll_ok n r0 cands : forall r done_,
  length (NRU.array r0) = n -> Forall (fun x => 0 <= x <= 3) (NRU.array r0) ->
  Forall (fun c => c < n)%nat cands -> (length done_ + length cands <= length (NRU.candArray r0))%nat ->
  nru_buffer r0 r done_ ->
  exists r', NRU.recordAll r cands = Ok r' /\ nru_buffer r0 r' (done_ ++ cands).
Proof.
  induction cands as [|c cs IH]; intros r done_ Hl HF HC Hlen Hb; cbn [NRU.recordAll].
  - exists r. by rewrite app_nil_r.
  - inversion HC as [|? ? Hc HC']; subst. cbn [length] in Hlen.
    destruct (nru_record_ok _ r0 r done_ c eq_refl HF Hc ltac:(lia) Hb) as (r1 & -> & Hb1).
    unfold mbind, outcome_bind. destruct (IH r1 (done_ ++ [c])) as (r2 & -> & Hb2);
      [done|done|done|rewrite length_app; cbn; lia|done|]. exists r2. by rewrite <- app_assoc in Hb2.
Qed.

(** NRU's choice: a candidate of least age. *)
Lemma nru_rank_least n k r v req cands : nru_wf n k r -> nru_ready r ->
  (0 < k)%nat -> length cands = k -> Forall (fun c => c < n)%nat cands ->
  exists c x r', NRU.rank r v req cands = Ok (Some c, r') /\ c ∈ cands /\ nru_wf n k r' /\
    NRU.array r !! c = Some x /\
    (forall d, d ∈ cands -> exists y, NRU.array r !! d = Some y /\ x <= y).
Proof.
  intros (Hl & Hn & Hc & Hk & HF & Hmax & Hy & Hlt) [Hv Hi] Hpos Hlen HC. unfold NRU.rank.
  destruct (nru_recordAll_ok n r cands r [] Hl HF HC) as (r' & -> & Hb).
  { cbn. lia. }
  { repeat split; try done; try set_solver. - rewrite Hi. cbn. lia. - intros i. rewrite Hi. lia. }
  cbn [app] in Hb. destruct Hb as (Ba & Bn & Bk & By & Bca & Bidx & _ & Bne & Bmin & Bbuf).
  specialize (Bne (nonempty_of_length _ _ Hlen Hpos)).
  unfold mbind, outcome_bind, NRU.getBestCandidate. rewrite bool_decide_eq_true_2 by done. cbn [check mbind outcome_bind].
  unfold mbind, outcome_bind.
  assert (Z.to_nat (NRU.youngLines r' `mod` Z.of_nat (NRU.candIdx r')) < NRU.candIdx r')%nat as Hlt'.
  { pose proof (Z.mod_pos_bound (NRU.youngLines r') (Z.of_nat (NRU.candIdx r')) ltac:(lia)). lia. }
  destruct (Bbuf _ Hlt') as (c & Lc & Hin & Hval). rewrite (rd_some _ _ _ Lc).
  exists c, (NRU.candVal r'), r'. split; [done|]. split; [done|]. split.
  - unfold nru_wf. rewrite Ba, Bn, Bk, By, Bca. done.
  - split; [done|]. exact Bmin.
Qed.

#[global, refine] Instance nru_laws : ReplPolicyLaws NRU.t :=
  { rp_wf := nru_wf; rp_ready := nru_ready }.
Proof.
  - intros n k r id req. apply nru_update_ok.
  - intros n k r id. apply nru_replaced_ok.
  - intros n k r v req cands Hw Hr Hk Hl HF.
    destruct (nru_rank_least n k r v req cands Hw Hr Hk Hl HF) as (c & x & r' & H1 & H2 & H3 & _). eauto.
Defined.

End ReplLaws.

(** ** Properties *)

Module ReplProps.
Import ReplLaws.

(** C39: while every candidate's 64-bit score is below 2^32, LRU's victim is a
    candidate of least score (sharers first, then timestamp; invalid lines 0). *)
Theorem lru_victim_least (r : LRU.t) (v : CCView) (req : MemReq) (cands : list nat) :
  cands <> [] ->
  (forall c, c ∈ cands -> exists s, LRU.score r v c = Ok s /\ word 32 s) ->
  exists c s, LRU.rank r v req cands = Ok (Some c, r) /\ c ∈ cands /\ LRU.score r v c = Ok s /\
    forall d s', d ∈ cands -> LRU.score r v d = Ok s' -> s <= s'.
Proof.
  intros Hne Hs. set (sc c := match LRU.score r v c with Ok s => s | Fault _ => 0 end).
  assert (forall c, c ∈ cands -> LRU.score r v c = Ok (sc c) /\ word 32 (sc c)) as Hsc.
  { intros c Hc. destruct (Hs c Hc) as (s & E & Hw). unfold sc. by rewrite E. }
  destruct (rank_min_some (LRU.score r v) cands None noScore) as (o & E & _ & _); [naive_solver|].
  pose proof (rank_min_least sc (LRU.score r v) cands None noScore o Hsc eq_refl E) as Hr.
  destruct o as [c|]; [|by destruct Hr]. destruct Hr as ([|Hin] & Hmin & _); [done|].
  exists c, (sc c). unfold LRU.rank. rewrite E. split; [done|]. split; [done|].
  destruct (Hsc c Hin) as [Ec _]. split; [done|]. intros d s' Hd Ed.
  destruct (Hsc d Hd) as [Ed' _]. specialize (Hmin d Hd). congruence.
Qed.

Definition view0 : CCView := mkView (fun _ => 0) (fun _ => true) (fun _ _ => false).
Definition req0 : MemReq := mkReq 64 GETS 0 DummyState 100 NoLock stI 0 0.

Lemma lru_victim_least_witness :
  exists c s, LRU.rank (LRU.mk true 9 [4; 2; 8; 7]) view0 req0 [0; 1; 2; 3]%nat =
      Ok (Some c, LRU.mk true 9 [4; 2; 8; 7]) /\ c ∈ [0; 1; 2; 3]%nat /\
    LRU.score (LRU.mk true 9 [4; 2; 8; 7]) view0 c = Ok s /\
    forall d s', d ∈ [0; 1; 2; 3]%nat -> LRU.score (LRU.mk true 9 [4; 2; 8; 7]) view0 d = Ok s' -> s <= s'.
Proof.
  apply (lru_victim_least (LRU.mk true 9 [4; 2; 8; 7]) view0 req0 [0; 1; 2; 3]%nat); [done|].
  intros c Hc. repeat (apply elem_of_cons in Hc as [-> | Hc]; [eexists; split; [reflexivity|by split; vm_compute]|]).
  by apply elem_of_nil in Hc.
Defined.

(** A run of hits: [update] on each line of [ids] in turn. *)
Fixpoint lru_run (r : LRU.t) (ids : list nat) : outcome LRU.t :=
  match ids with [] => Ok r | id :: ids => r ← LRU.update r id req0; lru_run r ids end.

Lemma lru_run_replicate m : forall ts a b, 0 <= ts -> ts + Z.of_nat m < 2 ^ 64 ->
  lru_run (LRU.mk false ts [a; b]) (replicate m 1%nat) =
  Ok (LRU.mk false (ts + Z.of_nat m) [a; if decide (m = 0%nat) then b else ts + Z.of_nat m - 1]).
Proof.
  induction m as [|m IH]; intros ts a b H0 H1.
  - cbn. by rewrite Z.add_0_r.
  - cbn [replicate lru_run]. unfold LRU.update, mbind, outcome_bind, mret, outcome_ret.
    cbn [LRU.array LRU.timestamp LRU.sharersAware wr].
    assert (wr [a; b] 1 ts = Ok [a; ts]) as -> by reflexivity.
    rewrite wrap_small by lia. rewrite IH by lia.
    rewrite (decide_False (P := S m = 0%nat)) by done. rewrite Nat2Z.inj_succ.
    replace (ts + 1 + Z.of_nat m) with (ts + Z.succ (Z.of_nat m)) by lia.
    case_decide; [subst m|done]. by replace (ts + Z.succ (Z.of_nat 0) - 1) with ts by lia.
Qed.

Lemma lru_run_app r ids1 ids2 : lru_run r (ids1 ++ ids2) = (r' ← lru_run r ids1; lru_run r' ids2).
Proof.
  revert r. induction ids1 as [|i ids IH]; intros r; [done|]. cbn [app lru_run].
  unfold mbind, outcome_bind in *. destruct (LRU.update r i req0); [apply IH|done].
Qed.

(** C40: the [uint32_t] local truncates LRU's 64-bit score: there is a run of hits
    on a two-line array, from the initial policy, after which the line just hit
    (the most recently used one, with the larger timestamp) is the victim. *)
Theorem lru_truncation_evicts_mru :
  exists ids r t0 t1, lru_run (LRU.init false 2) (ids ++ [0%nat]) = Ok r /\
    LRU.array r = [t0; t1] /\ t1 < t0 /\
    LRU.rank r view0 req0 [0; 1]%nat = Ok (Some 0%nat, r).
Proof.
  set (m := Z.to_nat (2 ^ 32 - 1)).
  assert (Z.of_nat m = 2 ^ 32 - 1) as Hm by (unfold m; rewrite Z2Nat.id; lia).
  exists (replicate m 1%nat), (LRU.mk false (2 ^ 32 + 1) [2 ^ 32; 2 ^ 32 - 1]), (2 ^ 32), (2 ^ 32 - 1).
  clearbody m. split; [|by split; [|split]].
  rewrite lru_run_app. unfold LRU.init. cbn [replicate].
  rewrite lru_run_replicate by lia. rewrite Hm, decide_False by (intros ->; cbn in Hm; lia). reflexivity.
Qed.

(** NRU's replacement returns, picks a candidate whose two-bit age is least
    among the candidates, and keeps the policy's invariant: two-bit ages, and a
    young-line counter that bounds the number of young lines and stays below half. *)
Theorem nru_rank_oldest (n k : nat) (r : NRU.t) (v : CCView) (req : MemReq) (cands : list nat) :
  nru_wf n k r -> nru_ready r -> (0 < k)%nat -> length cands = k ->
  Forall (fun c => c < n)%nat cands ->
  exists c x r', NRU.rank r v req cands = Ok (Some c, r') /\ c ∈ cands /\ nru_wf n k r' /\
    NRU.array r !! c = Some x /\
    (forall d, d ∈ cands -> exists y, NRU.array r !! d = Some y /\ x <= y).
Proof. apply nru_rank_least. Qed.

Lemma nru_init_wf n k : Z.of_nat n < max32 -> nru_wf n k (NRU.init n k) /\ nru_ready (NRU.init n k).
Proof.
  intros Hn. split; [|done]. unfold nru_wf, NRU.init. nru_cbn. rewrite !length_replicate.
  assert (count_young (replicate n 0) = 0%nat) as ->.
  { clear. unfold count_young. induction n as [|n IH]; cbn [replicate]; [done|].
    by rewrite filter_cons, decide_False by (unfold young; lia). }
  repeat split; try done; try lia. apply Forall_replicate. lia.
Qed.

Lemma nru_rank_oldest_witness :
  exists c x r', NRU.rank (NRU.init 8 4) view0 req0 [0; 1; 2; 3]%nat = Ok (Some c, r') /\
    c ∈ [0; 1; 2; 3]%nat /\ nru_wf 8 4 r' /\ NRU.array (NRU.init 8 4) !! c = Some x /\
    (forall d, d ∈ [0; 1; 2; 3]%nat -> exists y, NRU.array (NRU.init 8 4) !! d = Some y /\ x <= y).
Proof.
  destruct (nru_init_wf 8 4) as [Hw Hr]; [by vm_compute|].
  apply (nru_rank_oldest 8 4 (NRU.init 8 4) view0 req0 [0; 1; 2; 3]%nat); [done|done|lia|done|].
  repeat constructor.
Defined.

(** *** LFU prefers invalid lines *)

Lemma lfu_record_ok r v c n : length (LFU.array r) = n -> (c < n)%nat ->
  exists e, LFU.array r !! c = Some e /\
    LFU.recordCandidate r v c = Ok
      (if bool_decide (LFU.bestCandidate r = None) ||
          LFU.lessThan (LFU.mkRank e (cv_numSharers v c) (cv_isValid v c)) (LFU.bestRank r) (LFU.timestamp r)
       then LFU.mk (LFU.timestamp r) (Some c) (LFU.array r)
              (LFU.mkRank e (cv_numSharers v c) (cv_isValid v c)) else r).
Proof.
  intros Hl Hc. destruct (rd_total (LFU.array r) c n Hl Hc) as (e & E & L). exists e.
  unfold LFU.recordCandidate. by rewrite E.
Qed.

Lemma lfu_recordAll_ok n v cands : forall r done_,
  length (LFU.array r) = n -> Forall (fun c => c < n)%nat cands ->
  (match LFU.bestCandidate r with
   | None => done_ = []
   | Some b => b ∈ done_ /\ LFU.valid (LFU.bestRank r) = cv_isValid v b /\
       (forall d, d ∈ done_ -> cv_isValid v d = false -> cv_isValid v b = false)
   end) ->
  exists r', LFU.recordAll r v cands = Ok r' /\
    match LFU.bestCandidate r' with
    | None => done_ ++ cands = []
    | Some b => b ∈ done_ ++ cands /\ LFU.valid (LFU.bestRank r') = cv_isValid v b /\
        (forall d, d ∈ done_ ++ cands -> cv_isValid v d = false -> cv_isValid v b = false)
    end.
Proof.
  induction cands as [|c cs IH]; intros r done_ Hl HF Hinv; cbn [LFU.recordAll].
  - exists r. by rewrite app_nil_r.
  - inversion HF as [|? ? Hc HF']; subst.
    destruct (lfu_record_ok r v c _ eq_refl Hc) as (e & _ & ->). unfold mbind, outcome_bind.
    replace (done_ ++ c :: cs) with ((done_ ++ [c]) ++ cs) by by rewrite <- app_assoc.
    apply IH; [by destruct (_ || _)|done|].
    destruct (bool_decide _ || _) eqn:E.
    + cbn [LFU.bestCandidate LFU.bestRank LFU.valid]. split; [set_solver|]. split; [done|].
      intros d [Hd | ->%list_elem_of_singleton]%elem_of_app Hinvd; [|done].
      destruct (LFU.bestCandidate r) as [b|]; [|subst; set_solver].
      destruct Hinv as (_ & Hv & Hb). specialize (Hb d Hd Hinvd).
      rewrite bool_decide_eq_false_2 in E by done. cbn [orb] in E. revert E.
      unfold LFU.lessThan. cbn [LFU.valid]. rewrite Hv, Hb. by destruct (cv_isValid v c).
    + apply orb_false_iff in E as [E1 E2]. apply bool_decide_eq_false_1 in E1.
      destruct (LFU.bestCandidate r) as [b|]; [|done]. destruct Hinv as (Hin & Hv & Hb).
      split; [set_solver|]. split; [done|].
      intros d [Hd | ->%list_elem_of_singleton]%elem_of_app Hinvd; [by eapply Hb|].
      destruct (cv_isValid v b) eqn:Eb; [|done]. exfalso. revert E2.
      unfold LFU.lessThan. cbn [LFU.valid]. by rewrite Hv, Hinvd.
Qed.

(** LFU's replacement returns a candidate, and never a valid line while one
    of the candidates is invalid. *)
Theorem lfu_invalid_first (n : nat) (r : LFU.t) (v : CCView) (req : MemReq) (cands : list nat) :
  length (LFU.array r) = n -> LFU.bestCandidate r = None ->
  cands <> [] -> Forall (fun c => c < n)%nat cands ->
  exists c r', LFU.rank r v req cands = Ok (Some c, r') /\ c ∈ cands /\
    (forall d, d ∈ cands -> cv_isValid v d = false -> cv_isValid v c = false).
Proof.
  intros Hl Hb Hne HF. unfold LFU.rank.
  destruct (lfu_recordAll_ok n v cands r [] Hl HF) as (r' & -> & Hr'); [by rewrite Hb|].
  cbn [app] in Hr'. unfold mbind, outcome_bind, LFU.getBestCandidate.
  destruct (LFU.bestCandidate r') as [c|]; [|done]. destruct Hr' as (Hin & _ & Hi).
  by exists c, r'.
Qed.

Lemma lfu_invalid_first_witness :
  let v := mkView (fun _ => 0) (fun i => bool_decide (i <> 2%nat)) (fun _ _ => false) in
  exists c r', LFU.rank (LFU.init 4) v req0 [0; 1; 2; 3]%nat = Ok (Some c, r') /\ c ∈ [0; 1; 2; 3]%nat /\
    (forall d, d ∈ [0; 1; 2; 3]%nat -> cv_isValid v d = false -> cv_isValid v c = false).
Proof.
  intros v. apply (lfu_invalid_first 4 (LFU.init 4) v req0 [0; 1; 2; 3]%nat); [done..|repeat constructor].
Defined.

End ReplProps.
