(* ===== verification/CacheArrays.v ===== *)
(** * Cache arrays (src/src/cache_arrays.h, src/src/cache_arrays.cpp)

    The set-associative array with its set and way partitions, the CEASER array
    with its two hashes and per-set switches, the zcache, and the [CacheArray]
    interface (with its contract) that the caches are written against. *)

From S2P Require Import Prelude MemHier MTRand Hash ReplPolicies.
Local Open Scope Z_scope.

(** ** The interface

    A line id is a [nat] below the number of lines; the C++ [-1] of a failed
    lookup is [None].  [upd] is [Some req] when the caller passes
    [updateReplacement = true]. *)
Class CacheArray (A : Type) := {
  ca_lookup : A -> Z -> option MemReq -> outcome (option nat * A);
  ca_preinsert : A -> CCView -> Z -> MemReq -> outcome (nat * Z * A);
  ca_postinsert : A -> Z -> MemReq -> nat -> outcome A
}.

(** The contract. [ca_wf p a]: [p] is set between [preinsert] and [postinsert].
    [ca_tag a i] is the address held at line [i]; address 0 is the empty tag
    and may be held by many lines, any other address by one at most.
    [ca_slot a x i]: [preinsert] may have answered [i] for address [x]. *)
Class CacheArrayLaws (A : Type) `{CacheArray A} := {
  ca_wf : bool -> A -> Prop;
  ca_lines : A -> nat;
  ca_tag : A -> nat -> option Z;
  ca_slot : A -> Z -> nat -> Prop;
  ca_tag_lines p a i : ca_wf p a -> is_Some (ca_tag a i) <-> (i < ca_lines a)%nat;
  ca_unique p a i j x : ca_wf p a -> x <> 0 ->
    ca_tag a i = Some x -> ca_tag a j = Some x -> i = j;
  ca_lookup_hit p a x upd i : ca_wf p a -> word 64 x -> x <> 0 -> ca_tag a i = Some x ->
    exists a', ca_lookup a x upd = Ok (Some i, a') /\ ca_wf p a' /\ ca_lines a' = ca_lines a /\
      (forall j, ca_tag a' j = ca_tag a j) /\ (upd = None -> a' = a);
  ca_lookup_miss p a x upd : ca_wf p a -> word 64 x -> x <> 0 -> (forall i, ca_tag a i <> Some x) ->
    ca_lookup a x upd = Ok (None, a);
  ca_preinsert_ok a v x req : ca_wf false a -> word 64 x -> x <> 0 ->
    exists i wb a', ca_preinsert a v x req = Ok (i, wb, a') /\ ca_wf true a' /\
      ca_lines a' = ca_lines a /\ (forall j, ca_tag a' j = ca_tag a j) /\
      ca_tag a' i = Some wb /\ ca_slot a' x i;
  ca_postinsert_ok a x req i : ca_wf true a -> word 64 x -> ca_slot a x i ->
    (x <> 0 -> forall j, ca_tag a j <> Some x) ->
    exists a', ca_postinsert a x req i = Ok a' /\ ca_wf false a' /\ ca_lines a' = ca_lines a /\
      ca_tag a' i = Some x /\ (forall j, j <> i -> ca_tag a' j = ca_tag a j)
}.

(** Bit test of bithacks.h, on the 32-bit word. *)
Definition isPow2 (v : Z) : bool := negb (v =? 0) && (Z.land v (u32 (v - 1)) =? 0).

(** First line of [\[id, id + n)] that holds [addr]. *)
Fixpoint find_line (array : list Z) (addr : Z) (id n : nat) : outcome (option nat) :=
  match n with
  | O => mret None
  | S n' =>
      x ← rd array id;
      if x =? addr then mret (Some id) else find_line array addr (S id) n'
  end.

(** ** Set-associative array *)

Module SetAssoc.

Record t (R : Type) := mk {
  array : list Z;
  rp : R;
  hf : HashFamily;
  numLines : Z; numSets : Z; assoc : Z; setMask : Z;
  isLLC : bool;
  partitionSetCount : Z; partitionMask : Z; partitionAssoc : Z;
  (* zinfo and the process's partition number, as read by every call *)
  setPartition : bool; wayPartition : bool; proc_partition : Z
}.
Arguments mk {R}. Arguments array {R}. Arguments rp {R}. Arguments hf {R}.
Arguments numLines {R}. Arguments numSets {R}. Arguments assoc {R}. Arguments setMask {R}.
Arguments isLLC {R}. Arguments partitionSetCount {R}. Arguments partitionMask {R}.
Arguments partitionAssoc {R}. Arguments setPartition {R}. Arguments wayPartition {R}.
Arguments proc_partition {R}.

Definition make {R} (numLines assoc : Z) (rp : R) (hf : HashFamily) (numCores : Z)
    (isLLC setPartition wayPartition : bool) (proc_partition : Z) : outcome (t R) :=
  let numSets := numLines / assoc in
  _ ← check (isPow2 numSets);
  let psc := numSets / numCores in
  let pa := assoc / numCores in
  mret (mk (replicate (Z.to_nat numLines) 0) rp hf numLines numSets assoc (u32 (numSets - 1))
           isLLC psc (u32 (psc - 1)) (if pa =? 0 then 1 else pa)
           setPartition wayPartition proc_partition).

Definition set_array {R} (a : t R) (arr : list Z) (r : R) : t R :=
  let '(mk _ _ h nl ns asc sm llc psc pm pa sp wp pp) := a in
  mk arr r h nl ns asc sm llc psc pm pa sp wp pp.

(** The ids searched and ranked for an address, as [low] and a count: the
    address's set, or the process's share of it. The three cases of both
    [lookup] and [preinsert]. *)
Definition line_range {R} (a : t R) (lineAddr : Z) : outcome (nat * nat) :=
  h ← hash (hf a) 0 lineAddr;
  if isLLC a && setPartition a then
    let set := Z.land h (partitionMask a) +32 u32 (partitionSetCount a * proc_partition a) in
    mret (Z.to_nat (u32 (set * assoc a)), Z.to_nat (assoc a))
  else if isLLC a && wayPartition a then
    let set := Z.land h (setMask a) in
    let low := u32 (set * assoc a) +32 Z.land (u32 (proc_partition a * partitionAssoc a)) (assoc a - 1) in
    mret (Z.to_nat low, Z.to_nat (partitionAssoc a))
  else
    let set := Z.land h (setMask a) in
    mret (Z.to_nat (u32 (set * assoc a)), Z.to_nat (assoc a)).

Section ops.
Context {R : Type} `{ReplPolicy R}.

Definition lookup (a : t R) (lineAddr : Z) (upd : option MemReq) : outcome (option nat * t R) :=
  '(low, n) ← line_range a lineAddr;
  o ← find_line (array a) lineAddr low n;
  match o, upd with
  | Some id, Some req => r ← rp_update (rp a) id req; mret (Some id, set_array a (array a) r)
  | _, _ => mret (o, a)
  end.

(** An empty candidate list gives candidate [(uint32_t)-1], out of range. *)
Definition preinsert (a : t R) (v : CCView) (lineAddr : Z) (req : MemReq) : outcome (nat * Z * t R) :=
  '(low, n) ← line_range a lineAddr;
  '(c, r) ← rp_rank (rp a) v req (seq low n);
  match c with
  | Some candidate => wb ← rd (array a) candidate; mret (candidate, wb, set_array a (array a) r)
  | None => Fault OutOfRange
  end.

Definition postinsert (a : t R) (lineAddr : Z) (req : MemReq) (candidate : nat) : outcome (t R) :=
  r ← rp_replaced (rp a) candidate;
  arr ← wr (array a) candidate lineAddr;
  r ← rp_update r candidate req;
  mret (set_array a arr r).

#[global] Instance setassoc_array : CacheArray (t R) :=
  { ca_lookup := lookup; ca_preinsert := preinsert; ca_postinsert := postinsert }.
End ops.

End SetAssoc.

(** ** CEASER array: random victim, two hashes, one switch per set *)

Module CEASER.

Record t := mk {
  array : list Z;
  hf_current : HashFamily; hf_target : HashFamily;
  numLines : Z; numSets : Z; assoc : Z; setMask : Z;
  switch_array : list Z;
  rng : MTRand.t;
  drawFuel : nat
}.

Definition make (numLines assoc : Z) (hf_1 hf_2 : HashFamily) (fuel : nat) : outcome t :=
  let numSets := numLines / assoc in
  _ ← check (isPow2 numSets);
  mret (mk (replicate (Z.to_nat numLines) 0) hf_1 hf_2 numLines numSets assoc (u32 (numSets - 1))
           (replicate (Z.to_nat numSets) 0) (MTRand.seed 0x322D2523F) fuel).

Definition set_array (a : t) (arr : list Z) : t :=
  let '(mk _ c tg nl ns asc sm sw g f) := a in mk arr c tg nl ns asc sm sw g f.
Definition set_rng (a : t) (g : MTRand.t) : t :=
  let '(mk arr c tg nl ns asc sm sw _ f) := a in mk arr c tg nl ns asc sm sw g f.
Definition set_switches (a : t) (sw : list Z) : t :=
  let '(mk arr c tg nl ns asc sm _ g f) := a in mk arr c tg nl ns asc sm sw g f.

(** The set of an address: by the current hash, or, if that set has been
    switched, by the target hash. *)
Definition set_of (a : t) (lineAddr : Z) : outcome Z :=
  h ← hash (hf_current a) 0 lineAddr;
  let set := Z.land h (setMask a) in
  sw ← rd (switch_array a) (Z.to_nat set);
  if sw =? 1 then h' ← hash (hf_target a) 0 lineAddr; mret (Z.land h' (setMask a))
  else mret set.

Definition lookup (a : t) (lineAddr : Z) (_ : option MemReq) : outcome (option nat * t) :=
  set ← set_of a lineAddr;
  o ← find_line (array a) lineAddr (Z.to_nat (u32 (set * assoc a))) (Z.to_nat (assoc a));
  mret (o, a).

Definition getAddr (a : t) (set : nat) (way : nat) : outcome Z :=
  rd (array a) (Z.to_nat (u32 (Z.of_nat set * assoc a)) + way).

Definition getSwitch (a : t) (set : nat) : outcome Z := rd (switch_array a) set.

Definition setSwitch (a : t) (set : nat) : outcome (Z * t) :=
  sw ← wr (switch_array a) set 1; mret (1, set_switches a sw).

Definition getReplSet (a : t) (lineAddr : Z) : outcome Z :=
  h ← hash (hf_target a) 0 lineAddr; mret (Z.land h (setMask a)).

(** [rng->randInt(assoc - 1) & (assoc - 1)], on top of the set's first line. *)
Definition random_line (a : t) (set : Z) : outcome (nat * t) :=
  '(r, g) ← MTRand.randIntN (drawFuel a) (rng a) (u32 (assoc a - 1));
  mret (Z.to_nat (u32 (set * assoc a) +32 Z.land r (u32 (assoc a - 1))), set_rng a g).

Definition getReplAddr (a : t) (set : Z) : outcome (Z * t) :=
  '(candidate, a) ← random_line a set; x ← rd (array a) candidate; mret (x, a).

Definition getReplId (a : t) (set : Z) : outcome (Z * nat * t) :=
  '(candidate, a) ← random_line a set; x ← rd (array a) candidate; mret (x, candidate, a).

Definition preinsert (a : t) (_ : CCView) (lineAddr : Z) (_ : MemReq) : outcome (nat * Z * t) :=
  set ← set_of a lineAddr;
  '(candidate, a) ← random_line a set;
  wb ← rd (array a) candidate;
  mret (candidate, wb, a).

Definition postinsert (a : t) (lineAddr : Z) (_ : MemReq) (candidate : nat) : outcome t :=
  arr ← wr (array a) candidate lineAddr; mret (set_array a arr).

Definition switchHash (a : t) : t :=
  let '(mk arr c tg nl ns asc sm sw g f) := a in mk arr tg c nl ns asc sm sw g f.

Definition resetSwitches (a : t) : t :=
  set_switches a (map (fun _ => 0) (switch_array a)).

Definition moveAddr (a : t) (repl_addr : Z) (repl_id : nat) (lineAddr : Z) (lineId : nat) : outcome t :=
  x ← rd (array a) repl_id; _ ← check (x =? repl_addr);
  y ← rd (array a) lineId; _ ← check (y =? lineAddr);
  arr ← wr (array a) repl_id lineAddr;
  arr ← wr arr lineId 0;
  mret (set_array a arr).

#[global] Instance ceaser_array : CacheArray t :=
  { ca_lookup := lookup; ca_preinsert := preinsert; ca_postinsert := postinsert }.

End CEASER.

(** ** The remapping interface, used by the caches' refresh *)

(** [ra_getSwitch] reads [switch_array], an uninitialised pointer in the arrays
    that keep no switches (a fault). *)
Class RefreshArray (A : Type) := {
  ra_getAssoc : A -> Z;
  ra_getNumSets : A -> Z;
  ra_getAddr : A -> nat -> nat -> outcome Z;
  ra_getReplSet : A -> Z -> outcome Z;
  ra_getReplId : A -> Z -> outcome (Z * nat * A);
  ra_moveAddr : A -> Z -> nat -> Z -> nat -> outcome A;
  ra_switchHash : A -> A;
  ra_resetSwitches : A -> A;
  ra_getSwitch : A -> nat -> outcome Z;
  ra_setSwitch : A -> nat -> outcome (Z * A)
}.

#[global] Instance ceaser_refresh : RefreshArray CEASER.t := {
  ra_getAssoc := CEASER.assoc; ra_getNumSets := CEASER.numSets;
  ra_getAddr := CEASER.getAddr; ra_getReplSet := CEASER.getReplSet; ra_getReplId := CEASER.getReplId;
  ra_moveAddr := CEASER.moveAddr; ra_switchHash := CEASER.switchHash;
  ra_resetSwitches := CEASER.resetSwitches; ra_getSwitch := CEASER.getSwitch; ra_setSwitch := CEASER.setSwitch
}.

(** The defaults of the base class. *)
Definition base_refresh (A : Type) : RefreshArray A := {|
  ra_getAssoc := fun _ => 0; ra_getNumSets := fun _ => 0;
  ra_getAddr := fun _ _ _ => Ok 0; ra_getReplSet := fun _ _ => Ok 0;
  ra_getReplId := fun a _ => Ok (0, 0%nat, a);
  ra_moveAddr := fun a _ _ _ _ => Ok a; ra_switchHash := fun a => a;
  ra_resetSwitches := fun a => a; ra_getSwitch := fun _ _ => Fault OutOfRange;
  ra_setSwitch := fun a _ => Ok (1, a)
|}.

#[global] Instance setassoc_refresh R : RefreshArray (SetAssoc.t R) := base_refresh _.

(** ** ZCache *)

Module ZArr.

Record walk := mkWalk { pos : nat; lineId : nat; parentIdx : Z }.

Record t (R : Type) := mk {
  array : list Z;          (* line id -> address *)
  lookupArray : list nat;  (* physical position -> line id *)
  rp : R;
  hf : HashFamily;
  numLines : nat; numSets : nat; ways : nat; cands : nat; setMask : Z;
  swapArray : list nat; swapArrayLen : nat; lastCandIdx : nat; statSwaps : Z
}.
Arguments mk {R}. Arguments array {R}. Arguments lookupArray {R}. Arguments rp {R}.
Arguments hf {R}. Arguments numLines {R}. Arguments numSets {R}. Arguments ways {R}.
Arguments cands {R}. Arguments setMask {R}. Arguments swapArray {R}.
Arguments swapArrayLen {R}. Arguments lastCandIdx {R}. Arguments statSwaps {R}.

Definition make {R} (numLines ways cands : nat) (rp : R) (hf : HashFamily) : outcome (t R) :=
  _ ← check (bool_decide (1 < ways)%nat);
  _ ← check (bool_decide (ways <= cands)%nat);
  _ ← check (bool_decide (numLines `mod` ways = 0)%nat);
  let numSets := (numLines / ways)%nat in
  _ ← check (isPow2 (Z.of_nat numSets));
  mret (mk (replicate numLines 0) (seq 0 numLines) rp hf numLines numSets ways cands
           (u32 (Z.of_nat numSets - 1)) (replicate (cands / ways + 2) 0%nat) 0 0 0).

Section ops.
Context {R : Type} `{ReplPolicy R}.

(** [w*numSets + (hf->hash(w, addr) & setMask)]. *)
Definition position (a : t R) (w : nat) (addr : Z) : outcome nat :=
  h ← hash (hf a) w addr;
  mret (w * numSets a + Z.to_nat (Z.land h (setMask a)))%nat.

Definition set_rp (a : t R) (r : R) : t R :=
  mk (array a) (lookupArray a) r (hf a) (numLines a) (numSets a) (ways a) (cands a) (setMask a)
     (swapArray a) (swapArrayLen a) (lastCandIdx a) (statSwaps a).

Fixpoint lookup_from (a : t R) (lineAddr : Z) (w n : nat) : outcome (option nat) :=
  match n with
  | O => mret None
  | S n' =>
      p ← position a w lineAddr;
      id ← rd (lookupArray a) p;
      x ← rd (array a) id;
      if x =? lineAddr then mret (Some id) else lookup_from a lineAddr (S w) n'
  end.

Definition lookup (a : t R) (lineAddr : Z) (upd : option MemReq) : outcome (option nat * t R) :=
  if lineAddr =? 0 then Fault Panicked else
  o ← lookup_from a lineAddr 0 (ways a);
  match o, upd with
  | Some id, Some req => r ← rp_update (rp a) id req; mret (Some id, set_rp a r)
  | _, _ => mret (o, a)
  end.

(** The seed loop: one candidate per way, [all_valid] accumulated. *)
Fixpoint seeds (a : t R) (lineAddr : Z) (w n : nat) (cs : list walk) (all_valid : bool)
    : outcome (list walk * bool) :=
  match n with
  | O => mret (cs, all_valid)
  | S n' =>
      p ← position a w lineAddr;
      id ← rd (lookupArray a) p;
      x ← rd (array a) id;
      seeds a lineAddr (S w) n' (cs ++ [mkWalk p id (-1)]) (all_valid && negb (x =? 0))
  end.

(** One fringe expansion: a candidate per way, kept unless it is the fringe
    line itself ([numCandidates += (lineId != fringeId)]). *)
Fixpoint expand (a : t R) (fringeAddr : Z) (fringeId fringeStart : nat) (w n : nat)
    (cs : list walk) (all_valid : bool) : outcome (list walk * bool) :=
  match n with
  | O => mret (cs, all_valid)
  | S n' =>
      p ← position a w fringeAddr;
      id ← rd (lookupArray a) p;
      x ← rd (array a) id;
      expand a fringeAddr fringeId fringeStart (S w) n'
        (if bool_decide (id = fringeId) then cs else cs ++ [mkWalk p id (Z.of_nat fringeStart)])
        (all_valid && negb (x =? 0))
  end.

Fixpoint walk_loop (fuel : nat) (a : t R) (fringeStart : nat) (cs : list walk) (all_valid : bool)
    : outcome (list walk * bool) :=
  if bool_decide (length cs < cands a)%nat && all_valid then
    match fuel with
    | O => Fault OutOfFuel
    | S fuel' =>
        c ← rd cs fringeStart;
        fringeAddr ← rd (array a) (lineId c);
        _ ← check (negb (fringeAddr =? 0));
        '(cs, v) ← expand a fringeAddr (lineId c) fringeStart 0 (ways a) cs all_valid;
        walk_loop fuel' a (S fringeStart) cs v
    end
  else mret (cs, all_valid).

(** Least index whose candidate is [best]. *)
Fixpoint min_idx (cs : list walk) (best : nat) (i : nat) : option nat :=
  match cs with
  | [] => None
  | c :: cs => if bool_decide (best = lineId c) then Some i else min_idx cs best (S i)
  end.

(** The parent chain into the swap array. *)
Fixpoint fill_swaps (fuel : nat) (cs : list walk) (idx : Z) (sa : list nat) (swapIdx : nat)
    : outcome (list nat * nat) :=
  if 0 <=? idx then
    match fuel with
    | O => Fault OutOfFuel
    | S fuel' =>
        c ← rd cs (Z.to_nat idx);
        sa ← wr sa swapIdx (pos c);
        fill_swaps fuel' cs (parentIdx c) sa (S swapIdx)
    end
  else mret (sa, swapIdx).

Definition preinsert (a : t R) (v : CCView) (lineAddr : Z) (req : MemReq) : outcome (nat * Z * t R) :=
  '(cs, valid) ← seeds a lineAddr 0 (ways a) [] true;
  '(cs, valid) ← walk_loop (cands a) a 0 cs valid;
  _ ← check (negb valid || bool_decide (cands a <= length cs)%nat);
  let cs := take (cands a) cs in
  '(c, r) ← rp_rank (rp a) v req (map lineId cs);
  match c with
  | None => Fault AssertFailed
  | Some best =>
      _ ← check (bool_decide (best < numLines a)%nat);
      match min_idx cs best 0 with
      | None => Fault AssertFailed (* swapArrayLen > 0 fails *)
      | Some i =>
          '(sa, len) ← fill_swaps (S (length cs)) cs (Z.of_nat i) (swapArray a) 0;
          _ ← check (bool_decide (0 < len)%nat);
          wb ← rd (array a) best;
          mret (best, wb,
            mk (array a) (lookupArray a) r (hf a) (numLines a) (numSets a) (ways a) (cands a)
               (setMask a) sa len i (statSwaps a))
      end
  end.

(** The shift along the swap array: each position takes the line of the next. *)
Fixpoint do_swaps (sa : list nat) (i n : nat) (la : list nat) : outcome (list nat) :=
  match n with
  | O => mret la
  | S n' =>
      p ← rd sa i; q ← rd sa (S i);
      id ← rd la q;
      la ← wr la p id;
      do_swaps sa (S i) n' la
  end.

Definition postinsert (a : t R) (lineAddr : Z) (req : MemReq) (candidate : nat) : outcome (t R) :=
  p0 ← rd (swapArray a) 0;
  id0 ← rd (lookupArray a) p0;
  _ ← check (bool_decide (id0 = candidate));
  la ← do_swaps (swapArray a) 0 (swapArrayLen a - 1) (lookupArray a);
  plast ← rd (swapArray a) (swapArrayLen a - 1);
  la ← wr la plast candidate;
  r ← rp_replaced (rp a) candidate;
  arr ← wr (array a) candidate lineAddr;
  r ← rp_update r candidate req;
  mret (mk arr la r (hf a) (numLines a) (numSets a) (ways a) (cands a) (setMask a)
           (swapArray a) (swapArrayLen a) (lastCandIdx a)
           (statSwaps a +64 Z.of_nat (swapArrayLen a - 1))).

#[global] Instance z_array : CacheArray (t R) :=
  { ca_lookup := lookup; ca_preinsert := preinsert; ca_postinsert := postinsert }.
End ops.

End ZArr.

(** ** Searching a range of lines *)

Lemma find_line_ok array addr : forall n id, (id + n <= length array)%nat ->
  exists o, find_line array addr id n = Ok o /\
    match o with
    | Some i => (id <= i < id + n)%nat /\ array !! i = Some addr
    | None => forall i, (id <= i < id + n)%nat -> array !! i <> Some addr
    end.
Proof.
  induction n as [|n IH]; intros id Hn; cbn [find_line].
  - exists None. split; [done|]. intros i Hi. lia.
  - destruct (lookup_lt_is_Some_2 array id) as [x Hx]; [lia|]. rewrite (rd_some _ _ _ Hx).
    unfold mbind, outcome_bind. destruct (Z.eqb_spec x addr) as [->|Hne].
    + exists (Some id). split; [done|]. split; [lia|done].
    + destruct (IH (S id) ltac:(lia)) as (o & -> & Ho). exists o. split; [done|].
      destruct o as [i|]; [destruct Ho; split; [lia|done]|]. intros i Hi.
      destruct (decide (i = id)) as [->|]; [congruence|]. apply Ho. lia.
Qed.

(** ** The set-associative array meets the contract *)

Module SetAssocLaws.
Import SetAssoc.

Section laws.
Context {R : Type} `{RL : ReplPolicyLaws R}.

Definition slot (a : t R) (x : Z) (i : nat) : Prop :=
  exists low n, line_range a x = Ok (low, n) /\ (low <= i < low + n)%nat.

(** Every address has a non-empty range of [k] lines inside the array; a
    non-empty tag lies in its own range and at one line only. *)
Record wf_at (k : nat) (p : bool) (a : t R) : Prop := {
  wf_k : (0 < k)%nat;
  wf_range : forall x, word 64 x ->
    exists low, line_range a x = Ok (low, k) /\ (low + k <= length (array a))%nat;
  wf_tag : forall i x, array a !! i = Some x -> x <> 0 -> word 64 x /\ slot a x i;
  wf_uniq : forall i j x, x <> 0 -> array a !! i = Some x -> array a !! j = Some x -> i = j;
  wf_rp : rp_wf (length (array a)) k (rp a);
  wf_rdy : p = false -> rp_ready (rp a)
}.

Definition wf (p : bool) (a : t R) : Prop := exists k, wf_at k p a.

Lemma line_range_set (a : t R) arr r x : line_range (set_array a arr r) x = line_range a x.
Proof. by destruct a. Qed.

Lemma array_set (a : t R) arr r : array (set_array a arr r) = arr.
Proof. by destruct a. Qed.

Lemma rp_set (a : t R) arr r : rp (set_array a arr r) = r.
Proof. by destruct a. Qed.

Lemma set_same (a : t R) : set_array a (array a) (rp a) = a.
Proof. by destruct a. Qed.

Lemma lookup_hit p a x upd i : wf p a -> word 64 x -> x <> 0 -> array a !! i = Some x ->
  exists a', lookup a x upd = Ok (Some i, a') /\ wf p a' /\ array a' = array a /\ (upd = None -> a' = a).
Proof.
  intros [k [Hk Hr Ht Hu Hrp Hrdy]] Hx H0 Hi. unfold lookup.
  destruct (Ht i x Hi H0) as (_ & low & n & E & Hlow).
  destruct (Hr x Hx) as (low' & E' & Hlen). rewrite E' in E. injection E as -> ->. rewrite E'.
  unfold mbind, outcome_bind. destruct (find_line_ok (array a) x n low Hlen) as (o & -> & Ho).
  destruct o as [j|]; [|by destruct (Ho i Hlow)].
  destruct Ho as [_ Hj]. rewrite (Hu j i x H0 Hj Hi).
  destruct upd as [req|]; [|exists a; split; [done|split; [by exists n|done]]].
  assert (i < length (array a))%nat as Hil by (apply lookup_lt_is_Some_1; eauto).
  destruct (rp_update_ok _ _ _ i req Hrp Hil) as (r & -> & Hw & Hrd). eexists. split; [done|].
  split; [|split; [by rewrite array_set|done]].
  exists n. constructor; rewrite ?array_set, ?rp_set; try done.
  - intros y Hy. rewrite line_range_set. by apply Hr.
  - intros j' y Hj' Hy. unfold slot. rewrite line_range_set. by apply Ht.
  - intros Hp. by apply Hrd, Hrdy.
Qed.

Lemma lookup_miss p a x upd : wf p a -> word 64 x -> (forall i, array a !! i <> Some x) ->
  lookup a x upd = Ok (None, a).
Proof.
  intros [k [Hk Hr Ht Hu Hrp Hrdy]] Hx Hno. unfold lookup.
  destruct (Hr x Hx) as (low & -> & Hlen). unfold mbind, outcome_bind.
  destruct (find_line_ok (array a) x k low Hlen) as (o & -> & Ho).
  destruct o as [j|]; [by destruct (Hno j), Ho|]. by destruct upd.
Qed.

Lemma preinsert_ok a v x req : wf false a -> word 64 x ->
  exists i wb a', preinsert a v x req = Ok (i, wb, a') /\ wf true a' /\ array a' = array a /\
    array a !! i = Some wb /\ slot a' x i.
Proof.
  intros [k [Hk Hr Ht Hu Hrp Hrdy]] Hx. unfold preinsert.
  destruct (Hr x Hx) as (low & E & Hlen). rewrite E. unfold mbind, outcome_bind.
  destruct (rp_rank_ok (length (array a)) k (rp a) v req (seq low k)) as (c & r & -> & Hin & Hw);
    [done|by apply Hrdy|done|apply length_seq|apply Forall_seq; lia|].
  apply elem_of_seq in Hin. destruct (lookup_lt_is_Some_2 (array a) c) as [wb Hwb]; [lia|].
  rewrite (rd_some _ _ _ Hwb). eexists c, wb, _. split; [done|].
  split; [|split; [by rewrite array_set|split; [done|]]].
  - exists k. constructor; rewrite ?array_set, ?rp_set; try done.
    + intros y Hy. rewrite line_range_set. by apply Hr.
    + intros j' y Hj' Hy. unfold slot. rewrite line_range_set. by apply Ht.
  - exists low, k. rewrite line_range_set. split; [done|lia].
Qed.

Lemma postinsert_ok a x req i : wf true a -> word 64 x -> slot a x i ->
  (x <> 0 -> forall j, array a !! j <> Some x) ->
  exists a', postinsert a x req i = Ok a' /\ wf false a' /\ array a' = <[i := x]> (array a) /\
    (i < length (array a))%nat.
Proof.
  intros [k [Hk Hr Ht Hu Hrp Hrdy]] Hx (low & n & E & Hi) Hno. unfold postinsert.
  destruct (Hr x Hx) as (low' & E' & Hlen). rewrite E' in E. injection E as -> ->.
  assert (i < length (array a))%nat as Hil by lia.
  destruct (rp_replaced_ok _ _ _ i Hrp Hil) as (r & -> & Hw & Hrd). unfold mbind, outcome_bind.
  rewrite wr_lt by done.
  destruct (rp_update_ok _ _ _ i req Hw Hil) as (r' & -> & Hw' & Hrd'). eexists. split; [done|].
  rewrite array_set. split; [|done].
  exists n. constructor; rewrite ?array_set, ?rp_set, ?length_insert; try done.
  - intros y Hy. rewrite line_range_set. by apply Hr.
  - intros j y Hj Hy. unfold slot. rewrite line_range_set.
    destruct (decide (i = j)) as [<-|Hij].
    + rewrite list_lookup_insert_eq in Hj by done. injection Hj as <-.
      split; [done|]. exists low, n. done.
    + rewrite list_lookup_insert_ne in Hj by done. by apply Ht.
  - intros j1 j2 y Hy H1 H2.
    destruct (decide (i = j1)) as [<-|N1], (decide (i = j2)) as [<-|N2]; [done|..];
      rewrite ?list_lookup_insert_eq, ?list_lookup_insert_ne in H1 by done;
      rewrite ?list_lookup_insert_eq, ?list_lookup_insert_ne in H2 by done; simplify_eq.
    + by destruct (Hno Hy j2).
    + by destruct (Hno Hy j1).
    + by eapply Hu.
  - intros _. by apply Hrd'.
Qed.

#[global, refine] Instance setassoc_laws : CacheArrayLaws (t R) :=
  { ca_wf := wf; ca_lines a := length (array a); ca_tag a i := array a !! i; ca_slot := slot }.
Proof.
  - intros p a i _. apply lookup_lt_is_Some.
  - intros p a i j x [k [_ _ _ Hu _ _]] H0 Hi Hj. by eapply Hu.
  - intros p a x upd i Hw Hx H0 Hi. cbn.
    destruct (lookup_hit p a x upd i Hw Hx H0 Hi) as (a' & E & Hw' & Ha & Hn). exists a'. by rewrite Ha.
  - intros p a x upd Hw Hx _ Hno. by apply (lookup_miss p).
  - intros a v x req Hw Hx _. cbn.
    destruct (preinsert_ok a v x req Hw Hx) as (i & wb & a' & E & Hw' & Ha & Hwb & Hs).
    exists i, wb, a'. by rewrite Ha.
  - intros a x req i Hw Hx Hs Hno. cbn.
    destruct (postinsert_ok a x req i Hw Hx Hs Hno) as (a' & E & Hw' & Ha & Hi).
    exists a'. rewrite Ha, length_insert. repeat split; try done.
    + by apply list_lookup_insert_eq.
    + intros j Hj. by apply list_lookup_insert_ne.
Defined.
End laws.

End SetAssocLaws.

(** ** Geometry: what the constructor establishes, and partition isolation *)

Section geometry.
Import SetAssoc SetAssocLaws.

(** A hash that answers every 64-bit address with a non-negative value. *)
Definition hash_total (h : HashFamily) : Prop :=
  forall x, word 64 x -> exists y, hash h 0 x = Ok y /\ 0 <= y.

Lemma land_le_r x y : 0 <= x -> 0 <= y -> 0 <= Z.land x y <= y.
Proof.
  intros Hx Hy. split; [apply Z.land_nonneg; by left|].
  apply Z.ldiff_le; [done|]. apply Z.bits_inj'. intros i Hi.
  rewrite Z.ldiff_spec, Z.land_spec, Z.bits_0. by destruct (Z.testbit x i), (Z.testbit y i).
Qed.

Lemma land_le_l x y : 0 <= x -> 0 <= y -> 0 <= Z.land x y <= x.
Proof. intros Hx Hy. rewrite Z.land_comm. by apply land_le_r. Qed.

(** The parameters a constructor call fixes. *)
Record geo {R} (a : t R) (numCores : Z) : Prop := {
  g_cores : 0 < numCores < max32;
  g_assoc : 0 < assoc a;
  g_sets : 0 < numSets a;
  g_lines : numLines a = numSets a * assoc a;
  g_max : numLines a < max32;
  g_len : length (array a) = Z.to_nat (numLines a);
  g_mask : setMask a = numSets a - 1;
  g_pp : 0 <= proc_partition a < numCores;
  g_psc : partitionSetCount a = numSets a / numCores;
  g_pmask : 0 < partitionSetCount a -> partitionMask a = partitionSetCount a - 1;
  g_pa : partitionAssoc a = if assoc a / numCores =? 0 then 1 else assoc a / numCores;
  g_setpart : isLLC a = true -> setPartition a = true -> 0 < numSets a / numCores;
  g_hash : hash_total (hf a)
}.

(** Set-partition mode: process [p] owns sets [\[p*n/cores, (p+1)*n/cores)]. *)
Lemma set_partition_range {R} (a : t R) numCores x :
  geo a numCores -> isLLC a = true -> setPartition a = true -> word 64 x ->
  exists set, line_range a x = Ok (Z.to_nat (set * assoc a), Z.to_nat (assoc a)) /\
    partitionSetCount a * proc_partition a <= set < partitionSetCount a * (proc_partition a + 1) /\
    0 <= set < numSets a.
Proof.
  intros [] Hllc Hsp Hx. specialize (g_setpart0 Hllc Hsp). unfold line_range.
  destruct (g_hash0 x Hx) as (h & -> & Hh). unfold mbind, outcome_bind. rewrite Hllc, Hsp. cbn [andb].
  assert (0 < partitionSetCount a) as Hpsc by lia. rewrite (g_pmask0 Hpsc).
  pose proof (land_le_r h (partitionSetCount a - 1) Hh ltac:(lia)) as Hb.
  assert (partitionSetCount a * numCores <= numSets a) as Hmul by (rewrite g_psc0, Z.mul_comm; apply Z.mul_div_le; lia).
  rewrite max32_eq in *.
  assert (0 <= partitionSetCount a * proc_partition a) by nia.
  assert (partitionSetCount a * (proc_partition a + 1) <= numSets a) by nia.
  assert (numSets a <= numLines a) by nia.
  rewrite (u32_small (partitionSetCount a * proc_partition a)) by (rewrite max32_eq; nia).
  set (s := Z.land h (partitionSetCount a - 1)) in *.
  rewrite (u32_small (s + _)) by (rewrite max32_eq; nia).
  exists (s + partitionSetCount a * proc_partition a).
  rewrite u32_small by (rewrite max32_eq; nia). split; [done|]. nia.
Qed.

(** Way-partition mode: within the address's set, process [p] owns the
    [partitionAssoc] ways from [p*partitionAssoc], folded by [assoc - 1]. *)
Lemma way_partition_range {R} (a : t R) numCores x :
  geo a numCores -> isLLC a = true -> setPartition a = false -> wayPartition a = true -> word 64 x ->
  exists set, let w := Z.land (proc_partition a * partitionAssoc a) (assoc a - 1) in
    line_range a x = Ok (Z.to_nat (set * assoc a + w), Z.to_nat (partitionAssoc a)) /\
    0 <= set < numSets a /\ 0 <= w /\ w + partitionAssoc a <= assoc a.
Proof.
  intros [] Hllc Hsp Hwp Hx. unfold line_range.
  destruct (g_hash0 x Hx) as (h & -> & Hh). unfold mbind, outcome_bind. rewrite Hllc, Hsp, Hwp. cbn [andb].
  rewrite g_mask0. pose proof (land_le_r h (numSets a - 1) Hh ltac:(lia)) as Hb.
  set (s := Z.land h (numSets a - 1)) in *.
  assert (0 < partitionAssoc a /\ 0 <= proc_partition a * partitionAssoc a < max32 /\
          Z.land (proc_partition a * partitionAssoc a) (assoc a - 1) + partitionAssoc a <= assoc a) as (Hpa & Hpp & Hw).
  { rewrite max32_eq in *. rewrite g_pa0. destruct (Z.eqb_spec (assoc a / numCores) 0) as [E|E].
    - rewrite Z.mul_1_r. pose proof (land_le_r (proc_partition a) (assoc a - 1) ltac:(lia) ltac:(lia)). lia.
    - assert (0 <= assoc a / numCores) by (apply Z.div_pos; lia).
      assert (assoc a / numCores * numCores <= assoc a) by (rewrite Z.mul_comm; apply Z.mul_div_le; lia).
      assert (assoc a <= numLines a) by nia.
      pose proof (land_le_l (proc_partition a * (assoc a / numCores)) (assoc a - 1) ltac:(nia) ltac:(lia)). nia. }
  rewrite (u32_small (proc_partition a * _)) by done.
  pose proof (land_le_r (proc_partition a * partitionAssoc a) (assoc a - 1) ltac:(lia) ltac:(lia)).
  set (w := Z.land (proc_partition a * _) _) in *.
  rewrite max32_eq in *.
  rewrite (u32_small (s * assoc a)) by (rewrite max32_eq; nia).
  exists s. rewrite u32_small by (rewrite max32_eq; nia). split; [done|]. lia.
Qed.

Lemma plain_range {R} (a : t R) numCores x :
  geo a numCores -> isLLC a && setPartition a = false -> isLLC a && wayPartition a = false -> word 64 x ->
  exists set, line_range a x = Ok (Z.to_nat (set * assoc a), Z.to_nat (assoc a)) /\ 0 <= set < numSets a.
Proof.
  intros [] Hsp Hwp Hx. unfold line_range.
  destruct (g_hash0 x Hx) as (h & -> & Hh). unfold mbind, outcome_bind. rewrite Hsp, Hwp.
  rewrite g_mask0. pose proof (land_le_r h (numSets a - 1) Hh ltac:(lia)) as Hb.
  exists (Z.land h (numSets a - 1)). rewrite max32_eq in *.
  rewrite u32_small by (rewrite max32_eq; nia). split; [done|lia].
Qed.

(** In every mode, an address's range is a fixed non-zero number of lines
    inside the array. *)
Lemma geo_range {R} (a : t R) numCores : geo a numCores ->
  exists k, (0 < k)%nat /\ forall x, word 64 x ->
    exists low, line_range a x = Ok (low, k) /\ (low + k <= length (array a))%nat.
Proof.
  intros Hg. destruct (isLLC a && setPartition a) eqn:Esp; [|destruct (isLLC a && wayPartition a) eqn:Ewp].
  - apply andb_true_iff in Esp as [El Es]. exists (Z.to_nat (assoc a)).
    split; [destruct Hg; lia|]. intros x Hx.
    destruct (set_partition_range a numCores x Hg El Es Hx) as (s & -> & _ & Hs).
    eexists. split; [done|]. destruct Hg. rewrite g_len0, g_lines0. nia.
  - apply andb_true_iff in Ewp as [El Ew]. rewrite El in Esp. cbn in Esp.
    exists (Z.to_nat (partitionAssoc a)). split.
    { destruct Hg. rewrite g_pa0. destruct (Z.eqb_spec (assoc a / numCores) 0); [lia|].
      assert (0 <= assoc a / numCores) by (apply Z.div_pos; lia). lia. }
    intros x Hx. destruct (way_partition_range a numCores x Hg El Esp Ew Hx) as (s & -> & Hs & Hw0 & Hw).
    eexists. split; [done|]. destruct Hg. rewrite g_len0, g_lines0.
    assert (0 <= partitionAssoc a).
    { rewrite g_pa0. destruct (Z.eqb_spec (assoc a / numCores) 0); [lia|]. apply Z.div_pos; lia. }
    nia.
  - exists (Z.to_nat (assoc a)). split; [destruct Hg; lia|]. intros x Hx.
    destruct (plain_range a numCores x Hg Esp Ewp Hx) as (s & -> & Hs).
    eexists. split; [done|]. destruct Hg. rewrite g_len0, g_lines0. nia.
Qed.

(** An array with the constructor's geometry and zero tags is well-formed. *)
Lemma empty_wf {R} `{RL : ReplPolicyLaws R} (a : t R) numCores :
  geo a numCores -> (forall i x, array a !! i = Some x -> x = 0) ->
  (forall k, rp_wf (length (array a)) k (rp a)) -> rp_ready (rp a) -> wf false a.
Proof.
  intros Hg H0 Hrp Hrdy. destruct (geo_range a numCores Hg) as (k & Hk & Hr).
  exists k. constructor; try done.
  - intros i x Hi Hx. by rewrite (H0 i x Hi) in Hx.
  - intros i j x Hx Hi _. by rewrite (H0 i x Hi) in Hx.
Qed.

End geometry.

(** ** Properties *)

Module ArrayProps.
Import SetAssoc SetAssocLaws.

Lemma isPow2_pos v : 0 <= v -> isPow2 v = true -> 0 < v.
Proof. unfold isPow2. intros Hv [H _]%andb_true_iff. destruct (Z.eqb_spec v 0); [done|lia]. Qed.

(** The constructor gives the geometry the range lemmas need. *)
Lemma make_geo {R} nl asc (rp0 : R) h cores llc sp wp pp a :
  make nl asc rp0 h cores llc sp wp pp = Ok a ->
  0 <= nl < max32 -> 0 < asc -> nl = nl / asc * asc -> 0 < cores < max32 -> 0 <= pp < cores ->
  (llc = true -> sp = true -> cores <= nl / asc) -> hash_total h ->
  geo a cores /\ (forall i x, array a !! i = Some x -> x = 0) /\ rp a = rp0 /\
  length (array a) = Z.to_nat nl.
Proof.
  intros Hm Hnl Hasc Hdiv Hc Hpp Hsp Hh. unfold make in Hm.
  destruct (isPow2 (nl / asc)) eqn:E; [|done]. cbn [check] in Hm.
  unfold mbind, outcome_bind, mret, outcome_ret in Hm. injection Hm as <-.
  assert (0 <= nl / asc) by (apply Z.div_pos; lia). pose proof (isPow2_pos _ ltac:(done) E) as Hpos.
  assert (nl / asc <= nl) by nia. rewrite max32_eq in *.
  assert (0 <= nl / asc / cores <= nl / asc).
  { split; [apply Z.div_pos; lia|]. apply Z.div_le_upper_bound; nia. }
  split; [|split; [|split; [done|cbn; by rewrite length_replicate]]].
  - constructor; cbn; try rewrite max32_eq; try done; try lia.
    + by rewrite length_replicate.
    + by rewrite u32_small by (rewrite max32_eq; lia).
    + intros ?. by rewrite u32_small by (rewrite max32_eq; lia).
    + intros Hl Hs. apply Z.div_str_pos. specialize (Hsp Hl Hs). lia.
  - cbn. intros i x Hx. by apply lookup_replicate in Hx as [-> _].
Qed.

(** C9: a replacement in a set-associative array (the victim chosen by any
    policy that meets the policy contract) returns, writes the new address in
    its own set's line, makes it found there, drops the victim, and changes no
    other lookup; the array invariant holds again. *)
Theorem setassoc_replace {R} `{RL : ReplPolicyLaws R} (a : t R) (v : CCView) (x : Z) (req : MemReq) :
  wf false a -> word 64 x -> x <> 0 -> (forall i, array a !! i <> Some x) ->
  exists i wb a1 a2,
    preinsert a v x req = Ok (i, wb, a1) /\ array a !! i = Some wb /\
    postinsert a1 x req i = Ok a2 /\ wf false a2 /\
    lookup a2 x None = Ok (Some i, a2) /\
    (wb <> 0 -> lookup a2 wb None = Ok (None, a2)) /\
    (forall y j, word 64 y -> y <> 0 -> y <> x -> y <> wb ->
       lookup a2 y None = Ok (j, a2) <-> lookup a y None = Ok (j, a)).
Proof.
  intros Hw Hx H0 Hno.
  destruct (preinsert_ok a v x req Hw Hx) as (i & wb & a1 & E1 & Hw1 & Ha1 & Hwb & Hs).
  destruct (postinsert_ok a1 x req i Hw1 Hx Hs) as (a2 & E2 & Hw2 & Ha2 & Hi); [by rewrite Ha1|].
  rewrite Ha1 in Ha2, Hi. exists i, wb, a1, a2. repeat (split; [done|]).
  assert (forall y, word 64 y -> y <> 0 -> forall p b, wf p b ->
    (exists j, array b !! j = Some y /\ lookup b y None = Ok (Some j, b)) \/
    ((forall j, array b !! j <> Some y) /\ lookup b y None = Ok (None, b))) as Hlk.
  { intros y Hy Hy0 p b Hb. destruct (decide (y ∈ array b)) as [[j Hj]%list_elem_of_lookup|Hn].
    - left. exists j. split; [done|]. destruct (lookup_hit p b y None j Hb Hy Hy0 Hj) as (b' & E & _ & _ & Hbb).
      by rewrite E, Hbb.
    - right. assert (forall j, array b !! j <> Some y) as Hn'.
      { intros j Hj. apply Hn, list_elem_of_lookup. eauto. }
      split; [done|]. by apply (lookup_miss p). }
  split; [|split].
  - destruct (lookup_hit false a2 x None i Hw2 Hx H0) as (b & -> & _ & _ & Hb).
    { rewrite Ha2. by apply list_lookup_insert_eq. } by rewrite Hb.
  - intros Hwb0. assert (wb <> x) as Hne by (intros ->; by apply (Hno i)).
    assert (word 64 wb) as Hwbw. { destruct Hw as [k [_ _ Ht _ _ _]]. by destruct (Ht i wb Hwb Hwb0). }
    apply (lookup_miss false); [done..|]. intros j. rewrite Ha2.
    destruct (decide (i = j)) as [<-|Hij]; [rewrite list_lookup_insert_eq by done; congruence|].
    rewrite list_lookup_insert_ne by done. intros Hj. apply Hij.
    destruct Hw as [k [_ _ _ Hu _ _]]. by eapply Hu.
  - intros y j Hy Hy0 Hyx Hywb.
    assert (forall m, array a2 !! m = Some y <-> array a !! m = Some y) as Hsame.
    { intros m. rewrite Ha2. destruct (decide (i = m)) as [<-|Him].
      - rewrite list_lookup_insert_eq by done. rewrite Hwb. split; congruence.
      - by rewrite list_lookup_insert_ne. }
    destruct (Hlk y Hy Hy0 false a Hw) as [(m & Hm & ->)|[Hm ->]],
      (Hlk y Hy Hy0 false a2 Hw2) as [(m' & Hm' & ->)|[Hm' ->]].
    + apply Hsame in Hm'. destruct Hw as [k [_ _ _ Hu _ _]].
      rewrite (Hu m' m y Hy0 Hm' Hm). split; by intros [= <-].
    + by destruct (Hm' m); apply Hsame.
    + by destruct (Hm m'); apply Hsame.
    + split; by intros [= <-].
Qed.

(** A 16-line, 4-way LRU array with two sets' worth of contents to run on. *)
Definition demo_array : t LRU.t :=
  mk (replicate 16 0) (LRU.init true 16) IdHash 16 4 4 3 false 4 3 4 false false 0.

Lemma id_hash_total : hash_total IdHash.
Proof. intros x [Hx _]. exists x. done. Qed.

Lemma demo_array_make : make 16 4 (LRU.init true 16) IdHash 1 false false false 0 = Ok demo_array.
Proof. reflexivity. Qed.

Lemma demo_array_wf : wf false demo_array.
Proof.
  assert (max32 = 4294967296) as Em by apply max32_eq.
  destruct (make_geo _ _ _ _ _ _ _ _ _ _ demo_array_make) as (Hg & Hz & _ & _); try (rewrite ?Em; lia).
  - reflexivity.
  - apply id_hash_total.
  - by apply (empty_wf demo_array 1).
Qed.

Lemma setassoc_replace_witness :
  exists i wb a1 a2,
    preinsert demo_array ReplProps.view0 21 ReplProps.req0 = Ok (i, wb, a1) /\ array demo_array !! i = Some wb /\
    postinsert a1 21 ReplProps.req0 i = Ok a2 /\ wf false a2 /\
    lookup a2 21 None = Ok (Some i, a2) /\
    (wb <> 0 -> lookup a2 wb None = Ok (None, a2)) /\
    (forall y j, word 64 y -> y <> 0 -> y <> 21 -> y <> wb ->
       lookup a2 y None = Ok (j, a2) <-> lookup demo_array y None = Ok (j, demo_array)).
Proof.
  apply (setassoc_replace demo_array ReplProps.view0 21 ReplProps.req0);
    [apply demo_array_wf|by split; vm_compute|lia|].
  intros i Hi. apply lookup_replicate in Hi as [? _]. lia.
Defined.





End ArrayProps.
