(* ===== verification/PrioQueue.v ===== *)
(** * The contention simulator's priority queue (src/src/prio_queue.h)

    A ring of [B] blocks of 64 one-cycle slots for the near future, each slot a
    linked list, with a 64-bit occupancy word per block, and a multimap for
    elements more than [B] blocks ahead.  Abstraction: the multiset of
    (cycle, element) pairs in the queue; [enqueue] inserts, [dequeue] removes an
    element of least cycle, [firstCycle] is that cycle, [size] the cardinality. *)

From Stdlib Require Import Sorted.
From S2P Require Import Prelude.
Local Open Scope Z_scope.

(** [__builtin_ctzl] on a non-zero word: the position of the lowest set bit. *)
Fixpoint ctz_from (x : Z) (i : Z) (n : nat) : Z :=
  match n with
  | O => i
  | S n' => if Z.testbit x i then i else ctz_from x (i + 1) n'
  end.

Definition ctz (x : Z) : Z := ctz_from x 0 64.

Module PQ.

Section pq.
Context {T : Type} (B : nat).

(** A slot's list is the chain of [next] pointers from [array\[pos\]]. *)
Record PQBlock := mkBlock { array : list (list T); occ : Z }.

Definition empty_block : PQBlock := mkBlock (replicate 64 []) 0.

Definition block_dequeue (b : PQBlock) : outcome (T * Z * PQBlock) :=
  _ ← check (negb (occ b =? 0));
  let pos := ctz (occ b) in
  l ← rd (array b) (Z.to_nat pos);
  match l with
  | [] => Fault OutOfRange (* null dereference *)
  | res :: next =>
      arr ← wr (array b) (Z.to_nat pos) next;
      mret (res, pos, mkBlock arr (if next is [] then Z.lxor (occ b) (Z.shiftl 1 pos) else occ b))
  end.

Definition block_enqueue (b : PQBlock) (obj : T) (pos : Z) : outcome PQBlock :=
  l ← rd (array b) (Z.to_nat pos);
  arr ← wr (array b) (Z.to_nat pos) (obj :: l);
  mret (mkBlock arr (Z.lor (occ b) (Z.shiftl 1 pos))).

(** [feMap]: in key order, a new element after those of equal key. *)
Record t := mk { blocks : list PQBlock; feMap : list (Z * T); curBlock : Z; elems : Z }.

Definition init : t := mk (replicate B empty_block) [] 0 0.

Fixpoint fe_insert (m : list (Z * T)) (k : Z) (v : T) : list (Z * T) :=
  match m with
  | [] => [(k, v)]
  | (k', v') :: m' => if k <? k' then (k, v) :: m else (k', v') :: fe_insert m' k v
  end.

Definition ring_index (block : Z) : nat := Z.to_nat (block `mod` Z.of_nat B).

(** Put [obj] in the ring slot of [cycle]. *)
Definition ring_insert (bs : list PQBlock) (obj : T) (cycle : Z) : outcome (list PQBlock) :=
  let i := ring_index (cycle / 64) in
  b ← rd bs i;
  b ← block_enqueue b obj (cycle `mod` 64);
  wr bs i b.

Definition enqueue (q : t) (obj : T) (cycle : Z) : outcome t :=
  let absBlock := cycle / 64 in
  _ ← check (curBlock q <=? absBlock);
  if absBlock <? curBlock q +64 Z.of_nat B then
    bs ← ring_insert (blocks q) obj cycle;
    mret (mk bs (feMap q) (curBlock q) (elems q +64 1))
  else mret (mk (blocks q) (fe_insert (feMap q) cycle obj) (curBlock q) (elems q +64 1)).

(** Move every far element with cycle below [topCycle] into the ring. *)
Fixpoint refill (bs : list PQBlock) (m : list (Z * T)) (cur topCycle : Z)
    : outcome (list PQBlock * list (Z * T)) :=
  match m with
  | [] => mret (bs, [])
  | (cycle, obj) :: m' =>
      if cycle <? topCycle then
        let absBlock := cycle / 64 in
        _ ← check (cur <=? absBlock);
        _ ← check (absBlock <? cur +64 Z.of_nat B);
        bs ← ring_insert bs obj cycle;
        refill bs m' cur topCycle
      else mret (bs, m)
  end.

(** The search loop of [dequeue]; unbounded in the source, fuelled here. *)
Fixpoint advance (fuel : nat) (q : t) : outcome t :=
  b ← rd (blocks q) (ring_index (curBlock q));
  if negb (occ b =? 0) then mret q
  else match fuel with
  | O => Fault OutOfFuel
  | S fuel' =>
      let cur := curBlock q +64 1 in
      if (cur `mod` (Z.of_nat B / 2) =? 0) && negb (bool_decide (length (feMap q) = 0%nat)) then
        '(bs, m) ← refill (blocks q) (feMap q) cur (u64 ((cur +64 Z.of_nat B) * 64));
        advance fuel' (mk bs m cur (elems q))
      else advance fuel' (mk (blocks q) (feMap q) cur (elems q))
  end.

Definition dequeue (fuel : nat) (q : t) : outcome (T * Z * t) :=
  _ ← check (negb (elems q =? 0));
  q ← advance fuel q;
  let i := ring_index (curBlock q) in
  b ← rd (blocks q) i;
  '(obj, offset, b) ← block_dequeue b;
  bs ← wr (blocks q) i b;
  mret (obj, u64 (curBlock q * 64) +64 offset, mk bs (feMap q) (curBlock q) (elems q -64 1)).

Definition size (q : t) : Z := elems q.

Definition fe_first (q : t) : outcome Z :=
  match feMap q with [] => Fault OutOfRange | (k, _) :: _ => Ok k end.

(** Scan blocks [curBlock + i ..], [n] of them; past [B/2] a far element may be
    earlier than the block found. *)
Fixpoint first_from (q : t) (i n : nat) : outcome Z :=
  match n with
  | O => fe_first q
  | S n' =>
      b ← rd (blocks q) (ring_index (curBlock q +64 Z.of_nat i));
      if occ b =? 0 then first_from q (S i) n'
      else
        let cycle := u64 ((curBlock q +64 Z.of_nat i) * 64) +64 ctz (occ b) in
        if bool_decide (i < B / 2)%nat then mret cycle
        else match feMap q with [] => mret cycle | (k, _) :: _ => mret (Z.min cycle k) end
  end.

Definition firstCycle (q : t) : outcome Z :=
  _ ← check (negb (elems q =? 0));
  first_from q 0 B.

End pq.
Arguments PQBlock : clear implicits.
Arguments t : clear implicits.

End PQ.

(** ** Auxiliary facts *)

Lemma ctz_from_spec x n : forall i, 0 <= i ->
  (exists j, i <= j < i + Z.of_nat n /\ Z.testbit x j = true) ->
  let c := ctz_from x i n in
  i <= c < i + Z.of_nat n /\ Z.testbit x c = true /\ forall j, i <= j < c -> Z.testbit x j = false.
Proof.
  induction n as [|n IH]; intros i Hi (j & Hj & Hb); cbn [ctz_from]; [lia|].
  destruct (Z.testbit x i) eqn:E; [split; [lia|split; [done|lia]]|].
  destruct (IH (i + 1) ltac:(lia)) as (H1 & H2 & H3).
  { exists j. split; [|done]. destruct (decide (i = j)) as [->|]; [congruence|lia]. }
  split; [lia|]. split; [done|]. intros k Hk.
  destruct (decide (k = i)) as [->|]; [done|]. apply H3. lia.
Qed.

Lemma ctz_spec x : word 64 x -> x <> 0 ->
  0 <= ctz x < 64 /\ Z.testbit x (ctz x) = true /\ forall j, 0 <= j < ctz x -> Z.testbit x j = false.
Proof.
  intros Hw H0. apply (ctz_from_spec x 64 0); [lia|].
  apply word_testbit in Hw as [Hpos Hhigh]; [|lia].
  exists (Z.log2 x). pose proof (Z.log2_nonneg x). pose proof (Z.bit_log2 x ltac:(lia)) as Hb.
  split; [|done]. destruct (Z_lt_le_dec (Z.log2 x) 64); [lia|]. by rewrite Hhigh in Hb.
Qed.

Lemma concat_imap_update {A X} (l : list A) : forall (f : nat -> A -> list X) i a a' x,
  l !! i = Some a -> f i a' ≡ₚ x :: f i a ->
  concat (imap f (<[i := a']> l)) ≡ₚ x :: concat (imap f l).
Proof.
  induction l as [|b l IH]; intros f [|i] a a' x Hi Hp; [done|done|..].
  - injection Hi as ->. change (<[0%nat:=a']> (a :: l)) with (a' :: l).
    cbn [imap concat]. by rewrite Hp.
  - change (<[S i:=a']> (b :: l)) with (b :: <[i:=a']> l). cbn [imap concat].
    rewrite (IH (f ∘ S) i a a' x Hi Hp). by rewrite Permutation_middle.
Qed.

Lemma elem_of_concat_imap {A X} (f : nat -> A -> list X) (l : list A) (x : X) :
  x ∈ concat (imap f l) <-> exists i a, l !! i = Some a /\ x ∈ f i a.
Proof.
  rewrite list_elem_of_In, in_concat. split.
  - intros (y & Hy%list_elem_of_In & Hx%list_elem_of_In).
    apply elem_of_lookup_imap_1 in Hy as (i & a & -> & Ha). eauto.
  - intros (i & a & Ha & Hx). exists (f i a). split; apply list_elem_of_In; [|done].
    apply elem_of_lookup_imap. eauto.
Qed.

(** ** Contents and invariant *)

Module PQSpec.
Import PQ.

Section pq.
Context {T : Type} (h : nat) (Hh : (0 < h)%nat).

(** [B] is even in the source ([PQ_BLOCKS] is 1024); [h] is [B/2]. *)
Let B : nat := (2 * h)%nat.

Definition block_contents (base : Z) (b : PQBlock T) : list (Z * T) :=
  concat (imap (fun pos l => map (pair (base + Z.of_nat pos)) l) (array b)).

(** Absolute number of the block at ring index [i], in [\[cur, cur + B)]. *)
Definition abs_block (cur : Z) (i : nat) : Z := cur + (Z.of_nat i - cur) `mod` Z.of_nat B.

Definition ring_contents (cur : Z) (bs : list (PQBlock T)) : list (Z * T) :=
  concat (imap (fun i b => block_contents (abs_block cur i * 64) b) bs).

Definition contents (q : t T) : list (Z * T) := ring_contents (curBlock q) (blocks q) ++ feMap q.

Definition block_ok (b : PQBlock T) : Prop :=
  length (array b) = 64%nat /\ word 64 (occ b) /\
  forall pos l, array b !! pos = Some l -> Z.testbit (occ b) (Z.of_nat pos) = negb (bool_decide (length l = 0%nat)).

Definition far_base (cur : Z) : Z := (cur / Z.of_nat h * Z.of_nat h + Z.of_nat B) * 64.

Definition maxCycle : Z := 2 ^ 62.

Record wf (q : t T) : Prop := {
  wf_len : length (blocks q) = B;
  wf_blocks : Forall block_ok (blocks q);
  wf_cur : 0 <= curBlock q /\ curBlock q * 64 < maxCycle;
  wf_B : Z.of_nat B * 64 < maxCycle;
  wf_sorted : StronglySorted (fun a b => a.1 <= b.1) (feMap q);
  wf_far : forall k v, (k, v) ∈ feMap q -> far_base (curBlock q) <= k;
  wf_elems : elems q = Z.of_nat (length (contents q)) /\ elems q < max64;
  wf_max : forall k v, (k, v) ∈ contents q -> k < maxCycle
}.

Lemma elem_of_block base b k v :
  (k, v) ∈ block_contents base b <->
  exists pos l, array b !! pos = Some l /\ k = base + Z.of_nat pos /\ v ∈ l.
Proof.
  unfold block_contents. rewrite elem_of_concat_imap. split.
  - intros (pos & l & Hl & Hin). apply list_elem_of_fmap in Hin as (v' & [= -> ->] & Hv). eauto.
  - intros (pos & l & Hl & -> & Hv). exists pos, l. split; [done|].
    apply list_elem_of_fmap. eauto.
Qed.

Lemma elem_of_ring cur bs k v :
  (k, v) ∈ ring_contents cur bs <->
  exists i b, bs !! i = Some b /\ (k, v) ∈ block_contents (abs_block cur i * 64) b.
Proof. unfold ring_contents. by rewrite elem_of_concat_imap. Qed.

Lemma block_pos b pos l : block_ok b -> array b !! pos = Some l -> (pos < 64)%nat.
Proof. intros (Hl & _) Hp. rewrite <- Hl. apply lookup_lt_is_Some_1. eauto. Qed.

(** An unoccupied block is empty, and conversely. *)
Lemma block_empty base b : block_ok b -> occ b = 0 -> block_contents base b = [].
Proof.
  intros Hb H0. destruct (block_contents base b) as [|[k v] r] eqn:E; [done|].
  assert ((k, v) ∈ block_contents base b) as Hin by (rewrite E; apply list_elem_of_here).
  apply elem_of_block in Hin as (pos & l & Hl & _ & Hv).
  destruct Hb as (_ & _ & Hb). specialize (Hb pos l Hl). rewrite H0, Z.bits_0 in Hb.
  destruct l; [by apply elem_of_nil in Hv|done].
Qed.

Lemma block_first base b : block_ok b -> occ b <> 0 ->
  0 <= ctz (occ b) < 64 /\
  (exists v r, array b !! Z.to_nat (ctz (occ b)) = Some (v :: r)) /\
  (forall k v, (k, v) ∈ block_contents base b -> base + ctz (occ b) <= k < base + 64).
Proof.
  intros Hb H0. pose proof Hb as (Hlen & Hw & Hbits). destruct (ctz_spec (occ b) Hw H0) as (Hc & Ht & Hlow).
  split; [done|]. split.
  - destruct (lookup_lt_is_Some_2 (array b) (Z.to_nat (ctz (occ b)))) as [l Hl]; [lia|].
    specialize (Hbits _ _ Hl). rewrite Z2Nat.id in Hbits by lia. rewrite Ht in Hbits.
    destruct l as [|v r]; [done|]. by exists v, r.
  - intros k v (pos & l & Hl & -> & Hv)%elem_of_block. pose proof (block_pos b pos l Hb Hl).
    specialize (Hbits pos l Hl). destruct (Z_lt_le_dec (Z.of_nat pos) (ctz (occ b))); [|lia].
    rewrite Hlow in Hbits by lia. destruct l; [by apply elem_of_nil in Hv|done].
Qed.

Lemma testbit_set x pos i : 0 <= pos -> 0 <= i ->
  Z.testbit (Z.lor x (Z.shiftl 1 pos)) i = (i =? pos) || Z.testbit x i.
Proof.
  intros Hp Hi. rewrite Z.lor_spec, Z.shiftl_1_l, Z.pow2_bits_eqb by done.
  rewrite Z.eqb_sym. apply orb_comm.
Qed.

Lemma testbit_flip x pos i : 0 <= pos -> 0 <= i ->
  Z.testbit (Z.lxor x (Z.shiftl 1 pos)) i = xorb (i =? pos) (Z.testbit x i).
Proof.
  intros Hp Hi. rewrite Z.lxor_spec, Z.shiftl_1_l, Z.pow2_bits_eqb by done.
  rewrite Z.eqb_sym. apply xorb_comm.
Qed.

Lemma word_bit pos : 0 <= pos < 64 -> word 64 (Z.shiftl 1 pos).
Proof.
  intros Hp. rewrite Z.shiftl_1_l. split; [apply Z.pow_nonneg; lia|]. apply Z.pow_lt_mono_r; lia.
Qed.

Lemma block_enqueue_ok b obj pos base : block_ok b -> 0 <= pos < 64 ->
  exists b', block_enqueue b obj pos = Ok b' /\ block_ok b' /\
    block_contents base b' ≡ₚ (base + pos, obj) :: block_contents base b.
Proof.
  intros Hb Hp. pose proof Hb as (Hlen & Hw & Hbits). unfold block_enqueue.
  destruct (lookup_lt_is_Some_2 (array b) (Z.to_nat pos)) as [l Hl]; [lia|].
  rewrite (rd_some _ _ _ Hl). unfold mbind, outcome_bind. rewrite wr_lt by lia.
  eexists. split; [done|]. split.
  - unfold block_ok. cbn [array occ]. rewrite length_insert. split; [done|]. split.
    + apply word_lor; [lia|done|by apply word_bit].
    + intros p l' Hl'. rewrite testbit_set by lia. destruct (decide (Z.to_nat pos = p)) as [<-|Hne].
      * rewrite list_lookup_insert_eq in Hl' by lia. injection Hl' as <-.
        rewrite Z2Nat.id, Z.eqb_refl by lia. done.
      * rewrite list_lookup_insert_ne in Hl' by done. rewrite (proj2 (Z.eqb_neq _ _)) by lia.
        by apply Hbits.
  - unfold block_contents. cbn [array]. apply concat_imap_update with (a := l); [done|].
    cbn [map]. by rewrite Z2Nat.id by lia.
Qed.

Lemma block_dequeue_ok b base : block_ok b -> occ b <> 0 ->
  exists obj b', block_dequeue b = Ok (obj, ctz (occ b), b') /\ block_ok b' /\
    block_contents base b ≡ₚ (base + ctz (occ b), obj) :: block_contents base b'.
Proof.
  intros Hb H0. pose proof Hb as (Hlen & Hw & Hbits).
  destruct (block_first base b Hb H0) as (Hc & (v & r & Hl) & _).
  destruct (ctz_spec (occ b) Hw H0) as (_ & Ht & _). unfold block_dequeue.
  rewrite (proj2 (Z.eqb_neq _ _) H0). cbn [negb check]. unfold mbind, outcome_bind.
  rewrite (rd_some _ _ _ Hl), wr_lt by lia. eexists v, _. split; [done|].
  set (pos := ctz (occ b)) in *. split.
  - unfold block_ok. cbn [array occ]. rewrite length_insert. split; [done|]. split.
    + destruct r; [|done]. apply word_lxor; [lia|done|by apply word_bit].
    + intros p l' Hl'. destruct (decide (Z.to_nat pos = p)) as [<-|Hne].
      * rewrite list_lookup_insert_eq in Hl' by lia. injection Hl' as <-.
        destruct r; [rewrite testbit_flip by lia|]; rewrite Z2Nat.id, ?Z.eqb_refl, Ht by lia; done.
      * rewrite list_lookup_insert_ne in Hl' by done. rewrite <- (Hbits p l' Hl').
        destruct r; [|done]. rewrite testbit_flip, (proj2 (Z.eqb_neq _ _)) by lia. done.
  - unfold block_contents. cbn [array].
    rewrite <- (list_insert_id (array b) (Z.to_nat pos) (v :: r)) at 1 by done.
    rewrite <- (list_insert_insert_eq (array b) (Z.to_nat pos) (v :: r) r).
    apply concat_imap_update with (a := r); [by apply list_lookup_insert_eq; lia|].
    cbn [map]. by rewrite Z2Nat.id by lia.
Qed.

(** *** The ring *)

Lemma ring_index_lt n : (ring_index B n < B)%nat.
Proof. unfold ring_index. pose proof (Z.mod_pos_bound n (Z.of_nat B) ltac:(lia)). lia. Qed.

Lemma abs_block_range cur i : cur <= abs_block cur i < cur + Z.of_nat B.
Proof. unfold abs_block. pose proof (Z.mod_pos_bound (Z.of_nat i - cur) (Z.of_nat B) ltac:(lia)). lia. Qed.

Lemma abs_block_index cur n : cur <= n < cur + Z.of_nat B -> abs_block cur (ring_index B n) = n.
Proof.
  intros Hn. unfold abs_block, ring_index.
  rewrite Z2Nat.id by (apply Z.mod_pos_bound; lia).
  rewrite Zminus_mod_idemp_l, Z.mod_small by lia. lia.
Qed.

Lemma abs_block_inj cur i : (i < B)%nat -> ring_index B (abs_block cur i) = i.
Proof.
  intros Hi. unfold abs_block, ring_index. rewrite Zplus_mod_idemp_r.
  replace (cur + (Z.of_nat i - cur)) with (Z.of_nat i) by lia. rewrite Z.mod_small by lia. lia.
Qed.

Lemma abs_block_step cur i : (i < B)%nat -> i <> ring_index B cur ->
  abs_block (cur + 1) i = abs_block cur i.
Proof.
  intros Hi Hne. pose proof (abs_block_range cur i).
  assert (abs_block cur i <> cur) by (intros E; apply Hne; by rewrite <- E, abs_block_inj).
  rewrite <- (abs_block_inj cur i Hi) at 1. apply abs_block_index. lia.
Qed.

Lemma ring_insert_ok cur bs obj cycle :
  length bs = B -> Forall block_ok bs -> 0 <= cur -> cur <= cycle / 64 < cur + Z.of_nat B ->
  exists bs', ring_insert B bs obj cycle = Ok bs' /\ length bs' = B /\ Forall block_ok bs' /\
    ring_contents cur bs' ≡ₚ (cycle, obj) :: ring_contents cur bs.
Proof.
  intros Hlen Hok Hcur Hr. unfold ring_insert. set (i := ring_index B (cycle / 64)).
  pose proof (ring_index_lt (cycle / 64)) as Hi. fold i in Hi.
  destruct (lookup_lt_is_Some_2 bs i ltac:(lia)) as [b Hb].
  assert (block_ok b) as Hbok by (by eapply Forall_lookup_1).
  pose proof (Z.mod_pos_bound cycle 64 ltac:(lia)) as Hm.
  rewrite (rd_some _ _ _ Hb). unfold mbind, outcome_bind.
  destruct (block_enqueue_ok b obj (cycle mod 64) (abs_block cur i * 64) Hbok Hm)
    as (b' & -> & Hbok' & Hc). rewrite wr_lt by lia.
  eexists. split; [done|]. rewrite length_insert. split; [done|].
  split; [by apply Forall_insert|]. unfold ring_contents.
  apply concat_imap_update with (a := b); [done|]. rewrite Hc. f_equiv. f_equal.
  unfold i. rewrite abs_block_index by lia. pose proof (Z.div_mod cycle 64 ltac:(lia)). lia.
Qed.

(** Moving the window past an unoccupied block changes nothing. *)
Lemma ring_step cur bs b :
  length bs = B -> Forall block_ok bs -> bs !! ring_index B cur = Some b -> occ b = 0 ->
  ring_contents (cur + 1) bs = ring_contents cur bs.
Proof.
  intros Hlen Hok Hb H0. unfold ring_contents. f_equal. apply imap_ext. intros i b' Hb'.
  assert (i < B)%nat by (rewrite <- Hlen; apply lookup_lt_is_Some_1; eauto).
  destruct (decide (i = ring_index B cur)) as [->|Hne]; [|by rewrite abs_block_step].
  assert (b' = b) as -> by congruence.
  assert (block_ok b) by (by eapply Forall_lookup_1). by rewrite !block_empty.
Qed.

Lemma elem_of_ring_range cur bs k v : Forall block_ok bs -> (k, v) ∈ ring_contents cur bs ->
  cur * 64 <= k.
Proof.
  intros Hok (i & b & Hb & (pos & l & Hl & -> & Hv)%elem_of_block)%elem_of_ring.
  pose proof (abs_block_range cur i). lia.
Qed.

(** An element of the first block's cycles is in the first block. *)
Lemma elem_of_first_block cur n bs k v b : length bs = B -> Forall block_ok bs ->
  (k, v) ∈ ring_contents cur bs -> k / 64 = n ->
  bs !! ring_index B n = Some b -> (k, v) ∈ block_contents (n * 64) b.
Proof.
  intros Hlen Hok (i & b' & Hb' & Hin)%elem_of_ring Hk Hb.
  assert (block_ok b') as Hbok by (by eapply Forall_lookup_1).
  pose proof Hin as (pos & l & Hl & Ek & Hv)%elem_of_block. pose proof (block_pos b' pos l Hbok Hl).
  assert (abs_block cur i = n) as E.
  { subst n k. rewrite Z.add_comm, Z.div_add, Z.div_small by lia. lia. }
  assert (i < B)%nat by (rewrite <- Hlen; apply lookup_lt_is_Some_1; eauto).
  rewrite <- E in Hb. rewrite abs_block_inj in Hb by done. rewrite <- E. congruence.
Qed.

(** *** The far map *)

Lemma fe_insert_perm (m : list (Z * T)) k v : fe_insert m k v ≡ₚ (k, v) :: m.
Proof.
  induction m as [|[k' v'] m IH]; cbn [fe_insert]; [done|].
  destruct (k <? k'); [done|]. rewrite IH. apply Permutation_swap.
Qed.

Lemma fe_insert_sorted (m : list (Z * T)) k v :
  StronglySorted (fun a b => a.1 <= b.1) m -> StronglySorted (fun a b => a.1 <= b.1) (fe_insert m k v).
Proof.
  induction 1 as [|[k' v'] m Hs IH Hf]; cbn [fe_insert]; [repeat constructor|].
  destruct (Z.ltb_spec k k').
  - constructor; [by constructor|]. constructor; [cbn; lia|].
    eapply Forall_impl; [exact Hf|]. intros [? ?]; cbn. lia.
  - constructor; [done|]. rewrite fe_insert_perm. constructor; [cbn; lia|done].
Qed.

Lemma refill_ok cur top m : forall bs,
  length bs = B -> Forall block_ok bs -> 0 <= cur -> cur + Z.of_nat B < max64 ->
  top = (cur + Z.of_nat B) * 64 ->
  StronglySorted (fun a b : Z * T => a.1 <= b.1) m -> (forall k v, (k, v) ∈ m -> cur * 64 <= k) ->
  exists bs' m', refill B bs m cur top = Ok (bs', m') /\ length bs' = B /\ Forall block_ok bs' /\
    StronglySorted (fun a b : Z * T => a.1 <= b.1) m' /\
    ring_contents cur bs' ++ m' ≡ₚ ring_contents cur bs ++ m /\
    forall k v, (k, v) ∈ m' -> top <= k.
Proof.
  induction m as [|[k v] m IH]; intros bs Hlen Hok Hc Hm64 -> Hs Hlow; cbn [refill].
  { exists bs, []. split; [done|]. repeat split; [done..|]. intros k v Hin. by apply elem_of_nil in Hin. }
  inversion Hs as [|? ? Hs' Hf]; subst. pose proof (Hlow k v ltac:(apply list_elem_of_here)) as Hk.
  destruct (Z.ltb_spec k ((cur + Z.of_nat B) * 64)) as [Hlt|Hge].
  - assert (cur <= k / 64 < cur + Z.of_nat B) by (Z.div_mod_to_equations; lia).
    rewrite u64_small by lia. rewrite (proj2 (Z.leb_le _ _)), (proj2 (Z.ltb_lt _ _)) by lia.
    destruct (ring_insert_ok cur bs v k Hlen Hok Hc ltac:(lia)) as (bs1 & E1 & Hlen1 & Hok1 & Hp1).
    cbn [check]. unfold mbind, outcome_bind. cbv beta iota. rewrite E1.
    destruct (IH bs1 Hlen1 Hok1 Hc Hm64 eq_refl Hs') as (bs' & m' & E & Hl' & Hok' & Hs2 & Hp & Hhi).
    { intros k1 v1 Hin. apply (Hlow k1 v1). by apply list_elem_of_further. }
    exists bs', m'. repeat split; [done..| |done]. rewrite Hp, Hp1. by rewrite <- Permutation_middle.
  - exists bs, ((k, v) :: m). repeat split; [done..|]. intros k1 v1 [[= -> ->]|Hin]%elem_of_cons; [done|].
    rewrite Forall_forall in Hf. specialize (Hf _ Hin). cbn in Hf. lia.
Qed.

(** *** The search of [dequeue] *)

Lemma far_base_ge cur : 0 <= cur -> (cur + Z.of_nat h + 1) * 64 <= far_base cur.
Proof.
  intros Hc. unfold far_base. pose proof (Z.mod_pos_bound cur (Z.of_nat h) ltac:(lia)).
  pose proof (Z.div_mod cur (Z.of_nat h) ltac:(lia)). lia.
Qed.

Lemma far_base_step cur : (cur + 1) mod Z.of_nat h <> 0 -> far_base (cur + 1) = far_base cur.
Proof.
  intros Hm. unfold far_base. do 3 f_equal.
  pose proof (Z.div_mod (cur + 1) (Z.of_nat h) ltac:(lia)) as E.
  pose proof (Z.mod_pos_bound (cur + 1) (Z.of_nat h) ltac:(lia)).
  apply (Z.div_unique cur _ _ ((cur + 1) mod Z.of_nat h - 1)); lia.
Qed.

Lemma far_base_multiple cur : cur mod Z.of_nat h = 0 -> far_base cur = (cur + Z.of_nat B) * 64.
Proof.
  intros Hm. unfold far_base. pose proof (Z.div_mod cur (Z.of_nat h) ltac:(lia)). lia.
Qed.

Lemma half_B : Z.of_nat B / 2 = Z.of_nat h.
Proof. unfold B. rewrite Nat2Z.inj_mul, Z.mul_comm, Z.div_mul; lia. Qed.

Lemma elem_of_contents_low q k v : wf q -> (k, v) ∈ contents q -> curBlock q * 64 <= k.
Proof.
  intros Hwf [Hr|Hf]%elem_of_app; [by eapply elem_of_ring_range; [apply (wf_blocks _ Hwf)|]|].
  pose proof (wf_far _ Hwf _ _ Hf). pose proof (wf_cur _ Hwf). pose proof (far_base_ge (curBlock q) ltac:(lia)). lia.
Qed.

(** What the search keeps: the contents, the invariant and the element count. *)
Definition same_queue (q q' : t T) : Prop :=
  wf q' /\ contents q' ≡ₚ contents q /\ elems q' = elems q.

(** One step of the search, when the first block is empty and some element
    is not: the window moves on, and far elements may enter the ring. *)
Lemma advance_step q b k v : wf q -> blocks q !! ring_index B (curBlock q) = Some b -> occ b = 0 ->
  (k, v) ∈ contents q -> (curBlock q + 1) * 64 <= k ->
  exists q', same_queue q q' /\ curBlock q' = curBlock q + 1 /\
    forall n, advance B (S n) q = advance B n q'.
Proof.
  intros Hwf Hb H0 Hin Hk. pose proof Hwf as [Hlen Hok [Hc Hc'] HB Hs Hfar [He He'] Hmax].
  pose proof (Hmax _ _ Hin) as HkM. unfold maxCycle in *.
  assert (curBlock q +64 1 = curBlock q + 1) as Ecur by (rewrite u64_small; rewrite ?max64_eq; lia).
  pose proof (ring_step _ _ _ Hlen Hok Hb H0) as Hring.
  assert (forall n, advance B (S n) q = let cur := curBlock q + 1 in
      if (cur `mod` Z.of_nat h =? 0) && negb (bool_decide (length (feMap q) = 0%nat)) then
        '(bs, m) ← refill B (blocks q) (feMap q) cur (u64 ((cur +64 Z.of_nat B) * 64));
        advance B n (mk bs m cur (elems q))
      else advance B n (mk (blocks q) (feMap q) cur (elems q))) as Estep.
  { intros n. cbn [advance]. rewrite (rd_some _ _ _ Hb). unfold mbind at 1, outcome_bind at 1.
    rewrite H0, Ecur, half_B. done. }
  cbv zeta in Estep.
  destruct (Z.eqb_spec ((curBlock q + 1) mod Z.of_nat h) 0) as [Hm|Hm];
    [destruct (feMap q) as [|e m] eqn:Em|]; cbn [andb negb] in Estep.
  - assert (contents q = contents (mk (blocks q) [] (curBlock q + 1) (elems q))) as Econt.
    { unfold contents. cbn [blocks feMap curBlock]. by rewrite Hring, Em. }
    eexists. split; [|split; [|exact Estep]]; [|done]. split; [|split; [by rewrite Econt|done]].
    constructor; unfold maxCycle; cbn [blocks feMap curBlock elems]; rewrite <- ?Econt; try done; try lia.
    + intros k' v' Hk'. by apply elem_of_nil in Hk'.
  - rewrite bool_decide_eq_false_2 in Estep by done. cbn [negb] in Estep.
    assert (forall k' v', (k', v') ∈ e :: m -> (curBlock q + 1) * 64 <= k') as Hlow.
    { intros k' v' Hk'. pose proof (Hfar _ _ Hk'). pose proof (far_base_ge (curBlock q) Hc). lia. }
    assert (u64 ((curBlock q + 1 +64 Z.of_nat B) * 64) = (curBlock q + 1 + Z.of_nat B) * 64) as Etop.
    { rewrite (u64_small (_ + Z.of_nat B)) by (rewrite max64_eq; lia).
      rewrite u64_small by (rewrite max64_eq; lia). done. }
    destruct (refill_ok (curBlock q + 1) _ (e :: m) (blocks q) Hlen Hok ltac:(lia)
      ltac:(rewrite max64_eq; lia) Etop Hs Hlow) as (bs & m' & E & Hlen' & Hok' & Hs' & Hp & Hhi).
    rewrite E in Estep. unfold mbind, outcome_bind in Estep.
    assert (contents (mk bs m' (curBlock q + 1) (elems q)) ≡ₚ contents q) as Econt.
    { unfold contents. cbn [blocks feMap curBlock]. by rewrite Hp, Hring, Em. }
    eexists. split; [|split; [|exact Estep]]; [|done]. split; [|split; [done|done]].
    constructor; unfold maxCycle; cbn [blocks feMap curBlock elems]; rewrite ?Econt; try done; try lia.
    + intros k' v' Hk'. rewrite far_base_multiple by done. rewrite <- Etop. by eapply Hhi.
    + intros k' v'. rewrite Econt. apply Hmax.
  - assert (contents q = contents (mk (blocks q) (feMap q) (curBlock q + 1) (elems q))) as Econt.
    { unfold contents. cbn [blocks feMap curBlock]. by rewrite Hring. }
    eexists. split; [|split; [|exact Estep]]; [|done]. split; [|split; [by rewrite Econt|done]].
    constructor; unfold maxCycle; cbn [blocks feMap curBlock elems]; rewrite <- ?Econt; try done; try lia.
    rewrite far_base_step by done. exact Hfar.
Qed.

Lemma first_block_occupied q b k v : wf q -> (k, v) ∈ contents q -> k / 64 = curBlock q ->
  blocks q !! ring_index B (curBlock q) = Some b -> occ b <> 0.
Proof.
  intros Hwf Hin Hk Hb H0. pose proof Hwf as [Hlen Hok [Hc _] _ _ Hfar _ _].
  apply elem_of_app in Hin as [Hin|Hin].
  - pose proof (elem_of_first_block _ _ _ _ _ _ Hlen Hok Hin Hk Hb) as Hb'.
    assert (block_ok b) by (by eapply Forall_lookup_1). rewrite block_empty in Hb' by done.
    by apply elem_of_nil in Hb'.
  - pose proof (Hfar _ _ Hin). pose proof (far_base_ge _ Hc). Z.div_mod_to_equations. lia.
Qed.

Lemma advance_ok n : forall q k v, wf q -> (k, v) ∈ contents q -> k / 64 - curBlock q <= Z.of_nat n ->
  exists q' b, advance B n q = Ok q' /\ same_queue q q' /\
    blocks q' !! ring_index B (curBlock q') = Some b /\ occ b <> 0.
Proof.
  induction n as [|n IH]; intros q k v Hwf Hin Hn; pose proof Hwf as [Hlen Hok _ _ _ _ _ _];
    pose proof (elem_of_contents_low _ _ _ Hwf Hin) as Hlow;
    (destruct (lookup_lt_is_Some_2 (blocks q) (ring_index B (curBlock q))) as [b Hb];
      [rewrite Hlen; apply ring_index_lt|]);
    (destruct (Z.eq_dec (occ b) 0) as [H0|H0]; [|exists q, b; split; [|done];
       cbn [advance]; rewrite (rd_some _ _ _ Hb); unfold mbind, outcome_bind;
       by rewrite (proj2 (Z.eqb_neq _ _) H0)]).
  - exfalso. apply (first_block_occupied q b k v Hwf Hin); [|done..]. Z.div_mod_to_equations. lia.
  - assert (k / 64 <> curBlock q) as Hne.
    { intros E. by apply (first_block_occupied q b k v Hwf Hin E Hb). }
    destruct (advance_step q b k v Hwf Hb H0 Hin) as (q1 & (Hwf1 & Hp1 & He1) & Hc1 & Estep);
      [Z.div_mod_to_equations; lia|].
    destruct (IH q1 k v Hwf1) as (q' & b' & E & (Hwf' & Hp' & He') & Hb' & H0').
    { by rewrite Hp1. } { lia. }
    exists q', b'. rewrite Estep. split; [done|]. split; [|done]. split; [done|].
    split; [by rewrite Hp', Hp1|congruence].
Qed.

(** *** The operations *)

Definition least (c : Z) (l : list (Z * T)) : Prop := forall k v, (k, v) ∈ l -> c <= k.

Lemma enqueue_ok q obj cycle : wf q -> curBlock q <= cycle / 64 -> cycle < maxCycle ->
  elems q + 1 < max64 ->
  exists q', enqueue B q obj cycle = Ok q' /\ wf q' /\ contents q' ≡ₚ (cycle, obj) :: contents q.
Proof.
  intros Hwf Hle Hmaxc He1. pose proof Hwf as [Hlen Hok [Hc Hc'] HB Hs Hfar [He He'] Hmax].
  unfold enqueue, maxCycle in *. rewrite (proj2 (Z.leb_le _ _) Hle). cbn [check]. unfold mbind, outcome_bind.
  rewrite (u64_small (curBlock q + _)) by (rewrite max64_eq; lia). cbv beta iota.
  assert (elems q +64 1 = elems q + 1) as E1 by (apply u64_small; lia).
  assert (forall bs m, ring_contents (curBlock q) bs ++ m ≡ₚ (cycle, obj) :: contents q ->
    length bs = B -> Forall block_ok bs -> StronglySorted (fun a b => a.1 <= b.1) m ->
    (forall k v, (k, v) ∈ m -> far_base (curBlock q) <= k) ->
    wf (mk bs m (curBlock q) (elems q + 1)) /\
    contents (mk bs m (curBlock q) (elems q + 1)) ≡ₚ (cycle, obj) :: contents q) as Hput.
  { intros bs m Hp Hlen' Hok' Hs' Hfar'. split; [|done].
    assert (contents (mk bs m (curBlock q) (elems q + 1)) ≡ₚ (cycle, obj) :: contents q) as Hp' by exact Hp.
    constructor; cbn [blocks feMap curBlock elems]; rewrite ?Hp'; try done; try (cbn [length]; lia).
    intros k v. rewrite Hp'. intros [[= -> ->]|Hin]%elem_of_cons; [done|]. by eapply Hmax. }
  destruct (Z.ltb_spec (cycle / 64) (curBlock q + Z.of_nat B)) as [Hlt|Hge].
  - destruct (ring_insert_ok (curBlock q) (blocks q) obj cycle Hlen Hok Hc ltac:(lia))
      as (bs & -> & Hlen' & Hok' & Hp). eexists. split; [done|]. rewrite E1. apply Hput; try done.
    by rewrite Hp.
  - eexists. split; [done|]. rewrite E1. apply Hput; try done.
    + rewrite fe_insert_perm. by rewrite <- Permutation_middle.
    + by apply fe_insert_sorted.
    + intros k v. rewrite fe_insert_perm. intros [[= -> ->]|Hin]%elem_of_cons; [|by eapply Hfar].
      unfold far_base. pose proof (Z.mod_pos_bound (curBlock q) (Z.of_nat h) ltac:(lia)).
      pose proof (Z.div_mod (curBlock q) (Z.of_nat h) ltac:(lia)). Z.div_mod_to_equations. lia.
Qed.

Lemma contents_length_pos q k v : wf q -> (k, v) ∈ contents q -> 0 < elems q.
Proof.
  intros Hwf Hin. destruct (wf_elems _ Hwf) as [-> _]. destruct (contents q); [by apply elem_of_nil in Hin|].
  cbn. lia.
Qed.

(** With the first block occupied, its lowest slot holds a least element. *)
Lemma first_block_least q b : wf q -> blocks q !! ring_index B (curBlock q) = Some b -> occ b <> 0 ->
  least (curBlock q * 64 + ctz (occ b)) (contents q).
Proof.
  intros Hwf Hb H0 k v Hin. pose proof Hwf as [Hlen Hok [Hc _] _ _ Hfar _ _].
  assert (block_ok b) as Hbok by (by eapply Forall_lookup_1).
  destruct (block_first (curBlock q * 64) b Hbok H0) as (Hct & _ & Hleast).
  pose proof (elem_of_contents_low _ _ _ Hwf Hin). apply elem_of_app in Hin as [Hin|Hin].
  - destruct (Z.eq_dec (k / 64) (curBlock q)) as [E|E]; [|Z.div_mod_to_equations; lia].
    by apply (Hleast k v), (elem_of_first_block (curBlock q) (curBlock q) (blocks q)).
  - pose proof (Hfar _ _ Hin). pose proof (far_base_ge _ Hc). lia.
Qed.

Lemma dequeue_ok n q k v : wf q -> (k, v) ∈ contents q -> k / 64 - curBlock q <= Z.of_nat n ->
  exists obj c q', dequeue B n q = Ok (obj, c, q') /\ wf q' /\
    contents q ≡ₚ (c, obj) :: contents q' /\ least c (contents q) /\ c / 64 = curBlock q'.
Proof.
  intros Hwf Hin Hn. pose proof (contents_length_pos _ _ _ Hwf Hin) as Hpos. unfold dequeue.
  destruct (advance_ok n q k v Hwf Hin Hn) as (q1 & b & E & (Hwf1 & Hp1 & He1) & Hb & H0).
  rewrite (proj2 (Z.eqb_neq _ _)) by lia. cbn [negb check]. unfold mbind, outcome_bind. rewrite E.
  pose proof Hwf1 as [Hlen Hok [Hc Hc'] HB Hs Hfar [He He'] Hmax]. unfold maxCycle in *.
  rewrite (rd_some _ _ _ Hb). assert (block_ok b) as Hbok by (by eapply Forall_lookup_1).
  destruct (block_dequeue_ok b (abs_block (curBlock q1) (ring_index B (curBlock q1)) * 64) Hbok H0)
    as (obj & b' & -> & Hbok' & Hp).
  assert (ring_index B (curBlock q1) < B)%nat by apply ring_index_lt.
  rewrite wr_lt by lia. destruct (block_first 0 b Hbok H0) as (Hct & _).
  rewrite (u64_small (curBlock q1 * 64)) by (rewrite max64_eq; lia).
  rewrite (u64_small (_ * 64 + _)) by (rewrite max64_eq; lia).
  rewrite (u64_small (_ - 1)) by (rewrite max64_eq in *; lia).
  rewrite abs_block_index in Hp by lia.
  set (c := curBlock q1 * 64 + ctz (occ b)) in *.
  set (bs := <[ring_index B (curBlock q1):=b']> (blocks q1)).
  assert (ring_contents (curBlock q1) (blocks q1) ≡ₚ (c, obj) :: ring_contents (curBlock q1) bs) as Hr.
  { unfold ring_contents, bs.
    rewrite <- (list_insert_id (blocks q1) (ring_index B (curBlock q1)) b) at 1 by done.
    rewrite <- (list_insert_insert_eq (blocks q1) (ring_index B (curBlock q1)) b b').
    apply concat_imap_update with (a := b'); [by apply list_lookup_insert_eq; lia|].
    rewrite abs_block_index by lia. done. }
  assert (contents q1 ≡ₚ (c, obj) :: contents (mk bs (feMap q1) (curBlock q1) (elems q1 - 1))) as Hp2.
  { unfold contents at 1. by rewrite Hr. }
  eexists obj, c, _. split; [done|]. split; [|split].
  - constructor; unfold maxCycle; cbn [blocks feMap curBlock elems]; try done.
    + unfold bs. by rewrite length_insert.
    + by apply Forall_insert.
    + rewrite Hp2 in He. cbn [length] in He. lia.
    + intros k' v' Hin'. apply (Hmax k' v'). rewrite Hp2. by apply list_elem_of_further.
  - by rewrite <- Hp1.
  - split; [intros k' v'; rewrite <- Hp1; by apply first_block_least|]. cbn [curBlock]. unfold c.
    Z.div_mod_to_equations. lia.
Qed.

(** The scan of [firstCycle]: when every ring element lies at or after block
    [cur + i], it returns the least cycle. *)
Lemma first_from_ok q n : forall i k v, wf q -> (k, v) ∈ contents q -> (i + n = B)%nat ->
  least ((curBlock q + Z.of_nat i) * 64) (ring_contents (curBlock q) (blocks q)) ->
  exists c v, first_from B q i n = Ok c /\ (c, v) ∈ contents q /\ least c (contents q).
Proof.
  induction n as [|n IH]; intros i k v Hwf Hin Hi Hlow; cbn [first_from];
    pose proof Hwf as [Hlen Hok [Hc Hc'] HB Hs Hfar _ Hmax]; unfold maxCycle in *.
  - assert (forall k v, (k, v) ∉ ring_contents (curBlock q) (blocks q)) as Hno.
    { intros k' v' Hr. pose proof (Hlow _ _ Hr). apply elem_of_ring in Hr as (j & b & Hb & Hr).
      apply elem_of_block in Hr as (pos & l & Hl & -> & _). pose proof (abs_block_range (curBlock q) j).
      assert (block_ok b) as Hbok by (by eapply Forall_lookup_1). pose proof (block_pos b pos l Hbok Hl). lia. }
    unfold fe_first. destruct (feMap q) as [|[k0 v0] m] eqn:Em.
    { exfalso. apply elem_of_app in Hin as [Hin|Hin]; [by eapply Hno|].
      rewrite Em in Hin. by apply elem_of_nil in Hin. }
    exists k0, v0. split; [done|]. split; [apply elem_of_app; right; rewrite Em; apply list_elem_of_here|].
    intros k' v' [Hr|Hf]%elem_of_app; [by apply Hno in Hr|]. rewrite Em in Hf.
    inversion Hs as [|? ? _ Hall]; subst. apply elem_of_cons in Hf as [[= -> ->]|Hf]; [done|].
    rewrite Forall_forall in Hall. apply (Hall _ Hf).
  - assert (curBlock q +64 Z.of_nat i = curBlock q + Z.of_nat i) as Ei
      by (apply u64_small; rewrite max64_eq; lia).
    set (j := curBlock q + Z.of_nat i) in *.
    destruct (lookup_lt_is_Some_2 (blocks q) (ring_index B j)) as [b Hb];
      [rewrite Hlen; apply ring_index_lt|].
    assert (block_ok b) as Hbok by (by eapply Forall_lookup_1).
    rewrite Ei, (rd_some _ _ _ Hb). unfold mbind, outcome_bind.
    destruct (Z.eqb_spec (occ b) 0) as [H0|H0].
    + apply (IH (S i) k v Hwf Hin ltac:(lia)). intros k' v' Hr. pose proof (Hlow _ _ Hr).
      destruct (Z.eq_dec (k' / 64) j) as [E|E]; [|subst j; Z.div_mod_to_equations; lia].
      pose proof (elem_of_first_block _ _ _ _ _ _ Hlen Hok Hr E Hb) as Hin'.
      rewrite block_empty in Hin' by done. by apply elem_of_nil in Hin'.
    + destruct (block_first (j * 64) b Hbok H0) as (Hct & (v1 & r & Hv1) & Hleast).
      rewrite (u64_small (j * 64)), (u64_small (_ + ctz _)) by (rewrite max64_eq; lia).
      set (c := j * 64 + ctz (occ b)) in *.
      assert ((c, v1) ∈ contents q) as Hcin.
      { apply elem_of_app. left. apply elem_of_ring. exists (ring_index B j), b. split; [done|].
        rewrite abs_block_index by (unfold j; lia). apply elem_of_block.
        exists (Z.to_nat (ctz (occ b))), (v1 :: r). split; [done|].
        split; [subst c; lia|apply list_elem_of_here]. }
      assert (least c (ring_contents (curBlock q) (blocks q))) as Hring.
      { intros k' v' Hr. pose proof (Hlow _ _ Hr).
        destruct (Z.eq_dec (k' / 64) j) as [E|E]; [|subst c j; Z.div_mod_to_equations; lia].
        apply (Hleast k' v'), (elem_of_first_block (curBlock q) j (blocks q)); done. }
      assert (forall d, d <= c -> (forall k v, (k, v) ∈ feMap q -> d <= k) -> least d (contents q)) as Hboth.
      { intros d Hd Hf k' v' [Hr|Hr]%elem_of_app; [pose proof (Hring _ _ Hr); lia|by eapply Hf]. }
      case_bool_decide as Hhalf; [|destruct (feMap q) as [|[k0 v0] m] eqn:Em].
      * exists c, v1. split; [done|]. split; [done|]. apply Hboth; [done|]. intros k' v' Hf.
        pose proof (Hfar _ _ Hf). pose proof (far_base_ge _ Hc).
        assert (B / 2 = h)%nat as Eh by (unfold B; rewrite Nat.mul_comm; apply Nat.div_mul; lia). lia.
      * exists c, v1. split; [done|]. split; [done|]. apply Hboth; [done|]. intros k' v' Hf.
        by apply elem_of_nil in Hf.
      * assert (forall k' v', (k', v') ∈ (k0, v0) :: m -> k0 <= k') as Hk0.
        { inversion Hs as [|? ? _ Hall]; subst. intros k' v' [[= -> ->]|Hf]%elem_of_cons; [done|].
          rewrite Forall_forall in Hall. apply (Hall _ Hf). }
        destruct (Z.min_spec c k0) as [[Hlt Emin]|[Hlt Emin]]; rewrite Emin.
        -- exists c, v1. split; [done|]. split; [done|]. apply Hboth; [done|].
           intros k' v' Hf. pose proof (Hk0 _ _ Hf). lia.
        -- exists k0, v0. split; [done|]. split; [|by apply Hboth].
           apply elem_of_app. right. rewrite Em. apply list_elem_of_here.
Qed.

Lemma firstCycle_ok q k v : wf q -> (k, v) ∈ contents q ->
  exists c v, firstCycle B q = Ok c /\ (c, v) ∈ contents q /\ least c (contents q).
Proof.
  intros Hwf Hin. pose proof (contents_length_pos _ _ _ Hwf Hin). unfold firstCycle.
  rewrite (proj2 (Z.eqb_neq _ _)) by lia. apply (first_from_ok q B 0 k v Hwf Hin ltac:(lia)).
  intros k' v' Hr. pose proof (elem_of_ring_range _ _ _ _ (wf_blocks _ Hwf) Hr). lia.
Qed.

Lemma init_wf : Z.of_nat B * 64 < maxCycle -> wf (init B) /\ contents (init B : t T) = [].
Proof.
  intros HB. assert (contents (init B : t T) = []) as E.
  { unfold contents, ring_contents, init. cbn [blocks feMap curBlock]. rewrite app_nil_r.
    apply elem_of_nil_inv. intros [k v] (i & b & [-> _]%lookup_replicate & Hin)%elem_of_ring.
    apply elem_of_block in Hin as (pos & l & [-> _]%lookup_replicate & _ & Hv). by apply elem_of_nil in Hv. }
  split; [|done]. constructor; rewrite ?E; cbn [init blocks feMap curBlock elems]; try done.
  - apply length_replicate.
  - apply Forall_replicate. split; [apply length_replicate|]. split; [apply word_0; lia|].
    intros pos l [-> _]%lookup_replicate. cbn [occ empty_block]. by rewrite Z.bits_0.
  - constructor.
  - intros k v Hin. by apply elem_of_nil in Hin.
  - intros k v Hin. by apply elem_of_nil in Hin.
Qed.

End pq.
End PQSpec.

(** ** Properties *)

Module PQProps.
Import PQ PQSpec.

(** C28: [enqueue] at a cycle not before the current block succeeds, keeps the
    ring, occupancy words, far map and counter consistent, and adds exactly
    the pair (cycle, object), wherever it is stored. *)
Theorem pq_enqueue_inserts {T} (h : nat) (q : t T) (obj : T) (cycle : Z) :
  (0 < h)%nat -> wf h q -> curBlock q <= cycle / 64 -> cycle < maxCycle -> size q + 1 < max64 ->
  exists q', enqueue (2 * h) q obj cycle = Ok q' /\ wf h q' /\
    contents h q' ≡ₚ (cycle, obj) :: contents h q.
Proof. intros. by apply enqueue_ok. Qed.

(** C27: [dequeue] on a non-empty queue terminates (the search advances at most
    to the block of any element, so that many steps of fuel are enough) and
    removes one element of least cycle, returning that cycle, across the ring
    and the far map; nothing else changes. *)
Theorem pq_dequeue_least {T} (h fuel : nat) (q : t T) (k : Z) (v : T) :
  (0 < h)%nat -> wf h q -> (k, v) ∈ contents h q -> k / 64 - curBlock q <= Z.of_nat fuel ->
  exists obj c q', dequeue (2 * h) fuel q = Ok (obj, c, q') /\ wf h q' /\
    contents h q ≡ₚ (c, obj) :: contents h q' /\ least c (contents h q).
Proof.
  intros Hh Hq Hin Hf. destruct (dequeue_ok h Hh fuel q k v Hq Hin Hf) as (obj & c & q' & E & Hq' & Hp & Hl & _).
  by exists obj, c, q'.
Qed.

(** [firstCycle] (which scans only the occupancy words and the first far
    element) returns the cycle at which the next [dequeue] will return. *)
Theorem pq_firstCycle_dequeue {T} (h fuel : nat) (q : t T) (k : Z) (v : T) :
  (0 < h)%nat -> wf h q -> (k, v) ∈ contents h q -> k / 64 - curBlock q <= Z.of_nat fuel ->
  exists obj c q', firstCycle (2 * h) q = Ok c /\ dequeue (2 * h) fuel q = Ok (obj, c, q').
Proof.
  intros Hh Hwf Hin Hf. destruct (firstCycle_ok h Hh q k v Hwf Hin) as (c & v' & Hc & Hcin & Hl).
  destruct (dequeue_ok h Hh fuel q k v Hwf Hin Hf) as (obj & c' & q' & Hd & _ & Hp & Hl' & _).
  exists obj, c, q'. split; [done|]. rewrite Hd. do 3 f_equal. apply Z.le_antisymm.
  - by apply (Hl' c v').
  - apply (Hl c' obj). rewrite Hp. apply list_elem_of_here.
Qed.

(** Block size 2: an element in the far map and one in the ring. *)
Definition demo : t nat :=
  match (q ← enqueue 2 (init 2) 7%nat 500; enqueue 2 q 8%nat 70) with Ok q => q | Fault _ => init 2 end.

Lemma demo_wf : wf 1 demo /\ contents 1 demo ≡ₚ [(70, 8%nat); (500, 7%nat)].
Proof.
  destruct (init_wf (T := nat) 1 ltac:(lia) ltac:(by vm_compute)) as [H0 E0].
  destruct (enqueue_ok 1 ltac:(lia) (init 2) 7%nat 500 H0) as (q1 & E1 & H1 & P1); [by vm_compute|done|by rewrite max64_eq|].
  assert (curBlock q1 = 0 /\ elems q1 = 1) as [Ec En] by (vm_compute in E1; by injection E1 as <-).
  destruct (enqueue_ok 1 ltac:(lia) q1 8%nat 70 H1) as (q2 & E2 & H2 & P2);
    [rewrite Ec; by vm_compute|done|rewrite En, max64_eq; lia|].
  assert (demo = q2) as ->.
  { unfold demo. change (2 * 1)%nat with 2%nat in *. rewrite E1. unfold mbind, outcome_bind. by rewrite E2. }
  split; [done|]. by rewrite P2, P1, (E0 : contents 1 (init 2) = []).
Qed.

Lemma pq_enqueue_inserts_witness :
  exists q', enqueue 2 demo 9%nat 64 = Ok q' /\ wf 1 q' /\ contents 1 q' ≡ₚ (64, 9%nat) :: contents 1 demo.
Proof. apply (pq_enqueue_inserts 1 demo 9%nat 64); [lia|apply demo_wf|done..]. Defined.

Lemma demo_far : (500, 7%nat) ∈ contents 1 demo.
Proof. rewrite (proj2 demo_wf). set_solver. Qed.

Lemma pq_dequeue_least_witness : exists obj c q', dequeue 2 10 demo = Ok (obj, c, q') /\ wf 1 q' /\
    contents 1 demo ≡ₚ (c, obj) :: contents 1 q' /\ least c (contents 1 demo).
Proof. apply (pq_dequeue_least 1 10 demo 500 7%nat); [lia|apply demo_wf|apply demo_far|done]. Defined.

Lemma pq_firstCycle_dequeue_witness :
  exists obj c q', firstCycle 2 demo = Ok c /\ dequeue 2 10 demo = Ok (obj, c, q').
Proof. apply (pq_firstCycle_dequeue 1 10 demo 500 7%nat); [lia|apply demo_wf|apply demo_far|done]. Defined.

(** Both orders of the search: the ring's element leaves first, and the far one
    enters the ring when the window reaches it. *)
Example demo_dequeues :
  match dequeue 2 10 demo with
  | Ok (o, c, q) => match dequeue 2 10 q with Ok (o', c', _) => Some (o, c, o', c') | _ => None end
  | _ => None
  end = Some (8%nat, 70, 7%nat, 500).
Proof. vm_compute. reflexivity. Qed.

End PQProps.
