(* ===== verification/TimingEvent.v ===== *)
(** * Timing events (src/src/timing_event.h, src/src/event_recorder.h)

    The events of the contention simulation: a heap of event objects with their
    states, child lists (one inline pointer, then a list of three-slot blocks),
    domains and delays; [addChild] with its domain propagation, and the record
    interface through which caches hand events to the cores.  Scheduling and the
    running of events are in ContentionSim. *)

From S2P Require Import Prelude MemHier.
Local Open Scope Z_scope.

Inductive EventState := EV_INVALID | EV_NONE | EV_QUEUED | EV_RUNNING | EV_HELD | EV_DONE.

Global Instance EventState_eq_dec : EqDecision EventState.
Proof. solve_decision. Defined.

(** The state a [CrossingEvent] adds to its base class; [cpe] is its embedded
    [CrossingSrcEvent], [evRec] the core whose recorder it uses. *)
Record Crossing := mkCrossing {
  srcDomain : Z; called : bool; doneCycle : Z; srcDomainCycleAtDone : Z;
  evRec : nat; origStartCycle : Z; parentEv : nat;
  preSlack : Z; postSlack : Z; cpe : nat
}.

(** The dynamic class of an event: the subclasses of timing_event.h, or another
    subclass (a memory's or a core's), which only implements [simulate]. *)
Inductive EventKind :=
  | KOther (cls : nat)
  | KDelay
  | KCrossing (c : Crossing)
  | KCrossingSrc (ce : nat).

(** [TIMING_BLOCK_EVENTS] slots; the head of a list is the newest block. *)
Definition TIMING_BLOCK_EVENTS : nat := 3.
Definition Block : Type := list (option nat).
Definition new_block : Block := replicate TIMING_BLOCK_EVENTS None.

(** The union of [child] and [children]. *)
Inductive Children :=
  | CNull
  | COne (ev : nat)
  | CBlocks (bs : list Block).

Record Event := mkEvent {
  kind : EventKind;
  privCycle : Z; state : EventState; cycle : Z; minStartCycle : Z;
  children : Children; domain : Z; numChildren : nat; numParents : Z;
  preDelay : Z; postDelay : Z
}.

Definition noCycle : Z := max64 - 1. (* -1L *)

(** The constructor every subclass uses, and [DelayEvent]'s. *)
Definition TimingEvent_new (k : EventKind) (preDelay postDelay domain : Z) : Event :=
  mkEvent k 0 EV_NONE 0 noCycle CNull domain 0 0 preDelay postDelay.
Definition DelayEvent_new (delay : Z) : Event := TimingEvent_new KDelay delay 0 (-1).

(** ** The heap *)

Record Heap := mkHeap { events : gmap nat Event; nextEv : nat }.

Definition alloc (e : Event) : ST Heap nat := fun h =>
  Ok (nextEv h, mkHeap (<[nextEv h := e]> (events h)) (S (nextEv h))).

(** Reading or writing a freed event is a fault. *)
Definition ev_get (i : nat) : ST Heap Event := fun h =>
  match events h !! i with Some e => Ok (e, h) | None => Fault OutOfRange end.
Definition ev_set (i : nat) (e : Event) : ST Heap unit := fun h =>
  match events h !! i with
  | Some _ => Ok (tt, mkHeap (<[i := e]> (events h)) (nextEv h))
  | None => Fault OutOfRange
  end.
Definition freeEvent (i : nat) : ST Heap unit := fun h =>
  match events h !! i with
  | Some _ => Ok (tt, mkHeap (delete i (events h)) (nextEv h))
  | None => Fault OutOfRange
  end.

(** Field updates. *)
Definition with_state (e : Event) (s : EventState) : Event :=
  let '(mkEvent k p _ c m ch d nc np a b) := e in mkEvent k p s c m ch d nc np a b.
Definition with_cycle (e : Event) (c : Z) : Event :=
  let '(mkEvent k p s _ m ch d nc np a b) := e in mkEvent k p s c m ch d nc np a b.
Definition with_priv (e : Event) (p : Z) : Event :=
  let '(mkEvent k _ s c m ch d nc np a b) := e in mkEvent k p s c m ch d nc np a b.
Definition with_min (e : Event) (m : Z) : Event :=
  let '(mkEvent k p s c _ ch d nc np a b) := e in mkEvent k p s c m ch d nc np a b.
Definition with_children (e : Event) (ch : Children) (nc : nat) : Event :=
  let '(mkEvent k p s c m _ d _ np a b) := e in mkEvent k p s c m ch d nc np a b.
Definition with_domain (e : Event) (d : Z) : Event :=
  let '(mkEvent k p s c m ch _ nc np a b) := e in mkEvent k p s c m ch d nc np a b.
Definition with_parents (e : Event) (np : Z) : Event :=
  let '(mkEvent k p s c m ch d nc _ a b) := e in mkEvent k p s c m ch d nc np a b.
Definition with_kind (e : Event) (k : EventKind) : Event :=
  let '(mkEvent _ p s c m ch d nc np a b) := e in mkEvent k p s c m ch d nc np a b.

Definition setMinStartCycle (i : nat) (c : Z) : ST Heap unit :=
  e ← ev_get i; ev_set i (with_min e c).

(** ** Children *)

(** The pointers [visitChildren] passes to its argument, in order, with the
    check after the loop: each block's slots up to the first null. *)
Fixpoint block_events (b : Block) : list nat :=
  match b with Some ev :: b' => ev :: block_events b' | _ => [] end.

Definition visitChildren (e : Event) : outcome (list nat) :=
  match numChildren e, children e with
  | O, _ => mret []
  | S O, COne c => mret [c]
  | S (S _), CBlocks bs =>
      let l := concat (map block_events bs) in
      _ ← check (bool_decide (length l = numChildren e));
      mret l
  | _, _ => Fault OutOfRange (* the other member of the union *)
  end.

(** The pointer writes of [addChild]. *)
Definition push_child (ch : Children) (nc : nat) (c : nat) : outcome (Children * nat) :=
  match nc, ch with
  | O, _ => mret (COne c, 1%nat)
  | S O, COne first =>
      b ← wr new_block 0 (Some first);
      b ← wr b 1 (Some c);
      mret (CBlocks [b], 2%nat)
  | S (S _), CBlocks bs =>
      let idx := (nc mod TIMING_BLOCK_EVENTS)%nat in
      let bs := if bool_decide (idx = 0)%nat then new_block :: bs else bs in
      match bs with
      | [] => Fault OutOfRange
      | b :: rest => b ← wr b idx (Some c); mret (CBlocks (b :: rest), S nc)
      end
  | _, _ => Fault OutOfRange
  end.

(** Recursion over the event graph: fuelled here, by depth. *)
Fixpoint propagateDomain (fuel : nat) (i : nat) (dom : Z) : ST Heap unit :=
  match fuel with
  | O => throw OutOfFuel
  | S fuel' =>
      e ← ev_get i;
      _ ← assertS (domain e =? -1);
      _ ← ev_set i (with_domain e dom);
      l ← lift (visitChildren e);
      for_each (fun c =>
        ce ← ev_get c;
        if domain ce =? -1 then propagateDomain fuel' c dom else mret tt) l
  end.

(** [this->addChild(childEv, evRec)]; returns [childEv]. *)
Definition addChild (fuel : nat) (this childEv : nat) : ST Heap nat :=
  e ← ev_get this;
  _ ← assertS (bool_decide (state e = EV_NONE) || bool_decide (state e = EV_QUEUED));
  ce ← ev_get childEv;
  _ ← assertS (bool_decide (state ce = EV_NONE));
  '(ch, nc) ← lift (push_child (children e) (numChildren e) childEv);
  _ ← ev_set this (with_children e ch nc);
  ce ← ev_get childEv;
  _ ← (if negb (domain e =? -1) && (domain ce =? -1)
       then propagateDomain fuel childEv (domain e) else mret tt);
  ce ← ev_get childEv;
  _ ← ev_set childEv (with_parents ce (numParents ce +32 1));
  mret childEv.

(** State transitions driven by the objects an event belongs to. *)
Definition hold (i : nat) : ST Heap unit :=
  e ← ev_get i;
  _ ← assertS (bool_decide (state e = EV_RUNNING));
  ev_set i (with_state e EV_HELD).

Definition release (i : nat) : ST Heap unit :=
  e ← ev_get i;
  _ ← assertS (bool_decide (state e = EV_HELD));
  ev_set i (with_state e EV_RUNNING).

Definition setRunning (i : nat) : ST Heap unit :=
  e ← ev_get i;
  _ ← assertS (bool_decide (state e = EV_NONE));
  ev_set i (with_state e EV_RUNNING).

(** ** Timing records: the single-record mailbox of a core's [EventRecorder] *)

Record TimingRecord := mkTR {
  tr_addr : Z; reqCycle : Z; respCycle : Z; tr_type : AccessType;
  startEvent : nat; endEvent : option nat
}.

(** [None]: the record is invalid ([startEvent] null). *)
Record EventRecorder := mkRec {
  tr : option TimingRecord; recSrcId : nat;
  lastGapCycles : Z; lastStartSlack : Z
}.

Definition pushRecord (r : EventRecorder) (t : TimingRecord) : outcome EventRecorder :=
  match tr r with
  | Some _ => Fault AssertFailed
  | None => mret (mkRec (Some t) (recSrcId r) (lastGapCycles r) (lastStartSlack r))
  end.

Definition popRecord (r : EventRecorder) : option TimingRecord * EventRecorder :=
  (tr r, mkRec None (recSrcId r) (lastGapCycles r) (lastStartSlack r)).

Definition hasRecord (r : EventRecorder) : bool := match tr r with Some _ => true | None => false end.

Definition getSlack (r : EventRecorder) (origStartCycle : Z) : Z := origStartCycle +64 lastStartSlack r.
Definition getGapCycles (r : EventRecorder) : Z := lastGapCycles r.
Definition setGapCycles (r : EventRecorder) (gapCycles : Z) : EventRecorder :=
  mkRec (tr r) (recSrcId r) gapCycles (lastStartSlack r).
Definition setStartSlack (r : EventRecorder) (startSlack : Z) : EventRecorder :=
  mkRec (tr r) (recSrcId r) (lastGapCycles r) startSlack.

(** ** Correctness of the child lists *)

Module TimingEventSpec.

(** A block with [l] in its first slots. *)
Definition block_of (l : list nat) : Block := map Some l ++ replicate (3 - length l) None.

(** [rep ch n l]: the union holds the children [l], in visiting order. *)
Inductive rep : Children -> nat -> list nat -> Prop :=
  | rep_null ch : rep ch 0 []
  | rep_one c : rep (COne c) 1 [c]
  | rep_blocks l ls n : (1 <= length l <= 3)%nat -> Forall (fun l => length l = 3%nat) ls ->
      n = (length l + 3 * length ls)%nat -> (2 <= n)%nat ->
      rep (CBlocks (block_of l :: map block_of ls)) n (l ++ concat ls).

Lemma block_events_of l : block_events (block_of l) = l.
Proof.
  unfold block_of. generalize (3 - length l)%nat as k. intros k.
  induction l as [|x l IH]; cbn; [by destruct k|]. by rewrite IH.
Qed.

Lemma block_of_push l c : (length l < 3)%nat ->
  wr (block_of l) (length l) (Some c) = Ok (block_of (l ++ [c])).
Proof. destruct l as [|a [|b [|d l]]]; cbn; intros; try lia; reflexivity. Qed.

Lemma length_concat3 (ls : list (list nat)) : Forall (fun l => length l = 3%nat) ls ->
  length (concat ls) = (3 * length ls)%nat.
Proof. induction 1 as [|l ls H _ IH]; cbn; [done|]. rewrite length_app. lia. Qed.

Lemma rep_length ch n l : rep ch n l -> length l = n.
Proof. destruct 1 as [| |l ls n Hl Hls -> _]; [done|done|]. rewrite length_app, length_concat3 by done. lia. Qed.

Lemma visit_rep e l : rep (children e) (numChildren e) l -> visitChildren e = Ok l.
Proof.
  intros H. pose proof (rep_length _ _ _ H) as Hlen. unfold visitChildren.
  destruct H as [| |l ls n Hl Hls -> Hn]; [done|done|].
  assert (concat (map block_events (block_of l :: map block_of ls)) = l ++ concat ls) as E.
  { cbn [map concat]. rewrite block_events_of. f_equal. rewrite map_map.
    f_equal. rewrite <- (map_id ls) at 2. apply map_ext, block_events_of. }
  rewrite E. destruct (length l + 3 * length ls)%nat as [|[|k]]; [lia|lia|].
  rewrite bool_decide_eq_true_2 by done. done.
Qed.

Lemma push_rep ch n l c : rep ch n l ->
  exists ch' l', push_child ch n c = Ok (ch', S n) /\ rep ch' (S n) l' /\ l' ≡ₚ c :: l.
Proof.
  destruct 1 as [ch|c0|l ls n Hl Hls -> Hn].
  - exists (COne c), [c]. split; [done|]. split; [constructor|done].
  - exists (CBlocks [block_of [c0; c]]), [c0; c]. split; [done|].
    split; [|apply Permutation_swap].
    apply (rep_blocks [c0; c] [] 2); cbn; [lia|constructor|lia|lia].
  - set (n := (length l + 3 * length ls)%nat).
    assert (forall b rest, push_child (CBlocks (b :: rest)) n c =
      match (if bool_decide (n mod 3 = 0)%nat then new_block :: b :: rest else b :: rest) with
      | [] => Fault OutOfRange
      | b :: rest => b ← wr b (n mod 3)%nat (Some c); mret (CBlocks (b :: rest), S n)
      end) as Eq by (intros; unfold push_child; assert (2 <= n)%nat by exact Hn; clearbody n; destruct n as [|[|k]]; [lia|lia|done]).
    destruct (decide (length l = 3)%nat) as [H3|H3].
    + assert (n mod 3 = 0)%nat as Em.
      { unfold n. rewrite H3. replace (3 + 3 * length ls)%nat with (S (length ls) * 3)%nat by lia.
        apply Nat.Div0.mod_mul. }
      rewrite Eq, bool_decide_eq_true_2, Em by done. exists (CBlocks (block_of [c] :: map block_of (l :: ls))), (c :: l ++ concat ls).
      split; [done|]. split; [|done].
      apply (rep_blocks [c] (l :: ls) (S n)); cbn [length]; [lia|by constructor|unfold n; lia|lia].
    + assert (n mod 3 = length l)%nat as Em.
      { unfold n. rewrite Nat.mul_comm, Nat.Div0.mod_add. apply Nat.mod_small. lia. }
      rewrite Eq, bool_decide_eq_false_2, Em by lia.
      exists (CBlocks (block_of (l ++ [c]) :: map block_of ls)), ((l ++ [c]) ++ concat ls).
      rewrite block_of_push by lia. split; [done|]. split.
      * apply (rep_blocks (l ++ [c]) ls (S n)); rewrite ?length_app; cbn [length]; [lia|done|unfold n; lia|lia].
      * rewrite <- app_assoc. cbn. by rewrite <- Permutation_middle.
Qed.

(** *** Heap rules *)

Lemma wp_ev_get i e h (Q : Event -> Heap -> Prop) :
  events h !! i = Some e -> Q e h -> wp (ev_get i) h Q.
Proof. unfold wp, ev_get. intros ->. auto. Qed.

Lemma wp_ev_set i e e' h (Q : unit -> Heap -> Prop) :
  events h !! i = Some e -> Q tt (mkHeap (<[i := e']> (events h)) (nextEv h)) -> wp (ev_set i e') h Q.
Proof. unfold wp, ev_set. intros ->. auto. Qed.

Ltac wp_events := repeat first
  [ apply wp_bind
  | eapply wp_ev_get; [eassumption|]
  | apply wp_ret
  | eapply wp_lift; [eassumption|]
  | apply wp_assert; [done|] ].

(** *** Domain propagation *)

(** Every child pointer of a live event is a live event. *)
Definition heap_ok (h : Heap) : Prop := forall i e, events h !! i = Some e ->
  exists l, rep (children e) (numChildren e) l /\ forall c, c ∈ l -> is_Some (events h !! c).

Definition kids (h : Heap) (i : nat) : list nat :=
  match events h !! i with
  | Some e => match visitChildren e with Ok l => l | Fault _ => [] end
  | None => []
  end.

Definition dom_at (h : Heap) (i : nat) : option Z := domain <$> events h !! i.

(** [h'] is [h] with some undefined domains set to [d]. *)
Definition dom_ext (d : Z) (h h' : Heap) : Prop :=
  nextEv h' = nextEv h /\
  forall i, events h' !! i = events h !! i \/
    exists e, events h !! i = Some e /\ domain e = -1 /\ events h' !! i = Some (with_domain e d).

(** Where a domain was set, no child is left without one. *)
Definition settled (h h' : Heap) (j : nat) : Prop :=
  dom_at h j = Some (-1) -> dom_at h' j <> Some (-1) ->
  forall c, c ∈ kids h j -> dom_at h' c <> Some (-1).

Definition undom (h : Heap) : gset nat :=
  dom (filter (fun p : nat * Event => domain p.2 = -1) (events h)).

Lemma with_domain_kids e d : children (with_domain e d) = children e /\
  numChildren (with_domain e d) = numChildren e /\ domain (with_domain e d) = d.
Proof. by destruct e. Qed.

Lemma elem_of_undom h i : i ∈ undom h <-> dom_at h i = Some (-1).
Proof.
  unfold undom, dom_at. rewrite elem_of_dom. split.
  - intros [e [He Hd]%map_lookup_filter_Some]. rewrite He. cbn in *. by rewrite Hd.
  - intros Hd. destruct (events h !! i) as [e|] eqn:E; [|done]. cbn in Hd. exists e.
    apply map_lookup_filter_Some. split; [done|]. cbn. congruence.
Qed.

Lemma dom_ext_refl d h : dom_ext d h h.
Proof. split; [done|]. intros i. by left. Qed.

Lemma dom_ext_trans d h1 h2 h3 : d <> -1 -> dom_ext d h1 h2 -> dom_ext d h2 h3 -> dom_ext d h1 h3.
Proof.
  intros Hd [E1 H1] [E2 H2]. split; [congruence|]. intros i.
  destruct (H2 i) as [E|(e & He & Hde & E)]; destruct (H1 i) as [E'|(e' & He' & Hde' & E')];
    rewrite ?E, ?E'.
  - by left.
  - right. by exists e'.
  - right. exists e. by rewrite <- E'.
  - rewrite E' in He. injection He as <-. by destruct (with_domain_kids e' d) as (_ & _ & Hx); rewrite Hx in Hde.
Qed.

Lemma dom_ext_live d h h' i : dom_ext d h h' -> is_Some (events h !! i) -> is_Some (events h' !! i).
Proof. intros [_ H] Hi. destruct (H i) as [->|(e & _ & _ & ->)]; [done|by eexists]. Qed.

Lemma dom_ext_ok d h h' : dom_ext d h h' -> heap_ok h -> heap_ok h'.
Proof.
  intros Hx Hok i e' He'. assert (exists e, events h !! i = Some e /\ children e' = children e /\
      numChildren e' = numChildren e) as (e & He & E1 & E2).
  { destruct (proj2 Hx i) as [E|(e & He & _ & E)].
    - exists e'. by rewrite <- E.
    - exists e. rewrite E in He'. injection He' as <-. by destruct (with_domain_kids e d) as (-> & -> & _). }
  destruct (Hok i e He) as (l & Hl & Hlive). exists l. rewrite E1, E2. split; [done|].
  intros c Hc. eapply dom_ext_live; eauto.
Qed.

Lemma dom_ext_kids d h h' j : dom_ext d h h' -> kids h' j = kids h j.
Proof.
  intros [_ H]. unfold kids. destruct (H j) as [->|(e & -> & _ & ->)]; [done|].
  unfold visitChildren. by destruct (with_domain_kids e d) as (-> & -> & _).
Qed.

Lemma dom_ext_kept d h h' i : d <> -1 -> dom_ext d h h' -> dom_at h i <> Some (-1) -> dom_at h' i <> Some (-1).
Proof.
  intros Hd [_ H] Hi. unfold dom_at in *. destruct (H i) as [->|(e & He & Hde & ->)]; [done|].
  cbn. destruct (with_domain_kids e d) as (_ & _ & ->). congruence.
Qed.

Lemma dom_ext_undom d h h' : d <> -1 -> dom_ext d h h' -> undom h' ⊆ undom h.
Proof.
  intros Hd Hx i. rewrite !elem_of_undom. intros Hi.
  destruct (decide (dom_at h i = Some (-1))) as [|Hn]; [done|]. by apply (dom_ext_kept d h h') in Hn.
Qed.

Lemma settled_trans d h1 h2 h3 j : d <> -1 -> dom_ext d h1 h2 -> dom_ext d h2 h3 ->
  settled h1 h2 j -> settled h2 h3 j -> settled h1 h3 j.
Proof.
  intros Hd H12 H23 S1 S2 Hj1 Hj3 c Hc. destruct (decide (dom_at h2 j = Some (-1))) as [Hj2|Hj2].
  - apply S2; [done|done|]. by rewrite (dom_ext_kids d h1 h2).
  - apply (dom_ext_kept d h2 h3); [done|done|]. by apply S1.
Qed.

Lemma settled_refl h j : settled h h j.
Proof. intros H1 H2. done. Qed.

Lemma set_domain_ext h i e d : events h !! i = Some e -> domain e = -1 ->
  dom_ext d h (mkHeap (<[i := with_domain e d]> (events h)) (nextEv h)).
Proof.
  intros He Hd. split; [done|]. intros j. cbn [events]. destruct (decide (i = j)) as [<-|Hne].
  - right. exists e. by rewrite lookup_insert_eq.
  - left. by rewrite lookup_insert_ne.
Qed.

(** Propagation terminates: each visit defines one more domain, so the number of
    events without one is enough fuel, whatever the shape of the graph. *)
Lemma propagateDomain_ok d fuel : d <> -1 -> forall h i, heap_ok h -> dom_at h i = Some (-1) ->
  (size (undom h) <= fuel)%nat ->
  wp (propagateDomain fuel i d) h (fun _ h' =>
    dom_ext d h h' /\ dom_at h' i = Some d /\ forall j, settled h h' j).
Proof.
  intros Hd. induction fuel as [|fuel IH]; intros h i Hok Hi Hf.
  { exfalso. apply elem_of_undom in Hi. assert (size (undom h) <> 0)%nat; [|lia].
    rewrite size_non_empty_iff. set_solver. }
  cbn [propagateDomain]. unfold dom_at in Hi. destruct (events h !! i) as [e|] eqn:He; [|done].
  injection Hi as Hde. destruct (Hok i e He) as (l & Hl & Hlive). wp_events.
  apply wp_assert; [by rewrite Hde|]. apply wp_bind. eapply wp_ev_set; [done|]. pose proof (set_domain_ext h i e d He Hde) as H01.
  set (h1 := mkHeap (<[i := with_domain e d]> (events h)) (nextEv h)) in *.
  apply wp_bind. eapply wp_lift; [by apply visit_rep|].
  assert (dom_at h1 i = Some d) as Hi1.
  { unfold dom_at, h1. cbn [events]. rewrite lookup_insert_eq. cbn. by destruct (with_domain_kids e d) as (_ & _ & ->). }
  assert (kids h i = l) as Hk by (unfold kids; rewrite He; by rewrite (visit_rep e l)).
  assert (size (undom h1) <= fuel)%nat as Hf1.
  { assert (undom h1 ⊂ undom h) as Hss; [|apply subset_size in Hss; lia].
    split; [by eapply dom_ext_undom|]. intros Hsub. apply (Hd). specialize (Hsub i).
    rewrite !elem_of_undom in Hsub. unfold dom_at at 1 in Hsub. rewrite He in Hsub. cbn in Hsub.
    rewrite Hde, Hi1 in Hsub. by injection (Hsub eq_refl). }
  eapply wp_mono; [apply (wp_for_each _ l h1 (fun done h' => dom_ext d h1 h' /\
    (forall j, settled h1 h' j) /\ forall c, c ∈ done -> dom_at h' c <> Some (-1)))|].
  - split; [apply dom_ext_refl|]. split; [intros j; apply settled_refl|]. intros c Hc. by apply elem_of_nil in Hc.
  - intros pre c rest h2 El (H12 & Hs2 & Hpre).
    assert (is_Some (events h2 !! c)) as [ce Hce].
    { apply (dom_ext_live d h1); [done|]. apply (dom_ext_live d h); [done|]. apply Hlive. rewrite El. set_solver. }
    assert (dom_at h2 c = Some (domain ce)) as Hdc by (unfold dom_at; by rewrite Hce).
    wp_events. destruct (Z.eqb_spec (domain ce) (-1)) as [E|E].
    + eapply wp_mono; [apply (IH h2 c)|].
      * eapply dom_ext_ok; [done|]. by eapply dom_ext_ok.
      * congruence.
      * etrans; [apply subseteq_size, (dom_ext_undom d h1); done|done].
      * intros _ h3 (H23 & Hc3 & Hs3). split; [by eapply dom_ext_trans|].
        split; [intros j; by eapply settled_trans|]. intros c' [Hc'|Hc']%elem_of_app.
        -- apply (dom_ext_kept d h2 h3); [done|done|]. by apply Hpre.
        -- apply list_elem_of_singleton in Hc'. subst c'. rewrite Hc3. congruence.
    + apply wp_ret. split; [done|]. split; [done|]. intros c' [Hc'|Hc']%elem_of_app; [by apply Hpre|].
      apply list_elem_of_singleton in Hc'. subst c'. rewrite Hdc. congruence.
  - intros _ h2 (H12 & Hs2 & Hall). split; [by eapply dom_ext_trans|]. split.
    + unfold dom_at in *. destruct (proj2 H12 i) as [->|(e1 & He1 & Hde1 & _)]; [done|].
      rewrite He1 in Hi1. injection Hi1 as Hi1. congruence.
    + intros j. destruct (decide (j = i)) as [->|Hj].
      * intros _ _ c. rewrite Hk. apply Hall.
      * apply (settled_trans d h h1 h2); try done. intros Hj0 Hj1. exfalso. apply Hj1.
        unfold dom_at, h1 in *. cbn [events]. by rewrite lookup_insert_ne.
Qed.

(** *** Linking a child *)

Definition ev_at (h : Heap) (i : nat) (P : Event -> Prop) : Prop :=
  exists e, events h !! i = Some e /\ P e.

Definition addable (e : Event) : Prop := state e = EV_NONE \/ state e = EV_QUEUED.

Lemma with_children_fields e ch n : children (with_children e ch n) = ch /\
  numChildren (with_children e ch n) = n /\ domain (with_children e ch n) = domain e.
Proof. by destruct e. Qed.

Lemma with_parents_fields e n : children (with_parents e n) = children e /\
  numChildren (with_parents e n) = numChildren e /\ domain (with_parents e n) = domain e /\
  numParents (with_parents e n) = n.
Proof. by destruct e. Qed.

(** Writing an event whose children stay live keeps the heap well formed. *)
Lemma heap_ok_set h i e' l : heap_ok h -> is_Some (events h !! i) ->
  rep (children e') (numChildren e') l -> (forall c, c ∈ l -> is_Some (events h !! c)) ->
  heap_ok (mkHeap (<[i := e']> (events h)) (nextEv h)).
Proof.
  intros Hok Hi Hl Hlive. assert (forall c, is_Some (events h !! c) -> is_Some (<[i:=e']> (events h) !! c)) as Hm.
  { intros c Hc. destruct (decide (i = c)) as [<-|Hne]; [by rewrite lookup_insert_eq|by rewrite lookup_insert_ne]. }
  intros j e. cbn [events]. destruct (decide (i = j)) as [<-|Hne].
  - rewrite lookup_insert_eq. intros [= <-]. exists l. split; [done|]. intros c Hc. by apply Hm, Hlive.
  - rewrite lookup_insert_ne by done. intros He. destruct (Hok j e He) as (l' & Hl' & Hlive').
    exists l'. split; [done|]. intros c Hc. by apply Hm, Hlive'.
Qed.

Lemma kids_set_ne h i e' j : i <> j -> kids (mkHeap (<[i := e']> (events h)) (nextEv h)) j = kids h j.
Proof. intros Hne. unfold kids. cbn [events]. by rewrite lookup_insert_ne. Qed.

Lemma kids_set h i e' l : rep (children e') (numChildren e') l ->
  kids (mkHeap (<[i := e']> (events h)) (nextEv h)) i = l.
Proof. intros Hl. unfold kids. cbn [events]. rewrite lookup_insert_eq. by rewrite (visit_rep e' l). Qed.

Lemma kids_rep h i e l : events h !! i = Some e -> rep (children e) (numChildren e) l -> kids h i = l.
Proof. intros He Hl. unfold kids. rewrite He. by rewrite (visit_rep e l). Qed.

(** The last part of [addChild]: domains, then the child's parent count. *)
Lemma link_tail fuel h child d : heap_ok h -> is_Some (events h !! child) -> (size (undom h) <= fuel)%nat ->
  wp (ce ← ev_get child;
      _ ← (if negb (d =? -1) && (domain ce =? -1) then propagateDomain fuel child d else mret tt);
      ce ← ev_get child;
      _ ← ev_set child (with_parents ce (numParents ce +32 1));
      mret child) h
    (fun r h' => r = child /\ heap_ok h' /\ (forall j, kids h' j = kids h j) /\
      (d <> -1 -> dom_at h' child <> Some (-1)) /\ (forall j, settled h h' j)).
Proof.
  intros Hok [ce Hce] Hf. wp_events.
  assert (wp (if negb (d =? -1) && (domain ce =? -1) then propagateDomain fuel child d else mret tt) h
    (fun _ h1 => heap_ok h1 /\ is_Some (events h1 !! child) /\ (forall j, kids h1 j = kids h j) /\
      (d <> -1 -> dom_at h1 child <> Some (-1)) /\ (forall j, settled h h1 j))) as Hprop.
  { destruct (negb (d =? -1) && (domain ce =? -1)) eqn:E.
    - assert (d <> -1 /\ domain ce = -1) as [Hd Hde] by lia.
      eapply wp_mono; [apply (propagateDomain_ok d fuel Hd h child Hok)|].
      + unfold dom_at. rewrite Hce. cbn. congruence.
      + done.
      + intros _ h1 (Hx & Hc & Hs). split; [by eapply dom_ext_ok|].
        split; [eapply dom_ext_live; [done|by rewrite Hce]|]. split; [intros j; by eapply dom_ext_kids|].
        split; [|done]. intros _. rewrite Hc. congruence.
    - apply wp_ret. split; [done|]. split; [by rewrite Hce|]. split; [done|]. split; [|intros j; apply settled_refl].
      intros Hd. unfold dom_at. rewrite Hce. cbn. intros [= Hx]. lia. }
  eapply wp_mono; [exact Hprop|]. intros _ h1 (Hok1 & [c1 Hc1] & Hk & Hdom & Hs).
  wp_events. eapply wp_ev_set; [done|]. apply wp_ret. split; [done|].
  destruct (Hok1 _ _ Hc1) as (l & Hl & Hlive). destruct (with_parents_fields c1 (numParents c1 +32 1)) as (E1 & E2 & E3 & _).
  assert (forall j, dom_at (mkHeap (<[child:=with_parents c1 (numParents c1 +32 1)]> (events h1)) (nextEv h1)) j = dom_at h1 j) as Hd1.
  { intros j. unfold dom_at. cbn [events]. destruct (decide (child = j)) as [<-|Hne].
    - rewrite lookup_insert_eq, Hc1. cbn. by rewrite E3.
    - by rewrite lookup_insert_ne. }
  split; [apply (heap_ok_set _ _ _ l); rewrite ?E1, ?E2, ?Hc1; done|].
  split; [|split; [by rewrite Hd1|]].
  - intros j. rewrite <- Hk. destruct (decide (child = j)) as [<-|Hne]; [|by apply kids_set_ne].
    rewrite (kids_rep h1 child c1 l) by done. apply kids_set. by rewrite E1, E2.
  - intros j Hj0. rewrite Hd1. intros Hj1 c Hc. rewrite Hd1. by apply (Hs j).
Qed.

End TimingEventSpec.

Module TimingEventProps.
Import TimingEventSpec.

(** C29: [addChild] on an event not yet run, with a fresh child, makes the child
    one more of the events its completion will visit (whatever the layout of the
    child list: inline pointer, first block, full block), leaves every other
    child list alone, and, when the parent has a domain, leaves no event
    without a domain below an event that received one; the recursion ends with
    as much fuel as there are events without a domain. *)
Theorem addChild_links (fuel : nat) (h : Heap) (this childEv : nat) :
  heap_ok h -> this <> childEv -> ev_at h this addable ->
  ev_at h childEv (fun e => state e = EV_NONE) -> (size (undom h) <= fuel)%nat ->
  wp (addChild fuel this childEv) h (fun r h' =>
    r = childEv /\ heap_ok h' /\ kids h' this ≡ₚ childEv :: kids h this /\
    (forall j, j <> this -> kids h' j = kids h j) /\
    (dom_at h this <> Some (-1) -> dom_at h' childEv <> Some (-1)) /\
    (forall j, j <> this -> settled h h' j)).
Proof.
  intros Hok Hne (e & He & Hst) (ce & Hce & Hcst) Hf. unfold addChild.
  destruct (Hok _ _ He) as (l & Hl & Hlive). destruct (push_rep _ _ _ childEv Hl) as (ch & l' & Hpush & Hl' & Hp).
  wp_events. apply wp_assert; [by destruct Hst as [-> | ->]|].
  wp_events. apply wp_assert; [by rewrite bool_decide_eq_true_2|].
  apply wp_bind. eapply wp_lift; [done|]. cbv beta iota. apply wp_bind. eapply wp_ev_set; [done|].
  set (h1 := mkHeap (<[this := with_children e ch (S (numChildren e))]> (events h)) (nextEv h)).
  destruct (with_children_fields e ch (S (numChildren e))) as (E1 & E2 & E3).
  assert (is_Some (events h1 !! childEv)) as Hc1 by (unfold h1; cbn [events]; by rewrite lookup_insert_ne, Hce).
  assert (heap_ok h1) as Hok1.
  { apply (heap_ok_set h this _ l'); [done|by rewrite He|by rewrite E1, E2|].
    intros c. rewrite Hp. intros [-> | Hc]%elem_of_cons; [by rewrite Hce|by apply Hlive]. }
  assert (forall j, dom_at h1 j = dom_at h j) as Hd1.
  { intros j. unfold dom_at, h1. cbn [events]. destruct (decide (this = j)) as [<-|Hj].
    - rewrite lookup_insert_eq, He. cbn. by rewrite E3.
    - by rewrite lookup_insert_ne. }
  assert (undom h1 = undom h) as Hu by (apply set_eq; intros j; by rewrite !elem_of_undom, Hd1).
  eapply wp_mono; [apply (link_tail fuel h1 childEv (domain e) Hok1 Hc1); by rewrite Hu|].
  intros r h2 (-> & Hok2 & Hk & Hdom & Hs). split; [done|]. split; [done|].
  rewrite Hk. unfold h1. rewrite (kids_set h this _ l') by (by rewrite E1, E2).
  rewrite (kids_rep h this e l) by done. split; [done|]. split; [|split].
  - intros j Hj. rewrite Hk. by apply kids_set_ne.
  - intros Hd. apply Hdom. intros E. apply Hd. unfold dom_at. rewrite He. cbn. by rewrite E.
  - intros j Hj Hj0 Hj1 c Hc. apply (Hs j); [by rewrite Hd1|done|].
    unfold h1. by rewrite kids_set_ne.
Qed.

(** A parent with three children in domain 0, a fresh child without a domain
    that itself has a child without a domain. *)
Definition demo_ev (ch : Children) (n : nat) (d : Z) : Event :=
  mkEvent (KOther 0) 0 EV_NONE 0 noCycle ch d n 0 1 2.

Definition demo_heap : Heap := mkHeap
  (list_to_map [(0%nat, demo_ev (CBlocks [block_of [1; 2; 3]%nat]) 3 0); (1%nat, demo_ev CNull 0 0);
                (2%nat, demo_ev CNull 0 0); (3%nat, demo_ev CNull 0 0);
                (4%nat, demo_ev (COne 5%nat) 1 (-1)); (5%nat, demo_ev CNull 0 (-1))]) 6.

Lemma demo_heap_ok : heap_ok demo_heap.
Proof.
  intros i e H. unfold demo_heap in H. cbn [events] in H. apply elem_of_list_to_map_2 in H.
  repeat (apply elem_of_cons in H as [[= -> ->]|H]); [..|by apply elem_of_nil in H].
  - exists ([1; 2; 3]%nat ++ concat []). split; [apply (rep_blocks [1;2;3]%nat [] 3); cbn; [lia|constructor|lia|lia]|].
    cbn [app concat]. intros c Hc. assert (c = 1 \/ c = 2 \/ c = 3)%nat as [-> | [-> | ->]] by set_solver; by eexists.
  - exists []. split; [constructor|]. intros c Hc. by apply elem_of_nil in Hc.
  - exists []. split; [constructor|]. intros c Hc. by apply elem_of_nil in Hc.
  - exists []. split; [constructor|]. intros c Hc. by apply elem_of_nil in Hc.
  - exists [5%nat]. split; [constructor|]. intros c ->%list_elem_of_singleton. by eexists.
  - exists []. split; [constructor|]. intros c Hc. by apply elem_of_nil in Hc.
Qed.

Lemma addChild_links_witness : wp (addChild 6 0 4) demo_heap (fun r h' =>
    r = 4%nat /\ heap_ok h' /\ kids h' 0 ≡ₚ 4%nat :: kids demo_heap 0 /\
    (forall j, j <> 0%nat -> kids h' j = kids demo_heap j) /\
    (dom_at demo_heap 0 <> Some (-1) -> dom_at h' 4 <> Some (-1)) /\
    (forall j, j <> 0%nat -> settled demo_heap h' j)).
Proof.
  apply (addChild_links 6 demo_heap 0 4); [apply demo_heap_ok|done|..].
  - eexists. split; [reflexivity|by left].
  - eexists. split; [reflexivity|done].
  - assert (size (undom demo_heap) = 2%nat) as -> by (vm_compute; reflexivity). lia.
Defined.

End TimingEventProps.
