(* ===== verification/ContentionSim.v ===== *)
(** * The weave phase (src/src/contention_sim.h, contention_sim.cpp, timing_event.cpp)

    The queues of the domains, and what runs on them: enqueueing, the virtual
    functions [parentDone] and [simulate] of the event classes, [done], crossings
    between domains, and the phase loop of a simulation thread.

    Classes of other files ([KOther]) only override [simulate], through the
    parameter [simulate_other]; weave_md1_mem.h's and core_recorder.cpp's are the
    instances [WeaveMemAcc_simulate] and [TimingCore_simulate] below.  The lock of
    a queue ([pqLock]) is released by the function that takes it; phases of the
    bound cores do not overlap in the model, so it is left out. *)

From S2P Require Import Prelude MemHier PrioQueue TimingEvent.
Local Open Scope Z_scope.

(** [DomainData], without the clock. *)
Record DomainData := mkDomain { pq : PQ.t nat; curCycle : Z; prio : Z; queuePrio : Z }.

(** The simulator and what its events reach: the heap, the cores' recorders
    (with their crossing stacks, top first). [lastCrossing] is indexed by source
    core, source domain and destination domain; entries not set are cycle 0. *)
Record Sim := mkSim {
  heap : Heap;
  domains : list DomainData;
  limit : Z; lastLimit : Z; inCSim : bool;
  lastCrossing : gmap (nat * Z * Z) (Z * nat);
  recorders : list EventRecorder; crossingStack : list (list nat);
  globPhaseLength : Z
}.

Definition set_heap (s : Sim) (h : Heap) : Sim :=
  mkSim h (domains s) (limit s) (lastLimit s) (inCSim s) (lastCrossing s) (recorders s) (crossingStack s) (globPhaseLength s).
Definition set_domains (s : Sim) (d : list DomainData) : Sim :=
  mkSim (heap s) d (limit s) (lastLimit s) (inCSim s) (lastCrossing s) (recorders s) (crossingStack s) (globPhaseLength s).
Definition set_lastCrossing (s : Sim) (x : gmap (nat * Z * Z) (Z * nat)) : Sim :=
  mkSim (heap s) (domains s) (limit s) (lastLimit s) (inCSim s) x (recorders s) (crossingStack s) (globPhaseLength s).
Definition set_crossingStack (s : Sim) (x : list (list nat)) : Sim :=
  mkSim (heap s) (domains s) (limit s) (lastLimit s) (inCSim s) (lastCrossing s) (recorders s) x (globPhaseLength s).
Definition set_phase (s : Sim) (lim last : Z) (b : bool) : Sim :=
  mkSim (heap s) (domains s) lim last b (lastCrossing s) (recorders s) (crossingStack s) (globPhaseLength s).

Definition set_pq (d : DomainData) (q : PQ.t nat) : DomainData := mkDomain q (curCycle d) (prio d) (queuePrio d).
Definition set_curCycle (d : DomainData) (c : Z) : DomainData := mkDomain (pq d) c (prio d) (queuePrio d).
Definition set_prio (d : DomainData) (p : Z) : DomainData := mkDomain (pq d) (curCycle d) p (queuePrio d).
Definition set_queuePrio (d : DomainData) (p : Z) : DomainData := mkDomain (pq d) (curCycle d) (prio d) p.

(** Run a computation on the heap. *)
Definition on_heap {X} (m : ST Heap X) : ST Sim X := fun s =>
  match m (heap s) with Ok (x, h) => Ok (x, set_heap s h) | Fault e => Fault e end.

Definition event (i : nat) : ST Sim Event := on_heap (ev_get i).
Definition set_event (i : nat) (e : Event) : ST Sim unit := on_heap (ev_set i e).

(** A domain, by its [int32_t] number. *)
Definition dom_get (d : Z) : ST Sim DomainData :=
  s ← get; if d <? 0 then throw OutOfRange else lift (rd (domains s) (Z.to_nat d)).
Definition dom_put (d : Z) (x : DomainData) : ST Sim unit :=
  s ← get; l ← lift (wr (domains s) (Z.to_nat d) x); put (set_domains s l).

Section csim.
Variable B : nat. (* PQ_BLOCKS *)
Variable pq_fuel : nat. (* blocks the ring may advance over in one dequeue *)

(** ** Queueing *)

Definition enqueue (ev : nat) (cycle : Z) : ST Sim unit :=
  s ← get;
  _ ← assertS (inCSim s);
  _ ← assertS (lastLimit s <=? cycle);
  _ ← assertS (cycle <? lastLimit s +64 u32 (10 * globPhaseLength s) +64 1000000);
  e ← event ev;
  d ← dom_get (domain e);
  _ ← assertS (curCycle d <=? cycle);
  _ ← set_event ev (with_priv e cycle);
  _ ← assertS (numParents e =? 0);
  _ ← assertS (negb (domain e =? -1));
  _ ← assertS (domain e <? Z.of_nat (length (domains s)));
  q ← lift (PQ.enqueue B (pq d) ev cycle);
  dom_put (domain e) (set_pq d q).

Definition enqueueSynced (ev : nat) (cycle : Z) : ST Sim unit :=
  s ← get;
  _ ← assertS (negb (inCSim s));
  e ← event ev;
  _ ← assertS (negb (domain e =? -1));
  _ ← assertS (domain e <? Z.of_nat (length (domains s)));
  _ ← assertS (lastLimit s <=? cycle);
  _ ← assertS (cycle <? lastLimit s +64 u32 (10 * globPhaseLength s) +64 10000);
  _ ← set_event ev (with_priv e cycle);
  _ ← assertS (numParents e =? 0);
  d ← dom_get (domain e);
  q ← lift (PQ.enqueue B (pq d) ev cycle);
  dom_put (domain e) (set_pq d q).

(** [getCurCycle]: the cycle must be non-negative as a signed word. *)
Definition getCurCycle (d : Z) : ST Sim Z :=
  s ← get;
  _ ← assertS (d <? Z.of_nat (length (domains s)));
  x ← dom_get d;
  _ ← assertS (curCycle x <? 2 ^ 63);
  mret (curCycle x).

Definition setPrio (d p : Z) : ST Sim unit := x ← dom_get d; dom_put d (set_prio x p).

(** [TimingEvent::queue] and [requeue]. *)
Definition queue (i : nat) (nextCycle : Z) : ST Sim unit :=
  e ← event i;
  _ ← assertS (bool_decide (state e = EV_NONE) && (numParents e =? 0));
  _ ← set_event i (with_state e EV_QUEUED);
  enqueueSynced i nextCycle.

Definition requeue (i : nat) (nextCycle : Z) : ST Sim unit :=
  e ← event i;
  _ ← assertS (numParents e =? 0);
  _ ← assertS (bool_decide (state e = EV_RUNNING) || bool_decide (state e = EV_HELD));
  _ ← set_event i (with_state e EV_QUEUED);
  enqueue i nextCycle.

(** ** Completion *)

Definition crossing_of (e : Event) : outcome Crossing :=
  match kind e with KCrossing c => mret c | _ => Fault OutOfRange end.

Definition set_done (c : Crossing) (cl : bool) (dc sc : Z) : Crossing :=
  mkCrossing (srcDomain c) cl dc sc (evRec c) (origStartCycle c) (parentEv c) (preSlack c) (postSlack c) (cpe c).

(** [CrossingEvent::markSrcEventDone]. *)
Definition markSrcEventDone (i : nat) (cycle : Z) : ST Sim unit :=
  e ← event i;
  c ← lift (crossing_of e);
  _ ← assertS (negb (called c));
  cur ← getCurCycle (srcDomain c);
  _ ← assertS (cur <=? cycle);
  set_event i (with_kind e (KCrossing (set_done c true cycle cur))).

(** [TimingEvent::parentDone]. *)
Definition base_parentDone (i : nat) (startCycle : Z) : ST Sim unit :=
  e ← event i;
  let c := Z.max (cycle e) startCycle in
  _ ← set_event i (with_cycle e c);
  _ ← assertS (negb (numParents e =? 0));
  let e := with_parents (with_cycle e c) (numParents e - 1) in
  _ ← set_event i e;
  if numParents e =? 0 then
    _ ← assertS (bool_decide (state e = EV_NONE));
    _ ← set_event i (with_state e EV_QUEUED);
    enqueue i (c +64 preDelay e)
  else mret tt.

(** [CrossingEvent::parentDone]. *)
Definition crossing_parentDone (i : nat) (startCycle : Z) : ST Sim unit :=
  e ← event i;
  c ← lift (crossing_of e);
  let cyc := Z.max startCycle (minStartCycle e) in
  _ ← whenS (called c && (doneCycle c <? cyc))
        (set_event i (with_kind e (KCrossing (set_done c true cyc (srcDomainCycleAtDone c)))));
  base_parentDone i cyc.

Section done.
Variable done : nat -> Z -> ST Sim unit.

(** [DelayEvent::parentDone] wakes its children directly. *)
Definition delay_parentDone (i : nat) (startCycle : Z) : ST Sim unit :=
  e ← event i;
  let c := Z.max (cycle e) startCycle in
  let e := with_parents (with_cycle e c) (numParents e -32 1) in
  _ ← set_event i e;
  if numParents e =? 0 then
    _ ← set_event i (with_state e EV_RUNNING);
    done i (c +64 preDelay e)
  else mret tt.

(** [CrossingSrcEvent::parentDone]. *)
Definition src_parentDone (i ce : nat) (startCycle : Z) : ST Sim unit :=
  e ← event i;
  _ ← assertS (numParents e =? 1);
  _ ← set_event i (with_parents e 0);
  _ ← assertS (numChildren e =? 0)%nat;
  _ ← markSrcEventDone ce startCycle;
  e ← event i;
  _ ← assertS (bool_decide (state e = EV_NONE));
  _ ← set_event i (with_state e EV_RUNNING);
  done i startCycle.

(** The virtual call. *)
Definition parentDone (i : nat) (startCycle : Z) : ST Sim unit :=
  e ← event i;
  match kind e with
  | KOther _ => base_parentDone i startCycle
  | KDelay => delay_parentDone i startCycle
  | KCrossing _ => crossing_parentDone i startCycle
  | KCrossingSrc ce => src_parentDone i ce startCycle
  end.
End done.

(** [TimingEvent::done]; [fuel] is the depth of the chains of delay events. *)
Fixpoint done (fuel : nat) (i : nat) (doneCycle : Z) : ST Sim unit :=
  match fuel with
  | O => throw OutOfFuel
  | S f =>
      e ← event i;
      _ ← assertS (bool_decide (state e = EV_RUNNING));
      _ ← set_event i (with_state e EV_DONE);
      l ← lift (visitChildren e);
      _ ← for_each (fun c => parentDone (done f) c (doneCycle +64 postDelay e)) l;
      on_heap (freeEvent i)
  end.

(** ** Execution *)

(** The [simulate] of the classes of other files. *)
Variable simulate_other : nat -> nat -> Z -> ST Sim unit.
Variable fuel : nat.

(** [CrossingEvent::simulate]. *)
Definition crossing_simulate (i : nat) (simCycle : Z) : ST Sim unit :=
  e ← event i;
  c ← lift (crossing_of e);
  s ← get;
  requeued ← (if called c then mret false else
    cur ← getCurCycle (srcDomain c);
    let curSrcCycle := cur +64 preSlack c +64 postSlack c in
    r ← lift (rd (recorders s) (evRec c));
    let coreRelCycle := getSlack r (origStartCycle c) +64 postSlack c in
    let nextCycle := Z.max coreRelCycle (Z.max curSrcCycle simCycle) in
    _ ← setPrio (domain e) (if nextCycle =? simCycle then 1 else 2);
    e ← event i;
    _ ← set_event i (with_parents e 0);
    _ ← requeue i nextCycle;
    mret true);
  if (requeued : bool) then mret tt else
  _ ← setPrio (domain e) 0;
  done fuel i (Z.max simCycle (doneCycle c)).

Definition simulate (i : nat) (simCycle : Z) : ST Sim unit :=
  e ← event i;
  match kind e with
  | KOther cls => simulate_other cls i simCycle
  | KDelay | KCrossingSrc _ => throw Panicked
  | KCrossing _ => crossing_simulate i simCycle
  end.

(** [TimingEvent::run]. *)
Definition run (i : nat) (startCycle : Z) : ST Sim unit :=
  e ← event i;
  _ ← assertS (bool_decide (state e = EV_NONE) || bool_decide (state e = EV_QUEUED));
  _ ← set_event i (with_state e EV_RUNNING);
  _ ← assertS (minStartCycle e <=? startCycle);
  simulate i startCycle.

(** A thread with one domain: the loop, then the end of the phase. *)
Fixpoint domain_loop (n : nat) (d : Z) : ST Sim unit :=
  s ← get;
  x ← dom_get d;
  more ← (if PQ.size (pq x) =? 0 then mret false
          else c ← lift (PQ.firstCycle B (pq x)); mret (c <? limit s));
  if (more : bool) then
    match n with
    | O => throw OutOfFuel
    | S n' =>
        '(te, cyc, q) ← lift (PQ.dequeue B pq_fuel (pq x));
        _ ← assertS (curCycle x <=? cyc);
        _ ← dom_put d (set_curCycle (set_pq x q) cyc);
        _ ← run te cyc;
        x ← dom_get d;
        newCycle ← (if PQ.size (pq x) =? 0 then mret (limit s) else lift (PQ.firstCycle B (pq x)));
        _ ← assertS (cyc <=? newCycle);
        _ ← dom_put d (set_curCycle x newCycle);
        domain_loop n' d
    end
  else dom_put d (set_curCycle x (limit s)).

(** A thread with several domains.  [top]: the position in the priority queue,
    given as (queuePrio, domain) pairs, of the element it would pop. *)
Variable top : list (Z * Z) -> nat.

(** [domPq], the two stalled queues (backs first), and [numFinished]. *)
Record Queues := mkQueues { domPq : list (Z * Z); stalled : list Z; nextStalled : list Z; numFinished : nat }.

(** One domain taken from a queue: finished (true), or an event executed by
    [exec]; the domain's new state decides where it goes. *)
Definition dom_step (exec : nat -> Z -> ST Sim unit) (d : Z) : ST Sim bool :=
  s ← get;
  x ← dom_get d;
  fin ← (if PQ.size (pq x) =? 0 then mret true
         else c ← lift (PQ.firstCycle B (pq x)); mret (limit s <? c));
  if (fin : bool) then _ ← dom_put d (set_curCycle x (limit s)); mret true
  else
    '(te, cyc, q) ← lift (PQ.dequeue B pq_fuel (pq x));
    _ ← dom_put d (set_curCycle (set_pq x q) cyc);
    _ ← exec te cyc;
    x ← dom_get d;
    newCycle ← (if PQ.size (pq x) =? 0 then mret (limit s) else lift (PQ.firstCycle B (pq x)));
    _ ← dom_put d (set_queuePrio (set_curCycle x newCycle) newCycle);
    mret false.

(** Running a stalled domain's event skips [run]'s checks. *)
Definition exec_stalled (te : nat) (cyc : Z) : ST Sim unit :=
  e ← event te; _ ← set_event te (with_state e EV_RUNNING); simulate te cyc.

Fixpoint dom_loop (n : nat) (qs : Queues) : ST Sim Queues :=
  match domPq qs with
  | [] => mret qs
  | l =>
      match n with
      | O => throw OutOfFuel
      | S n' =>
          '(_, d) ← lift (rd l (top l));
          let l := delete (top l) l in
          fin ← dom_step run d;
          if (fin : bool) then dom_loop n' (mkQueues l (stalled qs) (nextStalled qs) (S (numFinished qs)))
          else
            x ← dom_get d;
            dom_loop n' (if prio x =? 0 then mkQueues ((queuePrio x, d) :: l) (stalled qs) (nextStalled qs) (numFinished qs)
                         else mkQueues l (d :: stalled qs) (nextStalled qs) (numFinished qs))
      end
  end.

Fixpoint stalled_loop (n : nat) (qs : Queues) : ST Sim Queues :=
  match stalled qs with
  | [] => mret qs
  | d :: l =>
      match n with
      | O => throw OutOfFuel
      | S n' =>
          fin ← dom_step exec_stalled d;
          qs ← (if (fin : bool) then mret (mkQueues (domPq qs) l (nextStalled qs) (S (numFinished qs)))
                else
                  x ← dom_get d;
                  mret (if prio x =? 0 then mkQueues ((queuePrio x, d) :: domPq qs) l (nextStalled qs) (numFinished qs)
                        else mkQueues (domPq qs) l (d :: nextStalled qs) (numFinished qs)));
          match domPq qs with [] => stalled_loop n' qs | _ => mret qs end
      end
  end.

Fixpoint domains_loop (n : nat) (thDomains : nat) (qs : Queues) : ST Sim unit :=
  if bool_decide (thDomains <= numFinished qs)%nat then mret tt else
  match n with
  | O => throw OutOfFuel
  | S n' =>
      qs ← dom_loop n qs;
      qs ← stalled_loop n qs;
      domains_loop n' thDomains
        (match stalled qs with [] => mkQueues (domPq qs) (nextStalled qs) [] (numFinished qs) | _ => qs end)
  end.

(** [simulatePhaseThread] of a thread with domains [firstDomain .. supDomain-1]. *)
Definition simulatePhaseThread (n : nat) (firstDomain supDomain : nat) : ST Sim unit :=
  if ((supDomain - firstDomain) =? 1)%nat then domain_loop n (Z.of_nat firstDomain)
  else
    s ← get;
    ds ← lift (mapM (fun d => x ← rd (domains s) d; mret (queuePrio x, Z.of_nat d)) (seq firstDomain (supDomain - firstDomain)));
    domains_loop n (supDomain - firstDomain) (mkQueues ds [] [] 0).

(** [simulatePhase], between the cores' [cSimStart] and [cSimEnd]; the threads,
    given by their domains, run one after the other. [skipContention]: there
    are no cores to simulate. *)
Definition simulatePhase (skipContention : bool) (n : nat) (threads : list (nat * nat)) (lim : Z) : ST Sim unit :=
  if skipContention then mret tt else
  s ← get;
  _ ← put (set_phase s lim (lastLimit s) (inCSim s));
  _ ← assertS (lastLimit s <=? lim);
  _ ← put (set_phase s lim (lastLimit s) true);
  _ ← for_each (fun t : nat * nat => simulatePhaseThread n t.1 t.2) threads;
  modify (fun s => set_phase s (limit s) (limit s) false).

(** ** Crossings between domains (bound phase) *)

(** Overwrite the [k]-th pointer that [visitChildren] passes. *)
Fixpoint replace_in_blocks (bs : list Block) (k : nat) (c : nat) : list Block :=
  match bs with
  | [] => []
  | b :: bs' =>
      let n := length (block_events b) in
      if (k <? n)%nat then <[k := Some c]> b :: bs' else b :: replace_in_blocks bs' (k - n) c
  end.
Definition replace_child (e : Event) (k : nat) (c : nat) : Event :=
  with_children e (match children e with
    | COne _ => COne c
    | CBlocks bs => CBlocks (replace_in_blocks bs k c)
    | CNull => CNull
    end) (numChildren e).

(** [this->addChild(childEv, evRec)], with fuel for any depth of the heap. *)
Definition link (this childEv : nat) : ST Sim unit :=
  s ← get; _ ← on_heap (addChild (S (nextEv (heap s))) this childEv); mret tt.

Definition enqueueCrossing (ev : nat) (cycle : Z) (srcId : nat) (srcDom dstDom : Z) (evRec : nat) : ST Sim unit :=
  s ← get;
  cs ← lift (rd (crossingStack s) evRec);
  e ← event ev;
  c ← lift (crossing_of e);
  req ← match cs with
    | [] => mret None
    | b :: _ =>
        be ← event b;
        bc ← lift (crossing_of be);
        mret (if (srcDomain bc =? domain e) && (domain be =? srcDomain c) then Some (parentEv bc) else None)
    end;
  match req with
  | Some parent =>
      l ← lift (wr (crossingStack s) evRec (tail cs));
      _ ← put (set_crossingStack s l);
      link parent ev
  | None =>
      l ← lift (wr (crossingStack s) evRec (ev :: cs));
      _ ← put (set_crossingStack s l);
      let '(lcycle, lev) := default (0, 0%nat) (lastCrossing s !! (srcId, srcDom, dstDom)) in
      d ← dom_get srcDom;
      _ ← (if (curCycle d <? lcycle) && (lcycle <=? cycle) then link lev ev
           else _ ← assertS (curCycle d <=? cycle); enqueueSynced ev cycle);
      modify (fun s => set_lastCrossing s (<[(srcId, srcDom, dstDom) := (cycle, ev)]> (lastCrossing s)))
  end.

(** [new (evRec) CrossingEvent(parent, child, _minStartCycle, evRec)]; answers
    the event and its [CrossingSrcEvent]. *)
Definition CrossingEvent_new (parent child : nat) (_minStartCycle : Z) (evRec : nat) : ST Sim (nat * nat) :=
  p ← event parent;
  ch ← event child;
  _ ← assertS (negb (domain p =? domain ch));
  _ ← assertS (0 <=? domain p);
  s ← get;
  r ← lift (rd (recorders s) evRec);
  let preSlack := if postDelay p =? 0 then 1 else postDelay p in
  let minStart := if postDelay p =? 0 then _minStartCycle +64 1 else _minStartCycle in
  let id := nextEv (heap s) in
  let c := mkCrossing (domain p) false 0 0 evRec (minStart -64 getGapCycles r) parent preSlack (preDelay ch) (S id) in
  x ← on_heap (alloc (with_min (TimingEvent_new (KCrossing c) 0 0 (domain ch)) minStart));
  src ← on_heap (alloc (with_parents (TimingEvent_new (KCrossingSrc x) 0 0 (domain p)) 1));
  _ ← link x child;
  _ ← enqueueCrossing x (Z.max (lastLimit s) minStart) (recSrcId r) (domain p) (domain ch) evRec;
  mret (x, src).

Definition handleCrossing (i childEv : nat) (evRec : nat) (unlinkChild : bool) : ST Sim nat :=
  _ ← whenS unlinkChild (
        ch ← event childEv;
        _ ← assertS (negb (numParents ch =? 0));
        set_event childEv (with_parents ch (numParents ch - 1)));
  e ← event i;
  _ ← assertS (negb (minStartCycle e =? noCycle));
  '(_, src) ← CrossingEvent_new i childEv (minStartCycle e +64 postDelay e) evRec;
  mret src.

Fixpoint produceCrossings (depth : nat) (i : nat) (evRec : nat) : ST Sim unit :=
  match depth with
  | O => throw OutOfFuel
  | S f =>
      e ← event i;
      _ ← assertS (negb (domain e =? -1));
      l ← lift (visitChildren e);
      for_each (fun kc : nat * nat =>
        ch ← event kc.2;
        e ← event i;
        _ ← whenS (negb (domain ch =? domain e)) (
              src ← handleCrossing i kc.2 evRec true;
              e ← event i;
              set_event i (replace_child e kc.1 src));
        produceCrossings f kc.2 evRec) (imap pair l)
  end.

End csim.

(** ** Two subclasses *)

(** weave_md1_mem.h: a memory access of fixed latency. *)
Definition WeaveMemAcc_simulate (lat : nat -> Z) (fuel B : nat) (i : nat) (startCycle : Z) : ST Sim unit :=
  done B fuel i (startCycle +64 lat i).

(** core_recorder.cpp: the events of a simple core; the recorder is only told. *)
Definition TimingCore_simulate (fuel B : nat) (i : nat) (startCycle : Z) : ST Sim unit := done B fuel i startCycle.
