(* ===== verification/WeaveSpec.v ===== *)
(** * Correctness of a phase of one domain (ContentionSim)

    The events of a domain form an acyclic graph; an event is queued when its
    last parent is done.  [heap_inv] ties the heap to a
    static graph and the parent counts to the edges from events not yet done,
    [queue_inv] the queue's contents to the events in state [EV_QUEUED].  [done]
    keeps them ([wp_done]), and so does the phase loop ([wp_domain_loop]), which
    ends with every event that was due done. *)

From S2P Require Import Prelude MemHier PrioQueue TimingEvent ContentionSim.
Import TimingEventSpec.
Local Open Scope Z_scope.

(** ** Counting edges *)

Definition count (c : nat) (l : list nat) : nat := length (filter (fun x => x = c) l).

Lemma count_app c l1 l2 : count c (l1 ++ l2) = (count c l1 + count c l2)%nat.
Proof. unfold count. by rewrite filter_app, length_app. Qed.

Lemma count_cons c x l : count c (x :: l) = ((if decide (x = c) then 1 else 0) + count c l)%nat.
Proof. unfold count. rewrite filter_cons. by destruct (decide (x = c)). Qed.

Lemma count_in c l : c ∈ l -> (0 < count c l)%nat.
Proof.
  intros H. apply list_elem_of_split in H as (l1 & l2 & ->). rewrite count_app, count_cons.
  rewrite decide_True by done. lia.
Qed.

Lemma count_none c l : count c l = 0%nat -> c ∉ l.
Proof. intros H Hin. apply count_in in Hin. lia. Qed.

(** The graph: what never changes of the events. *)
Record Graph := mkGraph {
  g_kids : nat -> list nat;
  g_pre : nat -> Z; g_post : nat -> Z; g_min : nat -> Z;
  g_delay : nat -> bool; (* a [DelayEvent] *)
  g_rank : nat -> nat;
  g_lo : nat -> Z; g_hi : nat -> Z (* bounds on when the event is done *)
}.

Section weave.
Variable G : Graph.
Variable slack : Z. (* what [simulate] may add *)
Variable H : Z.     (* all cycles are below *)

(** The event is on its way: its children are not yet, or being, notified. *)
Definition out (e : Event) (i : nat) : list nat := if bool_decide (state e = EV_DONE) then [] else g_kids G i.

Definition edges (c : nat) (m : gmap nat Event) : nat :=
  map_fold (fun i e acc => (count c (out e i) + acc)%nat) 0%nat m.

Lemma edges_insert_new c i e m : m !! i = None -> edges c (<[i := e]> m) = (count c (out e i) + edges c m)%nat.
Proof.
  intros Hi. unfold edges. rewrite map_fold_insert_L; [done| |done]. intros j1 j2 z1 z2 y _ _ _. lia.
Qed.

Lemma edges_delete c i e m : m !! i = Some e -> edges c m = (count c (out e i) + edges c (delete i m))%nat.
Proof.
  intros Hi. rewrite <- (insert_delete_id m i e) at 1 by done. apply edges_insert_new. apply lookup_delete_eq.
Qed.

Lemma edges_insert c i e e' m : m !! i = Some e ->
  (edges c (<[i := e']> m) + count c (out e i) = edges c m + count c (out e' i))%nat.
Proof.
  intros Hi. rewrite (edges_delete c i e m) by done. rewrite (edges_delete c i e' (<[i := e']> m)) by apply lookup_insert_eq.
  rewrite delete_insert_eq. lia.
Qed.

Lemma edges_pos c i e m : m !! i = Some e -> state e <> EV_DONE -> c ∈ g_kids G i -> (0 < edges c m)%nat.
Proof.
  intros Hi Hs Hc. rewrite (edges_delete c i e m) by done. unfold out. rewrite bool_decide_eq_false_2 by done.
  pose proof (count_in _ _ Hc). lia.
Qed.

(** ** The graph is acyclic and its timing bounds are consistent *)
Record graph_ok : Prop := {
  gk_rank i c : c ∈ g_kids G i -> (g_rank G c < g_rank G i)%nat;
  gk_delays i : 0 <= g_pre G i /\ 0 <= g_post G i /\ 0 <= slack;
  gk_lo i c : c ∈ g_kids G i -> g_lo G c <= g_lo G i + g_post G i + g_pre G c;
  gk_hi i c : c ∈ g_kids G i -> g_hi G i + g_post G i + g_pre G c + slack <= g_hi G c;
  gk_min i : g_delay G i = false -> g_min G i <= g_lo G i;
  gk_max i : g_hi G i < H;
  gk_H : H <= PQSpec.maxCycle
}.
Hypothesis GK : graph_ok.

(** An event of the heap is as the graph says. *)
Record agrees (i : nat) (e : Event) : Prop := {
  ag_kids : visitChildren e = Ok (g_kids G i);
  ag_pre : preDelay e = g_pre G i;
  ag_post : postDelay e = g_post G i;
  ag_min : minStartCycle e = g_min G i;
  ag_kind : if g_delay G i then kind e = KDelay else exists cls, kind e = KOther cls;
  ag_domain : domain e = 0
}.

(** [pend]: the children that the events being done still have to notify;
    [active]: those events. *)
Record heap_inv (hp : Heap) (pend active : list nat) : Prop := {
  hi_agree i e : events hp !! i = Some e -> agrees i e;
  hi_live i e : events hp !! i = Some e -> state e <> EV_DONE -> forall c, c ∈ g_kids G i -> is_Some (events hp !! c);
  hi_pend c : c ∈ pend -> is_Some (events hp !! c);
  hi_count c e : events hp !! c = Some e -> numParents e = Z.of_nat (edges c (events hp) + count c pend) /\ numParents e < max32;
  hi_ready i e : events hp !! i = Some e -> state e <> EV_NONE -> numParents e = 0;
  hi_wait i e : events hp !! i = Some e -> state e = EV_NONE -> 0 < numParents e;
  hi_delay i e : events hp !! i = Some e -> state e = EV_QUEUED -> g_delay G i = false;
  hi_active i e : events hp !! i = Some e -> state e <> EV_NONE -> state e <> EV_QUEUED -> i ∈ active;
  hi_cycle i e : events hp !! i = Some e -> state e = EV_NONE -> 0 <= cycle e /\ cycle e + g_pre G i + slack <= g_hi G i
}.

(** ** The heap's steps *)

Notation hput hp i e := (mkHeap (<[i := e]> (events hp)) (nextEv hp)).
Notation hfree hp i := (mkHeap (delete i (events hp)) (nextEv hp)).

Lemma lookup_put hp i e j ej : events (hput hp i e) !! j = Some ej -> j = i /\ ej = e \/ j <> i /\ events hp !! j = Some ej.
Proof. cbn [events]. intros Hj. apply lookup_insert_Some in Hj as [[-> ->]|[? ?]]; auto. Qed.

Lemma put_some hp i e e' j : events hp !! i = Some e -> is_Some (events (hput hp i e') !! j) <-> is_Some (events hp !! j).
Proof.
  intros Hi. cbn [events]. destruct (decide (j = i)) as [->|]; [by rewrite lookup_insert_eq, Hi|by rewrite lookup_insert_ne].
Qed.

(** An event starts to notify its children. *)
Lemma inv_mark_done hp pend act i e : heap_inv hp pend act -> events hp !! i = Some e -> state e = EV_RUNNING ->
  heap_inv (hput hp i (with_state e EV_DONE)) (g_kids G i ++ pend) act.
Proof.
  intros I Hi Hs. pose proof (hi_agree _ _ _ I i e Hi) as Ag.
  assert (forall c, edges c (<[i := with_state e EV_DONE]> (events hp)) + count c (g_kids G i) = edges c (events hp))%nat as Hed.
  { intros c. pose proof (edges_insert c i e (with_state e EV_DONE) (events hp) Hi) as E. unfold out in E.
    rewrite (bool_decide_eq_false_2 (state e = EV_DONE)), bool_decide_eq_true_2 in E by (destruct e; cbn in *; congruence).
    cbn in E. lia. }
  constructor.
  - intros j ej Hj. apply lookup_put in Hj as [[-> ->]|[_ Hj]]; [by destruct Ag, e|by apply (hi_agree _ _ _ I)].
  - intros j ej Hj Hne c Hc. rewrite put_some by done. apply lookup_put in Hj as [[-> ->]|[_ Hj]].
    + by destruct e.
    + by eapply (hi_live _ _ _ I).
  - intros c Hc. rewrite put_some by done. apply elem_of_app in Hc as [Hc|Hc]; [|by apply (hi_pend _ _ _ I)].
    eapply (hi_live _ _ _ I i e); [done|congruence|done].
  - intros c ec Hc. rewrite count_app. specialize (Hed c). cbn [events] in *. apply lookup_put in Hc as [[-> ->]|[_ Hc]].
    + destruct (hi_count _ _ _ I i e Hi) as [H1 H2]. replace (numParents (with_state e EV_DONE)) with (numParents e) by by destruct e. lia.
    + destruct (hi_count _ _ _ I c ec Hc) as [H1 H2]. lia.
  - intros j ej Hj Hne. apply lookup_put in Hj as [[-> ->]|[_ Hj]].
    + replace (numParents (with_state e EV_DONE)) with (numParents e) by by destruct e.
      apply (hi_ready _ _ _ I i e Hi). congruence.
    + by apply (hi_ready _ _ _ I j).
  - intros j ej Hj Hn. apply lookup_put in Hj as [[-> ->]|[_ Hj]]; [by destruct e|by apply (hi_wait _ _ _ I j)].
  - intros j ej Hj Hq. apply lookup_put in Hj as [[-> ->]|[_ Hj]]; [by destruct e|by eapply (hi_delay _ _ _ I)].
  - intros j ej Hj H1 H2. apply lookup_put in Hj as [[-> ->]|[_ Hj]]; [|by eapply (hi_active _ _ _ I)].
    eapply (hi_active _ _ _ I); [done|congruence|congruence].
  - intros j ej Hj Hn. apply lookup_put in Hj as [[-> ->]|[_ Hj]]; [by destruct e|by eapply (hi_cycle _ _ _ I)].
Qed.

(** A child hears from a parent: its cycle goes up, its count down; when that
    was the last one it goes to state [st]. *)
Definition heard (e : Event) (start : Z) : Event := with_parents (with_cycle e (Z.max (cycle e) start)) (numParents e - 1).

Lemma heard_fields e start : state (heard e start) = state e /\ numParents (heard e start) = numParents e - 1 /\
  cycle (heard e start) = Z.max (cycle e) start /\ kind (heard e start) = kind e /\ domain (heard e start) = domain e /\
  preDelay (heard e start) = preDelay e.
Proof. by destruct e. Qed.

Lemma agrees_heard i e start : agrees i e -> agrees i (heard e start).
Proof. intros []. by constructor; destruct e. Qed.

Lemma agrees_state i e st : agrees i e -> agrees i (with_state e st).
Proof. intros []. by constructor; destruct e. Qed.

Lemma pend_waiting hp pend act c e : heap_inv hp (c :: pend) act -> events hp !! c = Some e ->
  state e = EV_NONE /\ 1 <= numParents e < max32.
Proof.
  intros I Hc. destruct (hi_count _ _ _ I c e Hc) as [H1 H2]. rewrite count_cons, decide_True in H1 by done.
  split; [|lia]. destruct (decide (state e = EV_NONE)) as [|Hne]; [done|].
  pose proof (hi_ready _ _ _ I c e Hc Hne). lia.
Qed.

Lemma inv_heard hp pend act act' c e e' start : heap_inv hp (c :: pend) act -> events hp !! c = Some e ->
  agrees c e' -> numParents e' = numParents e - 1 -> cycle e' = Z.max (cycle e) start ->
  0 <= start -> start + g_pre G c + slack <= g_hi G c ->
  state e' <> EV_DONE -> (state e' <> EV_NONE <-> numParents e = 1) -> (state e' = EV_QUEUED -> g_delay G c = false) ->
  act ⊆ act' -> (state e' <> EV_NONE -> state e' <> EV_QUEUED -> c ∈ act') ->
  heap_inv (hput hp c e') pend act'.
Proof.
  intros I Hc Ag' E2 E3 H0 Hst Hd Hlast Hq Hsub Hact.
  destruct (pend_waiting hp pend act c e I Hc) as [Hn Hp].
  assert (forall x, edges x (<[c := e']> (events hp)) = edges x (events hp)) as Hed.
  { intros x. pose proof (edges_insert x c e e' (events hp) Hc) as E. unfold out in E.
    rewrite Hn, !bool_decide_eq_false_2 in E by (done || congruence). lia. }
  constructor.
  - intros j ej Hj. apply lookup_put in Hj as [[-> ->]|[_ Hj]]; [done|by apply (hi_agree _ _ _ I)].
  - intros j ej Hj Hne x Hx. rewrite put_some by done. apply lookup_put in Hj as [[-> ->]|[_ Hj]].
    + eapply (hi_live _ _ _ I c e); [done|congruence|done].
    + by eapply (hi_live _ _ _ I).
  - intros x Hx. rewrite put_some by done. apply (hi_pend _ _ _ I). by right.
  - intros x ex Hx. cbn [events]. rewrite Hed. apply lookup_put in Hx as [[-> ->]|[Hne Hx]].
    + destruct (hi_count _ _ _ I c e Hc) as [H1 H2]. rewrite count_cons, decide_True in H1 by done. lia.
    + destruct (hi_count _ _ _ I x ex Hx) as [H1 H2]. rewrite count_cons, decide_False in H1 by congruence. lia.
  - intros j ej Hj Hne. apply lookup_put in Hj as [[-> ->]|[_ Hj]]; [|by apply (hi_ready _ _ _ I j)].
    rewrite E2. apply Hlast in Hne. lia.
  - intros j ej Hj Hw. apply lookup_put in Hj as [[-> ->]|[_ Hj]]; [|by apply (hi_wait _ _ _ I j)].
    rewrite E2. assert (numParents e <> 1) by (intros E; by apply Hlast in E). lia.
  - intros j ej Hj Hs. apply lookup_put in Hj as [[-> ->]|[_ Hj]]; [by apply Hq|by eapply (hi_delay _ _ _ I)].
  - intros j ej Hj H1 H2. apply lookup_put in Hj as [[-> ->]|[_ Hj]]; [by apply Hact|].
    apply Hsub. by eapply (hi_active _ _ _ I).
  - intros j ej Hj Hs. apply lookup_put in Hj as [[-> ->]|[_ Hj]]; [|by eapply (hi_cycle _ _ _ I)].
    rewrite E3. destruct (hi_cycle _ _ _ I c e Hc Hn). lia.
Qed.

(** A done event is freed. *)
Lemma inv_free hp pend act i e : heap_inv hp pend (i :: act) -> events hp !! i = Some e -> state e = EV_DONE ->
  heap_inv (hfree hp i) pend act.
Proof.
  intros I Hi Hs. destruct (hi_count _ _ _ I i e Hi) as [Hc _]. rewrite (hi_ready _ _ _ I i e Hi) in Hc by congruence.
  assert (forall c, edges c (delete i (events hp)) = edges c (events hp)) as Hed.
  { intros c. rewrite (edges_delete c i e (events hp) Hi). unfold out. by rewrite bool_decide_eq_true_2. }
  assert (forall j ej, events (hfree hp i) !! j = Some ej -> j <> i /\ events hp !! j = Some ej) as Hl.
  { intros j ej Hj. cbn [events] in Hj. by apply lookup_delete_Some in Hj as [? ?]. }
  assert (forall j, j <> i -> is_Some (events hp !! j) -> is_Some (events (hfree hp i) !! j)) as Hk.
  { intros j Hj Hs'. cbn [events]. by rewrite lookup_delete_ne. }
  constructor.
  - intros j ej Hj. apply Hl in Hj as [_ Hj]. by apply (hi_agree _ _ _ I).
  - intros j ej Hj Hne c Hx. apply Hl in Hj as [Hji Hj]. apply Hk; [|by eapply (hi_live _ _ _ I)].
    intros ->. pose proof (edges_pos i j ej (events hp) Hj Hne Hx). lia.
  - intros c Hx. apply Hk; [|by apply (hi_pend _ _ _ I)]. intros ->. pose proof (count_in i pend Hx). lia.
  - intros c ec Hx. apply Hl in Hx as [_ Hx]. cbn [events]. rewrite Hed. by apply (hi_count _ _ _ I).
  - intros j ej Hj. apply Hl in Hj as [_ Hj]. by apply (hi_ready _ _ _ I j).
  - intros j ej Hj. apply Hl in Hj as [_ Hj]. by apply (hi_wait _ _ _ I j).
  - intros j ej Hj. apply Hl in Hj as [_ Hj]. by apply (hi_delay _ _ _ I).
  - intros j ej Hj H1 H2. apply Hl in Hj as [Hji Hj]. pose proof (hi_active _ _ _ I j ej Hj H1 H2) as Hin. set_solver.
  - intros j ej Hj. apply Hl in Hj as [_ Hj]. by apply (hi_cycle _ _ _ I).
Qed.

(** ** The queue's steps *)

Variable h : nat.
Hypothesis h_pos : (0 < h)%nat.
Notation B := (2 * h)%nat.
Variable pq_fuel : nat.

(** The queue [q] of a heap, from cycle [now] on. *)
Record queue_inv (hp : Heap) (q : PQ.t nat) (now : Z) : Prop := {
  qi_wf : PQSpec.wf h q;
  qi_cur : PQ.curBlock q <= now / 64;
  qi_now k i : (k, i) ∈ PQSpec.contents h q -> now <= k;
  qi_event k i : (k, i) ∈ PQSpec.contents h q -> exists e, events hp !! i = Some e /\ state e = EV_QUEUED /\
    g_lo G i <= k /\ k + slack <= g_hi G i;
  qi_nodup : NoDup (map snd (PQSpec.contents h q));
  qi_all i e : events hp !! i = Some e -> state e = EV_QUEUED -> exists k, (k, i) ∈ PQSpec.contents h q
}.

(** Nothing enters or leaves [EV_QUEUED]. *)
Lemma queue_same hp hp' q now : queue_inv hp q now ->
  (forall i e', events hp' !! i = Some e' -> state e' = EV_QUEUED -> exists e, events hp !! i = Some e /\ state e = EV_QUEUED) ->
  (forall i e, events hp !! i = Some e -> state e = EV_QUEUED -> exists e', events hp' !! i = Some e' /\ state e' = EV_QUEUED) ->
  queue_inv hp' q now.
Proof.
  intros [] H1 H2. constructor; try done.
  - intros k i Hk. destruct (qi_event0 k i Hk) as (e & Hi & Hs & Hb). destruct (H2 i e Hi Hs) as (e' & Hi' & Hs').
    by exists e'.
  - intros i e' Hi Hs. destruct (H1 i e' Hi Hs) as (e & Hi' & Hs'). by eapply qi_all0.
Qed.

Lemma queue_put hp q now i e e' : queue_inv hp q now -> events hp !! i = Some e ->
  (state e' = EV_QUEUED <-> state e = EV_QUEUED) -> queue_inv (hput hp i e') q now.
Proof.
  intros Hq Hi Hs. eapply queue_same; [exact Hq|..].
  - intros j ej Hj Hsj. apply lookup_put in Hj as [[-> ->]|[_ Hj]]; [exists e; split; [done|by apply Hs]|by exists ej].
  - intros j ej Hj Hsj. cbn [events]. destruct (decide (j = i)) as [->|Hne].
    + rewrite lookup_insert_eq. exists e'. split; [done|]. apply Hs. congruence.
    + rewrite lookup_insert_ne by done. by exists ej.
Qed.

(** The queue never holds more than the heap's events. *)
Lemma queue_size hp q now : queue_inv hp q now -> PQ.elems q = Z.of_nat (length (PQSpec.contents h q)) /\
  (length (PQSpec.contents h q) <= size (events hp))%nat.
Proof.
  intros Q. split; [apply (PQSpec.wf_elems _ _ (qi_wf _ _ _ Q))|].
  rewrite <- (length_map snd), <- (size_list_to_set (C := gset nat)) by apply (qi_nodup _ _ _ Q).
  rewrite <- size_dom. apply subseteq_size. intros i Hi. apply elem_of_list_to_set, list_elem_of_fmap in Hi as ([k j] & -> & Hk).
  destruct (qi_event _ _ _ Q k j Hk) as (e & Hj & _). apply elem_of_dom. by eexists.
Qed.

(** A waiting event is queued. *)
Lemma queue_add hp q now c e e' k : queue_inv hp q now -> events hp !! c = Some e -> state e <> EV_QUEUED ->
  state e' = EV_QUEUED -> 0 <= now <= k -> k < H -> g_lo G c <= k -> k + slack <= g_hi G c ->
  Z.of_nat (size (events hp)) < max32 ->
  exists q', PQ.enqueue B q c k = Ok q' /\ queue_inv (hput hp c e') q' now /\
    PQSpec.contents h q' ≡ₚ (k, c) :: PQSpec.contents h q.
Proof.
  intros Q Hc Hs Hs' Hk HkH Hlo Hhi Hsz. destruct (queue_size hp q now Q) as [Hel Hlen].
  assert (c ∉ map snd (PQSpec.contents h q)) as Hnot.
  { intros Hin. apply list_elem_of_fmap in Hin as ([k' j] & -> & Hin). destruct (qi_event _ _ _ Q k' j Hin) as (e2 & H1 & H2 & _).
    cbn in Hc. congruence. }
  destruct (PQSpec.enqueue_ok h h_pos q c k) as (q' & E & Hwf & Hp).
  - apply Q.
  - etrans; [apply Q|]. apply Z.div_le_mono; lia.
  - pose proof (gk_H GK). lia.
  - unfold PQ.size. rewrite Hel. rewrite max64_eq, max32_eq in *. lia.
  - exists q'. split; [done|]. split; [|done]. constructor.
    + done.
    + assert (PQ.curBlock q' = PQ.curBlock q) as ->; [|apply Q]. unfold PQ.enqueue in E.
      destruct (check _); [|done]. cbn [mbind outcome_bind] in E. case_match; [|by injection E as <-].
      destruct (PQ.ring_insert _ _ _ _); [|done]. by injection E as <-.
    + intros k' i. rewrite Hp. intros Hin. apply elem_of_cons in Hin as [[= -> ->]|Hin]; [lia|by apply (qi_now _ _ _ Q k' i)].
    + intros k' i. rewrite Hp. intros Hin. apply elem_of_cons in Hin as [[= -> ->]|Hin].
      * exists e'. cbn [events]. by rewrite lookup_insert_eq.
      * destruct (qi_event _ _ _ Q k' i Hin) as (e2 & H1 & H2). exists e2. cbn [events].
        rewrite lookup_insert_ne; [done|]. intros <-. apply Hnot, list_elem_of_fmap. by exists (k', c).
    + rewrite Hp. cbn [map]. apply NoDup_cons. split; [done|apply Q].
    + intros i ei Hi Hsi. setoid_rewrite Hp. apply lookup_put in Hi as [[-> ->]|[_ Hi]]; [exists k; by left|].
      destruct (qi_all _ _ _ Q i ei Hi Hsi) as [k' Hk']. exists k'. by right.
Qed.

(** ** The simulator's steps *)

Record sim_inv (s : Sim) (pend active : list nat) (now : Z) : Prop := {
  si_heap : heap_inv (heap s) pend active;
  si_dom : exists x, domains s = [x] /\ queue_inv (heap s) (pq x) now /\ curCycle x <= now;
  si_csim : inCSim s = true;
  si_last : 0 <= lastLimit s <= now;
  si_far : H <= lastLimit s + 10 * globPhaseLength s + 1000000 /\ 0 <= 10 * globPhaseLength s < max32;
  si_size : Z.of_nat (size (events (heap s))) < max32
}.

Definition queued (s : Sim) (k : Z) (i : nat) : Prop := exists x, domains s = [x] /\ (k, i) ∈ PQSpec.contents h (pq x).
Definition waiting (s : Sim) (i : nat) : Prop := exists e, events (heap s) !! i = Some e /\ state e = EV_NONE.

(** [s'] comes after [s]: events only disappear or leave [EV_NONE], and what is
    queued was queued, for the same cycle, or waiting. *)
Record after (s s' : Sim) : Prop := {
  af_limit : limit s' = limit s /\ lastLimit s' = lastLimit s;
  af_cur : exists x x', domains s = [x] /\ domains s' = [x'] /\ curCycle x' = curCycle x;
  af_live i : is_Some (events (heap s') !! i) -> is_Some (events (heap s) !! i);
  af_none i : waiting s' i -> waiting s i;
  af_done i e : events (heap s) !! i = Some e -> state e = EV_DONE -> events (heap s') !! i = Some e;
  af_queued k i : queued s' k i -> queued s k i \/ waiting s i
}.

Lemma after_refl s x : domains s = [x] -> after s s.
Proof. intros Hx. constructor; [done|by exists x, x|done|done|done|by left]. Qed.

Lemma after_trans s1 s2 s3 : after s1 s2 -> after s2 s3 -> after s1 s3.
Proof.
  intros [L1 C1 V1 N1 D1 Q1] [L2 C2 V2 N2 D2 Q2]. constructor.
  - destruct L1, L2. split; congruence.
  - destruct C1 as (x & x1 & E1 & E2 & E3), C2 as (y & y1 & F1 & F2 & F3). exists x, y1. split; [done|]. split; [done|congruence].
  - auto.
  - auto.
  - auto.
  - intros k i Hk. apply Q2 in Hk as [Hk|Hk]; [by apply Q1|right; by apply N1].
Qed.

Lemma wp_event i e (s : Sim) (Q : Event -> Sim -> Prop) : events (heap s) !! i = Some e -> Q e s -> wp (event i) s Q.
Proof. intros Hi HQ. unfold wp, event, on_heap, ev_get. rewrite Hi. by destruct s. Qed.

Lemma wp_set_event i e e' (s : Sim) (Q : unit -> Sim -> Prop) : events (heap s) !! i = Some e ->
  Q tt (set_heap s (hput (heap s) i e')) -> wp (set_event i e') s Q.
Proof. intros Hi HQ. unfold wp, set_event, on_heap, ev_set. by rewrite Hi. Qed.

Lemma wp_dom_get x (s : Sim) (Q : DomainData -> Sim -> Prop) : domains s = [x] -> Q x s -> wp (dom_get 0) s Q.
Proof. intros Hx HQ. apply wp_bind, wp_get. eapply wp_lift; [by rewrite Hx|done]. Qed.

Lemma wp_dom_put x x' (s : Sim) (Q : unit -> Sim -> Prop) : domains s = [x] -> Q tt (set_domains s [x']) -> wp (dom_put 0 x') s Q.
Proof. intros Hx HQ. apply wp_bind, wp_get, wp_bind. eapply wp_lift; [by rewrite Hx|done]. Qed.

Lemma wp_enqueue s x c e k q (Q : unit -> Sim -> Prop) : events (heap s) !! c = Some e -> domains s = [x] ->
  inCSim s = true -> 0 <= lastLimit s <= k -> k < H ->
  H <= lastLimit s + 10 * globPhaseLength s + 1000000 -> 0 <= 10 * globPhaseLength s < max32 ->
  curCycle x <= k -> numParents e = 0 -> domain e = 0 -> PQ.enqueue B (pq x) c k = Ok q ->
  Q tt (set_domains (set_heap s (hput (heap s) c (with_priv e k))) [set_pq x q]) -> wp (enqueue B c k) s Q.
Proof.
  intros Hc Hx Hin Hl Hk Hfar Hlen Hcur Hp Hd Hq HQ. pose proof (gk_H GK) as HH. unfold PQSpec.maxCycle in HH.
  unfold enqueue. apply wp_bind, wp_get, wp_bind, wp_assert; [done|]. apply wp_bind, wp_assert; [lia|].
  apply wp_bind, wp_assert.
  { rewrite u32_small by lia. rewrite (u64_small (lastLimit s + _)) by (rewrite max64_eq, max32_eq in *; lia).
    rewrite u64_small by (rewrite max64_eq, max32_eq in *; lia). lia. }
  apply wp_bind. eapply wp_event; [done|]. rewrite Hd. apply wp_bind. eapply wp_dom_get; [done|].
  apply wp_bind, wp_assert; [lia|]. apply wp_bind. eapply wp_set_event; [done|].
  apply wp_bind, wp_assert; [lia|]. apply wp_bind, wp_assert; [done|]. apply wp_bind, wp_assert; [by rewrite Hx|].
  apply wp_bind. eapply wp_lift; [done|]. by eapply wp_dom_put.
Qed.

Lemma hput_hput hp i a b : hput (hput hp i a) i b = hput hp i b.
Proof. cbn [events nextEv]. by rewrite insert_insert_eq. Qed.

Lemma hput_size hp i e e' : events hp !! i = Some e -> size (events (hput hp i e')) = size (events hp).
Proof. intros Hi. cbn [events]. rewrite map_size_insert_Some; [done|by eexists]. Qed.

(** A waiting event of the heap is changed, and possibly queued. *)
Lemma after_put s x c e e' q' : domains s = [x] -> events (heap s) !! c = Some e -> state e = EV_NONE ->
  (forall k i, (k, i) ∈ PQSpec.contents h q' -> (k, i) ∈ PQSpec.contents h (pq x) \/ i = c) ->
  after s (set_domains (set_heap s (hput (heap s) c e')) [set_pq x q']).
Proof.
  intros Hx Hc Hn Hq. constructor.
  - done.
  - by exists x, (set_pq x q').
  - intros i. cbn [heap set_domains set_heap]. by rewrite put_some.
  - intros i (ei & Hi & Hs). cbn [heap set_domains set_heap] in Hi. apply lookup_put in Hi as [[-> ->]|[_ Hi]]; [by exists e|by exists ei].
  - intros i ei Hi Hs. cbn [heap set_domains set_heap events]. rewrite lookup_insert_ne; [done|]. intros ->. congruence.
  - intros k i (y & [= <-] & Hk). cbn [pq set_pq] in Hk. destruct (Hq k i Hk) as [Hin| ->]; [left; by exists x|right; by exists e].
Qed.

Lemma set_domains_same s x : domains s = [x] -> set_domains s [set_pq x (pq x)] = s.
Proof. intros Hx. destruct s, x. cbn in *. by subst. Qed.

(** A parent's notification of an event that is not a delay event. *)
Lemma wp_base_parentDone s pend act now c start : sim_inv s (c :: pend) act now -> g_delay G c = false -> 0 <= now <= start ->
  g_lo G c <= start + g_pre G c -> start + g_pre G c + slack <= g_hi G c ->
  wp (base_parentDone B c start) s (fun _ s' => sim_inv s' pend act now /\ after s s').
Proof.
  intros I Hd Hst Hlo Hhi. pose proof I as [HI (x & Hx & Hq & Hcur) Hcs Hl Hfar Hsz].
  destruct (hi_pend _ _ _ HI c ltac:(by left)) as [e He]. pose proof (hi_agree _ _ _ HI c e He) as Ag.
  destruct (pend_waiting _ pend act c e HI He) as [Hn Hp]. destruct (hi_cycle _ _ _ HI c e He Hn) as [Hc0 Hc1].
  destruct (gk_delays GK c) as (Dp & _ & Ds). pose proof (gk_max GK c) as HM. pose proof (gk_H GK) as HH. unfold PQSpec.maxCycle in HH.
  set (cc := Z.max (cycle e) start). destruct (heard_fields e start) as (F1 & F2 & F3 & F4 & F5 & F6).
  unfold base_parentDone. apply wp_bind. eapply wp_event; [done|]. fold cc. apply wp_bind. eapply wp_set_event; [done|].
  apply wp_bind, wp_assert; [lia|]. change (with_parents (with_cycle e cc) (numParents e - 1)) with (heard e start). apply wp_bind.
  eapply wp_set_event; [cbn [heap set_heap events]; by apply lookup_insert_eq|]. cbn [heap set_heap]. rewrite hput_hput.
  change (set_heap (set_heap s ?a) ?b) with (set_heap s b).
  destruct (Z.eqb_spec (numParents (heard e start)) 0) as [H0|H0].
  - apply wp_bind, wp_assert; [by rewrite F1, Hn|]. apply wp_bind.
    eapply wp_set_event; [cbn [heap set_heap events]; by apply lookup_insert_eq|]. cbn [heap set_heap]. rewrite hput_hput.
    set (e1 := with_state (heard e start) EV_QUEUED). rewrite F6, (ag_pre _ _ Ag).
    rewrite u64_small by (rewrite max64_eq; lia).
    assert (agrees c e1) as Ag1 by by apply agrees_state, agrees_heard.
    assert (numParents e1 = 0 /\ cycle e1 = cc /\ state e1 = EV_QUEUED) as (P1 & P2 & P3) by (unfold e1; destruct e; cbn in *; auto).
    set (e2 := with_priv e1 (cc + g_pre G c)).
    assert (agrees c e2 /\ numParents e2 = 0 /\ cycle e2 = cc /\ state e2 = EV_QUEUED) as (Ag2 & P4 & P5 & P6).
    { clearbody e1. destruct Ag1. unfold e2. split; [by constructor; destruct e1|]. destruct e1; cbn in *; auto. }
    destruct (queue_add (heap s) (pq x) now c e e2 (cc + g_pre G c) Hq He) as (q' & Eq & Hq' & Hp'); try done.
    { congruence. } { unfold cc. lia. } { unfold cc. lia. } { unfold cc. lia. } { unfold cc. lia. }
    eapply (wp_enqueue _ x c e1); try done; [cbn [heap set_heap events]; by apply lookup_insert_eq|..].
    { cbn [lastLimit set_heap]. unfold cc. lia. } { unfold cc. lia. } { cbn [globPhaseLength set_heap]. apply Hfar. }
    { cbn [globPhaseLength set_heap]. apply Hfar. } { unfold cc. lia. } { apply Ag1. }
    cbn [heap set_heap]. rewrite hput_hput. fold e2. split.
    + constructor; cbn [heap set_heap set_domains domains inCSim lastLimit globPhaseLength]; try done.
      * eapply inv_heard; try done; [rewrite P4; rewrite F2 in H0; lia|lia|by rewrite P6|split; [intros _; rewrite F2 in H0; lia|by rewrite P6]].
      * exists (set_pq x q'). done.
      * by rewrite (hput_size _ _ e).
    + apply (after_put s x c e e2 q'); [done..|]. intros k i. rewrite Hp'. intros Hin.
      apply elem_of_cons in Hin as [[= -> ->]|Hin]; auto.
  - apply wp_ret. split.
    + constructor; cbn [heap set_heap set_domains domains inCSim lastLimit globPhaseLength]; try done.
      * eapply inv_heard; try done; [by apply agrees_heard|lia|congruence|split; [congruence|intros E; rewrite F2 in H0; lia]|congruence].
      * exists x. split; [done|]. split; [|done]. eapply queue_put; [done|done|]. by rewrite F1.
      * by rewrite (hput_size _ _ e).
    + pose proof (after_put s x c e (heard e start) (pq x) Hx He Hn ltac:(auto)) as Ha.
      by rewrite (set_domains_same (set_heap s (hput (heap s) c (heard e start))) x Hx) in Ha.
Qed.

(** ** Completion of an event *)

Definition done_spec (f : nat) (dn : nat -> Z -> ST Sim unit) : Prop := forall i s pend act now d e,
  sim_inv s pend (i :: act) now -> events (heap s) !! i = Some e -> state e = EV_RUNNING -> (g_rank G i < f)%nat ->
  0 <= now <= d -> g_lo G i <= d <= g_hi G i ->
  wp (dn i d) s (fun _ s' => sim_inv s' pend act now /\ after s s' /\ events (heap s') !! i = None).

(** Changing a waiting event, the queue as it was. *)
Lemma after_put_same s x c e e' : domains s = [x] -> events (heap s) !! c = Some e -> state e = EV_NONE ->
  after s (set_heap s (hput (heap s) c e')).
Proof.
  intros Hx He Hn. pose proof (after_put s x c e e' (pq x) Hx He Hn ltac:(auto)) as Ha.
  by rewrite (set_domains_same (set_heap s (hput (heap s) c e')) x Hx) in Ha.
Qed.

Lemma wp_delay_parentDone f dn s pend act now c start : done_spec f dn -> (g_rank G c < f)%nat ->
  sim_inv s (c :: pend) act now -> g_delay G c = true -> 0 <= now <= start ->
  g_lo G c <= start + g_pre G c -> start + g_pre G c + slack <= g_hi G c ->
  wp (delay_parentDone dn c start) s (fun _ s' => sim_inv s' pend act now /\ after s s').
Proof.
  intros IH Hr I Hd Hst Hlo Hhi. pose proof I as [HI (x & Hx & Hq & Hcur) Hcs Hl Hfar Hsz].
  destruct (hi_pend _ _ _ HI c ltac:(by left)) as [e He]. pose proof (hi_agree _ _ _ HI c e He) as Ag.
  destruct (pend_waiting _ pend act c e HI He) as [Hn Hp]. destruct (hi_cycle _ _ _ HI c e He Hn) as [Hc0 Hc1].
  destruct (gk_delays GK c) as (Dp & _ & Ds). pose proof (gk_max GK c) as HM. pose proof (gk_H GK) as HH. unfold PQSpec.maxCycle in HH.
  set (cc := Z.max (cycle e) start). destruct (heard_fields e start) as (F1 & F2 & F3 & F4 & F5 & F6).
  unfold delay_parentDone. apply wp_bind. eapply wp_event; [done|]. rewrite u32_small by lia.
  change (with_parents _ _) with (heard e start). apply wp_bind. eapply wp_set_event; [done|].
  destruct (Z.eqb_spec (numParents (heard e start)) 0) as [H0|H0].
  - apply wp_bind. eapply wp_set_event; [cbn [heap set_heap events]; by apply lookup_insert_eq|]. cbn [heap set_heap].
    rewrite hput_hput. change (set_heap (set_heap s ?a) ?b) with (set_heap s b).
    set (e1 := with_state (heard e start) EV_RUNNING). rewrite F6, (ag_pre _ _ Ag). change (Z.max (cycle e) start) with cc.
    rewrite u64_small by (unfold cc; rewrite max64_eq; lia).
    assert (agrees c e1 /\ numParents e1 = numParents e - 1 /\ cycle e1 = cc /\ state e1 = EV_RUNNING) as (Ag1 & P1 & P2 & P3).
    { split; [by apply agrees_state, agrees_heard|]. by destruct e. }
    eapply wp_mono; [eapply (IH c _ pend act now (cc + g_pre G c) e1)|].
    + constructor; cbn [heap set_heap domains inCSim lastLimit globPhaseLength]; try done.
      * eapply inv_heard; try done; [lia|by rewrite P3|split; [intros _; lia|by rewrite P3]|by rewrite P3|set_solver|by left].
      * exists x. split; [done|]. split; [|done]. eapply queue_put; [done|done|]. rewrite P3, Hn. done.
      * by rewrite (hput_size _ _ e).
    + cbn [heap set_heap events]. by apply lookup_insert_eq.
    + done.
    + done.
    + unfold cc. lia.
    + unfold cc. lia.
    + intros ? s' (I' & A' & _). split; [done|]. eapply after_trans; [by eapply (after_put_same s x c e e1)|done].
  - apply wp_ret. split; [|by eapply (after_put_same s x c e)].
    constructor; cbn [heap set_heap domains inCSim lastLimit globPhaseLength]; try done.
    + eapply inv_heard; try done; [by apply agrees_heard|lia|congruence|split; [congruence|intros E; rewrite F2 in H0; lia]|congruence|congruence].
    + exists x. split; [done|]. split; [|done]. eapply queue_put; [done|done|]. by rewrite F1.
    + by rewrite (hput_size _ _ e).
Qed.

(** The children of an event done at [d] hear from it. *)
Lemma wp_notify_all f dn i d l : done_spec f dn -> (g_rank G i <= f)%nat -> g_lo G i <= d <= g_hi G i ->
  forall s pend act now, (forall c, c ∈ l -> c ∈ g_kids G i) -> sim_inv s (l ++ pend) act now -> 0 <= now <= d ->
  wp (for_each (fun c => parentDone B dn c (d + g_post G i)) l) s (fun _ s' => sim_inv s' pend act now /\ after s s').
Proof.
  intros IH Hr Hd. induction l as [|c l IHl]; intros s pend act now Hin I Hnow; cbn [for_each app] in *.
  - apply wp_ret. split; [done|]. destruct (si_dom _ _ _ _ I) as (x & Hx & _). by apply (after_refl s x).
  - pose proof (Hin c ltac:(by left)) as Hc. pose proof (gk_rank GK i c Hc). pose proof (gk_lo GK i c Hc).
    pose proof (gk_hi GK i c Hc). destruct (gk_delays GK i) as (_ & Dp & _).
    destruct (hi_pend _ _ _ (si_heap _ _ _ _ I) c ltac:(by left)) as [e He].
    pose proof (hi_agree _ _ _ (si_heap _ _ _ _ I) c e He) as Ag.
    apply wp_bind. eapply (wp_mono _ _ (fun _ s' => sim_inv s' (l ++ pend) act now /\ after s s')).
    + unfold parentDone. apply wp_bind. eapply wp_event; [done|]. pose proof (ag_kind _ _ Ag) as Hk.
      destruct (g_delay G c) eqn:Ed.
      * rewrite Hk. eapply wp_delay_parentDone; [done|lia|done|done|lia|lia|lia].
      * destruct Hk as [cls ->]. apply wp_base_parentDone; [done|done|lia|lia|lia].
    + intros _ s1 [I1 A1]. eapply wp_mono; [apply (IHl s1 pend act now)|]; [|done|done|].
      * intros y Hy. apply Hin. by right.
      * intros _ s2 [I2 A2]. split; [done|]. by eapply after_trans.
Qed.

Lemma wp_done f : done_spec f (done B f).
Proof.
  induction f as [|f IH]; intros i s pend act now d e I Hi Hs Hr Hnow Hd; [lia|]. cbn [done].
  pose proof I as [HI (x & Hx & Hq & Hcur) Hcs Hl Hfar Hsz]. pose proof (hi_agree _ _ _ HI i e Hi) as Ag.
  destruct (gk_delays GK i) as (_ & Dp & Ds). pose proof (gk_max GK i) as HM. pose proof (gk_H GK) as HH. unfold PQSpec.maxCycle in HH.
  apply wp_bind. eapply wp_event; [done|]. apply wp_bind, wp_assert; [by rewrite Hs|].
  apply wp_bind. eapply wp_set_event; [done|]. set (e1 := with_state e EV_DONE). set (s1 := set_heap s _).
  apply wp_bind. eapply wp_lift; [apply (ag_kids _ _ Ag)|]. rewrite (ag_post _ _ Ag).
  assert (sim_inv s1 (g_kids G i ++ pend) (i :: act) now) as I1.
  { constructor; cbn [heap set_heap domains inCSim lastLimit globPhaseLength s1]; try done.
    - by apply inv_mark_done.
    - exists x. split; [done|]. split; [|done]. eapply queue_put; [done|done|]. destruct e; cbn in *. by rewrite Hs.
    - by rewrite (hput_size _ _ e). }
  assert (after s s1) as A1.
  { constructor.
    - done.
    - by exists x, x.
    - intros j. cbn [heap set_heap s1]. by rewrite put_some.
    - intros j (ej & Hj & Hsj). cbn [heap set_heap s1] in Hj. apply lookup_put in Hj as [[-> ->]|[_ Hj]]; [by destruct e|by exists ej].
    - intros j ej Hj Hsj. cbn [heap set_heap s1 events]. rewrite lookup_insert_ne; [done|]. intros ->. congruence.
    - intros k j Hk. by left. }
  apply wp_bind.
  assert (d +64 g_post G i = d + g_post G i \/ g_kids G i = []) as Hpost.
  { destruct (g_kids G i) as [|c l] eqn:Ek; [by right|left]. pose proof (gk_hi GK i c ltac:(rewrite Ek; by left)).
    pose proof (gk_max GK c). destruct (gk_delays GK c). rewrite u64_small; [done|]. rewrite max64_eq. lia. }
  eapply (wp_mono _ _ (fun _ s' => sim_inv s' pend (i :: act) now /\ after s1 s')).
  { destruct Hpost as [->|Ek].
    - eapply (wp_notify_all f); [done|lia|done|done|done|done].
    - rewrite Ek in *. apply wp_ret. split; [done|]. by apply (after_refl s1 x). }
  intros _ s2 [I2 A2]. pose proof I2 as [HI2 (x2 & Hx2 & Hq2 & Hcur2) Hcs2 Hl2 Hfar2 Hsz2].
  assert (events (heap s2) !! i = Some e1) as Hi2.
  { apply (af_done _ _ A2); [cbn [heap set_heap s1 events]; by apply lookup_insert_eq|by destruct e]. }
  assert (state e1 = EV_DONE) as Hs1 by by destruct e.
  unfold wp, on_heap, freeEvent. rewrite Hi2. set (s3 := set_heap s2 _).
  pose proof (after_trans _ _ _ A1 A2) as A.
  assert (forall j ej, events (heap s3) !! j = Some ej -> j <> i /\ events (heap s2) !! j = Some ej) as Hl3.
  { intros j ej Hj. cbn [heap set_heap s3 events] in Hj. by apply lookup_delete_Some in Hj as [? ?]. }
  split; [|split].
  - constructor; cbn [heap set_heap domains inCSim lastLimit globPhaseLength s3]; try done.
    + by eapply inv_free.
    + exists x2. split; [done|]. split; [|done]. eapply queue_same; [done|..].
      * intros j ej Hj Hsj. exists ej. split; [|done]. by apply Hl3.
      * intros j ej Hj Hsj. exists ej. cbn [events]. split; [|done]. rewrite lookup_delete_ne; [done|]. intros ->. congruence.
    + cbn [events]. rewrite map_size_delete, Hi2. cbn. lia.
  - constructor.
    + apply A.
    + apply A.
    + intros j [ej Hj]. apply Hl3 in Hj as [_ Hj]. apply (af_live _ _ A). by eexists.
    + intros j (ej & Hj & Hsj). apply Hl3 in Hj as [_ Hj]. apply (af_none _ _ A). by exists ej.
    + intros j ej Hj Hsj. cbn [heap set_heap s3 events]. rewrite lookup_delete_ne; [by apply (af_done _ _ A)|]. intros ->. congruence.
    + intros k j Hk. apply (af_queued _ _ A). done.
  - cbn [heap set_heap s3 events]. by apply lookup_delete_eq.
Qed.

(** ** The phase *)

(** What the classes of other files do: their event is done, at most [slack]
    cycles later. *)
Definition simulates (B fuel : nat) (slack H : Z) (sim : nat -> nat -> Z -> ST Sim unit) : Prop :=
  forall cls i t s, 0 <= t < H -> exists d, t <= d <= t + slack /\ sim cls i t s = done B fuel i d s.

Variable fuel : nat.
Variable simulate_other : nat -> nat -> Z -> ST Sim unit.
Hypothesis sim_ok : simulates B fuel slack H simulate_other.
Hypothesis fuel_ok : forall i, (g_rank G i < fuel)%nat.
Hypothesis pq_fuel_ok : H / 64 <= Z.of_nat pq_fuel.

(** An event of the queue's head starts to run. *)
Lemma inv_run hp pend act i e : heap_inv hp pend act -> events hp !! i = Some e -> state e = EV_QUEUED ->
  heap_inv (hput hp i (with_state e EV_RUNNING)) pend (i :: act).
Proof.
  intros I Hi Hs. pose proof (hi_agree _ _ _ I i e Hi) as Ag. set (e' := with_state e EV_RUNNING).
  assert (state e' = EV_RUNNING /\ numParents e' = numParents e) as [E1 E2] by by destruct e.
  assert (forall x, edges x (<[i := e']> (events hp)) = edges x (events hp)) as Hed.
  { intros x. pose proof (edges_insert x i e e' (events hp) Hi) as E. unfold out in E.
    rewrite Hs, E1, !bool_decide_eq_false_2 in E by done. lia. }
  constructor.
  - intros j ej Hj. apply lookup_put in Hj as [[-> ->]|[_ Hj]]; [by apply agrees_state|by apply (hi_agree _ _ _ I)].
  - intros j ej Hj Hne c Hc. rewrite put_some by done. apply lookup_put in Hj as [[-> ->]|[_ Hj]].
    + eapply (hi_live _ _ _ I i e); [done|congruence|done].
    + by eapply (hi_live _ _ _ I).
  - intros c Hc. rewrite put_some by done. by apply (hi_pend _ _ _ I).
  - intros c ec Hc. cbn [events]. rewrite Hed. apply lookup_put in Hc as [[-> ->]|[_ Hc]]; [rewrite E2|]; by apply (hi_count _ _ _ I).
  - intros j ej Hj Hne. apply lookup_put in Hj as [[-> ->]|[_ Hj]]; [|by apply (hi_ready _ _ _ I j)].
    rewrite E2. apply (hi_ready _ _ _ I i e Hi). congruence.
  - intros j ej Hj Hn. apply lookup_put in Hj as [[-> ->]|[_ Hj]]; [congruence|by apply (hi_wait _ _ _ I j)].
  - intros j ej Hj Hq. apply lookup_put in Hj as [[-> ->]|[_ Hj]]; [congruence|by eapply (hi_delay _ _ _ I)].
  - intros j ej Hj H1 H2. apply lookup_put in Hj as [[-> ->]|[_ Hj]]; [by left|].
    right. by eapply (hi_active _ _ _ I).
  - intros j ej Hj Hn. apply lookup_put in Hj as [[-> ->]|[_ Hj]]; [congruence|by eapply (hi_cycle _ _ _ I)].
Qed.

(** The least event leaves the queue for [EV_RUNNING]. *)
Lemma queue_remove hp q q' now c i e : queue_inv hp q now -> PQSpec.wf h q' -> PQSpec.contents h q ≡ₚ (c, i) :: PQSpec.contents h q' ->
  PQSpec.least c (PQSpec.contents h q) -> c / 64 = PQ.curBlock q' -> events hp !! i = Some e -> state e = EV_QUEUED ->
  queue_inv (hput hp i (with_state e EV_RUNNING)) q' c.
Proof.
  intros Q Hwf Hp Hmin Hcb Hi Hs. pose proof (qi_nodup _ _ _ Q) as Hnd. rewrite Hp in Hnd. cbn [map] in Hnd.
  apply NoDup_cons in Hnd as [Hnot Hnd]. assert (forall k, (k, i) ∉ PQSpec.contents h q') as Hni.
  { intros k Hk. apply Hnot, list_elem_of_fmap. by exists (k, i). }
  assert (forall k j, (k, j) ∈ PQSpec.contents h q' -> (k, j) ∈ PQSpec.contents h q) as Hsub.
  { intros k j Hk. rewrite Hp. by right. }
  constructor.
  - done.
  - by rewrite Hcb.
  - intros k j Hk. by eapply Hmin, Hsub.
  - intros k j Hk. destruct (qi_event _ _ _ Q k j (Hsub k j Hk)) as (ej & H1 & H2). exists ej. cbn [events].
    rewrite lookup_insert_ne; [done|]. intros <-. by apply Hni in Hk.
  - done.
  - intros j ej Hj Hsj. apply lookup_put in Hj as [[-> ->]|[Hne Hj]]; [by destruct e|].
    destruct (qi_all _ _ _ Q j ej Hj Hsj) as [k Hk]. exists k. rewrite Hp in Hk.
    apply elem_of_cons in Hk as [[= -> ->]|Hk]; [done|done].
Qed.

(** Between two events of a phase. *)
Record loop_inv (s : Sim) (now : Z) : Prop := {
  lo_heap : heap_inv (heap s) [] [];
  lo_dom : exists x, domains s = [x] /\ queue_inv (heap s) (pq x) now /\
    forall k i, (k, i) ∈ PQSpec.contents h (pq x) -> curCycle x <= k;
  lo_now : 0 <= lastLimit s <= now /\ now <= limit s;
  lo_csim : inCSim s = true;
  lo_far : H <= lastLimit s + 10 * globPhaseLength s + 1000000 /\ 0 <= 10 * globPhaseLength s < max32;
  lo_size : Z.of_nat (size (events (heap s))) < max32
}.

(** [s'] comes after [s], with no event running. *)
Record later (s s' : Sim) : Prop := {
  lt_limit : limit s' = limit s /\ lastLimit s' = lastLimit s;
  lt_live i : is_Some (events (heap s') !! i) -> is_Some (events (heap s) !! i);
  lt_none i : waiting s' i -> waiting s i;
  lt_queued k i : queued s' k i -> queued s k i \/ waiting s i
}.

Lemma later_trans s1 s2 s3 : later s1 s2 -> later s2 s3 -> later s1 s3.
Proof.
  intros [[L1 L2] V1 N1 Q1] [[M1 M2] V2 N2 Q2]. constructor; [split; congruence|auto|auto|].
  intros k i Hk. apply Q2 in Hk as [Hk|Hk]; [by apply Q1|right; by apply N1].
Qed.

Lemma after_later s s' : after s s' -> later s s'.
Proof. intros []. by constructor. Qed.

Lemma wp_same {S A} (m m' : ST S A) (s : S) (Q : A -> S -> Prop) : m s = m' s -> wp m' s Q -> wp m s Q.
Proof. unfold wp. by intros ->. Qed.

(** The head of the queue runs to completion. *)
Lemma wp_run_head s now x q' c i : loop_inv s now -> domains s = [x] -> PQSpec.wf h q' ->
  PQSpec.contents h (pq x) ≡ₚ (c, i) :: PQSpec.contents h q' -> PQSpec.least c (PQSpec.contents h (pq x)) -> c / 64 = PQ.curBlock q' ->
  wp (run B simulate_other fuel i c) (set_domains s [set_curCycle (set_pq x q') c])
    (fun _ s' => sim_inv s' [] [] c /\ later s s' /\ events (heap s') !! i = None).
Proof.
  intros [HI (x' & Hx' & Q & Hcur) [Hl Hlim] Hcs Hfar Hsz] Hx Hwf Hp Hmin Hcb. rewrite Hx in Hx'. injection Hx' as <-.
  assert ((c, i) ∈ PQSpec.contents h (pq x)) as Hin by (rewrite Hp; by left).
  destruct (qi_event _ _ _ Q c i Hin) as (e & Hi & Hs & Hlo & Hhi). pose proof (hi_agree _ _ _ HI i e Hi) as Ag.
  pose proof (hi_delay _ _ _ HI i e Hi Hs) as Hd. pose proof (qi_now _ _ _ Q c i Hin) as Hnow.
  destruct (gk_delays GK i) as (_ & _ & Ds). pose proof (gk_max GK i). pose proof (gk_min GK i Hd).
  unfold run. apply wp_bind. eapply wp_event; [done|]. apply wp_bind, wp_assert; [by rewrite Hs, orb_comm|].
  apply wp_bind. eapply wp_set_event; [done|]. apply wp_bind, wp_assert; [rewrite (ag_min _ _ Ag); lia|].
  set (s2 := set_heap _ _). set (e1 := with_state e EV_RUNNING).
  assert (events (heap s2) !! i = Some e1) as Hi2 by (unfold s2; cbn [heap set_heap events]; by apply lookup_insert_eq).
  unfold simulate. apply wp_bind. eapply wp_event; [done|]. pose proof (ag_kind _ _ Ag) as Hk. rewrite Hd in Hk. destruct Hk as [cls Hk].
  assert (kind e1 = KOther cls) as -> by by destruct e.
  destruct (sim_ok cls i c s2) as (d & Hd1 & Es); [lia|].
  assert (sim_inv s2 [] [i] c) as I2.
  { constructor; unfold s2; cbn [heap set_heap set_domains domains inCSim lastLimit globPhaseLength]; try done.
    - by apply inv_run.
    - eexists. split; [done|]. split; [|cbn; lia]. by eapply queue_remove.
    - lia.
    - by rewrite (hput_size _ _ e). }
  eapply wp_same; [done|]. eapply wp_mono; [apply (wp_done fuel i s2 [] [] c d e1); try done; try lia; by destruct e|].
  intros _ s' (I' & A & Hg). split; [done|]. split; [|done]. eapply later_trans; [|by apply after_later].
  constructor; unfold s2.
  - done.
  - intros j. cbn [heap set_heap set_domains]. by rewrite put_some.
  - intros j (ej & Hj & Hsj). cbn [heap set_heap set_domains] in Hj.
    apply lookup_put in Hj as [[-> ->]|[_ Hj]]; [by destruct e|by exists ej].
  - intros k j (y & [= <-] & Hkj). left. exists x. split; [done|]. rewrite Hp. by right.
Qed.

(** The domain's queue is empty, or has a first cycle. *)
Lemma wp_first hp q now (s : Sim) (Q : bool -> Sim -> Prop) : queue_inv hp q now ->
  (PQSpec.contents h q = [] -> Q false s) ->
  (forall c i, (c, i) ∈ PQSpec.contents h q -> PQSpec.least c (PQSpec.contents h q) -> Q (c <? limit s) s) ->
  wp (if PQ.size q =? 0 then mret false else c ← lift (PQ.firstCycle B q); mret (c <? limit s)) s Q.
Proof.
  intros Hq H0 H1. destruct (queue_size hp q now Hq) as [Hel _]. unfold PQ.size. rewrite Hel.
  destruct (PQSpec.contents h q) as [|[k v] l] eqn:E; [by apply wp_ret, H0|].
  rewrite (proj2 (Z.eqb_neq _ _)) by (cbn [length]; lia).
  destruct (PQSpec.firstCycle_ok h h_pos q k v) as (c & v' & Ef & Hin & Hmin); [apply Hq|rewrite E; by left|].
  apply wp_bind. eapply wp_lift; [done|]. apply wp_ret. rewrite E in *. by eapply H1.
Qed.

Lemma wp_newCycle hp q now lim (s : Sim) (Q : Z -> Sim -> Prop) : queue_inv hp q now -> now <= lim ->
  (forall c, now <= c -> PQSpec.least c (PQSpec.contents h q) -> Q c s) ->
  wp (if PQ.size q =? 0 then mret lim else lift (PQ.firstCycle B q)) s Q.
Proof.
  intros Hq Hnow H1. destruct (queue_size hp q now Hq) as [Hel _]. unfold PQ.size. rewrite Hel.
  destruct (PQSpec.contents h q) as [|[k v] l] eqn:E.
  { apply wp_ret, H1; [done|]. intros k v Hk. by apply elem_of_nil in Hk. }
  rewrite (proj2 (Z.eqb_neq _ _)) by (cbn [length]; lia).
  destruct (PQSpec.firstCycle_ok h h_pos q k v) as (c & v' & Ef & Hin & Hmin); [apply Hq|rewrite E; by left|].
  eapply wp_lift; [done|]. rewrite <- E in *. apply H1; [by eapply (qi_now _ _ _ Hq)|done].
Qed.

(** The loop's end: the clock goes to the limit. *)
Lemma loop_end s now x : loop_inv s now -> domains s = [x] ->
  (forall k i, (k, i) ∈ PQSpec.contents h (pq x) -> limit s <= k) ->
  sim_inv (set_domains s [set_curCycle x (limit s)]) [] [] (limit s) /\ later s (set_domains s [set_curCycle x (limit s)]).
Proof.
  intros [HI (x' & Hx' & Q & Hcur) [Hl Hlim] Hcs Hfar Hsz] Hx Hall. rewrite Hx in Hx'. injection Hx' as <-. split.
  - constructor; cbn [heap set_domains domains inCSim lastLimit globPhaseLength]; try done.
    + eexists. split; [done|]. split; [|cbn; lia]. destruct Q. constructor; try done. cbn.
      etrans; [done|]. apply Z.div_le_mono; lia.
    + lia.
  - constructor; try done. intros k i (y & [= <-] & Hk). left. by exists x.
Qed.

Lemma later_size s s' i : later s s' -> is_Some (events (heap s) !! i) -> events (heap s') !! i = None ->
  (size (events (heap s')) < size (events (heap s)))%nat.
Proof.
  intros L Hi Hg. rewrite <- !size_dom. apply subset_size. split.
  - intros j Hj. apply elem_of_dom. apply elem_of_dom in Hj. by apply (lt_live _ _ L).
  - intros Hsub. assert (i ∈ dom (events (heap s'))) as Hd by (apply Hsub; by apply elem_of_dom).
    apply elem_of_dom in Hd as [? ?]. congruence.
Qed.

Lemma wp_domain_loop n : forall s now, loop_inv s now -> (size (events (heap s)) <= n)%nat ->
  wp (domain_loop B pq_fuel simulate_other fuel n 0) s (fun _ s' => sim_inv s' [] [] (limit s) /\ later s s' /\
    exists x', domains s' = [x'] /\ curCycle x' = limit s).
Proof.
  induction n as [|n IH]; intros s now L Hn; pose proof L as [HI (x & Hx & Q & Hcur) [Hl Hlim] Hcs Hfar Hsz]; cbn [domain_loop].
  all: apply wp_bind, wp_get, wp_bind; eapply wp_dom_get; [done|]; apply wp_bind; eapply wp_first; [done|intros E|intros c i Hin Hmin].
  1, 3: eapply wp_dom_put; [done|]; destruct (loop_end s now x L Hx) as [E1 E2];
    [intros k i Hk; rewrite E in Hk; by apply elem_of_nil in Hk|split; [done|]; split; [done|by eexists]].
  all: destruct (Z.ltb_spec c (limit s)) as [Hc|Hc];
    [|eapply wp_dom_put; [done|]; destruct (loop_end s now x L Hx) as [E1 E2];
      [intros k j Hk; pose proof (Hmin k j Hk); lia|split; [done|]; split; [done|by eexists]]].
  - destruct (qi_event _ _ _ Q c i Hin) as (e & Hi & _). rewrite <- size_dom in Hn.
    assert (i ∈ dom (events (heap s))) as Hd by (apply elem_of_dom; by eexists).
    assert ({[i]} ⊆ dom (events (heap s))) as Hsub by set_solver. apply subseteq_size in Hsub. rewrite size_singleton in Hsub. lia.
  - destruct (qi_event _ _ _ Q c i Hin) as (e & Hi & Hs & Hlo & Hhi). pose proof (qi_now _ _ _ Q c i Hin) as Hnow.
    destruct (gk_delays GK i) as (_ & _ & Ds). pose proof (gk_max GK i).
    destruct (PQSpec.dequeue_ok h h_pos pq_fuel (pq x) c i) as (te & cyc & q' & Ed & Hwf & Hp & Hmin' & Hcb); [apply Q|done|..].
    { destruct (PQSpec.wf_cur _ _ (qi_wf _ _ _ Q)) as [Hc0 _]. assert (c / 64 <= H / 64) by (apply Z.div_le_mono; lia). lia. }
    assert ((cyc, te) ∈ PQSpec.contents h (pq x)) as Hin' by (rewrite Hp; by left).
    pose proof (Hmin' c i Hin) as Hcc. pose proof (Hmin cyc te Hin').
    apply wp_bind. eapply wp_lift; [done|]. apply wp_bind, wp_assert; [pose proof (Hcur cyc te Hin'); lia|].
    apply wp_bind. eapply wp_dom_put; [done|]. apply wp_bind.
    eapply wp_mono; [by eapply wp_run_head|]. intros _ s1 (I1 & L1 & Hg).
    pose proof I1 as [HI1 (x1 & Hx1 & Q1 & Hcur1) Hcs1 Hl1 Hfar1 Hsz1]. destruct (lt_limit _ _ L1) as [EL1 EL2].
    apply wp_bind. eapply wp_dom_get; [done|]. apply wp_bind. eapply wp_newCycle; [done|lia|]. intros nc Hnc Hmin1.
    apply wp_bind, wp_assert; [lia|]. apply wp_bind. eapply wp_dom_put; [done|].
    set (s2 := set_domains s1 [set_curCycle x1 nc]).
    assert (loop_inv s2 cyc) as L2.
    { constructor; unfold s2; cbn [heap set_domains domains inCSim lastLimit limit globPhaseLength]; try done.
      - by eexists.
      - lia. }
    assert (later s s2) as L12.
    { eapply later_trans; [done|]. constructor; try done. intros k j (y & [= <-] & Hk). left. by exists x1. }
    eapply wp_mono; [apply (IH s2 cyc L2)|].
    + destruct (qi_event _ _ _ Q cyc te Hin') as (e' & Hi' & _). pose proof (later_size s s2 te L12 ltac:(by eexists) Hg). lia.
    + intros _ s3 (I3 & L3 & x3 & Hx3 & Hc3). assert (limit s2 = limit s) as El by done. rewrite El in *.
      split; [done|]. split; [by eapply later_trans|]. by exists x3.
Qed.

(** ** Between phases *)

(** The simulator outside a phase: the invariant holds from [lastLimit] on. *)
Definition idle (s : Sim) : Prop :=
  inCSim s = false /\ sim_inv (set_phase s (limit s) (lastLimit s) true) [] [] (lastLimit s).

Definition live (s : Sim) (i : nat) : Prop := is_Some (events (heap s) !! i).

(** What waits has a parent that is not done. *)
Lemma edges_some c m : (0 < edges c m)%nat -> exists i e, m !! i = Some e /\ state e <> EV_DONE /\ c ∈ g_kids G i.
Proof.
  induction m as [|i e m Hi IH] using map_ind; [unfold edges; rewrite map_fold_empty; lia|].
  rewrite edges_insert_new by done. intros Hpos. destruct (decide (c ∈ out e i)) as [Hin|Hout].
  - exists i, e. rewrite lookup_insert_eq. unfold out in Hin. case_bool_decide; [by apply elem_of_nil in Hin|done].
  - assert (count c (out e i) = 0%nat) as E.
    { unfold count. destruct (filter _ (out e i)) as [|x l] eqn:Ef; [done|]. exfalso. apply Hout.
      assert (x ∈ filter (fun x => x = c) (out e i)) as Hx by (rewrite Ef; by left).
      apply list_elem_of_filter in Hx as [-> ?]. done. }
    rewrite E in Hpos. destruct (IH ltac:(lia)) as (j & ej & Hj & Hs & Hc). exists j, ej.
    rewrite lookup_insert_ne by congruence. done.
Qed.

Lemma inv_state hp i e : heap_inv hp [] [] -> events hp !! i = Some e -> state e = EV_NONE \/ state e = EV_QUEUED.
Proof.
  intros I Hi. destruct (decide (state e = EV_NONE)) as [|Hn]; [by left|].
  destruct (decide (state e = EV_QUEUED)) as [|Hq]; [by right|]. by pose proof (hi_active _ _ _ I i e Hi Hn Hq) as ?%elem_of_nil.
Qed.

(** Nothing is forgotten: what is left waits, through its ancestors, for an
    event that is queued. *)
Lemma waits_for_queued hp q now : heap_inv hp [] [] -> queue_inv hp q now ->
  forall n i, (fuel - g_rank G i <= n)%nat -> is_Some (events hp !! i) ->
  exists k j, (k, j) ∈ PQSpec.contents h q /\ rtc (fun a b => b ∈ g_kids G a) j i.
Proof.
  intros I Q. induction n as [|n IH]; intros i Hn [e Hi].
  { pose proof (fuel_ok i). lia. }
  destruct (inv_state hp i e I Hi) as [Hs|Hs].
  - destruct (hi_count _ _ _ I i e Hi) as [Hc _]. pose proof (hi_wait _ _ _ I i e Hi Hs) as Hw. cbn [count filter list_filter length] in Hc.
    destruct (edges_some i (events hp)) as (p & ep & Hp & _ & Hk); [unfold count in Hc; cbn in Hc; lia|].
    pose proof (gk_rank GK p i Hk). pose proof (fuel_ok i). pose proof (fuel_ok p).
    destruct (IH p) as (k & j & Hj & Hr); [lia|by eexists|]. exists k, j. split; [done|]. by eapply rtc_r.
  - destruct (qi_all _ _ _ Q i e Hi Hs) as [k Hk]. by exists k, i.
Qed.

Lemma queued_once hp q now k1 k2 i : queue_inv hp q now -> (k1, i) ∈ PQSpec.contents h q -> (k2, i) ∈ PQSpec.contents h q -> k1 = k2.
Proof.
  intros Q H1 H2. pose proof (qi_nodup _ _ _ Q) as Hnd. destruct (proj1 (list_elem_of_lookup _ _) H1) as [a Ha].
  destruct (proj1 (list_elem_of_lookup _ _) H2) as [b Hb].
  assert (a = b) as ->; [|congruence]. eapply (NoDup_lookup (map snd _)); [done|..]; by rewrite list_lookup_fmap, ?Ha, ?Hb.
Qed.

Lemma wp_phase top n s lim : idle s -> lastLimit s <= lim -> (size (events (heap s)) <= n)%nat ->
  wp (simulatePhase B pq_fuel simulate_other fuel top false n [(0, 1)%nat] lim) s (fun _ s' =>
    idle s' /\ lastLimit s' = lim /\ (exists x, domains s' = [x] /\ curCycle x = lim) /\
    (forall i, live s' i -> live s i) /\
    (forall k i, queued s k i -> k < lim -> ~ live s' i) /\
    (forall i, live s' i -> exists k j, lim <= k /\ queued s' k j /\ rtc (fun a b => b ∈ g_kids G a) j i)).
Proof.
  intros [Hcs I] Hlim Hn. unfold simulatePhase. apply wp_bind, wp_get, wp_bind, wp_modify, wp_bind, wp_assert; [lia|].
  apply wp_bind, wp_modify, wp_bind. cbn [for_each]. set (s1 := set_phase s lim (lastLimit s) true).
  pose proof I as [HI (x & Hx & Q & Hcur) _ Hl Hfar Hsz]. cbn in HI, Hx, Q, Hl, Hfar, Hsz.
  assert (loop_inv s1 (lastLimit s)) as L.
  { constructor; unfold s1; cbn; try done. exists x. split; [done|]. split; [done|].
    intros k i Hk. pose proof (qi_now _ _ _ Q k i Hk). lia. }
  apply wp_bind. eapply wp_mono; [unfold simulatePhaseThread; cbn; by apply (wp_domain_loop n s1 (lastLimit s) L)|].
  intros _ s2 (I2 & L2 & x2 & Hx2 & Hc2). apply wp_ret, wp_modify. destruct (lt_limit _ _ L2) as [E1 E2]. cbn in E1, E2.
  pose proof I2 as [HI2 (x2' & Hx2' & Q2 & Hcur2) Hcs2 Hl2 Hfar2 Hsz2]. rewrite Hx2 in Hx2'. injection Hx2' as <-.
  assert (limit s1 = lim) as E3 by done. rewrite E3 in *.
  split; [|split; [|split; [|split; [|split]]]].
  - split; [done|]. constructor; cbn; try done.
    + exists x2. rewrite E1. split; [done|]. split; [done|lia].
    + rewrite E1. lia.
    + rewrite E1. lia.
  - done.
  - by exists x2.
  - intros i. apply (lt_live _ _ L2).
  - intros k i (y & Hy & Hk) Hlt [e Hi]. rewrite Hx in Hy. injection Hy as <-. cbn in Hi.
    destruct (qi_event _ _ _ Q k i Hk) as (e0 & Hi0 & Hs0 & _).
    assert (~ waiting s1 i) as Hnw. { intros (e1 & Hi1 & Hs1). cbn in Hi1. congruence. }
    destruct (inv_state _ i e HI2 Hi) as [Hs|Hs].
    + apply Hnw, (lt_none _ _ L2). by exists e.
    + destruct (qi_all _ _ _ Q2 i e Hi Hs) as [k2 Hk2]. pose proof (qi_now _ _ _ Q2 k2 i Hk2).
      destruct (lt_queued _ _ L2 k2 i) as [(y & Hy & Hk3)|]; [by exists x2| |done].
      cbn in Hy. rewrite Hx in Hy. injection Hy as <-. pose proof (queued_once _ _ _ _ _ _ Q Hk Hk3). lia.
  - intros i Hi. destruct (waits_for_queued _ _ _ HI2 Q2 _ i (le_n _) Hi) as (k & j & Hk & Hr).
    exists k, j. split; [by eapply (qi_now _ _ _ Q2)|]. split; [by exists x2|done].
Qed.

End weave.
