(* ===== verification/WeaveProps.v ===== *)
(** * Properties of the weave phase (ContentionSim), and a phase that runs *)

From S2P Require Import Prelude MemHier PrioQueue TimingEvent ContentionSim WeaveSpec.
Import TimingEventSpec.
Local Open Scope Z_scope.



(** ** A phase that runs

    A core event feeds a delay event and a memory access, which both feed a
    second core event:

        0 (core, queued for 10) -> 1 (delay 5)        -> 3 (core)
                                -> 2 (memory, 3 before, 4 itself, 2 after) -> 3 *)
Module WeaveDemo.

Definition sim (cls : nat) : nat -> Z -> ST Sim unit :=
  if (cls =? 1)%nat then WeaveMemAcc_simulate (fun _ => 4) 3 2 else TimingCore_simulate 3 2.



Definition ev (k : EventKind) (st : EventState) (ch : Children) (n : nat) (np pre post : Z) : Event :=
  mkEvent k 0 st 0 0 ch 0 n np pre post.

Definition heap0 : Heap := mkHeap (list_to_map [
  (0%nat, ev (KOther 0) EV_QUEUED (CBlocks [block_of [1; 2]%nat]) 2 0 0 0);
  (1%nat, ev KDelay EV_NONE (COne 3%nat) 1 1 5 0);
  (2%nat, ev (KOther 1) EV_NONE (COne 3%nat) 1 1 3 2);
  (3%nat, ev (KOther 0) EV_NONE CNull 0 2 0 0)]) 4.

Definition pq0 : PQ.t nat := match PQ.enqueue 2 (PQ.init 2) 0%nat 10 with Ok q => q | Fault _ => PQ.init 2 end.

Definition sim0 : Sim := mkSim heap0 [mkDomain pq0 0 0 0] 0 0 false ∅ [] [] 100.

Example phase_trace : match simulatePhase 2 16 sim 3 (fun _ => 0%nat) false 4 [(0, 1)%nat] 15 sim0 with
  | Ok (_, s) => (map_to_list (events (heap s))).*1 = [3%nat] /\ firstn 1 (map (fun d => PQ.firstCycle 2 (pq d)) (domains s)) = [Ok 19]
  | Fault _ => False end.
Proof. by vm_compute. Qed.








End WeaveDemo.

Module WeaveProps.
Import WeaveDemo.





End WeaveProps.
