(* ===== verification/UMon.v ===== *)
(** * Utility monitors (src/src/utility_monitor.h, utility_monitor.cpp)

    [UMon] samples the accesses to a cache and keeps, for each of its sets, a
    linked list of tags in LRU order; hits are counted by their position in the
    list.  [UMonSpec] relates the lists to LRU stacks. *)

From S2P Require Import Prelude MTRand Hash.
Local Open Scope Z_scope.

(** A node of a set's array; [next] is the index of a node of the same set. *)
Record Node := mkNode { addr : Z; next : option nat }.

Record UMon := mkUMon {
  umonLines : Z; samplingFactor : Z; buckets : nat; sets : nat;
  samplingFactorBits : Z; setsBits : Z;
  curWayHits : list Z; curMisses : Z;
  array : list (list Node); heads : list nat;
  hf : HashFamily
}.

Definition set_counts (u : UMon) (wh : list Z) (m : Z) : UMon :=
  mkUMon (umonLines u) (samplingFactor u) (buckets u) (sets u) (samplingFactorBits u) (setsBits u)
    wh m (array u) (heads u) (hf u).
Definition set_lists (u : UMon) (a : list (list Node)) (h : list nat) : UMon :=
  mkUMon (umonLines u) (samplingFactor u) (buckets u) (sets u) (samplingFactorBits u) (setsBits u)
    (curWayHits u) (curMisses u) a h (hf u).

(** [while (tmp >>= 1) bits++], for a 32-bit [tmp]. *)
Fixpoint count_bits (n : nat) (tmp bits : Z) : Z :=
  match n with
  | O => bits
  | S n' => let tmp := Z.shiftr tmp 1 in if tmp =? 0 then bits else count_bits n' tmp (bits + 1)
  end.

(** The constructor; dividing by zero is a fault. *)
Definition UMon_new (bankLines lines bkts : Z) : outcome UMon :=
  if (lines =? 0) || (bkts =? 0) then Fault Panicked else
  let sf := bankLines / lines in
  let sets := lines / bkts in
  let b := Z.to_nat bkts in
  let nodes := imap (fun j _ => mkNode 0 (if bool_decide (j < b - 1)%nat then Some (S j) else None)) (replicate b tt) in
  f ← H3.make 2 32 0xF000BAAD;
  mret (mkUMon lines sf b (Z.to_nat sets) (count_bits 32 sf 0) (count_bits 32 sets 0)
    (replicate b 0) 0 (replicate (Z.to_nat sets) nodes) (replicate (Z.to_nat sets) 0%nat) (H3Hash f)).

(** [~(((uint64_t)-1LL) << bits)]. *)
Definition low_mask (bits : Z) : Z := Z.lxor (max64 - 1) (u64 (Z.shiftl (max64 - 1) bits)).

(** The search of a set's list: the position of the hit, [prev] and [cur] as the
    loop leaves them. *)
Fixpoint walk (nodes : list Node) (bkts : nat) (lineAddr : Z) (n b : nat) (prev : option nat) (cur : nat)
    : outcome (option nat * option nat * nat) :=
  match n with
  | O => mret (None, prev, cur)
  | S n' =>
      nd ← rd nodes cur;
      if addr nd =? lineAddr then mret (Some b, prev, cur)
      else if bool_decide (b < bkts - 1)%nat then
        match next nd with
        | Some c => walk nodes bkts lineAddr n' (S b) (Some cur) c
        | None => Fault OutOfRange
        end
      else walk nodes bkts lineAddr n' (S b) prev cur
  end.

(** [cur] goes to the front of the list. *)
Definition move_to_front (nodes : list Node) (head : nat) (prev : option nat) (cur : nat) : outcome (list Node * nat) :=
  match prev with
  | None => mret (nodes, head)
  | Some p =>
      c ← rd nodes cur;
      pn ← rd nodes p;
      nodes ← wr nodes p (mkNode (addr pn) (next c));
      c ← rd nodes cur;
      nodes ← wr nodes cur (mkNode (addr c) (Some head));
      mret (nodes, cur)
  end.

Definition sample_hash (u : UMon) (lineAddr : Z) : outcome Z :=
  h ← hash (hf u) 0 lineAddr; mret (Z.land h (low_mask (samplingFactorBits u))).
Definition set_hash (u : UMon) (lineAddr : Z) : outcome nat :=
  h ← hash (hf u) 1 lineAddr; mret (Z.to_nat (Z.land h (low_mask (setsBits u)))).

Definition access (u : UMon) (lineAddr : Z) : outcome UMon :=
  sampleSel ← sample_hash u lineAddr;
  if negb (sampleSel =? 0) then mret u else
  set ← set_hash u lineAddr;
  head ← rd (heads u) set;
  nodes ← rd (array u) set;
  '(hit, prev, cur) ← walk nodes (buckets u) lineAddr (buckets u) 0 None head;
  '(u, nodes) ← match hit with
    | Some b =>
        n ← rd (curWayHits u) b;
        wh ← wr (curWayHits u) b (n +64 1);
        mret (set_counts u wh (curMisses u), nodes)
    | None =>
        let u := set_counts u (curWayHits u) (curMisses u +64 1) in
        c ← rd nodes cur;
        _ ← check (bool_decide (next c = None));
        nodes ← wr nodes cur (mkNode lineAddr (next c));
        mret (u, nodes)
    end;
  '(nodes, head) ← move_to_front nodes head prev cur;
  arr ← wr (array u) set nodes;
  hds ← wr (heads u) set head;
  mret (set_lists u arr hds).

(** Both loops run [i] from 0 to [buckets - 1] over [curWayHits\[buckets - i - 1\]]. *)
Fixpoint sum_hits (wh : list Z) (i : nat) (total : Z) : outcome Z :=
  match i with
  | O => mret total
  | S i' => x ← rd wh i'; sum_hits wh i' (total +64 x)
  end.

Definition getNumAccesses (u : UMon) : outcome Z := sum_hits (curWayHits u) (buckets u) (curMisses u).

Fixpoint fill_misses (wh misses : list Z) (i : nat) (total : Z) : outcome (list Z * Z) :=
  match i with
  | O => mret (misses, total)
  | S i' =>
      misses ← wr misses i total;
      x ← rd wh i';
      fill_misses wh misses i' (total +64 x)
  end.

(** [misses] is the caller's buffer. *)
Definition getMisses (u : UMon) (misses : list Z) : outcome (list Z) :=
  '(misses, total) ← fill_misses (curWayHits u) misses (buckets u) (curMisses u);
  wr misses 0 total.

Definition startNextInterval (u : UMon) : UMon :=
  set_counts u (imap (fun b x => if bool_decide (b < buckets u)%nat then 0 else x) (curWayHits u)) 0.

(** ** The lists as LRU stacks *)

Module UMonSpec.

(** The nodes of [l], linked from [p] to [q]. *)
Fixpoint seg (nodes : list Node) (p q : option nat) (l : list nat) : Prop :=
  match l with
  | [] => p = q
  | i :: l' => p = Some i /\ exists nd, nodes !! i = Some nd /\ seg nodes (next nd) q l'
  end.

Definition addr_at (nodes : list Node) (i : nat) : Z := default 0 (addr <$> nodes !! i).

Lemma seg_app nodes p q l1 l2 : seg nodes p q (l1 ++ l2) <-> exists r, seg nodes p r l1 /\ seg nodes r q l2.
Proof.
  revert p. induction l1 as [|i l1 IH]; intros p; cbn [app seg].
  - split; [intros H; by exists p|intros (r & -> & H); done].
  - split.
    + intros (-> & nd & Hi & H). apply IH in H as (r & H1 & H2). exists r. split; [|done]. split; [done|]. by exists nd.
    + intros (r & (-> & nd & Hi & H1) & H2). split; [done|]. exists nd. split; [done|]. apply IH. by exists r.
Qed.

(** Writing a node outside of a segment leaves it alone. *)
Lemma seg_frame nodes p q l i nd : i ∉ l -> seg nodes p q l -> seg (<[i := nd]> nodes) p q l.
Proof.
  revert p. induction l as [|j l IH]; intros p Hi; cbn [seg]; [done|]. apply not_elem_of_cons in Hi as [Hij Hi].
  intros (-> & ndj & Hj & H). split; [done|]. exists ndj. rewrite list_lookup_insert_ne by done. auto.
Qed.

Lemma addrs_frame nodes l i nd : i ∉ l -> map (addr_at (<[i := nd]> nodes)) l = map (addr_at nodes) l.
Proof.
  intros Hi. apply map_ext_in. intros j Hj. apply list_elem_of_In in Hj. unfold addr_at.
  rewrite list_lookup_insert_ne; [done|]. intros ->. done.
Qed.

(** A list that starts at [head], of [n] different nodes. *)
Definition stack_ok (n : nat) (nodes : list Node) (head : nat) (l : list nat) : Prop :=
  seg nodes (Some head) None l /\ NoDup l /\ length l = n.

(** LRU on a list of tags, most recent first. *)
Fixpoint position (a : Z) (l : list Z) : option nat :=
  match l with [] => None | x :: l' => if x =? a then Some 0%nat else S <$> position a l' end.

Definition without (a : Z) (l : list Z) : list Z :=
  match position a l with Some b => delete b l | None => l end.

(** An access to a cache of [w] ways. *)
Definition touch (w : nat) (a : Z) (l : list Z) : list Z := take w (a :: without a l).

Lemma position_app a l1 l2 : a ∉ l1 -> position a (l1 ++ l2) = (Nat.add (length l1)) <$> position a l2.
Proof.
  induction l1 as [|x l1 IH]; intros Hn; cbn [app position length].
  - by destruct (position a l2).
  - apply not_elem_of_cons in Hn as [Hx Hn]. rewrite (proj2 (Z.eqb_neq x a)) by congruence.
    rewrite IH by done. by destruct (position a l2).
Qed.

Lemma position_lt a l b : position a l = Some b -> (b < length l)%nat.
Proof.
  revert b. induction l as [|x l IH]; intros b; cbn; [done|]. destruct (x =? a); [intros [= <-]; lia|].
  destruct (position a l) as [c|]; [|done]. intros [= <-]. specialize (IH c eq_refl). lia.
Qed.

Lemma position_none a l : position a l = None <-> a ∉ l.
Proof.
  induction l as [|x l IH]; cbn.
  - split; [intros _; apply not_elem_of_nil|done].
  - rewrite not_elem_of_cons. destruct (Z.eqb_spec x a) as [->|Hx]; [naive_solver|].
    destruct (position a l); cbn; naive_solver.
Qed.

Lemma position_take a l w : position a (take w l) =
  match position a l with Some b => if bool_decide (b < w)%nat then Some b else None | None => None end.
Proof.
  revert w. induction l as [|x l IH]; intros [|w]; cbn; [done|done|..].
  - destruct (x =? a); [done|]. by destruct (position a l).
  - destruct (x =? a); [done|]. rewrite IH. destruct (position a l) as [b|]; [|done]. cbn.
    destruct (decide (b < w)%nat).
    + by rewrite !bool_decide_eq_true_2 by lia.
    + by rewrite !bool_decide_eq_false_2 by lia.
Qed.

Lemma take_delete_lt {A} (l : list A) b w : (b <= w)%nat -> (b < length l)%nat -> take w (delete b l) = delete b (take (S w) l).
Proof.
  revert b w. induction l as [|x l IH]; intros [|b] [|w] Hb Hl; cbn in *; try done; try lia. f_equal. apply IH; lia.
Qed.

Lemma take_delete_ge {A} (l : list A) b w : (w <= b)%nat -> take w (delete b l) = take w l.
Proof.
  revert b w. induction l as [|x l IH]; intros [|b] [|w] Hb; cbn in *; try done; try lia. f_equal. apply IH; lia.
Qed.

(** A small cache holds the beginning of a large one's stack (inclusion). *)
Lemma touch_take w a l n : (w <= n)%nat -> touch w a (take w l) = take w (touch n a l).
Proof.
  intros Hw. unfold touch. rewrite take_take, Nat.min_l by done. destruct w as [|w]; [done|]. cbn [take]. f_equal.
  unfold without. rewrite position_take. destruct (position a l) as [b|] eqn:E.
  - pose proof (position_lt _ _ _ E) as Hb. destruct (decide (b < S w)%nat).
    + rewrite bool_decide_eq_true_2 by done. rewrite <- take_delete_lt by lia. rewrite take_take. f_equal. lia.
    + rewrite bool_decide_eq_false_2 by done. rewrite take_take, take_delete_ge by lia. f_equal. lia.
  - rewrite take_take. f_equal. lia.
Qed.

Lemma touch_length w a l : length l = w -> (0 < w)%nat -> length (touch w a l) = w.
Proof.
  intros Hl Hw. unfold touch, without. rewrite length_take. cbn [length]. destruct (position a l) as [b|] eqn:E; [|lia].
  pose proof (position_lt _ _ _ E). rewrite length_delete by by apply lookup_lt_is_Some. lia.
Qed.

(** ** The search and the move to the front *)

Lemma seg_lookup nodes p q l i : seg nodes p q l -> i ∈ l -> is_Some (nodes !! i).
Proof.
  revert p. induction l as [|j l IH]; intros p H Hi; [by apply elem_of_nil in Hi|].
  destruct H as (-> & nd & Hj & H). apply elem_of_cons in Hi as [->|Hi]; [by eexists|by eapply IH].
Qed.

Lemma addr_at_some nodes i nd : nodes !! i = Some nd -> addr_at nodes i = addr nd.
Proof. unfold addr_at. by intros ->. Qed.

(** The position, seen from the node under the cursor. *)
Lemma position_walk nodes a l pre cur rest nd : l = pre ++ cur :: rest -> position a (map (addr_at nodes) pre) = None ->
  nodes !! cur = Some nd -> position a (map (addr_at nodes) l) = if addr nd =? a then Some (length pre)
    else (fun b => length pre + S b)%nat <$> position a (map (addr_at nodes) rest).
Proof.
  intros -> Hpre Hc. rewrite map_app, position_app by (by apply position_none). rewrite length_map. cbn [map position].
  rewrite (addr_at_some _ _ _ Hc). destruct (addr nd =? a); cbn; [f_equal; lia|]. by destruct (position a (map _ rest)).
Qed.

Lemma walk_ok nodes a l head : seg nodes (Some head) None l -> forall rest pre cur,
  l = pre ++ cur :: rest -> position a (map (addr_at nodes) pre) = None ->
  exists pre' c post, walk nodes (length l) a (S (length rest)) (length pre) (last pre) cur
      = Ok (position a (map (addr_at nodes) l), last pre', c) /\
    l = pre' ++ c :: post /\ match position a (map (addr_at nodes) l) with Some b => length pre' = b | None => post = [] end.
Proof.
  intros Hl rest. induction rest as [|x rest IH]; intros pre cur El Hpre; cbn [walk].
  all: pose proof Hl as Hseg; rewrite El in Hseg; apply seg_app in Hseg as (r & _ & (-> & nd & Hcur & Hnext)).
  all: rewrite (rd_some _ _ _ Hcur); cbn [mbind outcome_bind].
  all: pose proof (position_walk nodes a l pre cur _ nd El Hpre Hcur) as Epos; rewrite Epos.
  all: destruct (addr nd =? a) eqn:Ea.
  - by exists pre, cur, [].
  - rewrite bool_decide_eq_false_2 by (rewrite El, length_app; cbn; lia). by exists pre, cur, [].
  - by exists pre, cur, (x :: rest).
  - rewrite bool_decide_eq_true_2 by (rewrite El, length_app; cbn; lia). destruct Hnext as (-> & Hn).
    assert (position a (map (addr_at nodes) (pre ++ [cur])) = None) as Hpre1.
    { apply position_none. apply position_none in Hpre. rewrite map_app. cbn [map]. rewrite (addr_at_some _ _ _ Hcur).
      intros [Hin|Hin]%elem_of_app; [done|]. apply list_elem_of_singleton in Hin. apply Z.eqb_neq in Ea. congruence. }
    destruct (IH (pre ++ [cur]) x ltac:(by rewrite <- app_assoc) Hpre1) as (pre' & c & post & Ew & El' & Hm).
    rewrite length_app, last_snoc, Nat.add_1_r in Ew. change (length (x :: rest)) with (S (length rest)).
    rewrite Ew, <- Epos. by exists pre', c, post.
Qed.

(** The node found goes to the front. *)
Lemma move_to_front_ok nodes head pre c post : seg nodes (Some head) None (pre ++ c :: post) -> NoDup (pre ++ c :: post) ->
  exists nodes' head', move_to_front nodes head (last pre) c = Ok (nodes', head') /\
    seg nodes' (Some head') None (c :: pre ++ post) /\ length nodes' = length nodes /\
    (forall i, addr_at nodes' i = addr_at nodes i).
Proof.
  intros Hseg Hnd. destruct pre as [|p0 pre0] eqn:Epre using rev_ind.
  { exists nodes, head. cbn [last move_to_front app] in *. done. }
  clear IHpre0. rename p0 into p. rewrite last_snoc. cbn [move_to_front]. rewrite <- app_assoc in Hseg, Hnd. cbn [app] in Hseg, Hnd.
  pose proof Hseg as H. apply seg_app in H as (r & Hpre & (-> & pn & Hp & (Enx & nc & Hc & Hpost))).
  pose proof Hnd as Hnd'. apply NoDup_app in Hnd' as (_ & Hdis & Hnd2).
  apply NoDup_cons in Hnd2 as [Hp2 Hnd3]. apply NoDup_cons in Hnd3 as [Hc3 _].
  assert (p <> c) as Hpc by (intros ->; apply Hp2; by left).
  assert (p ∉ pre0 /\ c ∉ pre0) as [Hp0 Hc0] by (split; intros Hin; apply (Hdis _ Hin); [by left|by right; left]).
  assert (p < length nodes)%nat as Hlp by (by eapply lookup_lt_Some).
  assert (c < length nodes)%nat as Hlc by (by eapply lookup_lt_Some).
  set (pn' := mkNode (addr pn) (next nc)). set (nodes1 := <[p := pn']> nodes).
  assert (nodes1 !! c = Some nc) as Hc1 by (unfold nodes1; by rewrite list_lookup_insert_ne).
  set (nc' := mkNode (addr nc) (Some head)). set (nodes2 := <[c := nc']> nodes1).
  exists nodes2, c. rewrite (rd_some _ _ _ Hc). cbn [mbind outcome_bind]. rewrite (rd_some _ _ _ Hp). cbn [mbind outcome_bind].
  rewrite wr_lt by done. cbn [mbind outcome_bind]. fold pn' nodes1. rewrite (rd_some _ _ _ Hc1). cbn [mbind outcome_bind].
  rewrite wr_lt by (unfold nodes1; by rewrite length_insert). split; [done|]. split; [|split].
  - cbn [seg app]. split; [done|]. exists nc'. split; [apply list_lookup_insert_eq; unfold nodes1; by rewrite length_insert|].
    cbn [next nc']. rewrite <- app_assoc. apply seg_app. exists (Some p). split.
    + assert (forall q, seg nodes (Some head) q pre0 -> seg nodes2 (Some head) q pre0) as Hf.
      { intros q H. unfold nodes2, nodes1. by apply seg_frame, seg_frame. }
      by apply Hf.
    + cbn [seg app]. split; [done|]. exists pn'. split.
      * unfold nodes2. rewrite list_lookup_insert_ne by done. unfold nodes1. by apply list_lookup_insert_eq.
      * cbn [next pn']. unfold nodes2, nodes1. apply seg_frame; [done|]. apply seg_frame; [|done].
        intros Hin. apply Hp2. by right.
  - unfold nodes2, nodes1. by rewrite !length_insert.
  - intros i. unfold addr_at, nodes2. destruct (decide (i = c)) as [->|Hic].
    + rewrite list_lookup_insert_eq by (unfold nodes1; by rewrite length_insert). by rewrite Hc.
    + rewrite list_lookup_insert_ne by done. unfold nodes1. destruct (decide (i = p)) as [->|Hip].
      * rewrite list_lookup_insert_eq by done. by rewrite Hp.
      * by rewrite list_lookup_insert_ne by done.
Qed.

(** ** One access *)

Definition sampled (u : UMon) (a : Z) : bool := match sample_hash u a with Ok x => x =? 0 | Fault _ => false end.
Definition set_of (u : UMon) (a : Z) : nat := match set_hash u a with Ok s => s | Fault _ => 0%nat end.

(** What [access] does not change. *)
Definition same_conf (u u' : UMon) : Prop := buckets u' = buckets u /\ sets u' = sets u /\ hf u' = hf u /\
  samplingFactorBits u' = samplingFactorBits u /\ setsBits u' = setsBits u.

Lemma same_conf_hash u u' : same_conf u u' -> (forall a, sampled u' a = sampled u a) /\ (forall a, set_of u' a = set_of u a).
Proof. intros (_ & _ & E1 & E2 & E3). unfold sampled, set_of, sample_hash, set_hash. by rewrite E1, E2, E3. Qed.

(** The lists of [u] hold the stacks [st]. *)
Definition holds (u : UMon) (s : nat) (l : list Z) : Prop := exists nodes head ids,
  array u !! s = Some nodes /\ heads u !! s = Some head /\
  seg nodes (Some head) None ids /\ NoDup ids /\ length ids = buckets u /\ l = map (addr_at nodes) ids.

Record umon_ok (u : UMon) (st : nat -> list Z) : Prop := {
  uo_buckets : (0 < buckets u)%nat /\ length (curWayHits u) = buckets u;
  uo_bits : 0 <= samplingFactorBits u < 64 /\ 0 <= setsBits u < 64 /\ 2 ^ setsBits u <= Z.of_nat (sets u);
  uo_hash : exists f, hf u = H3Hash f /\ H3Spec.wf f /\ H3.numFuncs f = 2%nat;
  uo_sets s : (s < sets u)%nat -> holds u s (st s)
}.

Lemma low_mask_ones k : 0 <= k < 64 -> low_mask k = Z.ones k.
Proof.
  intros Hk. unfold low_mask. change (max64 - 1) with (Z.ones 64). apply Z.bits_inj'. intros i Hi.
  rewrite Z.lxor_spec. unfold wrap. destruct (Z_lt_le_dec i 64) as [H1|H1].
  - rewrite Z.mod_pow2_bits_low by lia. rewrite Z.shiftl_spec by lia. rewrite (Z.ones_spec_low 64) by lia.
    destruct (Z_lt_le_dec i k).
    + rewrite (Z.testbit_neg_r _ (i - k)) by lia. by rewrite Z.ones_spec_low by lia.
    + rewrite (Z.ones_spec_low 64) by lia. by rewrite Z.ones_spec_high by lia.
  - rewrite Z.mod_pow2_bits_high by lia. rewrite (Z.ones_spec_high 64) by lia. by rewrite Z.ones_spec_high by lia.
Qed.

Lemma hashes_ok u st a : umon_ok u st -> word 64 a ->
  (exists x, sample_hash u a = Ok x) /\ set_hash u a = Ok (set_of u a) /\ (set_of u a < sets u)%nat.
Proof.
  intros [_ (H1 & H2 & H3) (f & Ef & Hwf & Hn) _] Ha. unfold set_of, sample_hash, set_hash. rewrite Ef. cbn [hash].
  destruct (H3Spec.hash_ok f 0 a Hwf ltac:(lia) Ha) as [E0 _]. destruct (H3Spec.hash_ok f 1 a Hwf ltac:(lia) Ha) as [E1 Hw].
  rewrite E0, E1. cbn [mbind outcome_bind mret outcome_ret]. split; [by eexists|]. split; [done|].
  rewrite low_mask_ones by done. rewrite Z.land_ones by lia.
  pose proof (Z.mod_pos_bound (H3Spec.hash_pure f 1 a) (2 ^ setsBits u) ltac:(lia)). lia.
Qed.

(** Storing one set's new list. *)
Lemma holds_store u st s nodes head ids wh m : umon_ok u st -> (s < sets u)%nat -> length wh = buckets u ->
  seg nodes (Some head) None ids -> NoDup ids -> length ids = buckets u ->
  exists arr hds, wr (array u) s nodes = Ok arr /\ wr (heads u) s head = Ok hds /\
    umon_ok (set_lists (set_counts u wh m) arr hds) (fun i => if decide (i = s) then map (addr_at nodes) ids else st i).
Proof.
  intros [H1 H2 H3 H4] Hs Hwh Hseg Hnd Hlen. destruct (H4 s Hs) as (n0 & h0 & i0 & Ha & Hh & _).
  apply lookup_lt_Some in Ha as Hla. apply lookup_lt_Some in Hh as Hlh.
  exists (<[s := nodes]> (array u)), (<[s := head]> (heads u)). rewrite !wr_lt by done. split; [done|]. split; [done|].
  constructor; cbn; try done; [by destruct H1|].
  intros i Hi. destruct (decide (i = s)) as [->|Hne].
  - exists nodes, head, ids. cbn. by rewrite !list_lookup_insert_eq.
  - destruct (H4 i Hi) as (n1 & h1 & i1 & E1 & E2 & E3). exists n1, h1, i1. cbn.
    by rewrite !list_lookup_insert_ne.
Qed.

(** A new address in a node keeps the segments. *)
Lemma seg_write nodes p q l i nd nd' : nodes !! i = Some nd -> next nd' = next nd -> seg nodes p q l ->
  seg (<[i := nd']> nodes) p q l.
Proof.
  intros Hi Hn. revert p. induction l as [|j l IH]; intros p; cbn [seg]; [done|].
  intros (-> & ndj & Hj & H). split; [done|]. destruct (decide (i = j)) as [->|Hne].
  - exists nd'. rewrite list_lookup_insert_eq by (by eapply lookup_lt_Some). split; [done|]. rewrite Hn. apply IH.
    rewrite Hj in Hi. injection Hi as <-. done.
  - exists ndj. rewrite list_lookup_insert_ne by done. auto.
Qed.

Lemma position_lookup a l b : position a l = Some b -> l !! b = Some a.
Proof.
  revert b. induction l as [|x l IH]; intros b; cbn; [done|]. destruct (Z.eqb_spec x a) as [->|]; [by intros [= <-]|].
  destruct (position a l) as [c|]; [|done]. intros [= <-]. by apply IH.
Qed.

(** What the moved list holds, after a hit and after a miss. *)
Lemma touch_hit a l1 x l2 n : position a (l1 ++ x :: l2) = Some (length l1) -> length (l1 ++ x :: l2) = n ->
  touch n a (l1 ++ x :: l2) = x :: l1 ++ l2.
Proof.
  intros E Hn. unfold touch, without. rewrite E, delete_middle. apply position_lookup in E. rewrite list_lookup_middle in E by done.
  injection E as ->. apply take_ge. rewrite length_app in Hn. cbn in *. rewrite length_app. lia.
Qed.

Lemma touch_miss a l1 x n : position a (l1 ++ [x]) = None -> length (l1 ++ [x]) = n -> touch n a (l1 ++ [x]) = a :: l1.
Proof.
  intros E Hn. unfold touch, without. rewrite E. rewrite length_app in Hn. cbn in Hn. subst n. rewrite Nat.add_1_r. cbn [take].
  f_equal. apply take_app_length.
Qed.

Lemma access_ok u st a : umon_ok u st -> word 64 a -> exists u', access u a = Ok u' /\ same_conf u u' /\
  if sampled u a then
    umon_ok u' (fun i => if decide (i = set_of u a) then touch (buckets u) a (st (set_of u a)) else st i) /\
    match position a (st (set_of u a)) with
    | Some b => curMisses u' = curMisses u /\
        exists n, curWayHits u !! b = Some n /\ curWayHits u' = <[b := n +64 1]> (curWayHits u)
    | None => curMisses u' = curMisses u +64 1 /\ curWayHits u' = curWayHits u
    end
  else u' = u.
Proof.
  intros Hu Ha. destruct (hashes_ok u st a Hu Ha) as ((x & Ex) & Es & Hs). set (sx := set_of u a) in *.
  unfold access, sampled. rewrite Ex. cbn [mbind outcome_bind]. destruct (x =? 0); cbn [negb]; [|by exists u].
  rewrite Es. cbn [mbind outcome_bind]. destruct (uo_sets _ _ Hu sx Hs) as (nodes & head & ids & En & Eh & Hseg & Hnd & Hlen & Est).
  rewrite (rd_some _ _ _ Eh). cbn [mbind outcome_bind]. rewrite (rd_some _ _ _ En). cbn [mbind outcome_bind].
  destruct (uo_buckets _ _ Hu) as [HB Hwh]. destruct ids as [|i0 ids0] eqn:Eids; [cbn in Hlen; lia|].
  assert (i0 = head) as -> by (destruct Hseg as [[= ->] _]; done). rewrite <- Eids in *.
  destruct (walk_ok nodes a ids head Hseg ids0 [] head ltac:(done) ltac:(done)) as (pre & c & post & Ew & Ei & Hm).
  rewrite <- Hlen. cbn [length last] in Ew. replace (S (length ids0)) with (length ids) in Ew by (by rewrite Eids).
  rewrite Ew. cbn [mbind outcome_bind]. rewrite <- Est in Hm |- *. rewrite Ei in Hseg, Hnd.
  assert (length (st sx) = length ids) as Hls by (rewrite Est; apply length_map).
  assert (st sx = map (addr_at nodes) pre ++ addr_at nodes c :: map (addr_at nodes) post) as Est' by (by rewrite Est, Ei, map_app).
  destruct (position a (st sx)) as [b|] eqn:Ep.
  - pose proof (position_lt _ _ _ Ep) as Hb. destruct (lookup_lt_is_Some_2 (curWayHits u) b ltac:(lia)) as [n Hn].
    rewrite (rd_some _ _ _ Hn). cbn [mbind outcome_bind]. rewrite wr_lt by lia. cbn [mbind outcome_bind mret outcome_ret].
    destruct (move_to_front_ok nodes head pre c post Hseg Hnd) as (nodes' & head' & Em & Hseg' & _ & Hf).
    rewrite Em. cbn [mbind outcome_bind].
    destruct (holds_store u st sx nodes' head' (c :: pre ++ post) (<[b:=n +64 1]> (curWayHits u)) (curMisses u) Hu Hs)
      as (arr & hds & E1 & E2 & Hok); [by rewrite length_insert|done|by rewrite (Permutation_middle pre post c)|
      rewrite <- Hlen, Ei, (Permutation_middle pre post c); done|].
    cbn [array heads set_counts]. rewrite E1. cbn [mbind outcome_bind]. rewrite E2. cbn [mbind outcome_bind mret outcome_ret].
    eexists. split; [done|]. split; [done|]. split; [|cbn; eauto].
    erewrite (map_ext _ (addr_at nodes)) in Hok by done. cbn [map] in Hok. rewrite map_app in Hok.
    rewrite Est', touch_hit; [done|rewrite <- Est', Ep; f_equal; by rewrite length_map|by rewrite <- Est'].
  - subst post. assert (exists nc, nodes !! c = Some nc /\ next nc = None) as (nc & Hc & Enc).
    { apply seg_app in Hseg as (r & _ & (-> & nc & Hc & Enc)). by exists nc. }
    rewrite (rd_some _ _ _ Hc). cbn [mbind outcome_bind]. rewrite bool_decide_eq_true_2 by done. cbn [check mbind outcome_bind].
    rewrite wr_lt by (by eapply lookup_lt_Some). cbn [mbind outcome_bind mret outcome_ret]. set (nodes1 := <[c := _]> nodes).
    destruct (move_to_front_ok nodes1 head pre c [] ltac:(by eapply seg_write) Hnd) as (nodes' & head' & Em & Hseg' & _ & Hf).
    rewrite Em. cbn [mbind outcome_bind].
    destruct (holds_store u st sx nodes' head' (c :: pre ++ []) (curWayHits u) (curMisses u +64 1) Hu Hs)
      as (arr & hds & E1 & E2 & Hok); [done|done|by rewrite (Permutation_middle pre [] c)|
      rewrite <- Hlen, Ei, (Permutation_middle pre [] c); done|].
    cbn [array heads set_counts]. rewrite E1. cbn [mbind outcome_bind]. rewrite E2. cbn [mbind outcome_bind mret outcome_ret].
    eexists. split; [done|]. split; [done|]. split; [|done].
    erewrite (map_ext _ (addr_at nodes1)) in Hok by done. cbn [map] in Hok. rewrite app_nil_r in Hok.
    assert (c ∉ pre) as Hcp. { apply NoDup_app in Hnd as (_ & Hd & _). intros Hin. apply (Hd c Hin). by left. }
    unfold nodes1 in Hok at 2. rewrite addrs_frame in Hok by done.
    assert (addr_at nodes1 c = a) as Eac.
    { unfold nodes1. rewrite (addr_at_some _ c (mkNode a (next nc))); [done|]. apply list_lookup_insert_eq. by eapply lookup_lt_Some. }
    rewrite Eac in Hok. cbn [map] in Est'. rewrite Est', touch_miss; [done|by rewrite <- Est'|by rewrite <- Est'].
Qed.

(** ** The miss curve *)

Definition zsum (l : list Z) : Z := foldr Z.add 0 l.

Lemma zsum_app l1 l2 : zsum (l1 ++ l2) = zsum l1 + zsum l2.
Proof. unfold zsum. induction l1 as [|x l1 IH]; cbn; lia. Qed.

Lemma zsum_nonneg l : Forall (Z.le 0) l -> 0 <= zsum l.
Proof. induction 1; cbn; [done|]. unfold zsum in *. cbn. lia. Qed.

(** What the counters say of a cache of [w] ways. *)
Definition misses_at (u : UMon) (w : nat) : Z := curMisses u + zsum (drop w (curWayHits u)).

Definition counters_ok (u : UMon) : Prop := 0 <= curMisses u /\ Forall (Z.le 0) (curWayHits u).

Lemma zsum_drop l w i x : l !! i = Some x -> zsum (drop w (<[i := x + 1]> l)) = zsum (drop w l) + (if bool_decide (w <= i)%nat then 1 else 0).
Proof.
  intros Hi. destruct (decide (w <= i)%nat) as [Hw|Hw].
  - rewrite bool_decide_eq_true_2 by done. rewrite drop_insert_ge by done.
    assert (drop w l !! (i - w)%nat = Some x) as Hx by (rewrite lookup_drop; rewrite <- Hi; f_equal; lia).
    rewrite <- (take_drop_middle _ _ _ Hx) at 2. rewrite insert_take_drop by (by eapply lookup_lt_Some).
    rewrite !zsum_app. unfold zsum at 2 4. cbn. fold (zsum (drop (S (i - w)) (drop w l))). lia.
  - rewrite bool_decide_eq_false_2 by done. rewrite drop_insert_lt by lia. lia.
Qed.

Lemma fill_misses_ok wh i : forall buf total, (i <= length wh)%nat -> (i < length buf)%nat -> Forall (Z.le 0) wh ->
  0 <= total -> total + zsum (take i wh) < max64 ->
  exists buf', fill_misses wh buf i total = Ok (buf', total + zsum (take i wh)) /\ length buf' = length buf /\
    forall w, (0 < w <= i)%nat -> buf' !! w = Some (total + zsum (drop w (take i wh))).
Proof.
  induction i as [|i IH]; intros buf total Hwh Hbuf Hpos H0 Hmax; cbn [fill_misses].
  - exists buf. cbn. rewrite Z.add_0_r. split; [done|]. split; [done|]. lia.
  - rewrite wr_lt by done. cbn [mbind outcome_bind]. destruct (lookup_lt_is_Some_2 wh i ltac:(lia)) as [x Hx].
    rewrite (rd_some _ _ _ Hx). cbn [mbind outcome_bind]. rewrite (take_S_r _ _ _ Hx) in *.
    rewrite zsum_app in *. change (zsum [x]) with (x + 0) in *.
    pose proof (proj1 (Forall_lookup _ _) Hpos i x Hx). pose proof (zsum_nonneg (take i wh) ltac:(by apply Forall_take)).
    rewrite u64_small by lia.
    destruct (IH (<[S i:=total]> buf) (total + x)) as (buf' & E & Hl & Hb); [lia|rewrite length_insert; lia|done|lia|lia|].
    exists buf'. rewrite E. split; [do 2 f_equal; lia|]. split; [by rewrite Hl, length_insert|].
    intros w Hw. destruct (decide (w = S i)) as [->|Hne].
    + assert (forall n b t b' t', fill_misses wh b n t = Ok (b', t') -> (n <= i)%nat -> b' !! S i = b !! S i) as Hk.
      { induction n as [|n IHn]; intros b t b' t'; cbn [fill_misses]; [by intros [= <- <-]|]. intros Hf Hn.
        destruct (wr b (S n) t) as [b1|] eqn:Ew; [|done]. cbn [mbind outcome_bind] in Hf. apply wr_ok in Ew as [_ ->].
        destruct (rd wh n) as [y|]; [|done]. cbn [mbind outcome_bind] in Hf. rewrite (IHn _ _ _ _ Hf) by lia.
        by rewrite list_lookup_insert_ne by lia. }
      rewrite (Hk _ _ _ _ _ E) by done. rewrite list_lookup_insert_eq by done.
      rewrite drop_ge by (rewrite length_app, length_take; cbn; lia). cbn. f_equal. lia.
    + rewrite Hb by lia. f_equal. rewrite drop_app_le by (rewrite length_take; lia). rewrite zsum_app. cbn. lia.
Qed.

Lemma getMisses_ok u st buf : umon_ok u st -> counters_ok u -> (buckets u < length buf)%nat -> misses_at u 0 < max64 ->
  exists curve, getMisses u buf = Ok curve /\ forall w, (w <= buckets u)%nat -> curve !! w = Some (misses_at u w).
Proof.
  intros Hu [H0 Hpos] Hb Hm. destruct (uo_buckets _ _ Hu) as [HB Hwh]. unfold getMisses, misses_at in *.
  rewrite drop_0 in Hm. destruct (fill_misses_ok (curWayHits u) (buckets u) buf (curMisses u)) as (buf' & E & Hl & Hw);
    [lia|done|done|done|by rewrite take_ge by lia|].
  rewrite E. cbn [mbind outcome_bind]. rewrite wr_lt by lia. eexists. split; [done|]. intros w Hle.
  destruct w as [|w].
  - rewrite list_lookup_insert_eq by lia. by rewrite drop_0, take_ge by lia.
  - rewrite list_lookup_insert_ne, Hw by lia. by rewrite take_ge by lia.
Qed.

(** The reference: the misses of [w]-way LRU caches, one for each set, on the
    sampled accesses. *)
Fixpoint lru_misses (u : UMon) (w : nat) (st : nat -> list Z) (tr : list Z) : Z :=
  match tr with
  | [] => 0
  | a :: tr' =>
      let s := set_of u a in
      if sampled u a then
        (if bool_decide (a ∈ st s) then 0 else 1) + lru_misses u w (fun i => if decide (i = s) then touch w a (st s) else st i) tr'
      else lru_misses u w st tr'
  end.

Fixpoint run (u : UMon) (tr : list Z) : outcome UMon :=
  match tr with [] => mret u | a :: tr' => u ← access u a; run u tr' end.

Lemma lru_misses_ext u u' w tr : same_conf u u' -> forall st st', (forall i, st i = st' i) ->
  lru_misses u' w st tr = lru_misses u w st' tr.
Proof.
  intros Hc. destruct (same_conf_hash _ _ Hc) as [H1 H2]. induction tr as [|a tr IH]; intros st st' He; cbn; [done|].
  rewrite H1, H2, He. rewrite (IH st st') by done. destruct (sampled u a); [|done]. f_equal. apply IH.
  intros i. rewrite !He. done.
Qed.

Lemma same_conf_trans u1 u2 u3 : same_conf u1 u2 -> same_conf u2 u3 -> same_conf u1 u3.
Proof. unfold same_conf. intuition congruence. Qed.

Lemma run_ok tr : forall u st, umon_ok u st -> counters_ok u -> Forall (word 64) tr ->
  misses_at u 0 + Z.of_nat (length tr) < max64 ->
  exists u' st', run u tr = Ok u' /\ umon_ok u' st' /\ same_conf u u' /\ counters_ok u' /\ misses_at u' 0 < max64 /\
    forall w, (w <= buckets u)%nat -> misses_at u' w = misses_at u w + lru_misses u w (fun s => take w (st s)) tr.
Proof.
  induction tr as [|a tr IH]; intros u st Hu Hc Hw Hm; cbn [run length lru_misses] in *.
  - exists u, st. split; [done|]. split; [done|]. split; [done|]. split; [done|]. split; [lia|]. intros. lia.
  - apply Forall_cons in Hw as [Ha Hw]. destruct (access_ok u st a Hu Ha) as (u1 & E & Hs & Hstep). rewrite E. cbn [mbind outcome_bind].
    destruct (sampled u a) eqn:Esa.
    + destruct Hstep as [Hu1 Hcnt]. set (sx := set_of u a) in *. pose proof (uo_buckets _ _ Hu) as [HB Hwh]. destruct Hc as [Hc0 Hc1].
      assert (counters_ok u1 /\ forall w, (w <= buckets u)%nat ->
        misses_at u1 w = misses_at u w + (if bool_decide (a ∈ take w (st sx)) then 0 else 1)) as [Hc' Hmw].
      { assert (0 <= zsum (curWayHits u)) as Hz by by apply zsum_nonneg.
        unfold misses_at in Hm. rewrite drop_0 in Hm.
        assert (forall w, bool_decide (a ∈ take w (st sx)) = match position a (st sx) with Some b => bool_decide (b < w)%nat | None => false end) as Hin.
        { intros w. pose proof (position_take a (st sx) w) as Hp. pose proof (position_none a (take w (st sx))) as Hpn.
          destruct (decide (a ∈ take w (st sx))) as [Hi|Hi].
          - rewrite bool_decide_eq_true_2 by done. destruct (position a (st sx)) as [b|].
            + case_bool_decide; [done|]. exfalso. by apply Hpn in Hp.
            + exfalso. by apply Hpn in Hp.
          - rewrite bool_decide_eq_false_2 by done. apply Hpn in Hi. rewrite Hi in Hp. destruct (position a (st sx)); [|done].
            by case_bool_decide. }
        unfold counters_ok, misses_at. destruct (position a (st sx)) as [b|] eqn:Ep.
        - destruct Hcnt as [-> (n & Hn & ->)]. pose proof (proj1 (Forall_lookup _ _) Hc1 b n Hn).
          assert (n <= zsum (curWayHits u)) as Hle.
          { rewrite <- (take_drop_middle _ _ _ Hn), zsum_app. unfold zsum at 2. cbn. fold (zsum (drop (S b) (curWayHits u))).
            pose proof (zsum_nonneg (take b (curWayHits u)) ltac:(by apply Forall_take)).
            pose proof (zsum_nonneg (drop (S b) (curWayHits u)) ltac:(by apply Forall_drop)). lia. }
          rewrite u64_small by lia. split; [split; [done|]; apply Forall_insert; [done|lia]|].
          intros w _. rewrite Hin, (zsum_drop _ w b n Hn). repeat case_bool_decide; lia.
        - destruct Hcnt as [-> ->]. rewrite u64_small by lia. split; [split; [lia|done]|]. intros w _. rewrite Hin. lia. }
      destruct (IH u1 _ Hu1 Hc' Hw) as (u' & st' & E' & Hu' & Hs' & Hc2 & Hm2 & Hres).
      { rewrite Hmw by lia. case_bool_decide; lia. }
      exists u', st'. split; [done|]. split; [done|]. split; [by eapply same_conf_trans|]. split; [done|]. split; [done|].
      intros w Hle. assert (buckets u1 = buckets u) as Eb by apply Hs. rewrite Hres by lia. rewrite Hmw by done.
      rewrite <- Z.add_assoc. f_equal. f_equal. apply lru_misses_ext; [done|]. intros i.
      destruct (decide (i = sx)) as [->|]; [|done]. symmetry. by apply touch_take.
    + subst u1. destruct (IH u st Hu Hc Hw ltac:(lia)) as (u' & st' & H). by exists u', st'.
Qed.

(** ** The monitor as built *)

Lemma count_bits_spec n : forall tmp bits, 0 < tmp -> bits <= count_bits n tmp bits <= bits + Z.of_nat n /\
  2 ^ (count_bits n tmp bits - bits) <= tmp.
Proof.
  induction n as [|n IH]; intros tmp bits Ht; cbn [count_bits]; [rewrite Z.sub_diag; lia|].
  rewrite Z.shiftr_div_pow2 by lia. change (2 ^ 1) with 2. destruct (Z.eqb_spec (tmp / 2) 0) as [|Hd]; [rewrite Z.sub_diag; lia|].
  pose proof (Z.div_pos tmp 2 ltac:(lia) ltac:(lia)). destruct (IH (tmp / 2) (bits + 1) ltac:(lia)) as [H1 H2].
  split; [lia|]. replace (count_bits n (tmp / 2) (bits + 1) - bits) with (Z.succ (count_bits n (tmp / 2) (bits + 1) - (bits + 1))) by lia.
  rewrite Z.pow_succ_r by lia. pose proof (Z.div_mod tmp 2 ltac:(lia)). pose proof (Z.mod_pos_bound tmp 2 ltac:(lia)). lia.
Qed.

Definition fresh_nodes (b : nat) : list Node :=
  imap (fun j _ => mkNode 0 (if bool_decide (j < b - 1)%nat then Some (S j) else None)) (replicate b tt).

Lemma fresh_lookup b j : (j < b)%nat -> fresh_nodes b !! j = Some (mkNode 0 (if bool_decide (j < b - 1)%nat then Some (S j) else None)).
Proof. intros Hj. unfold fresh_nodes. rewrite list_lookup_imap, lookup_replicate_2 by done. done. Qed.

Lemma fresh_seg b n j : (n + j = b)%nat -> (0 < n)%nat -> seg (fresh_nodes b) (Some j) None (seq j n).
Proof.
  revert j. induction n as [|n IH]; intros j Hb Hn; [lia|]. cbn [seq seg]. split; [done|].
  eexists. split; [apply fresh_lookup; lia|]. cbn [next]. destruct n as [|n].
  - rewrite bool_decide_eq_false_2 by lia. done.
  - rewrite bool_decide_eq_true_2 by lia. apply IH; lia.
Qed.

Lemma fresh_addrs b j n : (j + n <= b)%nat -> map (addr_at (fresh_nodes b)) (seq j n) = replicate n 0.
Proof.
  revert j. induction n as [|n IH]; intros j Hb; [done|]. cbn [seq map replicate]. rewrite IH by lia.
  by erewrite addr_at_some by (apply fresh_lookup; lia).
Qed.

Lemma UMon_new_ok bankLines lines bkts : 0 < bkts <= lines -> lines < max32 -> 0 <= bankLines < max32 ->
  exists u, UMon_new bankLines lines bkts = Ok u /\ umon_ok u (fun _ => replicate (buckets u) 0) /\ counters_ok u /\
    misses_at u 0 = 0 /\ buckets u = Z.to_nat bkts.
Proof.
  intros Hb Hl Hk. unfold UMon_new. rewrite (proj2 (Z.eqb_neq lines 0)), (proj2 (Z.eqb_neq bkts 0)) by lia. cbn [orb].
  destruct (H3.make 2 32 0xF000BAAD) as [f|] eqn:Ef; [|done]. cbn [mbind outcome_bind mret outcome_ret].
  destruct (H3Spec.h3_make_wf _ _ _ _ Ef) as [Hwf Hn]. eexists. split; [done|].
  assert (1 <= lines / bkts) as Hs1 by (apply Z.div_le_lower_bound; lia).
  assert (forall i, zsum (replicate i 0) = 0) as Hz by (induction i; [done|]; cbn; done).
  split; [|split; [|split]]; [|split; [cbn; lia|]; apply Forall_replicate; lia|unfold misses_at; cbn [curMisses curWayHits];
    rewrite drop_0, Hz; lia|done].
  constructor; cbn [buckets curWayHits samplingFactorBits setsBits sets hf array heads].
  - rewrite length_replicate. lia.
  - pose proof (count_bits_spec 32 (lines / bkts) 0 ltac:(lia)) as [H1 H2]. rewrite Z.sub_0_r in H2.
    split; [|split; [lia|by rewrite Z2Nat.id by lia]]. destruct (Z.eq_dec (bankLines / lines) 0) as [->|Hne]; [done|].
    pose proof (Z.div_pos bankLines lines ltac:(lia) ltac:(lia)).
    pose proof (count_bits_spec 32 (bankLines / lines) 0 ltac:(lia)) as [H3 _]. lia.
  - by exists f.
  - intros s Hs. exists (fresh_nodes (Z.to_nat bkts)), 0%nat, (seq 0 (Z.to_nat bkts)). cbn [array heads buckets].
    rewrite !lookup_replicate_2 by done. split; [done|]. split; [done|]. split; [apply fresh_seg; lia|].
    split; [apply NoDup_seq|]. split; [apply length_seq|]. by rewrite fresh_addrs.
Qed.

Lemma sum_hits_ok wh i : forall total, (i <= length wh)%nat -> Forall (Z.le 0) wh -> 0 <= total ->
  total + zsum (take i wh) < max64 -> sum_hits wh i total = Ok (total + zsum (take i wh)).
Proof.
  induction i as [|i IH]; intros total Hi Hpos H0 Hmax; cbn [sum_hits]; [rewrite take_0; unfold zsum; cbn; unfold mret, outcome_ret; f_equal; lia|].
  destruct (lookup_lt_is_Some_2 wh i ltac:(lia)) as [x Hx]. rewrite (rd_some _ _ _ Hx). cbn [mbind outcome_bind].
  rewrite (take_S_r _ _ _ Hx), zsum_app in *. change (zsum [x]) with (x + 0) in *.
  pose proof (proj1 (Forall_lookup _ _) Hpos i x Hx). pose proof (zsum_nonneg (take i wh) ltac:(by apply Forall_take)).
  rewrite u64_small by lia. rewrite IH by (done || lia). f_equal. lia.
Qed.

End UMonSpec.

Module UMonProps.
Import UMonSpec.

(** C11: The miss curve of a utility monitor is exact: after any trace, entry [w]
    of [getMisses] is the number of sampled accesses that would miss in caches
    of [w] ways (one for each of the monitor's sets, LRU, initially empty), for
    every [w] up to the monitor's ways, and [getNumAccesses] is the number of
    sampled accesses.  The reference caches are lists cut to [w]; the monitor
    keeps one linked list a set for all of them. *)
Theorem umon_curve (bankLines lines bkts : Z) (u : UMon) (tr buf : list Z) :
  UMon_new bankLines lines bkts = Ok u -> 0 < bkts <= lines -> lines < max32 -> 0 <= bankLines < max32 ->
  Forall (word 64) tr -> Z.of_nat (length tr) < max64 -> (Z.to_nat bkts < length buf)%nat ->
  exists u' curve, run u tr = Ok u' /\ getMisses u' buf = Ok curve /\
    (forall w, (w <= Z.to_nat bkts)%nat -> curve !! w = Some (lru_misses u w (fun _ => replicate w 0) tr)) /\
    getNumAccesses u' = Ok (lru_misses u 0 (fun _ => []) tr).
Proof.
  intros Hnew Hb Hl Hk Hw Hlen Hbuf. destruct (UMon_new_ok bankLines lines bkts Hb Hl Hk) as (u0 & E & Hok & Hc & Hm & Eb).
  rewrite Hnew in E. injection E as <-. destruct (run_ok tr u _ Hok Hc Hw ltac:(lia)) as (u' & st' & E & Hok' & Hs & Hc' & Hm' & Hres).
  assert (buckets u' = buckets u) as Eb' by apply Hs.
  destruct (getMisses_ok u' st' buf Hok' Hc' ltac:(lia) Hm') as (curve & Eg & Hcurve).
  assert (forall w, (w <= buckets u)%nat -> misses_at u' w = lru_misses u w (fun _ => replicate w 0) tr) as Hw0.
  { intros w Hwb. rewrite Hres by done. assert (misses_at u w = 0) as ->.
    { unfold misses_at in *. rewrite drop_0 in Hm. destruct Hc as [Hc0 Hc1].
      rewrite <- (take_drop w (curWayHits u)), zsum_app in Hm.
      pose proof (zsum_nonneg (take w (curWayHits u)) ltac:(by apply Forall_take)).
      pose proof (zsum_nonneg (drop w (curWayHits u)) ltac:(by apply Forall_drop)). lia. }
    rewrite Z.add_0_l. apply lru_misses_ext; [done|]. intros _. rewrite take_replicate. f_equal. lia. }
  exists u', curve. split; [done|]. split; [done|]. split; [intros w Hwb; rewrite Hcurve by lia; f_equal; apply Hw0; lia|].
  unfold getNumAccesses. destruct Hc' as [Hc0 Hc1]. destruct (uo_buckets _ _ Hok') as [_ Hwh].
  unfold misses_at in Hm'. rewrite drop_0 in Hm'. rewrite sum_hits_ok by (rewrite ?take_ge by lia; done || lia).
  rewrite take_ge by lia. f_equal. specialize (Hw0 0%nat ltac:(lia)). unfold misses_at in Hw0. by rewrite drop_0 in Hw0.
Qed.

Definition demo : UMon := match UMon_new 64 16 4 with Ok u => u | Fault _ => mkUMon 0 0 0 0 0 0 [] 0 [] [] IdHash end.
Definition demo_trace : list Z := map Z.of_nat (seq 1 40 ++ seq 1 40 ++ [4; 9; 4; 9])%nat.

Lemma umon_curve_witness : exists u' curve, run demo demo_trace = Ok u' /\ getMisses u' [0; 0; 0; 0; 0] = Ok curve /\
    (forall w, (w <= 4)%nat -> curve !! w = Some (lru_misses demo w (fun _ => replicate w 0) demo_trace)) /\
    getNumAccesses u' = Ok (lru_misses demo 0 (fun _ => []) demo_trace).
Proof.
  apply (umon_curve 64 16 4 demo demo_trace [0; 0; 0; 0; 0]); [by vm_compute|lia|rewrite max32_eq; lia|rewrite max32_eq; lia|..].
  - unfold demo_trace. apply Forall_forall. intros x Hx. apply list_elem_of_fmap in Hx as (n & -> & Hn).
    assert (n < 100)%nat as Hlt; [|unfold word; lia]. rewrite !elem_of_app, !elem_of_seq in Hn. set_solver by lia.
  - rewrite max64_eq. by vm_compute.
  - by vm_compute.
Defined.

End UMonProps.
