(* ===== verification/Partition.v ===== *)
(** * Cache partitioning (src/src/partition_mapper.h/.cpp, partitioner.h, monitor.cpp,
    lookahead.cpp, part_repl_policies.h)

    Which partition a request belongs to, the monitors of the partitions' miss
    curves, the lookahead allocation, and the way-partitioned replacement
    policy. *)

From S2P Require Import Prelude Floats MTRand Hash MemHier ReplPolicies UMon.
Local Open Scope Z_scope.

(** ** Partition mappers *)

(** What mappers read of the process and of zinfo. *)
Record ProcEnv := mkEnv { procIdx : nat; numProcGroups : nat; groupIdx : list nat }.

Inductive PartMapper :=
  | CorePartMapper (numCores : nat)
  | InstrDataPartMapper
  | InstrDataCorePartMapper (numCores : nat)
  | ProcessPartMapper (numProcs : nat)
  | InstrDataProcessPartMapper (numProcs : nat)
  | ProcessGroupPartMapper.

Definition getNumPartitions (env : ProcEnv) (m : PartMapper) : nat :=
  match m with
  | CorePartMapper n | ProcessPartMapper n => n
  | InstrDataPartMapper => 2
  | InstrDataCorePartMapper n | InstrDataProcessPartMapper n => 2 * n
  | ProcessGroupPartMapper => numProcGroups env
  end.

Definition getPartition (env : ProcEnv) (m : PartMapper) (req : MemReq) : outcome nat :=
  match m with
  | CorePartMapper _ => mret (srcId req)
  | InstrDataPartMapper => mret (Z.to_nat (Z.land (flags req) IFETCH))
  | InstrDataCorePartMapper n => mret (srcId req + (if req_is req IFETCH then n else 0))%nat
  | ProcessPartMapper n => _ ← check (bool_decide (procIdx env < n)%nat); mret (procIdx env)
  | InstrDataProcessPartMapper n =>
      _ ← check (bool_decide (procIdx env < n)%nat);
      mret (procIdx env + (if req_is req IFETCH then n else 0))%nat
  | ProcessGroupPartMapper =>
      g ← rd (groupIdx env) (procIdx env);
      _ ← check (bool_decide (g < numProcGroups env)%nat);
      mret g
  end.

(** ** Monitors *)

Class PartitionMonitor (M : Type) := {
  mon_getNumPartitions : M -> nat;
  mon_access : M -> nat -> Z -> outcome M;
  mon_get : nat -> nat -> ST M Z; (* const in C++, with a mutable cache *)
  mon_reset : M -> M
}.

Module UMonMonitor.

Record t := mk { buckets : nat; missCache : list Z; missCacheValid : bool; monitors : list UMon }.

Definition make (numLines umonLines umonBuckets : Z) (numPartitions buckets : nat) : outcome t :=
  _ ← check (bool_decide (0 < numPartitions)%nat);
  ms ← mapM (fun _ => UMon_new numLines umonLines umonBuckets) (replicate numPartitions tt);
  mret (mk buckets (replicate (buckets * numPartitions) 0) false ms).

Definition access (m : t) (partition : nat) (lineAddr : Z) : outcome t :=
  _ ← check (bool_decide (partition < length (monitors m))%nat);
  u ← rd (monitors m) partition;
  u ← UMon.access u lineAddr;
  ms ← wr (monitors m) partition u;
  _ ← check (negb (missCacheValid m));
  mret (mk (buckets m) (missCache m) false ms).

Definition getNumAccesses (m : t) (partition : nat) : outcome Z :=
  _ ← check (bool_decide (partition < length (monitors m))%nat);
  u ← rd (monitors m) partition;
  n ← UMon.getNumAccesses u; mret (u32 n).

(** [misses\[i\] = v], [misses] pointing into the cache at [off]. *)
Definition wr_at (cache : list Z) (off i : nat) (v : Z) : outcome (list Z) := wr cache (off + i) (u32 v).

(** The points between two of the monitor's, linearly. *)
Fixpoint interpolate (cache : list Z) (off base ratio k n : nat) (m0 m1 : spec_float) : outcome (list Z) :=
  match n with
  | O => mret cache
  | S n' =>
      let frac := f64_div (f64_of_Z (Z.of_nat k)) (f64_of_Z (Z.of_nat ratio)) in
      let m := f64_add (f64_mul m0 (f64_sub f64_one frac)) (f64_mul m1 frac) in
      cache ← wr_at cache off (base + k) (f64_trunc m);
      interpolate cache off base ratio (S k) n' m0 m1
  end.

(** The buffer for the monitor's curve has [umonBuckets] entries. *)
Definition getMissCurve (m : t) (cache : list Z) (off partition : nat) : outcome (list Z) :=
  _ ← check (bool_decide (partition < length (monitors m))%nat);
  u ← rd (monitors m) partition;
  let ub := UMon.buckets u in
  umonMisses ← getMisses u (replicate ub 0);
  if bool_decide (buckets m <= ub)%nat then
    let ratio := (ub / buckets m)%nat in
    _ ← check (bool_decide (ub mod buckets m = 0)%nat);
    cache ← loop (fun cache j => x ← rd umonMisses (j * ratio); wr_at cache off j x) cache (seq 0 (buckets m));
    x ← rd umonMisses ub;
    wr_at cache off (buckets m) x
  else
    let ratio := (buckets m / ub)%nat in
    _ ← check (bool_decide (buckets m mod ub = 0)%nat);
    loop (fun cache j =>
        m0 ← rd umonMisses j;
        cache ← wr_at cache off (ratio * j) m0;
        m1 ← rd umonMisses (S j);
        cache ← interpolate cache off (ratio * j) ratio 1 (ratio - 1) (f64_of_Z m0) (f64_of_Z m1);
        x ← rd umonMisses ub;
        wr_at cache off (buckets m) x)
      cache (seq 0 ub).

Definition getMissCurves (m : t) : outcome (list Z) :=
  loop (fun cache p => getMissCurve m cache (p * buckets m) p) (missCache m) (seq 0 (length (monitors m))).

Definition get (partition bucket : nat) : ST t Z :=
  m ← Prelude.get;
  _ ← assertS (bool_decide (partition < length (monitors m))%nat);
  _ ← whenS (negb (missCacheValid m))
        (c ← lift (getMissCurves m); put (mk (buckets m) c true (monitors m)));
  m ← Prelude.get;
  lift (rd (missCache m) (partition * buckets m + bucket)).

Definition reset (m : t) : t := mk (buckets m) (missCache m) false (map startNextInterval (monitors m)).

#[global] Instance monitor : PartitionMonitor t :=
  { mon_getNumPartitions := fun m => length (monitors m); mon_access := access; mon_get := get; mon_reset := reset }.

End UMonMonitor.

(** ** Lookahead *)

Module lookahead.
Section ops.
Context {M : Type} `{PartitionMonitor M}.

(** The candidates [i .. i + n - 1] for one partition. *)
Fixpoint max_mu (part : nat) (partAlloc : Z) (i : Z) (n : nat) (maxMu : spec_float) (maxMuAlloc : Z) : ST M (spec_float * Z) :=
  match n with
  | O => mret (maxMu, maxMuAlloc)
  | S n' =>
      a ← mon_get part (Z.to_nat partAlloc);
      b ← mon_get part (Z.to_nat (partAlloc +32 i));
      let extraHits := a -32 b in
      let mu := f64_div (f64_of_Z extraHits) (f64_of_Z i) in
      if f64_ltb maxMu mu then max_mu part partAlloc (i + 1) n' mu i else max_mu part partAlloc (i + 1) n' maxMu maxMuAlloc
  end.

Definition getMaxMarginalUtility (part : nat) (partAlloc balance : Z) : ST M (spec_float * Z) :=
  max_mu part partAlloc 1 (Z.to_nat balance) (f64_of_Z (-1)) 0.

Fixpoint total_utility (parts : list Z) (p : nat) (noCache cur : Z) : ST M Z :=
  match parts with
  | [] => mret (noCache -64 cur)
  | a :: parts' =>
      x ← mon_get p 0;
      y ← mon_get p (Z.to_nat a);
      total_utility parts' (S p) (noCache +64 x) (cur +64 y)
  end.

Definition computePartitioningTotalUtility (numPartitions : nat) (parts : list Z) : ST M Z :=
  if bool_decide (numPartitions <= length parts)%nat then total_utility (take numPartitions parts) 0 0 0 else throw OutOfRange.

(** The partition of largest utility. *)
Fixpoint best_part (forbidden : option (list bool)) (allocs : list Z) (i : nat) (balance : Z)
    (maxMu : spec_float) (maxMuPart : nat) (maxMuAlloc : Z) : ST M (nat * Z) :=
  match allocs with
  | [] => mret (maxMuPart, maxMuAlloc)
  | a :: allocs' =>
      f ← (match forbidden with None => mret false | Some l => lift (rd l i) end);
      if (f : bool) then best_part forbidden allocs' (S i) balance maxMu maxMuPart maxMuAlloc
      else
        '(mu, muAlloc) ← getMaxMarginalUtility i a balance;
        if f64_ltb maxMu mu then best_part forbidden allocs' (S i) balance mu i muAlloc
        else best_part forbidden allocs' (S i) balance maxMu maxMuPart maxMuAlloc
  end.

(** The loop gives away at least one bucket a time. *)
Fixpoint allocate (fuel : nat) (numPartitions : nat) (forbidden : option (list bool)) (allocs : list Z) (balance : Z) : ST M (list Z) :=
  if balance =? 0 then mret allocs else
  match fuel with
  | O => throw OutOfFuel
  | S f =>
      '(p, n) ← best_part forbidden allocs 0 balance (f64_of_Z (-1)) numPartitions 0;
      _ ← assertS (bool_decide (p < numPartitions)%nat);
      a ← lift (rd allocs p);
      allocs ← lift (wr allocs p (a +32 n));
      allocate f numPartitions forbidden allocs (balance -32 n)
  end.

Definition computeBestPartitioning (fuel numPartitions : nat) (buckets minAlloc : Z) (forbidden : option (list bool)) : ST M (list Z) :=
  allocate fuel numPartitions forbidden (replicate numPartitions minAlloc) (buckets -32 minAlloc).

End ops.
End lookahead.

(** ** Partitioned replacement policies *)

Class PartReplPolicy (R : Type) (M : Type) := {
  prp_getMonitor : R -> M;
  prp_setMonitor : R -> M -> R; (* the monitor is reached through a pointer *)
  prp_setPartitionSizes : R -> list Z -> outcome R
}.

Module LookaheadPartitioner.

Record t := mk {
  numPartitions : nat; buckets : Z; minAlloc : Z; allocPortion : spec_float;
  forbidden : option (list bool); curAllocs : list Z
}.

Definition make (numPartitions : nat) (buckets minAlloc : Z) (allocPortion : spec_float) (forbidden : option (list bool)) : outcome t :=
  _ ← check (0 <? buckets);
  mret (mk numPartitions buckets minAlloc allocPortion forbidden (replicate (Z.to_nat buckets + 1) 0)).

Section ops.
Context {R M : Type} `{PartitionMonitor M} `{PartReplPolicy R M}.

(** [std::copy] into [curAllocs]; [switchAllocs] is always set. *)
Definition partition (fuel : nat) (p : t) (repl : R) : outcome (t * R) :=
  let n := numPartitions p in
  '(best, m) ← lookahead.computeBestPartitioning fuel n (f64_trunc (f64_mul (allocPortion p) (f64_of_Z (buckets p))))
                 (u32 (minAlloc p * Z.of_nat n)) (forbidden p) (prp_getMonitor repl);
  '(newUtility, m) ← lookahead.computePartitioningTotalUtility n best m;
  '(curUtility, m) ← lookahead.computePartitioningTotalUtility n (curAllocs p) m;
  if bool_decide (length (curAllocs p) < n)%nat then Fault OutOfRange else
  let cur := best ++ drop n (curAllocs p) in
  repl ← prp_setPartitionSizes (prp_setMonitor repl m) cur;
  mret (mk n (buckets p) (minAlloc p) (allocPortion p) (forbidden p) cur,
        prp_setMonitor repl (mon_reset (prp_getMonitor repl))).
End ops.

End LookaheadPartitioner.

(** ** What the lookahead allocation promises *)

(** The contract of a monitor towards the partitioner: between two resets it
    answers a fixed curve, of buckets 0 to [B]. *)
Class MonitorCurveLaws (M : Type) `{PartitionMonitor M} := {
  mon_ok : nat -> (nat -> nat -> Z) -> M -> Prop;
  mon_curve B c m q b : mon_ok B c m -> word 32 (c q b);
  mon_get_ok B c m q b : mon_ok B c m -> (q < mon_getNumPartitions m)%nat -> (b <= B)%nat ->
    wp (mon_get q b) m (fun x m' => x = c q b /\ mon_ok B c m' /\ mon_getNumPartitions m' = mon_getNumPartitions m)
}.

Module LookaheadSpec.
Import UMonSpec lookahead.
Section spec.
Context {M : Type} `{MonitorCurveLaws M}.
Variable B : nat.
Variable c : nat -> nat -> Z.
Hypothesis HB : Z.of_nat B < max32.

(** The monitor still answers the curve. *)
Definition keeps (m m' : M) : Prop := mon_ok B c m' /\ mon_getNumPartitions m' = mon_getNumPartitions m.

Lemma keeps_trans m1 m2 m3 : keeps m1 m2 -> keeps m2 m3 -> keeps m1 m3.
Proof. intros [_ E1] [H2 E2]. split; [done|congruence]. Qed.

Lemma wp_max_mu m q a : mon_ok B c m -> (q < mon_getNumPartitions m)%nat -> 0 <= a ->
  forall n i mu0 al0 m', keeps m m' -> 1 <= i -> a + i + Z.of_nat n - 1 <= Z.of_nat B ->
  wp (max_mu q a i n mu0 al0) m' (fun r m'' => keeps m m'' /\
    (r = (mu0, al0) /\ (n = 0%nat \/ mu0 <> f64_of_Z (-1)) \/ i <= r.2 < i + Z.of_nat n /\ f64_nonneg r.1)).
Proof.
  intros Hm Hq Ha. induction n as [|n IH]; intros i mu0 al0 m' [Hk En] Hi Hb; cbn [max_mu].
  - apply wp_ret. split; [done|]. left. auto.
  - apply wp_bind. eapply wp_mono; [apply (mon_get_ok B c); [done|lia|lia]|]. intros x m1 (-> & Hk1 & En1).
    apply wp_bind. rewrite u32_small by lia. eapply wp_mono; [apply (mon_get_ok B c); [done|lia|lia]|]. intros y m2 (-> & Hk2 & En2).
    set (hits := _ -32 _). assert (0 <= hits < 2 ^ 53) as Hh by (unfold hits; pose proof (u32_bound (c q (Z.to_nat a) - c q (Z.to_nat (a + i)))); rewrite max32_eq in *; lia).
    assert (f64_nonneg (f64_div (f64_of_Z hits) (f64_of_Z i))) as Hnn by (apply f64_div_nonneg; [done|rewrite max32_eq in *; lia]).
    assert (keeps m m2) as Hkm by (split; [done|congruence]).
    destruct (f64_ltb mu0 (f64_div (f64_of_Z hits) (f64_of_Z i))) eqn:El.
    + eapply wp_mono; [apply (IH (i + 1) _ i m2); [done|lia|lia]|]. intros r m3 (Hk3 & [(-> & _)|(Hr & Hn')]).
      * split; [done|]. right. cbn. split; [lia|done].
      * split; [done|]. right. split; [lia|done].
    + eapply wp_mono; [apply (IH (i + 1) mu0 al0 m2); [done|lia|lia]|]. intros r m3 (Hk3 & [(-> & Hd)|(Hr & Hn')]).
      * split; [done|]. left. split; [done|]. right. intros ->. by rewrite f64_minus_one_lt in El.
      * split; [done|]. right. split; [lia|done].
Qed.

(** Some partition may receive buckets. *)
Definition allowed (forbidden : option (list bool)) (i : nat) : Prop :=
  match forbidden with None => True | Some l => l !! i = Some false end.

Lemma wp_best_part forbidden balance m : mon_ok B c m -> 0 < balance ->
  forall allocs i mu0 p0 al0 m', keeps m m' -> (i + length allocs <= mon_getNumPartitions m)%nat ->
  (match forbidden with None => True | Some l => (i + length allocs <= length l)%nat end) ->
  Forall (fun a => 0 <= a /\ a + balance <= Z.of_nat B) allocs ->
  wp (best_part forbidden allocs i balance mu0 p0 al0) m' (fun r m'' => keeps m m'' /\
    (r = (p0, al0) /\ (mu0 <> f64_of_Z (-1) \/ forall j, (i <= j < i + length allocs)%nat -> ~ allowed forbidden j) \/
     (i <= r.1 < i + length allocs)%nat /\ allowed forbidden r.1 /\ 1 <= r.2 <= balance)).
Proof.
  intros Hm Hbal. induction allocs as [|a allocs IH]; intros i mu0 p0 al0 m' Hk Hn Hf HF; cbn [best_part length] in *.
  - apply wp_ret. split; [done|]. left. split; [done|]. right. intros j Hj. lia.
  - apply Forall_cons in HF as [[Ha0 Ha] HF].
    assert (exists fb, (match forbidden with None => mret false | Some l => lift (rd l i) end : ST M bool) m' = Ok (fb, m') /\
      (allowed forbidden i <-> fb = false)) as (fb & Efb & Hall).
    { destruct forbidden as [l|]; [|by exists false]. destruct (lookup_lt_is_Some_2 l i ltac:(lia)) as [fb Efb].
      exists fb. unfold lift. rewrite (rd_some _ _ _ Efb). split; [done|]. cbn. rewrite Efb. split; [by intros [= ->]|by intros ->]. }
    apply wp_bind. unfold wp at 1. rewrite Efb. destruct fb.
    { eapply wp_mono; [apply (IH (S i) mu0 p0 al0 m' Hk); [lia|case_match; lia|done]|]. intros r m2 (Hk2 & [(-> & Hd)|(Hr & Hr2)]).
      - split; [done|]. left. split; [done|]. destruct Hd as [|Hd]; [by left|right]. intros j Hj.
        destruct (decide (j = i)) as [->|]; [by intros ?%Hall|apply Hd; lia].
      - split; [done|]. right. split; [lia|done]. }
    assert (allowed forbidden i) as Hai by by apply Hall.
    apply wp_bind. unfold getMaxMarginalUtility. eapply wp_mono; [apply (wp_max_mu m i a); try done; lia|].
    intros [mu al] m1 (Hk1 & Hcase). assert (f64_nonneg mu /\ 1 <= al <= balance) as [Hnn Hal].
    { destruct Hcase as [(_ & [Hz|Hd])|(Hr & Hnn)]; [lia|done|]. cbn in *. split; [done|lia]. }
    destruct (f64_ltb mu0 mu) eqn:El.
    + eapply wp_mono; [apply (IH (S i) mu i al m1 Hk1); [lia|case_match; lia|done]|]. intros r m2 (Hk2 & [(-> & _)|(Hr & Hr2)]).
      * split; [done|]. right. cbn. split; [lia|]. split; [done|lia].
      * split; [done|]. right. split; [lia|done].
    + eapply wp_mono; [apply (IH (S i) mu0 p0 al0 m1 Hk1); [lia|case_match; lia|done]|]. intros r m2 (Hk2 & [(-> & Hd)|(Hr & Hr2)]).
      * split; [done|]. left. split; [done|]. left. intros ->. by rewrite f64_minus_one_lt in El.
      * split; [done|]. right. split; [lia|done].
Qed.

Lemma zsum_insert l i x y : l !! i = Some x -> zsum (<[i := y]> l) = zsum l - x + y.
Proof.
  intros Hi. rewrite insert_take_drop by (by eapply lookup_lt_Some). assert (zsum l = zsum (take i l) + (x + zsum (drop (S i) l))) as E.
  { rewrite <- (take_drop_middle _ _ _ Hi) at 1. by rewrite zsum_app. }
  rewrite zsum_app. change (zsum (y :: ?l')) with (y + zsum l'). lia.
Qed.

(** What the loop keeps: who may not receive stays at [lo], and the buckets
    given and left add up. *)
Lemma wp_allocate n forbidden lo m : mon_ok B c m -> (n <= mon_getNumPartitions m)%nat ->
  (match forbidden with None => (0 < n)%nat | Some l => (n <= length l)%nat /\ exists i, (i < n)%nat /\ l !! i = Some false end) ->
  forall fuel allocs balance m', keeps m m' -> length allocs = n -> 0 <= balance <= Z.of_nat fuel ->
  Forall (fun a => 0 <= lo <= a /\ a + balance <= Z.of_nat B) allocs ->
  (forall i a, allocs !! i = Some a -> ~ allowed forbidden i -> a = lo) ->
  wp (allocate fuel n forbidden allocs balance) m' (fun allocs' m'' => keeps m m'' /\ length allocs' = n /\
    zsum allocs' = zsum allocs + balance /\ Forall (fun a => lo <= a <= Z.of_nat B) allocs' /\
    (forall i a, allocs' !! i = Some a -> ~ allowed forbidden i -> a = lo)).
Proof.
  intros Hm Hn Hf. induction fuel as [|fuel IH]; intros allocs balance m' Hk Hl Hb HF Hfb; cbn [allocate].
  all: destruct (Z.eqb_spec balance 0) as [->|Hne];
    [apply wp_ret; split; [done|]; split; [done|]; split; [lia|]; split; [|done]; eapply Forall_impl; [exact HF|]; cbv beta; lia|].
  { lia. }
  apply wp_bind. eapply wp_mono; [apply (wp_best_part forbidden balance m Hm ltac:(lia) allocs 0)|].
  { done. } { lia. } { destruct forbidden; [lia|done]. } { eapply Forall_impl; [exact HF|]; cbv beta; lia. }
  intros [q k] m1 (Hk1 & Hcase). assert ((q < n)%nat /\ allowed forbidden q /\ 1 <= k <= balance) as (Hq & Hallow & Hk').
  { destruct Hcase as [(_ & [Hd|Hd])|(Hr & Ha & Hr2)]; [done| |cbn in *; split; [lia|done]]. exfalso.
    destruct forbidden as [l|]; [|by apply (Hd 0%nat ltac:(lia))]. destruct Hf as (_ & i & Hi & Hli). by apply (Hd i ltac:(lia)). }
  apply wp_bind, wp_assert; [by apply bool_decide_eq_true_2|]. destruct (lookup_lt_is_Some_2 allocs q ltac:(lia)) as [a Ha].
  apply wp_bind. eapply wp_lift; [by apply rd_some|]. pose proof (proj1 (Forall_lookup _ _) HF q a Ha) as [Ha1 Ha2].
  apply wp_bind. eapply wp_lift; [apply wr_lt; lia|]. rewrite !u32_small by lia.
  eapply wp_mono; [apply (IH (<[q := a + k]> allocs) (balance - k) m1 Hk1)|].
  - by rewrite length_insert.
  - lia.
  - apply Forall_insert; [|lia]. eapply Forall_impl; [exact HF|]; cbv beta; lia.
  - intros i x Hi Hni. destruct (decide (i = q)) as [->|Hiq]; [done|]. rewrite list_lookup_insert_ne in Hi by done. by eapply Hfb.
  - intros r m2 (Hk2 & Hl2 & Hs2 & HF2 & Hfb2). split; [done|]. split; [done|]. split; [|done].
    rewrite Hs2, (zsum_insert _ _ _ _ Ha). lia.
Qed.

End spec.
End LookaheadSpec.
