(* ===== verification/WayPart.v ===== *)
(** * Way partitioning (WayPartReplPolicy of src/src/part_repl_policies.h)

    Each way belongs to a partition; a fill of a partition takes one of its
    ways.  [WayPartSpec]: the sizes count the lines, and the victim is the
    partition's to take. *)

From S2P Require Import Prelude MemHier ReplPolicies UMon Partition.
Local Open Scope Z_scope.

Module WayPart.

Record PartInfo := mkPart {
  size : Z; targetSize : Z;
  profHits : Z; profMisses : Z; profSelfEvictions : Z; profExtEvictions : Z
}.

Record WayPartInfo := mkLine { addr : Z; ts : Z; p : nat }.

Record t (M : Type) := mk {
  monitor : M; mapper : PartMapper; env : ProcEnv;
  partInfo : list PartInfo; partitions : nat;
  totalSize : Z; waySize : Z; ways : nat;
  array : list WayPartInfo; wayPartIndex : list nat; testMode : bool;
  bestId : option nat; candIdx : nat; incomingLinePart : nat; incomingLineAddr : Z;
  timestamp : Z
}.
Arguments mk {M}. Arguments monitor {M}. Arguments mapper {M}. Arguments env {M}. Arguments partInfo {M}.
Arguments partitions {M}. Arguments totalSize {M}. Arguments waySize {M}. Arguments ways {M}. Arguments array {M}.
Arguments wayPartIndex {M}. Arguments testMode {M}. Arguments bestId {M}. Arguments candIdx {M}.
Arguments incomingLinePart {M}. Arguments incomingLineAddr {M}. Arguments timestamp {M}.

Definition with_size (i : PartInfo) (s : Z) : PartInfo :=
  mkPart s (targetSize i) (profHits i) (profMisses i) (profSelfEvictions i) (profExtEvictions i).
Definition with_targetSize (i : PartInfo) (s : Z) : PartInfo :=
  mkPart (size i) s (profHits i) (profMisses i) (profSelfEvictions i) (profExtEvictions i).
Definition inc_hits (i : PartInfo) : PartInfo :=
  mkPart (size i) (targetSize i) (profHits i +64 1) (profMisses i) (profSelfEvictions i) (profExtEvictions i).
Definition inc_misses (i : PartInfo) : PartInfo :=
  mkPart (size i) (targetSize i) (profHits i) (profMisses i +64 1) (profSelfEvictions i) (profExtEvictions i).
Definition inc_self (i : PartInfo) : PartInfo :=
  mkPart (size i) (targetSize i) (profHits i) (profMisses i) (profSelfEvictions i +64 1) (profExtEvictions i).
Definition inc_ext (i : PartInfo) : PartInfo :=
  mkPart (size i) (targetSize i) (profHits i) (profMisses i) (profSelfEvictions i) (profExtEvictions i +64 1).

Section ops.
Context {M : Type} `{PartitionMonitor M}.

Definition set_parts (r : t M) (l : list PartInfo) : t M :=
  mk (monitor r) (mapper r) (env r) l (partitions r) (totalSize r) (waySize r) (ways r) (array r) (wayPartIndex r)
    (testMode r) (bestId r) (candIdx r) (incomingLinePart r) (incomingLineAddr r) (timestamp r).
Definition set_wayPartIndex (r : t M) (l : list PartInfo) (w : list nat) : t M :=
  mk (monitor r) (mapper r) (env r) l (partitions r) (totalSize r) (waySize r) (ways r) (array r) w
    (testMode r) (bestId r) (candIdx r) (incomingLinePart r) (incomingLineAddr r) (timestamp r).
Definition set_monitor (r : t M) (m : M) : t M :=
  mk m (mapper r) (env r) (partInfo r) (partitions r) (totalSize r) (waySize r) (ways r) (array r) (wayPartIndex r)
    (testMode r) (bestId r) (candIdx r) (incomingLinePart r) (incomingLineAddr r) (timestamp r).
Definition set_lines (r : t M) (m : M) (l : list PartInfo) (a : list WayPartInfo) (tstamp : Z) : t M :=
  mk m (mapper r) (env r) l (partitions r) (totalSize r) (waySize r) (ways r) a (wayPartIndex r)
    (testMode r) (bestId r) (candIdx r) (incomingLinePart r) (incomingLineAddr r) tstamp.
Definition set_repl (r : t M) (b : option nat) (c : nat) (part : nat) (a : Z) : t M :=
  mk (monitor r) (mapper r) (env r) (partInfo r) (partitions r) (totalSize r) (waySize r) (ways r) (array r) (wayPartIndex r)
    (testMode r) b c part a (timestamp r).

(** The constructor: every line starts in partition 0; the ways are dealt out evenly. *)
Definition make (mon : M) (mp : PartMapper) (e : ProcEnv) (lines : Z) (nways : nat) (test : bool) : outcome (t M) :=
  let parts := getNumPartitions e mp in
  let total := u32 lines in
  if (nways =? 0)%nat then Fault Panicked else
  let way := total / Z.of_nat nways in
  _ ← check (u32 (way * Z.of_nat nways) =? total);
  let zero := mkPart 0 0 0 0 0 0 in
  infos ← wr (replicate parts zero) 0 (with_size zero total);
  '(infos, index) ← loop (fun '(infos, index) w =>
      let q := Z.to_nat (u32 (Z.of_nat w * Z.of_nat parts) / Z.of_nat nways) in
      index ← wr index w q;
      infos ← upd infos q (fun i => with_targetSize i (targetSize i +64 way));
      mret (infos, index)) (infos, replicate nways 0%nat) (seq 0 nways);
  mret (mk mon mp e infos parts total way nways (replicate (Z.to_nat total) (mkLine 0 0 0)) index test None 0 0 0 1).

Definition update (r : t M) (id : nat) (req : MemReq) : outcome (t M) :=
  e ← rd (array r) id;
  '(infos, e) ← (if 0 <? ts e then
      infos ← upd (partInfo r) (p e) inc_hits;
      mret (infos, e)
    else
      let oldPart := p e in
      let newPart := incomingLinePart r in
      infos ← (if negb (oldPart =? newPart)%nat then
          infos ← upd (partInfo r) oldPart (fun i => inc_ext (with_size i (size i -64 1)));
          upd infos newPart (fun i => with_size i (size i +64 1))
        else upd (partInfo r) oldPart inc_self);
      infos ← upd infos newPart inc_misses;
      mret (infos, mkLine (addr e) (ts e) newPart));
  let e := mkLine (addr e) (timestamp r) (p e) in
  a ← wr (array r) id e;
  m ← mon_access (monitor r) (p e) (addr e);
  mret (set_lines r m infos a (timestamp r +64 1)).

Definition startReplacement (r : t M) (req : MemReq) : outcome (t M) :=
  _ ← check (candIdx r =? 0)%nat;
  _ ← check (bool_decide (bestId r = None));
  part ← getPartition (env r) (mapper r) req;
  mret (set_repl r (bestId r) (candIdx r) part (lineAddr req)).

(** Whether the candidate replaces the best so far. *)
Definition better (test : bool) (part : nat) (c best : WayPartInfo) : bool :=
  if test || ((p c =? part)%nat && (p best =? part)%nat) then ts c <? ts best
  else if (p c =? part)%nat && negb (p best =? part)%nat then false
  else if negb (p c =? part)%nat && (p best =? part)%nat then true
  else ts c <? ts best.

Definition recordCandidate (r : t M) (id : nat) : outcome (t M) :=
  _ ← check (bool_decide (candIdx r < ways r)%nat);
  c ← rd (array r) id;
  let way := candIdx r in
  wp ← rd (wayPartIndex r) way;
  b ← (if testMode r || (wp =? incomingLinePart r)%nat then
      match bestId r with
      | None => mret (Some id)
      | Some bid =>
          best ← rd (array r) bid;
          mret (if better (testMode r) (incomingLinePart r) c best then Some id else Some bid)
      end
    else mret (bestId r));
  mret (set_repl r b (S way) (incomingLinePart r) (incomingLineAddr r)).

Definition getBestCandidate (r : t M) : outcome nat :=
  match bestId r with Some b => mret b | None => Fault AssertFailed end.

Definition replaced (r : t M) (id : nat) : outcome (t M) :=
  let r := set_repl r None 0 (incomingLinePart r) (incomingLineAddr r) in
  a ← upd (array r) id (fun e => mkLine (incomingLineAddr r) 0 (p e));
  mret (set_lines r (monitor r) (partInfo r) a (timestamp r)).

(** [LegacyReplPolicy::rank]. *)
Definition rank (r : t M) (_ : CCView) (req : MemReq) (cands : list nat) : outcome (option nat * t M) :=
  r ← startReplacement r req;
  r ← loop recordCandidate r cands;
  c ← getBestCandidate r;
  mret (Some c, r).

Definition setPartitionSizes (r : t M) (waysPart : list Z) : outcome (t M) :=
  '(infos, index, curWay) ← loop (fun '(infos, index, curWay) q =>
      w ← rd waysPart q;
      infos ← upd infos q (fun i => with_targetSize i (u32 (totalSize r * w) / Z.of_nat (ways r)));
      index ← loop (fun index i => wr index (curWay + i)%nat q) index (seq 0 (Z.to_nat w));
      mret (infos, index, curWay + Z.to_nat w)%nat)
    (partInfo r, wayPartIndex r, 0%nat) (seq 0 (partitions r));
  _ ← check (curWay =? ways r)%nat;
  mret (set_wayPartIndex r infos index).

#[global] Instance policy : ReplPolicy (t M) :=
  { rp_update := update; rp_replaced := replaced; rp_rank := rank }.

#[global] Instance part_policy : PartReplPolicy (t M) M :=
  { prp_getMonitor := monitor; prp_setMonitor := set_monitor; prp_setPartitionSizes := setPartitionSizes }.

End ops.
End WayPart.

(** ** Correctness *)

(** The contract of a monitor towards the policy: it takes any access to one of
    its partitions. *)
Class MonitorAccessLaws (M : Type) `{PartitionMonitor M} := {
  mon_ready : M -> Prop;
  mon_access_ok m q a : mon_ready m -> (q < mon_getNumPartitions m)%nat -> word 64 a ->
    exists m', mon_access m q a = Ok m' /\ mon_ready m' /\ mon_getNumPartitions m' = mon_getNumPartitions m
}.

Definition umon_monitor_ready (m : UMonMonitor.t) : Prop :=
  UMonMonitor.missCacheValid m = false /\ Forall (fun u => exists st, UMonSpec.umon_ok u st) (UMonMonitor.monitors m).

#[export, refine] Instance umon_monitor_laws : MonitorAccessLaws UMonMonitor.t := { mon_ready := umon_monitor_ready }.
Proof.
  intros m q a [Hv HF] Hq Ha. cbn [mon_access mon_getNumPartitions UMonMonitor.monitor] in *. unfold UMonMonitor.access.
  rewrite bool_decide_eq_true_2 by done. cbn [check mbind outcome_bind]. destruct (lookup_lt_is_Some_2 _ _ Hq) as [u Hu].
  rewrite (rd_some _ _ _ Hu). cbn [mbind outcome_bind]. destruct (proj1 (Forall_lookup _ _) HF q u Hu) as [st Hst].
  destruct (UMonSpec.access_ok u st a Hst Ha) as (u' & -> & _ & Hu'). cbn [mbind outcome_bind]. rewrite wr_lt by done.
  cbn [mbind outcome_bind]. rewrite Hv. cbn [negb check mbind outcome_bind mret outcome_ret]. eexists. split; [done|].
  split; [|cbn; by rewrite length_insert]. split; [done|]. cbn. apply Forall_insert; [done|].
  destruct (UMonSpec.sampled u a); [by destruct Hu' as [? _]; eexists|subst; by exists st].
Defined.

Module WayPartSpec.
Import WayPart.
Section spec.
Context {M : Type} `{MonitorAccessLaws M}.

(** The lines of a partition. *)
Definition lines (q : nat) (l : list WayPartInfo) : Z := Z.of_nat (length (filter (fun e => p e = q) l)).

Definition owned (q : nat) (e : WayPartInfo) : Z := if decide (p e = q) then 1 else 0.

Lemma lines_insert q l i e e' : l !! i = Some e -> lines q (<[i := e']> l) = lines q l - owned q e + owned q e'.
Proof.
  intros Hi. unfold lines, owned. rewrite insert_take_drop by (by eapply lookup_lt_Some).
  rewrite <- (take_drop_middle l i e Hi) at 3. rewrite !filter_app, !length_app, !filter_cons.
  destruct (decide (p e = q)), (decide (p e' = q)); cbn [length]; lia.
Qed.

Lemma lines_bound q l : 0 <= lines q l <= Z.of_nat (length l).
Proof. unfold lines. pose proof (length_filter (fun e => p e = q) l). lia. Qed.

Lemma lines_pos q l i e : l !! i = Some e -> p e = q -> 0 < lines q l.
Proof.
  intros Hi Hq. pose proof (lines_insert q l i e (mkLine 0 0 (S q)) Hi) as E. unfold owned in E. cbn [p] in E.
  rewrite decide_True, decide_False in E by (done || lia). pose proof (lines_bound q (<[i:=mkLine 0 0 (S q)]> l)). lia.
Qed.

(** The sizes count the lines. *)
Definition sizes_ok (infos : list PartInfo) (l : list WayPartInfo) : Prop :=
  forall q i, infos !! q = Some i -> size i = lines q l.

Record wp_wf (r : t M) : Prop := {
  wf_total : totalSize r = Z.of_nat (length (array r)) /\ totalSize r < max32;
  wf_infos : length (partInfo r) = partitions r;
  wf_ways : length (wayPartIndex r) = ways r /\ (0 < ways r)%nat;
  wf_lines : Forall (fun e => (p e < partitions r)%nat /\ 0 <= ts e < max64 /\ word 64 (addr e)) (array r);
  wf_sizes : sizes_ok (partInfo r) (array r);
  wf_stamp : 0 < timestamp r < max64;
  wf_monitor : mon_ready (monitor r) /\ (partitions r <= mon_getNumPartitions (monitor r))%nat;
  wf_incoming : word 64 (incomingLineAddr r)
}.

(** Changing the counters alone keeps the sizes. *)
Lemma sizes_counter infos l q i (f : PartInfo -> PartInfo) : sizes_ok infos l -> infos !! q = Some i -> size (f i) = size i ->
  sizes_ok (<[q := f i]> infos) l.
Proof.
  intros Hs Hq Hf q' i' Hi'. apply list_lookup_insert_Some in Hi' as [(<- & <- & _)|[_ Hi']]; [rewrite Hf|]; by apply Hs.
Qed.

(** A line changes partition. *)
Lemma sizes_move infos l id e e' i j : sizes_ok infos l -> l !! id = Some e -> p e <> p e' ->
  infos !! p e = Some i -> infos !! p e' = Some j -> Z.of_nat (length l) < max64 ->
  sizes_ok (<[p e' := with_size j (size j +64 1)]> (<[p e := inc_ext (with_size i (size i -64 1))]> infos)) (<[id := e']> l).
Proof.
  intros Hs Hid Hne Hi Hj Hmax q k Hk. rewrite (lines_insert q l id e e' Hid).
  pose proof (lines_pos (p e) l id e Hid eq_refl). pose proof (lines_bound (p e) l). pose proof (lines_bound (p e') l).
  assert (lines (p e') l < Z.of_nat (length l)) as Hlt.
  { pose proof (lines_insert (p e') l id e e' Hid) as E. unfold owned in E. rewrite decide_False, decide_True in E by done.
    pose proof (lines_bound (p e') (<[id:=e']> l)) as Hb. rewrite length_insert in Hb. lia. }
  unfold owned. apply list_lookup_insert_Some in Hk as [(<- & <- & _)|[Hq Hk]].
  - cbn [size with_size]. rewrite (Hs _ _ Hj), decide_False, decide_True by done. rewrite u64_small by lia. lia.
  - apply list_lookup_insert_Some in Hk as [(<- & <- & _)|[Hq' Hk]].
    + cbn [size with_size inc_ext]. rewrite (Hs _ _ Hi), decide_True, decide_False by done. rewrite u64_small by lia. lia.
    + rewrite (Hs _ _ Hk), !decide_False by done. lia.
Qed.

(** A line that stays in its partition. *)
Lemma sizes_stay infos l id e e' : sizes_ok infos l -> l !! id = Some e -> p e' = p e -> sizes_ok infos (<[id := e']> l).
Proof. intros Hs Hid Hp q k Hk. rewrite (lines_insert q l id e e' Hid). unfold owned. rewrite Hp, (Hs _ _ Hk). lia. Qed.

(** [update]: a hit keeps the line's partition, a fill gives it the incoming one. *)
Definition new_part (r : t M) (e : WayPartInfo) : nat := if 0 <? ts e then p e else incomingLinePart r.

Lemma update_infos r id e : wp_wf r -> array r !! id = Some e -> (incomingLinePart r < partitions r)%nat ->
  exists infos, (if 0 <? ts e then
      infos ← upd (partInfo r) (p e) inc_hits;
      mret (infos, e)
    else
      infos ← (if negb (p e =? incomingLinePart r)%nat then
          infos ← upd (partInfo r) (p e) (fun i => inc_ext (with_size i (size i -64 1)));
          upd infos (incomingLinePart r) (fun i => with_size i (size i +64 1))
        else upd (partInfo r) (p e) inc_self);
      infos ← upd infos (incomingLinePart r) inc_misses;
      mret (infos, mkLine (addr e) (ts e) (incomingLinePart r))) = Ok (infos, mkLine (addr e) (ts e) (new_part r e)) /\
    length infos = partitions r /\ forall x, sizes_ok infos (<[id := mkLine (addr e) x (new_part r e)]> (array r)).
Proof.
  intros W Hid Hin. destruct (wf_total _ W) as [Ht Ht']. pose proof (wf_infos _ W) as Hli. pose proof (wf_sizes _ W) as Hs.
  pose proof (proj1 (Forall_lookup _ _) (wf_lines _ W) id e Hid) as (Hp & _).
  destruct (lookup_lt_is_Some_2 (partInfo r) (p e) ltac:(lia)) as [i Hi].
  destruct (lookup_lt_is_Some_2 (partInfo r) (incomingLinePart r) ltac:(lia)) as [j Hj].
  unfold new_part. destruct (0 <? ts e).
  { rewrite (upd_ok _ _ _ _ Hi). eexists. split; [cbn; by destruct e|]. split; [by rewrite length_insert|]. intros x.
    eapply sizes_stay; [by apply sizes_counter|done|done]. }
  set (e' x := mkLine (addr e) x (incomingLinePart r)). destruct (Nat.eqb_spec (p e) (incomingLinePart r)) as [Heq|Hne]; cbn [negb].
  - rewrite (upd_ok _ _ _ _ Hi). cbn [mbind outcome_bind].
    assert (<[p e := inc_self i]> (partInfo r) !! incomingLinePart r = Some (inc_self i)) as Hi2.
    { rewrite <- Heq. apply list_lookup_insert_eq. lia. }
    rewrite (upd_ok _ _ _ _ Hi2). eexists. split; [done|]. split; [by rewrite !length_insert|]. intros x.
    eapply (sizes_stay _ _ _ e (e' x)); [|done|by cbn]. apply sizes_counter; [|done|done]. by apply sizes_counter.
  - rewrite (upd_ok _ _ _ _ Hi). cbn [mbind outcome_bind].
    assert (<[p e := inc_ext (with_size i (size i -64 1))]> (partInfo r) !! incomingLinePart r = Some j) as Hj2.
    { by rewrite list_lookup_insert_ne. }
    rewrite (upd_ok _ _ _ _ Hj2). cbn [mbind outcome_bind]. set (infos := <[incomingLinePart r := _]> _).
    assert (infos !! incomingLinePart r = Some (with_size j (size j +64 1))) as Hj3.
    { apply list_lookup_insert_eq. rewrite length_insert. lia. }
    rewrite (upd_ok _ _ _ _ Hj3). eexists. split; [done|]. split; [unfold infos; by rewrite !length_insert|]. intros x.
    apply sizes_counter; [|done|done]. apply (sizes_move (partInfo r) (array r) id e (e' x) i j); try done.
    rewrite max64_eq. rewrite max32_eq in Ht'. lia.
Qed.

Lemma update_ok r id e req : wp_wf r -> array r !! id = Some e -> (incomingLinePart r < partitions r)%nat ->
  timestamp r + 1 < max64 ->
  exists r', update r id req = Ok r' /\ wp_wf r' /\
    array r' = <[id := mkLine (addr e) (timestamp r) (new_part r e)]> (array r) /\
    wayPartIndex r' = wayPartIndex r /\ bestId r' = bestId r /\ candIdx r' = candIdx r.
Proof.
  intros W Hid Hin Hts. destruct (update_infos r id e W Hid Hin) as (infos & E & Hl & Hs). unfold update.
  rewrite (rd_some _ _ _ Hid). cbn [mbind outcome_bind]. cbn zeta in E |- *. unfold mbind in E |- *. rewrite E. cbn [outcome_bind addr ts p].
  rewrite wr_lt by (by eapply lookup_lt_Some). cbn [outcome_bind].
  pose proof (proj1 (Forall_lookup _ _) (wf_lines _ W) id e Hid) as (Hp & Ht & Ha).
  assert (new_part r e < partitions r)%nat as Hnp by (unfold new_part; by case_match).
  destruct (wf_monitor _ W) as [Hm1 Hm2]. destruct (mon_access_ok (monitor r) (new_part r e) (addr e) Hm1 ltac:(lia) Ha) as (m' & -> & Hm3 & Hm4).
  cbn [outcome_bind mret outcome_ret]. pose proof (wf_stamp _ W). rewrite u64_small by lia. eexists. split; [done|]. split; [|done].
  constructor; cbn [set_lines totalSize array partInfo partitions wayPartIndex ways timestamp monitor incomingLineAddr].
  - rewrite length_insert. apply (wf_total _ W).
  - done.
  - apply (wf_ways _ W).
  - apply Forall_insert; [apply (wf_lines _ W)|]. cbn [p ts addr]. split; [done|]. split; [lia|done].
  - apply Hs.
  - lia.
  - split; [done|]. rewrite Hm4. lia.
  - apply (wf_incoming _ W).
Qed.

Lemma replaced_ok r id e : wp_wf r -> array r !! id = Some e ->
  exists r', replaced r id = Ok r' /\ wp_wf r' /\ array r' = <[id := mkLine (incomingLineAddr r) 0 (p e)]> (array r) /\
    bestId r' = None /\ candIdx r' = 0%nat /\ incomingLinePart r' = incomingLinePart r /\ wayPartIndex r' = wayPartIndex r.
Proof.
  intros W Hid. unfold replaced. cbn [array set_repl]. rewrite (upd_ok _ _ _ _ Hid). cbn [mbind outcome_bind].
  eexists. split; [done|]. split; [|done]. pose proof (proj1 (Forall_lookup _ _) (wf_lines _ W) id e Hid) as (Hp & _).
  constructor; cbn; try apply W.
  - rewrite length_insert. apply W.
  - apply Forall_insert; [apply W|]. cbn. split; [done|]. split; [rewrite max64_eq; lia|apply W].
  - eapply sizes_stay; [apply W|done|done].
Qed.

(** ** The victim *)

(** The order of preference: lines of other partitions first, then the oldest. *)
Definition key (test : bool) (part : nat) (e : WayPartInfo) : Z :=
  (if test || negb (p e =? part)%nat then 0 else max64) + ts e.

Lemma better_key test part c b : 0 <= ts c < max64 -> 0 <= ts b < max64 ->
  better test part c b = (key test part c <? key test part b).
Proof.
  intros Hc Hb. unfold better, key. destruct test; [done|]. cbn [orb].
  destruct (p c =? part)%nat, (p b =? part)%nat; cbn [negb andb]; lia.
Qed.

(** The ways a fill may take. *)
Definition may_fill (r : t M) (part w : nat) : Prop := testMode r = true \/ wayPartIndex r !! w = Some part.

Definition least_key (r : t M) (part : nat) (done_ : list nat) (b : option nat) : Prop :=
  match b with
  | None => forall w, (w < length done_)%nat -> ~ may_fill r part w
  | Some c => exists w, done_ !! w = Some c /\ may_fill r part w /\
      forall w' c' e e', done_ !! w' = Some c' -> may_fill r part w' -> array r !! c = Some e -> array r !! c' = Some e' ->
        key (testMode r) part e <= key (testMode r) part e'
  end.

Lemma record_ok r done_ id : wp_wf r -> candIdx r = length done_ -> (length done_ < ways r)%nat ->
  (id < length (array r))%nat -> Forall (fun c => c < length (array r))%nat done_ ->
  least_key r (incomingLinePart r) done_ (bestId r) ->
  exists b, recordCandidate r id = Ok (set_repl r b (S (length done_)) (incomingLinePart r) (incomingLineAddr r)) /\
    least_key r (incomingLinePart r) (done_ ++ [id]) b.
Proof.
  intros W Hc Hlt Hid HF Hb. destruct (wf_ways _ W) as [Hlw _]. unfold recordCandidate. rewrite Hc.
  rewrite bool_decide_eq_true_2 by done. cbn [check mbind outcome_bind]. destruct (lookup_lt_is_Some_2 _ _ Hid) as [e He].
  rewrite (rd_some _ _ _ He). cbn [mbind outcome_bind]. destruct (lookup_lt_is_Some_2 (wayPartIndex r) (length done_) ltac:(lia)) as [wp Hw].
  rewrite (rd_some _ _ _ Hw). cbn [mbind outcome_bind].
  assert (may_fill r (incomingLinePart r) (length done_) <-> testMode r || (wp =? incomingLinePart r)%nat = true) as Hmf.
  { unfold may_fill. rewrite Hw. destruct (testMode r), (Nat.eqb_spec wp (incomingLinePart r)); cbn; naive_solver. }
  assert (forall w c0, (done_ ++ [id]) !! w = Some c0 -> w = length done_ /\ c0 = id \/ (w < length done_)%nat /\ done_ !! w = Some c0) as Hsnoc.
  { intros w c0 Hl. apply lookup_app_Some in Hl as [Hl|[Hge Hl]]; [right; split; [by eapply lookup_lt_Some|done]|].
    apply list_lookup_singleton_Some in Hl as [E ->]. left. split; [lia|done]. }
  assert (forall w c0, done_ !! w = Some c0 -> (done_ ++ [id]) !! w = Some c0) as Hold by (intros; by apply lookup_app_l_Some).
  assert ((done_ ++ [id]) !! length done_ = Some id) as Hnew by (apply list_lookup_middle; done).
  destruct (testMode r || (wp =? incomingLinePart r)%nat).
  - destruct (bestId r) as [bid|] eqn:Ebest.
    + destruct Hb as (wb & Hwb & Hmb & Hmin). pose proof (proj1 (Forall_lookup _ _) HF wb bid Hwb) as Hbl.
      destruct (lookup_lt_is_Some_2 _ _ Hbl) as [eb Heb]. rewrite (rd_some _ _ _ Heb). cbn [mbind outcome_bind mret outcome_ret].
      pose proof (proj1 (Forall_lookup _ _) (wf_lines _ W) id e He) as (_ & Hte & _).
      pose proof (proj1 (Forall_lookup _ _) (wf_lines _ W) bid eb Heb) as (_ & Htb & _).
      eexists. split; [done|]. rewrite better_key by done. destruct (Z.ltb_spec (key (testMode r) (incomingLinePart r) e) (key (testMode r) (incomingLinePart r) eb)) as [Hk|Hk].
      * exists (length done_). split; [done|]. split; [by apply Hmf|]. intros w' c' e1 e2 Hw' Hm' H1 H2. rewrite He in H1. injection H1 as <-.
        apply Hsnoc in Hw' as [[-> ->]|[_ Hw']]; [rewrite He in H2; by injection H2 as <-|]. pose proof (Hmin w' c' eb e2 Hw' Hm' Heb H2). lia.
      * exists wb. split; [by apply Hold|]. split; [done|]. intros w' c' e1 e2 Hw' Hm' H1 H2.
        apply Hsnoc in Hw' as [[-> ->]|[_ Hw']]; [|by eapply Hmin]. rewrite He in H2. injection H2 as <-. rewrite Heb in H1. injection H1 as <-. done.
    + eexists. split; [done|]. exists (length done_). split; [done|]. split; [by apply Hmf|]. intros w' c' e1 e2 Hw' Hm' H1 H2.
      apply Hsnoc in Hw' as [[-> ->]|[Hlt' Hw']]; [rewrite H1 in H2; by injection H2 as <-|]. by destruct (Hb w' Hlt').
  - eexists. split; [done|]. destruct (bestId r) as [bid|].
    + destruct Hb as (wb & Hwb & Hmb & Hmin). exists wb. split; [by apply Hold|]. split; [done|]. intros w' c' e1 e2 Hw' Hm' H1 H2.
      apply Hsnoc in Hw' as [[-> _]|[_ Hw']]; [by apply Hmf in Hm'|by eapply Hmin].
    + intros w Hwl Hm. rewrite length_app in Hwl. cbn in Hwl. destruct (decide (w = length done_)) as [->|]; [by apply Hmf in Hm|].
      by apply (Hb w ltac:(lia)).
Qed.

Lemma set_repl_wf r b n part a : wp_wf r -> word 64 a -> wp_wf (set_repl r b n part a).
Proof. intros [] Ha. by constructor. Qed.

Lemma record_all cands : forall r done_, wp_wf r -> candIdx r = length done_ -> (length done_ + length cands <= ways r)%nat ->
  Forall (fun c => c < length (array r))%nat (done_ ++ cands) -> least_key r (incomingLinePart r) done_ (bestId r) ->
  exists b, loop recordCandidate r cands = Ok (set_repl r b (length (done_ ++ cands)) (incomingLinePart r) (incomingLineAddr r)) /\
    least_key r (incomingLinePart r) (done_ ++ cands) b.
Proof.
  induction cands as [|id cands IH]; intros r done_ W Hc Hl HF Hb; cbn [loop length] in *.
  - exists (bestId r). rewrite app_nil_r. split; [|done]. rewrite <- Hc. by destruct r.
  - pose proof (proj1 (Forall_app _ _ _) HF) as [HF1 HF2]. apply Forall_cons in HF2 as [Hid HF2].
    destruct (record_ok r done_ id W Hc ltac:(lia) Hid HF1 Hb) as (b & -> & Hb'). cbn [mbind outcome_bind].
    set (r1 := set_repl _ _ _ _ _). replace (done_ ++ id :: cands) with ((done_ ++ [id]) ++ cands) by by rewrite <- app_assoc.
    apply (IH r1 (done_ ++ [id])).
    + apply set_repl_wf; [done|apply W].
    + rewrite length_app. cbn. lia.
    + rewrite length_app. cbn. lia.
    + by rewrite <- app_assoc.
    + done.
Qed.

Lemma rank_ok r v req cands part : wp_wf r -> candIdx r = 0%nat -> bestId r = None -> word 64 (lineAddr req) ->
  getPartition (env r) (mapper r) req = Ok part -> (length cands <= ways r)%nat -> Forall (fun c => c < length (array r))%nat cands ->
  exists b, least_key r part cands b /\
    rank r v req cands = match b with
      | Some c => Ok (Some c, set_repl r b (length cands) part (lineAddr req))
      | None => Fault AssertFailed end.
Proof.
  intros W Hc Hb Hw Hp Hl HF. unfold rank, startReplacement. rewrite Hc, Hb. cbn [Nat.eqb check mbind outcome_bind].
  rewrite bool_decide_eq_true_2 by done. cbn [check mbind outcome_bind]. rewrite Hp. cbn [mbind outcome_bind mret outcome_ret].
  set (r1 := set_repl _ _ _ _ _). destruct (record_all cands r1 []) as (b & E & Hk); [by apply set_repl_wf|done|done|done| |].
  - cbn. intros w Hw'. lia.
  - exists b. split; [done|]. rewrite E. cbn [mbind outcome_bind app]. unfold getBestCandidate. cbn [bestId set_repl].
    by destruct b as [c|].
Qed.

(** ** Assigning the ways *)

Lemma assign_ways (q : nat) w : forall index cur a, (cur + a <= length index)%nat ->
  loop (fun index i => wr index (cur + i)%nat q) index (seq a w) =
    if bool_decide (cur + a + w <= length index)%nat
    then Ok (take (cur + a) index ++ replicate w q ++ drop (cur + a + w) index) else Fault OutOfRange.
Proof.
  induction w as [|w IH]; intros index cur a Hc; cbn [seq loop].
  - rewrite bool_decide_eq_true_2 by lia. cbn [replicate app]. by rewrite Nat.add_0_r, take_drop.
  - destruct (decide (cur + a < length index)%nat) as [Hlt|Hlt].
    + rewrite wr_lt by done. cbn [mbind outcome_bind]. rewrite IH by (rewrite length_insert; lia). rewrite length_insert.
      replace (cur + S a + w)%nat with (cur + a + S w)%nat by lia. case_bool_decide as Hle; [|done]. f_equal.
      rewrite drop_insert_lt by lia. replace (cur + S a)%nat with (S (cur + a)) by lia.
      rewrite (take_S_r _ _ q) by (apply list_lookup_insert_eq; lia). rewrite take_insert_ge by lia. by rewrite <- app_assoc.
    + assert (wr index (cur + a) q = Fault OutOfRange) as -> by (unfold wr; by rewrite bool_decide_eq_false_2).
      cbn [mbind outcome_bind]. by rewrite bool_decide_eq_false_2 by lia.
Qed.

(** The ways of the partitions [q, q + 1, ..., q + k - 1]. *)
Definition way_counts (waysPart : list Z) (q k : nat) : list nat := map (fun i => Z.to_nat (default 0 (waysPart !! i))) (seq q k).

Definition total_ways (l : list nat) : nat := foldr Nat.add 0%nat l.

Definition assign_step (r : t M) (waysPart : list Z) : list PartInfo * list nat * nat -> nat -> outcome (list PartInfo * list nat * nat) :=
  fun '(infos, index, curWay) q =>
      w ← rd waysPart q;
      infos ← upd infos q (fun i => with_targetSize i (u32 (totalSize r * w) / Z.of_nat (ways r)));
      index ← loop (fun index i => wr index (curWay + i)%nat q) index (seq 0 (Z.to_nat w));
      mret (infos, index, curWay + Z.to_nat w)%nat.

Lemma assign_step_ok r waysPart infos index cur q w inf : waysPart !! q = Some w -> infos !! q = Some inf -> (cur <= length index)%nat ->
  assign_step r waysPart (infos, index, cur) q =
    if bool_decide (cur + Z.to_nat w <= length index)%nat
    then Ok (<[q := with_targetSize inf (u32 (totalSize r * w) / Z.of_nat (ways r))]> infos,
             take cur index ++ replicate (Z.to_nat w) q ++ drop (cur + Z.to_nat w) index, (cur + Z.to_nat w)%nat)
    else Fault OutOfRange.
Proof.
  intros Ew Ei Hc. unfold assign_step. rewrite (rd_some _ _ _ Ew). cbn [mbind outcome_bind].
  rewrite (upd_ok _ _ _ _ Ei). cbn [mbind outcome_bind]. rewrite assign_ways by lia. rewrite Nat.add_0_r. by case_bool_decide.
Qed.

(** The new way index, and what it takes for it to fit. *)
Lemma assign_all r waysPart k : forall infos index cur q, (q + k <= length waysPart)%nat -> (q + k <= length infos)%nat ->
  (cur <= length index)%nat ->
  let n := total_ways (way_counts waysPart q k) in
  if bool_decide (cur + n <= length index)%nat then
    exists infos', loop (assign_step r waysPart) (infos, index, cur) (seq q k) =
      Ok (infos', take cur index ++ concat (zip_with (fun i c => replicate c i) (seq q k) (way_counts waysPart q k)) ++ drop (cur + n) index, (cur + n)%nat) /\
      length infos' = length infos /\ (forall i x, infos' !! i = Some x -> exists y, infos !! i = Some y /\ size x = size y)
  else loop (assign_step r waysPart) (infos, index, cur) (seq q k) = Fault OutOfRange.
Proof.
  induction k as [|k IH]; intros infos index cur q Hw Hi Hc; cbn [seq loop way_counts map total_ways foldr zip_with concat].
  { rewrite bool_decide_eq_true_2 by lia. exists infos. rewrite Nat.add_0_r. cbn [app]. rewrite take_drop.
    split; [done|]. split; [done|]. intros i x Hx. by exists x. }
  fold (way_counts waysPart (S q) k). fold (total_ways (way_counts waysPart (S q) k)).
  destruct (lookup_lt_is_Some_2 waysPart q ltac:(lia)) as [w Ew]. destruct (lookup_lt_is_Some_2 infos q ltac:(lia)) as [inf Einf].
  rewrite Ew. cbn [default id from_option]. rewrite (assign_step_ok r waysPart infos index cur q w inf) by done.
  set (c := Z.to_nat w). set (n' := total_ways (way_counts waysPart (S q) k)).
  set (infos1 := <[q := _]> infos). destruct (decide (cur + c <= length index)%nat) as [Hle|Hgt].
  2:{ rewrite (bool_decide_eq_false_2 (cur + c <= _)%nat) by done. cbn [mbind outcome_bind].
      by rewrite bool_decide_eq_false_2 by lia. }
  rewrite (bool_decide_eq_true_2 (cur + c <= _)%nat) by done. cbn [mbind outcome_bind].
  set (index1 := take cur index ++ _). assert (length index1 = length index) as Hl1.
  { unfold index1. rewrite !length_app, length_replicate, length_take, length_drop. lia. }
  pose proof (IH infos1 index1 (cur + c)%nat (S q) ltac:(lia) ltac:(unfold infos1; rewrite length_insert; lia) ltac:(lia)) as HIH.
  cbn zeta in HIH. fold n' in HIH. rewrite Hl1 in HIH. rewrite Nat.add_assoc. case_bool_decide as Hn; [|done].
  destruct HIH as (infos' & -> & Hli & Hsz). exists infos'. split; [|split].
  - do 3 f_equal. assert (take (cur + c) index1 = take cur index ++ replicate c q) as ->.
    { unfold index1. rewrite app_assoc. apply take_app_length'. rewrite length_app, length_replicate, length_take. lia. }
    assert (drop (cur + c + n') index1 = drop (cur + c + n') index) as ->.
    { unfold index1. rewrite app_assoc. rewrite drop_app. rewrite length_app, length_replicate, length_take, Nat.min_l by lia.
      rewrite drop_ge by (rewrite length_app, length_replicate, length_take; lia). cbn [app]. rewrite drop_drop. f_equal. lia. }
    by rewrite <- !app_assoc.
  - rewrite Hli. unfold infos1. by rewrite length_insert.
  - intros i x Hx. destruct (Hsz i x Hx) as (y & Hy & E). unfold infos1 in Hy.
    apply list_lookup_insert_Some in Hy as [(<- & <- & _)|[_ Hy]]; [exists inf; by rewrite E|by exists y].
Qed.

End spec.
End WayPartSpec.
