(* ===== verification/PartitionProps.v ===== *)
(** * Properties of cache partitioning (UMon, Partition, WayPart) *)

From S2P Require Import Prelude Floats MTRand Hash MemHier ReplPolicies UMon Partition WayPart.
Import UMonSpec LookaheadSpec WayPart WayPartSpec.
Local Open Scope Z_scope.

(** A monitor with given curves. *)
Module TableMonitor.

Definition t : Type := list (list Z).

#[global] Instance monitor : PartitionMonitor t := {
  mon_getNumPartitions := fun m => length m;
  mon_access := fun m q _ => _ ← check (bool_decide (q < length m)%nat); mret m;
  mon_get := fun q b => m ← get; row ← lift (rd m q); lift (rd row b);
  mon_reset := fun m => m
}.

Definition shows (B : nat) (c : nat -> nat -> Z) (m : t) : Prop :=
  (forall q b, word 32 (c q b)) /\ forall q, (q < length m)%nat -> exists row, m !! q = Some row /\
    forall b, (b <= B)%nat -> row !! b = Some (c q b).

#[global, refine] Instance laws : MonitorCurveLaws t := { mon_ok := shows }.
Proof.
  - intros B c m q b [Hw _]. apply Hw.
  - intros B c m q b [Hw Hm] Hq Hb. destruct (Hm q Hq) as (row & Hr & Hrow). apply wp_bind, wp_get, wp_bind.
    eapply wp_lift; [by apply rd_some|]. eapply wp_lift; [apply rd_some; by apply Hrow|]. done.
Defined.

End TableMonitor.

Lemma way_counts_sum l rest : Forall (Z.le 0) l -> Z.of_nat (total_ways (way_counts (l ++ rest) 0 (length l))) = zsum l.
Proof.
  assert (forall pre, way_counts (pre ++ l ++ rest) (length pre) (length l) = map Z.to_nat l) as Hc.
  { induction l as [|x l IH]; intros pre; [done|]. cbn [length app]. unfold way_counts. cbn [seq map].
    rewrite list_lookup_middle by done. cbn [default id from_option]. f_equal. specialize (IH (pre ++ [x])).
    rewrite length_app, Nat.add_1_r, <- app_assoc in IH. exact IH. }
  specialize (Hc []). cbn [app length] in Hc. rewrite Hc. clear Hc. induction 1 as [|x l Hx _ IH]; [done|].
  cbn [map total_ways foldr]. unfold zsum. cbn [foldr]. fold (zsum l). fold (total_ways (map Z.to_nat l)). lia.
Qed.

Section utility.
Context {M : Type} `{MonitorCurveLaws M}.

Lemma wp_total_utility B c m parts : forall q x y m', mon_ok B c m -> keeps B c m m' -> (q + length parts <= mon_getNumPartitions m)%nat ->
  Forall (fun a => 0 <= a <= Z.of_nat B) parts ->
  wp (lookahead.total_utility parts q x y) m' (fun _ m'' => keeps B c m m'').
Proof.
  induction parts as [|a parts IH]; intros q x y m' Hm [Hk En] Hq HF; cbn [lookahead.total_utility length] in *; [by apply wp_ret|].
  apply Forall_cons in HF as [Ha HF]. apply wp_bind. eapply wp_mono; [apply (mon_get_ok B c); [done|lia|lia]|].
  intros ? m1 (_ & Hk1 & En1). apply wp_bind. eapply wp_mono; [apply (mon_get_ok B c); [done|lia|lia]|].
  intros ? m2 (_ & Hk2 & En2). apply IH; [done|split; [done|congruence]|lia|done].
Qed.

End utility.

Module PartitionProps.


Definition demo_curve (q b : nat) : Z := nth b (nth q [[40; 20; 10; 5; 4]; [60; 59; 58; 20; 5]] []) 0.
Definition demo_monitor : TableMonitor.t := [[40; 20; 10; 5; 4]; [60; 59; 58; 20; 5]].

Lemma demo_shows : TableMonitor.shows 4 demo_curve demo_monitor.
Proof.
  split.
  - intros q b. unfold demo_curve. destruct q as [|[|[|q]]]; cbn; repeat (destruct b as [|b]; [split; lia|]); split; cbn; lia || by destruct b.
  - intros q Hq. destruct q as [|[|q]]; [..|cbn in Hq; lia]; eexists; (split; [reflexivity|]); intros b Hb;
      repeat (destruct b as [|b]; [reflexivity|]); lia.
Qed.


(** C14: Repartitioning a way-partitioned cache fails as soon as there are two
    partitions: [partition] passes the sum of the minimum allocations as the
    minimum of each partition, so the ways given away are more than the cache
    has, and [setPartitionSizes] writes past the way index. *)
Theorem repartition_overflows {M : Type} `{MonitorCurveLaws M} (c : nat -> nat -> Z) (fuel : nat)
  (lp : LookaheadPartitioner.t) (r : WayPart.t M) :
  let n := LookaheadPartitioner.numPartitions lp in
  mon_ok (ways r) c (monitor r) -> Z.of_nat (ways r) < max32 -> (2 <= n)%nat -> n = partitions r -> n = length (partInfo r) ->
  (n <= mon_getNumPartitions (monitor r))%nat -> length (wayPartIndex r) = ways r ->
  LookaheadPartitioner.buckets lp = Z.of_nat (ways r) -> LookaheadPartitioner.forbidden lp = None ->
  f64_trunc (f64_mul (LookaheadPartitioner.allocPortion lp) (f64_of_Z (LookaheadPartitioner.buckets lp))) = LookaheadPartitioner.buckets lp ->
  1 <= LookaheadPartitioner.minAlloc lp -> LookaheadPartitioner.minAlloc lp * Z.of_nat n <= Z.of_nat (ways r) ->
  length (LookaheadPartitioner.curAllocs lp) = S (ways r) -> Forall (fun a => 0 <= a <= Z.of_nat (ways r)) (LookaheadPartitioner.curAllocs lp) ->
  (ways r <= fuel)%nat ->
  LookaheadPartitioner.partition fuel lp r = Fault OutOfRange.
Proof.
  cbn zeta. set (n := LookaheadPartitioner.numPartitions lp). set (mn := LookaheadPartitioner.minAlloc lp).
  intros Hm HB Hn Ep Ei Hnm Ew Eb Ef Etr Hmin Htot Elc HFc Hfuel. assert (Z.of_nat n <= Z.of_nat (ways r)) as Hnw by nia. unfold LookaheadPartitioner.partition. fold n mn. rewrite Etr, Eb, Ef.
  rewrite u32_small by lia. cbn [prp_getMonitor part_policy].
  pose proof (wp_allocate (ways r) c HB n None (mn * Z.of_nat n) (monitor r) Hm Hnm ltac:(cbn; lia) fuel (replicate n (mn * Z.of_nat n))
    (Z.of_nat (ways r) - mn * Z.of_nat n) (monitor r)) as Hall. unfold lookahead.computeBestPartitioning. rewrite u32_small by lia.
  apply wp_ok in Hall as (best & m1 & E & Hk & Hl & Hs & HF & _);
    [|done|apply length_replicate|lia|apply Forall_replicate; nia|by intros i a [-> _]%lookup_replicate].
  rewrite E. cbn [mbind outcome_bind].
  assert (forall k, zsum (replicate k (mn * Z.of_nat n)) = Z.of_nat k * (mn * Z.of_nat n)) as Hrep.
  { induction k as [|k IH]; [done|]. cbn [replicate]. change (zsum (?x :: ?l)) with (x + zsum l). lia. }
  rewrite Hrep in Hs.
  assert (forall parts m', keeps (ways r) c (monitor r) m' -> (n <= length parts)%nat -> Forall (fun a => 0 <= a <= Z.of_nat (ways r)) parts ->
    exists v m'', lookahead.computePartitioningTotalUtility n parts m' = Ok (v, m'') /\ keeps (ways r) c (monitor r) m'') as Hut.
  { intros parts m' Hk' Hlp HFp. unfold lookahead.computePartitioningTotalUtility. rewrite bool_decide_eq_true_2 by done.
    apply wp_ok. eapply wp_mono; [eapply (wp_total_utility (ways r) c (monitor r)); [done|done|rewrite length_take; lia|by apply Forall_take]|].
    done. }
  destruct (Hut best m1 Hk ltac:(lia)) as (v1 & m2 & -> & Hk2); [eapply Forall_impl; [exact HF|]; cbv beta; nia|]. cbn [mbind outcome_bind].
  destruct (Hut (LookaheadPartitioner.curAllocs lp) m2 Hk2 ltac:(lia) HFc) as (v2 & m3 & -> & Hk3). cbn [mbind outcome_bind].
  rewrite bool_decide_eq_false_2 by lia. cbn [prp_setPartitionSizes prp_setMonitor part_policy]. unfold setPartitionSizes.
  cbn [set_monitor partitions partInfo wayPartIndex ways totalSize].
  pose proof (assign_all (set_monitor r m3) (best ++ drop n (LookaheadPartitioner.curAllocs lp)) (partitions r) (partInfo r) (wayPartIndex r) 0 0) as Has.
  cbn zeta in Has. rewrite bool_decide_eq_false_2 in Has.
  - unfold assign_step in Has. cbn [totalSize ways set_monitor] in Has. rewrite Has; [done|rewrite length_app; lia|lia|lia].
  - pose proof (way_counts_sum best (drop n (LookaheadPartitioner.curAllocs lp)) ltac:(eapply Forall_impl; [exact HF|]; cbv beta; nia)) as Hsum.
    rewrite Hl in Hsum. rewrite <- Ep. assert (1 <= mn * Z.of_nat n) by nia.
    assert (2 * (mn * Z.of_nat n) <= Z.of_nat n * (mn * Z.of_nat n)) by nia. lia.
Qed.

Definition demo_env : ProcEnv := mkEnv 0 0 [].
Definition demo_policy : WayPart.t TableMonitor.t :=
  match WayPart.make demo_monitor (CorePartMapper 2) demo_env 16 4 false with Ok r => r
  | Fault _ => WayPart.mk demo_monitor InstrDataPartMapper demo_env [] 0 0 0 0 [] [] false None 0 0 0 0 end.
Definition demo_partitioner : LookaheadPartitioner.t :=
  match LookaheadPartitioner.make 2 4 1 f64_one None with Ok p => p | Fault _ => LookaheadPartitioner.mk 0 0 0 f64_one None [] end.

Lemma repartition_overflows_witness : LookaheadPartitioner.partition 4 demo_partitioner demo_policy = Fault OutOfRange.
Proof.
  apply (repartition_overflows demo_curve 4 demo_partitioner demo_policy).
  - apply demo_shows.
  - by vm_compute.
  - vm_compute. lia.
  - by vm_compute.
  - by vm_compute.
  - vm_compute. lia.
  - by vm_compute.
  - by vm_compute.
  - by vm_compute.
  - by vm_compute.
  - by vm_compute.
  - by vm_compute.
  - by vm_compute.
  - vm_compute. repeat constructor; congruence.
  - vm_compute. lia.
Defined.

(** C12: A fill of a way-partitioned cache: among the candidates (one a way, in
    the order of the ways), the victim lies in a way of the incoming line's
    partition (any way in test mode) and is the one the policy prefers there,
    first lines of other partitions, then the oldest; after [replaced] and
    [update] the line belongs to the incoming partition, every other line is as
    it was, and the size of each partition is still its number of lines. If no
    way is the partition's, the policy fails an assertion instead. *)
Theorem waypart_fill {M : Type} `{MonitorAccessLaws M} (r : WayPart.t M) (v : CCView) (req : MemReq) (cands : list nat) (part : nat) :
  wp_wf r -> candIdx r = 0%nat -> bestId r = None -> word 64 (lineAddr req) -> timestamp r + 1 < max64 ->
  getPartition (env r) (mapper r) req = Ok part -> (part < partitions r)%nat ->
  length cands = ways r -> Forall (fun c => c < length (array r))%nat cands ->
  if decide (Exists (fun w => may_fill r part w) (seq 0 (ways r))) then
    exists c w r1 r2 r3, rank r v req cands = Ok (Some c, r1) /\ replaced r1 c = Ok r2 /\ update r2 c req = Ok r3 /\
      cands !! w = Some c /\ may_fill r part w /\
      (forall w' c' e e', cands !! w' = Some c' -> may_fill r part w' -> array r !! c = Some e -> array r !! c' = Some e' ->
         key (testMode r) part e <= key (testMode r) part e') /\
      wp_wf r3 /\ array r3 = <[c := mkLine (lineAddr req) (timestamp r) part]> (array r) /\
      candIdx r3 = 0%nat /\ bestId r3 = None
  else rank r v req cands = Fault AssertFailed.
Proof.
  intros W Hc Hb Hw Hts Hp Hpart Hl HF. destruct (rank_ok r v req cands part W Hc Hb Hw Hp ltac:(lia) HF) as (b & Hk & E).
  destruct b as [c|]; cbn [least_key] in Hk.
  - destruct Hk as (w & Hcw & Hm & Hmin). rewrite decide_True.
    2:{ apply Exists_exists. exists w. split; [|done]. apply elem_of_seq. apply lookup_lt_Some in Hcw. lia. }
    set (r1 := set_repl r (Some c) (length cands) part (lineAddr req)) in *.
    assert (wp_wf r1) as W1 by (apply set_repl_wf; done). pose proof (proj1 (Forall_lookup _ _) HF w c Hcw) as Hcl.
    destruct (lookup_lt_is_Some_2 _ _ Hcl) as [e He].
    destruct (replaced_ok r1 c e W1 He) as (r2 & E2 & W2 & Ha2 & Hb2 & Hc2 & Hi2 & _).
    assert (array r2 !! c = Some (mkLine (lineAddr req) 0 (p e))) as He2.
    { rewrite Ha2. by apply list_lookup_insert_eq. }
    assert (partitions r2 = partitions r /\ timestamp r2 = timestamp r) as [Ep2 Et2].
    { unfold replaced, upd in E2. cbn [array set_repl r1] in E2. rewrite (rd_some _ _ _ He) in E2. cbn [mbind outcome_bind] in E2.
      rewrite wr_lt in E2 by done. cbn in E2. by injection E2 as <-. }
    destruct (update_ok r2 c _ req W2 He2) as (r3 & E3 & W3 & Ha3 & _ & Hb3 & Hc3); [by rewrite Hi2, Ep2|by rewrite Et2|].
    exists c, w, r1, r2, r3. split; [done|]. split; [done|]. split; [done|]. split; [done|]. split; [done|]. split; [done|].
    split; [done|]. rewrite Hb3, Hc3. split; [|done]. rewrite Ha3, Ha2, Et2. unfold new_part. cbn [ts Z.ltb Z.compare addr].
    rewrite Hi2. by rewrite list_insert_insert_eq.
  - rewrite decide_False; [done|]. intros Hex. apply Exists_exists in Hex as (w & Hin & Hm). apply elem_of_seq in Hin.
    by apply (Hk w ltac:(lia)).
Qed.

Definition demo_fill : WayPart.t UMonMonitor.t :=
  match (m ← UMonMonitor.make 16 8 4 2 4; WayPart.make m (CorePartMapper 2) demo_env 16 4 false) with Ok r => r
  | Fault _ => WayPart.mk (UMonMonitor.mk 0 [] false []) InstrDataPartMapper demo_env [] 0 0 0 0 [] [] false None 0 0 0 0 end.

Definition demo_req : MemReq := mkReq 77 GETS 0 DummyState 10 NoLock stI 1 0.

Lemma demo_fill_wf : wp_wf demo_fill.
Proof.
  assert (forall e, e ∈ array demo_fill -> e = mkLine 0 0 0) as Hl.
  { intros e He. assert (array demo_fill = replicate 16 (mkLine 0 0 0)) as E by by vm_compute. rewrite E in He.
    by apply elem_of_replicate_inv in He. }
  constructor.
  - vm_compute. done.
  - by vm_compute.
  - vm_compute. split; [done|lia].
  - apply Forall_forall. intros e He. rewrite (Hl e He). cbn. split; [vm_compute; lia|]. split; [rewrite max64_eq; lia|split; lia].
  - intros q i Hi. assert (partInfo demo_fill = [mkPart 16 8 0 0 0 0; mkPart 0 8 0 0 0 0]) as E by by vm_compute. rewrite E in Hi.
    destruct q as [|[|q]]; cbn in Hi; [..|done]; injection Hi as <-; by vm_compute.
  - vm_compute. done.
  - split; [|vm_compute; lia]. split; [by vm_compute|].
    destruct (UMon_new_ok 16 8 4 ltac:(lia) ltac:(rewrite max32_eq; lia) ltac:(rewrite max32_eq; lia)) as (u & Eu & Hu & _).
    assert (UMonMonitor.monitors (monitor demo_fill) = [u; u]) as ->.
    { unfold demo_fill, UMonMonitor.make. cbn [replicate mapM check mbind outcome_bind bool_decide]. rewrite Eu. done. }
    repeat constructor; by eexists.
  - vm_compute. done.
Qed.

Lemma waypart_fill_witness : exists c w r1 r2 r3, rank demo_fill (mkView (fun _ => 0) (fun _ => false) (fun _ _ => false)) demo_req [4; 5; 6; 7]%nat = Ok (Some c, r1) /\
  replaced r1 c = Ok r2 /\ update r2 c demo_req = Ok r3 /\
  [4; 5; 6; 7]%nat !! w = Some c /\ may_fill demo_fill 1 w /\
  (forall w' c' e e', [4; 5; 6; 7]%nat !! w' = Some c' -> may_fill demo_fill 1 w' -> array demo_fill !! c = Some e -> array demo_fill !! c' = Some e' ->
     key (testMode demo_fill) 1 e <= key (testMode demo_fill) 1 e') /\
  wp_wf r3 /\ array r3 = <[c := mkLine (lineAddr demo_req) (timestamp demo_fill) 1]> (array demo_fill) /\ candIdx r3 = 0%nat /\ bestId r3 = None.
Proof.
  pose proof (waypart_fill demo_fill (mkView (fun _ => 0) (fun _ => false) (fun _ _ => false)) demo_req [4; 5; 6; 7]%nat 1
    demo_fill_wf ltac:(by vm_compute) ltac:(by vm_compute) ltac:(split; [by vm_compute|by vm_compute]) ltac:(by vm_compute)
    ltac:(by vm_compute) ltac:(vm_compute; lia) ltac:(by vm_compute) ltac:(vm_compute; repeat constructor; lia)) as H.
  rewrite decide_True in H; [exact H|]. apply Exists_exists. exists 2%nat. split; [apply elem_of_seq; vm_compute; lia|right; by vm_compute].
Defined.

Lemma getMisses_short u : (0 < UMon.buckets u)%nat -> getMisses u (replicate (UMon.buckets u) 0) = Fault OutOfRange.
Proof.
  intros Hb. unfold getMisses. destruct (UMon.buckets u) as [|k]; [lia|]. cbn [fill_misses]. unfold wr.
  by rewrite bool_decide_eq_false_2 by (rewrite length_replicate; lia).
Qed.

(** Reading a miss curve from a monitor overruns the buffer the curve is put in:
    it has one entry less than [getMisses] writes. *)
Theorem monitor_get_overruns (m : UMonMonitor.t) (q b : nat) : umon_monitor_ready m -> (q < length (UMonMonitor.monitors m))%nat ->
  mon_get q b m = Fault OutOfRange.
Proof.
  intros [Hv HF] Hq. cbn [mon_get UMonMonitor.monitor]. unfold UMonMonitor.get, mbind, ST_bind, Prelude.get, assertS.
  rewrite bool_decide_eq_true_2 by done. cbn [lift check]. unfold whenS. rewrite Hv. cbn [negb].
  assert (UMonMonitor.getMissCurves m = Fault OutOfRange) as ->; [|done].
  unfold UMonMonitor.getMissCurves. destruct (UMonMonitor.monitors m) as [|u ms] eqn:Em; [cbn in Hq; lia|]. cbn [length seq loop].
  unfold UMonMonitor.getMissCurve. rewrite Em. rewrite bool_decide_eq_true_2 by (cbn; lia). cbn [check mbind outcome_bind].
  inversion HF as [|? ? [st Hst] _]; subst. destruct (uo_buckets _ _ Hst) as [Hb Hl]. rewrite (rd_some _ _ u) by done.
  cbn [mbind outcome_bind]. by rewrite getMisses_short by done.
Qed.

Lemma upd_out {A} (l : list A) i (f : A -> A) : (length l <= i)%nat -> upd l i f = Fault OutOfRange.
Proof. intros Hl. unfold upd, rd. by rewrite lookup_ge_None_2. Qed.

(** The instruction/data mapper answers the flag, 2, for an instruction fetch,
    but has partitions 0 and 1: filling an empty line fails. *)
Theorem ifetch_partition_out_of_range {M : Type} `{MonitorAccessLaws M} (ev : ProcEnv) (r : WayPart.t M) (id : nat) (e : WayPartInfo) (req : MemReq) :
  req_is req IFETCH = true -> getNumPartitions ev InstrDataPartMapper = 2%nat /\ getPartition ev InstrDataPartMapper req = Ok 2%nat /\
    (wp_wf r -> partitions r = 2%nat -> incomingLinePart r = 2%nat -> array r !! id = Some e -> ts e = 0 -> update r id req = Fault OutOfRange).
Proof.
  intros Hf. split; [done|]. split.
  - cbn [getPartition]. unfold req_is, IFETCH in *. assert (Z.land (flags req) 2 = 2) as ->; [|done].
    assert (Z.land (flags req) 2 = if Z.testbit (flags req) 1 then 2 else 0) as E; [|rewrite E in *; by destruct (Z.testbit (flags req) 1)].
    apply Z.bits_inj'. intros i Hi. rewrite Z.land_spec. destruct (decide (i = 1)) as [->|Hne].
    + by destruct (Z.testbit (flags req) 1).
    + assert (Z.testbit 2 i = false) as E2.
      { change 2 with (2 ^ 1). by rewrite Z.pow2_bits_false by lia. }
      rewrite E2, andb_false_r. by destruct (Z.testbit (flags req) 1); [rewrite E2|rewrite Z.bits_0].
  - intros W Hp Hi He Ht. unfold update. rewrite (rd_some _ _ _ He). cbn [mbind outcome_bind]. rewrite Ht. cbn [Z.ltb Z.compare].
    pose proof (proj1 (Forall_lookup _ _) (wf_lines _ W) id e He) as (Hpe & _). rewrite Hi.
    rewrite (proj2 (Nat.eqb_neq (p e) 2)) by lia. cbn [negb]. pose proof (wf_infos _ W) as Hli.
    destruct (lookup_lt_is_Some_2 (partInfo r) (p e) ltac:(lia)) as [x Hx]. rewrite (upd_ok _ _ _ _ Hx). cbn [mbind outcome_bind].
    by rewrite upd_out by (rewrite length_insert; lia).
Qed.

End PartitionProps.
