(* ===== verification/World.v ===== *)
(** * The simulated memory system: configuration, state and primitive accesses

    The objects of a simulation that accesses read and write: caches (their
    bottom and top controllers' arrays, cache array, counters and filter array),
    memory controllers, the locks, the cores' event recorders and the event
    heap.  [Sys] holds what initialisation fixes (src/src/init.cpp builds it:
    latencies, names, who is whose parent and child), [World] what changes.

    Locks are the set of those held.  One simulated thread runs at a time, so
    [futex_lock] on a held lock never returns: a [Deadlock]. *)

From stdpp Require Import functions.
From S2P Require Import Prelude MemHier MTRand ReplPolicies CacheArrays TimingEvent.
Local Open Scope Z_scope.

(** ** Locks *)

Inductive Lock :=
  | LBcc (cache : nat)   (* MESIBottomCC::ccLock *)
  | LTcc (cache : nat)   (* MESITopCC::ccLock *)
  | LFilter (cache : nat) (* FilterCache::filterLock *)
  | LSkew (bank : nat)   (* zinfo->skewLocks *)
  | LGlobal.             (* zinfo->global_lock *)

Global Instance Lock_eq_dec : EqDecision Lock.
Proof. solve_decision. Defined.

Global Instance Lock_countable : Countable Lock.
Proof.
  apply (inj_countable'
    (fun l => match l with LBcc c => (0, c) | LTcc c => (1, c) | LFilter c => (2, c) | LSkew c => (3, c) | LGlobal => (4, 0) end%nat)
    (fun p => match p with (0, c) => LBcc c | (1, c) => LTcc c | (2, c) => LFilter c | (3, c) => LSkew c | _ => LGlobal end%nat)).
  by intros [].
Defined.

(** ** Directory entries ([MESITopCC::Entry]) *)

Definition MAX_CACHE_CHILDREN : nat := 256.

Record TopEntry := mkEntry {
  numSharers : Z; sharers : gset nat; owners : gset nat; exclusive : bool
}.

Definition entry_clear : TopEntry := mkEntry 0 ∅ ∅ false.
Definition entry_isEmpty (e : TopEntry) : bool := numSharers e =? 0.
Definition entry_isExclusive (e : TopEntry) : bool := (numSharers e =? 1) && exclusive e.

(** [bitset\[i\]]: out of range beyond [MAX_CACHE_CHILDREN]. *)
Definition bit_rd (b : gset nat) (i : nat) : outcome bool :=
  if bool_decide (i < MAX_CACHE_CHILDREN)%nat then Ok (bool_decide (i ∈ b)) else Fault OutOfRange.
Definition bit_wr (b : gset nat) (i : nat) (v : bool) : outcome (gset nat) :=
  if bool_decide (i < MAX_CACHE_CHILDREN)%nat then Ok (if v then {[i]} ∪ b else b ∖ {[i]}) else Fault OutOfRange.

(** ** Counters of a bottom controller, and of a filter cache *)

Inductive Counter :=
  | profGETSHit | profGETSMiss | profGETXHit | profGETXMissIM | profGETXMissSM
  | profPUTS | profPUTX | profINV | profINVX | profFWD
  | profGETNextLevelLat | profGETNetLat
  | profFirstTimeMiss | profIcacheFirstTimeMiss | profDcacheFirstTimeMiss
  | profRXPFirstTimeMiss | profRPFirstTimeMiss | profRWPFirstTimeMiss | profRWXPFirstTimeMiss
  | profBinaryFirstTimeMiss | profHeapFirstTimeMiss | profSLFirstTimeMiss | profMMAPFirstTimeMiss
  | profSTACKFirstTimeMiss | profVVARFirstTimeMiss | profVDSOFirstTimeMiss | profVSYSCALLFirstTimeMiss
  | procTableHit | procTableMiss | unlabelledAccess | translatedAccessCount
  | rxpCount | rwpCount | rpCount | rwxpCount.

Global Instance Counter_eq_dec : EqDecision Counter.
Proof. solve_decision. Defined.

(** ** Filter arrays ([FilterCache::FilterEntry]) *)

Record FilterEntry := mkFE { rdAddr : Z; wrAddr : Z; availCycle : Z }.
Definition filter_clear : FilterEntry := mkFE 0 0 0.

(** ** State of a cache *)

Record CacheState (A : Type) := mkCS {
  bcc : list MESIState;          (* MESIBottomCC::array *)
  tcc : list TopEntry;           (* MESITopCC::array; empty in a terminal cache *)
  arr : A;
  prof : Counter -> Z;
  rng : MTRand.t;
  cur_set : Z;
  filterArray : list FilterEntry (* empty unless a filter cache *)
}.
Arguments mkCS {A}. Arguments bcc {A}. Arguments tcc {A}. Arguments arr {A}.
Arguments prof {A}. Arguments rng {A}. Arguments cur_set {A}. Arguments filterArray {A}.

Section field_updates.
Context {A : Type}.
Definition set_bcc (k : CacheState A) (x : list MESIState) : CacheState A :=
  mkCS x (tcc k) (arr k) (prof k) (rng k) (cur_set k) (filterArray k).
Definition set_tcc (k : CacheState A) (x : list TopEntry) : CacheState A :=
  mkCS (bcc k) x (arr k) (prof k) (rng k) (cur_set k) (filterArray k).
Definition set_arr (k : CacheState A) (x : A) : CacheState A :=
  mkCS (bcc k) (tcc k) x (prof k) (rng k) (cur_set k) (filterArray k).
Definition set_prof (k : CacheState A) (x : Counter -> Z) : CacheState A :=
  mkCS (bcc k) (tcc k) (arr k) x (rng k) (cur_set k) (filterArray k).
Definition set_rng (k : CacheState A) (x : MTRand.t) : CacheState A :=
  mkCS (bcc k) (tcc k) (arr k) (prof k) x (cur_set k) (filterArray k).
Definition set_cur_set (k : CacheState A) (x : Z) : CacheState A :=
  mkCS (bcc k) (tcc k) (arr k) (prof k) (rng k) x (filterArray k).
Definition set_filterArray (k : CacheState A) (x : list FilterEntry) : CacheState A :=
  mkCS (bcc k) (tcc k) (arr k) (prof k) (rng k) (cur_set k) x.
End field_updates.

(** A cache as built: every line invalid, the directory (unless terminal) and the
    filter array (of [numSets] entries, 0 unless a filter cache) cleared. *)
Definition cache_init {A} (terminal : bool) (numLines : nat) (a : A) (numSets : nat) : CacheState A :=
  mkCS (replicate numLines stI) (if terminal then [] else replicate numLines entry_clear) a (fun _ => 0)
       (MTRand.seed 0x41220423A) 0 (replicate numSets filter_clear).

(** ** Configuration *)

(** A [MemObject*]: a cache or a memory controller. *)
Inductive ObjRef := RCache (c : nat) | RMem (m : nat).

Record FilterConf := mkFC { setMask : Z; f_srcId : nat; reqFlags : Z; f_pid : Z; procMask : Z; lineBits : Z }.

Record CacheConf := mkConf {
  name : string;
  terminal : bool;            (* MESITerminalCC rather than MESICC *)
  nonInclusiveHack : bool;
  isLLC : bool;
  accLat : Z; invLat : Z;
  selfId : nat;               (* this cache's childId at its parents *)
  parents : list ObjRef; parentRTTs : list Z;
  children : list nat; childrenRTTs : list Z;
  fconf : option FilterConf   (* a FilterCache *)
}.

Record ProcMapInfo := mkPM {
  start_range : Z; end_range : Z; pm_name : Z; permissions : Z;
  pm_binary : bool; pm_heap : bool; pm_sl : bool; pm_mmap : bool;
  pm_stack : bool; pm_vvar : bool; pm_vdso : bool; pm_vsyscall : bool; pm_result : Z
}.

(** The fields of [GlobSimInfo] that accesses read. *)
Record ZInfo := mkZ {
  llc_skews : Z;
  ftmEnable : bool; ftmTypeFlag : Z;
  firstPhase : bool; noSharing : bool; scatterCache : bool;
  perm_rxp : Z; perm_rwp : Z; perm_rp : Z; perm_rwxp : Z;
  numCores : nat;
  perProcessInfo_idx : list Z; perProcessInfo_info : list (list ProcMapInfo);
  sharedLibInfo_idx : list Z; sharedLibInfo_libAddr : list Z;
  randFuel : nat (* draws allowed to the rejection loop of MTRand::randInt *)
}.

Record Sys := mkSys { confs : list CacheConf; zinfo : ZInfo }.

(** ** Memory controllers: what a cache's bottom controller relies on *)

(** [access]: response cycle, new [*req.state], new controller state. *)
Class MemCtrl (M : Type) := { mem_access : M -> MemReq -> outcome (Z * MESIState * M) }.

(** ** World *)

Record World (A M : Type) := mkW {
  caches : list (CacheState A);
  mems : list M;
  locks : gset Lock;
  dummy : MESIState;                    (* FilterCache::replace's dummyState *)
  eventRecorders : list (option EventRecorder);
  heap : Heap
}.
Arguments mkW {A M}. Arguments caches {A M}. Arguments mems {A M}. Arguments locks {A M}.
Arguments dummy {A M}. Arguments eventRecorders {A M}. Arguments heap {A M}.

Section primitives.
Context {A M : Type}.
Notation W := (World A M).

Definition set_caches (w : W) (x : list (CacheState A)) : W :=
  mkW x (mems w) (locks w) (dummy w) (eventRecorders w) (heap w).
Definition set_mems (w : W) (x : list M) : W :=
  mkW (caches w) x (locks w) (dummy w) (eventRecorders w) (heap w).
Definition set_locks (w : W) (x : gset Lock) : W :=
  mkW (caches w) (mems w) x (dummy w) (eventRecorders w) (heap w).
Definition set_dummy (w : W) (x : MESIState) : W :=
  mkW (caches w) (mems w) (locks w) x (eventRecorders w) (heap w).
Definition set_recs (w : W) (x : list (option EventRecorder)) : W :=
  mkW (caches w) (mems w) (locks w) (dummy w) x (heap w).
Definition set_heap (w : W) (x : Heap) : W :=
  mkW (caches w) (mems w) (locks w) (dummy w) (eventRecorders w) x.

Definition futex_lock (l : Lock) : ST W unit := fun w =>
  if bool_decide (l ∈ locks w) then Fault Deadlock else Ok (tt, set_locks w ({[l]} ∪ locks w)).
Definition futex_unlock (l : Lock) : ST W unit := fun w => Ok (tt, set_locks w (locks w ∖ {[l]})).

(** A request's [childLock], possibly null. *)
Definition childLock_do (f : Lock -> ST W unit) (r : LockRef) : ST W unit :=
  match r with NoLock => mret tt | CCLock c => f (LBcc c) | FilterLock c => f (LFilter c) end.

(** Run a computation on one cache's state. *)
Definition zoom {X} (c : nat) (m : ST (CacheState A) X) : ST W X := fun w =>
  match caches w !! c with
  | None => Fault OutOfRange
  | Some k => match m k with
              | Ok (x, k') => Ok (x, set_caches w (<[c := k']> (caches w)))
              | Fault e => Fault e
              end
  end.

(** Run a computation on the event heap. *)
Definition zoom_heap {X} (m : ST Heap X) : ST W X := fun w =>
  match m (heap w) with Ok (x, h) => Ok (x, set_heap w h) | Fault e => Fault e end.

(** ** Accesses to one cache's arrays *)

Definition bcc_get (i : nat) : ST (CacheState A) MESIState := k ← get; lift (rd (bcc k) i).
Definition bcc_put (i : nat) (s : MESIState) : ST (CacheState A) unit :=
  k ← get; l ← lift (wr (bcc k) i s); put (set_bcc k l).
Definition tcc_get (i : nat) : ST (CacheState A) TopEntry := k ← get; lift (rd (tcc k) i).
Definition tcc_put (i : nat) (e : TopEntry) : ST (CacheState A) unit :=
  k ← get; l ← lift (wr (tcc k) i e); put (set_tcc k l).
Definition arr_do {X} (f : A -> outcome (X * A)) : ST (CacheState A) X :=
  k ← get; '(x, a) ← lift (f (arr k)); _ ← put (set_arr k a); mret x.

(** [Counter::inc]. *)
Definition prof_inc (c : Counter) (x : Z) : ST (CacheState A) unit :=
  modify (fun k => set_prof k (<[c := prof k c +64 x]> (prof k))).

(** [*req.state], read and written through the pointer. *)
Definition state_get (r : StateRef) : ST W MESIState :=
  match r with
  | DummyState => w ← get; mret (dummy w)
  | LineState c i => zoom c (bcc_get i)
  end.
Definition state_put (r : StateRef) (s : MESIState) : ST W unit :=
  match r with
  | DummyState => modify (fun w => set_dummy w s)
  | LineState c i => zoom c (bcc_put i s)
  end.

(** ** The replacement-policy view of a controller *)

Definition view_of (terminal : bool) (k : CacheState A) : CCView :=
  mkView
    (fun i => if terminal then 0 else match tcc k !! i with Some e => numSharers e | None => 0 end)
    (fun i => match bcc k !! i with Some s => negb (bool_decide (s = stI)) | None => false end)
    (fun i s => if terminal then false else match tcc k !! i with Some e => bool_decide (s ∈ sharers e) | None => false end).

(** ** Rules of the total weakest precondition *)

Lemma wp_lock l (w : W) (Q : unit -> W -> Prop) :
  l ∉ locks w -> Q tt (set_locks w ({[l]} ∪ locks w)) -> wp (futex_lock l) w Q.
Proof. intros Hl HQ. unfold wp, futex_lock. by rewrite bool_decide_eq_false_2. Qed.

Lemma wp_unlock l (w : W) (Q : unit -> W -> Prop) :
  Q tt (set_locks w (locks w ∖ {[l]})) -> wp (futex_unlock l) w Q.
Proof. intros HQ. exact HQ. Qed.

Lemma wp_zoom {X} c k (m : ST (CacheState A) X) (w : W) Q :
  caches w !! c = Some k ->
  wp m k (fun x k' => Q x (set_caches w (<[c := k']> (caches w)))) -> wp (zoom c m) w Q.
Proof. unfold wp, zoom. intros ->. by destruct (m k) as [[x k']|]. Qed.

Lemma wp_bcc_get i s (k : CacheState A) (Q : MESIState -> _ -> Prop) :
  bcc k !! i = Some s -> Q s k -> wp (bcc_get i) k Q.
Proof. intros Hi HQ. apply wp_bind, wp_get. by eapply wp_lift; [apply rd_some|]. Qed.

Lemma wp_bcc_put i s (k : CacheState A) (Q : unit -> _ -> Prop) :
  (i < length (bcc k))%nat -> Q tt (set_bcc k (<[i := s]> (bcc k))) -> wp (bcc_put i s) k Q.
Proof. intros Hi HQ. apply wp_bind, wp_get, wp_bind. eapply wp_lift; [by apply wr_lt|done]. Qed.

Lemma wp_tcc_get i e (k : CacheState A) (Q : TopEntry -> _ -> Prop) :
  tcc k !! i = Some e -> Q e k -> wp (tcc_get i) k Q.
Proof. intros Hi HQ. apply wp_bind, wp_get. by eapply wp_lift; [apply rd_some|]. Qed.

Lemma wp_tcc_put i e (k : CacheState A) (Q : unit -> _ -> Prop) :
  (i < length (tcc k))%nat -> Q tt (set_tcc k (<[i := e]> (tcc k))) -> wp (tcc_put i e) k Q.
Proof. intros Hi HQ. apply wp_bind, wp_get, wp_bind. eapply wp_lift; [by apply wr_lt|done]. Qed.

Lemma wp_arr_do {X} (f : A -> outcome (X * A)) x a (k : CacheState A) (Q : X -> _ -> Prop) :
  f (arr k) = Ok (x, a) -> Q x (set_arr k a) -> wp (arr_do f) k Q.
Proof. intros Hf HQ. apply wp_bind, wp_get, wp_bind. eapply wp_lift; [done|exact HQ]. Qed.

Lemma wp_prof c x (k : CacheState A) (Q : unit -> _ -> Prop) :
  Q tt (set_prof k (<[c := prof k c +64 x]> (prof k))) -> wp (prof_inc c x) k Q.
Proof. intros HQ. exact HQ. Qed.

End primitives.
