(* ===== verification/Coherence.v ===== *)
(** * Coherence controllers (src/src/coherence_ctrls.h, src/src/coherence_ctrls.cpp)

    [BottomCC] ([MESIBottomCC]: state with respect to the upper level, requests
    to parents), [TopCC] ([MESITopCC]: the directory over the children,
    invalidations to them), the race check, and the two controllers built from
    them, [MESICC] and [MESITerminalCC].  The calls to other objects are
    parameters here ([Upper], [Lower]); Cache ties the recursion. *)

From S2P Require Import Prelude TimingEvent MemHier MTRand ReplPolicies CacheArrays World.
Local Open Scope Z_scope.

Section coherence.
Context {A M : Type}.
Notation W := (World A M).
Variable sys : Sys.

(** The virtual methods of a parent [MemObject]. [checkSkew] answers the line id, or -1. *)
Record Upper := mkUpper {
  up_access : ObjRef -> MemReq -> ST W Z;
  up_accessSkew : ObjRef -> MemReq -> ST W Z;
  up_checkSkew : ObjRef -> MemReq -> ST W Z
}.

(** The virtual methods of a child [BaseCache]. [invalidate] is given the value
    of the caller's writeback flag and answers it, pulled up to true or not. *)
Record Lower := mkLower {
  low_invalidate : nat -> InvReq -> bool -> ST W (Z * bool);
  low_refresh : nat -> Z -> ST W unit
}.

Definition conf (c : nat) : ST W CacheConf := lift (rd (confs sys) c).

(** ** Bottom controller *)

Section BottomCC.
Variable P : Upper.

(** XOR of the four 16-bit chunks of the address, modulo the number of parents. *)
Definition getParentId (cf : CacheConf) (lineAddr : Z) : outcome nat :=
  let chunk k := Z.land 0xffff (Z.shiftr lineAddr (16 * k)) in
  let res := Z.lxor (Z.lxor (Z.lxor (chunk 0) (chunk 1)) (chunk 2)) (chunk 3) in
  match length (parents cf) with
  | O => Fault OutOfRange (* division by zero *)
  | n => mret (Z.to_nat (res mod Z.of_nat n))
  end.

(** [isL2], as set by [init]. *)
Definition isL2 (cf : CacheConf) : bool := String.prefix "l2" (name cf).

Definition isExclusive (c i : nat) : ST W bool :=
  s ← zoom c (bcc_get i); mret (bool_decide (s = stE) || bool_decide (s = stM)).

Definition isValid (c i : nat) : ST W bool :=
  s ← zoom c (bcc_get i); mret (negb (bool_decide (s = stI))).

Definition setInvalid (c i : nat) : ST W unit := zoom c (bcc_put i stI).

Definition bcc_moveAddr (c repl_id lineId : nat) : ST W unit :=
  s1 ← zoom c (bcc_get repl_id);
  s2 ← zoom c (bcc_get lineId);
  _ ← assertS (bool_decide (s1 = stI));
  _ ← zoom c (bcc_put repl_id s2);
  zoom c (bcc_put lineId stI).

Definition lockSkew (req : MemReq) (skewBank : nat) : ST W unit :=
  _ ← childLock_do futex_unlock (childLock req); futex_lock (LSkew skewBank).

Definition unlockSkew (req : MemReq) (skewBank : nat) : ST W unit :=
  _ ← childLock_do futex_lock (childLock req); futex_unlock (LSkew skewBank).

(** [start_bank]: the first bank of the skew group of an address's bank. *)
Definition start_bank (bank : nat) : outcome nat :=
  let n := llc_skews (zinfo sys) in
  if n =? 0 then Fault OutOfRange else Ok (Z.to_nat (Z.of_nat bank - Z.rem (Z.of_nat bank) n)).

(** The first of the banks [i], [i+1], ... whose array holds the line. *)
Fixpoint find_skew (cf : CacheConf) (req : MemReq) (i n : nat) : ST W (option nat) :=
  match n with
  | O => mret None
  | S n' =>
      p ← lift (rd (parents cf) i);
      lineId ← up_checkSkew P p req;
      if negb (lineId =? -1) then mret (Some i) else find_skew cf req (S i) n'
  end.

Definition skews : nat := Z.to_nat (llc_skews (zinfo sys)).

(** A PUT to the parents: the body of both write-back cases of [processEviction]. *)
Definition put_up (cf : CacheConf) (req : MemReq) : ST W Z :=
  bank ← lift (getParentId cf (lineAddr req));
  start ← lift (start_bank bank);
  if isL2 cf then
    _ ← lockSkew req start;
    o ← find_skew cf req start skews;
    respCycle ← match o with
      | Some i => p ← lift (rd (parents cf) i); up_accessSkew P p req
      | None =>
          s ← state_get (state req);
          _ ← assertS (negb (bool_decide (s = initialState req)));
          mret (cycle req)
      end;
    _ ← unlockSkew req start;
    mret respCycle
  else
    p ← lift (rd (parents cf) bank);
    up_access P p req.

(** A GET to the parents: the body of both miss cases of [processAccess].
    [nextLevelLat] is the 32-bit difference of the response and [cycle]. *)
Definition get_up (c : nat) (cf : CacheConf) (req : MemReq) : ST W Z :=
  parentId ← lift (getParentId cf (lineAddr req));
  start ← lift (start_bank parentId);
  nextLevelLat ← (if isL2 cf then
      _ ← lockSkew req start;
      o ← find_skew cf req start skews;
      bank ← match o with
        | Some i => mret i
        | None =>
            r ← zoom c (k ← get;
                        '(r, g) ← lift (MTRand.randIntN (randFuel (zinfo sys)) (rng k) (u32 (llc_skews (zinfo sys) - 1)));
                        _ ← put (set_rng k g); mret r);
            mret (start + Z.to_nat r)%nat
        end;
      p ← lift (rd (parents cf) bank);
      r ← up_accessSkew P p req;
      _ ← unlockSkew req start;
      mret (u32 (r - cycle req))
    else
      p ← lift (rd (parents cf) parentId);
      r ← up_access P p req;
      mret (u32 (r - cycle req)));
  netLat ← lift (rd (parentRTTs cf) parentId);
  _ ← zoom c (prof_inc profGETNextLevelLat nextLevelLat);
  _ ← zoom c (prof_inc profGETNetLat netLat);
  mret (cycle req +64 (nextLevelLat +32 netLat)).

Definition bcc_req (c i : nat) (cf : CacheConf) (x : Z) (t : AccessType) (cycle : Z) (s : MESIState)
    (srcId : nat) (flags : Z) : MemReq :=
  mkReq x t (selfId cf) (LineState c i) cycle (CCLock c) s srcId flags.

Definition bcc_processEviction (c : nat) (wbLineAddr : Z) (lineId : nat) (lowerLevelWriteback : bool)
    (cycle : Z) (srcId : nat) : ST W Z :=
  cf ← conf c;
  _ ← whenS lowerLevelWriteback (
        s ← zoom c (bcc_get lineId);
        _ ← assertS (bool_decide (s = stM) || bool_decide (s = stE));
        zoom c (bcc_put lineId stM));
  s ← zoom c (bcc_get lineId);
  respCycle ← match s with
    | stI => mret cycle
    | stS | stE => put_up cf (bcc_req c lineId cf wbLineAddr PUTS cycle s srcId 0)
    | stM => put_up cf (bcc_req c lineId cf wbLineAddr PUTX cycle s srcId 0)
    end;
  s ← zoom c (bcc_get lineId);
  _ ← assertS (bool_decide (s = stI));
  mret respCycle.

Definition bcc_processAccess (c : nat) (lineAddr : Z) (lineId : nat) (type : AccessType)
    (cycle : Z) (srcId : nat) (flags : Z) : ST W Z :=
  cf ← conf c;
  s ← zoom c (bcc_get lineId);
  respCycle ← match type with
    | PUTS =>
        _ ← assertS (negb (bool_decide (s = stI)));
        _ ← zoom c (prof_inc profPUTS 1);
        mret cycle
    | PUTX =>
        _ ← assertS (bool_decide (s = stM) || bool_decide (s = stE));
        _ ← whenS (bool_decide (s = stE)) (zoom c (bcc_put lineId stM));
        _ ← zoom c (prof_inc profPUTX 1);
        mret cycle
    | GETS =>
        if bool_decide (s = stI) then
          r ← get_up c cf (bcc_req c lineId cf lineAddr GETS cycle s srcId flags);
          _ ← zoom c (prof_inc profGETSMiss 1);
          s ← zoom c (bcc_get lineId);
          _ ← assertS (bool_decide (s = stS) || bool_decide (s = stE));
          mret r
        else _ ← zoom c (prof_inc profGETSHit 1); mret cycle
    | GETX =>
        r ← (if bool_decide (s = stI) || bool_decide (s = stS) then
               _ ← zoom c (prof_inc (if bool_decide (s = stI) then profGETXMissIM else profGETXMissSM) 1);
               get_up c cf (bcc_req c lineId cf lineAddr GETX cycle s srcId flags)
             else
               _ ← whenS (bool_decide (s = stE)) (zoom c (bcc_put lineId stM));
               _ ← zoom c (prof_inc profGETXHit 1);
               mret cycle);
        s ← zoom c (bcc_get lineId);
        _ ← assertS (bool_decide (s = stM));
        mret r
    end;
  _ ← assertS (cycle <=? respCycle);
  mret respCycle.

Definition bcc_processWritebackOnAccess (c lineId : nat) : ST W unit :=
  s ← zoom c (bcc_get lineId);
  _ ← assertS (bool_decide (s = stM) || bool_decide (s = stE));
  whenS (bool_decide (s = stE)) (zoom c (bcc_put lineId stM)).

(** Local to the cache; answers the new writeback flag. *)
Definition bcc_processInval (lineId : nat) (type : InvType) (wb : bool) : ST (CacheState A) bool :=
  s ← bcc_get lineId;
  _ ← assertS (negb (bool_decide (s = stI)));
  match type with
  | INVX =>
      _ ← assertS (bool_decide (s = stE) || bool_decide (s = stM));
      _ ← bcc_put lineId stS;
      _ ← prof_inc profINVX 1;
      mret (wb || bool_decide (s = stM))
  | INV =>
      _ ← bcc_put lineId stI;
      _ ← prof_inc profINV 1;
      mret (wb || bool_decide (s = stM))
  | FWD =>
      _ ← assertS (bool_decide (s = stS));
      _ ← prof_inc profFWD 1;
      mret wb
  end.

Definition bcc_processNonInclusiveWriteback (c : nat) (lineAddr : Z) (type : AccessType) (cycle : Z)
    (st : StateRef) (srcId : nat) (flags : Z) : ST W Z :=
  cf ← conf c;
  if negb (nonInclusiveHack cf) then throw Panicked else
  s ← state_get st;
  parentId ← lift (getParentId cf lineAddr);
  p ← lift (rd (parents cf) parentId);
  up_access P p (mkReq lineAddr type (selfId cf) st cycle (CCLock c) s srcId (Z.lor flags NONINCLWB)).

End BottomCC.

(** ** Top controller *)

Section TopCC.
Variable L : Lower.

Definition checkSameOwner (c lineId srcId : nat) : ST W bool :=
  e ← zoom c (tcc_get lineId); lift (bit_rd (owners e) srcId).

Definition set_sharer (e : TopEntry) (i : nat) (v : bool) : outcome TopEntry :=
  b ← bit_wr (sharers e) i v; mret (mkEntry (numSharers e) b (owners e) (exclusive e)).
Definition set_owner (e : TopEntry) (i : nat) (v : bool) : outcome TopEntry :=
  b ← bit_wr (owners e) i v; mret (mkEntry (numSharers e) (sharers e) b (exclusive e)).
Definition set_num (e : TopEntry) (n : Z) : TopEntry := mkEntry n (sharers e) (owners e) (exclusive e).
Definition set_excl (e : TopEntry) (b : bool) : TopEntry := mkEntry (numSharers e) (sharers e) (owners e) b.

Definition upd_entry (c lineId : nat) (f : TopEntry -> outcome TopEntry) : ST W unit :=
  zoom c (e ← tcc_get lineId; e ← lift (f e); tcc_put lineId e).

(** The loop over the children [j], [j+1], ...; [kids] pairs the child with its RTT. *)
Fixpoint evict_loop (c : nat) (lineAddr : Z) (lineId : nat) (j : nat) (kids : list nat) : ST W unit :=
  match kids with
  | [] => mret tt
  | child :: kids' =>
      e ← zoom c (tcc_get lineId);
      shared ← lift (bit_rd (sharers e) j);
      _ ← whenS shared (_ ← whenS (lineAddr =? 0) (throw Panicked); low_refresh L child lineAddr);
      _ ← upd_entry c lineId (fun e => e ← set_sharer e j false; mret (set_num (set_excl e false) 0));
      evict_loop c lineAddr lineId (S j) kids'
  end.

Definition evictAddr (c : nat) (lineAddr : Z) (lineId : nat) : ST W unit :=
  cf ← conf c; evict_loop c lineAddr lineId 0 (children cf).

(** Copy the sharer and owner bits of the first [n] children from [b2] to [b1]; clear them in [b2]. *)
Definition copy_bits (n : nat) (b1 b2 : gset nat) : gset nat :=
  (b1 ∖ set_seq 0 n) ∪ (b2 ∩ set_seq 0 n).
Definition clear_bits (n : nat) (b : gset nat) : gset nat := b ∖ set_seq 0 n.

Definition tcc_moveAddr (c repl_id lineId : nat) : ST W unit :=
  cf ← conf c;
  let n := length (children cf) in
  e1 ← zoom c (tcc_get repl_id);
  e2 ← zoom c (tcc_get lineId);
  _ ← assertS (numSharers e1 =? 0);
  _ ← assertS (negb (exclusive e1));
  _ ← zoom c (tcc_put repl_id (mkEntry (numSharers e2) (copy_bits n (sharers e1) (sharers e2))
                                      (copy_bits n (owners e1) (owners e2)) (exclusive e2)));
  e2 ← zoom c (tcc_get lineId);
  zoom c (tcc_put lineId (mkEntry 0 (clear_bits n (sharers e2)) (clear_bits n (owners e2)) false)).

(** The loop of [sendInvalidates]; state: latest response, writeback flag, count. *)
Fixpoint inval_loop (c : nat) (rtts : list Z) (req : InvReq) (lineId : nat) (j : nat) (kids : list nat)
    (maxCycle : Z) (wb : bool) (sentInvs : Z) : ST W (Z * bool * Z) :=
  match kids with
  | [] => mret (maxCycle, wb, sentInvs)
  | child :: kids' =>
      e ← zoom c (tcc_get lineId);
      shared ← lift (bit_rd (sharers e) j);
      if (shared : bool) then
        '(respCycle, wb) ← low_invalidate L child req wb;
        rtt ← lift (rd rtts j);
        _ ← whenS (bool_decide (i_type req = INV)) (upd_entry c lineId (fun e => set_sharer e j false));
        inval_loop c rtts req lineId (S j) kids' (Z.max (respCycle +64 rtt) maxCycle) wb (sentInvs +32 1)
      else inval_loop c rtts req lineId (S j) kids' maxCycle wb sentInvs
  end.

Definition sendInvalidates (c : nat) (lineAddr : Z) (lineId : nat) (type : InvType) (wb : bool)
    (cycle : Z) (srcId : nat) : ST W (Z * bool) :=
  cf ← conf c;
  e ← zoom c (tcc_get lineId);
  if bool_decide (type = INVX) && negb (entry_isExclusive e) then mret (cycle, wb)
  else if entry_isEmpty e then mret (cycle, wb)
  else
    '(maxCycle, wb, sentInvs) ← inval_loop c (childrenRTTs cf)
       (mkInv lineAddr type cycle srcId) lineId 0 (children cf) cycle wb 0;
    e ← zoom c (tcc_get lineId);
    _ ← assertS (sentInvs =? numSharers e);
    _ ← (if bool_decide (type = INV) then upd_entry c lineId (fun e => mret (set_num e 0))
         else
           _ ← assertS (exclusive e);
           _ ← assertS (numSharers e =? 1);
           upd_entry c lineId (fun e => mret (set_excl e false)));
    mret (maxCycle, wb).

Definition tcc_processEviction (c : nat) (wbLineAddr : Z) (lineId : nat) (wb : bool) (cycle : Z)
    (srcId : nat) : ST W (Z * bool) :=
  cf ← conf c;
  if nonInclusiveHack cf then
    _ ← upd_entry c lineId (fun _ => mret entry_clear); mret (cycle, wb)
  else sendInvalidates c wbLineAddr lineId INV wb cycle srcId.

(** The shared tail of the PUTX and PUTS cases. *)
Definition tcc_remove (c lineId childId : nat) (childState : StateRef) : ST W unit :=
  e ← zoom c (tcc_get lineId);
  shared ← lift (bit_rd (sharers e) childId);
  _ ← assertS shared;
  _ ← upd_entry c lineId (fun e => e ← set_sharer e childId false; mret (set_num e (numSharers e -32 1)));
  state_put childState stI.

(** Add a child: sharer and owner bits. *)
Definition add_child (e : TopEntry) (childId : nat) : outcome TopEntry :=
  e ← set_sharer e childId true; set_owner e childId true.

Definition tcc_processAccess (c : nat) (lineAddr : Z) (lineId : nat) (type : AccessType)
    (childId : nat) (haveExclusive : bool) (childState : StateRef) (inducedWriteback : bool)
    (cycle : Z) (srcId : nat) (flags : Z) : ST W (Z * bool) :=
  e ← zoom c (tcc_get lineId);
  match type with
  | PUTX =>
      _ ← assertS (entry_isExclusive e);
      if negb (Z.land flags PUTX_KEEPEXCL =? 0) then
        shared ← lift (bit_rd (sharers e) childId);
        _ ← assertS shared;
        s ← state_get childState;
        _ ← assertS (bool_decide (s = stM));
        _ ← state_put childState stE;
        mret (cycle, inducedWriteback)
      else _ ← tcc_remove c lineId childId childState; mret (cycle, inducedWriteback)
  | PUTS => _ ← tcc_remove c lineId childId childState; mret (cycle, inducedWriteback)
  | GETS =>
      if entry_isEmpty e && haveExclusive && (Z.land flags NOEXCL =? 0) then
        _ ← upd_entry c lineId (fun e => e ← add_child e childId; mret (set_num (set_excl e true) 1));
        _ ← state_put childState stE;
        mret (cycle, inducedWriteback)
      else
        shared ← lift (bit_rd (sharers e) childId);
        _ ← assertS (negb shared);
        '(respCycle, wb) ← (if entry_isExclusive e
          then sendInvalidates c lineAddr lineId INVX inducedWriteback cycle srcId
          else mret (cycle, inducedWriteback));
        e ← zoom c (tcc_get lineId);
        _ ← assertS (negb (entry_isExclusive e));
        _ ← upd_entry c lineId (fun e =>
              e ← add_child e childId; mret (set_excl (set_num e (numSharers e +32 1)) false));
        _ ← state_put childState stS;
        mret (respCycle, wb)
  | GETX =>
      _ ← assertS haveExclusive;
      shared ← lift (bit_rd (sharers e) childId);
      _ ← whenS shared (
            _ ← assertS (negb (entry_isExclusive e));
            upd_entry c lineId (fun e => e ← set_sharer e childId false; mret (set_num e (numSharers e -32 1))));
      '(respCycle, wb) ← sendInvalidates c lineAddr lineId INV inducedWriteback cycle srcId;
      _ ← upd_entry c lineId (fun e =>
            e ← add_child e childId; mret (set_excl (set_num e (numSharers e +32 1)) true));
      e ← zoom c (tcc_get lineId);
      _ ← assertS (numSharers e =? 1);
      _ ← state_put childState stM;
      mret (respCycle, wb)
  end.

Definition tcc_processInval (c : nat) (lineAddr : Z) (lineId : nat) (type : InvType) (wb : bool)
    (cycle : Z) (srcId : nat) : ST W (Z * bool) :=
  cf ← conf c;
  match type with
  | FWD => _ ← assertS (negb (nonInclusiveHack cf)); mret (cycle, wb)
  | _ => sendInvalidates c lineAddr lineId type wb cycle srcId
  end.

End TopCC.

(** ** Race check *)

(** Answers (skip the access, the possibly changed type). *)
Definition CheckForMESIRace (type : AccessType) (st initialState : MESIState) : outcome (bool * AccessType) :=
  if bool_decide (st = initialState) then mret (false, type) else
  match type with
  | PUTS | PUTX =>
      if bool_decide (st = stI) then mret (true, type)
      else _ ← check (bool_decide (st = stS)); mret (false, PUTS)
  | GETX =>
      _ ← check (bool_decide (initialState = stS));
      _ ← check (bool_decide (st = stI));
      mret (false, type)
  | GETS => Fault Panicked
  end.

Definition race_check (req : MemReq) : ST W (bool * MemReq) :=
  s ← state_get (state req);
  '(skip, t) ← lift (CheckForMESIRace (type req) s (initialState req));
  mret (skip, req_with_type req t).

(** ** The controllers *)

Section CC.
Context `{CacheArray A} `{RefreshArray A}.
Variable P : Upper.
Variable L : Lower.

(** [startSkewAccess]: only [MESICC] overrides the base class, which answers
    [true].  The type assertion lists every enumerator. *)
Definition startSkewAccess (c : nat) (req : MemReq) : ST W (bool * MemReq) :=
  cf ← conf c;
  if terminal cf then mret (true, req) else race_check req.

Definition startAccess (c : nat) (req : MemReq) : ST W (bool * MemReq) :=
  cf ← conf c;
  _ ← whenS (terminal cf) (assertS (IsGet (type req)));
  _ ← childLock_do futex_unlock (childLock req);
  _ ← whenS (negb (terminal cf)) (futex_lock (LTcc c));
  _ ← futex_lock (LBcc c);
  race_check req.

Definition endAccess (c : nat) (req : MemReq) : ST W unit :=
  cf ← conf c;
  _ ← childLock_do futex_lock (childLock req);
  _ ← futex_unlock (LBcc c);
  whenS (negb (terminal cf)) (futex_unlock (LTcc c)).

Definition shouldAllocate (c : nat) (req : MemReq) : ST W bool :=
  cf ← conf c;
  if terminal cf then mret true
  else if IsGet (type req) then mret true
  else if negb (nonInclusiveHack cf) then throw Panicked else mret false.

Definition processEviction (c : nat) (triggerReq : MemReq) (wbLineAddr : Z) (lineId : nat)
    (startCycle : Z) : ST W Z :=
  cf ← conf c;
  if terminal cf then bcc_processEviction P c wbLineAddr lineId false startCycle (srcId triggerReq)
  else
    '(evCycle, wb) ← tcc_processEviction L c wbLineAddr lineId false startCycle (srcId triggerReq);
    bcc_processEviction P c wbLineAddr lineId wb evCycle (srcId triggerReq).

(** [lineId] is [None] for -1. *)
Definition processAccess (c : nat) (req : MemReq) (lineId : option nat) (startCycle : Z) : ST W Z :=
  cf ← conf c;
  if terminal cf then
    match lineId with
    | None => throw AssertFailed
    | Some i => bcc_processAccess P c (lineAddr req) i (type req) startCycle (srcId req) (flags req)
    end
  else
    bypass ← match lineId with
      | None => mret true
      | Some i => if IsPut (type req) then v ← isValid c i; mret (negb v) else mret false
      end;
    match bypass, lineId with
    | false, Some i =>
        let isPrefetch := req_is req PREFETCH in
        _ ← assertS (negb isPrefetch || bool_decide (type req = GETS));
        let flags := Z.land (flags req) (Z.lnot PREFETCH) in
        respCycle ← bcc_processAccess P c (lineAddr req) i (type req) startCycle (srcId req) flags;
        if (isPrefetch : bool) then mret respCycle else
        excl ← isExclusive c i;
        '(respCycle, wb) ← tcc_processAccess L c (lineAddr req) i (type req) (childId req) excl (state req)
                             false respCycle (srcId req) flags;
        _ ← whenS wb (bcc_processWritebackOnAccess c i);
        mret respCycle
    | _, _ =>
        _ ← assertS (nonInclusiveHack cf);
        _ ← assertS (IsPut (type req));
        bcc_processNonInclusiveWriteback P c (lineAddr req) (type req) startCycle (state req) (srcId req) (flags req)
    end.

Definition startInv (c : nat) : ST W unit := futex_lock (LBcc c).

Definition processInv (c : nat) (req : InvReq) (lineId : nat) (startCycle : Z) (wb : bool) : ST W (Z * bool) :=
  cf ← conf c;
  '(respCycle, wb) ← (if terminal cf then mret (startCycle, wb)
    else tcc_processInval L c (i_lineAddr req) lineId (i_type req) wb startCycle (i_srcId req));
  wb ← zoom c (bcc_processInval lineId (i_type req) wb);
  _ ← futex_unlock (LBcc c);
  mret (respCycle, wb).

Definition processRefr (c : nat) (lineAddr : Z) (lineId : nat) : ST W unit :=
  cf ← conf c;
  _ ← futex_lock (LBcc c);
  _ ← whenS (negb (terminal cf)) (evictAddr L c lineAddr lineId);
  _ ← setInvalid c lineId;
  futex_unlock (LBcc c).

(** The ways of a set, moved one by one to where the target hash puts them. *)
Fixpoint refresh_ways (c set i n : nat) : ST W unit :=
  match n with
  | O => mret tt
  | S n' =>
      k ← zoom c get;
      addr ← lift (ra_getAddr (arr k) set i);
      _ ← whenS (negb (addr =? 0)) (
        repl_set ← lift (ra_getReplSet (arr k) addr);
        '(repl_addr, repl_id) ← zoom c (arr_do (fun a =>
             '(x, id, a) ← ra_getReplId a repl_set; mret ((x, id), a)));
        let lineId := Z.to_nat (u32 (Z.of_nat set * ra_getAssoc (arr k) + Z.of_nat i)) in
        whenS (negb (repl_set =? Z.of_nat set)) (
          _ ← evictAddr L c repl_addr repl_id;
          _ ← setInvalid c repl_id;
          _ ← tcc_moveAddr c repl_id lineId;
          _ ← bcc_moveAddr c repl_id lineId;
          zoom c (arr_do (fun a => a ← ra_moveAddr a repl_addr repl_id addr lineId; mret (tt, a)))));
      refresh_ways c set (S i) n'
  end.

(** [MESICC::processRefresh]; the base class's does nothing. *)
Definition cc_processRefresh (c set : nat) : ST W unit :=
  cf ← conf c;
  if terminal cf then mret tt else
  k ← zoom c get;
  sw ← lift (ra_getSwitch (arr k) set);
  _ ← assertS (sw =? 0);
  _ ← refresh_ways c set 0 (Z.to_nat (ra_getAssoc (arr k)));
  _ ← zoom c (arr_do (fun a => ra_setSwitch a set));
  mret tt.

(** [refreshLock], [refreshUnlock]; a terminal controller panics. *)
Definition refreshLock (c : nat) (f : Lock -> ST W unit) (bank : nat) : ST W unit :=
  cf ← conf c;
  if terminal cf then throw Panicked else b ← lift (start_bank bank); f (LSkew b).

(** [cc->incrementXFirstTimeMiss()]: counted by [MESICC] only. *)
Definition incrementMiss (c : nat) (x : Counter) : ST W unit :=
  cf ← conf c; whenS (negb (terminal cf)) (zoom c (prof_inc x 1)).

(** [cc->checkSameOwner]: the base class answers [true]. *)
Definition cc_checkSameOwner (c lineId srcId : nat) : ST W bool :=
  cf ← conf c; if terminal cf then mret true else checkSameOwner c lineId srcId.

End CC.

End coherence.
