(* ===== verification/Cache.v ===== *)
(** * Caches (src/src/cache.h, src/src/cache.cpp, src/src/filter_cache.h)

    The access, skewed access, invalidation and refresh paths of [Cache], the
    first-time-miss (FTM) accounting, and [FilterCache] on top.  Accesses go up
    the tree of objects, invalidations and refreshes down; [fuel] is the number
    of levels still allowed, so the height of the configured tree is enough. *)

From S2P Require Import Prelude TimingEvent MemHier MTRand ReplPolicies CacheArrays World Coherence.
Local Open Scope Z_scope.

Section cache.
Context {A M : Type} `{CacheArray A} `{RefreshArray A} `{MemCtrl M}.
Notation W := (World A M).
Variable sys : Sys.

Notation conf := (conf sys).

(** ** Invalidations and refreshes (downwards) *)

Section down.
Variable L : Lower (A := A) (M := M).

(** [Cache::finishInvalidate]. *)
Definition finishInvalidate (c : nat) (req : InvReq) (wb : bool) : ST W (Z * bool) :=
  cf ← conf c;
  o ← zoom c (arr_do (fun a => ca_lookup a (i_lineAddr req) None));
  match o with
  | None => throw AssertFailed
  | Some lineId => processInv sys L c req lineId (i_cycle req +64 invLat cf) wb
  end.

(** [FilterCache::invalidate] drops the filter entry when it holds the line. *)
Definition filter_invalidate (c : nat) (fc : FilterConf) (x : Z) : ST (CacheState A) unit :=
  k ← get;
  let idx := Z.to_nat (u32 (Z.land x (setMask fc))) in
  fe ← lift (rd (filterArray k) idx);
  whenS (Z.lor (rdAddr fe) (procMask fc) =? x)
    (put (set_filterArray k (<[idx := mkFE (max64 - 1) (max64 - 1) (availCycle fe)]> (filterArray k)))).

(** [invalidate]: [Cache]'s, or [FilterCache]'s override. *)
Definition cache_invalidate (c : nat) (req : InvReq) (wb : bool) : ST W (Z * bool) :=
  cf ← conf c;
  _ ← startInv c;
  match fconf cf with
  | None => finishInvalidate c req wb
  | Some fc =>
      _ ← futex_lock (LFilter c);
      _ ← zoom c (filter_invalidate c fc (i_lineAddr req));
      r ← finishInvalidate c req wb;
      _ ← futex_unlock (LFilter c);
      mret r
  end.

(** [Cache::finishRefresh]. *)
Definition cache_refresh (c : nat) (lineAddr : Z) : ST W unit :=
  o ← zoom c (arr_do (fun a => ca_lookup a lineAddr None));
  match o with None => throw AssertFailed | Some lineId => processRefr sys L c lineAddr lineId end.
End down.

Fixpoint invalidate (fuel : nat) (c : nat) (req : InvReq) (wb : bool) : ST W (Z * bool) :=
  match fuel with
  | O => throw OutOfFuel
  | S f => cache_invalidate (mkLower (invalidate f) (fun _ _ => throw OutOfFuel)) c req wb
  end.

Fixpoint refresh (fuel : nat) (c : nat) (lineAddr : Z) : ST W unit :=
  match fuel with
  | O => throw OutOfFuel
  | S f => cache_refresh (mkLower (fun _ _ _ => throw OutOfFuel) (refresh f)) c lineAddr
  end.

Definition lower (fuel : nat) : Lower := mkLower (invalidate fuel) (refresh fuel).

(** ** Timing records around an access *)

(** [evRec && evRec->hasRecord()], then [popRecord()]. *)
Definition pop_record (srcId : nat) : ST W (option TimingRecord) :=
  w ← get;
  o ← lift (rd (eventRecorders w) srcId);
  match o with
  | None => mret None
  | Some r =>
      if hasRecord r then
        let '(t, r') := popRecord r in
        _ ← put (set_recs w (<[srcId := Some r']> (eventRecorders w)));
        mret t
      else mret None
  end.

Definition push_record (srcId : nat) (t : TimingRecord) : ST W unit :=
  w ← get;
  o ← lift (rd (eventRecorders w) srcId);
  match o with
  | None => throw OutOfRange
  | Some r => r' ← lift (pushRecord r t); put (set_recs w (<[srcId := Some r']> (eventRecorders w)))
  end.

(** [new (evRec) DelayEvent(delay)] with its minimum start cycle set. *)
Definition new_delay (delay cycle : Z) : ST Heap nat :=
  i ← alloc (DelayEvent_new (u32 delay)); _ ← setMinStartCycle i cycle; mret i.

(** The fork of the write-back's and the access's records. *)
Definition fork_records (reqCyc : Z) (wbAcc acc : TimingRecord) : ST Heap nat :=
  startEv ← alloc (DelayEvent_new 0);
  dWbEv ← alloc (DelayEvent_new (u32 (reqCycle wbAcc - reqCyc)));
  dAccEv ← alloc (DelayEvent_new (u32 (reqCycle acc - reqCyc)));
  _ ← setMinStartCycle startEv reqCyc;
  _ ← setMinStartCycle dWbEv reqCyc;
  _ ← setMinStartCycle dAccEv reqCyc;
  h ← get;
  let link p ch := addChild (S (nextEv h)) p ch in
  x ← link startEv dWbEv; _ ← link x (startEvent wbAcc);
  x ← link startEv dAccEv; _ ← link x (startEvent acc);
  mret startEv.

(** After [processAccess]: stitch the records together when there are both. *)
Definition stitch (req : MemReq) (wbAcc : option TimingRecord) : ST W unit :=
  match wbAcc with
  | None => mret tt
  | Some wbAcc =>
      o ← pop_record (srcId req);
      match o with
      | None => push_record (srcId req)
          (mkTR (tr_addr wbAcc) (reqCycle wbAcc) (respCycle wbAcc) (tr_type wbAcc) (startEvent wbAcc) None)
      | Some acc =>
          _ ← assertS (cycle req <=? reqCycle wbAcc);
          _ ← assertS (cycle req <=? reqCycle acc);
          startEv ← zoom_heap (fork_records (cycle req) wbAcc acc);
          push_record (srcId req)
            (mkTR (tr_addr acc) (cycle req) (respCycle acc) (tr_type acc) startEv (endEvent acc))
      end
  end.

(** ** Accesses (upwards) *)

Section up.
Variable P : Upper (A := A) (M := M).
Variable L : Lower (A := A) (M := M).

(** Lookup and, when the line is not there and is to be allocated, eviction and
    insertion. Answers the line and whether it was a hit. *)
Definition find_or_fill (c : nat) (req : MemReq) (respCycle : Z) : ST W (option nat * bool) :=
  cf ← conf c;
  o ← zoom c (arr_do (fun a => ca_lookup a (lineAddr req) (if IsGet (type req) then Some req else None)));
  match o with
  | Some lineId => mret (Some lineId, true)
  | None =>
      alloc ← shouldAllocate sys c req;
      if (alloc : bool) then
        k ← zoom c get;
        '(lineId, wbLineAddr) ← zoom c (arr_do (fun a =>
            '(i, wb, a) ← ca_preinsert a (view_of (terminal cf) k) (lineAddr req) req; mret ((i, wb), a)));
        _ ← processEviction sys P L c req wbLineAddr lineId respCycle;
        _ ← zoom c (arr_do (fun a => a ← ca_postinsert a (lineAddr req) req lineId; mret (tt, a)));
        mret (Some lineId, false)
      else mret (None, true)
  end.

(** [Cache::access]. *)
Definition cache_access (c : nat) (req : MemReq) : ST W Z :=
  cf ← conf c;
  '(skipAccess, req) ← startAccess sys c req;
  respCycle ← (if (skipAccess : bool) then mret (cycle req) else
      let respCycle := cycle req +64 accLat cf in
      '(lineId, _) ← find_or_fill c req respCycle;
      wbAcc ← pop_record (srcId req);
      respCycle ← processAccess sys P L c req lineId respCycle;
      _ ← stitch req wbAcc;
      mret respCycle);
  _ ← endAccess sys c req;
  _ ← assertS (cycle req <=? respCycle);
  mret respCycle.

(** [Cache::updateFTMStats]: the counter of each request flag. *)
Definition ftm_counters : list (Z * Counter) :=
  [(9, profIcacheFirstTimeMiss); (10, profDcacheFirstTimeMiss); (8, profRXPFirstTimeMiss);
   (11, profRPFirstTimeMiss); (7, profRWPFirstTimeMiss); (12, profRWXPFirstTimeMiss);
   (13, profBinaryFirstTimeMiss); (14, profHeapFirstTimeMiss); (15, profSLFirstTimeMiss);
   (16, profMMAPFirstTimeMiss); (17, profSTACKFirstTimeMiss); (18, profVVARFirstTimeMiss);
   (19, profVDSOFirstTimeMiss); (20, profVSYSCALLFirstTimeMiss)].

Definition updateFTMStats (c : nat) (req : MemReq) : ST W unit :=
  _ ← incrementMiss sys c profFirstTimeMiss;
  for_each (fun p : Z * Counter =>
    whenS (Z.testbit (flags req) p.1) (incrementMiss sys c p.2)) ftm_counters.

(** The end of [Cache::accessSkew]: count a first-time miss, and delay it when
    the page is read-only (flag bit 11). *)
Definition ftm_tail (c : nat) (cf : CacheConf) (req : MemReq) (sameOwner : bool) (respCycle : Z) : ST W Z :=
  let miss (mask : Z) : ST W Z :=
    if negb (Z.land (ftmTypeFlag (zinfo sys)) mask =? 0) then
      if sameOwner then mret respCycle else
      _ ← updateFTMStats c req;
      mret (if Z.testbit (flags req) 11 then respCycle +64 200 else respCycle)
    else mret respCycle in
  if ftmEnable (zinfo sys) && isLLC cf then
    match type req with GETS => miss 1 | GETX => miss 2 | _ => mret respCycle end
  else mret respCycle.

(** [Cache::accessSkew]. *)
Definition cache_accessSkew (c : nat) (req : MemReq) : ST W Z :=
  cf ← conf c;
  '(skipAccess, req) ← startSkewAccess sys c req;
  '(respCycle, sameOwner) ← (if (skipAccess : bool) then mret (cycle req, true) else
      let respCycle := cycle req +64 accLat cf in
      '(lineId, hit) ← find_or_fill c req respCycle;
      sameOwner ← (match lineId with
        | Some i => if isLLC cf && hit && IsGet (type req)
                    then cc_checkSameOwner sys c i (srcId req) else mret true
        | None => mret true
        end);
      wbAcc ← pop_record (srcId req);
      respCycle ← processAccess sys P L c req lineId respCycle;
      _ ← stitch req wbAcc;
      mret (respCycle, sameOwner));
  _ ← assertS (cycle req <=? respCycle);
  ftm_tail c cf req sameOwner respCycle.

(** [Cache::checkSkew]. *)
Definition cache_checkSkew (c : nat) (req : MemReq) : ST W Z :=
  o ← zoom c (arr_do (fun a => ca_lookup a (lineAddr req) None));
  mret (match o with Some i => Z.of_nat i | None => -1 end).

End up.

(** A memory controller's access, through the request's state pointer. *)
Definition memory_access (m : nat) (req : MemReq) : ST W Z :=
  w ← get;
  k ← lift (rd (mems w) m);
  '(r, s, k) ← lift (mem_access k req);
  _ ← put (set_mems w (<[m := k]> (mems w)));
  _ ← state_put (state req) s;
  mret r.

(** [checkSkew] of a memory object is the base class's 0. *)
Definition checkSkew (o : ObjRef) (req : MemReq) : ST W Z :=
  match o with RCache c => cache_checkSkew c req | RMem _ => mret 0 end.

(** [access] and [accessSkew] of any object ([skew] selects which); the base
    class's [accessSkew], for a memory, answers 0 and does nothing. *)
Fixpoint access_any (fuel : nat) (skew : bool) (o : ObjRef) (req : MemReq) : ST W Z :=
  match fuel with
  | O => throw OutOfFuel
  | S f =>
      let P := mkUpper (access_any f false) (access_any f true) checkSkew in
      match o, skew with
      | RMem m, false => memory_access m req
      | RMem _, true => mret 0
      | RCache c, false => cache_access P (lower fuel) c req
      | RCache c, true => cache_accessSkew P (lower fuel) c req
      end
  end.

Definition access (fuel : nat) (o : ObjRef) (req : MemReq) : ST W Z := access_any fuel false o req.
Definition accessSkew (fuel : nat) (o : ObjRef) (req : MemReq) : ST W Z := access_any fuel true o req.

(** [Cache::processRefresh]: one step of the remapping of the whole array. *)
Definition processRefresh (fuel : nat) (c i : nat) : ST W unit :=
  _ ← refreshLock sys c futex_lock i;
  k ← zoom c get;
  _ ← (if ra_getNumSets (arr k) <=? cur_set k then
         zoom c (put (set_arr (set_cur_set k 0) (ra_resetSwitches (ra_switchHash (arr k)))))
       else
         _ ← cc_processRefresh sys (lower fuel) c (Z.to_nat (cur_set k));
         zoom c (modify (fun k => set_cur_set k (cur_set k +32 1))));
  refreshLock sys c futex_unlock i.

(** ** Filter caches *)

Section filter.
Variable fuel : nat.

(** The process's map: the first entry of [perProcessInfo_idx] that is [pid]; a
    zero entry before it panics. *)
Fixpoint find_process (idx : list Z) (pid : Z) (i n : nat) : outcome nat :=
  match n with
  | O => Fault AssertFailed
  | S n' =>
      cur ← rd idx i;
      if cur =? pid then mret i
      else if cur =? 0 then Fault Panicked
      else find_process idx pid (S i) n'
  end.

(** The first region holding [addr] among entries [i ..], up to the all-zero one. *)
Fixpoint find_region (m : list ProcMapInfo) (addr : Z) (i n : nat) : outcome (option ProcMapInfo) :=
  match n with
  | O => mret None
  | S n' =>
      p ← rd m i;
      if (start_range p =? 0) && (end_range p =? 0) then mret None
      else if (start_range p <=? addr) && (addr <? end_range p) then mret (Some p)
      else find_region m addr (S i) n'
  end.

Definition process_map (fc : FilterConf) : outcome (list ProcMapInfo) :=
  let z := zinfo sys in
  idx ← find_process (perProcessInfo_idx z) (f_pid fc) 0 (numCores z);
  rd (perProcessInfo_info z) idx.

(** The start of the first region of the same name. *)
Fixpoint find_baseline (m : list ProcMapInfo) (nm : Z) (i n : nat) : outcome Z :=
  match n with
  | O => mret 0
  | S n' => p ← rd m i; if pm_name p =? nm then mret (start_range p) else find_baseline m nm (S i) n'
  end.

Fixpoint find_sharedLib (idx : list Z) (nm : Z) (i n : nat) : outcome nat :=
  match n with
  | O => Fault AssertFailed
  | S n' =>
      x ← rd idx i;
      if x =? nm then mret i else if x =? max64 - 1 then Fault AssertFailed
      else find_sharedLib idx nm (S i) n'
  end.

(** The shared line of an address in a shared library; -1 when in no region. *)
Definition checkSharedLib (c : nat) (fc : FilterConf) (lineAddr : Z) : ST W Z :=
  let addr := u64 (Z.shiftl lineAddr 6) in
  m ← lift (process_map fc);
  o ← lift (find_region m addr 0 1000);
  match o with
  | None => _ ← zoom c (prof_inc unlabelledAccess 1); mret (max64 - 1)
  | Some p =>
      baseline ← lift (find_baseline m (pm_name p) 0 1000);
      let offset := addr -64 baseline in
      _ ← assertS (offset <=? 0x100000000);
      idx_1 ← lift (find_sharedLib (sharedLibInfo_idx (zinfo sys)) (pm_name p) 0 1000);
      new_baseline ← lift (rd (sharedLibInfo_libAddr (zinfo sys)) idx_1);
      mret (Z.shiftr (offset +64 new_baseline) 6)
  end.

Definition region_bits (p : ProcMapInfo) : Z :=
  let bit (b : bool) k := Z.shiftl (Z.b2z b) k in
  fold_left Z.lor [bit (pm_binary p) 0; bit (pm_heap p) 1; bit (pm_sl p) 2; bit (pm_mmap p) 3;
                   bit (pm_stack p) 4; bit (pm_vvar p) 5; bit (pm_vdso p) 6; bit (pm_vsyscall p) 7] 0.

(** Permissions of a line's page (10 when in no region) and its region type. *)
Definition protection (c : nat) (fc : FilterConf) (lineAddr : Z) : ST W (Z * Z) :=
  let addr := u64 (Z.shiftl lineAddr 6) in
  m ← lift (process_map fc);
  o ← lift (find_region m addr 0 1000);
  match o with
  | None => _ ← zoom c (prof_inc procTableMiss 1); mret (10, 0)
  | Some p => _ ← zoom c (prof_inc procTableHit 1); mret (permissions p, region_bits p)
  end.

(** The address translation at the head of [replace]: physical line, permission
    and region type. *)
Definition translate (c : nat) (fc : FilterConf) (vLineAddr : Z) : ST W (Z * Z * Z) :=
  let z := zinfo sys in
  let pLineAddr := Z.lor (procMask fc) vLineAddr in
  if firstPhase z && negb (noSharing z) then
    _ ← futex_lock LGlobal;
    '(permission, region_type, new_pLineAddr) ← (
      if scatterCache z then mret (1, 0, pLineAddr) else
      '(permission, region_type) ← protection c fc vLineAddr;
      if Z.testbit region_type 3 || (permission =? 10) then mret (permission, region_type, pLineAddr)
      else if Z.testbit region_type 2 && ((permission =? perm_rxp z) || (permission =? perm_rp z)) then
        x ← checkSharedLib c fc vLineAddr; mret (permission, region_type, x)
      else mret (permission, region_type, pLineAddr));
    _ ← futex_unlock LGlobal;
    if negb (new_pLineAddr =? 0) && negb (new_pLineAddr =? max64 - 1) then
      _ ← zoom c (prof_inc translatedAccessCount 1);
      mret (new_pLineAddr, permission, region_type)
    else mret (pLineAddr, permission, region_type)
  else mret (pLineAddr, 1, 0).

(** The request flags, with the counters they bump. *)
Definition ftm_flags (c : nat) (cf : CacheConf) (fc : FilterConf) (permission region_type : Z) : ST W Z :=
  let z := zinfo sys in
  let f0 := Z.lor (reqFlags fc) (u32 (Z.shiftl region_type 13)) in
  _ ← whenS (permission =? perm_rxp z) (zoom c (prof_inc rxpCount 1));
  let f1 := if permission =? perm_rxp z then Z.lor f0 (Z.shiftl 1 8) else f0 in
  f2 ← (if permission =? perm_rwp z then _ ← zoom c (prof_inc rwpCount 1); mret (Z.lor f1 (Z.shiftl 1 7))
        else if permission =? perm_rp z then _ ← zoom c (prof_inc rpCount 1); mret (Z.lor f1 (Z.shiftl 1 11))
        else if permission =? perm_rwxp z then _ ← zoom c (prof_inc rwxpCount 1); mret (Z.lor f1 (Z.shiftl 1 12))
        else mret f1);
  mret (if negb (scatterCache z) then
          let f3 := if String.prefix "l1i" (name cf) then Z.lor f2 (Z.shiftl 1 9) else f2 in
          if String.prefix "l1d" (name cf) then Z.lor f3 (Z.shiftl 1 10) else f3
        else f2).

(** The filter array's update after an access. *)
Definition filter_fill (vLineAddr : Z) (idx : nat) (isLoad : bool) (respCycle : Z) : ST (CacheState A) unit :=
  k ← get;
  fe ← lift (rd (filterArray k) idx);
  let avail := if negb (rdAddr fe =? vLineAddr) then respCycle else availCycle fe in
  put (set_filterArray k (<[idx := mkFE vLineAddr (if isLoad then max64 - 1 else vLineAddr) avail]> (filterArray k))).

(** [FilterCache::replace]. *)
Definition replace (c : nat) (vLineAddr : Z) (idx : nat) (isLoad : bool) (curCycle : Z) : ST W Z :=
  cf ← conf c;
  match fconf cf with
  | None => throw OutOfRange
  | Some fc =>
      '(pLineAddr, permission, region_type) ← translate c fc vLineAddr;
      _ ← state_put DummyState stI;
      _ ← futex_lock (LFilter c);
      fl ← ftm_flags c cf fc permission region_type;
      respCycle ← access fuel (RCache c)
        (mkReq pLineAddr (if isLoad then GETS else GETX) 0 DummyState curCycle (FilterLock c) stI (f_srcId fc) fl);
      _ ← zoom c (filter_fill vLineAddr idx isLoad respCycle);
      _ ← futex_unlock (LFilter c);
      mret respCycle
  end.

(** [load] and [store]: the filter array's fast path is commented out in the
    source, every access goes through [replace]. *)
Definition load_store (c : nat) (isLoad : bool) (vAddr curCycle : Z) : ST W Z :=
  cf ← conf c;
  match fconf cf with
  | None => throw OutOfRange
  | Some fc =>
      let vLineAddr := Z.shiftr vAddr (lineBits fc) in
      replace c vLineAddr (Z.to_nat (u32 (Z.land vLineAddr (setMask fc)))) isLoad curCycle
  end.

Definition load (c : nat) (vAddr curCycle : Z) : ST W Z := load_store c true vAddr curCycle.
Definition store (c : nat) (vAddr curCycle : Z) : ST W Z := load_store c false vAddr curCycle.

Definition contextSwitch (c : nat) : ST W unit :=
  _ ← futex_lock (LFilter c);
  _ ← zoom c (modify (fun k => set_filterArray k (map (fun _ => filter_clear) (filterArray k))));
  futex_unlock (LFilter c).

End filter.
End cache.
