(* ===== verification/Translation.v ===== *)
(** * FTM address translation (src/src/filter_cache.h: replace, checkSharedLib)

    What the translation at the head of [FilterCache::replace] computes when the
    tables of the process are well formed: read-only pages of shared libraries
    go to the library's common address, every other page to the line tagged with
    the process's mask.  [Cache.translate] is the code; here is its
    specification over the tables, and the proof that the code meets it. *)

From S2P Require Import Prelude TimingEvent MemHier MTRand ReplPolicies CacheArrays World Coherence Cache.
Local Open Scope Z_scope.

(** ** The tables, read declaratively *)

Section tables.
Variable z : ZInfo.

Definition region_end (p : ProcMapInfo) : bool := (start_range p =? 0) && (end_range p =? 0).
Definition in_region (a : Z) (p : ProcMapInfo) : bool := (start_range p <=? a) && (a <? end_range p).

(** The first region holding the address, in the part of the table in use. *)
Fixpoint region_of (m : list ProcMapInfo) (a : Z) : option ProcMapInfo :=
  match m with
  | [] => None
  | p :: m' => if region_end p then None else if in_region a p then Some p else region_of m' a
  end.

(** Where the first region named [nm] starts. *)
Fixpoint base_of (m : list ProcMapInfo) (nm : Z) : Z :=
  match m with
  | [] => 0
  | p :: m' => if pm_name p =? nm then start_range p else base_of m' nm
  end.

(** The common address of the library named [nm], in the part of the table in use. *)
Fixpoint lib_base (idx addrs : list Z) (nm : Z) : option Z :=
  match idx, addrs with
  | x :: idx', b :: addrs' =>
      if x =? nm then Some b else if x =? max64 - 1 then None else lib_base idx' addrs' nm
  | _, _ => None
  end.

(** A page that is shared between processes: of a library, not a mapped file,
    and not writable. *)
Definition sharable (p : ProcMapInfo) : bool :=
  pm_sl p && negb (pm_mmap p) && negb (permissions p =? 10) &&
  ((permissions p =? perm_rxp z) || (permissions p =? perm_rp z)).

(** The tables of a process are well formed: full arrays, every sharable region
    has a common address, and lies within 4 GB above the first region of its name. *)
Record tables_ok (m : list ProcMapInfo) : Prop := {
  tab_len : length m = 1000%nat;
  tab_idx : length (sharedLibInfo_idx z) = 1000%nat;
  tab_addr : length (sharedLibInfo_libAddr z) = 1000%nat;
  tab_lib p : p ∈ m -> sharable p = true ->
    is_Some (lib_base (sharedLibInfo_idx z) (sharedLibInfo_libAddr z) (pm_name p));
  tab_span p : p ∈ m -> sharable p = true ->
    0 <= base_of m (pm_name p) <= start_range p /\ end_range p <= base_of m (pm_name p) + 2 ^ 32 /\ end_range p <= max64
}.

(** The line of a sharable page: its offset in the library from the common address. *)
Definition shared_line (m : list ProcMapInfo) (p : ProcMapInfo) (b a : Z) : Z :=
  Z.shiftr (u64 (a - base_of m (pm_name p) + b)) 6.

Definition private_line (fc : FilterConf) (v : Z) : Z := Z.lor (procMask fc) v.

(** The accesses read the tables. *)
Definition reads_tables : bool := firstPhase z && negb (noSharing z) && negb (scatterCache z).

(** The line an access to virtual line [v] goes to. *)
Definition line_of (fc : FilterConf) (m : list ProcMapInfo) (v : Z) : Z :=
  let a := u64 (Z.shiftl v 6) in
  if reads_tables then
    match region_of m a with
    | Some p =>
        if sharable p then
          match lib_base (sharedLibInfo_idx z) (sharedLibInfo_libAddr z) (pm_name p) with
          | Some b => if shared_line m p b a =? 0 then private_line fc v else shared_line m p b a
          | None => private_line fc v
          end
        else private_line fc v
    | None => private_line fc v
    end
  else private_line fc v.

Lemma private_line_word fc v : word 64 (procMask fc) -> word 64 v -> word 64 (private_line fc v).
Proof. by apply word_lor. Qed.

Lemma shared_line_word m p b a : word 58 (shared_line m p b a).
Proof.
  unfold shared_line. pose proof (u64_bound (a - base_of m (pm_name p) + b)) as H. rewrite max64_eq in H.
  rewrite Z.shiftr_div_pow2 by lia. split; [apply Z.div_pos; lia|apply Z.div_lt_upper_bound; lia].
Qed.

Lemma line_of_cases fc m v : line_of fc m v = private_line fc v \/ line_of fc m v <> 0 /\ word 58 (line_of fc m v).
Proof.
  unfold line_of. destruct reads_tables; [|by left]. destruct (region_of _ _) as [p|]; [|by left].
  destruct (sharable p); [|by left]. destruct (lib_base _ _ _) as [b|]; [|by left].
  case_match eqn:E; [by left|right]. split; [lia|apply shared_line_word].
Qed.

(** ** The code's loops compute them *)

Lemma find_region_spec m a i n :
  (i + n = length m)%nat -> find_region m a i n = Ok (region_of (drop i m) a).
Proof.
  revert i. induction n as [|n IH]; intros i Hn; cbn [find_region].
  { by rewrite drop_ge by lia. }
  destruct (lookup_lt_is_Some_2 m i) as [p Hp]; [lia|]. rewrite (rd_some _ _ _ Hp). cbn [mbind outcome_bind].
  rewrite (drop_S m p i Hp). cbn [region_of]. unfold region_end, in_region. case_match; [done|]. case_match; [done|].
  apply IH. lia.
Qed.

Lemma find_baseline_spec m nm i n :
  (i + n = length m)%nat -> find_baseline m nm i n = Ok (base_of (drop i m) nm).
Proof.
  revert i. induction n as [|n IH]; intros i Hn; cbn [find_baseline].
  { by rewrite drop_ge by lia. }
  destruct (lookup_lt_is_Some_2 m i) as [p Hp]; [lia|]. rewrite (rd_some _ _ _ Hp). cbn [mbind outcome_bind].
  rewrite (drop_S m p i Hp). cbn [base_of]. case_match; [done|]. apply IH. lia.
Qed.

Lemma find_sharedLib_spec idx addrs nm b i n :
  (i + n = length idx)%nat -> length addrs = length idx -> lib_base (drop i idx) (drop i addrs) nm = Some b ->
  exists j, find_sharedLib idx nm i n = Ok j /\ rd addrs j = Ok b.
Proof.
  revert i. induction n as [|n IH]; intros i Hn Hl Hb.
  { rewrite drop_ge in Hb by lia. done. }
  destruct (lookup_lt_is_Some_2 idx i) as [x Hx]; [lia|]. destruct (lookup_lt_is_Some_2 addrs i) as [y Hy]; [lia|].
  rewrite (drop_S idx x i Hx), (drop_S addrs y i Hy) in Hb. cbn [lib_base] in Hb.
  cbn [find_sharedLib]. rewrite (rd_some _ _ _ Hx). cbn [mbind outcome_bind].
  destruct (x =? nm); [simplify_eq; exists i; split; [done|by apply rd_some]|].
  destruct (x =? max64 - 1); [done|]. apply IH; [lia|done|done].
Qed.

Lemma region_of_in m a p : region_of m a = Some p -> p ∈ m /\ start_range p <= a < end_range p.
Proof.
  induction m as [|q m IH]; [done|]. cbn [region_of]. case_match; [done|]. case_match eqn:E.
  - intros [= <-]. apply andb_true_iff in E as [E1 E2]. split; [by left|lia].
  - intros Hp. destruct (IH Hp). split; [by right|done].
Qed.

Lemma region_bits_spec p :
  Z.testbit (region_bits p) 2 = pm_sl p /\ Z.testbit (region_bits p) 3 = pm_mmap p.
Proof.
  unfold region_bits. destruct (pm_binary p), (pm_heap p), (pm_sl p), (pm_mmap p), (pm_stack p), (pm_vvar p),
    (pm_vdso p), (pm_vsyscall p); done.
Qed.

End tables.

(** ** The code meets the specification *)

Section translate.
Context {A M : Type}.
Notation W := (World A M).
Variables (sys : Sys) (c : nat) (fc : FilterConf) (m : list ProcMapInfo).
Notation z := (zinfo sys).
Hypothesis map_found : reads_tables z = true -> process_map sys fc = Ok m.
Hypothesis tabs : reads_tables z = true -> tables_ok z m.

(** A counter of cache [c] moved, nothing else. *)
Definition counters (w w' : W) : Prop :=
  exists k pf, caches w !! c = Some k /\ w' = set_caches w (<[c := set_prof k pf]> (caches w)).

Lemma counters_refl w : (c < length (caches w))%nat -> counters w w.
Proof.
  intros Hc. destruct (lookup_lt_is_Some_2 _ _ Hc) as [k Hk]. exists k, (prof k). split; [done|].
  destruct w as [cs ms ls d rs h], k. unfold set_caches, set_prof. cbn in *. by rewrite list_insert_id.
Qed.

Lemma counters_lt w w' : counters w w' -> (c < length (caches w'))%nat.
Proof.
  intros (k & pf & Hk & ->). cbn [caches set_caches]. rewrite length_insert. by eapply lookup_lt_Some.
Qed.

Lemma counters_trans w1 w2 w3 : counters w1 w2 -> counters w2 w3 -> counters w1 w3.
Proof.
  intros (k1 & p1 & H1 & ->) (k2 & p2 & H2 & ->). exists k1, p2. split; [done|].
  cbn [caches set_caches] in *. rewrite list_lookup_insert_eq in H2 by by eapply lookup_lt_Some.
  injection H2 as <-. by rewrite list_insert_insert_eq.
Qed.

Lemma wp_counter x n (w : W) : (c < length (caches w))%nat ->
  wp (zoom c (prof_inc x n)) w (fun _ w' => counters w w').
Proof.
  intros Hc. destruct (lookup_lt_is_Some_2 _ _ Hc) as [k Hk]. eapply wp_zoom; [done|]. apply wp_prof.
  exists k. by eexists.
Qed.

Lemma wp_protection v (w : W) : reads_tables z = true -> (c < length (caches w))%nat ->
  wp (protection sys c fc v) w (fun r w' => counters w w' /\
    r = match region_of m (u64 (Z.shiftl v 6)) with None => (10, 0) | Some p => (permissions p, region_bits p) end).
Proof using map_found tabs.
  intros Hr Hc. pose proof (map_found Hr) as Hmap. pose proof (tabs Hr) as T.
  unfold protection. apply wp_bind. eapply wp_lift; [exact Hmap|]. cbv beta.
  apply wp_bind. eapply wp_lift; [apply find_region_spec; by rewrite (tab_len _ _ T)|]. cbv beta.
  change (drop 0 m) with m. destruct (region_of m _); apply wp_bind; eapply wp_mono; try (by apply wp_counter);
    intros ? ? ?; by apply wp_ret.
Qed.

Lemma wp_checkSharedLib v p b (w : W) : reads_tables z = true -> (c < length (caches w))%nat ->
  region_of m (u64 (Z.shiftl v 6)) = Some p -> sharable z p = true ->
  lib_base (sharedLibInfo_idx z) (sharedLibInfo_libAddr z) (pm_name p) = Some b ->
  wp (checkSharedLib sys c fc v) w (fun r w' => w' = w /\ r = shared_line m p b (u64 (Z.shiftl v 6))).
Proof using map_found tabs.
  intros Hr Hc Hp Hs Hb. pose proof (map_found Hr) as Hmap. pose proof (tabs Hr) as T. set (a := u64 (Z.shiftl v 6)) in *. destruct (region_of_in m a p Hp) as [Hin Ha].
  destruct (tab_span _ _ T p Hin Hs) as (B1 & B2 & B3).
  unfold checkSharedLib. apply wp_bind. eapply wp_lift; [exact Hmap|]. cbv beta.
  apply wp_bind. fold a. eapply wp_lift; [apply find_region_spec; by rewrite (tab_len _ _ T)|]. cbv beta.
  change (drop 0 m) with m. rewrite Hp. apply wp_bind.
  eapply wp_lift; [apply find_baseline_spec; by rewrite (tab_len _ _ T)|]. cbv beta zeta. change (drop 0 m) with m.
  apply wp_bind, wp_assert. { rewrite u64_small by lia. lia. }
  destruct (find_sharedLib_spec (sharedLibInfo_idx z) (sharedLibInfo_libAddr z) (pm_name p) b 0 1000) as (j & Hj & Hj2).
  { by rewrite (tab_idx _ _ T). } { by rewrite (tab_idx _ _ T), (tab_addr _ _ T). } { done. }
  apply wp_bind. eapply wp_lift; [exact Hj|]. cbv beta. apply wp_bind. eapply wp_lift; [exact Hj2|]. cbv beta.
  apply wp_ret. split; [done|]. unfold shared_line. f_equal. rewrite (u64_small (a - _)) by lia. done.
Qed.

Lemma shared_line_small p b a : shared_line m p b a <> max64 - 1.
Proof.
  pose proof (shared_line_word m p b a) as [_ H]. rewrite max64_eq. lia.
Qed.

Lemma sharable_spec p :
  sharable z p = negb (Z.testbit (region_bits p) 3 || (permissions p =? 10)) &&
    (Z.testbit (region_bits p) 2 && ((permissions p =? perm_rxp z) || (permissions p =? perm_rp z))).
Proof.
  destruct (region_bits_spec p) as [-> ->]. unfold sharable.
  by destruct (pm_sl p), (pm_mmap p), (permissions p =? 10), (permissions p =? perm_rxp z), (permissions p =? perm_rp z).
Qed.

Lemma wp_translate v (w : W) : (c < length (caches w))%nat -> LGlobal ∉ locks w ->
  wp (translate sys c fc v) w (fun r w' => counters w w' /\ r.1.1 = line_of z fc m v).
Proof using map_found tabs.
  intros Hc Hl. pose proof wp_protection as Hprot. pose proof wp_checkSharedLib as Hshared. unfold translate, line_of, reads_tables in *. fold (private_line fc v). set (a := u64 (Z.shiftl v 6)).
  destruct (firstPhase z && negb (noSharing z)) eqn:Hon; cbn [andb];
    [|apply wp_ret; split; [by apply counters_refl|done]].
  apply wp_bind, wp_lock; [done|]. set (w1 := set_locks w _). apply wp_bind.
  eapply (wp_mono _ _ (fun r w' => counters w1 w' /\ (r.2 = private_line fc v \/ r.2 <> max64 - 1) /\
    (if r.2 =? 0 then private_line fc v else r.2) =
      (if negb (scatterCache z) then match region_of m a with
        | Some p => if sharable z p then
            match lib_base (sharedLibInfo_idx z) (sharedLibInfo_libAddr z) (pm_name p) with
            | Some b => if shared_line m p b a =? 0 then private_line fc v else shared_line m p b a
            | None => private_line fc v
            end else private_line fc v
        | None => private_line fc v end else private_line fc v))).
  - assert (forall r : Z * Z * Z, r.2 = private_line fc v ->
      (if r.2 =? 0 then private_line fc v else r.2) = private_line fc v) as Hself.
    { intros r ->. case_match eqn:E; [|done]. done. }
    destruct (scatterCache z) eqn:Hsc; cbn [negb].
    { apply wp_ret. split; [by apply counters_refl|]. split; [by left|by apply Hself]. }
    assert (true && negb false = true) as Hr by done.
    apply wp_bind. eapply wp_mono; [by apply (Hprot v w1)|]. fold a. pose proof (tabs Hr) as T. intros [perm region] w2 [C2 E].
    destruct (region_of m a) as [p|] eqn:Hp.
    2:{ injection E as -> ->. apply wp_ret. split; [done|]. split; [by left|by apply Hself]. }
    injection E as -> ->. pose proof (sharable_spec p) as Hsp.
    destruct (Z.testbit (region_bits p) 3 || (permissions p =? 10)); cbn [negb andb] in Hsp.
    { rewrite Hsp. apply wp_ret. split; [done|]. split; [by left|by apply Hself]. }
    rewrite <- Hsp. destruct (sharable z p) eqn:Hs.
    2:{ apply wp_ret. split; [done|]. split; [by left|by apply Hself]. }
    destruct (region_of_in m a p Hp) as [Hin _]. destruct (tab_lib _ _ T p Hin Hs) as [b Hb]. rewrite Hb.
    apply wp_bind. eapply wp_mono; [apply (Hshared v p b w2); [done|by eapply counters_lt|done..]|].
    intros x w3 [-> ->]. apply wp_ret. split; [done|]. split; [right; apply shared_line_small|done].
  - intros [[perm region] x] w2 (C2 & Hx & E). cbn [snd] in *. apply wp_bind, wp_unlock.
    assert (counters w (set_locks w2 (locks w2 ∖ {[LGlobal]}))) as C3.
    { destruct C2 as (k & pf & Hk & ->). exists k, pf. split; [done|].
      unfold set_locks, set_caches, w1. cbn [caches set_locks set_caches mems locks dummy eventRecorders heap]. f_equal. set_solver. }
    destruct (x =? 0) eqn:E0; cbn [negb andb].
    { apply wp_ret. split; [done|]. cbn [fst]. by rewrite <- E. }
    destruct (x =? max64 - 1) eqn:E1; cbn [negb].
    { apply wp_ret. split; [done|]. cbn [fst]. apply Z.eqb_eq in E1. rewrite <- E. by destruct Hx. }
    apply wp_bind. eapply wp_mono; [apply wp_counter; by eapply counters_lt|]. intros ? w4 C4.
    apply wp_ret. split; [by eapply counters_trans|]. cbn [fst]. by rewrite <- E.
Qed.

End translate.
