(* ===== verification/ProcMaps.v ===== *)
(** * The FTM process tables (src/src/zsim.cpp, lines 434 to 684)

    At the end of a phase, the memory maps of the simulated processes are read
    from /proc/<pid>/maps: [populateProcessMap] records the regions of a process,
    [addSharedLib] gives every mapped file a common 4 GB address range.  [replace]
    (Cache, Translation) reads these tables.

    The content of the files is the parameter [maps_file]: the lines of a
    process's file, [None] when it cannot be opened. *)

From S2P Require Import Prelude TimingEvent MemHier MTRand ReplPolicies CacheArrays World Coherence Cache Translation.
From Stdlib Require Import Ascii.
Local Open Scope Z_scope.

(** ** [create_ul]: up to four characters of a name *)

Definition nul : ascii := Ascii.zero.

(** A [char], sign-extended to 64 bits. *)
Definition char_val (c : ascii) : Z :=
  let n := Z.of_N (N_of_ascii c) in if n <? 128 then n else n + (max64 - 256).

(** The body of the [do] loop at the suffix [s]; [n] more rounds are allowed.
    The condition reads the character after the one just used: past the
    terminator when the string is empty. *)
Fixpoint create_ul_from (n : nat) (key : Z) (s : string) : outcome Z :=
  match s with
  | EmptyString => Fault OutOfRange
  | String c s' =>
      let key := u64 (Z.shiftl (Z.lor key (char_val c)) 8) in
      match s', n with
      | String c' _, S n' => if ascii_dec c' nul then mret key else create_ul_from n' key s'
      | _, _ => mret key
      end
  end.

Definition create_ul (s : string) : outcome Z := create_ul_from 3 0 s.

(** ** Reading a line: [std::istringstream] and [std::string] *)

Definition isspace (c : ascii) : bool :=
  let n := N_of_ascii c in ((n =? 32) || ((9 <=? n) && (n <=? 13)))%N.

Record stream := mkStream { buf : string; eof : bool; failed : bool }.
Definition open_stream (s : string) : stream := mkStream s false false.

Fixpoint skip_space (s : string) : string :=
  match s with String c s' => if isspace c then skip_space s' else s | EmptyString => s end.

(** The characters before the first space, and the rest. *)
Fixpoint token (s : string) : string * string :=
  match s with
  | EmptyString => (EmptyString, EmptyString)
  | String c s' => if isspace c then (EmptyString, s) else let '(t, r) := token s' in (String c t, r)
  end.

(** [iss >> str]: when the stream is exhausted [str] keeps its value. *)
Definition extract (st : stream) (str : string) : string * stream :=
  if eof st || failed st then (str, mkStream (buf st) (eof st) true) else
  match skip_space (buf st) with
  | EmptyString => (str, mkStream EmptyString true true)
  | s => let '(t, r) := token s in (t, mkStream r (String.eqb r EmptyString) false)
  end.

(** [while (!iss.eof()) iss >> name]; each round consumes a character or ends the stream. *)
Fixpoint last_token (fuel : nat) (st : stream) (name : string) : outcome string :=
  if eof st then mret name else
  match fuel with
  | O => Fault OutOfFuel
  | S f => let '(name, st) := extract st name in last_token f st name
  end.

Definition hex_digit (c : ascii) : option Z :=
  let n := Z.of_N (N_of_ascii c) in
  if (48 <=? n) && (n <=? 57) then Some (n - 48)
  else if (97 <=? n) && (n <=? 102) then Some (n - 87)
  else if (65 <=? n) && (n <=? 70) then Some (n - 55) else None.

(** The value of the longest prefix of hexadecimal digits. *)
Fixpoint hex_digits (acc : Z) (s : string) : Z :=
  match s with
  | EmptyString => acc
  | String c s' => match hex_digit c with Some d => hex_digits (16 * acc + d) s' | None => acc end
  end.

(** [iss >> std::hex >> x], [x] a 64-bit unsigned: a sign and a 0x are accepted,
    too large a number gives the largest, no digits 0. *)
Definition read_hex (s : string) : Z :=
  let s := skip_space s in
  let '(neg, s) := match s with
    | String "-" s' => (true, s') | String "+" s' => (false, s') | _ => (false, s) end in
  let s := match s with String "0" (String "x" s') | String "0" (String "X" s') => s' | _ => s end in
  let v := hex_digits 0 s in
  if max64 <=? v then max64 - 1 else if (neg : bool) then u64 (- v) else v.

(** [s.find(c)], [s.substr(0, n)] and [s.erase(0, n)]. *)
Fixpoint find_char (c : ascii) (s : string) : option nat :=
  match s with
  | EmptyString => None
  | String c' s' => if ascii_dec c c' then Some 0%nat else option_map S (find_char c s')
  end.
Fixpoint substr0 (n : nat) (s : string) : string :=
  match n, s with S n', String c s' => String c (substr0 n' s') | _, _ => EmptyString end.
Fixpoint erase0 (n : nat) (s : string) : string :=
  match n, s with S n', String _ s' => erase0 n' s' | _, _ => s end.

(** The two numbers of an address range; without a dash both are the whole. *)
Definition read_range (s1 : string) : Z * Z :=
  match find_char "-" s1 with
  | Some p => (read_hex (substr0 p s1), read_hex (erase0 (p + 1) s1))
  | None => (read_hex s1, read_hex s1)
  end.

(** Drop everything up to the last slash; whether there was one.  The loop is
    left with [pos] at [npos] in every case. *)
Fixpoint strip_path (fuel : nat) (name : string) (flag : bool) : outcome (string * bool) :=
  match name with
  | EmptyString => mret (name, flag)
  | _ =>
      match find_char "/" name with
      | None => mret (name, flag)
      | Some pos =>
          match fuel with
          | O => Fault OutOfFuel
          | S f => strip_path f (erase0 (pos + 1) name) true
          end
      end
  end.

(** The fields of a line: range, permissions, name without directories, and
    whether there were any. *)
Definition parse_line (line : string) : outcome (Z * Z * string * string * bool) :=
  let '(s1, st) := extract (open_stream line) EmptyString in
  let '(s2, st) := extract st EmptyString in
  let '(start_range, end_range) := read_range s1 in
  name ← last_token (S (String.length line)) st EmptyString;
  '(name, flag) ← strip_path (S (String.length name)) name false;
  mret (start_range, end_range, s2, name, flag).

(** ** Tables *)

(** The FTM fields of [GlobSimInfo]; of [sLibInfo] only [libAddr] is ever set. *)
Record Tables := mkTables {
  proc_list : list Z;
  pp_idx : list Z; pp_info : list (list ProcMapInfo);
  sl_idx : list Z; sl_addr : list Z;
  sharedLibAddress : Z; sharedLibEndAddress : Z
}.

Definition set_libs (t : Tables) (idx addr : list Z) (a : Z) : Tables :=
  mkTables (proc_list t) (pp_idx t) (pp_info t) idx addr a (sharedLibEndAddress t).
Definition set_procs (t : Tables) (idx : list Z) (info : list (list ProcMapInfo)) : Tables :=
  mkTables (proc_list t) idx info (sl_idx t) (sl_addr t) (sharedLibAddress t) (sharedLibEndAddress t).

Definition no_region : ProcMapInfo := mkPM 0 0 0 0 false false false false false false false false 0.

(** As initialised by init.cpp. *)
Definition tables_init (numCores : nat) : Tables :=
  mkTables (replicate numCores 0) (replicate numCores 0) (replicate numCores (replicate 1000 no_region))
    (replicate 1000 0) (replicate 1000 0) 0x10000000 0x10000000000.

(** The permission codes, as set by zsim.cpp's main. *)
Definition perm_codes : outcome (Z * Z * Z * Z) :=
  rxp ← create_ul "r-xp"; rwp ← create_ul "rw-p"; rwxp ← create_ul "rwxp"; rp ← create_ul "r--p";
  mret (rxp, rwp, rwxp, rp).

Section files.
Variable maps_file : Z -> option (list string).
Variable numCores : nat.

(** The first of the 1000 slots holding [nm], or the first free one (and true). *)
Fixpoint lib_slot (idx : list Z) (nm : Z) (i n : nat) : outcome (nat * bool) :=
  match n with
  | O => Fault AssertFailed
  | S n' =>
      x ← rd idx i;
      if x =? nm then mret (i, false) else if x =? 0 then mret (i, true) else lib_slot idx nm (S i) n'
  end.

(** The registration of the name of one line. *)
Definition add_lib (name_ul : Z) (t : Tables) : outcome Tables :=
  '(i, newFlag) ← lib_slot (sl_idx t) name_ul 0 1000;
  t ← (if (newFlag : bool) then
         idx ← wr (sl_idx t) i name_ul;
         addr ← wr (sl_addr t) i (sharedLibAddress t);
         mret (set_libs t idx addr (sharedLibAddress t +64 0x100000000))
       else mret t);
  _ ← check (sharedLibAddress t <? sharedLibEndAddress t);
  mret t.

Definition add_line (line : string) (t : Tables) : outcome Tables :=
  '(_, _, _, name, flag) ← parse_line line;
  if flag && (1 <? Z.of_nat (String.length name)) then name_ul ← create_ul name; add_lib name_ul t
  else mret t.

Fixpoint add_lines (lines : list string) (t : Tables) : outcome Tables :=
  match lines with [] => mret t | l :: ls => t ← add_line l t; add_lines ls t end.

(** The loop over the processes [i], [i+1], ..., up to the first free entry. *)
Fixpoint addSharedLib_from (i n : nat) (t : Tables) : outcome Tables :=
  match n with
  | O => mret t
  | S n' =>
      pid_2 ← rd (pp_idx t) i;
      if pid_2 =? 0 then mret t else
      match maps_file pid_2 with
      | None => Fault Panicked
      | Some lines => t ← add_lines lines t; addSharedLib_from (S i) n' t
      end
  end.

Definition addSharedLib (t : Tables) : outcome Tables := addSharedLib_from 0 numCores t.

(** The region a line describes. *)
Definition region_of_line (line : string) : outcome ProcMapInfo :=
  '(start_range, end_range, s2, name, _) ← parse_line line;
  permissions ← create_ul s2;
  name_ul ← create_ul name;
  let named s := String.eqb name s in
  let region heap sl mmap stack vvar vdso vsyscall result :=
    mkPM start_range end_range name_ul permissions false heap sl mmap stack vvar vdso vsyscall result in
  mret (if named "[stack]"%string then region false false false true false false false 16
        else if named "[heap]"%string then region true false false false false false false 2
        else if named "[vdso]"%string then region false false false false false true false 64
        else if named "[vvar]"%string then region false false false false true false false 32
        else if named "[vsyscall]"%string then region false false false false false false true 128
        else if named "0"%string then region false false true false false false false 8
        else region false true false false false false false 4).

(** Fill the entries [ii], [ii+1], ... *)
Fixpoint fill_map (lines : list string) (ii : nat) (m : list ProcMapInfo) : outcome (list ProcMapInfo) :=
  match lines with
  | [] => mret m
  | l :: ls =>
      p ← region_of_line l;
      m ← wr m ii p;
      _ ← check (Z.of_nat (S ii) <? 1000);
      fill_map ls (S ii) m
  end.

(** The process's slot, claiming the first free one. *)
Fixpoint claim_slot (idx : list Z) (pid : Z) (i n : nat) : outcome (nat * list Z) :=
  match n with
  | O => Fault AssertFailed
  | S n' =>
      cur ← rd idx i;
      if cur =? pid then mret (i, idx)
      else if cur =? 0 then idx ← wr idx i pid; mret (i, idx)
      else claim_slot idx pid (S i) n'
  end.

Definition populateProcessMap (pid_1 : Z) (t : Tables) : outcome Tables :=
  '(i, idx) ← claim_slot (pp_idx t) pid_1 0 numCores;
  old ← rd (pp_info t) i;
  let cleared := replicate 1000 no_region ++ drop 1000 old in
  match maps_file pid_1 with
  | None => Fault Panicked
  | Some lines =>
      m ← fill_map lines 0 cleared;
      info ← wr (pp_info t) i m;
      mret (set_procs t idx info)
  end.

Fixpoint populate_from (i n : nat) (t : Tables) : outcome Tables :=
  match n with
  | O => mret t
  | S n' =>
      pid_1 ← rd (proc_list t) i;
      t ← (if negb (pid_1 =? 0) then populateProcessMap pid_1 t else mret t);
      populate_from (S i) n' t
  end.

Definition populateProcessMaps (t : Tables) : outcome Tables := populate_from 0 numCores t.

(** What [EndOfPhaseActions] does to the tables when the maps changed. *)
Definition remap (t : Tables) : outcome Tables := t ← populateProcessMaps t; addSharedLib t.

End files.

(** ** Registration of a process (zsim.cpp, main)

    Under the global lock: the pid is added to [proc_list], the process gets the
    next partition number. *)

Definition in_list (l : list Z) (pid : Z) (n : nat) : bool := existsb (fun x => x =? pid) (take n l).

Fixpoint add_proc (l : list Z) (pid : Z) (i n : nat) : outcome (list Z) :=
  match n with
  | O => mret l
  | S n' => x ← rd l i; if x =? 0 then wr l i pid else add_proc l pid (S i) n'
  end.

(** New [proc_list], the process's partition, new [partition_count]. *)
Definition register_proc (numCores : nat) (pid : Z) (l : list Z) (partition_count : Z) : outcome (list Z * Z * Z) :=
  if in_list l pid numCores then Fault Panicked else
  l ← add_proc l pid 0 numCores;
  _ ← check (partition_count + 1 <=? Z.of_nat numCores);
  mret (l, partition_count, partition_count + 1).

(** ** Names and their codes *)

(** Printable text: no NUL, no character with the top bit set. *)
Definition plain_char (c : ascii) : Prop := (0 < Z.of_N (N_of_ascii c) < 128)%Z.
Definition plain (s : string) : Prop := s <> EmptyString /\ Forall plain_char (String.list_ascii_of_string s).

Definition first4 (s : string) : list ascii := take 4 (String.list_ascii_of_string s).

(** The code of a list of characters: each is added, then the whole shifted a byte. *)
Definition code (l : list ascii) (k : Z) : Z := fold_left (fun k c => (k + char_val c) * 256) l k.

Lemma char_val_plain c : plain_char c -> 0 < char_val c < 128.
Proof. unfold plain_char, char_val. intros H. rewrite (proj2 (Z.ltb_lt _ _)) by lia. lia. Qed.

(** A code of characters below a byte, on top of a multiple of 256. *)
Lemma lor_byte k c : 0 <= c < 256 -> k mod 256 = 0 -> Z.lor k c = k + c.
Proof.
  intros Hc Hk. assert (Z.land k c = 0) as H0.
  { apply Z.bits_inj'. intros i Hi. rewrite Z.land_spec, Z.bits_0. destruct (Z_lt_le_dec i 8).
    - rewrite <- (Z.mod_pow2_bits_low k 8 i) by lia. change (2 ^ 8) with 256. by rewrite Hk, Z.bits_0.
    - rewrite <- (Z.mod_small c (2 ^ 8)) by (change (2 ^ 8) with 256; lia).
      rewrite (Z.mod_pow2_bits_high c) by lia. apply andb_false_r. }
  by rewrite <- Z.lxor_lor, Z.add_nocarry_lxor.
Qed.

Lemma create_ul_from_code n : forall s k, (n < 4)%nat -> 0 <= k < 2 ^ (32 - 8 * Z.of_nat n) -> k mod 256 = 0 -> plain s ->
  create_ul_from n k s = Ok (code (take (S n) (String.list_ascii_of_string s)) k).
Proof.
  induction n as [|n IH]; intros s k Hn Hk Hk0 [Hne Hs]; (destruct s as [|c s]; [done|]);
    cbn [String.list_ascii_of_string] in Hs; apply Forall_cons in Hs as [Hc Hs];
    pose proof (char_val_plain c Hc) as Hv;
    cbn [String.list_ascii_of_string take create_ul_from code fold_left];
    rewrite lor_byte, Z.shiftl_mul_pow2 by lia; change (2 ^ 8) with 256.
  - rewrite u64_small by (rewrite max64_eq; change (32 - 8 * Z.of_nat 0) with 32 in Hk; lia). by destruct s.
  - assert (2 ^ (32 - 8 * Z.of_nat n) = 256 * 2 ^ (32 - 8 * Z.of_nat (S n))) as E.
    { change 256 with (2 ^ 8). rewrite <- Z.pow_add_r by lia. f_equal. lia. }
    assert (2 ^ (32 - 8 * Z.of_nat n) <= 2 ^ 32) as H32 by (apply Z.pow_le_mono_r; lia).
    assert (0 < 2 ^ (32 - 8 * Z.of_nat (S n)) /\ 2 ^ (32 - 8 * Z.of_nat (S n)) mod 256 = 0) as [H0 Hm].
    { split; [apply Z.pow_pos_nonneg; lia|]. change 256 with (2 ^ 8). apply Z.mod_divide; [lia|].
      exists (2 ^ (24 - 8 * Z.of_nat (S n))). rewrite <- Z.pow_add_r by lia. f_equal. lia. }
    rewrite u64_small by (rewrite max64_eq; lia).
    destruct s as [|c' s']; [done|]. cbn [String.list_ascii_of_string] in Hs.
    pose proof Hs as Hs'. apply Forall_cons in Hs' as [Hc' _].
    destruct (ascii_dec c' nul) as [-> |_]; [destruct Hc'; by cbn in *|].
    rewrite IH; [done|lia| |by apply Z.mod_mul|by split].
    split; [lia|]. rewrite E. enough (k + char_val c < 2 ^ (32 - 8 * Z.of_nat (S n))) by lia.
    Z.div_mod_to_equations. nia.
Qed.

Lemma create_ul_code s : plain s -> create_ul s = Ok (code (first4 s) 0).
Proof. intros Hs. by apply create_ul_from_code; [lia|lia| |]. Qed.

Lemma code_app l c : code (l ++ [c]) 0 = (code l 0 + char_val c) * 256.
Proof. unfold code. by rewrite fold_left_app. Qed.

Lemma code_nonneg l : Forall plain_char l -> 0 <= code l 0 /\ code l 0 mod 256 = 0.
Proof.
  induction l as [|c l IH] using rev_ind; [done|]. intros Hl. apply Forall_app in Hl as [Hl Hc].
  apply Forall_singleton, char_val_plain in Hc. rewrite code_app. destruct (IH Hl). split; [lia|apply Z.mod_mul; lia].
Qed.

Lemma char_val_inj c d : plain_char c -> plain_char d -> char_val c = char_val d -> c = d.
Proof.
  unfold plain_char, char_val. intros Hc Hd. rewrite !(proj2 (Z.ltb_lt _ _)) by lia. intros E.
  rewrite <- (ascii_N_embedding c), <- (ascii_N_embedding d). f_equal. lia.
Qed.

Lemma code_inj l1 : forall l2, Forall plain_char l1 -> Forall plain_char l2 -> code l1 0 = code l2 0 -> l1 = l2.
Proof.
  induction l1 as [|c l1 IH] using rev_ind; intros l2 H1 H2 E; destruct l2 as [|d l2 _] using rev_ind; [done|..].
  - apply Forall_app in H2 as [H2 Hd]. apply Forall_singleton, char_val_plain in Hd. destruct (code_nonneg l2 H2).
    rewrite code_app in E. change (code [] 0) with 0 in E. lia.
  - apply Forall_app in H1 as [H1 Hc]. apply Forall_singleton, char_val_plain in Hc. destruct (code_nonneg l1 H1).
    rewrite code_app in E. change (code [] 0) with 0 in E. lia.
  - apply Forall_app in H1 as [H1 Hc]. apply Forall_app in H2 as [H2 Hd].
    rewrite Forall_singleton in Hc. rewrite Forall_singleton in Hd.
    pose proof (char_val_plain c Hc). pose proof (char_val_plain d Hd).
    destruct (code_nonneg l1 H1) as [_ M1]. destruct (code_nonneg l2 H2) as [_ M2]. rewrite !code_app in E.
    assert (code l1 0 = code l2 0 /\ char_val c = char_val d) as [E1 E2] by (Z.div_mod_to_equations; lia).
    by rewrite (IH l2 H1 H2 E1), (char_val_inj c d Hc Hd E2).
Qed.

Lemma first4_plain s : plain s -> Forall plain_char (first4 s).
Proof. intros [_ H]. by apply Forall_take. Qed.

(** Every code is a 64-bit multiple of 256. *)
Lemma create_ul_low s k : create_ul s = Ok k -> word 64 k /\ k mod 256 = 0.
Proof.
  assert (forall x, word 64 (u64 (Z.shiftl x 8)) /\ u64 (Z.shiftl x 8) mod 256 = 0) as Hx.
  { intros x. split; [by apply wrap_bound|]. unfold wrap. rewrite Z.shiftl_mul_pow2 by lia. change (2 ^ 8) with 256.
    change (2 ^ 64) with (2 ^ 56 * 256). rewrite Z.mul_mod_distr_r by lia. apply Z.mod_mul. lia. }
  unfold create_ul. enough (forall n s k0, create_ul_from n k0 s = Ok k -> word 64 k /\ k mod 256 = 0) as H by apply H.
  clear s. induction n as [|n IH]; intros [|c s] k0; cbn; try done.
  - destruct s; intros [= <-]; apply Hx.
  - destruct s as [|c' s]; [intros [= <-]; apply Hx|]. destruct (ascii_dec c' nul); [intros [= <-]; apply Hx|]. apply IH.
Qed.

(** ** The table of shared libraries *)

(** The common address of the [i]-th library registered. *)
Definition lib_addr (i : nat) : Z := 0x10000000 + Z.of_nat i * 2 ^ 32.

(** The table holds the codes [ks], in order of registration. *)
Record libs_ok (t : Tables) (ks : list Z) : Prop := {
  lo_idx : sl_idx t = ks ++ replicate (1000 - length ks) 0;
  lo_addr : sl_addr t = map lib_addr (seq 0 (length ks)) ++ replicate (1000 - length ks) 0;
  lo_nodup : NoDup ks;
  lo_code k : k ∈ ks -> k <> 0 /\ k mod 256 = 0;
  lo_next : sharedLibAddress t = lib_addr (length ks);
  lo_end : sharedLibEndAddress t = 0x10000000000;
  lo_room : (length ks <= 255)%nat
}.

Lemma libs_ok_init n : libs_ok (tables_init n) [].
Proof. constructor; try done; [apply NoDup_nil_2|intros k Hk; by apply not_elem_of_nil in Hk|cbn; lia]. Qed.

(** The first slot that holds the code or is free. *)
Lemma lib_slot_first idx nm i n j v :
  (i <= j < i + n)%nat -> idx !! j = Some v -> v = nm \/ v = 0 ->
  (forall h x, (i <= h < j)%nat -> idx !! h = Some x -> x <> nm /\ x <> 0) ->
  lib_slot idx nm i n = Ok (j, negb (v =? nm)).
Proof.
  revert i. induction n as [|n IH]; intros i Hj Hv Hor Hbefore; [lia|]. cbn [lib_slot].
  destruct (decide (i = j)) as [-> |Hne].
  - rewrite (rd_some _ _ _ Hv). cbn [mbind outcome_bind]. destruct (v =? nm) eqn:E; [done|].
    destruct Hor as [-> | ->]; [by rewrite Z.eqb_refl in E|done].
  - destruct (lookup_lt_is_Some_2 idx i) as [x Hx]; [apply lookup_lt_Some in Hv; lia|].
    rewrite (rd_some _ _ _ Hx). cbn [mbind outcome_bind]. destruct (Hbefore i x ltac:(lia) Hx) as [H1 H2].
    rewrite (proj2 (Z.eqb_neq _ _) H1), (proj2 (Z.eqb_neq _ _) H2). apply IH; [lia|done|done|].
    intros h y Hh. apply Hbefore. lia.
Qed.

Lemma libs_lookup t ks i k : libs_ok t ks -> ks !! i = Some k ->
  sl_idx t !! i = Some k /\ sl_addr t !! i = Some (lib_addr i).
Proof.
  intros L Hi. pose proof (lookup_lt_Some _ _ _ Hi) as Hlt. rewrite (lo_idx _ _ L), (lo_addr _ _ L).
  rewrite !lookup_app_l by (rewrite ?length_map, ?length_seq; lia). split; [done|].
  rewrite list_lookup_fmap. by rewrite (lookup_seq_lt 0) by lia.
Qed.

(** Registering a code keeps the table, and every earlier library's address. *)
Lemma add_lib_ok nm t ks : nm mod 256 = 0 -> libs_ok t ks -> nm = 0 \/ nm ∈ ks \/ (length ks < 255)%nat ->
  exists t' ks', add_lib nm t = Ok t' /\ libs_ok t' ks' /\ ks `prefix_of` ks' /\ (nm = 0 \/ nm ∈ ks') /\
    (forall k, k ∈ ks' -> k = nm \/ k ∈ ks) /\ pp_idx t' = pp_idx t /\ pp_info t' = pp_info t.
Proof.
  intros Hnm L Hroom. unfold add_lib. pose proof (lo_room _ _ L) as H255.
  assert (sharedLibAddress t <? sharedLibEndAddress t = true) as Hcheck.
  { rewrite (lo_next _ _ L), (lo_end _ _ L). unfold lib_addr. lia. }
  destruct (decide (nm ∈ ks)) as [Hin|Hnot].
  - apply list_elem_of_lookup in Hin as Hj. destruct Hj as [j Hj]. destruct (libs_lookup t ks j nm L Hj) as [Hi _].
    pose proof (lookup_lt_Some _ _ _ Hj). rewrite (lib_slot_first _ nm 0 1000 j nm); [|lia|done|by left|].
    + rewrite Z.eqb_refl. cbn [mret outcome_ret mbind outcome_bind negb]. rewrite Hcheck. exists t, ks. do 3 (split; [done|]). split; [by right|]. split; [by right|done].
    + intros h x Hh Hx. destruct (lookup_lt_is_Some_2 ks h) as [y Hy]; [lia|].
      destruct (libs_lookup t ks h y L Hy) as [Hy' _]. assert (x = y) as -> by congruence.
      split; [|apply (lo_code _ _ L); by eapply list_elem_of_lookup_2]. intros ->.
      pose proof (NoDup_lookup _ _ _ _ (lo_nodup _ _ L) Hj Hy). lia.
  - assert (sl_idx t !! length ks = Some 0) as H0.
    { rewrite (lo_idx _ _ L), lookup_app_r, Nat.sub_diag by lia. apply lookup_replicate. split; [done|lia]. }
    rewrite (lib_slot_first _ nm 0 1000 (length ks) 0); [|lia|done|by right|].
    2:{ intros h x Hh Hx. destruct (lookup_lt_is_Some_2 ks h) as [y Hy]; [lia|].
        destruct (libs_lookup t ks h y L Hy) as [Hy' _]. assert (x = y) as -> by congruence.
        apply list_elem_of_lookup_2 in Hy. split; [by intros ->|by apply (lo_code _ _ L)]. }
    destruct (0 =? nm) eqn:E0; cbn [negb mret outcome_ret mbind outcome_bind].
    { rewrite Hcheck. exists t, ks. do 3 (split; [done|]). split; [left; lia|]. split; [by right|done]. }
    assert (length ks < 255)%nat as Hlt by (destruct Hroom as [? | [? | ?]]; [lia|done|done]).
    assert (length ks < length (sl_idx t) /\ length ks < length (sl_addr t))%nat as [Hl1 Hl2].
    { rewrite (lo_idx _ _ L), (lo_addr _ _ L), !length_app, !length_replicate, length_map, length_seq. lia. }
    rewrite !wr_lt by done. cbn [mret outcome_ret mbind outcome_bind]. rewrite (lo_next _ _ L).
    rewrite u64_small by (unfold lib_addr; rewrite max64_eq; lia).
    cbn [sharedLibAddress set_libs sharedLibEndAddress]. rewrite (lo_end _ _ L).
    rewrite (proj2 (Z.ltb_lt _ _)) by (unfold lib_addr; lia). cbn [check mret outcome_ret mbind outcome_bind].
    eexists _, (ks ++ [nm]). split; [done|]. split; [|split; [by exists [nm]|]; split; [right; set_solver|split; [set_solver|done]]].
    assert (1000 - length ks = S (1000 - S (length ks)))%nat as Er by lia.
    constructor; cbn [sl_idx sl_addr set_libs sharedLibAddress sharedLibEndAddress]; rewrite ?length_app; cbn [length].
    + rewrite (lo_idx _ _ L), Er. rewrite insert_app_r_alt, Nat.sub_diag by lia. cbn [replicate insert list_insert].
      rewrite <- app_assoc. do 2 f_equal. f_equal. lia.
    + rewrite (lo_addr _ _ L), Er, insert_app_r_alt by (rewrite length_map, length_seq; lia).
      rewrite length_map, length_seq, Nat.sub_diag. cbn [replicate insert list_insert].
      replace (length ks + 1)%nat with (S (length ks)) by lia. rewrite seq_S, map_app, <- app_assoc. done.
    + apply NoDup_app. split; [apply L|]. split; [|apply NoDup_singleton]. intros x Hx Hx'.
      apply list_elem_of_singleton in Hx' as ->. done.
    + intros k Hk. apply elem_of_app in Hk as [Hk|Hk]; [by apply (lo_code _ _ L)|].
      apply list_elem_of_singleton in Hk as ->. split; [lia|done].
    + unfold lib_addr. lia.
    + apply (lo_end _ _ L).
    + lia.
Qed.

(** What one registration, or any number of them, guarantees. *)
Definition libs_grow (t t' : Tables) (ks ks' : list Z) : Prop :=
  libs_ok t' ks' /\ ks `prefix_of` ks' /\ pp_idx t' = pp_idx t /\ pp_info t' = pp_info t.

Lemma libs_grow_refl t ks : libs_ok t ks -> libs_grow t t ks ks.
Proof. intros L. split; [done|]. split; [done|by split]. Qed.

Lemma libs_grow_trans t1 t2 t3 k1 k2 k3 : libs_grow t1 t2 k1 k2 -> libs_grow t2 t3 k2 k3 -> libs_grow t1 t3 k1 k3.
Proof.
  intros (L1 & P1 & I1 & M1) (L2 & P2 & I2 & M2). split; [done|]. split; [by etrans|]. split; congruence.
Qed.

(** A line that names a mapped file is registered; code 0 (of an unprintable name) needs no slot. *)
Definition registered (ks : list Z) (line : string) : Prop :=
  forall s e s2 name k, parse_line line = Ok (s, e, s2, name, true) -> 1 < Z.of_nat (String.length name) ->
    create_ul name = Ok k -> k = 0 \/ k ∈ ks.

Lemma registered_prefix ks ks' l : ks `prefix_of` ks' -> registered ks l -> registered ks' l.
Proof. intros [x ->] H s e s2 nm k H1 H2 H3. destruct (H s e s2 nm k H1 H2 H3); [by left|right; apply elem_of_app; by left]. Qed.

Lemma add_lib_inv nm t t' ks : nm mod 256 = 0 -> libs_ok t ks -> add_lib nm t = Ok t' ->
  exists ks', libs_grow t t' ks ks' /\ (nm = 0 \/ nm ∈ ks').
Proof.
  intros Hnm L E. destruct (decide (nm = 0 \/ nm ∈ ks \/ (length ks < 255)%nat)) as [Hd|Hd].
  - destruct (add_lib_ok nm t ks Hnm L Hd) as (t2 & ks' & E2 & L' & Hp & Hin & _ & H1 & H2).
    assert (t2 = t') as -> by congruence. by exists ks'.
  - exfalso. apply Decidable.not_or in Hd as [H0 Hd]. apply Decidable.not_or in Hd as [Hnot Hl].
    pose proof (lo_room _ _ L). assert (length ks = 255)%nat as H255 by lia. unfold add_lib in E.
    assert (sl_idx t !! 255%nat = Some 0) as Hz.
    { rewrite (lo_idx _ _ L), lookup_app_r by lia. apply lookup_replicate. split; [done|lia]. }
    rewrite (lib_slot_first _ nm 0 1000 255 0) in E; [|lia|done|by right|].
    + rewrite (proj2 (Z.eqb_neq 0 nm)) in E by done. cbn [mret outcome_ret mbind outcome_bind negb] in E.
      unfold wr in E. do 2 case_bool_decide; cbn [mret outcome_ret mbind outcome_bind] in E; try done.
      cbn [sharedLibAddress set_libs sharedLibEndAddress] in E. rewrite (lo_next _ _ L), (lo_end _ _ L), H255 in E.
      by vm_compute in E.
    + intros h x Hh Hx. destruct (lookup_lt_is_Some_2 ks h) as [y Hy]; [lia|].
      destruct (libs_lookup t ks h y L Hy) as [Hy' _]. assert (x = y) as -> by congruence.
      apply list_elem_of_lookup_2 in Hy. split; [by intros ->|by apply (lo_code _ _ L)].
Qed.

Lemma add_line_inv l t t' ks : libs_ok t ks -> add_line l t = Ok t' ->
  exists ks', libs_grow t t' ks ks' /\ registered ks' l.
Proof.
  intros L. unfold add_line. destruct (parse_line l) as [[[[[s e] s2] nm] flag]|] eqn:Ep; [|done].
  cbn [mbind outcome_bind]. destruct (flag && (1 <? Z.of_nat (String.length nm))) eqn:Ef.
  - destruct (create_ul nm) as [k|] eqn:Ek; [|done]. cbn [mbind outcome_bind]. intros E.
    destruct (create_ul_low nm k Ek) as [_ Hk]. destruct (add_lib_inv k t t' ks Hk L E) as (ks' & G & Hin).
    exists ks'. split; [done|]. intros s' e' s2' nm' k' E1 _ E2. rewrite Ep in E1. simplify_eq. by rewrite Ek in E2; simplify_eq.
  - intros [= <-]. exists ks. split; [by apply libs_grow_refl|]. intros s' e' s2' nm' k' E1 Hlen _. rewrite Ep in E1. simplify_eq.
    apply andb_false_iff in Ef as [?|Ef]; [done|lia].
Qed.

Lemma add_lines_inv ls : forall t t' ks, libs_ok t ks -> add_lines ls t = Ok t' ->
  exists ks', libs_grow t t' ks ks' /\ forall l, l ∈ ls -> registered ks' l.
Proof.
  induction ls as [|l ls IH]; intros t t' ks L; cbn [add_lines].
  - intros [= <-]. exists ks. split; [by apply libs_grow_refl|]. intros l Hl. by apply not_elem_of_nil in Hl.
  - destruct (add_line l t) as [t1|] eqn:E1; [|done]. cbn [mbind outcome_bind]. intros E2.
    destruct (add_line_inv l t t1 ks L E1) as (k1 & G1 & R1). destruct (IH t1 t' k1 (proj1 G1) E2) as (k2 & G2 & R2).
    exists k2. split; [by eapply libs_grow_trans|]. intros x Hx. apply elem_of_cons in Hx as [-> | Hx]; [|by apply R2].
    by eapply registered_prefix; [apply G2|].
Qed.

Section register.
Variable maps_file : Z -> option (list string).

(** [addSharedLib] keeps the table and registers every mapped file of the
    processes before the first free entry. *)
Lemma addSharedLib_inv n : forall i t t' ks, libs_ok t ks -> addSharedLib_from maps_file i n t = Ok t' ->
  exists ks', libs_grow t t' ks ks' /\ forall j pid lines l, (i <= j < i + n)%nat -> pp_idx t !! j = Some pid ->
    (forall h, (i <= h <= j)%nat -> pp_idx t !! h <> Some 0) -> maps_file pid = Some lines -> l ∈ lines -> registered ks' l.
Proof.
  induction n as [|n IH]; intros i t t' ks L; cbn [addSharedLib_from].
  - intros [= <-]. exists ks. split; [by apply libs_grow_refl|]. intros. lia.
  - unfold rd at 1. destruct (pp_idx t !! i) as [p|] eqn:Hp; [|done]. cbn [mbind outcome_bind].
    destruct (p =? 0) eqn:E0.
    + intros [= <-]. exists ks. split; [by apply libs_grow_refl|]. intros j pid lines l Hj _ Hnz. exfalso.
      apply (Hnz i ltac:(lia)). rewrite Hp. f_equal. lia.
    + destruct (maps_file p) as [lines|] eqn:Hm; [|done]. destruct (add_lines lines t) as [t1|] eqn:E1; [|done].
      cbn [mbind outcome_bind]. intros E2. destruct (add_lines_inv lines t t1 ks L E1) as (k1 & G1 & R1).
      destruct (IH (S i) t1 t' k1 (proj1 G1) E2) as (k2 & G2 & R2). pose proof G1 as (_ & _ & HI & _).
      exists k2. split; [by eapply libs_grow_trans|]. intros j pid ls l Hj Hpid Hnz Hf Hl.
      destruct (decide (j = i)) as [->|Hne].
      * assert (pid = p) as -> by congruence. assert (ls = lines) as -> by congruence.
        eapply registered_prefix; [apply G2|by apply R1].
      * eapply (R2 j pid ls l); [lia|by rewrite HI| |done|done]. intros h Hh. rewrite HI. apply Hnz. lia.
Qed.

End register.

(** ** The tables of the processes *)

(** The slots hold [pids], in order, then are free. *)
Record procs_ok (n : nat) (t : Tables) (pids : list Z) : Prop := {
  po_idx : pp_idx t = pids ++ replicate (n - length pids) 0;
  po_nodup : NoDup pids;
  po_nonzero : 0 ∉ pids;
  po_room : (length pids <= n)%nat;
  po_info : length (pp_info t) = n;
  po_full m : m ∈ pp_info t -> length m = 1000%nat
}.

(** The map recorded for a process. *)
Definition map_at (t : Tables) (pid : Z) (m : list ProcMapInfo) : Prop :=
  exists i, pp_idx t !! i = Some pid /\ pp_info t !! i = Some m.

Lemma procs_ok_init n : procs_ok n (tables_init n) [].
Proof.
  constructor; cbn [pp_idx pp_info tables_init length app].
  - by rewrite Nat.sub_0_r.
  - apply NoDup_nil_2.
  - apply not_elem_of_nil.
  - lia.
  - apply length_replicate.
  - intros m Hm. apply elem_of_replicate in Hm as [-> _]. apply length_replicate.
Qed.

Lemma procs_lookup n t pids i pid : procs_ok n t pids -> pids !! i = Some pid -> pp_idx t !! i = Some pid.
Proof. intros P Hi. rewrite (po_idx _ _ _ P). by apply lookup_app_l_Some. Qed.

Lemma find_process_spec n t pids i pid : procs_ok n t pids -> pids !! i = Some pid ->
  forall k c, (k <= i < k + c)%nat -> find_process (pp_idx t) pid k c = Ok i.
Proof.
  intros P Hi k c. revert k. induction c as [|c IH]; intros k Hk; [lia|]. cbn [find_process].
  destruct (lookup_lt_is_Some_2 pids k) as [x Hx]; [apply lookup_lt_Some in Hi; lia|].
  rewrite (rd_some _ _ _ (procs_lookup _ _ _ _ _ P Hx)). cbn [mbind outcome_bind].
  destruct (Z.eqb_spec x pid) as [->|Hne].
  - by rewrite (NoDup_lookup _ _ _ _ (po_nodup _ _ _ P) Hx Hi).
  - destruct (Z.eqb_spec x 0) as [->|_].
    + destruct (po_nonzero _ _ _ P). by eapply list_elem_of_lookup_2.
    + apply IH. destruct (decide (k = i)) as [->|]; [congruence|lia].
Qed.

Lemma claim_slot_known n t pids i pid : procs_ok n t pids -> pids !! i = Some pid ->
  forall k c, (k <= i < k + c)%nat -> claim_slot (pp_idx t) pid k c = Ok (i, pp_idx t).
Proof.
  intros P Hi k c. revert k. induction c as [|c IH]; intros k Hk; [lia|]. cbn [claim_slot].
  destruct (lookup_lt_is_Some_2 pids k) as [x Hx]; [apply lookup_lt_Some in Hi; lia|].
  rewrite (rd_some _ _ _ (procs_lookup _ _ _ _ _ P Hx)). cbn [mbind outcome_bind].
  destruct (Z.eqb_spec x pid) as [->|Hne].
  - by rewrite (NoDup_lookup _ _ _ _ (po_nodup _ _ _ P) Hx Hi).
  - destruct (Z.eqb_spec x 0) as [->|_].
    + destruct (po_nonzero _ _ _ P). by eapply list_elem_of_lookup_2.
    + apply IH. destruct (decide (k = i)) as [->|]; [congruence|lia].
Qed.

Lemma claim_slot_new n t pids pid : procs_ok n t pids -> pid ∉ pids -> pid <> 0 -> (length pids < n)%nat ->
  forall k c, (k <= length pids < k + c)%nat ->
  claim_slot (pp_idx t) pid k c = Ok (length pids, (pids ++ [pid]) ++ replicate (n - S (length pids)) 0).
Proof.
  intros P Hnot H0 Hlt k c. revert k. induction c as [|c IH]; intros k Hk; [lia|]. cbn [claim_slot].
  assert (n - length pids = S (n - S (length pids)))%nat as Er by lia.
  destruct (decide (k = length pids)) as [->|Hne].
  - assert (pp_idx t !! length pids = Some 0) as Hx.
    { rewrite (po_idx _ _ _ P), lookup_app_r, Nat.sub_diag, Er by lia. done. }
    rewrite (rd_some _ _ _ Hx). cbn [mbind outcome_bind]. rewrite (proj2 (Z.eqb_neq 0 pid)) by done.
    rewrite wr_lt by (rewrite (po_idx _ _ _ P), length_app, length_replicate; lia). cbn [mbind outcome_bind Z.eqb mret outcome_ret].
    do 2 f_equal. rewrite (po_idx _ _ _ P), Er, insert_app_r_alt, Nat.sub_diag by lia.
    cbn [replicate insert list_insert]. by rewrite <- app_assoc.
  - destruct (lookup_lt_is_Some_2 pids k) as [x Hx]; [lia|].
    rewrite (rd_some _ _ _ (procs_lookup _ _ _ _ _ P Hx)). cbn [mbind outcome_bind].
    apply list_elem_of_lookup_2 in Hx. rewrite (proj2 (Z.eqb_neq x pid)) by congruence.
    rewrite (proj2 (Z.eqb_neq x 0)); [apply IH; lia|]. intros ->. by destruct (po_nonzero _ _ _ P).
Qed.

(** The entries written are the lines' regions. *)
Lemma fill_map_spec lines ps : Forall2 (fun l p => region_of_line l = Ok p) lines ps ->
  forall ii m, (ii + length lines < length m)%nat -> (length m = 1000)%nat ->
  fill_map lines ii m = Ok (take ii m ++ ps ++ drop (ii + length lines) m).
Proof.
  induction 1 as [|l p lines ps Hl Hls IH]; intros ii m Hlen Hm; cbn [fill_map length app].
  - by rewrite Nat.add_0_r, take_drop.
  - cbn [length] in Hlen. rewrite Hl. cbn [mbind outcome_bind]. rewrite wr_lt by lia. cbn [mbind outcome_bind].
    rewrite (proj2 (Z.ltb_lt _ _)) by lia. cbn [check mbind outcome_bind].
    rewrite IH by (rewrite length_insert; lia). f_equal.
    rewrite take_S_r with (x := p) by (apply list_lookup_insert_eq; lia).
    rewrite take_insert_ge by lia. rewrite drop_insert_lt by lia. rewrite <- app_assoc. cbn [app].
    do 4 f_equal. lia.
Qed.

Section populate.
Variable maps_file : Z -> option (list string).
Variable n : nat.

(** The regions of a process's file. *)
Definition file_regions (pid : Z) (ps : list ProcMapInfo) : Prop :=
  exists lines, maps_file pid = Some lines /\ Forall2 (fun l p => region_of_line l = Ok p) lines ps /\ (length lines < 1000)%nat.

Definition full_map (ps : list ProcMapInfo) : list ProcMapInfo := ps ++ replicate (1000 - length ps) no_region.

Lemma populate_ok pid ps t pids : procs_ok n t pids -> pid <> 0 -> pid ∈ pids \/ (length pids < n)%nat ->
  file_regions pid ps ->
  exists t' pids', populateProcessMap maps_file n pid t = Ok t' /\ procs_ok n t' pids' /\ pid ∈ pids' /\
    pids' ⊆ pid :: pids /\ pids `prefix_of` pids' /\ map_at t' pid (full_map ps) /\
    (forall q m, q <> pid -> q <> 0 -> map_at t q m -> map_at t' q m) /\
    t' = set_procs t (pp_idx t') (pp_info t').
Proof.
  intros P H0 Hroom (lines & Hf & HF & Hlen).
  assert (exists i pids', claim_slot (pp_idx t) pid 0 n = Ok (i, pids' ++ replicate (n - length pids') 0) /\
    pids' !! i = Some pid /\ (i < n)%nat /\ NoDup pids' /\ 0 ∉ pids' /\ (length pids' <= n)%nat /\ pids' ⊆ pid :: pids /\
    pids `prefix_of` pids') as (i & pids' & Hc & Hi & Hin & Hnd & Hnz & Hn & Hsub & Hpre).
  { destruct (decide (pid ∈ pids)) as [Hk|Hk].
    - apply list_elem_of_lookup in Hk as [i Hi]. pose proof (lookup_lt_Some _ _ _ Hi). pose proof (po_room _ _ _ P).
      exists i, pids. rewrite (claim_slot_known n t pids i pid P Hi) by lia. rewrite <- (po_idx _ _ _ P).
      repeat (split; [done || lia || apply P|]). split; [set_solver|done].
    - destruct Hroom as [|Hlt]; [done|]. exists (length pids), (pids ++ [pid]).
      rewrite (claim_slot_new n t pids pid P Hk H0 Hlt) by lia. rewrite length_app. cbn [length].
      replace (n - (length pids + 1))%nat with (n - S (length pids))%nat by lia.
      split; [done|]. split; [by rewrite lookup_app_r, Nat.sub_diag by lia|]. split; [lia|].
      split; [|split; [|split; [lia|split; [set_solver|by exists [pid]]]]].
      + apply NoDup_app. split; [apply P|]. split; [set_solver|apply NoDup_singleton].
      + pose proof (po_nonzero _ _ _ P). set_solver. }
  destruct (lookup_lt_is_Some_2 (pp_info t) i) as [old Hold]; [by rewrite (po_info _ _ _ P)|].
  pose proof (po_full _ _ _ P old ltac:(by eapply list_elem_of_lookup_2)) as Ho.
  pose proof (Forall2_length _ _ _ HF) as Hl2.
  unfold populateProcessMap. rewrite Hc. cbn [mbind outcome_bind]. rewrite (rd_some _ _ _ Hold). cbn [mbind outcome_bind].
  rewrite Hf. rewrite (drop_ge old) by lia. rewrite app_nil_r.
  rewrite (fill_map_spec lines ps HF 0) by (rewrite length_replicate; lia). cbn [mbind outcome_bind take app Nat.add].
  rewrite drop_replicate, Hl2. fold (full_map ps). rewrite wr_lt by (rewrite (po_info _ _ _ P); lia).
  cbn [mbind outcome_bind mret outcome_ret]. eexists _, pids'. split; [done|].
  assert (length (full_map ps) = 1000%nat) as Hfl by (unfold full_map; rewrite length_app, length_replicate; lia).
  split; [|split; [by eapply list_elem_of_lookup_2|split; [done|split; [done|split]]]].
  - constructor; cbn [pp_idx pp_info set_procs]; try done.
    + by rewrite length_insert, (po_info _ _ _ P).
    + intros m Hm. apply list_elem_of_lookup in Hm as [j Hm]. apply list_lookup_insert_Some in Hm as [(_ & <- & _)|[_ Hm]]; [done|].
      apply (po_full _ _ _ P). by eapply list_elem_of_lookup_2.
  - exists i. cbn [pp_idx pp_info set_procs]. split; [by apply lookup_app_l_Some|].
    apply list_lookup_insert_eq. rewrite (po_info _ _ _ P). lia.
  - split; [|done]. intros q m Hq Hq0 (j & Hj & Hm). exists j. cbn [pp_idx pp_info set_procs].
    rewrite (po_idx _ _ _ P) in Hj. apply lookup_app_Some in Hj as [Hj|[_ Hj]].
    2:{ apply lookup_replicate in Hj as [? _]. done. }
    assert (pids' !! j = Some q) as Hj' by by eapply prefix_lookup_Some.
    split; [by apply lookup_app_l_Some|]. rewrite list_lookup_insert_ne; [done|]. intros ->. congruence.
Qed.

End populate.

(** ** The common addresses, as the accesses find them *)

Lemma lib_base_known ks r k i : ks !! i = Some k -> NoDup ks -> (forall x, x ∈ ks -> x <> max64 - 1) ->
  forall a, lib_base (ks ++ r) (map lib_addr (seq a (length ks)) ++ r) k = Some (lib_addr (a + i)).
Proof.
  revert i. induction ks as [|x ks IH]; intros i Hi Hnd Hm a; [done|]. apply NoDup_cons in Hnd as [Hx Hnd].
  cbn [app length seq map lib_base]. destruct i as [|i].
  - injection Hi as ->. rewrite Z.eqb_refl. by rewrite Nat.add_0_r.
  - cbn in Hi. rewrite (proj2 (Z.eqb_neq x k)).
    2:{ intros ->. apply Hx. by eapply list_elem_of_lookup_2. }
    rewrite (proj2 (Z.eqb_neq x (max64 - 1))) by (apply Hm; by left).
    rewrite (IH i Hi Hnd) by (intros y Hy; apply Hm; by right). do 2 f_equal. lia.
Qed.

Lemma lib_base_zero ks r : 0 ∉ ks -> (forall x, x ∈ ks -> x <> max64 - 1) ->
  forall a, lib_base (ks ++ replicate (S r) 0) (map lib_addr (seq a (length ks)) ++ replicate (S r) 0) 0 = Some 0.
Proof.
  induction ks as [|x ks IH]; intros H0 Hm a; [done|]. cbn [app length seq map lib_base].
  rewrite (proj2 (Z.eqb_neq x 0)) by (intros ->; apply H0; by left).
  rewrite (proj2 (Z.eqb_neq x (max64 - 1))) by (apply Hm; by left).
  apply IH; [intros H; apply H0; by right|intros y Hy; apply Hm; by right].
Qed.

Lemma libs_not_ones t ks x : libs_ok t ks -> x ∈ ks -> x <> max64 - 1.
Proof.
  intros L Hx ->. destruct (lo_code _ _ L _ Hx) as [_ H]. rewrite max64_eq in H. by vm_compute in H.
Qed.

Lemma libs_base t ks i k : libs_ok t ks -> ks !! i = Some k -> lib_base (sl_idx t) (sl_addr t) k = Some (lib_addr i).
Proof.
  intros L Hi. rewrite (lo_idx _ _ L), (lo_addr _ _ L). apply (lib_base_known ks _ k i); [done|apply L|].
  intros x. by apply (libs_not_ones t).
Qed.

Lemma libs_base_some t ks k : libs_ok t ks -> k = 0 \/ k ∈ ks -> is_Some (lib_base (sl_idx t) (sl_addr t) k).
Proof.
  intros L [-> | Hk].
  - exists 0. pose proof (lo_room _ _ L). rewrite (lo_idx _ _ L), (lo_addr _ _ L).
    replace (1000 - length ks)%nat with (S (999 - length ks)) by lia. apply lib_base_zero.
    + intros H0. by destruct (lo_code _ _ L _ H0).
    + intros x. by apply (libs_not_ones t).
  - apply list_elem_of_lookup in Hk as [i Hi]. exists (lib_addr i). by eapply libs_base.
Qed.

Lemma libs_base_inv t ks k b : libs_ok t ks -> k <> 0 -> k <> max64 - 1 -> lib_base (sl_idx t) (sl_addr t) k = Some b ->
  exists i, ks !! i = Some k /\ b = lib_addr i.
Proof.
  intros L H0 H1 Hb. destruct (decide (k ∈ ks)) as [Hk|Hk].
  - apply list_elem_of_lookup in Hk as [i Hi]. exists i. split; [done|]. rewrite (libs_base t ks i k L Hi) in Hb. congruence.
  - exfalso. rewrite (lo_idx _ _ L), (lo_addr _ _ L) in Hb. clear L. generalize dependent (1000 - length ks)%nat. intros r.
    generalize 0%nat. induction ks as [|x ks IH]; intros a.
    + cbn [app length seq map]. induction r as [|r IHr]; [done|]. cbn [replicate lib_base].
      rewrite (proj2 (Z.eqb_neq 0 k)) by done. rewrite (proj2 (Z.eqb_neq 0 (max64 - 1))) by (rewrite max64_eq; lia). done.
    + cbn [app length seq map lib_base]. rewrite (proj2 (Z.eqb_neq x k)) by (intros ->; apply Hk; by left).
      destruct (x =? max64 - 1); [done|]. apply IH. intros H. apply Hk. by right.
Qed.

(** ** A remap of all processes *)

Section remap.
Variable maps_file : Z -> option (list string).
Variable n : nat.
(** The pids in use, and the codes of the files they map. *)
Variables pidset codes : gset Z.
Hypothesis pids_fit : (size pidset <= n)%nat.
Hypothesis codes_fit : (size codes <= 255)%nat.
Hypothesis files_parse : forall pid, pid ∈ pidset -> exists ps, file_regions maps_file pid ps.
Hypothesis files_codes : forall pid lines l s e s2 name, pid ∈ pidset -> maps_file pid = Some lines -> l ∈ lines ->
  parse_line l = Ok (s, e, s2, name, true) -> 1 < Z.of_nat (String.length name) ->
  exists k, create_ul name = Ok k /\ k ∈ codes.

Lemma size_list (l : list Z) (X : gset Z) : NoDup l -> (forall x, x ∈ l -> x ∈ X) -> (length l <= size X)%nat.
Proof.
  intros Hl Hs. rewrite <- (size_list_to_set (C := gset Z) l Hl). apply subseteq_size. intros x Hx.
  apply Hs. by apply elem_of_list_to_set in Hx.
Qed.

Lemma add_line_total l pid lines t ks : pid ∈ pidset -> maps_file pid = Some lines -> l ∈ lines ->
  libs_ok t ks -> (forall k, k ∈ ks -> k ∈ codes) ->
  exists t' ks', add_line l t = Ok t' /\ libs_ok t' ks' /\ (forall k, k ∈ ks' -> k ∈ codes).
Proof using pids_fit codes_fit files_parse files_codes.
  intros Hpid Hf Hl L Hsub. destruct (files_parse pid Hpid) as (ps & lines' & Hf' & HF & _).
  assert (lines' = lines) as -> by congruence. apply list_elem_of_lookup in Hl as Hj. destruct Hj as [j Hj].
  destruct (Forall2_lookup_l _ _ _ _ _ HF Hj) as (p & _ & Hp). unfold region_of_line in Hp. unfold add_line.
  destruct (parse_line l) as [[[[[s e] s2] nm] flag]|] eqn:Ep; [|done]. cbn [mbind outcome_bind].
  destruct (flag && (1 <? Z.of_nat (String.length nm))) eqn:Ef; [|by exists t, ks].
  apply andb_true_iff in Ef as [-> Ef]. destruct (files_codes pid lines l s e s2 nm Hpid Hf Hl Ep ltac:(lia)) as (k & Ek & Hk).
  rewrite Ek. cbn [mbind outcome_bind]. destruct (create_ul_low nm k Ek) as [_ Hlow].
  destruct (add_lib_ok k t ks Hlow L) as (t' & ks' & E & L' & _ & _ & Hin & _).
  - destruct (decide (k ∈ ks)); [by right; left|right; right].
    assert (length (k :: ks) <= size codes)%nat; [|cbn [length] in *; lia].
    apply size_list; [apply NoDup_cons; split; [done|apply L]|]. intros x Hx. apply elem_of_cons in Hx as [-> | Hx]; auto.
  - exists t', ks'. split; [done|]. split; [done|]. intros x Hx. destruct (Hin x Hx) as [-> | ?]; auto.
Qed.

Lemma add_lines_total pid lines : pid ∈ pidset -> maps_file pid = Some lines -> forall ls t ks,
  (forall l, l ∈ ls -> l ∈ lines) -> libs_ok t ks -> (forall k, k ∈ ks -> k ∈ codes) ->
  exists t' ks', add_lines ls t = Ok t' /\ libs_ok t' ks' /\ (forall k, k ∈ ks' -> k ∈ codes).
Proof using pids_fit codes_fit files_parse files_codes.
  intros Hpid Hf. induction ls as [|l ls IH]; intros t ks Hin L Hsub; [by exists t, ks|].
  destruct (add_line_total l pid lines t ks Hpid Hf (Hin l ltac:(by left)) L Hsub) as (t1 & k1 & E1 & L1 & S1).
  cbn [add_lines]. rewrite E1. cbn [mbind outcome_bind]. apply (IH t1 k1); [|done|done]. intros x Hx. apply Hin. by right.
Qed.

Lemma addSharedLib_total c : forall i t ks, libs_ok t ks -> (forall k, k ∈ ks -> k ∈ codes) ->
  (i + c <= length (pp_idx t))%nat -> (forall j pid, pp_idx t !! j = Some pid -> pid = 0 \/ pid ∈ pidset) ->
  exists t', addSharedLib_from maps_file i c t = Ok t'.
Proof using pids_fit codes_fit files_parse files_codes.
  induction c as [|c IH]; intros i t ks L Hsub Hlen Hp; cbn [addSharedLib_from]; [by eexists|].
  destruct (lookup_lt_is_Some_2 (pp_idx t) i) as [pid Hi]; [lia|]. rewrite (rd_some _ _ _ Hi). cbn [mbind outcome_bind].
  destruct (Z.eqb_spec pid 0) as [|Hne]; [by eexists|]. destruct (Hp i pid Hi) as [|Hpid]; [done|].
  destruct (files_parse pid Hpid) as (ps & lines & Hf & _). rewrite Hf.
  destruct (add_lines_total pid lines Hpid Hf lines t ks) as (t1 & k1 & E1 & L1 & S1); [done..|]. rewrite E1. cbn [mbind outcome_bind].
  destruct (add_lines_inv lines t t1 ks L E1) as (k2 & (_ & _ & HI & _) & _).
  apply (IH (S i) t1 k1); [done|done|rewrite HI; lia|]. intros j q. rewrite HI. apply Hp.
Qed.

(** The processes populated so far have their file's regions. *)
Definition populated (i : nat) (t : Tables) : Prop := forall j pid, (j < i)%nat -> proc_list t !! j = Some pid -> pid <> 0 ->
  exists ps, file_regions maps_file pid ps /\ map_at t pid (full_map ps).

Lemma populate_from_total c : forall i t pids, procs_ok n t pids -> (forall x, x ∈ pids -> x ∈ pidset) ->
  (i + c <= length (proc_list t))%nat -> (forall j pid, proc_list t !! j = Some pid -> pid = 0 \/ pid ∈ pidset) ->
  populated i t ->
  exists t' pids', populate_from maps_file n i c t = Ok t' /\ procs_ok n t' pids' /\ (forall x, x ∈ pids' -> x ∈ pidset) /\
    populated (i + c) t' /\ t' = set_procs t (pp_idx t') (pp_info t').
Proof using pids_fit codes_fit files_parse files_codes.
  induction c as [|c IH]; intros i t pids P Hsub Hlen Hp HP; cbn [populate_from].
  { exists t, pids. rewrite Nat.add_0_r. split; [done|]. split; [done|]. split; [done|]. split; [done|]. by destruct t. }
  destruct (lookup_lt_is_Some_2 (proc_list t) i) as [pid Hi]; [lia|]. rewrite (rd_some _ _ _ Hi). cbn [mbind outcome_bind].
  replace (i + S c)%nat with (S i + c)%nat by lia. destruct (Z.eqb_spec pid 0) as [-> | Hne]; cbn [negb mret outcome_ret mbind outcome_bind].
  { apply (IH (S i) t pids); [done|done|lia|done|]. intros j q Hj Hq Hq0. destruct (decide (j = i)) as [-> |]; [congruence|].
    apply (HP j); [lia|done|done]. }
  destruct (Hp i pid Hi) as [|Hpid]; [done|]. destruct (files_parse pid Hpid) as [ps Hps].
  destruct (populate_ok maps_file n pid ps t pids P Hne) as (t1 & p1 & E1 & P1 & Hin1 & Hs1 & _ & Hm1 & Hk1 & Et1); [|done|].
  { destruct (decide (pid ∈ pids)); [by left|right].
    assert (length (pid :: pids) <= size pidset)%nat; [|cbn [length] in *; lia].
    apply size_list; [apply NoDup_cons; split; [done|apply P]|]. intros x Hx. apply elem_of_cons in Hx as [-> | Hx]; auto. }
  rewrite E1. cbn [mbind outcome_bind].
  assert (proc_list t1 = proc_list t) as HL by by rewrite Et1.
  destruct (IH (S i) t1 p1 P1) as (t' & pids' & E' & P' & S' & HP' & Et').
  - intros x Hx. apply Hs1, elem_of_cons in Hx as [-> | Hx]; auto.
  - rewrite HL. lia.
  - intros j q. rewrite HL. apply Hp.
  - intros j q Hj Hq Hq0. rewrite HL in Hq. destruct (decide (q = pid)) as [-> | Hqp]; [by exists ps|].
    destruct (decide (j = i)) as [-> |]; [congruence|]. destruct (HP j q ltac:(lia) Hq Hq0) as (ps' & Hps' & Hm).
    exists ps'. split; [done|by apply Hk1].
  - exists t', pids'. repeat (split; [done|]). rewrite Et'. rewrite Et1 at 1. done.
Qed.

(** Everything a remap establishes. *)
Lemma remap_total t pids ks : procs_ok n t pids -> libs_ok t ks ->
  (forall x, x ∈ pids -> x ∈ pidset) -> (forall k, k ∈ ks -> k ∈ codes) ->
  length (proc_list t) = n -> (forall pid, pid ∈ proc_list t -> pid = 0 \/ pid ∈ pidset) ->
  exists t' pids' ks', remap maps_file n t = Ok t' /\ procs_ok n t' pids' /\ libs_ok t' ks' /\ ks `prefix_of` ks' /\
    (forall pid, pid ∈ proc_list t -> pid <> 0 -> exists ps, file_regions maps_file pid ps /\ map_at t' pid (full_map ps)) /\
    (forall pid lines l, pid ∈ pids' -> maps_file pid = Some lines -> l ∈ lines -> registered ks' l).
Proof using pids_fit codes_fit files_parse files_codes.
  intros P L Hsp Hsk Hlen Hpl. unfold remap, populateProcessMaps, addSharedLib.
  destruct (populate_from_total n 0 t pids P Hsp) as (t1 & p1 & E1 & P1 & S1 & HP1 & Et1); [lia| |intros j q Hj; lia|].
  { intros j q Hq. apply Hpl. by eapply list_elem_of_lookup_2. }
  rewrite E1. cbn [mbind outcome_bind Nat.add] in *.
  assert (libs_ok t1 ks) as L1 by (rewrite Et1; by destruct L).
  destruct (addSharedLib_total n 0 t1 ks L1 Hsk) as [t' E'].
  { rewrite (po_idx _ _ _ P1), length_app, length_replicate. pose proof (po_room _ _ _ P1). lia. }
  { intros j q Hq. rewrite (po_idx _ _ _ P1) in Hq. apply lookup_app_Some in Hq as [Hq|[_ Hq]].
    - right. apply S1. by eapply list_elem_of_lookup_2.
    - left. by apply lookup_replicate in Hq as [-> _]. }
  destruct (addSharedLib_inv maps_file n 0 t1 t' ks L1 E') as (ks' & (L' & Hpre & HI & HM) & HR).
  exists t', p1, ks'. split; [done|]. split; [|split; [done|split; [done|split]]].
  - destruct P1. constructor; rewrite ?HI, ?HM; done.
  - intros pid Hin H0. apply list_elem_of_lookup in Hin as [j Hj].
    destruct (HP1 j pid) as (ps & Hps & Hm); [apply lookup_lt_Some in Hj; lia|by rewrite Et1|done|].
    exists ps. split; [done|]. unfold map_at. by rewrite HI, HM.
  - intros pid lines l Hin Hf Hl. apply list_elem_of_lookup in Hin as [j Hj].
    pose proof (procs_lookup _ _ _ _ _ P1 Hj) as Hj'. pose proof (lookup_lt_Some _ _ _ Hj).
    apply (HR j pid lines l); [pose proof (po_room _ _ _ P1); lia|done| |done|done].
    intros h Hh E0. destruct (lookup_lt_is_Some_2 p1 h) as [y Hy]; [lia|].
    rewrite (procs_lookup _ _ _ _ _ P1 Hy) in E0. injection E0 as ->. apply (po_nonzero _ _ _ P1).
    by eapply list_elem_of_lookup_2.
Qed.

End remap.

(** ** Registrations *)

Lemma add_proc_free l r pid : 0 ∉ l -> forall pre n, (length l < n)%nat ->
  add_proc (pre ++ l ++ 0 :: r) pid (length pre) n = Ok (pre ++ l ++ pid :: r).
Proof.
  induction l as [|x l IH]; intros H0 pre n Hn; (destruct n as [|n]; [cbn in Hn; lia|]); cbn [add_proc app].
  - rewrite (rd_some _ _ 0) by by rewrite lookup_app_r, Nat.sub_diag by lia. cbn [mbind outcome_bind Z.eqb].
    rewrite wr_lt by (rewrite length_app; cbn; lia). by rewrite insert_app_r_alt, Nat.sub_diag by lia.
  - rewrite (rd_some _ _ x) by by rewrite lookup_app_r, Nat.sub_diag by lia. cbn [mbind outcome_bind].
    rewrite (proj2 (Z.eqb_neq x 0)) by (intros ->; apply H0; by left).
    specialize (IH ltac:(intros H; apply H0; by right) (pre ++ [x]) n ltac:(cbn in Hn; lia)).
    rewrite length_app, <- !app_assoc in IH. cbn [length app] in IH. by rewrite Nat.add_1_r in IH.
Qed.

(** The registrations of processes, one after the other; their partitions. *)
Fixpoint register_all (n : nat) (ps : list Z) (l : list Z) (count : Z) : outcome (list Z * list Z) :=
  match ps with
  | [] => mret (l, [])
  | p :: ps' =>
      '(l, part, count) ← register_proc n p l count;
      '(l, parts) ← register_all n ps' l count;
      mret (l, part :: parts)
  end.

Lemma register_all_ok n ps : forall qs, NoDup (qs ++ ps) -> 0 ∉ qs ++ ps -> (length (qs ++ ps) <= n)%nat ->
  register_all n ps (qs ++ replicate (n - length qs) 0) (Z.of_nat (length qs)) =
    Ok ((qs ++ ps) ++ replicate (n - length (qs ++ ps)) 0, map Z.of_nat (seq (length qs) (length ps))).
Proof.
  induction ps as [|p ps IH]; intros qs Hnd H0 Hlen; cbn [register_all length seq map].
  { by rewrite app_nil_r. }
  rewrite length_app in Hlen. cbn [length] in Hlen. unfold register_proc.
  assert (in_list (qs ++ replicate (n - length qs) 0) p n = false) as ->.
  { apply not_true_iff_false. intros E. apply existsb_exists in E as (x & Hx & Ex). apply Z.eqb_eq in Ex as ->.
    apply list_elem_of_In, elem_of_take in Hx as (i & Hx & _). apply list_elem_of_lookup_2, elem_of_app in Hx as [Hx|Hx].
    - apply NoDup_app in Hnd as (_ & Hd & _). apply (Hd p Hx). by left.
    - apply elem_of_replicate in Hx as [-> _]. apply H0, elem_of_app. right. by left. }
  replace (n - length qs)%nat with (S (n - length (qs ++ [p])))%nat by (rewrite length_app; cbn [length]; lia).
  cbn [replicate]. pose proof (add_proc_free qs (replicate (n - length (qs ++ [p])) 0) p) as Hadd.
  specialize (Hadd ltac:(set_solver) [] n ltac:(lia)). cbn [app length] in Hadd. rewrite Hadd. cbn [mbind outcome_bind].
  rewrite (proj2 (Z.leb_le _ _)) by lia. cbn [check mbind outcome_bind mret outcome_ret].
  replace (qs ++ p :: replicate (n - length (qs ++ [p])) 0) with ((qs ++ [p]) ++ replicate (n - length (qs ++ [p])) 0) by by rewrite <- app_assoc.
  specialize (IH (qs ++ [p])). rewrite <- app_assoc in IH. cbn [app] in IH.
  replace (Z.of_nat (length qs) + 1) with (Z.of_nat (length (qs ++ [p]))) by (rewrite length_app; cbn [length]; lia).
  rewrite IH; [|done|done|rewrite length_app; cbn [length]; lia]. cbn [mbind outcome_bind mret outcome_ret].
  by rewrite (length_app qs [p]), Nat.add_1_r.
Qed.

(** ** From the tables to the accesses *)

(** The fields [zinfo] has after a remap, which also sets [firstPhase]. *)
Definition with_tables (t : Tables) (z : ZInfo) : ZInfo :=
  mkZ (llc_skews z) (ftmEnable z) (ftmTypeFlag z) true (noSharing z) (scatterCache z)
    (perm_rxp z) (perm_rwp z) (perm_rp z) (perm_rwxp z) (numCores z)
    (pp_idx t) (pp_info t) (sl_idx t) (sl_addr t) (randFuel z).

Lemma sharable_with t z p : sharable (with_tables t z) p = sharable z p.
Proof. done. Qed.

Lemma process_map_found t z pids cs fc m : procs_ok (numCores z) t pids -> map_at t (f_pid fc) m -> f_pid fc <> 0 ->
  process_map (mkSys cs (with_tables t z)) fc = Ok m.
Proof.
  intros P (i & Hi & Hm) H0. assert (pids !! i = Some (f_pid fc)) as Hpi.
  { rewrite (po_idx _ _ _ P) in Hi. apply lookup_app_Some in Hi as [Hi|[_ Hi]]; [done|].
    apply lookup_replicate in Hi as [? _]. done. }
  unfold process_map. cbn [zinfo perProcessInfo_idx perProcessInfo_info with_tables numCores].
  rewrite (find_process_spec _ _ _ _ _ P Hpi) by (apply lookup_lt_Some in Hm; rewrite (po_info _ _ _ P) in Hm; lia).
  cbn [mbind outcome_bind]. by apply rd_some.
Qed.

(** What the rest of the model relies on the file for: the regions of a file
    that are sharable are of mapped files (with a name of two characters or
    more), and lie within 4 GB above the first region of their name. *)
Record layout_ok (z : ZInfo) (lines : list string) (ps : list ProcMapInfo) : Prop := {
  lay_named l p : l ∈ lines -> region_of_line l = Ok p -> sharable z p = true ->
    exists s e s2 name, parse_line l = Ok (s, e, s2, name, true) /\ 1 < Z.of_nat (String.length name);
  lay_span p : p ∈ ps -> sharable z p = true ->
    0 <= base_of ps (pm_name p) <= start_range p /\ end_range p <= base_of ps (pm_name p) + 2 ^ 32 /\ end_range p <= max64
}.

Lemma region_of_line_name l p s e s2 name flag : region_of_line l = Ok p -> parse_line l = Ok (s, e, s2, name, flag) ->
  create_ul name = Ok (pm_name p).
Proof.
  unfold region_of_line. intros H E. rewrite E in H. cbn [mbind outcome_bind] in H.
  destruct (create_ul s2) as [k2|]; [|done]. cbn [mbind outcome_bind] in H.
  destruct (create_ul name) as [k|] eqn:Ek; [|done]. cbn [mbind outcome_bind mret outcome_ret] in H.
  injection H as <-. by repeat case_match.
Qed.

Lemma base_of_app m r nm p : p ∈ m -> pm_name p = nm -> base_of (m ++ r) nm = base_of m nm.
Proof.
  intros Hp Hn. induction m as [|q m IH]; [by apply not_elem_of_nil in Hp|]. cbn [app base_of].
  destruct (Z.eqb_spec (pm_name q) nm) as [|Hne]; [done|]. apply elem_of_cons in Hp as [-> | Hp]; [done|]. by apply IH.
Qed.

Lemma full_map_sharable z ps p : p ∈ full_map ps -> sharable z p = true -> p ∈ ps.
Proof. unfold full_map. intros Hp Hs. apply elem_of_app in Hp as [|Hp]; [done|]. by apply elem_of_replicate in Hp as [-> _]. Qed.

Lemma remap_tables_ok t z pids ks lines ps : procs_ok (numCores z) t pids -> libs_ok t ks ->
  Forall2 (fun l p => region_of_line l = Ok p) lines ps -> (length lines < 1000)%nat ->
  (forall l, l ∈ lines -> registered ks l) -> layout_ok z lines ps -> tables_ok (with_tables t z) (full_map ps).
Proof.
  intros P L HF Hlen HR [Hnamed Hspan]. pose proof (lo_room _ _ L) as Hroom. constructor.
  - unfold full_map. rewrite length_app, length_replicate. apply Forall2_length in HF. lia.
  - cbn [sharedLibInfo_idx with_tables]. rewrite (lo_idx _ _ L), length_app, length_replicate. lia.
  - cbn [sharedLibInfo_libAddr with_tables]. rewrite (lo_addr _ _ L), length_app, length_replicate, length_map, length_seq. lia.
  - intros p Hp Hs. rewrite sharable_with in Hs. apply (full_map_sharable z) in Hp as Hp'; [|done].
    apply list_elem_of_lookup in Hp' as [i Hi]. destruct (Forall2_lookup_r _ _ _ _ _ HF Hi) as (l & Hl & El).
    apply list_elem_of_lookup_2 in Hl. destruct (Hnamed l p Hl El Hs) as (s & e & s2 & nm & Ep & Hln).
    apply (libs_base_some t ks); [done|]. apply (HR l Hl s e s2 nm); [done|done|]. by eapply region_of_line_name.
  - intros p Hp Hs. rewrite sharable_with in Hs. apply (full_map_sharable z) in Hp as Hp'; [|done].
    unfold full_map. rewrite (base_of_app _ _ _ p) by done. by apply Hspan.
Qed.
