(* ===== verification/Memory.v ===== *)
(** * Memory controllers (src/src/mem_ctrls.h, src/src/mem_ctrls.cpp)

    [SimpleMemory] (fixed latency) and [MD1Memory] (latency from an M/D/1 queue,
    in double precision: the IEEE operations are the Standard Library's
    [SpecFloat] at binary64), and the contract of the [MemCtrl] interface that
    the coherence proofs use; both controllers meet it. *)

From stdpp Require Import functions.
From S2P Require Import Prelude Floats MemHier World.
Local Open Scope Z_scope.

(** What an access leaves in [*req.state]. *)
Definition mem_state (req : MemReq) : MESIState :=
  match type req with
  | PUTS | PUTX => stI
  | GETS => if req_is req NOEXCL then stS else stE
  | GETX => stM
  end.

Definition mc_maxLat : Z := 2 ^ 32.

(** The contract: total while the cycle counter does not overflow, answers no
    earlier than asked and within [mc_maxLat], grants the MESI state above. *)
Class MemCtrlLaws (M : Type) `{MemCtrl M} := {
  mc_wf : M -> Prop;
  mc_access_ok m req : mc_wf m -> 0 <= cycle req -> cycle req + mc_maxLat < max64 ->
    exists r m', mem_access m req = Ok (r, mem_state req, m') /\ mc_wf m' /\
      cycle req <= r <= cycle req + mc_maxLat
}.

(** ** SimpleMemory *)

Module SimpleMemory.

Record t := mk { latency : Z }.

Definition access (m : t) (req : MemReq) : outcome (Z * MESIState * t) :=
  let respCycle := cycle req +64 latency m in
  _ ← check (cycle req <? respCycle);
  mret (respCycle, mem_state req, m).

#[global] Instance ctrl : MemCtrl t := { mem_access := access }.

Definition wf (m : t) : Prop := 0 < latency m < max32.

#[global, refine] Instance laws : MemCtrlLaws t := { mc_wf := wf }.
Proof.
  intros m req [Hl Hl'] Hc Hb. unfold mc_maxLat in *. rewrite max32_eq in Hl'.
  cbn [mem_access ctrl]. unfold access. rewrite u64_small by lia.
  rewrite (proj2 (Z.ltb_lt _ _)) by lia. exists (cycle req + latency m), m.
  split; [done|]. split; [split; [lia|by rewrite max32_eq]|lia].
Defined.

End SimpleMemory.

(** ** MD1Memory *)

Module MD1Memory.

Inductive Prof := profReads | profWrites | profTotalRdLat | profTotalWrLat | profLoad | profUpdates | profClampedLoads.

#[global] Instance Prof_eq_dec : EqDecision Prof.
Proof. solve_decision. Defined.

(** [numPhases] and [phaseLength] are zinfo's, as read by [access]. *)
Record t := mk {
  lastPhase : Z; maxRequestsPerCycle : spec_float; smoothedPhaseAccesses : spec_float;
  zeroLoadLatency : Z; curLatency : Z; curPhaseAccesses : Z; prof : Prof -> Z;
  numPhases : Z; phaseLength : Z
}.

Definition make (requestSize megacyclesPerSecond megabytesPerSecond zeroLoadLatency numPhases phaseLength : Z)
    : outcome t :=
  let bytesPerCycle := f64_div (f64_of_Z megabytesPerSecond) (f64_of_Z megacyclesPerSecond) in
  let maxRequestsPerCycle := f64_div bytesPerCycle (f64_of_Z requestSize) in
  _ ← check (f64_ltb (f64_of_Z 0) maxRequestsPerCycle);
  mret (mk 0 maxRequestsPerCycle (f64_of_Z 0) zeroLoadLatency zeroLoadLatency 0 (fun _ => 0) numPhases phaseLength).

Definition inc (p : Prof -> Z) (c : Prof) (x : Z) : Prof -> Z := <[c := p c +64 x]> p.

Definition updateLatency (m : t) : t :=
  let phaseCycles := u32 (u64 (numPhases m - lastPhase m) * phaseLength m) in
  if phaseCycles <? 10000 then m else
  let smoothed := f64_add (f64_mul (f64_of_Z (curPhaseAccesses m)) f64_half)
                          (f64_mul (smoothedPhaseAccesses m) f64_half) in
  let requestsPerCycle := f64_div smoothed (f64_of_Z phaseCycles) in
  let load := f64_div requestsPerCycle (maxRequestsPerCycle m) in
  let clamp := f64_ltb f64_0_95 load in
  let load := if clamp then f64_0_95 else load in
  let p := if clamp then inc (prof m) profClampedLoads 1 else prof m in
  let latMultiplier := f64_add f64_one (f64_div (f64_mul f64_half load) (f64_sub f64_one load)) in
  let curLatency := u32 (f64_trunc (f64_mul latMultiplier (f64_of_Z (zeroLoadLatency m)))) in
  let intLoad := u32 (f64_trunc (f64_mul load (f64_of_Z 100))) in
  let p := inc (inc p profLoad intLoad) profUpdates 1 in
  mk (numPhases m) (maxRequestsPerCycle m) smoothed (zeroLoadLatency m) curLatency 0 p
     (numPhases m) (phaseLength m).

(** Count an access of the given kinds. *)
Definition count (m : t) (c clat : Prof) : t :=
  mk (lastPhase m) (maxRequestsPerCycle m) (smoothedPhaseAccesses m) (zeroLoadLatency m) (curLatency m)
     (curPhaseAccesses m +32 1) (inc (inc (prof m) c 1) clat (curLatency m)) (numPhases m) (phaseLength m).

Definition access (m : t) (req : MemReq) : outcome (Z * MESIState * t) :=
  let m := if lastPhase m <? numPhases m then updateLatency m else m in
  let m' := match type req with
            | PUTX => count m profWrites profTotalWrLat
            | PUTS => m
            | GETS | GETX => count m profReads profTotalRdLat
            end in
  mret (cycle req +64 (if bool_decide (type req = PUTS) then 0 else curLatency m), mem_state req, m').

#[global] Instance ctrl : MemCtrl t := { mem_access := access }.

Definition wf (m : t) : Prop := word 32 (curLatency m).

Lemma updateLatency_wf m : wf m -> wf (updateLatency m).
Proof. unfold wf, updateLatency. intros Hm. case_match; [done|]. cbn. apply wrap_bound. lia. Qed.

#[global, refine] Instance laws : MemCtrlLaws t := { mc_wf := wf }.
Proof.
  intros m req Hm Hc Hb. cbn [mem_access ctrl]. unfold access. unfold mc_maxLat in *.
  set (m1 := if lastPhase m <? numPhases m then updateLatency m else m).
  assert (wf m1) as Hm1 by (unfold m1; case_match; [by apply updateLatency_wf|done]).
  destruct Hm1 as [Hl0 Hl1]. eexists _, _. split; [done|]. split.
  - destruct (type req); split; done.
  - case_bool_decide; rewrite u64_small by lia; lia.
Defined.

(** At 95% load and above the latency is just under 10.5 times the unloaded one. *)
Example clamped_latency :
  match make 64 2000 64000 100 1 10000 with
  | Ok m => curLatency (updateLatency (mk 0 (maxRequestsPerCycle m) (f64_of_Z 0) 100 100 20000 (prof m) 1 10000))
  | Fault _ => 0
  end = 1049.
Proof. vm_compute. reflexivity. Qed.

End MD1Memory.
