(* ===== verification/TwoLevel.v ===== *)
(** * Coherence of a two-level hierarchy

    [N] terminal caches (the cores' L1s, filter caches or not) over one shared
    inclusive [MESICC] cache over [K] memory controllers: the configuration in
    which init.cpp builds an L1/LLC system, with any cache arrays meeting
    [CacheArrayLaws] and any controllers meeting [MemCtrlLaws].

    The invariant says that the directory is exact, that a modified or exclusive
    copy is the only one, and that the shared cache is inclusive; an access by a
    core, run by the definitions of Cache and Coherence with all their
    assertions, lock operations and panics, returns and keeps it. *)

From S2P Require Import Prelude TimingEvent MemHier MTRand ReplPolicies CacheArrays World Coherence Cache Memory.
Local Open Scope Z_scope.

(** ** Configuration *)

Record leaf_conf (N c : nat) (cf : CacheConf) : Prop := {
  lc_terminal : terminal cf = true;
  lc_isL2 : isL2 cf = false;
  lc_parents : parents cf = [RCache N];
  lc_rtt : exists r, parentRTTs cf = [r];
  lc_self : selfId cf = c;
  lc_acc : word 32 (accLat cf);
  lc_inv : word 32 (invLat cf)
}.

Record root_conf (N K : nat) (cf : CacheConf) : Prop := {
  rc_terminal : terminal cf = false;
  rc_inclusive : nonInclusiveHack cf = false;
  rc_isL2 : isL2 cf = false;
  rc_filter : fconf cf = None;
  rc_parents : parents cf = map RMem (seq 0 K);
  rc_K : (0 < K)%nat;
  rc_rtt : length (parentRTTs cf) = K;
  rc_children : children cf = seq 0 N;
  rc_crtt : length (childrenRTTs cf) = N;
  rc_crtt_word : Forall (word 32) (childrenRTTs cf);
  rc_acc : word 32 (accLat cf)
}.

Record two_level (sys : Sys) (N K : nat) (leaf : nat -> CacheConf) (root : CacheConf) : Prop := {
  tl_leaf c : (c < N)%nat -> confs sys !! c = Some (leaf c) /\ leaf_conf N c (leaf c);
  tl_root : confs sys !! N = Some root /\ root_conf N K root;
  tl_skews : llc_skews (zinfo sys) <> 0;
  tl_children : (N <= MAX_CACHE_CHILDREN)%nat
}.

Existing Class two_level.

Section two_level.
Context {A M : Type} {CA : CacheArray A} {CL : CacheArrayLaws A} {RA : RefreshArray A} {MC : MemCtrl M} {ML : MemCtrlLaws M}.
Context {sys : Sys} {N K : nat} {leaf : nat -> CacheConf} {root : CacheConf} {TL : two_level sys N K leaf root}.

Notation W := (World A M).
Notation CS := (CacheState A).

(** ** Framing *)

(** The parts of a cache the invariant is about. *)
Definition kupd (k k' : CS) (b : list MESIState) (t : list TopEntry) (a : A) : Prop :=
  bcc k' = b /\ tcc k' = t /\ arr k' = a /\ length (filterArray k') = length (filterArray k).

Definition mems_ok (w : W) : Prop := forall m, (m < K)%nat -> exists x, mems w !! m = Some x /\ mc_wf x.

(** Everything but caches and memories is as before; memories are still good. *)
Definition env (w w' : W) : Prop :=
  locks w' = locks w /\ eventRecorders w' = eventRecorders w /\ (mems_ok w -> mems_ok w').

Lemma env_refl w : env w w.
Proof. by split. Qed.

Lemma env_trans w1 w2 w3 : env w1 w2 -> env w2 w3 -> env w1 w3.
Proof. intros (L1 & R1 & M1) (L2 & R2 & M2). split; [congruence|]. split; [congruence|auto]. Qed.

Lemma env_caches w x : env w (set_caches w x).
Proof. by split. Qed.

Lemma conf_leaf c : (c < N)%nat -> confs sys !! c = Some (leaf c).
Proof. intros Hc. apply (tl_leaf _ _ _ _ _ TL c Hc). Qed.

Lemma leaf_ok c : (c < N)%nat -> leaf_conf N c (leaf c).
Proof. intros Hc. apply (tl_leaf _ _ _ _ _ TL c Hc). Qed.

Lemma conf_root : confs sys !! N = Some root.
Proof. apply (tl_root _ _ _ _ _ TL). Qed.

Lemma root_ok : root_conf N K root.
Proof. apply (tl_root _ _ _ _ _ TL). Qed.

Lemma wp_conf c cf (w : W) (Q : CacheConf -> W -> Prop) :
  confs sys !! c = Some cf -> Q cf w -> wp (conf sys c) w Q.
Proof. intros Hc HQ. by eapply wp_lift; [apply rd_some|]. Qed.

Lemma start_bank_ok b : exists s, start_bank sys b = Ok s.
Proof. unfold start_bank. rewrite (proj2 (Z.eqb_neq _ _)) by apply (tl_skews _ _ _ _ _ TL). by eexists. Qed.

(** ** Memory *)

Lemma getParentId_ok cf x : parents cf <> [] -> exists p, getParentId cf x = Ok p /\ (p < length (parents cf))%nat.
Proof.
  unfold getParentId. destruct (length (parents cf)) as [|n] eqn:E; [by destruct (parents cf)|].
  intros _. eexists. split; [done|]. match goal with |- context [?x mod ?y] => pose proof (Z.mod_pos_bound x y ltac:(lia)) end. lia.
Qed.

Lemma root_parent x : exists p, getParentId root x = Ok p /\ (p < K)%nat /\
  parents root !! p = Some (RMem p) /\ exists r, parentRTTs root !! p = Some r.
Proof.
  pose proof root_ok as R. destruct (getParentId_ok root x) as (p & Hp & Hlt).
  { rewrite (rc_parents _ _ _ R). pose proof (rc_K _ _ _ R). by destruct K; [lia|]. }
  rewrite (rc_parents _ _ _ R), length_map, length_seq in Hlt. exists p. split; [done|]. split; [done|]. split.
  - rewrite (rc_parents _ _ _ R). rewrite list_lookup_fmap, lookup_seq_lt by done. done.
  - apply lookup_lt_is_Some_2. by rewrite (rc_rtt _ _ _ R).
Qed.

(** A memory access on behalf of line [j] of the shared cache. *)
Lemma wp_memory f m req j (w : W) k :
  (m < K)%nat -> mems_ok w -> 0 <= cycle req -> cycle req + mc_maxLat < max64 ->
  state req = LineState N j -> caches w !! N = Some k -> (j < length (bcc k))%nat ->
  wp (access_any sys (S f) false (RMem m) req) w (fun r w' => cycle req <= r <= cycle req + mc_maxLat /\
    exists k', caches w' = <[N := k']> (caches w) /\
      kupd k k' (<[j := mem_state req]> (bcc k)) (tcc k) (arr k) /\ env w w').
Proof.
  intros Hm Hmem Hc0 Hc1 Hst Hk Hj. destruct (Hmem m Hm) as (x & Hx & Hwf).
  destruct (mc_access_ok x req Hwf Hc0 Hc1) as (r & x' & Hacc & Hwf' & Hr).
  cbn [access_any]. unfold memory_access. apply wp_bind, wp_get, wp_bind.
  eapply wp_lift; [by apply rd_some|]. apply wp_bind. eapply wp_lift; [done|]. cbv beta iota.
  apply wp_bind. unfold put, wp at 1. apply wp_bind. rewrite Hst. cbn [state_put].
  eapply wp_zoom; [done|]. apply wp_bcc_put; [done|]. apply wp_ret. split; [done|].
  eexists. split; [done|]. split; [by repeat split|]. split; [done|]. split; [done|].
  intros _ m' Hm'. cbn [mems set_mems set_caches]. destruct (decide (m = m')) as [<-|Hne].
  - exists x'. split; [|done]. apply list_lookup_insert_eq. apply lookup_lt_is_Some_1. by rewrite Hx.
  - rewrite list_lookup_insert_ne by done. by apply Hmem.
Qed.

(** ** Shared-cache requests to memory *)

Notation P f := (mkUpper (access_any sys f false) (access_any sys f true) checkSkew).

Lemma wp_put_up f req j (w : W) k :
  mems_ok w -> 0 <= cycle req -> cycle req + mc_maxLat < max64 ->
  state req = LineState N j -> caches w !! N = Some k -> (j < length (bcc k))%nat ->
  wp (put_up sys (P (S f)) root req) w (fun r w' => cycle req <= r <= cycle req + mc_maxLat /\
    exists k', caches w' = <[N := k']> (caches w) /\
      kupd k k' (<[j := mem_state req]> (bcc k)) (tcc k) (arr k) /\ env w w').
Proof.
  intros Hmem Hc0 Hc1 Hst Hk Hj. destruct (root_parent (lineAddr req)) as (p & Hp & HpK & Hpar & _).
  destruct (start_bank_ok p) as [s Hs]. unfold put_up.
  apply wp_bind. eapply wp_lift; [done|]. apply wp_bind. eapply wp_lift; [done|].
  rewrite (rc_isL2 _ _ _ root_ok). apply wp_bind. eapply wp_lift; [by apply rd_some|].
  by apply wp_memory.
Qed.

Definition u32lat : Z := 2 ^ 32.

Lemma wp_get_up f req j (w : W) k :
  mems_ok w -> 0 <= cycle req -> cycle req + 2 * mc_maxLat < max64 ->
  state req = LineState N j -> caches w !! N = Some k -> (j < length (bcc k))%nat ->
  wp (get_up sys (P (S f)) N root req) w (fun r w' => cycle req <= r <= cycle req + u32lat /\
    exists k', caches w' = <[N := k']> (caches w) /\
      kupd k k' (<[j := mem_state req]> (bcc k)) (tcc k) (arr k) /\ env w w').
Proof.
  intros Hmem Hc0 Hc1 Hst Hk Hj. destruct (root_parent (lineAddr req)) as (p & Hp & HpK & Hpar & rtt & Hrtt).
  destruct (start_bank_ok p) as [s Hs]. unfold get_up.
  apply wp_bind. eapply wp_lift; [done|]. apply wp_bind. eapply wp_lift; [done|].
  rewrite (rc_isL2 _ _ _ root_ok). apply wp_bind, wp_bind. eapply wp_lift; [by apply rd_some|].
  apply wp_bind. eapply wp_mono; [apply (wp_memory f p req j w k); try done; unfold mc_maxLat in *; lia|].
  intros r w' (Hr & k' & Hw' & Hk' & Henv). apply wp_ret, wp_bind. eapply wp_lift; [by apply rd_some|].
  assert (caches w' !! N = Some k') as Hk2.
  { rewrite Hw'. apply list_lookup_insert_eq. apply lookup_lt_is_Some_1. by rewrite Hk. }
  apply wp_bind. eapply wp_zoom; [done|]. apply wp_prof. apply wp_bind. eapply wp_zoom.
  { cbn [caches set_caches]. apply list_lookup_insert_eq. apply lookup_lt_is_Some_1. by rewrite Hk2. }
  apply wp_prof, wp_ret. split.
  - unfold mc_maxLat, u32lat in *.
    pose proof (wrap_bound 32 (u32 (r - cycle req) + rtt) ltac:(lia)).
    rewrite u64_small by (rewrite max64_eq in *; lia). lia.
  - cbn [caches set_caches]. rewrite Hw'. eexists. split; [by rewrite !list_insert_insert_eq|].
    split; [|exact Henv]. destruct Hk' as (E1 & E2 & E3 & E4). by repeat split.
Qed.

(** ** The invariant *)

(** Cache [k] holds address [x] in the (valid) state [st]. *)
Definition holds (k : CS) (x : Z) (st : MESIState) : Prop :=
  exists i, ca_tag (arr k) i = Some x /\ bcc k !! i = Some st /\ st <> stI.

Definition filter_ok (cf : CacheConf) (k : CS) : Prop :=
  forall fc x, fconf cf = Some fc -> word 64 x ->
    (Z.to_nat (u32 (Z.land x (setMask fc))) < length (filterArray k))%nat.

(** In either phase of a replacement. *)
Record cache_wf (k : CS) : Prop := {
  cw_arr : exists p, ca_wf p (arr k);
  cw_len : length (bcc k) = ca_lines (arr k);
  cw_word i x : ca_tag (arr k) i = Some x -> word 64 x;
  cw_zero i : ca_tag (arr k) i = Some 0 -> bcc k !! i = Some stI
}.

(** Agreement of a directory entry [e] for address [x], whose line in the
    shared cache is in state [s], with the leaves' states. *)
Record dir_ok (w : W) (x : Z) (e : TopEntry) (s : MESIState) : Prop := {
  do_sharers c : c ∈ sharers e <-> (c < N)%nat /\ exists k st, caches w !! c = Some k /\ holds k x st;
  do_num : numSharers e = Z.of_nat (size (sharers e));
  do_invalid : s = stI -> sharers e = ∅;
  do_excl : entry_isExclusive e = true -> s = stE \/ s = stM;
  do_excl1 : exclusive e = true -> numSharers e <= 1;
  do_states c k st : (c < N)%nat -> caches w !! c = Some k -> holds k x st ->
    if entry_isExclusive e then st = stE \/ st = stM else st = stS
}.

Record Inv (w : W) : Prop := {
  inv_mems : mems_ok w;
  inv_recs i r : eventRecorders w !! i = Some (Some r) -> tr r = None;
  inv_leaf c : (c < N)%nat -> exists k, caches w !! c = Some k /\ cache_wf k /\ filter_ok (leaf c) k;
  inv_root : exists kN, caches w !! N = Some kN /\ cache_wf kN /\ length (tcc kN) = ca_lines (arr kN) /\
    (forall j x e s, ca_tag (arr kN) j = Some x -> tcc kN !! j = Some e -> bcc kN !! j = Some s -> dir_ok w x e s) /\
    (forall c k x st, (c < N)%nat -> caches w !! c = Some k -> holds k x st ->
       exists s, holds kN x s)
}.

Lemma tag_lines k i : cache_wf k -> is_Some (ca_tag (arr k) i) <-> (i < length (bcc k))%nat.
Proof. intros Hk. destruct (cw_arr _ Hk) as [p Hp]. rewrite (cw_len _ Hk). by apply (ca_tag_lines p). Qed.

Lemma tag_unique k i j x : cache_wf k -> x <> 0 -> ca_tag (arr k) i = Some x -> ca_tag (arr k) j = Some x -> i = j.
Proof. intros Hk. destruct (cw_arr _ Hk) as [p Hp]. by apply (ca_unique p). Qed.

Lemma cache_wf_bcc k i x : cache_wf k -> ca_tag (arr k) i = Some x -> exists s, bcc k !! i = Some s.
Proof. intros Hk Ht. apply lookup_lt_is_Some_2. apply tag_lines; [done|by eexists]. Qed.

Lemma holds_nonzero k x st : cache_wf k -> holds k x st -> x <> 0.
Proof. intros Hk (i & Ht & Hb & Hs) ->. rewrite (cw_zero _ Hk i Ht) in Hb. congruence. Qed.

(** The line that holds an address is unique. *)
Lemma holds_at k x st i : cache_wf k -> holds k x st -> ca_tag (arr k) i = Some x -> bcc k !! i = Some st.
Proof.
  intros Hk Hh Ht. pose proof (holds_nonzero _ _ _ Hk Hh) as Hx. destruct Hh as (j & Ht' & Hb & _).
  by rewrite (tag_unique k i j x Hk Hx Ht Ht').
Qed.

Lemma holds_fun k x st st' : cache_wf k -> holds k x st -> holds k x st' -> st = st'.
Proof.
  intros Hk H1 H2. pose proof H2 as (i & Ht & Hb & _). pose proof (holds_at k x st i Hk H1 Ht). congruence.
Qed.

(** Only the tags and states matter. *)
Lemma holds_ext k k' x st : arr k' = arr k -> bcc k' = bcc k -> holds k' x st <-> holds k x st.
Proof. unfold holds. intros -> ->. done. Qed.

(** Writing the state of one line. *)
Lemma cache_wf_put k k' i x s t : cache_wf k -> kupd k k' (<[i := s]> (bcc k)) t (arr k) ->
  ca_tag (arr k) i = Some x -> (x <> 0 \/ s = stI) -> cache_wf k'.
Proof.
  intros Hk (Eb & _ & Ea & _) Hi Hx. constructor; rewrite ?Ea, ?Eb.
  - apply Hk.
  - rewrite length_insert. apply Hk.
  - apply Hk.
  - intros j Hj. destruct (decide (i = j)) as [<-|Hne].
    + rewrite list_lookup_insert_eq; [destruct Hx as [Hx| ->]; congruence|].
      apply tag_lines; [done|by eexists].
    + rewrite list_lookup_insert_ne by done. by apply Hk.
Qed.

Lemma holds_put k k' i x s t y st : cache_wf k -> kupd k k' (<[i := s]> (bcc k)) t (arr k) ->
  ca_tag (arr k) i = Some x -> x <> 0 ->
  holds k' y st <-> (y = x /\ st = s /\ s <> stI) \/ (y <> x /\ holds k y st).
Proof.
  intros Hk (Eb & _ & Ea & _) Hi Hx. unfold holds. rewrite Ea, Eb.
  assert (i < length (bcc k))%nat as Hlt.
  { apply tag_lines; [done|by eexists]. }
  split.
  - intros (j & Hj & Hb & Hs). destruct (decide (i = j)) as [<-|Hne].
    + rewrite list_lookup_insert_eq in Hb by done. left. split; [congruence|]. split; congruence.
    + rewrite list_lookup_insert_ne in Hb by done. right. split; [|by exists j].
      intros ->. apply Hne. by apply (tag_unique k i j x).
  - intros [(-> & -> & Hs)|(Hne & j & Hj & Hb & Hs)].
    + exists i. by rewrite list_lookup_insert_eq.
    + exists j. rewrite list_lookup_insert_ne; [done|]. intros <-. congruence.
Qed.

(** ** Invalidation of a leaf *)

Definition inval_state (t : InvType) : MESIState := if t is INV then stI else stS.

Lemma wp_leaf_processInval k i s t wb (Q : bool -> CS -> Prop) :
  bcc k !! i = Some s -> s <> stI -> t <> FWD -> (t = INVX -> s = stE \/ s = stM) ->
  (forall k', kupd k k' (<[i := inval_state t]> (bcc k)) (tcc k) (arr k) ->
     Q (wb || bool_decide (s = stM)) k') ->
  wp (bcc_processInval i t wb) k Q.
Proof.
  intros Hi Hs Ht Hx HQ. assert (i < length (bcc k))%nat by (apply lookup_lt_is_Some_1; by rewrite Hi).
  unfold bcc_processInval. apply wp_bind. eapply wp_bcc_get; [done|]. apply wp_bind, wp_assert.
  { by rewrite bool_decide_eq_false_2. }
  destruct t; [| |done].
  - apply wp_bind. apply wp_bcc_put; [done|]. apply wp_bind, wp_prof, wp_ret, HQ. by repeat split.
  - apply wp_bind, wp_assert; [by destruct (Hx eq_refl) as [-> | ->]|].
    apply wp_bind. apply wp_bcc_put; [done|]. apply wp_bind, wp_prof, wp_ret, HQ. by repeat split.
Qed.

Lemma wp_invalidate f c x t cyc src wb (w : W) k i s :
  (c < N)%nat -> caches w !! c = Some k -> cache_wf k -> filter_ok (leaf c) k -> x <> 0 ->
  ca_tag (arr k) i = Some x -> bcc k !! i = Some s -> s <> stI -> t <> FWD ->
  (t = INVX -> s = stE \/ s = stM) -> LBcc c ∉ locks w -> LFilter c ∉ locks w ->
  wp (invalidate sys (S f) c (mkInv x t cyc src) wb) w (fun r w' =>
    r = (cyc +64 invLat (leaf c), wb || bool_decide (s = stM)) /\
    exists k', caches w' = <[c := k']> (caches w) /\
      kupd k k' (<[i := inval_state t]> (bcc k)) (tcc k) (arr k) /\ env w w').
Proof.
  intros Hc Hk Hwf Hfil Hx Hti Hsi Hs Ht Hinvx Hlb Hlf. pose proof (conf_leaf c Hc) as Hcf.
  pose proof (leaf_ok c Hc) as Hleaf.
  assert (forall L (w0 : W) k0, caches w0 = <[c := k0]> (caches w) -> kupd k k0 (bcc k) (tcc k) (arr k) ->
    wp (finishInvalidate sys L c (mkInv x t cyc src) wb) w0 (fun r w' =>
      r = (cyc +64 invLat (leaf c), wb || bool_decide (s = stM)) /\
      exists k', caches w' = <[c := k']> (caches w) /\
        kupd k k' (<[i := inval_state t]> (bcc k)) (tcc k) (arr k) /\
        locks w' = locks w0 ∖ {[LBcc c]} /\ eventRecorders w' = eventRecorders w0 /\ mems w' = mems w0)) as Hfin.
  { intros L w0 k0 Hw0 (Eb & Et & Ea & Ef). assert (caches w0 !! c = Some k0) as Hk0.
    { rewrite Hw0. apply list_lookup_insert_eq, lookup_lt_is_Some_1. by rewrite Hk. }
    unfold finishInvalidate. apply wp_bind. eapply wp_conf; [done|]. apply wp_bind. eapply wp_zoom; [done|].
    destruct (cw_arr _ Hwf) as [p Hp].
    destruct (ca_lookup_hit p (arr k) x None i) as (a' & Hl & _ & _ & _ & Ha');
      [done|by eapply cw_word|done|done|]. rewrite (Ha' eq_refl) in Hl.
    eapply wp_arr_do; [rewrite Ea; exact Hl|]. cbn [i_lineAddr i_type i_cycle i_srcId].
    unfold processInv. apply wp_bind. eapply wp_conf; [done|]. rewrite (lc_terminal _ _ _ Hleaf).
    apply wp_bind, wp_ret. cbv beta iota. apply wp_bind. eapply wp_zoom.
    { cbn [caches set_caches]. apply list_lookup_insert_eq, lookup_lt_is_Some_1. by rewrite Hk0. }
    eapply wp_leaf_processInval; [by rewrite <- Hsi, <- Eb|done|done|done|].
    intros k2 (Eb2 & Et2 & Ea2 & Ef2). apply wp_bind, wp_unlock, wp_ret. split; [done|].
    exists k2. cbn [caches set_caches set_locks locks eventRecorders mems].
    split; [by rewrite Hw0, !list_insert_insert_eq|]. split; [|done].
    cbn [bcc set_arr tcc arr filterArray i_type] in *. rewrite Eb in Eb2. repeat split; congruence. }
  cbn [invalidate]. unfold cache_invalidate. apply wp_bind. eapply wp_conf; [done|].
  unfold startInv. apply wp_bind, wp_lock; [done|].
  destruct (fconf (leaf c)) as [fc|] eqn:Efc.
  - apply wp_bind, wp_lock; [cbn [locks set_locks]; set_solver|].
    apply wp_bind. eapply wp_zoom; [done|]. unfold filter_invalidate. apply wp_bind, wp_get, wp_bind.
    assert (Z.to_nat (u32 (Z.land x (setMask fc))) < length (filterArray k))%nat as Hlt
      by (apply Hfil; [done|by eapply cw_word]).
    destruct (lookup_lt_is_Some_2 _ _ Hlt) as [fe Hfe]. eapply wp_lift; [by apply rd_some|].
    set (wl := set_locks _ _).
    assert (forall k0 : CS, kupd k k0 (bcc k) (tcc k) (arr k) ->
      wp (r ← finishInvalidate sys (mkLower (invalidate sys f) (fun _ _ => throw OutOfFuel)) c (mkInv x t cyc src) wb;
          _ ← futex_unlock (LFilter c); mret r) (set_caches wl (<[c:=k0]> (caches wl)))
        (fun r w' => r = (cyc +64 invLat (leaf c), wb || bool_decide (s = stM)) /\
          exists k', caches w' = <[c := k']> (caches w) /\
            kupd k k' (<[i := inval_state t]> (bcc k)) (tcc k) (arr k) /\ env w w')) as Hrest.
    { intros k0 Hk0. apply wp_bind. eapply wp_mono; [by eapply Hfin|].
      intros r w' (-> & k' & Hw' & Hk' & Hl' & Hr' & Hm'). apply wp_bind, wp_unlock, wp_ret. split; [done|].
      exists k'. split; [done|]. split; [done|]. split; [|split; [done|]].
      - cbn [locks set_locks]. rewrite Hl'. cbn [wl locks set_locks set_caches]. set_solver.
      - intros Hm m Hlt'. cbn [mems set_locks]. rewrite Hm'. by apply Hm. }
    apply wp_when; intros _; [|by apply Hrest]. apply Hrest. repeat split. cbn [filterArray set_filterArray].
    by rewrite length_insert.
  - eapply wp_mono; [apply (Hfin _ _ k); [|by repeat split]|].
    { cbn [caches set_locks]. by rewrite list_insert_id. }
    intros r w' (-> & k' & Hw' & Hk' & Hl' & Hr' & Hm'). split; [done|]. exists k'. split; [done|]. split; [done|].
    split; [|split; [done|]].
    + rewrite Hl'. cbn [locks set_locks]. set_solver.
    + intros Hm m Hlt'. rewrite Hm'. by apply Hm.
Qed.

(** ** Invalidations sent by the shared cache *)

Notation L f := (lower sys f).

Definition inv_line (x : Z) (t : InvType) (k k' : CS) : Prop :=
  exists i s, ca_tag (arr k) i = Some x /\ bcc k !! i = Some s /\ s <> stI /\
    kupd k k' (<[i := inval_state t]> (bcc k)) (tcc k) (arr k).

(** The leaves of [S] have had [x] invalidated (or downgraded), the others are
    as they were. *)
Definition leaves_inv (x : Z) (t : InvType) (S : gset nat) (w w' : W) : Prop :=
  forall c, c <> N ->
    (c ∈ S -> exists k k', caches w !! c = Some k /\ caches w' !! c = Some k' /\ inv_line x t k k') /\
    (c ∉ S -> caches w' !! c = caches w !! c).

(** A leaf that may be sent [t] for [x]. *)
Definition inv_target (x : Z) (t : InvType) (w : W) (c : nat) : Prop :=
  (c < N)%nat /\ LBcc c ∉ locks w /\ LFilter c ∉ locks w /\
  exists k s, caches w !! c = Some k /\ cache_wf k /\ filter_ok (leaf c) k /\ holds k x s /\
    (t = INVX -> s = stE \/ s = stM).

Definition from (e : TopEntry) (j n : nat) : gset nat := sharers e ∩ set_seq j n.

Lemma from_S e j n : (j ∈ sharers e -> from e j (S n) = {[j]} ∪ from e (S j) n) /\
  (j ∉ sharers e -> from e j (S n) = from e (S j) n).
Proof.
  unfold from. split; intros Hj; apply set_eq; intros c.
  - rewrite elem_of_union, !elem_of_intersection, elem_of_singleton, !elem_of_set_seq.
    destruct (decide (c = j)) as [->|]; intuition lia.
  - rewrite !elem_of_intersection, !elem_of_set_seq. destruct (decide (c = j)) as [->|]; intuition lia.
Qed.

Lemma from_size_S e j n : j ∈ sharers e -> size (from e j (S n)) = S (size (from e (S j) n)).
Proof.
  intros Hj. rewrite (proj1 (from_S e j n)) by done. rewrite size_union, size_singleton; [done|].
  intros c ->%elem_of_singleton Hs. unfold from in Hs. apply elem_of_intersection in Hs as [_ Hs]. apply elem_of_set_seq in Hs. lia.
Qed.

Definition loop_entry (t : InvType) (e : TopEntry) (j n : nat) : TopEntry :=
  if t is INV then mkEntry (numSharers e) (sharers e ∖ from e j n) (owners e) (exclusive e) else e.

Lemma wp_upd_entry c l g (w : W) k e e' (Q : unit -> W -> Prop) :
  caches w !! c = Some k -> tcc k !! l = Some e -> g e = Ok e' ->
  (forall k', kupd k k' (bcc k) (<[l := e']> (tcc k)) (arr k) -> Q tt (set_caches w (<[c := k']> (caches w)))) ->
  wp (upd_entry c l g) w Q.
Proof.
  intros Hk He Hg HQ. eapply wp_zoom; [done|]. apply wp_bind. eapply wp_tcc_get; [done|].
  apply wp_bind. eapply wp_lift; [done|]. apply wp_tcc_put; [by apply lookup_lt_is_Some_1; rewrite He|].
  apply HQ. by repeat split.
Qed.

Lemma wp_zoom_tcc_get c l (w : W) k e (Q : TopEntry -> W -> Prop) :
  caches w !! c = Some k -> tcc k !! l = Some e -> Q e w -> wp (zoom c (tcc_get l)) w Q.
Proof.
  intros Hk He HQ. eapply wp_zoom; [done|]. eapply wp_tcc_get; [done|]. rewrite list_insert_id by done.
  by destruct w.
Qed.

Lemma wp_zoom_bcc_get c i (w : W) k s (Q : MESIState -> W -> Prop) :
  caches w !! c = Some k -> bcc k !! i = Some s -> Q s w -> wp (zoom c (bcc_get i)) w Q.
Proof.
  intros Hk He HQ. eapply wp_zoom; [done|]. eapply wp_bcc_get; [done|]. rewrite list_insert_id by done.
  by destruct w.
Qed.

Lemma wp_zoom_bcc_put c i s (w : W) k (Q : unit -> W -> Prop) :
  caches w !! c = Some k -> (i < length (bcc k))%nat ->
  (forall k', kupd k k' (<[i := s]> (bcc k)) (tcc k) (arr k) -> Q tt (set_caches w (<[c := k']> (caches w)))) ->
  wp (zoom c (bcc_put i s)) w Q.
Proof. intros Hk Hi HQ. eapply wp_zoom; [done|]. apply wp_bcc_put; [done|]. apply HQ. by repeat split. Qed.

Lemma wp_zoom_prof c x n (w : W) k (Q : unit -> W -> Prop) :
  caches w !! c = Some k ->
  (forall k', kupd k k' (bcc k) (tcc k) (arr k) -> Q tt (set_caches w (<[c := k']> (caches w)))) ->
  wp (zoom c (prof_inc x n)) w Q.
Proof. intros Hk HQ. eapply wp_zoom; [done|]. apply wp_prof, HQ. by repeat split. Qed.

Lemma kupd_refl k : kupd k k (bcc k) (tcc k) (arr k).
Proof. by repeat split. Qed.

Lemma set_sharer_ok e j v : (j < N)%nat -> set_sharer e j v =
  Ok (mkEntry (numSharers e) (if v then {[j]} ∪ sharers e else sharers e ∖ {[j]}) (owners e) (exclusive e)).
Proof.
  intros Hj. pose proof (tl_children _ _ _ _ _ TL). unfold set_sharer, bit_wr.
  by rewrite bool_decide_eq_true_2 by lia.
Qed.

Lemma bit_rd_ok b j : (j < N)%nat -> bit_rd b j = Ok (bool_decide (j ∈ b)).
Proof.
  intros Hj. pose proof (tl_children _ _ _ _ _ TL). unfold bit_rd. by rewrite bool_decide_eq_true_2 by lia.
Qed.

Lemma caches_set (w w' : W) c k : is_Some (caches w !! c) -> caches w' = <[c := k]> (caches w) ->
  caches w' !! c = Some k.
Proof. intros [k0 Hk0] ->. apply list_lookup_insert_eq, lookup_lt_is_Some_1. by rewrite Hk0. Qed.

Lemma caches_ne (w w' : W) c d k : caches w' = <[c := k]> (caches w) -> c <> d ->
  caches w' !! d = caches w !! d.
Proof. intros -> Hne. by rewrite list_lookup_insert_ne. Qed.

Lemma kupd_trans k1 k2 k3 b1 t1 a1 b2 t2 a2 : kupd k1 k2 b1 t1 a1 -> kupd k2 k3 b2 t2 a2 -> kupd k1 k3 b2 t2 a2.
Proof. intros (_ & _ & _ & E) (E1 & E2 & E3 & E4). repeat split; try done. congruence. Qed.

Lemma loop_entry_skip t e j n : j ∉ sharers e -> loop_entry t e j (S n) = loop_entry t e (S j) n.
Proof. intros Hj. unfold loop_entry. by rewrite (proj2 (from_S e j n) Hj). Qed.

(** Result of the invalidation loop over children [j], ..., [j + n - 1]. *)
Definition loop_post (x : Z) (t : InvType) (l j n : nat) (e : TopEntry) (kN : CS)
    (maxCycle cyc : Z) (wb : bool) (sent : Z) (w : W) (r : Z * bool * Z) (w' : W) : Prop :=
  let '(mc, wb', sent') := r in
  (exists kN', caches w' !! N = Some kN' /\
     kupd kN kN' (bcc kN) (<[l := loop_entry t e j n]> (tcc kN)) (arr kN)) /\
  leaves_inv x t (from e j n) w w' /\ env w w' /\
  sent' = sent + Z.of_nat (size (from e j n)) /\
  maxCycle <= mc <= Z.max maxCycle (cyc + 2 * u32lat) /\
  (wb' = true -> wb = true \/ exists c k, c ∈ from e j n /\ caches w !! c = Some k /\ holds k x stM).

Lemma wp_inval_loop f x t cyc src l n : forall j (w : W) kN e maxCycle wb sent,
  (j + n = N)%nat -> x <> 0 -> t <> FWD -> caches w !! N = Some kN -> tcc kN !! l = Some e ->
  (forall c, c ∈ from e j n -> inv_target x t w c) ->
  0 <= cyc -> cyc + 2 * u32lat < max64 -> 0 <= maxCycle -> 0 <= sent -> sent + Z.of_nat n < u32lat ->
  wp (inval_loop (L (S f)) N (childrenRTTs root) (mkInv x t cyc src) l j (seq j n) maxCycle wb sent) w
    (loop_post x t l j n e kN maxCycle cyc wb sent w).
Proof.
  induction n as [|n IH]; intros j w kN e maxCycle wb sent Hj Hx Ht HkN He Htgt Hc0 Hc1 Hm0 Hs0 Hs1;
    cbn [seq inval_loop].
  { apply wp_ret. unfold loop_post. assert (from e j 0 = ∅) as Ef by (unfold from; set_solver).
    rewrite Ef, size_empty. split; [|split; [|split; [apply env_refl|split; [lia|split; [lia|by left]]]]].
    - exists kN. split; [done|]. assert (loop_entry t e j 0 = e) as ->.
      { unfold loop_entry. rewrite Ef. destruct t; [|done|done]. destruct e as [a b o d]. cbn. f_equal. set_solver. }
      rewrite list_insert_id by done. apply kupd_refl.
    - intros c Hc. split; [set_solver|done]. }
  apply wp_bind. eapply wp_zoom_tcc_get; [done..|]. apply wp_bind. eapply wp_lift; [apply bit_rd_ok; lia|].
  destruct (decide (j ∈ sharers e)) as [Hin|Hout];
    [rewrite bool_decide_eq_true_2 by done|rewrite bool_decide_eq_false_2 by done].
  2: { eapply wp_mono; [apply (IH (S j) w kN e); try done; try lia|].
       - intros c Hc. apply Htgt. by rewrite (proj2 (from_S e j n) Hout).
       - intros [[mc wb'] sent'] w'. unfold loop_post. by rewrite loop_entry_skip, (proj2 (from_S e j n) Hout). }
  pose proof (from_size_S e j n Hin) as Hsz. pose proof (proj1 (from_S e j n) Hin) as Hfs.
  destruct (Htgt j) as (HjN & Hlb & Hlf & k & s & Hk & Hwf & Hfil & (i & Hti & Hsi & Hsne) & Hxs).
  { rewrite Hfs. set_solver. }
  apply wp_bind. eapply wp_mono; [by eapply (wp_invalidate f j x t cyc src wb w k i s)|].
  intros [r wb1] w1 ([= -> ->] & k' & Hw1 & Hk' & Henv1). cbv beta iota.
  assert (exists rtt, childrenRTTs root !! j = Some rtt /\ word 32 rtt) as (rtt & Hrtt & Hword).
  { pose proof root_ok as R. destruct (lookup_lt_is_Some_2 (childrenRTTs root) j) as [rtt Hr].
    - by rewrite (rc_crtt _ _ _ R).
    - exists rtt. split; [done|]. by eapply Forall_lookup_1; [apply (rc_crtt_word _ _ _ R)|]. }
  apply wp_bind. eapply wp_lift; [by apply rd_some|]. cbn [i_type].
  assert (caches w1 !! N = Some kN) as HkN1 by (rewrite (caches_ne w w1 j N k') by (done || lia); done).
  (* the entry after this child *)
  set (e1 := if t is INV then mkEntry (numSharers e) (sharers e ∖ {[j]}) (owners e) (exclusive e) else e).
  assert (from e1 (S j) n = from e (S j) n) as Hf1.
  { unfold e1, from. destruct t; [|done|done]. cbn [sharers]. apply set_eq. intros c.
    rewrite !elem_of_intersection, !elem_of_difference, elem_of_singleton, !elem_of_set_seq. intuition lia. }
  assert (loop_entry t e1 (S j) n = loop_entry t e j (S n)) as Hle.
  { unfold loop_entry. rewrite Hf1, Hfs. unfold e1. destruct t; [|done|done]. cbn. f_equal. set_solver. }
  assert (forall w2, (exists kN2, caches w2 = <[N := kN2]> (caches w1) /\
      kupd kN kN2 (bcc kN) (<[l := e1]> (tcc kN)) (arr kN)) \/ (w2 = w1 /\ e1 = e) -> env w1 w2 ->
    wp (inval_loop (L (S f)) N (childrenRTTs root) (mkInv x t cyc src) l (S j) (seq (S j) n)
         (Z.max ((cyc +64 invLat (leaf j)) +64 rtt) maxCycle) (wb || bool_decide (s = stM)) (sent +32 1)) w2
      (loop_post x t l j (S n) e kN maxCycle cyc wb sent w)) as Hnext.
  { intros w2 Hw2 Henv2.
    assert (exists kN2, caches w2 !! N = Some kN2 /\ kupd kN kN2 (bcc kN) (<[l := e1]> (tcc kN)) (arr kN) /\
      forall c, c <> N -> caches w2 !! c = caches w1 !! c) as (kN2 & HkN2 & HkN2u & Hoth).
    { destruct Hw2 as [(kN2 & E & Hu)|[-> E]].
      - exists kN2. split; [by eapply caches_set; [rewrite HkN1|]|]. split; [done|]. intros c Hc. by eapply caches_ne.
      - exists kN. split; [done|]. split; [|done]. rewrite E, list_insert_id by done. apply kupd_refl. }
    assert (env w w2) as Henv by by eapply env_trans.
    assert (word 32 (invLat (leaf j))) as [Hl0 Hl1] by apply (leaf_ok j HjN). destruct Hword as [Hr0 Hr1].
    unfold u32lat in *. rewrite (u64_small (cyc + invLat (leaf j))), u64_small, u32_small
      by (rewrite ?max64_eq, ?max32_eq in *; lia).
    assert (tcc kN2 !! l = Some e1) as He1.
    { destruct HkN2u as (_ & -> & _). apply list_lookup_insert_eq, lookup_lt_is_Some_1. by rewrite He. }
    eapply wp_mono; [apply (IH (S j) w2 kN2 e1); try done; try lia|].
    - intros c. rewrite Hf1. intros Hc. destruct (Htgt c) as (HcN & Hb & Hfl & kc & sc & Hkc & Hrest).
      { rewrite Hfs. set_solver. }
      destruct Henv as (El & _). assert (c <> j) as Hcj.
      { unfold from in Hc. apply elem_of_intersection in Hc as [_ Hc]. apply elem_of_set_seq in Hc. lia. }
      split; [done|]. rewrite El. split; [done|]. split; [done|]. exists kc, sc.
      rewrite Hoth by lia. rewrite (caches_ne w w1 j c k') by (done || lia). done.
    - intros [[mc wb'] sent'] w'. unfold loop_post. rewrite Hf1, Hle, Hfs.
      intros ((kN' & HkN' & Hku) & Hleaves & Henv' & -> & Hmc & Hwb). split; [|split; [|split; [|split; [|split]]]].
      + exists kN'. split; [done|]. destruct HkN2u as (E1 & E2 & E3 & E4). destruct Hku as (F1 & F2 & F3 & F4).
        rewrite E2, list_insert_insert_eq in F2. repeat split; congruence.
      + intros c Hc. destruct (Hleaves c Hc) as [Hl2 Hl3]. split.
        * intros [->%elem_of_singleton|Hin']%elem_of_union.
          -- exists k, k'. split; [done|]. split; [|by exists i, s].
             rewrite Hl3; [rewrite Hoth by done; eapply caches_set; [by rewrite Hk|done]|].
             unfold from. rewrite elem_of_intersection, elem_of_set_seq. lia.
          -- destruct (Hl2 Hin') as (kc & kc' & Hkc & Hrest). exists kc, kc'. split; [|done].
             rewrite <- Hkc, Hoth by done. symmetry. apply (caches_ne w w1 j c k'); [done|].
             unfold from in Hin'. rewrite elem_of_intersection, elem_of_set_seq in Hin'. lia.
        * intros Hn. rewrite Hl3 by set_solver. rewrite Hoth by done.
          apply (caches_ne w w1 j c k'); [done|]. set_solver.
      + by eapply env_trans.
      + rewrite <- Hfs, Hsz. lia.
      + unfold u32lat in *. lia.
      + intros Hw. destruct (Hwb Hw) as [Hw1'|(c & kc & Hc & Hkc & Hh)].
        * apply orb_true_iff in Hw1' as [->|Hm%bool_decide_eq_true_1]; [by left|]. right. exists j, k.
          subst s. split; [set_solver|]. split; [done|]. by exists i.
        * right. exists c, kc. split; [set_solver|]. split; [|done]. rewrite <- Hkc.
          unfold from in Hc. rewrite elem_of_intersection, elem_of_set_seq in Hc.
          rewrite Hoth by lia. symmetry. apply (caches_ne w w1 j c k'); [done|lia]. }
  apply wp_bind, wp_when; intros Ht'.
  - apply bool_decide_eq_true_1 in Ht'. subst t. eapply wp_upd_entry; [done|done|apply set_sharer_ok; lia|].
    intros kN2 Hu. apply Hnext; [|apply env_caches]. left. by exists kN2.
  - apply bool_decide_eq_false_1 in Ht'. apply Hnext; [|apply env_refl]. right. split; [done|]. unfold e1. by destruct t.
Qed.

(** The entry after [sendInvalidates], and the children it reaches. *)
Definition send_entry (t : InvType) (e : TopEntry) : TopEntry :=
  if t is INV then mkEntry 0 ∅ (owners e) (exclusive e)
  else if entry_isExclusive e then set_excl e false else e.

Definition send_set (t : InvType) (e : TopEntry) : gset nat :=
  if t is INV then sharers e else if entry_isExclusive e then sharers e else ∅.

Definition send_post (x : Z) (t : InvType) (l : nat) (e : TopEntry) (kN : CS) (cyc : Z) (wb : bool)
    (w : W) (r : Z * bool) (w' : W) : Prop :=
  (exists kN', caches w' !! N = Some kN' /\ kupd kN kN' (bcc kN) (<[l := send_entry t e]> (tcc kN)) (arr kN)) /\
  leaves_inv x t (send_set t e) w w' /\ env w w' /\
  cyc <= r.1 <= cyc + 2 * u32lat /\
  (r.2 = true -> wb = true \/ exists c k, c ∈ send_set t e /\ caches w !! c = Some k /\ holds k x stM).

Lemma leaves_inv_refl x t w : leaves_inv x t ∅ w w.
Proof. intros c _. split; [set_solver|done]. Qed.

Lemma send_post_same x t l e kN cyc wb (w : W) :
  caches w !! N = Some kN -> tcc kN !! l = Some e -> send_entry t e = e -> send_set t e = ∅ -> 0 <= cyc ->
  send_post x t l e kN cyc wb w (cyc, wb) w.
Proof.
  intros HkN He Ee Es Hc. unfold send_post. rewrite Ee, Es. split; [|split; [apply leaves_inv_refl|split; [apply env_refl|]]].
  - exists kN. split; [done|]. rewrite list_insert_id by done. apply kupd_refl.
  - unfold u32lat. cbn. split; [lia|by left].
Qed.

Lemma from_all e : (forall c, c ∈ sharers e -> (c < N)%nat) -> from e 0 N = sharers e.
Proof.
  intros Hs. apply set_eq. intros c. unfold from. rewrite elem_of_intersection, elem_of_set_seq.
  split; [by intros []|]. intros Hc. specialize (Hs c Hc). split; [done|lia].
Qed.

Lemma size_sharers e : (forall c, c ∈ sharers e -> (c < N)%nat) -> (size (sharers e) <= N)%nat.
Proof.
  intros Hs. rewrite <- (size_set_seq (C := gset nat) 0 N). apply subseteq_size. intros c Hc.
  apply elem_of_set_seq. specialize (Hs c Hc). lia.
Qed.

Lemma wp_send f x t cyc src l (w : W) kN e wb :
  (sharers e <> ∅ -> x <> 0) -> t <> FWD -> caches w !! N = Some kN -> tcc kN !! l = Some e ->
  numSharers e = Z.of_nat (size (sharers e)) ->
  (forall c, c ∈ sharers e -> (c < N)%nat) ->
  (forall c, c ∈ send_set t e -> inv_target x t w c) ->
  0 <= cyc -> cyc + 2 * u32lat < max64 ->
  wp (sendInvalidates sys (L (S f)) N x l t wb cyc src) w (send_post x t l e kN cyc wb w).
Proof.
  intros Hx Ht HkN He Hnum HN Htgt Hc0 Hc1. unfold sendInvalidates.
  apply wp_bind. eapply wp_conf; [apply conf_root|]. apply wp_bind. eapply wp_zoom_tcc_get; [done..|].
  destruct (bool_decide (t = INVX) && negb (entry_isExclusive e)) eqn:Eskip.
  { apply andb_true_iff in Eskip as [->%bool_decide_eq_true_1 Ene%negb_true_iff]. apply wp_ret.
    by apply send_post_same; unfold send_entry, send_set; rewrite ?Ene. }
  destruct (entry_isEmpty e) eqn:Eempty.
  { apply wp_ret. unfold entry_isEmpty in Eempty. apply Z.eqb_eq in Eempty.
    assert (sharers e = ∅) as Es by (apply leibniz_equiv, size_empty_inv; lia).
    assert (entry_isExclusive e = false) as Ex by (unfold entry_isExclusive; rewrite Eempty; done).
    apply send_post_same; try done; unfold send_entry, send_set; rewrite ?Ex; destruct t; try done.
    destruct e; cbn in *. by subst. }
  assert (send_set t e = sharers e) as Eset.
  { unfold send_set. destruct t; [done| |done]. by destruct (entry_isExclusive e). }
  assert (x <> 0) as Hx'.
  { apply Hx. intros Es. unfold entry_isEmpty in Eempty. rewrite Hnum, Es, size_empty in Eempty. done. }
  rewrite Eset in Htgt. pose proof (size_sharers e HN) as Hsize. pose proof (tl_children _ _ _ _ _ TL) as H256.
  unfold MAX_CACHE_CHILDREN in H256.
  apply wp_bind. rewrite (rc_children _ _ _ root_ok).
  eapply wp_mono; [apply (wp_inval_loop f x t cyc src l N 0 w kN e cyc wb 0); try done; try lia|].
  { rewrite (from_all e HN). exact Htgt. } { unfold u32lat. lia. }
  intros [[mc wb'] sent] w1. unfold loop_post. rewrite (from_all e HN).
  intros ((kN1 & HkN1 & Hu1) & Hleaves & Henv & -> & Hmc & Hwb). cbv beta iota.
  pose proof Hu1 as (_ & Et1 & _). set (e1 := loop_entry t e 0 N) in *.
  assert (tcc kN1 !! l = Some e1) as He1.
  { rewrite Et1. apply list_lookup_insert_eq, lookup_lt_is_Some_1. by rewrite He. }
  assert (numSharers e1 = numSharers e) as En by (unfold e1, loop_entry; by destruct t).
  apply wp_bind. eapply wp_zoom_tcc_get; [done..|]. apply wp_bind, wp_assert; [rewrite En; lia|].
  assert (forall e2 kN2, e2 = send_entry t e -> kupd kN1 kN2 (bcc kN1) (<[l := e2]> (tcc kN1)) (arr kN1) ->
    send_post x t l e kN cyc wb w (mc, wb') (set_caches w1 (<[N := kN2]> (caches w1)))) as Hfinal.
  { intros e2 kN2 -> Hu2. unfold send_post. rewrite Eset. split; [|split; [|split; [|split]]].
    - exists kN2. split; [by eapply (caches_set w1); [rewrite HkN1|]|].
      destruct Hu1 as (E1 & E2 & E3 & E4), Hu2 as (F1 & F2 & F3 & F4). rewrite E2, list_insert_insert_eq in F2.
      repeat split; congruence.
    - intros c Hc. destruct (Hleaves c Hc) as [Ha Hb]. cbn [caches set_caches].
      rewrite list_lookup_insert_ne by done. by split.
    - eapply env_trans; [done|apply env_caches].
    - cbn. unfold u32lat in *. lia.
    - exact Hwb. }
  destruct t; [| |done].
  - apply wp_bind. eapply wp_upd_entry; [done|done|done|]. intros kN2 Hu2. apply wp_ret.
    eapply Hfinal; [|done]. unfold e1, loop_entry, send_entry, set_num. cbn. rewrite (from_all e HN). f_equal. set_solver.
  - cbn [bool_decide] in *. destruct (entry_isExclusive e) eqn:Ex; [|done].
    unfold entry_isExclusive in Ex. apply andb_true_iff in Ex as [Ex1 Ex2].
    apply wp_bind, wp_bind, wp_assert; [exact Ex2|]. apply wp_bind, wp_assert; [exact Ex1|].
    eapply wp_upd_entry; [done|done|done|]. intros kN2 Hu2. apply wp_ret. eapply Hfinal; [|done].
    unfold send_entry, entry_isExclusive. by rewrite Ex1, Ex2.
Qed.

(** ** Re-establishing the invariant *)

(** Leaf [k] becomes [k'], at most the line of [y] having changed state. *)
Definition leaf_step (y : Z) (k k' : CS) : Prop :=
  kupd k k' (bcc k) (tcc k) (arr k) \/
  exists i s, ca_tag (arr k) i = Some y /\ y <> 0 /\ kupd k k' (<[i := s]> (bcc k)) (tcc k) (arr k).

Definition leaves_step (y : Z) (w w' : W) : Prop := forall c k, (c < N)%nat -> caches w !! c = Some k ->
  exists k', caches w' !! c = Some k' /\ leaf_step y k k'.

Lemma leaf_step_wf y k k' : cache_wf k -> leaf_step y k k' -> cache_wf k'.
Proof.
  intros Hk [(Eb & Et & Ea & Ef)|(i & s & Ht & Hy & Hu)].
  - constructor; rewrite ?Eb, ?Ea; apply Hk.
  - eapply cache_wf_put; [done|done|done|by left].
Qed.

Lemma leaf_step_holds y k k' x st : cache_wf k -> leaf_step y k k' -> x <> y -> holds k' x st <-> holds k x st.
Proof.
  intros Hk [(Eb & Et & Ea & Ef)|(i & s & Ht & Hy & Hu)] Hx; [by apply holds_ext|].
  rewrite (holds_put k k' i y s _ x st Hk Hu Ht Hy). intuition.
Qed.

Lemma leaf_step_frame y k k' : leaf_step y k k' -> arr k' = arr k /\ tcc k' = tcc k /\
  length (filterArray k') = length (filterArray k) /\
  (forall j, ca_tag (arr k) j <> Some y -> bcc k' !! j = bcc k !! j).
Proof.
  intros [(Eb & Et & Ea & Ef)|(i & s & Ht & Hy & (Eb & Et & Ea & Ef))]; repeat (split; [done|]); intros j Hj.
  - by rewrite Eb.
  - rewrite Eb, list_lookup_insert_ne; [done|]. intros ->. done.
Qed.

Lemma leaf_step_trans y k1 k2 k3 : cache_wf k1 -> leaf_step y k1 k2 -> leaf_step y k2 k3 -> leaf_step y k1 k3.
Proof.
  intros Hwf [(Eb & Et & Ea & Ef)|(i & s & Ht & Hy & (Eb & Et & Ea & Ef))]
    [(Eb' & Et' & Ea' & Ef')|(i' & s' & Ht' & Hy' & (Eb' & Et' & Ea' & Ef'))].
  - left. repeat split; congruence.
  - right. exists i', s'. rewrite Ea, Eb in *. repeat split; congruence.
  - right. exists i, s. rewrite Ea, Eb in *. repeat split; congruence.
  - right. exists i, s'. rewrite Ea in *. assert (i' = i) as ->.
    { by apply (tag_unique k1 i' i y). }
    split; [done|]. split; [done|]. rewrite Eb, list_insert_insert_eq in Eb'. repeat split; congruence.
Qed.

Lemma dir_ok_ext (w w' : W) x e s :
  (forall c st, (c < N)%nat -> (exists k, caches w' !! c = Some k /\ holds k x st) <->
                               (exists k, caches w !! c = Some k /\ holds k x st)) ->
  dir_ok w x e s -> dir_ok w' x e s.
Proof.
  intros Hx D. constructor; try apply D.
  - intros c. rewrite (do_sharers _ _ _ _ D). split; intros [Hc (k & st & Hk & Hh)]; split; try done.
    + destruct (proj2 (Hx c st Hc)) as (k' & Hk' & Hh'); [by exists k|]. by exists k', st.
    + destruct (proj1 (Hx c st Hc)) as (k' & Hk' & Hh'); [by exists k|]. by exists k', st.
  - intros c k st Hc Hk Hh. destruct (proj1 (Hx c st Hc)) as (k' & Hk' & Hh'); [by exists k|].
    by apply (do_states _ _ _ _ D c k').
Qed.

Lemma leaves_step_holds y (w w' : W) c x st : Inv w -> leaves_step y w w' -> (c < N)%nat -> x <> y ->
  (exists k, caches w' !! c = Some k /\ holds k x st) <-> (exists k, caches w !! c = Some k /\ holds k x st).
Proof.
  intros I Hl Hc Hx. destruct (inv_leaf _ I c Hc) as (k & Hk & Hwf & _).
  destruct (Hl c k Hc Hk) as (k' & Hk' & Hs). pose proof (leaf_step_holds y k k' x st Hwf Hs Hx) as E.
  split; intros (k1 & Hk1 & Hh).
  - exists k. split; [done|]. apply E. congruence.
  - exists k'. split; [done|]. apply E. congruence.
Qed.

(** Only line [l] of the shared cache and the leaves' lines of its address [y]
    have changed: the invariant is that of [l]'s entry. *)
Lemma Inv_line (w w' : W) kN kN' l y e' s' :
  Inv w -> caches w !! N = Some kN -> ca_tag (arr kN) l = Some y -> caches w' !! N = Some kN' ->
  kupd kN kN' (<[l := s']> (bcc kN)) (<[l := e']> (tcc kN)) (arr kN) ->
  leaves_step y w w' -> env w w' -> (y = 0 -> s' = stI) -> dir_ok w' y e' s' -> Inv w'.
Proof.
  intros I HkN Hl HkN' Hu Hls (El & Er & Em) Hy0 D.
  destruct (inv_root _ I) as (kN0 & HkN0 & Hwf & Hlen & Hdir & Hincl). assert (kN0 = kN) as -> by congruence.
  pose proof Hu as (Eb & Et & Ea & Ef).
  assert (cache_wf kN') as Hwf'.
  { eapply cache_wf_put; [done|done|done|]. destruct (decide (y = 0)); [right; auto|by left]. }
  assert (l < length (bcc kN))%nat as Hlt.
  { apply tag_lines; [done|by eexists]. }
  constructor.
  - apply Em, I.
  - rewrite Er. apply I.
  - intros c Hc. destruct (inv_leaf _ I c Hc) as (k & Hk & Hkwf & Hf).
    destruct (Hls c k Hc Hk) as (k' & Hk' & Hs). exists k'. split; [done|]. split; [by eapply leaf_step_wf|].
    intros fc x Hfc Hx. destruct (leaf_step_frame _ _ _ Hs) as (_ & _ & -> & _). by apply Hf.
  - exists kN'. split; [done|]. split; [done|]. rewrite Et, Ea, length_insert. split; [done|]. split.
    + intros j x e s Hj He Hs. rewrite Eb in Hs. destruct (decide (l = j)) as [<-|Hne].
      * rewrite list_lookup_insert_eq in Hs by done.
        rewrite list_lookup_insert_eq in He by (rewrite Hlen, <- (cw_len _ Hwf); done).
        injection He as <-. injection Hs as <-. assert (x = y) as -> by congruence. done.
      * rewrite list_lookup_insert_ne in Hs by done. rewrite list_lookup_insert_ne in He by done. pose proof (Hdir j x e s Hj He Hs) as D0.
        destruct (decide (x = y)) as [->|Hxy].
        -- assert (y = 0) as ->. { destruct (decide (y = 0)) as [|Hy]; [done|]. exfalso. apply Hne.
             by apply (tag_unique kN l j y). }
           eapply dir_ok_ext; [|exact D0]. intros c st Hc. destruct (inv_leaf _ I c Hc) as (k & Hk & Hkwf & _).
           destruct (Hls c k Hc Hk) as (k' & Hk' & Hst). pose proof (leaf_step_wf _ _ _ Hkwf Hst) as Hkwf'.
           split; intros (k1 & Hk1 & Hh); exfalso; [eapply (holds_nonzero k1)|eapply (holds_nonzero k1)];
             try done; congruence.
        -- eapply dir_ok_ext; [|exact D0]. intros c st Hc. by eapply leaves_step_holds.
    + intros c k x st Hc Hk Hh. destruct (decide (x = y)) as [->|Hxy].
      * assert (s' <> stI) as Hs'.
        { intros Hs'. pose proof (do_invalid _ _ _ _ D Hs') as E. assert (c ∈ sharers e') as Hin; [|set_solver].
          apply (do_sharers _ _ _ _ D). split; [done|]. by exists k, st. }
        exists s'. exists l. rewrite Ea, Eb, list_lookup_insert_eq by done. done.
      * destruct (proj1 (leaves_step_holds y w w' c x st I Hls Hc Hxy)) as (k0 & Hk0 & Hh0); [by exists k|].
        destruct (Hincl c k0 x st Hc Hk0 Hh0) as (s & j & Hj & Hsj & Hsne). exists s, j.
        rewrite Ea, Eb. split; [done|]. rewrite list_lookup_insert_ne; [done|]. intros ->. congruence.
Qed.

(** ** Eviction from the shared cache *)

Definition leaves_free (w : W) : Prop := forall c, (c < N)%nat -> LBcc c ∉ locks w /\ LFilter c ∉ locks w.

Lemma inv_targets (w : W) x e s t c : Inv w -> dir_ok w x e s -> leaves_free w ->
  c ∈ send_set t e -> t <> FWD -> inv_target x t w c.
Proof.
  intros I D Hfree Hc Ht. assert (c ∈ sharers e) as Hin.
  { unfold send_set in Hc. destruct t; [done| |done]. by destruct (entry_isExclusive e). }
  destruct (proj1 (do_sharers _ _ _ _ D c) Hin) as (HcN & k & st & Hk & Hh).
  destruct (Hfree c HcN) as [Hb Hf]. destruct (inv_leaf _ I c HcN) as (k0 & Hk0 & Hwf & Hfil).
  assert (k0 = k) as -> by congruence. split; [done|]. split; [done|]. split; [done|]. exists k, st.
  repeat (split; [done|]). intros ->. unfold send_set in Hc. pose proof (do_states _ _ _ _ D c k st HcN Hk Hh) as Hst.
  destruct (entry_isExclusive e); [done|set_solver].
Qed.

Lemma sharers_lt (w : W) x e s c : dir_ok w x e s -> c ∈ sharers e -> (c < N)%nat.
Proof. intros D Hc. by apply (do_sharers _ _ _ _ D) in Hc as [? _]. Qed.

Lemma sharers_nonzero (w : W) x e s : Inv w -> dir_ok w x e s -> sharers e <> ∅ -> x <> 0.
Proof.
  intros I D Hne. apply set_choose_L in Hne as [c Hc].
  destruct (proj1 (do_sharers _ _ _ _ D c) Hc) as (HcN & k & st & Hk & Hh).
  destruct (inv_leaf _ I c HcN) as (k0 & Hk0 & Hwf & _). assert (k0 = k) as -> by congruence.
  by eapply holds_nonzero.
Qed.

Lemma inv_line_step x t k k' : x <> 0 -> inv_line x t k k' -> leaf_step x k k'.
Proof. intros Hx (i & s & Ht & _ & _ & Hu). right. by exists i, (inval_state t). Qed.

Lemma leaves_inv_step x t S (w w' : W) : (S <> ∅ -> x <> 0) -> leaves_inv x t S w w' -> leaves_step x w w'.
Proof.
  intros Hx Hl c k Hc Hk. destruct (Hl c ltac:(lia)) as [H1 H2]. destruct (decide (c ∈ S)) as [Hin|Hout].
  - destruct (H1 Hin) as (k0 & k' & Hk0 & Hk' & Hi). exists k'. split; [done|]. assert (k0 = k) as -> by congruence.
    eapply inv_line_step; [|done]. apply Hx. set_solver.
  - exists k. split; [by rewrite H2|]. left. apply kupd_refl.
Qed.

(** After an INV no leaf holds the address; after a downgrade, its only holder is in S. *)
Lemma leaves_inv_none x e s (w w' : W) c k st : Inv w -> dir_ok w x e s ->
  leaves_inv x INV (sharers e) w w' -> (c < N)%nat -> caches w' !! c = Some k -> ~ holds k x st.
Proof.
  intros I D Hl Hc Hk Hh. destruct (Hl c ltac:(lia)) as [H1 H2]. destruct (decide (c ∈ sharers e)) as [Hin|Hout].
  - pose proof (sharers_nonzero w x e s I D ltac:(set_solver)) as Hx.
    destruct (H1 Hin) as (k0 & k' & Hk0 & Hk' & i & s0 & Hti & Hsi & Hs0 & Hu). assert (k' = k) as -> by congruence.
    destruct (inv_leaf _ I c Hc) as (k1 & Hk1 & Hwf & _). assert (k1 = k0) as -> by congruence.
    apply (holds_put k0 k i x _ _ x st Hwf Hu Hti Hx) in Hh as [(_ & _ & Hne)|[Hne _]]; done.
  - apply Hout, (do_sharers _ _ _ _ D). split; [done|]. exists k, st. split; [by rewrite <- H2|done].
Qed.

Lemma dir_ok_empty (w : W) x e s : sharers e = ∅ -> numSharers e = 0 ->
  (forall c k st, (c < N)%nat -> caches w !! c = Some k -> ~ holds k x st) -> dir_ok w x e s.
Proof.
  intros Es En Hno. constructor; rewrite ?Es, ?En; try done.
  - intros c. split; [set_solver|]. intros (Hc & k & st & Hk & Hh). by apply (Hno c k st) in Hh.
  - unfold entry_isExclusive. by rewrite En.
  - intros c k st Hc Hk Hh. by apply (Hno c k st) in Hh.
Qed.

Definition evict_post (l : nat) (y : Z) (kN : CS) (w w' : W) : Prop :=
  Inv w' /\ env w w' /\ leaves_step y w w' /\
  exists kN', caches w' !! N = Some kN' /\ arr kN' = arr kN /\ bcc kN' !! l = Some stI.

Lemma leaves_step_caches y (w w1 w2 : W) : (forall c, c <> N -> caches w2 !! c = caches w1 !! c) ->
  leaves_step y w w1 -> leaves_step y w w2.
Proof.
  intros He Hl c k Hc Hk. destruct (Hl c k Hc Hk) as (k' & Hk' & Hs). exists k'. split; [|done].
  by rewrite He by lia.
Qed.

Lemma leaves_step_refl y w : leaves_step y w w.
Proof. intros c k _ Hk. exists k. split; [done|]. left. apply kupd_refl. Qed.

Definition big : Z := 2 ^ 40.

Lemma wp_root_evict f g req l y (w : W) kN e s cyc :
  Inv w -> caches w !! N = Some kN -> ca_tag (arr kN) l = Some y -> tcc kN !! l = Some e ->
  bcc kN !! l = Some s -> leaves_free w -> 0 <= cyc -> cyc + big < max64 ->
  wp (processEviction sys (P (S g)) (L (S f)) N req y l cyc) w (fun _ w' => evict_post l y kN w w').
Proof.
  intros I HkN Hl He Hs Hfree Hc0 Hc1. unfold big in Hc1.
  destruct (inv_root _ I) as (kN0 & HkN0 & Hwf & Hlen & Hdir & _). assert (kN0 = kN) as -> by congruence.
  pose proof (Hdir l y e s Hl He Hs) as D. pose proof root_ok as R.
  assert (l < length (bcc kN))%nat as Hlt by (apply lookup_lt_is_Some_1; by rewrite Hs).
  unfold processEviction. apply wp_bind. eapply wp_conf; [apply conf_root|]. rewrite (rc_terminal _ _ _ R).
  apply wp_bind. unfold tcc_processEviction. apply wp_bind. eapply wp_conf; [apply conf_root|].
  rewrite (rc_inclusive _ _ _ R).
  eapply wp_mono; [apply (wp_send f y INV cyc (srcId req) l w kN e false); try done|].
  - by eapply sharers_nonzero.
  - apply D.
  - intros c. by apply (sharers_lt w y e s).
  - intros c Hc. by apply (inv_targets w y e s).
  - unfold u32lat. lia.
  - intros [ev wb] w1 ((kN1 & HkN1 & Hu1) & Hleaves & Henv & Hev & Hwb). cbv beta iota. cbn [fst snd] in *.
    pose proof Hu1 as (Eb1 & Et1 & Ea1 & _).
    pose proof (leaves_inv_step y INV _ w w1 (sharers_nonzero w y e s I D) Hleaves) as Hstep.
    assert (forall w2 kN2, (forall c, c <> N -> caches w2 !! c = caches w1 !! c) -> caches w2 !! N = Some kN2 ->
      kupd kN kN2 (<[l := stI]> (bcc kN)) (<[l := send_entry INV e]> (tcc kN)) (arr kN) -> env w1 w2 ->
      evict_post l y kN w w2) as Hfinal.
    { intros w2 kN2 Hoth HkN2 Hu2 Henv2. assert (env w w2) as Henvw by by eapply env_trans.
      assert (leaves_step y w w2) as Hstep2 by by eapply leaves_step_caches.
      split; [|split; [done|split; [done|]]].
      - eapply (Inv_line w w2 kN kN2 l y); try done. apply dir_ok_empty; [done..|].
        intros c k st Hc Hk. apply (leaves_inv_none y e s w w1 c k st); try done. by rewrite <- Hoth by lia.
      - destruct Hu2 as (Eb & _ & Ea & _). exists kN2. split; [done|]. split; [done|].
        rewrite Eb. by apply list_lookup_insert_eq. }
    (* write back *)
    unfold bcc_processEviction. apply wp_bind. eapply wp_conf; [apply conf_root|].
    assert (exists s', (wb = true -> s = stE \/ s = stM) /\ s' = (if wb then stM else s) /\ (s = stI -> s' = stI))
      as (s' & Hwbs & Es' & Hsi).
    { exists (if wb then stM else s). assert (wb = true -> s = stE \/ s = stM) as Hx.
      { intros Hw. destruct (Hwb Hw) as [|(c & k & Hc & Hk & Hh)]; [done|].
        pose proof (sharers_lt w y e s c D Hc) as HcN. pose proof (do_states _ _ _ _ D c k stM HcN Hk Hh) as Hst.
        destruct (entry_isExclusive e) eqn:Ex; [|done]. by apply (do_excl _ _ _ _ D). }
      split; [done|]. split; [done|]. intros ->. destruct wb; [|done]. by destruct (Hx eq_refl). }
    apply wp_bind. eapply (wp_mono _ _ (fun _ w2 => exists kN2, caches w2 = <[N := kN2]> (caches w1) /\
      kupd kN1 kN2 (<[l := s']> (bcc kN1)) (tcc kN1) (arr kN1) /\ env w1 w2)).
    { apply wp_when; intros Ewb; subst wb s'.
      - apply wp_bind. eapply wp_zoom_bcc_get; [done|by rewrite Eb1|].
        apply wp_bind, wp_assert; [by destruct (Hwbs eq_refl) as [-> | ->]|].
        eapply wp_zoom_bcc_put; [done|by rewrite Eb1|]. intros k' Hk'. exists k'. split; [done|].
        split; [done|apply env_caches].
      - exists kN1. rewrite list_insert_id by done. split; [done|]. split; [|apply env_refl].
        rewrite list_insert_id by (by rewrite Eb1). apply kupd_refl. }
    intros _ w2 (kN2 & Hw2 & Hu2 & Henv2). pose proof Hu2 as (Eb2 & Et2 & Ea2 & Ef2).
    assert (caches w2 !! N = Some kN2) as HkN2 by (eapply caches_set; [by rewrite HkN1|done]).
    assert (bcc kN2 !! l = Some s') as Hs2.
    { rewrite Eb2. apply list_lookup_insert_eq. by rewrite Eb1. }
    apply wp_bind. eapply wp_zoom_bcc_get; [done..|]. apply wp_bind.
    assert (forall w3 kN3, caches w3 = <[N:=kN3]> (caches w2) -> env w2 w3 ->
      kupd kN2 kN3 (<[l := stI]> (bcc kN2)) (tcc kN2) (arr kN2) -> forall r : Z,
      wp (s ← zoom N (bcc_get l); _ ← assertS (bool_decide (s = stI)); mret r) w3 (fun _ w' => evict_post l y kN w w')) as Hend.
    { intros w3 kN3 Hw3 Henv3 Hu3 r. pose proof Hu3 as (Eb3 & Et3 & Ea3 & Ef3).
      assert (caches w3 !! N = Some kN3) as HkN3 by (eapply caches_set; [by rewrite HkN2|done]).
      apply wp_bind. eapply wp_zoom_bcc_get; [done| |].
      { rewrite Eb3. apply list_lookup_insert_eq. by rewrite Eb2, length_insert, Eb1. }
      apply wp_bind, wp_assert; [done|]. apply wp_ret. apply (Hfinal w3 kN3).
      - intros c Hc. rewrite (caches_ne w2 w3 N c kN3) by done. by rewrite (caches_ne w1 w2 N c kN2).
      - done.
      - destruct Hu1 as (_ & _ & _ & Ef1). rewrite Eb2, list_insert_insert_eq, Eb1 in Eb3. repeat split; congruence.
      - by eapply env_trans. }
    assert (mems_ok w2) as Hmem by (apply Henv2, Henv, I).
    assert (forall t, (t = PUTS \/ t = PUTX) ->
      wp (put_up sys (P (S g)) root (bcc_req N l root y t ev s' (srcId req) 0)) w2 (fun r w3 =>
        wp (s ← zoom N (bcc_get l); _ ← assertS (bool_decide (s = stI)); mret r) w3 (fun _ w' => evict_post l y kN w w'))) as Hput.
    { intros t Ht. eapply wp_mono; [apply (wp_put_up g _ l w2 kN2); try done|].
      - cbn. lia.
      - cbn. unfold mc_maxLat, u32lat in *. lia.
      - by rewrite Eb2, length_insert, Eb1.
      - intros r w3 (_ & kN3 & Hw3 & Hu3 & Henv3). eapply Hend; [done|done|].
        assert (mem_state (bcc_req N l root y t ev s' (srcId req) 0) = stI) as Em by (by destruct Ht as [-> | ->]).
        by rewrite Em in Hu3. }
    destruct s'; try (apply Hput; auto; fail). apply wp_ret. apply (Hend w2 kN2).
    + by rewrite list_insert_id.
    + apply env_refl.
    + rewrite list_insert_id by done. apply kupd_refl.
Qed.

(** ** Lookup and fill in the shared cache *)

Lemma tag_dec a p x : ca_wf p a -> (exists i, ca_tag a i = Some x) \/ (forall i, ca_tag a i <> Some x).
Proof.
  intros Hp. destruct (decide (Exists (fun i => ca_tag a i = Some x) (seq 0 (ca_lines a)))) as [Hy|Hn].
  - left. apply Exists_exists in Hy as (i & _ & Hi). by exists i.
  - right. intros i Hi. apply Hn, Exists_exists. exists i. split; [|done]. apply elem_of_seq.
    pose proof (proj1 (ca_tag_lines p a i Hp) ltac:(by eexists)). lia.
Qed.

(** The root's tags change, at most by giving an unused address to invalid lines. *)
Definition retag (kN : CS) (a' : A) : Prop :=
  ca_lines a' = ca_lines (arr kN) /\ (exists p, ca_wf p a') /\
  forall j, ca_tag a' j = ca_tag (arr kN) j \/
    exists x, bcc kN !! j = Some stI /\ ca_tag a' j = Some x /\ word 64 x /\
      forall i, ca_tag (arr kN) i <> Some x.

Lemma Inv_retag (w w' : W) kN kN' a' :
  Inv w -> caches w !! N = Some kN -> retag kN a' -> caches w' = <[N := kN']> (caches w) ->
  kupd kN kN' (bcc kN) (tcc kN) a' -> env w w' -> Inv w'.
Proof.
  intros I HkN (Hlines & Hp & Htag) Hw' (Eb & Et & Ea & Ef) (El & Er & Em).
  destruct (inv_root _ I) as (kN0 & HkN0 & Hwf & Hlen & Hdir & Hincl). assert (kN0 = kN) as -> by congruence.
  assert (caches w' !! N = Some kN') as HkN' by (eapply caches_set; [by rewrite HkN|done]).
  assert (forall c, (c < N)%nat -> caches w' !! c = caches w !! c) as Hoth.
  { intros c Hc. apply (caches_ne w w' N c kN'); [done|lia]. }
  assert (forall x s, holds kN x s -> holds kN' x s) as Hkeep.
  { intros x s (i & Hi & Hs & Hne). exists i. rewrite Ea, Eb. split; [|done].
    destruct (Htag i) as [->|(y & Hy & _)]; [done|congruence]. }
  constructor.
  - apply Em, I.
  - rewrite Er. apply I.
  - intros c Hc. rewrite Hoth by done. by apply (inv_leaf _ I).
  - exists kN'. split; [done|]. split; [|split; [by rewrite Et, Ea, Hlines|split]].
    + constructor; rewrite ?Ea, ?Eb, ?Hlines; try apply Hwf; [done| |].
      * intros i x Hi. destruct (Htag i) as [E|(y & _ & Hy & Hword & _)]; [|congruence].
        rewrite E in Hi. by eapply cw_word.
      * intros i Hi. destruct (Htag i) as [E|(y & Hsi & _)]; [|done]. rewrite E in Hi. by apply (cw_zero _ Hwf).
    + intros j x e s Hj He Hs. rewrite Ea in Hj. rewrite Et in He. rewrite Eb in Hs.
      assert (dir_ok w x e s) as D.
      { destruct (Htag j) as [E|(y & Hsj & Hy & _ & Hno)].
        - rewrite E in Hj. by apply (Hdir j).
        - assert (y = x) as -> by congruence. assert (s = stI) as -> by congruence.
          assert (exists x0, ca_tag (arr kN) j = Some x0) as [x0 Hx0].
          { apply (tag_lines kN j Hwf). apply lookup_lt_is_Some_1. by rewrite Hsj. }
          pose proof (Hdir j x0 e stI Hx0 He Hsj) as D0. pose proof (do_invalid _ _ _ _ D0 eq_refl) as Ese.
          apply dir_ok_empty; [done|by rewrite (do_num _ _ _ _ D0), Ese, size_empty|].
          intros c k st Hc Hk Hh. destruct (Hincl c k x st Hc Hk Hh) as (s1 & i & Hi & _). by apply (Hno i). }
      eapply dir_ok_ext; [|exact D]. intros c st Hc. by rewrite Hoth.
    + intros c k x st Hc. rewrite Hoth by done. intros Hk Hh. destruct (Hincl c k x st Hc Hk Hh) as (s & Hs).
      exists s. by apply Hkeep.
Qed.

(** The leaves' arrays, and the states of their lines of [x], are as before. *)
Definition leaves_keep (x : Z) (w w' : W) : Prop := forall c k, (c < N)%nat -> caches w !! c = Some k ->
  exists k', caches w' !! c = Some k' /\ arr k' = arr k /\
    forall i, ca_tag (arr k) i = Some x -> bcc k' !! i = bcc k !! i.

Lemma leaves_keep_same x (w w' : W) : (forall c, (c < N)%nat -> caches w' !! c = caches w !! c) -> leaves_keep x w w'.
Proof. intros E c k Hc Hk. exists k. by rewrite E. Qed.

Lemma leaves_keep_step x y (w w' : W) : x <> y -> leaves_step y w w' -> leaves_keep x w w'.
Proof.
  intros Hx Hl c k Hc Hk. destruct (Hl c k Hc Hk) as (k' & Hk' & Hs). exists k'. split; [done|].
  destruct (leaf_step_frame _ _ _ Hs) as (Ea & _ & _ & Hb). split; [done|]. intros i Hi. apply Hb. congruence.
Qed.

Lemma leaves_keep_trans x (w1 w2 w3 : W) : leaves_keep x w1 w2 -> leaves_keep x w2 w3 -> leaves_keep x w1 w3.
Proof.
  intros H1 H2 c k Hc Hk. destruct (H1 c k Hc Hk) as (k2 & Hk2 & Ea2 & Hb2).
  destruct (H2 c k2 Hc Hk2) as (k3 & Hk3 & Ea3 & Hb3). exists k3. split; [done|]. split; [congruence|].
  intros i Hi. rewrite Hb3 by (by rewrite Ea2). by apply Hb2.
Qed.

Definition fill_post (x : Z) (w : W) (r : option nat * bool) (w' : W) : Prop :=
  exists l kN', r.1 = Some l /\ Inv w' /\ env w w' /\ caches w' !! N = Some kN' /\ ca_wf false (arr kN') /\
    ca_tag (arr kN') l = Some x /\ leaves_keep x w w'.

(** A hit changes nothing but the replacement state. *)
Lemma wp_root_hit f g req (w : W) kN resp :
  Inv w -> caches w !! N = Some kN -> ca_wf false (arr kN) -> word 64 (lineAddr req) -> lineAddr req <> 0 ->
  (exists i, ca_tag (arr kN) i = Some (lineAddr req)) ->
  wp (find_or_fill sys (P (S g)) (L (S f)) N req resp) w (fill_post (lineAddr req) w).
Proof.
  intros I HkN Hwf Hword Hx [i Hi]. unfold find_or_fill. apply wp_bind. eapply wp_conf; [apply conf_root|].
  destruct (ca_lookup_hit false (arr kN) (lineAddr req) (if IsGet (type req) then Some req else None) i Hwf Hword Hx Hi)
    as (a' & Hlk & Hwf' & Hlines & Htags & _).
  apply wp_bind. eapply wp_zoom; [done|]. eapply wp_arr_do; [done|]. cbv beta iota. apply wp_ret.
  assert (caches (set_caches w (<[N:=set_arr kN a']> (caches w))) !! N = Some (set_arr kN a')) as HkN'.
  { by eapply (caches_set w); [rewrite HkN|]. }
  exists i, (set_arr kN a'). split; [done|]. split; [|split; [apply env_caches|split; [done|split; [done|split]]]].
  - eapply (Inv_retag w _ kN (set_arr kN a') a'); try done.
    split; [done|]. split; [by eexists|]. intros j. left. apply Htags.
  - cbn [arr set_arr]. by rewrite Htags.
  - apply leaves_keep_same. intros c Hc. apply (caches_ne w _ N c (set_arr kN a')); [done|lia].
Qed.

Lemma wp_root_fill f g req (w : W) kN resp :
  Inv w -> caches w !! N = Some kN -> ca_wf false (arr kN) -> word 64 (lineAddr req) -> lineAddr req <> 0 ->
  IsGet (type req) = true -> leaves_free w -> 0 <= resp -> resp + big < max64 ->
  wp (find_or_fill sys (P (S g)) (L (S f)) N req resp) w (fill_post (lineAddr req) w).
Proof.
  intros I HkN Hwf Hword Hx Hget Hfree Hc0 Hc1. set (x := lineAddr req) in *.
  destruct (tag_dec (arr kN) false x Hwf) as [Hhit|Hmiss]; [by eapply wp_root_hit|].
  unfold find_or_fill. apply wp_bind. eapply wp_conf; [apply conf_root|].
  apply wp_bind. eapply wp_zoom; [done|]. eapply wp_arr_do; [apply (ca_lookup_miss false); done|].
  set (k1 := set_arr kN (arr kN)). cbv beta iota.
  set (w1 := set_caches w _). assert (caches w1 !! N = Some k1) as Hk1 by (by eapply (caches_set w); [rewrite HkN|]).
  apply wp_bind. unfold shouldAllocate. apply wp_bind. eapply wp_conf; [apply conf_root|].
  rewrite (rc_terminal _ _ _ root_ok), Hget. apply wp_ret. apply wp_bind. eapply wp_zoom; [done|].
  apply wp_get. destruct (ca_preinsert_ok (arr k1) (view_of false k1) x req Hwf Hword Hx)
    as (l & wb & a2 & Hpre & Hwf2 & Hlines2 & Htags2 & Hwbt & Hslot).
  set (w2 := set_caches w1 _). assert (caches w2 !! N = Some k1) as Hk2 by (by eapply (caches_set w1); [rewrite Hk1|]).
  apply wp_bind. eapply wp_zoom; [done|]. eapply wp_arr_do; [fold x; by rewrite Hpre|]. cbv beta iota.
  set (k3 := set_arr k1 a2). set (w3 := set_caches w2 _).
  assert (caches w3 = <[N := k3]> (caches w)) as Hw3.
  { unfold w3, w2, w1. cbn [caches set_caches]. by rewrite !list_insert_insert_eq. }
  assert (caches w3 !! N = Some k3) as Hk3 by (by eapply (caches_set w); [rewrite HkN|]).
  assert (env w w3) as Henv3 by (by repeat split).
  assert (Inv w3) as I3.
  { eapply (Inv_retag w w3 kN k3 a2); try done.
    split; [by rewrite Hlines2|]. split; [by eexists|]. intros j. left. apply Htags2. }
  destruct (inv_root _ I3) as (k0 & Hk0 & Hwfk3 & Hlen3 & _). assert (k0 = k3) as -> by congruence.
  destruct (cache_wf_bcc k3 l wb Hwfk3 Hwbt) as [s Hs].
  destruct (lookup_lt_is_Some_2 (tcc k3) l) as [e He].
  { rewrite Hlen3, <- (cw_len _ Hwfk3). apply tag_lines; [done|by eexists]. }
  apply wp_bind. eapply wp_mono; [eapply (wp_root_evict f g req l wb w3 k3 e s resp); try done|].
  intros _ w4 (I4 & Henv4 & Hstep4 & k4 & Hk4 & Ea4 & Hs4).
  assert (forall i, ca_tag a2 i <> Some x) as Hmiss2 by (intros i; rewrite Htags2; apply Hmiss).
  destruct (ca_postinsert_ok a2 x req l Hwf2 Hword Hslot (fun _ => Hmiss2))
    as (a5 & Hpost & Hwf5 & Hlines5 & Htag5 & Hoth5).
  apply wp_bind. eapply wp_zoom; [done|]. eapply wp_arr_do; [rewrite Ea4; cbn [k3 arr set_arr]; fold x; by rewrite Hpost|].
  cbv beta iota. apply wp_ret. set (k5 := set_arr k4 a5). set (w5 := set_caches w4 _).
  assert (caches w5 !! N = Some k5) as Hk5 by (by eapply (caches_set w4); [rewrite Hk4|]).
  assert (env w w5) as Henv5 by (eapply env_trans; [done|]; eapply env_trans; [done|apply env_caches]).
  exists l, k5. split; [done|]. split; [|split; [done|split; [done|split; [done|split; [done|]]]]].
  - eapply (Inv_retag w4 w5 k4 k5 a5); try done. split; [by rewrite Ea4|]. split; [by eexists|].
    intros j. rewrite Ea4. destruct (decide (j = l)) as [->|Hne]; [|left; by apply Hoth5].
    right. exists x. split; [done|]. split; [done|]. split; [done|]. exact Hmiss2.
  - eapply (leaves_keep_trans x w w3); [apply leaves_keep_same|].
    { intros c Hc. apply (caches_ne w w3 N c k3); [done|lia]. }
    eapply leaves_keep_trans; [eapply leaves_keep_step; [|done]|apply leaves_keep_same].
    { intros ->. by apply (Hmiss2 l). }
    intros c Hc. apply (caches_ne w4 w5 N c k5); [done|lia].
Qed.

(** ** The shared cache's own request *)

Lemma wp_root_bcc g x l t (w : W) kN s cyc src fl :
  mems_ok w -> caches w !! N = Some kN -> bcc kN !! l = Some s -> (t = GETS \/ t = GETX) ->
  0 <= cyc -> cyc + big < max64 ->
  wp (bcc_processAccess sys (P (S g)) N x l t cyc src fl) w (fun r w' => cyc <= r <= cyc + u32lat /\
    exists k' s1, caches w' = <[N := k']> (caches w) /\ kupd kN k' (<[l := s1]> (bcc kN)) (tcc kN) (arr kN) /\
      env w w' /\ s1 <> stI /\ (t = GETX -> s1 = stM) /\ (s = stE \/ s = stM -> s1 = stE \/ s1 = stM)).
Proof.
  intros Hmem HkN Hs Ht Hc0 Hc1. unfold big in Hc1.
  assert (l < length (bcc kN))%nat as Hlt by (apply lookup_lt_is_Some_1; by rewrite Hs).
  unfold bcc_processAccess. apply wp_bind. eapply wp_conf; [apply conf_root|].
  apply wp_bind. eapply wp_zoom_bcc_get; [done..|].
  (* the tail: the final range assertion *)
  assert (forall r w' k' s1, cyc <= r <= cyc + u32lat -> caches w' = <[N := k']> (caches w) ->
    kupd kN k' (<[l := s1]> (bcc kN)) (tcc kN) (arr kN) -> env w w' -> s1 <> stI -> (t = GETX -> s1 = stM) ->
    (s = stE \/ s = stM -> s1 = stE \/ s1 = stM) ->
    wp (_ ← assertS (cyc <=? r); mret r) w' (fun r w' => cyc <= r <= cyc + u32lat /\
      exists k' s1, caches w' = <[N := k']> (caches w) /\ kupd kN k' (<[l := s1]> (bcc kN)) (tcc kN) (arr kN) /\
        env w w' /\ s1 <> stI /\ (t = GETX -> s1 = stM) /\ (s = stE \/ s = stM -> s1 = stE \/ s1 = stM))) as Hend.
  { intros r w' k' s1 Hr Hw' Hu He H1 H2 H3. apply wp_bind, wp_assert; [lia|]. apply wp_ret. split; [done|].
    exists k', s1. done. }
  assert (forall cnt, wp (zoom N (prof_inc cnt 1)) w (fun _ w1 => exists k1, caches w1 = <[N := k1]> (caches w) /\
    kupd kN k1 (bcc kN) (tcc kN) (arr kN) /\ env w w1)) as Hprof.
  { intros cnt. eapply wp_zoom_prof; [done|]. intros k1 Hk1. exists k1. split; [done|]. split; [done|apply env_caches]. }
  (* a request to memory, from a world where only counters have changed *)
  assert (forall w1 k1 s0, caches w1 = <[N := k1]> (caches w) -> kupd kN k1 (bcc kN) (tcc kN) (arr kN) -> env w w1 ->
    wp (get_up sys (P (S g)) N root (bcc_req N l root x t cyc s0 src fl)) w1 (fun r w' =>
      cyc <= r <= cyc + u32lat /\ exists k', caches w' = <[N := k']> (caches w) /\
        kupd kN k' (<[l := mem_state (bcc_req N l root x t cyc s0 src fl)]> (bcc kN)) (tcc kN) (arr kN) /\ env w w')) as Hup.
  { intros w1 k1 s0 Hw1 (Eb & Et & Ea & Ef) Henv1.
    assert (caches w1 !! N = Some k1) as Hk1 by (eapply caches_set; [by rewrite HkN|done]).
    eapply wp_mono; [apply (wp_get_up g _ l w1 k1); try done|].
    - by apply Henv1.
    - cbn. unfold mc_maxLat. lia.
    - by rewrite Eb.
    - intros r w' (Hr & k' & Hw' & (Eb' & Et' & Ea' & Ef') & Henv'). split; [done|]. exists k'.
      split; [by rewrite Hw', Hw1, list_insert_insert_eq|]. split; [repeat split; congruence|by eapply env_trans]. }
  destruct Ht as [-> | ->].
  - destruct (decide (s = stI)) as [->|Hne].
    + apply wp_bind, wp_bind. eapply wp_mono; [apply (Hup w kN); [by rewrite list_insert_id|apply kupd_refl|apply env_refl]|].
      intros r w1 (Hr & k1 & Hw1 & (Eb1 & Et1 & Ea1 & Ef1) & Henv1).
      set (s1 := mem_state _) in *. assert (s1 = stS \/ s1 = stE) as Hs1.
      { unfold s1, mem_state. cbn [bcc_req type]. case_match; auto. }
      assert (caches w1 !! N = Some k1) as Hk1 by (eapply caches_set; [by rewrite HkN|done]).
      apply wp_bind. eapply wp_zoom_prof; [done|]. intros k2 (Eb2 & Et2 & Ea2 & Ef2).
      apply wp_bind. eapply (wp_zoom_bcc_get N l _ k2); [by eapply (caches_set w1); [rewrite Hk1|]| |].
      { rewrite Eb2, Eb1. by apply list_lookup_insert_eq. }
      apply wp_bind, wp_assert; [by destruct Hs1 as [-> | ->]|]. apply wp_ret.
      apply (Hend r _ k2 s1); try done.
      * cbn [caches set_caches]. by rewrite Hw1, list_insert_insert_eq.
      * repeat split; congruence.
      * by destruct Hs1 as [-> | ->].
      * by intros [].
    + rewrite bool_decide_eq_false_2 by done. apply wp_bind, wp_bind. eapply wp_mono; [apply Hprof|].
      intros _ w1 (k1 & Hw1 & (Eb1 & Et1 & Ea1 & Ef1) & Henv1). apply wp_ret. apply (Hend cyc w1 k1 s); try done.
      * unfold u32lat. lia.
      * rewrite list_insert_id by done. by repeat split.
  - assert (forall r w1 k1, cyc <= r <= cyc + u32lat -> caches w1 = <[N := k1]> (caches w) -> env w w1 ->
      kupd kN k1 (<[l := stM]> (bcc kN)) (tcc kN) (arr kN) ->
      wp (s ← zoom N (bcc_get l); _ ← assertS (bool_decide (s = stM)); mret r) w1 (fun respCycle w2 =>
        wp (_ ← assertS (cyc <=? respCycle); mret respCycle) w2 (fun r w' => cyc <= r <= cyc + u32lat /\
        exists k' s1, caches w' = <[N := k']> (caches w) /\ kupd kN k' (<[l := s1]> (bcc kN)) (tcc kN) (arr kN) /\
        env w w' /\ s1 <> stI /\ (GETX = GETX -> s1 = stM) /\ (s = stE \/ s = stM -> s1 = stE \/ s1 = stM)))) as Hx.
    { intros r w1 k1 Hr Hw1 Henv1 Hu1. pose proof Hu1 as (Eb1 & _). apply wp_bind.
      eapply (wp_zoom_bcc_get N l w1 k1); [eapply caches_set; [by rewrite HkN|done]|rewrite Eb1; by apply list_lookup_insert_eq|].
      apply wp_bind, wp_assert; [done|]. apply wp_ret. apply (Hend r w1 k1 stM); try done. intros _. by right. }
    destruct (decide (s = stI \/ s = stS)) as [Hmiss|Hhit].
    + assert (bool_decide (s = stI) || bool_decide (s = stS) = true) as -> by (by destruct Hmiss as [-> | ->]).
      apply wp_bind, wp_bind, wp_bind. eapply wp_mono; [apply Hprof|]. intros _ w1 (k1 & Hw1 & Hu1 & Henv1).
      eapply wp_mono; [by apply (Hup w1 k1)|]. intros r w2 (Hr & k2 & Hw2 & Hu2 & Henv2).
      by eapply Hx.
    + assert (bool_decide (s = stI) || bool_decide (s = stS) = false) as ->.
      { destruct s; try done; exfalso; auto. }
      apply wp_bind, wp_bind. apply wp_bind.
      eapply (wp_mono _ _ (fun _ w1 => exists k1, caches w1 = <[N := k1]> (caches w) /\
        kupd kN k1 (<[l := stM]> (bcc kN)) (tcc kN) (arr kN) /\ env w w1)).
      { apply wp_when; intros Es.
        - eapply wp_zoom_bcc_put; [done..|]. intros k1 Hk1. exists k1. split; [done|]. split; [done|apply env_caches].
        - apply bool_decide_eq_false_1 in Es. exists kN. rewrite list_insert_id by done. split; [done|].
          assert (s = stM) as -> by (destruct s; try done; exfalso; auto).
          rewrite list_insert_id by done. split; [apply kupd_refl|apply env_refl]. }
      intros _ w1 (k1 & Hw1 & (Eb1 & Et1 & Ea1 & Ef1) & Henv1).
      apply wp_bind. eapply wp_zoom_prof; [eapply caches_set; [by rewrite HkN|done]|].
      intros k2 (Eb2 & Et2 & Ea2 & Ef2). apply wp_ret. apply (Hx cyc _ k2).
      * unfold u32lat. lia.
      * cbn [caches set_caches]. by rewrite Hw1, list_insert_insert_eq.
      * done.
      * repeat split; congruence.
Qed.

(** ** Leaf states, as a relation of worlds *)

Definition lst (w : W) (c : nat) (x : Z) (st : MESIState) : Prop :=
  exists k, caches w !! c = Some k /\ holds k x st.

Lemma dir_ok_lst (w : W) x e s :
  (forall c, c ∈ sharers e <-> (c < N)%nat /\ exists st, lst w c x st) ->
  numSharers e = Z.of_nat (size (sharers e)) -> s <> stI ->
  (entry_isExclusive e = true -> s = stE \/ s = stM) -> (exclusive e = true -> numSharers e <= 1) ->
  (forall c st, (c < N)%nat -> lst w c x st -> if entry_isExclusive e then st = stE \/ st = stM else st = stS) ->
  dir_ok w x e s.
Proof.
  intros H1 H2 H3 H4 H5 H6. constructor; try done.
  - intros c. rewrite H1. split; intros [Hc (st & Hst)].
    + destruct Hst as (k & Hk & Hh). split; [done|]. by exists k, st.
    + destruct Hst as (st' & Hk & Hh). split; [done|]. by exists st', st.
  - intros c k st Hc Hk Hh. apply (H6 c); [done|]. by exists k.
Qed.

Lemma dir_lst (w : W) x e s : dir_ok w x e s ->
  (forall c, c ∈ sharers e <-> (c < N)%nat /\ exists st, lst w c x st) /\
  (forall c st, (c < N)%nat -> lst w c x st -> if entry_isExclusive e then st = stE \/ st = stM else st = stS).
Proof.
  intros D. split.
  - intros c. rewrite (do_sharers _ _ _ _ D). split; intros [Hc Hst]; (split; [done|]).
    + destruct Hst as (k & st & Hk & Hh). exists st. by exists k.
    + destruct Hst as (st & k & Hk & Hh). by exists k, st.
  - intros c st Hc (k & Hk & Hh). by apply (do_states _ _ _ _ D c k).
Qed.

Lemma lst_inv x t S (w w' : W) c st : Inv w -> leaves_inv x t S w w' -> (c < N)%nat -> x <> 0 -> t <> FWD ->
  lst w' c x st <-> (c ∉ S /\ lst w c x st) \/ (c ∈ S /\ t = INVX /\ st = stS).
Proof.
  intros I Hl Hc Hx Ht. destruct (Hl c ltac:(lia)) as [H1 H2]. destruct (decide (c ∈ S)) as [Hin|Hout].
  - destruct (H1 Hin) as (k & k' & Hk & Hk' & i & s0 & Hti & Hsi & Hs0 & Hu).
    destruct (inv_leaf _ I c Hc) as (k1 & Hk1 & Hwf & _). assert (k1 = k) as -> by congruence.
    pose proof (holds_put k k' i x (inval_state t) _ x st Hwf Hu Hti Hx) as E.
    assert (lst w' c x st <-> holds k' x st) as ->.
    { unfold lst. split; [intros (k0 & Hk0 & Hh); congruence|]. intros Hh. by exists k'. }
    rewrite E. destruct t; cbn [inval_state]; [| |done]; intuition congruence.
  - unfold lst. rewrite H2 by done. intuition.
Qed.

Lemma lst_put c i x s (w w' : W) k k' c' st : cache_wf k -> caches w !! c = Some k -> ca_tag (arr k) i = Some x ->
  x <> 0 -> caches w' = <[c := k']> (caches w) -> kupd k k' (<[i := s]> (bcc k)) (tcc k) (arr k) ->
  lst w' c' x st <-> (c' = c /\ st = s /\ s <> stI) \/ (c' <> c /\ lst w c' x st).
Proof.
  intros Hwf Hk Hi Hx Hw' Hu. unfold lst. destruct (decide (c' = c)) as [->|Hne].
  - assert (caches w' !! c = Some k') as Hk' by (eapply caches_set; [by rewrite Hk|done]).
    pose proof (holds_put k k' i x s _ x st Hwf Hu Hi Hx) as E. split.
    + intros (k0 & Hk0 & Hh). assert (k0 = k') as -> by congruence. apply E in Hh. intuition.
    + intros [(_ & -> & Hs)|[? _]]; [|done]. exists k'. split; [done|]. apply E. auto.
  - rewrite (caches_ne w w' c c' k') by (done || congruence). intuition.
Qed.

Lemma put_step c i x s (w w' : W) k k' : caches w !! c = Some k -> ca_tag (arr k) i = Some x ->
  x <> 0 -> caches w' = <[c := k']> (caches w) -> kupd k k' (<[i := s]> (bcc k)) (tcc k) (arr k) -> leaves_step x w w'.
Proof.
  intros Hk Hi Hx Hw' Hu c1 k1 Hc1 Hk1. destruct (decide (c = c1)) as [<-|Hne].
  - exists k'. split; [eapply caches_set; [by rewrite Hk|done]|]. assert (k1 = k) as -> by congruence.
    right. by exists i, s.
  - exists k1. split; [by rewrite (caches_ne w w' c c1 k')|]. left. apply kupd_refl.
Qed.

Lemma leaves_step_trans x (w1 w2 w3 : W) : Inv w1 -> leaves_step x w1 w2 -> leaves_step x w2 w3 -> leaves_step x w1 w3.
Proof.
  intros I H12 H23 c k Hc Hk. destruct (H12 c k Hc Hk) as (k2 & Hk2 & Hs2).
  destruct (H23 c k2 Hc Hk2) as (k3 & Hk3 & Hs3). exists k3. split; [done|].
  destruct (inv_leaf _ I c Hc) as (k1 & Hk1 & Hwf & _). assert (k1 = k) as -> by congruence.
  by eapply leaf_step_trans.
Qed.

Lemma add_child_ok e c : (c < N)%nat -> add_child e c =
  Ok (mkEntry (numSharers e) ({[c]} ∪ sharers e) ({[c]} ∪ owners e) (exclusive e)).
Proof.
  intros Hc. unfold add_child. rewrite (set_sharer_ok e c true Hc). unfold mbind, outcome_bind.
  pose proof (tl_children _ _ _ _ _ TL). unfold set_owner, bit_wr. by rewrite bool_decide_eq_true_2 by lia.
Qed.

Lemma dir_ok_M (w : W) x e s : dir_ok w x e s -> dir_ok w x e stM.
Proof. intros D. constructor; try apply D; [done|by right]. Qed.

(** ** The directory step of a request from leaf [c], whose line is [i] *)

Definition tcc_post (x : Z) (l c i : nat) (kN : CS) (s : MESIState) (new : MESIState -> Prop) (cyc : Z)
    (w : W) (r : Z * bool) (w' : W) : Prop :=
  cyc <= r.1 <= cyc + 2 * u32lat /\ env w w' /\ leaves_step x w w' /\
  (r.2 = true -> s = stE \/ s = stM) /\
  (exists kN' e', caches w' !! N = Some kN' /\ kupd kN kN' (bcc kN) (<[l := e']> (tcc kN)) (arr kN) /\
     dir_ok w' x e' s) /\
  exists k' s', caches w' !! c = Some k' /\ bcc k' !! i = Some s' /\ new s'.

(** The last step of every case: leaf [c]'s line gets state [s0], entry [e']. *)
Lemma tcc_finish x l c i kN s e' s0 new cyc r wb (w w1 : W) kN1 :
  Inv w -> (c < N)%nat -> x <> 0 -> leaves_step x w w1 -> env w w1 -> caches w1 !! N = Some kN1 ->
  kupd kN kN1 (bcc kN) (<[l := e']> (tcc kN)) (arr kN) ->
  (exists k, caches w !! c = Some k /\ ca_tag (arr k) i = Some x) ->
  cyc <= r <= cyc + 2 * u32lat -> (wb = true -> s = stE \/ s = stM) -> new s0 ->
  (forall w2, (forall c' st, (c' < N)%nat -> lst w2 c' x st <-> (c' = c /\ st = s0 /\ s0 <> stI) \/ (c' <> c /\ lst w1 c' x st)) ->
     dir_ok w2 x e' s) ->
  wp (state_put (LineState c i) s0) w1 (fun _ w2 => tcc_post x l c i kN s new cyc w (r, wb) w2).
Proof.
  intros I Hc Hx Hstep Henv HkN1 Hu (k & Hk & Hi) Hr Hwb Hnew HD.
  destruct (Hstep c k Hc Hk) as (k1 & Hk1 & Hs1). destruct (leaf_step_frame _ _ _ Hs1) as (Ea & _).
  destruct (inv_leaf _ I c Hc) as (k0 & Hk0 & Hwf & _). assert (k0 = k) as -> by congruence.
  pose proof (leaf_step_wf _ _ _ Hwf Hs1) as Hwf1.
  assert (ca_tag (arr k1) i = Some x) as Hi1 by (by rewrite Ea).
  assert (i < length (bcc k1))%nat as Hlt by (apply tag_lines; [done|by eexists]).
  cbn [state_put]. eapply wp_zoom_bcc_put; [done..|]. intros k2 Hk2.
  set (w2 := set_caches w1 _). assert (caches w2 = <[c := k2]> (caches w1)) as Hw2 by done.
  split; [done|]. split; [eapply env_trans; [done|apply env_caches]|].
  split; [eapply leaves_step_trans; [done..|]; by eapply (put_step c i x s0 w1 w2)|]. split; [done|]. split.
  - exists kN1, e'. split; [rewrite (caches_ne w1 w2 c N k2) by (done || lia); done|]. split; [done|].
    apply HD. intros c' st Hc'. by eapply (lst_put c i x s0 w1 w2).
  - exists k2, s0. split; [eapply (caches_set w1); [by rewrite Hk1|done]|]. split; [|done].
    destruct Hk2 as (Eb & _). rewrite Eb. by apply list_lookup_insert_eq.
Qed.

Lemma size_remove (c : nat) (X : gset nat) : c ∈ X -> size X = S (size (X ∖ {[c]})).
Proof.
  intros Hc. rewrite (union_difference_singleton_L c X Hc) at 1. rewrite size_union by set_solver.
  by rewrite size_singleton.
Qed.

(** What the directory step starts from. *)
Record tcc_pre (w : W) (x : Z) (l c i : nat) (kN : CS) (e : TopEntry) (s s0 : MESIState) : Prop := {
  tp_inv : Inv w;
  tp_root : caches w !! N = Some kN;
  tp_tag : ca_tag (arr kN) l = Some x;
  tp_entry : tcc kN !! l = Some e;
  tp_state : bcc kN !! l = Some s;
  tp_valid : s <> stI;
  tp_x : x <> 0;
  tp_c : (c < N)%nat;
  tp_leaf : exists k, caches w !! c = Some k /\ ca_tag (arr k) i = Some x /\ bcc k !! i = Some s0;
  tp_free : leaves_free w
}.

Lemma tcc_pre_dir w x l c i kN e s s0 : tcc_pre w x l c i kN e s s0 -> dir_ok w x e s.
Proof.
  intros T. destruct (inv_root _ (tp_inv _ _ _ _ _ _ _ _ _ T)) as (k & Hk & _ & _ & Hdir & _).
  pose proof (tp_root _ _ _ _ _ _ _ _ _ T). assert (k = kN) as -> by congruence. by apply (Hdir l); apply T.
Qed.

Lemma tcc_pre_lst w x l c i kN e s s0 st : tcc_pre w x l c i kN e s s0 -> lst w c x st <-> st = s0 /\ s0 <> stI.
Proof.
  intros T. destruct (tp_leaf _ _ _ _ _ _ _ _ _ T) as (k & Hk & Hi & Hs0).
  destruct (inv_leaf _ (tp_inv _ _ _ _ _ _ _ _ _ T) c (tp_c _ _ _ _ _ _ _ _ _ T)) as (k0 & Hk0 & Hwf & _).
  assert (k0 = k) as -> by congruence. split.
  - intros (k1 & Hk1 & Hh). assert (k1 = k) as -> by congruence. pose proof Hh as (_ & _ & _ & Hne).
    pose proof (holds_at k x st i Hwf Hh Hi) as E. split; congruence.
  - intros [-> Hne]. exists k. split; [done|]. by exists i.
Qed.

Lemma tcc_pre_sharer w x l c i kN e s s0 : tcc_pre w x l c i kN e s s0 -> c ∈ sharers e <-> s0 <> stI.
Proof.
  intros T. destruct (dir_lst _ _ _ _ (tcc_pre_dir _ _ _ _ _ _ _ _ _ T)) as [-> _]. split.
  - intros [_ [st Hst]]. by apply (tcc_pre_lst _ _ _ _ _ _ _ _ _ st T) in Hst as [_ ?].
  - intros Hne. split; [apply T|]. exists s0. by apply (tcc_pre_lst _ _ _ _ _ _ _ _ _ s0 T).
Qed.

Lemma tcc_pre_state w x l c i kN e s s0 : tcc_pre w x l c i kN e s s0 -> s0 <> stI ->
  if entry_isExclusive e then s0 = stE \/ s0 = stM else s0 = stS.
Proof.
  intros T Hne. destruct (dir_lst _ _ _ _ (tcc_pre_dir _ _ _ _ _ _ _ _ _ T)) as [_ Hst].
  apply (Hst c); [apply T|]. by apply (tcc_pre_lst _ _ _ _ _ _ _ _ _ s0 T).
Qed.

Lemma num_bounds w x e s : dir_ok w x e s -> 0 <= numSharers e <= 256.
Proof.
  intros D. rewrite (do_num _ _ _ _ D). pose proof (size_sharers e (fun c => sharers_lt w x e s c D)).
  pose proof (tl_children _ _ _ _ _ TL). unfold MAX_CACHE_CHILDREN in *. lia.
Qed.

Lemma wp_put_case g x l t c i excl cyc src (w : W) kN e s s0 :
  tcc_pre w x l c i kN e s s0 -> (t = PUTS \/ t = PUTX) -> s0 <> stI -> (t = PUTX -> s0 = stM) -> 0 <= cyc ->
  wp (tcc_processAccess sys (L g) N x l t c excl (LineState c i) false cyc src 0) w
    (tcc_post x l c i kN s (eq stI) cyc w).
Proof.
  intros T Ht Hs0 Hx Hcyc. pose proof (tcc_pre_dir _ _ _ _ _ _ _ _ _ T) as D. destruct (dir_lst _ _ _ _ D) as [Hsh Hst].
  pose proof (proj2 (tcc_pre_sharer _ _ _ _ _ _ _ _ _ T) Hs0) as Hin. pose proof (tcc_pre_state _ _ _ _ _ _ _ _ _ T Hs0) as Hex.
  pose proof T as [I HkN Htag He Hsl Hsne Hx0 Hc (k & Hk & Hi & Hsi) Hfree].
  pose proof (num_bounds _ _ _ _ D) as Hnb. pose proof (do_num _ _ _ _ D) as Hnum.
  pose proof (size_remove c (sharers e) Hin) as Hsz.
  assert (wp (_ ← tcc_remove N l c (LineState c i); mret (cyc, false)) w (tcc_post x l c i kN s (eq stI) cyc w)) as Hrem.
  { apply wp_bind. unfold tcc_remove. apply wp_bind. eapply wp_zoom_tcc_get; [done..|].
    apply wp_bind. eapply wp_lift; [by apply bit_rd_ok|]. apply wp_bind, wp_assert; [by rewrite bool_decide_eq_true_2|].
    set (e' := mkEntry (numSharers e - 1) (sharers e ∖ {[c]}) (owners e) (exclusive e)).
    apply wp_bind. eapply (wp_upd_entry N l _ w kN e e'); [done|done| |].
    { rewrite (set_sharer_ok e c false Hc). unfold mbind, outcome_bind, set_num. cbn.
      rewrite u32_small by (rewrite max32_eq; lia). done. }
    intros kN1 Hu1. set (w1 := set_caches w _).
    eapply wp_mono; [eapply (tcc_finish x l c i kN s e' stI (eq stI) cyc cyc false w w1 kN1); try done|].
    - intros c1 k1 Hc1 Hk1. exists k1. split; [rewrite (caches_ne w w1 N c1 kN1) by (done || lia); done|].
      left. apply kupd_refl.
    - by eapply (caches_set w); [rewrite HkN|].
    - by exists k.
    - unfold u32lat. lia.
    - intros w2 Hl2. assert (forall c' st, (c' < N)%nat -> lst w2 c' x st <-> c' <> c /\ lst w c' x st) as Hl.
      { intros c' st Hc'. rewrite Hl2 by done. unfold lst at 1. rewrite (caches_ne w w1 N c' kN1) by (done || lia).
        fold (lst w c' x st). intuition. }
      apply dir_ok_lst; try done; cbn [sharers numSharers e' exclusive].
      + intros c'. rewrite elem_of_difference, elem_of_singleton, Hsh. split.
        * intros [[Hc' [st Hst']] Hne]. split; [done|]. exists st. by apply Hl.
        * intros [Hc' [st Hst']]. apply Hl in Hst' as [Hne Hst']; [|done]. split; [|done]. split; [done|]. by exists st.
      + lia.
      + unfold entry_isExclusive. cbn. intros [E1 E2]%andb_true_iff. pose proof (do_excl1 _ _ _ _ D E2). lia.
      + intros E. pose proof (do_excl1 _ _ _ _ D E). lia.
      + intros c' st Hc' Hst'. apply Hl in Hst' as [Hne Hst']; [|done]. pose proof (Hst c' st Hc' Hst') as Hst2.
        assert (entry_isExclusive e' = false) as ->.
        { unfold entry_isExclusive, e'. cbn. destruct (exclusive e) eqn:E; [|by rewrite andb_false_r].
          pose proof (do_excl1 _ _ _ _ D E). lia. }
        destruct (entry_isExclusive e) eqn:E; [|done]. exfalso. apply Hne.
        unfold entry_isExclusive in E. apply andb_true_iff in E as [E%Z.eqb_eq _].
        assert (sharers e ∖ {[c]} = ∅) as Ez by (apply leibniz_equiv, size_empty_inv; lia).
        assert (c' ∈ sharers e) by (apply Hsh; split; [done|by exists st]). set_solver.
    - intros ? w2 Hp. by apply wp_ret. }
  unfold tcc_processAccess. apply wp_bind. eapply wp_zoom_tcc_get; [done..|].
  destruct Ht as [-> | ->]; [exact Hrem|]. rewrite (Hx eq_refl) in *.
  apply wp_bind, wp_assert; [by destruct (entry_isExclusive e)|]. exact Hrem.
Qed.

Lemma wp_gets_case f x l c i excl cyc src fl (w : W) kN e s :
  tcc_pre w x l c i kN e s stI -> (excl = true -> s = stE \/ s = stM) -> 0 <= cyc -> cyc + 2 * u32lat < max64 ->
  wp (tcc_processAccess sys (L (S f)) N x l GETS c excl (LineState c i) false cyc src fl) w
    (tcc_post x l c i kN s (fun s' => s' = stS \/ s' = stE) cyc w).
Proof.
  intros T Hexcl Hcyc Hcyc1. pose proof (tcc_pre_dir _ _ _ _ _ _ _ _ _ T) as D. destruct (dir_lst _ _ _ _ D) as [Hsh Hst].
  assert (c ∉ sharers e) as Hout by (intros Hin; by apply (tcc_pre_sharer _ _ _ _ _ _ _ _ _ T) in Hin).
  pose proof T as [I HkN Htag He Hsl Hsne Hx0 Hc (k & Hk & Hi & Hsi) Hfree].
  pose proof (num_bounds _ _ _ _ D) as Hnb. pose proof (do_num _ _ _ _ D) as Hnum.
  unfold tcc_processAccess. apply wp_bind. eapply wp_zoom_tcc_get; [done..|].
  destruct (entry_isEmpty e && excl && (Z.land fl NOEXCL =? 0)) eqn:EA.
  - apply andb_true_iff in EA as [[Eemp%Z.eqb_eq Ee]%andb_true_iff _].
    assert (sharers e = ∅) as Es by (apply leibniz_equiv, size_empty_inv; lia).
    set (e' := mkEntry 1 ({[c]} ∪ sharers e) ({[c]} ∪ owners e) true).
    apply wp_bind. eapply (wp_upd_entry N l _ w kN e e'); [done|done|by rewrite add_child_ok|].
    intros kN1 Hu1. set (w1 := set_caches w _). apply wp_bind.
    eapply wp_mono; [eapply (tcc_finish x l c i kN s e' stE (fun s' => s' = stS \/ s' = stE) cyc cyc false w w1 kN1); try done|].
    + intros c1 k1 Hc1 Hk1. exists k1. split; [rewrite (caches_ne w w1 N c1 kN1) by (done || lia); done|].
      left. apply kupd_refl.
    + by eapply (caches_set w); [rewrite HkN|].
    + by exists k.
    + unfold u32lat. lia.
    + by right.
    + intros w2 Hl2. assert (forall c' st, (c' < N)%nat -> lst w2 c' x st <-> c' = c /\ st = stE) as Hl.
      { intros c' st Hc'. rewrite Hl2 by done. unfold lst at 1. rewrite (caches_ne w w1 N c' kN1) by (done || lia).
        fold (lst w c' x st). split; [|by intros [-> ->]; left].
        intros [(-> & -> & _)|[_ Hl]]; [done|]. assert (c' ∈ sharers e) by (apply Hsh; split; [done|by exists st]). set_solver. }
      apply dir_ok_lst; try done; cbn [sharers numSharers e' exclusive].
      * intros c'. rewrite Es. split.
        -- intros Hc'. assert (c' = c) as -> by set_solver. split; [done|]. exists stE. by apply Hl.
        -- intros [Hc' [st Hst']]. apply Hl in Hst' as [-> _]; [set_solver|done].
      * rewrite Es, (union_empty_r_L {[c]}). by rewrite size_singleton.
      * intros _. by apply Hexcl.
      * intros c' st Hc' Hst'. apply Hl in Hst' as [_ ->]; [|done]. by left.
    + intros ? w2 Hp. by apply wp_ret.
  - apply wp_bind. eapply wp_lift; [by apply bit_rd_ok|]. apply wp_bind, wp_assert; [by rewrite bool_decide_eq_false_2|].
    apply wp_bind. eapply (wp_mono _ _ (fun r w1 => send_post x INVX l e kN cyc false w r w1)).
    { destruct (entry_isExclusive e) eqn:Ex.
      - apply (wp_send f x INVX cyc src l w kN e false); try done.
        + intros c'. by apply (sharers_lt w x e s).
        + intros c' Hc'. by apply (inv_targets w x e s).
      - apply wp_ret. apply send_post_same; try done; unfold send_entry, send_set; by rewrite Ex. }
    intros [r wb] w1 ((kN1 & HkN1 & Hu1) & Hleaves & Henv & Hr & Hwb). cbv beta iota. cbn [fst snd] in *.
    set (e1 := send_entry INVX e) in *. pose proof Hu1 as (Eb1 & Et1 & Ea1 & Ef1).
    assert (tcc kN1 !! l = Some e1) as He1 by (rewrite Et1; apply list_lookup_insert_eq, lookup_lt_is_Some_1; by rewrite He).
    assert (entry_isExclusive e1 = false /\ sharers e1 = sharers e /\ numSharers e1 = numSharers e) as (Ex1 & Es1 & En1).
    { unfold e1, send_entry. destruct (entry_isExclusive e) eqn:Ex; [|done]. unfold entry_isExclusive. cbn. by rewrite andb_false_r. }
    apply wp_bind. eapply wp_zoom_tcc_get; [done..|]. apply wp_bind, wp_assert; [by rewrite Ex1|].
    set (e2 := mkEntry (numSharers e + 1) ({[c]} ∪ sharers e) ({[c]} ∪ owners e1) false).
    apply wp_bind. eapply (wp_upd_entry N l _ w1 kN1 e1 e2); [done|done| |].
    { rewrite add_child_ok by done. unfold mbind, outcome_bind, set_excl, set_num.
      cbn [numSharers sharers owners exclusive]. rewrite En1, Es1. rewrite u32_small by (rewrite max32_eq; lia). done. }
    intros kN2 Hu2. set (w2 := set_caches w1 _). apply wp_bind.
    assert (send_set INVX e ≠ ∅ -> x <> 0) as Hx' by done.
    pose proof (leaves_inv_step x INVX _ w w1 Hx' Hleaves) as Hstep1.
    eapply wp_mono; [eapply (tcc_finish x l c i kN s e2 stS (fun s' => s' = stS \/ s' = stE) cyc r wb w w2 kN2); try done|].
    + eapply leaves_step_caches; [|exact Hstep1]. intros c' Hc'. by apply (caches_ne w1 w2 N c' kN2).
    + by eapply (caches_set w1); [rewrite HkN1|].
    + destruct Hu2 as (Eb2 & Et2 & Ea2 & Ef2). rewrite Et1, list_insert_insert_eq in Et2. repeat split; congruence.
    + by exists k.
    + intros Hw. destruct (Hwb Hw) as [|(c' & k' & Hc' & _)]; [done|]. unfold send_set in Hc'.
      destruct (entry_isExclusive e) eqn:Ex; [by apply (do_excl _ _ _ _ D)|set_solver].
    + by left.
    + intros w3 Hl3.
      assert (forall c' st, (c' < N)%nat -> lst w3 c' x st <-> (c' = c /\ st = stS) \/
        (c' <> c /\ ((c' ∉ send_set INVX e /\ lst w c' x st) \/ (c' ∈ send_set INVX e /\ st = stS)))) as Hl.
      { intros c' st Hc'. rewrite Hl3 by done. unfold lst at 1. rewrite (caches_ne w1 w2 N c' kN2) by (done || lia).
        fold (lst w1 c' x st). rewrite (lst_inv x INVX _ w w1 c' st I Hleaves Hc' Hx0) by done. naive_solver. }
      apply dir_ok_lst; try done; cbn [sharers numSharers e2 exclusive].
      * intros c'. rewrite elem_of_union, elem_of_singleton. split.
        -- intros [->|Hc']; [split; [done|]; exists stS; apply Hl; auto|].
           pose proof (proj1 (Hsh c') Hc') as [HcN [st Hst']]. split; [done|].
           destruct (decide (c' ∈ send_set INVX e)); [exists stS|exists st]; apply Hl; try done; right; (split; [by intros ->|]); auto.
        -- intros [Hc' [st Hst']]. apply Hl in Hst' as [[-> _]|[Hne [[_ Hst']|[Hin _]]]]; [by left|right|right|done].
           ++ apply Hsh. split; [done|]. by exists st.
           ++ unfold send_set in Hin. destruct (entry_isExclusive e); set_solver.
      * rewrite size_union by set_solver. rewrite size_singleton. lia.
      * unfold entry_isExclusive. cbn. by rewrite andb_false_r.
      * intros c' st Hc' Hst'. assert (entry_isExclusive e2 = false) as ->.
        { unfold entry_isExclusive. cbn. by rewrite andb_false_r. }
        apply Hl in Hst' as [[_ ->]|[Hne [[Hn Hst']|[_ ->]]]]; try done.
        pose proof (Hst c' st Hc' Hst') as H1. unfold send_set in Hn. destruct (entry_isExclusive e); [|done].
        exfalso. apply Hn, Hsh. split; [done|]. by exists st.
    + intros ? w3 Hp. by apply wp_ret.
Qed.

(** GETX: the requester leaves the sharers, if it was one, the others are
    invalidated, and it comes back alone. *)
Lemma getx_drop x l c i (w : W) kN e s s0 :
  tcc_pre w x l c i kN e s s0 -> (s0 = stI \/ s0 = stS) ->
  wp (whenS (bool_decide (c ∈ sharers e)) (
        _ ← assertS (negb (entry_isExclusive e));
        upd_entry N l (fun e => e ← set_sharer e c false; mret (set_num e (numSharers e -32 1))))) w
    (fun _ w1 => exists kN1 e1, caches w1 = <[N := kN1]> (caches w) /\
       kupd kN kN1 (bcc kN) (<[l := e1]> (tcc kN)) (arr kN) /\ env w w1 /\
       sharers e1 = sharers e ∖ {[c]} /\ numSharers e1 = Z.of_nat (size (sharers e1))).
Proof.
  intros T Hs0. pose proof (tcc_pre_dir _ _ _ _ _ _ _ _ _ T) as D.
  pose proof (num_bounds _ _ _ _ D) as Hnb. pose proof (do_num _ _ _ _ D) as Hnum.
  pose proof (tcc_pre_sharer _ _ _ _ _ _ _ _ _ T) as Hsh.
  pose proof T as [I HkN Htag He Hsl Hsne Hx0 Hc _ Hfree]. apply wp_when; intros Hin.
  - apply bool_decide_eq_true_1 in Hin. pose proof (tcc_pre_state _ _ _ _ _ _ _ _ _ T (proj1 Hsh Hin)) as Hex.
    apply wp_bind, wp_assert.
    { destruct (entry_isExclusive e); [|done]. destruct Hs0 as [-> | ->]; destruct Hex; done. }
    pose proof (size_remove c (sharers e) Hin) as Hsz.
    set (e1 := mkEntry (numSharers e - 1) (sharers e ∖ {[c]}) (owners e) (exclusive e)).
    eapply (wp_upd_entry N l _ w kN e e1); [done|done| |].
    { rewrite (set_sharer_ok e c false Hc). unfold mbind, outcome_bind, set_num. cbn.
      rewrite u32_small by (rewrite max32_eq; lia). done. }
    intros kN1 Hu1. exists kN1, e1. split; [done|]. split; [done|]. split; [apply env_caches|]. split; [done|].
    cbn. lia.
  - apply bool_decide_eq_false_1 in Hin. exists kN, e. rewrite list_insert_id by done. split; [done|].
    rewrite list_insert_id by done. split; [apply kupd_refl|]. split; [apply env_refl|]. split; [set_solver|done].
Qed.

Lemma wp_getx_case f x l c i cyc src fl (w : W) kN e s0 :
  tcc_pre w x l c i kN e stM s0 -> (s0 = stI \/ s0 = stS) -> 0 <= cyc -> cyc + 2 * u32lat < max64 ->
  wp (tcc_processAccess sys (L (S f)) N x l GETX c true (LineState c i) false cyc src fl) w
    (tcc_post x l c i kN stM (eq stM) cyc w).
Proof.
  intros T Hs0 Hcyc Hcyc1. pose proof (tcc_pre_dir _ _ _ _ _ _ _ _ _ T) as D. destruct (dir_lst _ _ _ _ D) as [Hsh Hst].
  pose proof T as [I HkN Htag He Hsl Hsne Hx0 Hc (k & Hk & Hi & Hsi) Hfree].
  unfold tcc_processAccess. apply wp_bind. eapply wp_zoom_tcc_get; [done..|].
  apply wp_bind, wp_assert; [done|]. apply wp_bind. eapply wp_lift; [by apply bit_rd_ok|].
  apply wp_bind. eapply wp_mono; [by eapply getx_drop|].
  intros _ w1 (kN1 & e1 & Hw1 & Hu1 & Henv1 & Es1 & En1). pose proof Hu1 as (Eb1 & Et1 & Ea1 & Ef1).
  assert (caches w1 !! N = Some kN1) as HkN1 by (eapply caches_set; [by rewrite HkN|done]).
  assert (tcc kN1 !! l = Some e1) as He1 by (rewrite Et1; apply list_lookup_insert_eq, lookup_lt_is_Some_1; by rewrite He).
  assert (forall c', (c' < N)%nat -> caches w1 !! c' = caches w !! c') as Hoth1.
  { intros c' Hc'. apply (caches_ne w w1 N c' kN1); [done|lia]. }
  assert (forall c', c' ∈ sharers e1 -> inv_target x INV w1 c') as Htgt.
  { intros c'. rewrite Es1. intros [Hin _]%elem_of_difference. destruct Henv1 as (El & _).
    destruct (inv_targets w x e stM INV c' I D Hfree Hin ltac:(done)) as (HcN & Hb & Hf & kc & Hrest).
    split; [done|]. rewrite El. split; [done|]. split; [done|]. exists kc. by rewrite Hoth1. }
  apply wp_bind. eapply wp_mono; [apply (wp_send f x INV cyc src l w1 kN1 e1 false); try done|].
  { intros c' Hc'. by destruct (Htgt c' Hc'). }
  intros [r wb] w2 ((kN2 & HkN2 & Hu2) & Hleaves & Henv2 & Hr & Hwb). cbv beta iota. cbn [fst snd] in *.
  set (e2 := send_entry INV e1) in *. pose proof Hu2 as (Eb2 & Et2 & Ea2 & Ef2).
  assert (tcc kN2 !! l = Some e2) as He2 by (rewrite Et2; apply list_lookup_insert_eq, lookup_lt_is_Some_1; by rewrite He1).
  set (e3 := mkEntry 1 ({[c]} ∪ ∅) ({[c]} ∪ owners e1) true).
  apply wp_bind. eapply (wp_upd_entry N l _ w2 kN2 e2 e3); [done|done|by rewrite add_child_ok|].
  intros kN3 Hu3. set (w3 := set_caches w2 _).
  assert (caches w3 !! N = Some kN3) as HkN3 by (by eapply (caches_set w2); [rewrite HkN2|]).
  pose proof Hu3 as (Eb3 & Et3 & Ea3 & Ef3).
  apply wp_bind. eapply (wp_zoom_tcc_get N l w3 kN3 e3); [done|rewrite Et3; apply list_lookup_insert_eq, lookup_lt_is_Some_1; by rewrite He2|].
  apply wp_bind, wp_assert; [done|]. apply wp_bind.
  assert (leaves_step x w w2) as Hstep.
  { intros c' kc Hc' Hkc. apply (leaves_inv_step x INV (sharers e1) w1 w2 (fun _ => Hx0) Hleaves c' kc Hc').
    by rewrite Hoth1. }
  eapply wp_mono; [eapply (tcc_finish x l c i kN stM e3 stM (eq stM) cyc r wb w w3 kN3); try done|].
  - eapply leaves_step_caches; [|exact Hstep]. intros c' Hc'. by apply (caches_ne w2 w3 N c' kN3).
  - eapply env_trans; [done|]. eapply env_trans; [done|apply env_caches].
  - rewrite Et2, list_insert_insert_eq, Et1, list_insert_insert_eq in Et3. repeat split; congruence.
  - by exists k.
  - intros _. by right.
  - intros w4 Hl4. assert (forall c' st, (c' < N)%nat -> lst w4 c' x st <-> c' = c /\ st = stM) as Hl.
    { intros c' st Hc'. rewrite Hl4 by done. split; [|by intros [-> ->]; left].
      intros [(-> & -> & _)|[Hne Hst2]]; [done|]. exfalso.
      destruct Hst2 as (kc & Hkc & Hh). rewrite (caches_ne w2 w3 N c' kN3) in Hkc by (done || lia).
      destruct (Hleaves c' ltac:(lia)) as [Ha Hb]. destruct (decide (c' ∈ sharers e1)) as [Hin|Hn].
      - destruct (Ha Hin) as (k1 & k2 & Hk1 & Hk2 & ix & sx & Hti & Hsx & Hsxne & Hux).
        destruct (inv_leaf _ I c' Hc') as (k0 & Hk0 & Hwf & _). rewrite Hoth1 in Hk1 by done.
        assert (k0 = k1) as -> by congruence. assert (k2 = kc) as -> by congruence.
        apply (holds_put k1 kc ix x stI _ x st Hwf Hux Hti Hx0) in Hh. naive_solver.
      - rewrite Hb in Hkc by done. rewrite Hoth1 in Hkc by done. apply Hn. rewrite Es1.
        apply elem_of_difference. split; [|set_solver]. apply Hsh. split; [done|]. exists st. by exists kc. }
    apply dir_ok_lst; try done; cbn [sharers numSharers e3 exclusive].
    + intros c'. rewrite (union_empty_r_L {[c]}), elem_of_singleton. split.
      * intros ->. split; [done|]. exists stM. by apply Hl.
      * intros [Hc' [st Hst']]. by apply Hl in Hst' as [-> _].
    + rewrite (union_empty_r_L {[c]}). by rewrite size_singleton.
    + intros _. by right.
    + intros c' st Hc' Hst'. apply Hl in Hst' as [_ ->]; [|done]. by right.
  - intros ? w4 Hp. by apply wp_ret.
Qed.

End two_level.
