(* ===== verification/TwoLevelRun.v ===== *)
(** * Runs of the two-level hierarchy

    The request of a leaf as the shared cache serves it ([Cache::access] of the
    root), the leaf's own eviction, write-back, miss and hit, an access by a
    core, and any sequence of accesses: each returns and keeps the invariant of
    TwoLevel. *)

From S2P Require Import Prelude TimingEvent MemHier MTRand ReplPolicies CacheArrays World Coherence Cache Translation Memory TwoLevel.
Local Open Scope Z_scope.

Section run.
Context {A M : Type} {CA : CacheArray A} {CL : CacheArrayLaws A} {RA : RefreshArray A} {MC : MemCtrl M} {ML : MemCtrlLaws M}.
Context {sys : Sys} {N K : nat} {leaf : nat -> CacheConf} {root : CacheConf} {TL : two_level sys N K leaf root}.

Notation W := (World A M).
Notation CS := (CacheState A).
Notation P f := (mkUpper (access_any sys f false) (access_any sys f true) checkSkew).
Notation L f := (lower sys f).
Notation Inv := (TwoLevel.Inv (N := N) (K := K) (leaf := leaf)).
Notation env := (TwoLevel.env (K := K)).
Notation leaves_step := (TwoLevel.leaves_step (N := N)).
Notation leaves_keep := (TwoLevel.leaves_keep (N := N)).
Notation leaves_free := (TwoLevel.leaves_free (N := N)).
Notation dir_ok := (TwoLevel.dir_ok (N := N)).
Notation tcc_post := (TwoLevel.tcc_post (N := N) (K := K)).
Notation tcc_pre := (TwoLevel.tcc_pre (N := N) (K := K) (leaf := leaf)).

(** ** A request from a leaf, in the shared cache *)

(** What a request of type [t] finds, and leaves, in the requester's line. *)
Definition req_from (t : AccessType) (s0 : MESIState) : Prop :=
  match t with GETS => s0 = stI | GETX => s0 = stI \/ s0 = stS | PUTS => s0 <> stI | PUTX => s0 = stM end.
Definition req_to (t : AccessType) (s : MESIState) : Prop :=
  match t with GETS => s = stS \/ s = stE | GETX => s = stM | PUTS | PUTX => s = stI end.

Record req_ok (req : MemReq) (c i : nat) (s0 : MESIState) : Prop := {
  ro_c : (c < N)%nat;
  ro_x : lineAddr req <> 0;
  ro_word : word 64 (lineAddr req);
  ro_state : state req = LineState c i;
  ro_child : childId req = c;
  ro_init : initialState req = s0;
  ro_lock : childLock req = CCLock c;
  ro_from : req_from (type req) s0;
  ro_noprefetch : req_is req PREFETCH = false;
  ro_putflags : IsPut (type req) = true -> flags req = 0;
  ro_cyc0 : 0 <= cycle req;
  ro_cyc1 : cycle req + 4 * big < max64
}.

(** Line [i] of leaf [c] is for the request's address, in state [s0]. *)
Definition at_line (w : W) (c i : nat) (x : Z) (s0 : MESIState) : Prop :=
  exists k, caches w !! c = Some k /\ ca_tag (arr k) i = Some x /\ bcc k !! i = Some s0.

Definition root_ready (w : W) : Prop := exists kN, caches w !! N = Some kN /\ ca_wf false (arr kN).

(** The leaves' arrays are untouched. *)
Definition leaves_arr (w w' : W) : Prop := forall c k, (c < N)%nat -> caches w !! c = Some k ->
  exists k', caches w' !! c = Some k' /\ arr k' = arr k.

Definition root_post (req : MemReq) (c i : nat) (cyc lat : Z) (w : W) (r : Z) (w' : W) : Prop :=
  cyc <= r <= cyc + lat /\ Inv w' /\ env w w' /\ root_ready w' /\ leaves_arr w w' /\
  exists s', at_line w' c i (lineAddr req) s' /\ req_to (type req) s'.

Lemma leaves_step_arr x (w w' : W) : leaves_step x w w' -> leaves_arr w w'.
Proof.
  intros Hl c k Hc Hk. destruct (Hl c k Hc Hk) as (k' & Hk' & Hs). exists k'. split; [done|].
  by destruct (leaf_step_frame _ _ _ Hs) as (? & _).
Qed.

Lemma leaves_keep_arr x (w w' : W) : leaves_keep x w w' -> leaves_arr w w'.
Proof. intros Hl c k Hc Hk. destruct (Hl c k Hc Hk) as (k' & Hk' & Ea & _). by exists k'. Qed.

Lemma leaves_arr_trans (w1 w2 w3 : W) : leaves_arr w1 w2 -> leaves_arr w2 w3 -> leaves_arr w1 w3.
Proof.
  intros H1 H2 c k Hc Hk. destruct (H1 c k Hc Hk) as (k2 & Hk2 & E2).
  destruct (H2 c k2 Hc Hk2) as (k3 & Hk3 & E3). exists k3. split; [done|congruence].
Qed.

Lemma leaves_arr_same (w w' : W) : (forall c, (c < N)%nat -> caches w' !! c = caches w !! c) -> leaves_arr w w'.
Proof. intros E c k Hc Hk. exists k. by rewrite E. Qed.

Lemma at_line_keep x (w w' : W) c i s0 : (c < N)%nat -> leaves_keep x w w' -> at_line w c i x s0 -> at_line w' c i x s0.
Proof.
  intros Hc Hl (k & Hk & Hi & Hs). destruct (Hl c k Hc Hk) as (k' & Hk' & Ea & Hb). exists k'.
  rewrite Ea, Hb by done. done.
Qed.

(** From the directory step to the end of [processAccess]. *)
Lemma tcc_to_post req c i l kN s new cyc r wb (w w1 : W) :
  (c < N)%nat -> Inv w -> caches w !! N = Some kN -> ca_tag (arr kN) l = Some (lineAddr req) ->
  bcc kN !! l = Some s -> s <> stI -> lineAddr req <> 0 -> ca_wf false (arr kN) -> (exists s0, at_line w c i (lineAddr req) s0) ->
  tcc_post (lineAddr req) l c i kN s new cyc w (r, wb) w1 -> (forall s', new s' -> req_to (type req) s') ->
  wp (_ ← whenS wb (bcc_processWritebackOnAccess N l); mret r) w1 (root_post req c i cyc (2 * u32lat) w).
Proof.
  intros Hc I HkN Htag Hs Hsne Hx Hready (s0 & k0 & Hk0 & Hi0 & _)
    (Hr & Henv & Hstep & Hwb & (kN1 & e1 & HkN1 & Hu1 & HD) & Hnew) Hto.
  cbn [fst snd] in *. set (x := lineAddr req) in *. pose proof Hu1 as (Eb1 & Et1 & Ea1 & Ef1).
  assert (bcc kN1 !! l = Some s) as Hs1 by (by rewrite Eb1).
  assert (l < length (bcc kN1))%nat as Hlt by (apply lookup_lt_is_Some_1; by rewrite Hs1).
  assert (forall w2 kN2 s2, (forall c', c' <> N -> caches w2 !! c' = caches w1 !! c') -> caches w2 !! N = Some kN2 ->
    kupd kN1 kN2 (<[l := s2]> (bcc kN1)) (tcc kN1) (arr kN1) -> env w1 w2 -> dir_ok w1 x e1 s2 ->
    root_post req c i cyc (2 * u32lat) w r w2) as Hend.
  { intros w2 kN2 s2 Hoth HkN2 Hu2 Henv2 HD2. pose proof Hu2 as (Eb2 & Et2 & Ea2 & Ef2).
    assert (leaves_step x w w2) as Hstep2 by by eapply leaves_step_caches.
    split; [done|]. split; [|split; [by eapply env_trans|split; [|split]]].
    - eapply (Inv_line w w2 kN kN2 l x e1 s2); try done.
      + rewrite Eb1 in Eb2. repeat split; congruence.
      + by eapply env_trans.
      + eapply dir_ok_ext; [|exact HD2]. intros c' st Hc'. by rewrite Hoth by lia.
    - exists kN2. split; [done|]. by rewrite Ea2, Ea1.
    - by eapply leaves_step_arr.
    - destruct Hnew as (k' & s' & Hk' & Hs' & Hn). exists s'. split; [|auto]. exists k'.
      rewrite Hoth by lia. split; [done|]. split; [|done].
      destruct (Hstep c k0 Hc Hk0) as (k1 & Hk1 & Hst). destruct (leaf_step_frame _ _ _ Hst) as (Ea & _).
      assert (k1 = k') as -> by congruence. by rewrite Ea. }
  apply wp_bind, wp_when; intros Ewb; subst wb.
  - unfold bcc_processWritebackOnAccess. apply wp_bind. eapply wp_zoom_bcc_get; [done..|].
    apply wp_bind, wp_assert; [by destruct (Hwb eq_refl) as [-> | ->]|]. apply wp_when; intros Es.
    + eapply wp_zoom_bcc_put; [done..|]. intros kN2 Hu2. apply wp_ret.
      apply (Hend _ kN2 stM); [|by eapply (caches_set w1); [rewrite HkN1|]|done|apply env_caches|by eapply dir_ok_M].
      intros c' Hc'. by apply (caches_ne w1 _ N c' kN2).
    + apply wp_ret. apply (Hend w1 kN1 s); try done.
      rewrite list_insert_id by done. apply kupd_refl.
  - apply wp_ret. apply (Hend w1 kN1 s); try done.
    rewrite list_insert_id by done. apply kupd_refl.
Qed.

Lemma root_post_from req c i cyc cyc' lat lat' (w w1 w2 : W) r :
  root_post req c i cyc' lat' w1 r w2 -> env w w1 -> leaves_arr w w1 -> cyc <= cyc' -> cyc' + lat' <= cyc + lat ->
  root_post req c i cyc lat w r w2.
Proof.
  intros (Hr & I & Henv & Hrdy & Harr & Hs) Henv1 Harr1 H1 H2. split; [lia|]. split; [done|].
  split; [by eapply env_trans|]. split; [done|]. split; [by eapply leaves_arr_trans|done].
Qed.

(** The bottom controller's part of an access: the line's state is good for the
    directory step that follows. *)
Definition bcc_post (t : AccessType) (l : nat) (kN : CS) (s : MESIState) (cyc : Z) (w : W) (r : Z) (w' : W) : Prop :=
  cyc <= r <= cyc + u32lat /\
  exists k' s1, caches w' = <[N := k']> (caches w) /\ kupd kN k' (<[l := s1]> (bcc kN)) (tcc kN) (arr kN) /\
    env w w' /\ s1 <> stI /\ (t = GETX -> s1 = stM) /\ (s = stE \/ s = stM -> s1 = stE \/ s1 = stM).

Lemma wp_root_bcc_put g x l t (w : W) kN s cyc src fl :
  caches w !! N = Some kN -> bcc kN !! l = Some s -> (t = PUTS /\ s <> stI \/ t = PUTX /\ (s = stE \/ s = stM)) ->
  wp (bcc_processAccess sys (P g) N x l t cyc src fl) w (bcc_post t l kN s cyc w).
Proof.
  intros HkN Hs Ht. assert (l < length (bcc kN))%nat as Hlt by (apply lookup_lt_is_Some_1; by rewrite Hs).
  unfold bcc_processAccess. apply wp_bind. eapply wp_conf; [apply conf_root|].
  apply wp_bind. eapply wp_zoom_bcc_get; [done..|].
  assert (forall w' k' s1, caches w' = <[N := k']> (caches w) ->
    kupd kN k' (<[l := s1]> (bcc kN)) (tcc kN) (arr kN) -> env w w' -> s1 <> stI -> t <> GETX ->
    (s = stE \/ s = stM -> s1 = stE \/ s1 = stM) ->
    wp (_ ← assertS (cyc <=? cyc); mret cyc) w' (bcc_post t l kN s cyc w)) as Hend.
  { intros w' k' s1 Hw' Hu He H1 H2 H3. apply wp_bind, wp_assert; [lia|]. apply wp_ret. unfold bcc_post, u32lat.
    split; [lia|]. exists k', s1. repeat (split; [done|]). done. }
  destruct Ht as [[-> Hne]|[-> Hem]].
  - apply wp_bind, wp_bind, wp_assert; [by rewrite bool_decide_eq_false_2|].
    apply wp_bind. eapply wp_zoom_prof; [done|]. intros k1 Hu1. apply wp_ret.
    apply (Hend _ k1 s); try done. by rewrite list_insert_id.
  - apply wp_bind, wp_bind, wp_assert; [by destruct Hem as [-> | ->]|]. apply wp_bind.
    eapply (wp_mono _ _ (fun _ w1 => exists k1, caches w1 = <[N := k1]> (caches w) /\
      kupd kN k1 (<[l := stM]> (bcc kN)) (tcc kN) (arr kN) /\ env w w1)).
    { apply wp_when; intros Es.
      - eapply wp_zoom_bcc_put; [done..|]. intros k1 Hk1. by exists k1.
      - apply bool_decide_eq_false_1 in Es. exists kN. rewrite list_insert_id by done. split; [done|].
        assert (s = stM) as -> by (by destruct Hem). rewrite list_insert_id by done. by split. }
    intros _ w1 (k1 & Hw1 & (Eb1 & Et1 & Ea1 & Ef1) & Henv1).
    apply wp_bind. eapply wp_zoom_prof; [eapply caches_set; [by rewrite HkN|done]|].
    intros k2 (Eb2 & Et2 & Ea2 & Ef2). apply wp_ret. apply (Hend _ k2 stM); try done; try (by right).
    + cbn [caches set_caches]. by rewrite Hw1, list_insert_insert_eq.
    + repeat split; congruence.
Qed.

(** The directory step and the induced write-back, from a good state. *)
Lemma wp_root_dir f req c i l cyc (w : W) kN e s s0 fl :
  tcc_pre w (lineAddr req) l c i kN e s s0 -> ca_wf false (arr kN) -> req_ok req c i s0 ->
  (type req = GETX -> s = stM) -> (IsPut (type req) = true -> fl = 0) ->
  0 <= cyc -> cyc + 2 * u32lat < max64 ->
  wp (excl ← isExclusive N l;
      '(respCycle, wb) ← tcc_processAccess sys (L (S f)) N (lineAddr req) l (type req) (childId req) excl (state req)
                           false cyc (srcId req) fl;
      _ ← whenS wb (bcc_processWritebackOnAccess N l);
      mret respCycle) w (root_post req c i cyc (2 * u32lat) w).
Proof.
  intros T Hready R Hx Hfl Hc0 Hc1. pose proof T as [I HkN Htag He Hs Hsne Hx0 Hc Hleaf Hfree].
  apply wp_bind. unfold isExclusive. apply wp_bind. eapply wp_zoom_bcc_get; [done..|]. apply wp_ret.
  set (excl := bool_decide (s = stE) || bool_decide (s = stM)).
  assert (excl = true -> s = stE \/ s = stM) as Hexcl by (unfold excl; destruct s; naive_solver).
  assert (exists new, wp (tcc_processAccess sys (L (S f)) N (lineAddr req) l (type req) (childId req) excl (state req)
      false cyc (srcId req) fl) w (tcc_post (lineAddr req) l c i kN s new cyc w) /\
    forall s', new s' -> req_to (type req) s') as (new & Htcc & Hto).
  { rewrite (ro_child _ _ _ _ R), (ro_state _ _ _ _ R). pose proof (ro_from _ _ _ _ R) as Hfrom.
    destruct (type req) eqn:Et; cbn [req_from req_to IsPut] in *.
    - subst s0. eexists. split; [by apply (wp_gets_case f _ l c i excl cyc (srcId req) fl w kN e s)|done].
    - specialize (Hx eq_refl). subst s. eexists. split; [by apply (wp_getx_case f _ l c i cyc (srcId req) fl w kN e s0)|naive_solver].
    - rewrite (Hfl eq_refl). eexists. split; [apply (wp_put_case _ _ l PUTS c i excl cyc (srcId req) w kN e s s0); auto; done|naive_solver].
    - rewrite (Hfl eq_refl). eexists. split; [apply (wp_put_case _ _ l PUTX c i excl cyc (srcId req) w kN e s s0); subst; auto; done|naive_solver]. }
  apply wp_bind. eapply wp_mono; [exact Htcc|]. intros [r wb] w1 Hpost. cbv beta iota.
  apply (tcc_to_post req c i l kN s new cyc r wb w w1); try done. by exists s0.
Qed.

(** A leaf's own valid copy is known to the directory: the shared line is valid,
    and exclusive or modified when the leaf's copy is modified. *)
Lemma leaf_root_state (w : W) kN l c i x e s s0 :
  Inv w -> caches w !! N = Some kN -> ca_tag (arr kN) l = Some x -> tcc kN !! l = Some e -> bcc kN !! l = Some s ->
  x <> 0 -> (c < N)%nat -> at_line w c i x s0 -> s0 <> stI -> s <> stI /\ (s0 = stM -> s = stE \/ s = stM).
Proof.
  intros I HkN Htag He Hs Hx Hc (k & Hk & Hi & Hsi) Hne.
  destruct (inv_root _ I) as (kN0 & HkN0 & Hwf & _ & Hdir & Hincl). assert (kN0 = kN) as -> by congruence.
  assert (holds k x s0) as Hh by by exists i.
  destruct (Hincl c k x s0 Hc Hk Hh) as (s1 & Hs1). pose proof (holds_at kN x s1 l Hwf Hs1 Htag) as E.
  assert (s1 = s) as -> by congruence. split; [by destruct Hs1 as (_ & _ & _ & ?)|]. intros ->.
  pose proof (Hdir l x e s Htag He Hs) as D. pose proof (do_states _ _ _ _ D c k stM Hc Hk Hh) as Hst.
  destruct (entry_isExclusive e) eqn:Ex; [|done]. by apply (do_excl _ _ _ _ D).
Qed.

Lemma wp_root_process f g req c i l cyc (w : W) kN s0 :
  Inv w -> caches w !! N = Some kN -> ca_wf false (arr kN) -> ca_tag (arr kN) l = Some (lineAddr req) ->
  req_ok req c i s0 -> at_line w c i (lineAddr req) s0 -> leaves_free w -> 0 <= cyc -> cyc + 2 * big < max64 ->
  wp (processAccess sys (P (S g)) (L (S f)) N req (Some l) cyc) w (root_post req c i cyc (3 * u32lat) w).
Proof.
  intros I HkN Hready Htag R Hat Hfree Hc0 Hc1. pose proof R as [Hc Hx Hword Hst Hch Hin Hlk Hfrom Hnp Hpf _ _].
  destruct (inv_root _ I) as (kN0 & HkN0 & Hwf & Hlen & Hdir & _). assert (kN0 = kN) as -> by congruence.
  destruct (cache_wf_bcc kN l _ Hwf Htag) as [s Hs].
  destruct (lookup_lt_is_Some_2 (tcc kN) l) as [e He].
  { rewrite Hlen, <- (cw_len _ Hwf). apply lookup_lt_is_Some_1. by rewrite Hs. }
  pose proof (Hdir l _ e s Htag He Hs) as D.
  assert (IsPut (type req) = true -> s0 <> stI) as Hput0.
  { destruct (type req); cbn in *; try done. by intros _ ->. }
  set (fl := Z.land (flags req) (Z.lnot PREFETCH)).
  assert (IsPut (type req) = true -> fl = 0) as Hfl by (intros Hp; unfold fl; by rewrite (Hpf Hp)).
  assert (wp (bcc_processAccess sys (P (S g)) N (lineAddr req) l (type req) cyc (srcId req) fl) w
    (bcc_post (type req) l kN s cyc w)) as Hbcc.
  { destruct (IsPut (type req)) eqn:Ep.
    - destruct (leaf_root_state w kN l c i _ e s s0 I HkN Htag He Hs Hx Hc Hat (Hput0 eq_refl)) as [Hsne Hem].
      apply wp_root_bcc_put; try done. destruct (type req); cbn in *; try done; [by left|right; auto].
    - eapply (wp_root_bcc g _ l (type req) w kN s); try done; [apply I|destruct (type req); auto; done|unfold big in *; lia]. }
  unfold processAccess. apply wp_bind. eapply wp_conf; [apply conf_root|]. rewrite (rc_terminal _ _ _ root_ok).
  apply wp_bind. eapply (wp_mono _ _ (fun b w' => b = false /\ w' = w)).
  { destruct (IsPut (type req)) eqn:Ep; [|by apply wp_ret].
    destruct (leaf_root_state w kN l c i _ e s s0 I HkN Htag He Hs Hx Hc Hat (Hput0 eq_refl)) as [Hsne _].
    apply wp_bind. unfold isValid. apply wp_bind. eapply wp_zoom_bcc_get; [done..|]. apply wp_ret, wp_ret.
    by rewrite bool_decide_eq_false_2. }
  intros ? ? [-> ->]. cbv zeta. rewrite Hnp. apply wp_bind, wp_assert; [done|]. apply wp_bind.
  eapply wp_mono; [exact Hbcc|].
  intros cyc1 w1 (Hr & kN1 & s1 & Hw1 & Hu1 & Henv1 & Hs1 & Hgx & Hem). pose proof Hu1 as (Eb1 & Et1 & Ea1 & _).
  assert (caches w1 !! N = Some kN1) as HkN1 by (eapply caches_set; [by rewrite HkN|done]).
  assert (forall c', (c' < N)%nat -> caches w1 !! c' = caches w !! c') as Hoth.
  { intros c' Hc'. apply (caches_ne w w1 N c' kN1); [done|lia]. }
  assert (tcc_pre w1 (lineAddr req) l c i kN1 e s1 s0) as T.
  { constructor; try done; rewrite ?Ea1, ?Et1, ?Eb1; try done.
    - eapply (Inv_line w w1 kN kN1 l _ e s1); try done.
      + rewrite (list_insert_id (tcc kN)) by done. done.
      + intros c' k Hc' Hk. exists k. rewrite Hoth by done. split; [done|]. left. apply kupd_refl.
      + eapply (dir_ok_ext w); [intros c' st Hc'; by rewrite Hoth|].
        constructor; try apply D; [done|]. intros Ex. apply Hem, (do_excl _ _ _ _ D Ex).
    - apply list_lookup_insert_eq, lookup_lt_is_Some_1. by rewrite Hs.
    - destruct Hat as (k & Hk & ?). exists k. by rewrite Hoth.
    - destruct Henv1 as (El & _). unfold TwoLevel.leaves_free. by rewrite El. }
  eapply wp_mono; [apply (wp_root_dir f req c i l cyc1 w1 kN1 e s1 s0 fl T); try done; unfold u32lat, big in *; try lia|].
  { by rewrite Ea1. }
  intros r w2 Hpost. eapply root_post_from; [exact Hpost|done|by apply leaves_arr_same|lia|lia].
Qed.

(** ** [Cache::access] of the shared cache *)

Lemma dir_ok_locks (w : W) X x e s : dir_ok w x e s -> dir_ok (set_locks w X) x e s.
Proof. intros D. constructor; apply D. Qed.

Lemma Inv_locks (w : W) X : Inv w -> Inv (set_locks w X).
Proof.
  intros I. constructor; try apply I. destruct (inv_root _ I) as (kN & HkN & Hwf & Hlen & Hdir & Hincl).
  exists kN. repeat (split; [done|]). split; [|done]. intros j x e s H1 H2 H3. by apply dir_ok_locks, (Hdir j).
Qed.

Lemma wp_pop_none i o (w : W) (Q : option TimingRecord -> W -> Prop) :
  Inv w -> eventRecorders w !! i = Some o -> Q None w -> wp (pop_record i) w Q.
Proof.
  intros I Ho HQ. unfold pop_record. apply wp_bind, wp_get, wp_bind. eapply wp_lift; [by apply rd_some|].
  destruct o as [r|]; [|by apply wp_ret]. unfold hasRecord. rewrite (inv_recs _ I i r Ho). by apply wp_ret.
Qed.

Lemma req_with_same req : req_with_type req (type req) = req.
Proof. by destruct req. Qed.

(** No race: the state is what the requester saw. *)
Lemma wp_race_none req c i s0 (w : W) (Q : bool * MemReq -> W -> Prop) :
  state req = LineState c i -> initialState req = s0 -> (exists x, at_line w c i x s0) -> Q (false, req) w ->
  wp (race_check req) w Q.
Proof.
  intros Hst Hin (x & k & Hk & _ & Hs) HQ. unfold race_check. apply wp_bind. rewrite Hst. cbn [state_get].
  eapply wp_zoom_bcc_get; [done..|]. apply wp_bind. eapply wp_lift.
  { unfold CheckForMESIRace. by rewrite Hin, bool_decide_eq_true_2. }
  cbv beta iota. apply wp_ret. by rewrite req_with_same.
Qed.

Lemma wp_root_lookup f g req c i resp (w : W) s0 :
  Inv w -> root_ready w -> req_ok req c i s0 -> at_line w c i (lineAddr req) s0 -> leaves_free w ->
  0 <= resp -> resp + big < max64 ->
  wp (find_or_fill sys (P (S g)) (L (S f)) N req resp) w (fill_post (N := N) (K := K) (leaf := leaf) (lineAddr req) w).
Proof.
  intros I (kN & HkN & Hready) R (k & Hk & Hi & Hs) Hfree Hc0 Hc1. pose proof R as [Hc Hx Hword _ _ _ _ Hfrom _ _ _ _].
  destruct (IsGet (type req)) eqn:Eg; [by apply (wp_root_fill f g req w kN)|].
  apply (wp_root_hit f g req w kN); try done.
  destruct (inv_root _ I) as (kN0 & HkN0 & _ & _ & _ & Hincl). assert (kN0 = kN) as -> by congruence.
  assert (s0 <> stI) as Hne by (destruct (type req); cbn in *; try done; by subst).
  destruct (Hincl c k (lineAddr req) s0 Hc Hk) as (s1 & j & Hj & _); [by exists i|]. by exists j.
Qed.

Lemma wp_root_access f g req c i (w : W) s0 :
  Inv w -> root_ready w -> req_ok req c i s0 -> at_line w c i (lineAddr req) s0 -> locks w = {[LBcc c]} ->
  is_Some (eventRecorders w !! srcId req) ->
  wp (cache_access sys (P (S g)) (L (S f)) N req) w (root_post req c i (cycle req) (4 * u32lat) w).
Proof.
  intros I Hready R Hat Hlocks [rec Hrec]. pose proof R as [Hc Hx Hword Hst Hch Hin Hlk Hfrom Hnp Hpf Hc0 Hc1].
  assert (word 32 (accLat root)) as [Ha0 Ha1] by apply root_ok.
  unfold cache_access. apply wp_bind. eapply wp_conf; [apply conf_root|]. apply wp_bind.
  (* take the locks *)
  unfold startAccess. apply wp_bind. eapply wp_conf; [apply conf_root|]. rewrite (rc_terminal _ _ _ root_ok).
  apply wp_bind. rewrite Hlk. cbn [whenS]. apply wp_ret. apply wp_bind. cbn [childLock_do]. apply wp_unlock.
  apply wp_bind, wp_lock; [cbn [locks set_locks]; rewrite Hlocks; set_solver|].
  apply wp_bind, wp_lock; [cbn [locks set_locks]; rewrite Hlocks; set_solver|].
  set (w1 := set_locks _ _). assert (locks w1 = {[LBcc N]} ∪ ({[LTcc N]} ∪ (locks w ∖ {[LBcc c]}))) as Hl1 by done.
  assert (Inv w1) as I1 by by apply Inv_locks, Inv_locks, Inv_locks.
  assert (leaves_free w1) as Hfree.
  { intros c' Hc'. rewrite Hl1, Hlocks. split; [|set_solver]. intros Hin'.
    assert (LBcc c' = LBcc N) as [=]; [set_solver|lia]. }
  eapply (wp_race_none req c i s0); [done|done|by exists (lineAddr req)|]. cbv beta iota.
  (* the access proper *)
  apply wp_bind. set (resp := cycle req +64 accLat root).
  assert (resp = cycle req + accLat root) as Er by (unfold resp; apply u64_small; unfold big in *; lia).
  apply wp_bind. eapply wp_mono; [apply (wp_root_lookup f g req c i resp w1 s0); try done; unfold big in *; lia|].
  intros [o hit] w2 (l & kN2 & Ho & I2 & Henv2 & HkN2 & Hrdy2 & Htag2 & Hkeep). cbn [fst] in Ho. subst o. cbv beta iota.
  apply wp_bind. apply (wp_pop_none _ rec); [done|by rewrite (proj1 (proj2 Henv2))|].
  assert (leaves_free w2) as Hfree2 by (destruct Henv2 as (El & _); unfold TwoLevel.leaves_free; by rewrite El).
  apply wp_bind. eapply wp_mono; [apply (wp_root_process f g req c i l resp w2 kN2 s0); try done; unfold big in *; try lia|].
  { by apply (at_line_keep _ w1). }
  intros r w3 (Hr & I3 & Henv3 & Hrdy3 & Harr3 & s' & Hat3 & Hto). apply wp_bind. unfold stitch. apply wp_ret, wp_ret.
  (* release the locks *)
  apply wp_bind. unfold endAccess. apply wp_bind. eapply wp_conf; [apply conf_root|]. rewrite Hlk.
  assert (locks w3 = locks w1) as Hl3.
  { destruct Henv3 as (E3 & _), Henv2 as (E2 & _). congruence. }
  apply wp_bind. cbn [childLock_do]. apply wp_lock.
  { rewrite Hl3, Hl1, Hlocks. intros Hin'. assert (LBcc c = LBcc N) as [=]; [set_solver|lia]. }
  apply wp_bind, wp_unlock. rewrite (rc_terminal _ _ _ root_ok). cbn [whenS negb]. apply wp_unlock.
  apply wp_bind, wp_assert; [unfold u32lat in *; lia|]. apply wp_ret.
  split; [unfold u32lat in *; lia|]. split; [by apply Inv_locks, Inv_locks, Inv_locks|].
  split; [|split; [done|split; [|by exists s']]].
  - split; [|split].
    + cbn [locks set_locks]. rewrite Hl3, Hl1, Hlocks. apply set_eq. intros y.
      rewrite !elem_of_difference, !elem_of_union, !elem_of_difference, !elem_of_singleton.
      assert (LBcc c <> LBcc N) by (intros [=]; lia). split; [tauto|]. intros ->. repeat split; [by left|done..].
    + cbn [eventRecorders set_locks]. destruct Henv3 as (_ & -> & _), Henv2 as (_ & -> & _). done.
    + intros Hm. apply Henv3, Henv2, Hm.
  - eapply (leaves_arr_trans w w2 w3); [by apply (leaves_keep_arr (lineAddr req) w1 w2)|done].
Qed.

(** ** Changes of a leaf that no directory sees *)

(** The tags change only on invalid lines. *)
Definition leaf_retag (k : CS) (a' : A) : Prop :=
  ca_lines a' = ca_lines (arr k) /\ (exists p, ca_wf p a') /\
  forall j, ca_tag a' j = ca_tag (arr k) j \/
    bcc k !! j = Some stI /\ exists x, ca_tag a' j = Some x /\ word 64 x.

Lemma leaf_retag_refl k : cache_wf k -> leaf_retag k (arr k).
Proof. intros Hk. split; [done|]. split; [apply Hk|]. by left. Qed.

Lemma leaf_retag_holds k k' a' x st : leaf_retag k a' -> kupd k k' (bcc k) (tcc k) a' -> holds k' x st <-> holds k x st.
Proof.
  intros (_ & _ & Ht) (Eb & _ & Ea & _). unfold holds. rewrite Ea, Eb.
  split; intros (i & Hi & Hs & Hne); exists i; (split; [|done]); destruct (Ht i) as [E|[E _]]; congruence.
Qed.

Lemma leaf_retag_wf k k' a' : cache_wf k -> leaf_retag k a' -> kupd k k' (bcc k) (tcc k) a' -> cache_wf k'.
Proof.
  intros Hk (Hl & Hp & Ht) (Eb & _ & Ea & _). constructor; rewrite ?Ea, ?Eb, ?Hl; try apply Hk; [done| |].
  - intros i x Hi. destruct (Ht i) as [E|(_ & y & Hy & Hw)]; [|congruence]. rewrite E in Hi. by eapply cw_word.
  - intros i Hi. destruct (Ht i) as [E|(E & _)]; [|done]. rewrite E in Hi. by apply (cw_zero _ Hk).
Qed.

Lemma Inv_leaf (w w' : W) c k k' a' :
  Inv w -> (c < N)%nat -> caches w !! c = Some k -> leaf_retag k a' -> caches w' = <[c := k']> (caches w) ->
  kupd k k' (bcc k) (tcc k) a' -> env w w' -> Inv w'.
Proof.
  intros I Hc Hk Hrt Hw' Hu (El & Er & Em).
  assert (caches w' !! c = Some k') as Hk' by (eapply caches_set; [by rewrite Hk|done]).
  assert (forall d, d <> c -> caches w' !! d = caches w !! d) as Hoth.
  { intros d Hd. by apply (caches_ne w w' c d k'). }
  destruct (inv_leaf _ I c Hc) as (k0 & Hk0 & Hwf & Hfil). assert (k0 = k) as -> by congruence.
  assert (forall d x st, (exists kd, caches w' !! d = Some kd /\ holds kd x st) <->
                         (exists kd, caches w !! d = Some kd /\ holds kd x st)) as Hh.
  { intros d x st. destruct (decide (d = c)) as [->|Hd]; [|by rewrite Hoth].
    pose proof (leaf_retag_holds k k' a' x st Hrt Hu) as E.
    split; intros (kd & Hkd & H); [exists k|exists k']; (split; [done|]); apply E; congruence. }
  constructor.
  - apply Em, I.
  - rewrite Er. apply I.
  - intros d Hd. destruct (decide (d = c)) as [->|Hne]; [|rewrite Hoth by done; by apply (inv_leaf _ I)].
    exists k'. split; [done|]. split; [by eapply leaf_retag_wf|]. intros fc x Hfc Hx.
    destruct Hu as (_ & _ & _ & ->). by apply Hfil.
  - destruct (inv_root _ I) as (kN & HkN & HwfN & Hlen & Hdir & Hincl). exists kN.
    rewrite Hoth by lia. repeat (split; [done|]). split.
    + intros j x e s H1 H2 H3. eapply (dir_ok_ext w); [|by apply (Hdir j)]. intros d st _. apply Hh.
    + intros d kd x st Hd Hkd H. destruct (proj1 (Hh d x st)) as (k1 & Hk1 & H1); [by exists kd|]. by apply (Hincl d k1 x st).
Qed.

(** The silent upgrade of an exclusive copy. *)
Lemma Inv_silent (w w' : W) c i x k k' :
  Inv w -> (c < N)%nat -> caches w !! c = Some k -> ca_tag (arr k) i = Some x ->
  (bcc k !! i = Some stE \/ bcc k !! i = Some stM) ->
  caches w' = <[c := k']> (caches w) -> kupd k k' (<[i := stM]> (bcc k)) (tcc k) (arr k) -> env w w' -> Inv w'.
Proof.
  intros I Hc Hk Hi Hs Hw' Hu Henv. assert (exists s0, bcc k !! i = Some s0 /\ (s0 = stE \/ s0 = stM)) as (s0 & Hs0 & Hem).
  { destruct Hs as [Hs|Hs]; [by exists stE; auto|by exists stM; auto]. }
  destruct (inv_leaf _ I c Hc) as (k0 & Hk0 & Hwf & Hfil). assert (k0 = k) as -> by congruence.
  assert (holds k x s0) as Hh by (exists i; repeat split; try done; by destruct Hem as [-> | ->]).
  pose proof (holds_nonzero k x s0 Hwf Hh) as Hx.
  destruct (inv_root _ I) as (kN & HkN & HwfN & Hlen & Hdir & Hincl).
  destruct (Hincl c k x s0 Hc Hk Hh) as (s & l & Hl & Hsl & Hsne).
  destruct (lookup_lt_is_Some_2 (tcc kN) l) as [e He].
  { rewrite Hlen, <- (cw_len _ HwfN). apply lookup_lt_is_Some_1. by rewrite Hsl. }
  pose proof (Hdir l x e s Hl He Hsl) as D. destruct (dir_lst _ _ _ _ D) as [Hsh Hst].
  pose proof (do_states _ _ _ _ D c k s0 Hc Hk Hh) as Hex.
  assert (entry_isExclusive e = true) as Ex by (destruct (entry_isExclusive e); [done|]; subst s0; by destruct Hem).
  eapply (Inv_line w w' kN kN l x e s); try done.
  - rewrite (caches_ne w w' c N k') by (done || lia). done.
  - rewrite !list_insert_id by done. apply kupd_refl.
  - by eapply (put_step c i x stM w w' k k').
  - assert (forall d st, lst w' d x st <-> (d = c /\ st = stM /\ stM <> stI) \/ (d <> c /\ lst w d x st)) as Hl'.
    { intros d st. by eapply (lst_put c i x stM w w' k k'). }
    assert (lst w c x s0) as Hlc by by exists k.
    apply dir_ok_lst; try done.
    + intros d. rewrite Hsh. split; intros [Hd [st Hd']]; (split; [done|]).
      * destruct (decide (d = c)) as [->|Hne]; [exists stM|exists st]; apply Hl'; auto.
      * apply Hl' in Hd' as [(-> & _)|[_ Hd']]; [by exists s0|by exists st].
    + apply D.
    + apply D.
    + apply D.
    + rewrite Ex in *. intros d st Hd. rewrite Hl'. intros [(-> & -> & _)|[_ Hd']]; [by right|by apply (Hst d)].
Qed.

(** ** A leaf's requests to the shared cache *)

Lemma leaf_parent c x : (c < N)%nat -> getParentId (leaf c) x = Ok 0%nat.
Proof.
  intros Hc. unfold getParentId. rewrite (lc_parents _ _ _ (leaf_ok c Hc)). cbn [length].
  by rewrite Z.mod_1_r.
Qed.

Lemma wp_leaf_up g c i t x s cyc src fl (w : W) :
  Inv w -> root_ready w -> (c < N)%nat -> at_line w c i x s -> x <> 0 -> word 64 x -> req_from t s ->
  Z.land fl PREFETCH = 0 -> (IsPut t = true -> fl = 0) -> 0 <= cyc -> cyc + 4 * big < max64 ->
  locks w = {[LBcc c]} -> is_Some (eventRecorders w !! src) ->
  let req := bcc_req c i (leaf c) x t cyc s src fl in
  wp (p ← lift (rd (parents (leaf c)) 0); up_access (P (S (S g))) p req) w (root_post req c i cyc (4 * u32lat) w).
Proof.
  intros I Hrdy Hc Hat Hx Hword Hfrom Hnp Hpf Hc0 Hc1 Hlocks Hrec req. pose proof (leaf_ok c Hc) as Hleaf.
  apply wp_bind. eapply wp_lift; [apply rd_some; by rewrite (lc_parents _ _ _ Hleaf)|].
  cbn [up_access access_any]. change cyc with (cycle req).
  apply (wp_root_access (S g) g req c i w s); try done. constructor; try done; cbn.
  - apply (lc_self _ _ _ Hleaf).
  - unfold req_is. cbn. by rewrite Hnp.
Qed.

Record leaf_post (w w' : W) : Prop := {
  lp_inv : Inv w';
  lp_env : env w w';
  lp_root : root_ready w';
  lp_arr : leaves_arr w w'
}.

Lemma leaf_post_refl w : Inv w -> root_ready w -> leaf_post w w.
Proof. intros I R. constructor; try done. by apply leaves_arr_same. Qed.

(** ** Eviction from a leaf *)

Lemma wp_leaf_evict g f c i y s src req cyc (w : W) :
  Inv w -> root_ready w -> (c < N)%nat -> at_line w c i y s -> srcId req = src ->
  0 <= cyc -> cyc + 4 * big < max64 -> locks w = {[LBcc c]} -> is_Some (eventRecorders w !! src) ->
  wp (processEviction sys (P (S (S g))) (L f) c req y i cyc) w (fun _ w' => leaf_post w w' /\ at_line w' c i y stI).
Proof.
  intros I Hrdy Hc Hat <- Hc0 Hc1 Hlocks Hrec. pose proof (leaf_ok c Hc) as Hleaf. pose proof Hat as (k & Hk & Hi & Hs).
  destruct (inv_leaf _ I c Hc) as (k0 & Hk0 & Hwf & _). assert (k0 = k) as -> by congruence.
  unfold processEviction. apply wp_bind. eapply wp_conf; [by apply conf_leaf|]. rewrite (lc_terminal _ _ _ Hleaf).
  unfold bcc_processEviction. apply wp_bind. eapply wp_conf; [by apply conf_leaf|]. cbn [whenS].
  apply wp_bind, wp_ret. apply wp_bind. eapply wp_zoom_bcc_get; [done..|]. apply wp_bind.
  assert (forall (r : Z) w', leaf_post w w' -> at_line w' c i y stI ->
    wp (s ← zoom c (bcc_get i); _ ← assertS (bool_decide (s = stI)); mret r) w'
       (fun _ w' => leaf_post w w' /\ at_line w' c i y stI)) as Hend.
  { intros r w' Hp (k' & Hk' & Hi' & Hs'). apply wp_bind. eapply wp_zoom_bcc_get; [done..|].
    apply wp_bind, wp_assert; [done|]. apply wp_ret. split; [done|]. by exists k'. }
  assert (forall t, IsPut t = true -> req_from t s ->
    wp (put_up sys (P (S (S g))) (leaf c) (bcc_req c i (leaf c) y t cyc s (srcId req) 0)) w (fun r w' =>
      wp (s ← zoom c (bcc_get i); _ ← assertS (bool_decide (s = stI)); mret r) w'
         (fun _ w' => leaf_post w w' /\ at_line w' c i y stI))) as Hput.
  { intros t Hp Hfrom. assert (y <> 0) as Hy.
    { intros ->. rewrite (cw_zero _ Hwf i Hi) in Hs. injection Hs as <-. by destruct t. }
    assert (word 64 y) as Hword by (by eapply cw_word).
    unfold put_up. apply wp_bind. cbn [lineAddr bcc_req]. rewrite (leaf_parent c y Hc). eapply wp_lift; [done|].
    destruct (start_bank_ok 0) as [b Hb]. apply wp_bind. eapply wp_lift; [done|]. rewrite (lc_isL2 _ _ _ Hleaf).
    eapply wp_mono; [by apply (wp_leaf_up g c i t y s cyc (srcId req) 0 w)|].
    intros r w' (Hr & I' & Henv & Hrdy' & Harr & s' & Hat' & Hto). apply Hend; [by constructor|].
    cbn [type lineAddr bcc_req] in *. destruct t; cbn in Hto; try done; by subst s'. }
  destruct s; [apply wp_ret, Hend; [by apply leaf_post_refl|done]|by apply Hput..].
Qed.

(** ** A leaf's own miss or hit *)

Lemma leaf_post_trans w1 w2 w3 : leaf_post w1 w2 -> leaf_post w2 w3 -> leaf_post w1 w3.
Proof.
  intros [I1 E1 R1 A1] [I2 E2 R2 A2]. constructor; [done|by eapply env_trans|done|by eapply leaves_arr_trans].
Qed.

Lemma leaf_post_rec w w' i : leaf_post w w' -> is_Some (eventRecorders w !! i) -> is_Some (eventRecorders w' !! i).
Proof. intros H. by rewrite (proj1 (proj2 (lp_env _ _ H))). Qed.

Lemma leaf_post_locks w w' : leaf_post w w' -> locks w' = locks w.
Proof. intros H. by destruct (lp_env _ _ H). Qed.

(** A change of leaf [c] alone that keeps its lines. *)
Lemma leaf_post_own (w w' : W) c k k' a' :
  Inv w -> root_ready w -> (c < N)%nat -> caches w !! c = Some k -> leaf_retag k a' -> arr k' = arr k ->
  caches w' = <[c := k']> (caches w) -> kupd k k' (bcc k) (tcc k) a' -> env w w' -> leaf_post w w'.
Proof.
  intros I (kN & HkN & Hr) Hc Hk Hrt Ea Hw' Hu Henv. constructor; [by eapply Inv_leaf|done| |].
  - exists kN. by rewrite (caches_ne w w' c N k') by (done || lia).
  - intros d kd Hd Hkd. destruct (decide (d = c)) as [->|Hne].
    + exists k'. split; [eapply caches_set; [by rewrite Hk|done]|]. congruence.
    + exists kd. by rewrite (caches_ne w w' c d k').
Qed.

Lemma wp_leaf_prof c i x s cnt n (w : W) (Q : unit -> W -> Prop) :
  Inv w -> root_ready w -> (c < N)%nat -> at_line w c i x s ->
  (forall w', leaf_post w w' -> at_line w' c i x s -> Q tt w') -> wp (zoom c (prof_inc cnt n)) w Q.
Proof.
  intros I Hr Hc (k & Hk & Hi & Hs) HQ. eapply wp_zoom_prof; [done|]. intros k' Hu. pose proof Hu as (Eb & _ & Ea & _).
  apply HQ.
  - eapply (leaf_post_own w _ c k k' (arr k)); try done. apply leaf_retag_refl.
    destruct (inv_leaf _ I c Hc) as (k0 & Hk0 & Hwf & _). by assert (k0 = k) as <- by congruence.
  - exists k'. split; [by eapply (caches_set w); [rewrite Hk|]|]. by rewrite Ea, Eb.
Qed.

Lemma wp_leaf_get_up g c i x t s cyc src fl (w : W) :
  Inv w -> root_ready w -> (c < N)%nat -> at_line w c i x s -> x <> 0 -> word 64 x -> IsGet t = true -> req_from t s ->
  Z.land fl PREFETCH = 0 -> 0 <= cyc -> cyc + 4 * big < max64 ->
  locks w = {[LBcc c]} -> is_Some (eventRecorders w !! src) ->
  wp (get_up sys (P (S (S g))) c (leaf c) (bcc_req c i (leaf c) x t cyc s src fl)) w (fun r w' =>
    cyc <= r <= cyc + u32lat /\ leaf_post w w' /\ exists s', at_line w' c i x s' /\ req_to t s').
Proof.
  intros I Hrdy Hc Hat Hx Hword Hget Hfrom Hnp Hc0 Hc1 Hlocks Hrec. pose proof (leaf_ok c Hc) as Hleaf.
  unfold get_up. cbn [lineAddr cycle bcc_req]. apply wp_bind. rewrite (leaf_parent c x Hc). eapply wp_lift; [done|].
  destruct (start_bank_ok 0) as [b Hb]. apply wp_bind. eapply wp_lift; [done|]. rewrite (lc_isL2 _ _ _ Hleaf).
  apply wp_bind. set (req := bcc_req c i (leaf c) x t cyc s src fl).
  assert (wp (p ← lift (rd (parents (leaf c)) 0); up_access (P (S (S g))) p req) w (root_post req c i cyc (4 * u32lat) w)) as Hup.
  { apply wp_leaf_up; try done. by destruct t. }
  eapply (wp_mono (p ← lift (rd (parents (leaf c)) 0); r ← up_access (P (S (S g))) p req; mret (u32 (r - cyc))) _
    (fun lat w' => 0 <= lat < u32lat /\ leaf_post w w' /\ exists s', at_line w' c i x s' /\ req_to t s')).
  { revert Hup. unfold wp, mbind, ST_bind, lift, mret, ST_ret.
    destruct (rd (parents (leaf c)) 0) as [p|]; [|done]. destruct (up_access _ p req w) as [[r w']|]; [|done].
    intros (Hr & I' & Henv & Hrdy' & Harr & s' & Hat' & Hto). split; [apply u32_bound|].
    split; [by constructor|]. by exists s'. }
  intros lat w1 (Hlat & Hp1 & s1 & Hat1 & Hto). destruct (lc_rtt _ _ _ Hleaf) as [rtt Hrtt].
  apply wp_bind. eapply wp_lift; [apply rd_some; by rewrite Hrtt|].
  apply wp_bind. eapply wp_leaf_prof; [apply Hp1|apply Hp1|done|done|]. intros w2 Hp2 Hat2.
  apply wp_bind. eapply wp_leaf_prof; [apply Hp2|apply Hp2|done|done|]. intros w3 Hp3 Hat3. apply wp_ret.
  pose proof (u32_bound (lat + rtt)) as Hb2. unfold u32lat, big in *. rewrite max32_eq in Hb2.
  rewrite u64_small by (rewrite max64_eq in *; lia). split; [lia|].
  split; [eapply leaf_post_trans; [done|by eapply leaf_post_trans]|by exists s1].
Qed.

Definition leaf_bcc_post (t : AccessType) (c i : nat) (x cyc : Z) (w : W) (r : Z) (w' : W) : Prop :=
  cyc <= r <= cyc + u32lat /\ leaf_post w w' /\
  exists s, at_line w' c i x s /\ s <> stI /\ (t = GETX -> s = stM).

Lemma wp_leaf_bcc g c i x t s cyc src fl (w : W) :
  Inv w -> root_ready w -> (c < N)%nat -> at_line w c i x s -> x <> 0 -> word 64 x -> IsGet t = true ->
  Z.land fl PREFETCH = 0 -> 0 <= cyc -> cyc + 4 * big < max64 ->
  locks w = {[LBcc c]} -> is_Some (eventRecorders w !! src) ->
  wp (bcc_processAccess sys (P (S (S g))) c x i t cyc src fl) w (leaf_bcc_post t c i x cyc w).
Proof.
  intros I Hrdy Hc Hat Hx Hword Hget Hnp Hc0 Hc1 Hlocks Hrec. pose proof Hat as (k & Hk & Hi & Hs).
  unfold bcc_processAccess. apply wp_bind. eapply wp_conf; [by apply conf_leaf|].
  apply wp_bind. eapply wp_zoom_bcc_get; [done..|].
  assert (forall r w' s', cyc <= r <= cyc + u32lat -> leaf_post w w' -> at_line w' c i x s' -> s' <> stI ->
    (t = GETX -> s' = stM) -> wp (_ ← assertS (cyc <=? r); mret r) w' (leaf_bcc_post t c i x cyc w)) as Hend.
  { intros r w' s' Hr Hp Ha Hne Hm. apply wp_bind, wp_assert; [lia|]. apply wp_ret. split; [done|]. split; [done|]. by exists s'. }
  destruct t; try done.
  - destruct (decide (s = stI)) as [->|Hne].
    + apply wp_bind, wp_bind. eapply wp_mono; [by apply (wp_leaf_get_up g c i x GETS stI)|].
      intros r w1 (Hr & Hp1 & s1 & Hat1 & Hto).
      apply wp_bind. eapply wp_leaf_prof; [apply Hp1|apply Hp1|done|done|]. intros w2 Hp2 (k2 & Hk2 & Hi2 & Hs2).
      apply wp_bind. eapply wp_zoom_bcc_get; [done..|]. apply wp_bind, wp_assert; [by destruct Hto as [-> | ->]|].
      apply wp_ret. apply (Hend r w2 s1); [done|by eapply leaf_post_trans|by exists k2|by destruct Hto as [-> | ->]|done].
    + rewrite bool_decide_eq_false_2 by done. apply wp_bind, wp_bind. eapply wp_leaf_prof; [done..|].
      intros w1 Hp1 Hat1. apply wp_ret. apply (Hend cyc w1 s); try done. unfold u32lat. lia.
  - assert (forall r w1, cyc <= r <= cyc + u32lat -> leaf_post w w1 -> at_line w1 c i x stM ->
      wp (s ← zoom c (bcc_get i); _ ← assertS (bool_decide (s = stM)); mret r) w1 (fun r' w2 =>
        wp (_ ← assertS (cyc <=? r'); mret r') w2 (leaf_bcc_post GETX c i x cyc w))) as Hx'.
    { intros r w1 Hr Hp1 (k1 & Hk1 & Hi1 & Hs1). apply wp_bind. eapply wp_zoom_bcc_get; [done..|].
      apply wp_bind, wp_assert; [done|]. apply wp_ret. apply (Hend r w1 stM); try done. by exists k1. }
    destruct (decide (s = stI \/ s = stS)) as [Hmiss|Hhit].
    + assert (bool_decide (s = stI) || bool_decide (s = stS) = true) as -> by (by destruct Hmiss as [-> | ->]).
      apply wp_bind, wp_bind, wp_bind. eapply wp_leaf_prof; [done..|]. intros w1 Hp1 Hat1.
      eapply wp_mono; [apply (wp_leaf_get_up g c i x GETX s); try done; [apply Hp1|apply Hp1| |]|].
      * by rewrite (leaf_post_locks _ _ Hp1).
      * by eapply leaf_post_rec.
      * intros r w2 (Hr & Hp2 & s2 & Hat2 & ->). apply Hx'; [done|by eapply leaf_post_trans|done].
    + assert (bool_decide (s = stI) || bool_decide (s = stS) = false) as -> by (destruct s; try done; exfalso; auto).
      apply wp_bind, wp_bind, wp_bind.
      eapply (wp_mono _ _ (fun _ w1 => leaf_post w w1 /\ at_line w1 c i x stM)).
      { apply wp_when; intros Es.
        - apply bool_decide_eq_true_1 in Es. subst s. eapply wp_zoom_bcc_put; [done|by apply lookup_lt_is_Some_1; rewrite Hs|].
          intros k1 Hu1. pose proof Hu1 as (Eb1 & _ & Ea1 & _). set (w1 := set_caches w _).
          assert (caches w1 !! c = Some k1) as Hk1 by (by eapply (caches_set w); [rewrite Hk|]).
          split; [constructor|].
          + eapply (Inv_silent w w1 c i x k k1); try done. by left.
          + done.
          + destruct Hrdy as (kN & HkN & Hr). exists kN. by rewrite (caches_ne w w1 c N k1) by (done || lia).
          + intros d kd Hd Hkd. destruct (decide (d = c)) as [->|Hne'].
            * exists k1. split; [done|congruence].
            * exists kd. by rewrite (caches_ne w w1 c d k1).
          + exists k1. rewrite Ea1, Eb1. split; [done|]. split; [done|]. apply list_lookup_insert_eq, lookup_lt_is_Some_1. by rewrite Hs.
        - apply bool_decide_eq_false_1 in Es. split; [by apply leaf_post_refl|].
          by assert (s = stM) as -> by (destruct s; try done; exfalso; auto). }
      intros _ w1 [Hp1 Hat1]. apply wp_bind. eapply wp_leaf_prof; [apply Hp1|apply Hp1|done|done|].
      intros w2 Hp2 Hat2. apply wp_ret. apply Hx'; [unfold u32lat; lia|by eapply leaf_post_trans|done].
Qed.

(** ** Lookup and fill in a leaf *)

Definition leaf_ready (w : W) (c : nat) : Prop := exists k, caches w !! c = Some k /\ ca_wf false (arr k).

(** The arrays of the leaves other than [c] are untouched. *)
Definition others_arr (c : nat) (w w' : W) : Prop := forall d k, (d < N)%nat -> d <> c -> caches w !! d = Some k ->
  exists k', caches w' !! d = Some k' /\ arr k' = arr k.

Lemma others_arr_trans c (w1 w2 w3 : W) : others_arr c w1 w2 -> others_arr c w2 w3 -> others_arr c w1 w3.
Proof.
  intros H1 H2 d k Hd Hne Hk. destruct (H1 d k Hd Hne Hk) as (k2 & Hk2 & E2).
  destruct (H2 d k2 Hd Hne Hk2) as (k3 & Hk3 & E3). exists k3. split; [done|congruence].
Qed.

Lemma others_arr_all c (w w' : W) : leaves_arr w w' -> others_arr c w w'.
Proof. intros H d k Hd _. by apply H. Qed.

Lemma others_arr_set c (w w' : W) k : caches w' = <[c := k]> (caches w) -> others_arr c w w'.
Proof. intros Hw' d kd Hd Hne Hkd. exists kd. by rewrite (caches_ne w w' c d k). Qed.

Definition leaf_fill_post (c : nat) (x : Z) (w : W) (r : option nat * bool) (w' : W) : Prop :=
  exists i s, r.1 = Some i /\ Inv w' /\ env w w' /\ root_ready w' /\ leaf_ready w' c /\ at_line w' c i x s /\
    others_arr c w w'.

Lemma root_ready_set (w w' : W) c k : (c < N)%nat -> caches w' = <[c := k]> (caches w) -> root_ready w -> root_ready w'.
Proof. intros Hc Hw' (kN & HkN & Hr). exists kN. by rewrite (caches_ne w w' c N k) by (done || lia). Qed.

(** A lookup that hits: the replacement state may change. *)
Lemma wp_leaf_hit g f c req resp (w : W) k :
  Inv w -> root_ready w -> (c < N)%nat -> caches w !! c = Some k -> ca_wf false (arr k) ->
  word 64 (lineAddr req) -> lineAddr req <> 0 -> (exists i, ca_tag (arr k) i = Some (lineAddr req)) ->
  wp (find_or_fill sys (P g) (L f) c req resp) w (leaf_fill_post c (lineAddr req) w).
Proof.
  intros I Hrdy Hc Hk Hready Hword Hx [i Hi].
  destruct (inv_leaf _ I c Hc) as (k0 & Hk0 & Hwf & _). assert (k0 = k) as -> by congruence.
  unfold find_or_fill. apply wp_bind. eapply wp_conf; [by apply conf_leaf|].
  destruct (ca_lookup_hit false (arr k) _ (if IsGet (type req) then Some req else None) i Hready Hword Hx Hi)
    as (a' & Hlk & Hwf' & Hlines & Htags & _).
  apply wp_bind. eapply wp_zoom; [done|]. eapply wp_arr_do; [done|]. cbv beta iota. apply wp_ret.
  set (k1 := set_arr k a'). set (w1 := set_caches w _).
  assert (caches w1 !! c = Some k1) as Hk1 by (by eapply (caches_set w); [rewrite Hk|]).
  destruct (cache_wf_bcc k i _ Hwf Hi) as [s Hs].
  exists i, s. split; [done|]. split; [|split; [done|split; [by eapply (root_ready_set w w1 c k1)|split; [by exists k1|split]]]].
  - eapply (Inv_leaf w w1 c k k1 a'); try done. split; [done|]. split; [by eexists|]. intros j. left. apply Htags.
  - exists k1. cbn [arr set_arr bcc k1]. by rewrite Htags.
  - by eapply others_arr_set.
Qed.

(** A fill: the victim is evicted, the new tag is on an invalid line. *)
Lemma wp_leaf_fill g f c req resp (w : W) :
  Inv w -> root_ready w -> (c < N)%nat -> leaf_ready w c -> word 64 (lineAddr req) -> lineAddr req <> 0 ->
  0 <= resp -> resp + 4 * big < max64 -> locks w = {[LBcc c]} -> is_Some (eventRecorders w !! srcId req) ->
  wp (find_or_fill sys (P (S (S g))) (L f) c req resp) w (leaf_fill_post c (lineAddr req) w).
Proof.
  intros I Hrdy Hc (k & Hk & Hready) Hword Hx Hc0 Hc1 Hlocks Hrec. set (x := lineAddr req) in *.
  destruct (tag_dec (arr k) false x Hready) as [Hhit|Hmiss]; [by eapply wp_leaf_hit|].
  destruct (inv_leaf _ I c Hc) as (k0 & Hk0 & Hwf & _). assert (k0 = k) as -> by congruence.
  pose proof (leaf_ok c Hc) as Hleaf.
  unfold find_or_fill. apply wp_bind. eapply wp_conf; [by apply conf_leaf|].
  apply wp_bind. eapply wp_zoom; [done|]. eapply wp_arr_do; [apply (ca_lookup_miss false); done|].
  set (k1 := set_arr k (arr k)). cbv beta iota.
  set (w1 := set_caches w _). assert (caches w1 !! c = Some k1) as Hk1 by (by eapply (caches_set w); [rewrite Hk|]).
  apply wp_bind. unfold shouldAllocate. apply wp_bind. eapply wp_conf; [by apply conf_leaf|].
  rewrite (lc_terminal _ _ _ Hleaf). apply wp_ret. apply wp_bind. eapply wp_zoom; [done|].
  apply wp_get. destruct (ca_preinsert_ok (arr k1) (view_of true k1) x req Hready Hword Hx)
    as (i & wb & a2 & Hpre & Hwf2 & Hlines2 & Htags2 & Hwbt & Hslot).
  set (w2 := set_caches w1 _). assert (caches w2 !! c = Some k1) as Hk2 by (by eapply (caches_set w1); [rewrite Hk1|]).
  apply wp_bind. eapply wp_zoom; [done|]. eapply wp_arr_do; [fold x; by rewrite Hpre|]. cbv beta iota.
  set (k3 := set_arr k1 a2). set (w3 := set_caches w2 _).
  assert (caches w3 = <[c := k3]> (caches w)) as Hw3.
  { unfold w3, w2, w1. cbn [caches set_caches]. by rewrite !list_insert_insert_eq. }
  assert (caches w3 !! c = Some k3) as Hk3 by (by eapply (caches_set w); [rewrite Hk|]).
  assert (Inv w3) as I3.
  { eapply (Inv_leaf w w3 c k k3 a2); try done. split; [done|]. split; [by eexists|]. intros j. left. apply Htags2. }
  assert (root_ready w3) as Hrdy3 by by eapply (root_ready_set w w3 c k3).
  destruct (inv_leaf _ I3 c Hc) as (k0 & Hk0' & Hwf3 & _). assert (k0 = k3) as -> by congruence.
  destruct (cache_wf_bcc k3 i wb Hwf3 Hwbt) as [s Hs].
  apply wp_bind. eapply wp_mono; [apply (wp_leaf_evict g f c i wb s (srcId req) req resp w3); try done; by exists k3|].
  intros _ w4 [[I4 Henv4 Hrdy4 Harr4] (k4 & Hk4 & Hi4 & Hs4)].
  assert (arr k4 = a2) as Ea4.
  { destruct (Harr4 c k3 Hc Hk3) as (k4' & Hk4' & E). assert (k4' = k4) as -> by congruence. done. }
  destruct (ca_postinsert_ok a2 x req i Hwf2 Hword Hslot) as (a5 & Hpost & Hwf5 & Hlines5 & Htag5 & Hoth5).
  { intros _ j. rewrite Htags2. apply Hmiss. }
  apply wp_bind. eapply wp_zoom; [done|]. eapply wp_arr_do; [rewrite Ea4; fold x; by rewrite Hpost|].
  cbv beta iota. apply wp_ret. set (k5 := set_arr k4 a5). set (w5 := set_caches w4 _).
  assert (caches w5 !! c = Some k5) as Hk5 by (by eapply (caches_set w4); [rewrite Hk4|]).
  exists i, stI. split; [done|]. split; [|split; [|split; [|split; [by exists k5|split]]]].
  - eapply (Inv_leaf w4 w5 c k4 k5 a5); try done. split; [by rewrite Ea4|]. split; [by eexists|].
    intros j. rewrite Ea4. destruct (decide (j = i)) as [->|Hne]; [|left; by apply Hoth5]. right. split; [done|]. by exists x.
  - eapply (env_trans w w3 w5); [by repeat split|]. eapply env_trans; [done|apply env_caches].
  - by eapply (root_ready_set w4 w5 c k5).
  - by exists k5.
  - eapply (others_arr_trans c w w3 w5); [by eapply others_arr_set|].
    eapply others_arr_trans; [by apply others_arr_all|by eapply others_arr_set].
Qed.

(** ** An access by a core *)

(** The request [FilterCache::replace] (or a core without a filter) makes. *)
Record core_req (req : MemReq) (c : nat) : Prop := {
  cr_c : (c < N)%nat;
  cr_x : lineAddr req <> 0;
  cr_word : word 64 (lineAddr req);
  cr_get : IsGet (type req) = true;
  cr_state : state req = DummyState;
  cr_init : initialState req = stI;
  cr_lock : childLock req = NoLock \/ childLock req = FilterLock c;
  cr_noprefetch : Z.land (flags req) PREFETCH = 0;
  cr_cyc0 : 0 <= cycle req;
  cr_cyc1 : cycle req + 8 * big < max64
}.

(** The locks a core holds when it calls its cache. *)
Definition core_locks (r : LockRef) : gset Lock :=
  match r with FilterLock c => {[LFilter c]} | _ => ∅ end.

(** A quiescent world: no access is in progress. *)
Record quiet (w : W) : Prop := {
  q_inv : Inv w;
  q_root : root_ready w;
  q_leaf c : (c < N)%nat -> leaf_ready w c
}.

Definition core_post (req : MemReq) (c : nat) (w : W) (r : Z) (w' : W) : Prop :=
  cycle req <= r <= cycle req + 2 * u32lat /\ quiet w' /\ locks w' = locks w /\
  eventRecorders w' = eventRecorders w /\
  exists s, lst w' c (lineAddr req) s /\ (type req = GETX -> s = stM).

Lemma wp_core_access g c req (w : W) :
  quiet w -> core_req req c -> dummy w = stI -> locks w = core_locks (childLock req) ->
  is_Some (eventRecorders w !! srcId req) ->
  wp (access sys (S (S (S g))) (RCache c) req) w (core_post req c w).
Proof.
  intros [I Hrdy Hlr] R Hdummy Hlocks Hrec. pose proof R as [Hc Hx Hword Hget Hst Hin Hlk Hnp Hc0 Hc1].
  pose proof (leaf_ok c Hc) as Hleaf. assert (word 32 (accLat (leaf c))) as [Ha0 Ha1] by apply Hleaf.
  unfold access. cbn [access_any]. unfold cache_access.
  apply wp_bind. eapply wp_conf; [by apply conf_leaf|]. apply wp_bind.
  unfold startAccess. apply wp_bind. eapply wp_conf; [by apply conf_leaf|]. rewrite (lc_terminal _ _ _ Hleaf).
  apply wp_bind. cbn [whenS negb]. apply wp_assert; [done|]. apply wp_bind.
  eapply (wp_mono _ _ (fun _ w1 => w1 = set_locks w ∅)).
  { destruct Hlk as [-> | ->] in Hlocks |- *; cbn [childLock_do core_locks] in *.
    - apply wp_ret. rewrite <- Hlocks. by destruct w.
    - apply wp_unlock. rewrite Hlocks. f_equal. set_solver. }
  intros _ w0 ->. apply wp_bind, wp_ret. apply wp_bind, wp_lock; [set_solver|]. set (w1 := set_locks _ _).
  assert (locks w1 = {[LBcc c]}) as Hl1 by (unfold w1; cbn [locks set_locks]; set_solver).
  assert (Inv w1) as I1 by by apply Inv_locks, Inv_locks.
  unfold race_check. apply wp_bind. rewrite Hst. cbn [state_get]. apply wp_bind, wp_get, wp_ret. apply wp_bind.
  eapply wp_lift; [unfold CheckForMESIRace; cbn [dummy w1 set_locks]; by rewrite Hin, Hdummy|].
  cbv beta iota. apply wp_ret. rewrite req_with_same. cbv beta iota. apply wp_bind.
  set (resp := cycle req +64 accLat (leaf c)).
  assert (resp = cycle req + accLat (leaf c)) as Er by (unfold resp; apply u64_small; unfold big in *; lia).
  apply wp_bind. eapply wp_mono; [apply (wp_leaf_fill g (S (S (S g))) c req resp w1); try done; [by apply Hlr|lia|unfold big in *; lia]|].
  intros [o hit] w2 (i & s & Ho & I2 & Henv2 & Hrdy2 & Hlr2 & Hat2 & Hoth2). cbn [fst] in Ho. subst o. cbv beta iota.
  destruct Hrec as [rec Hrec]. assert (eventRecorders w2 = eventRecorders w) as Erec by (by destruct Henv2 as (_ & -> & _)).
  apply wp_bind. apply (wp_pop_none _ rec); [done|by rewrite Erec|].
  apply wp_bind. unfold processAccess. apply wp_bind. eapply wp_conf; [by apply conf_leaf|]. rewrite (lc_terminal _ _ _ Hleaf).
  assert (locks w2 = {[LBcc c]}) as Hl2 by (destruct Henv2 as (-> & _); done).
  eapply wp_mono; [apply (wp_leaf_bcc g c i (lineAddr req) (type req) s resp (srcId req) (flags req) w2); try done;
    [lia|unfold big in *; lia|by rewrite Erec, Hrec]|].
  intros r w3 (Hr & [I3 Henv3 Hrdy3 Harr3] & s3 & (k3 & Hk3 & Hi3 & Hs3) & Hne3 & Hgx). apply wp_bind. unfold stitch.
  apply wp_ret, wp_ret. apply wp_bind. unfold endAccess. apply wp_bind. eapply wp_conf; [by apply conf_leaf|].
  rewrite (lc_terminal _ _ _ Hleaf). cbn [negb whenS]. apply wp_bind.
  assert (locks w3 = {[LBcc c]}) as Hl3 by (destruct Henv3 as (-> & _); done).
  eapply (wp_mono _ _ (fun _ w4 => w4 = set_locks w3 (core_locks (childLock req) ∪ {[LBcc c]}))).
  { destruct Hlk as [-> | ->]; cbn [childLock_do core_locks].
    - apply wp_ret. rewrite (union_empty_l_L {[LBcc c]}), <- Hl3. by destruct w3.
    - apply wp_lock; [rewrite Hl3; set_solver|]. by rewrite Hl3. }
  intros _ w4 ->. apply wp_bind, wp_unlock. apply wp_ret. set (w5 := set_locks _ _).
  apply wp_bind, wp_assert; [unfold u32lat in *; lia|]. apply wp_ret.
  split; [unfold u32lat in *; lia|]. split; [constructor|split; [|split]].
  - by apply Inv_locks, Inv_locks.
  - done.
  - intros d Hd. destruct (decide (d = c)) as [->|Hne].
    + destruct Hlr2 as (k2 & Hk2 & Hr2). destruct (Harr3 c k2 Hc Hk2) as (k3' & Hk3' & E). exists k3'.
      split; [done|by rewrite E].
    + destruct (Hlr d Hd) as (kd & Hkd & Hrd). destruct (Hoth2 d kd Hd Hne Hkd) as (kd2 & Hkd2 & E2).
      destruct (Harr3 d kd2 Hd Hkd2) as (kd3 & Hkd3 & E3). exists kd3. split; [done|by rewrite E3, E2].
  - unfold w5. cbn [locks set_locks]. rewrite Hlocks. destruct Hlk as [-> | ->]; cbn [core_locks]; set_solver.
  - unfold w5. cbn [eventRecorders set_locks]. destruct Henv3 as (_ & -> & _). done.
  - exists s3. split; [|done]. exists k3. split; [done|]. by exists i.
Qed.

(** ** Loads and stores through the filter caches *)

(** A change of a leaf's counters or filter array alone. *)
Lemma quiet_own (w : W) c k k' : quiet w -> (c < N)%nat -> caches w !! c = Some k -> kupd k k' (bcc k) (tcc k) (arr k) ->
  quiet (set_caches w (<[c := k']> (caches w))).
Proof.
  intros [I Hr Hl] Hc Hk Hu. pose proof Hu as (_ & _ & Ea & _). constructor.
  - eapply (Inv_leaf w _ c k k' (arr k)); try done. apply leaf_retag_refl.
    destruct (inv_leaf _ I c Hc) as (k0 & Hk0 & Hwf & _). by assert (k0 = k) as <- by congruence.
  - by eapply (root_ready_set w _ c k').
  - intros d Hd. destruct (Hl d Hd) as (kd & Hkd & Hrd). destruct (decide (d = c)) as [->|Hne].
    + exists k'. split; [by eapply (caches_set w); [rewrite Hk|]|]. rewrite Ea. congruence.
    + exists kd. by rewrite (caches_ne w _ c d k').
Qed.

Lemma quiet_locks (w : W) X : quiet w -> quiet (set_locks w X).
Proof. intros [I Hr Hl]. constructor; [by apply Inv_locks|done..]. Qed.

Lemma quiet_leaf w c : quiet w -> (c < N)%nat -> exists k, caches w !! c = Some k /\ cache_wf k /\ filter_ok (leaf c) k.
Proof. intros Q. by apply (inv_leaf _ (q_inv _ Q)). Qed.

(** Only the counters of leaf [c] have changed. *)
Definition counted (c : nat) (w w' : W) : Prop :=
  quiet w' /\ locks w' = locks w /\ dummy w' = dummy w /\ eventRecorders w' = eventRecorders w.

Lemma wp_count c x n (w : W) : quiet w -> (c < N)%nat -> wp (zoom c (prof_inc x n)) w (fun _ w' => counted c w w').
Proof.
  intros Q Hc. destruct (quiet_leaf w c Q Hc) as (k & Hk & _). eapply wp_zoom_prof; [done|]. intros k' Hu.
  split; [by eapply quiet_own|done].
Qed.

Lemma counted_refl c w : quiet w -> counted c w w.
Proof. by split. Qed.

Lemma counted_trans c w1 w2 w3 : counted c w1 w2 -> counted c w2 w3 -> counted c w1 w3.
Proof. intros (Q1 & L1 & D1 & R1) (Q2 & L2 & D2 & R2). split; [done|]. repeat split; congruence. Qed.

Lemma land_prefetch f : Z.land f PREFETCH = 0 <-> Z.testbit f 5 = false.
Proof.
  unfold PREFETCH. change 32 with (2 ^ 5). split; intros H.
  - apply (f_equal (fun x => Z.testbit x 5)) in H. rewrite Z.land_spec, Z.bits_0 in H.
    by rewrite andb_true_r in H.
  - apply Z.bits_inj'. intros n Hn. rewrite Z.land_spec, Z.bits_0. destruct (Z.eqb_spec n 5) as [->|Hne].
    + by rewrite H.
    + rewrite Z.pow2_bits_false by lia. apply andb_false_r.
Qed.

(** The FTM flags never set the prefetch bit. *)
Lemma wp_ftm_flags c fc perm region (w : W) :
  quiet w -> (c < N)%nat -> Z.land (reqFlags fc) PREFETCH = 0 ->
  wp (ftm_flags sys c (leaf c) fc perm region) w (fun fl w' => Z.land fl PREFETCH = 0 /\ counted c w w').
Proof.
  intros Q Hc Hp. apply land_prefetch in Hp. unfold ftm_flags. set (z := zinfo sys).
  assert (forall f i, Z.testbit f 5 = false -> i <> 5 -> 0 <= i -> Z.testbit (Z.lor f (Z.shiftl 1 i)) 5 = false) as Hbit.
  { intros f i Hf Hi Hi0. rewrite Z.lor_spec, Hf, Z.shiftl_1_l, Z.pow2_bits_false by done. done. }
  assert (Z.testbit (Z.lor (reqFlags fc) (u32 (Z.shiftl region 13))) 5 = false) as H0.
  { rewrite Z.lor_spec, Hp. unfold wrap. rewrite Z.mod_pow2_bits_low, Z.shiftl_spec_low by lia. done. }
  set (f0 := Z.lor _ _) in *. apply wp_bind.
  eapply (wp_mono _ _ (fun _ w1 => counted c w w1)).
  { apply wp_when; intros _; [by apply wp_count|by apply counted_refl]. }
  intros _ w1 C1. pose proof C1 as (Q1 & _). set (f1 := if _ =? _ then _ else f0).
  assert (Z.testbit f1 5 = false) as H1 by (unfold f1; case_match; [by apply Hbit|done]).
  assert (forall x i, i <> 5 -> 0 <= i -> wp (_ ← zoom c (prof_inc x 1); mret (Z.lor f1 (Z.shiftl 1 i))) w1 (fun f2 w2 =>
    Z.testbit f2 5 = false /\ counted c w w2)) as Hinc.
  { intros x i Hi Hi0. apply wp_bind. eapply wp_mono; [by apply wp_count|]. intros ? w2 C2. apply wp_ret.
    split; [by apply Hbit|by eapply counted_trans]. }
  apply wp_bind. eapply (wp_mono _ _ (fun f2 w2 => Z.testbit f2 5 = false /\ counted c w w2)).
  { destruct (perm =? perm_rwp z); [by apply Hinc|]. destruct (perm =? perm_rp z); [by apply Hinc|].
    destruct (perm =? perm_rwxp z); [by apply Hinc|]. by apply wp_ret. }
  intros f2 w2 [H2 C2]. apply wp_ret. split; [|done]. apply land_prefetch.
  destruct (negb (scatterCache z)); [|done].
  destruct (String.prefix "l1i" (name (leaf c))), (String.prefix "l1d" (name (leaf c))); auto with lia;
    repeat (apply Hbit; [|lia|lia]); done.
Qed.

(** A load or store of core [c]: where its address is, what its cache does. *)
Record op_ok (c : nat) (fc : FilterConf) (vAddr cyc : Z) : Prop := {
  op_c : (c < N)%nat;
  op_filter : fconf (leaf c) = Some fc;
  op_word : word 64 (Z.shiftr vAddr (lineBits fc));
  op_mask : word 64 (procMask fc);
  op_nonzero : Z.lor (procMask fc) (Z.shiftr vAddr (lineBits fc)) <> 0;
  op_flags : Z.land (reqFlags fc) PREFETCH = 0;
  op_cyc0 : 0 <= cyc;
  op_cyc1 : cyc + 8 * big < max64
}.

(** The line a load or store is for; [maps c] is the memory map of [c]'s process. *)
Variable maps : nat -> list ProcMapInfo.

Definition op_line (c : nat) (fc : FilterConf) (vAddr : Z) : Z :=
  line_of (zinfo sys) fc (maps c) (Z.shiftr vAddr (lineBits fc)).

(** Whenever accesses read the tables, they are well formed. *)
Definition maps_ok : Prop := forall c fc, (c < N)%nat -> fconf (leaf c) = Some fc ->
  reads_tables (zinfo sys) = true -> process_map sys fc = Ok (maps c) /\ tables_ok (zinfo sys) (maps c).

Definition recorders_ok (w : W) : Prop :=
  forall c fc, (c < N)%nat -> fconf (leaf c) = Some fc -> is_Some (eventRecorders w !! f_srcId fc).

Definition op_post (c : nat) (fc : FilterConf) (isLoad : bool) (vAddr cyc : Z) (w : W) (r : Z) (w' : W) : Prop :=
  cyc <= r <= cyc + 2 * u32lat /\ quiet w' /\ locks w' = ∅ /\ recorders_ok w' /\
  exists s, lst w' c (op_line c fc vAddr) s /\ (isLoad = false -> s = stM).

Lemma wp_filter_fill c (w : W) k vLine idx isLoad r (Q : unit -> W -> Prop) :
  caches w !! c = Some k -> (idx < length (filterArray k))%nat ->
  (forall k', kupd k k' (bcc k) (tcc k) (arr k) -> Q tt (set_caches w (<[c := k']> (caches w)))) ->
  wp (zoom c (filter_fill vLine idx isLoad r)) w Q.
Proof.
  intros Hk Hidx HQ. eapply wp_zoom; [done|]. unfold filter_fill. apply wp_bind, wp_get, wp_bind.
  destruct (lookup_lt_is_Some_2 _ _ Hidx) as [fe Hfe]. eapply wp_lift; [by apply rd_some|]. cbv beta zeta.
  apply HQ. repeat split. cbn [filterArray set_filterArray]. by rewrite length_insert.
Qed.

Lemma lst_own (w : W) c k k' d x s : caches w !! c = Some k -> kupd k k' (bcc k) (tcc k) (arr k) ->
  lst w d x s -> lst (set_caches w (<[c := k']> (caches w))) d x s.
Proof.
  intros Hk (Eb & _ & Ea & _) (kd & Hkd & Hh). destruct (decide (d = c)) as [->|Hne].
  - exists k'. split; [by eapply (caches_set w); [rewrite Hk|]|]. apply (holds_ext k k'); [done..|congruence].
  - exists kd. by rewrite (caches_ne w _ c d k').
Qed.

Lemma counters_counted c (w w' : W) : quiet w -> (c < N)%nat -> counters c w w' -> counted c w w'.
Proof. intros Q Hc (k & pf & Hk & ->). split; [|done]. by eapply (quiet_own w c k). Qed.

Hypothesis mapped : maps_ok.

Lemma wp_load_store g c fc isLoad vAddr cyc (w : W) :
  quiet w -> locks w = ∅ -> recorders_ok w -> op_ok c fc vAddr cyc ->
  wp (load_store sys (S (S (S g))) c isLoad vAddr cyc) w (op_post c fc isLoad vAddr cyc w).
Proof.
  intros Q Hlocks Hrec [Hc Hfc Hword Hmask Hnz Hpf Hc0 Hc1]. set (v := Z.shiftr vAddr (lineBits fc)) in *.
  unfold load_store. apply wp_bind. eapply wp_conf; [by apply conf_leaf|]. rewrite Hfc. fold v.
  unfold replace. apply wp_bind. eapply wp_conf; [by apply conf_leaf|]. rewrite Hfc.
  apply wp_bind. eapply wp_mono.
  { apply (wp_translate sys c fc (maps c)); [by apply (mapped c)|by intros e; apply (mapped c fc Hc Hfc e)| |by rewrite Hlocks; set_solver].
    destruct (quiet_leaf w c Q Hc) as (k & Hk & _). by eapply lookup_lt_Some. }
  intros [[line perm] region] wt [Ct El]. cbn [fst] in El. subst line. fold (op_line c fc vAddr).
  destruct (counters_counted c w wt Q Hc Ct) as (Qt & Hlt & _ & Hrt). cbv beta iota.
  assert (word 64 (op_line c fc vAddr) /\ op_line c fc vAddr <> 0) as [Hlw Hln].
  { unfold op_line. fold v. destruct (line_of_cases (zinfo sys) fc (maps c) v) as [-> | [H1 H2]].
    - split; [by apply private_line_word|done].
    - split; [by eapply word_mono; [|done]|done]. }
  apply wp_bind. cbn [state_put]. unfold modify. unfold wp at 1. set (w0 := set_dummy wt stI).
  assert (quiet w0) as Q0.
  { destruct Qt as [I Hr Hl]. constructor; [|done..]. constructor; try apply I.
    destruct (inv_root _ I) as (kN & HkN & Hwf & Hlen & Hdir & Hincl). exists kN. repeat (split; [done|]). split; [|done].
    intros j x e s H1 H2 H3. constructor; by apply (Hdir j x e s H1 H2 H3). }
  apply wp_bind, wp_lock; [cbn [locks set_dummy w0]; rewrite Hlt, Hlocks; set_solver|]. set (w1 := set_locks w0 _).
  assert (quiet w1) as Q1 by by apply quiet_locks.
  apply wp_bind. eapply wp_mono; [by apply (wp_ftm_flags c fc perm region w1)|]. intros fl w2 (Hfl & Q2 & Hl2 & Hd2 & Hr2).
  set (req := mkReq (op_line c fc vAddr) (if isLoad then GETS else GETX) 0 DummyState cyc (FilterLock c) stI (f_srcId fc) fl).
  assert (core_req req c) as R.
  { constructor; try done; [by destruct isLoad|by right]. }
  apply wp_bind. eapply wp_mono; [apply (wp_core_access g c req w2 Q2 R)|].
  - by rewrite Hd2.
  - rewrite Hl2. cbn [locks set_locks w1 w0 set_dummy core_locks childLock req]. rewrite Hlt, Hlocks. set_solver.
  - rewrite Hr2. cbn [eventRecorders set_locks set_dummy w1 w0]. rewrite Hrt. by apply (Hrec c).
  - intros r w3 (Hr & Q3 & Hl3 & Hr3 & s & Hs & Hgx).
    destruct (quiet_leaf w3 c Q3 Hc) as (k3 & Hk3 & _ & Hf3).
    apply wp_bind. eapply wp_filter_fill; [done|by apply Hf3|]. intros k4 Hu4. apply wp_bind, wp_unlock, wp_ret.
    set (w4 := set_caches w3 _). assert (quiet w4) as Q4 by by eapply quiet_own.
    split; [done|]. split; [by apply quiet_locks|]. split; [|split].
    + cbn [locks set_locks set_caches w4]. rewrite Hl3, Hl2. cbn [locks set_locks w1 w0 set_dummy]. rewrite Hlt, Hlocks. set_solver.
    + intros d fd Hd Hfd. cbn [eventRecorders set_locks set_caches w4]. rewrite Hr3, Hr2. cbn [eventRecorders set_locks set_dummy w1 w0]. rewrite Hrt. by apply (Hrec d).
    + exists s. split; [|intros ->; by apply Hgx]. change (lst w4 c (op_line c fc vAddr) s). by eapply lst_own.
Qed.

End run.

(** ** Sequences of loads and stores *)

Record Op := mkOp { o_core : nat; o_isLoad : bool; o_vAddr : Z; o_cycle : Z }.

(** The cores' loads and stores, one after the other. *)
Definition run_ops {A M} `{CacheArray A} `{RefreshArray A} `{MemCtrl M} (sys : Sys) (fuel : nat) (ops : list Op) : ST (World A M) unit :=
  for_each (fun o => _ ← load_store sys fuel (o_core o) (o_isLoad o) (o_vAddr o) (o_cycle o); mret tt) ops.

Section sequences.
Context {A M : Type} {CA : CacheArray A} {CL : CacheArrayLaws A} {RA : RefreshArray A} {MC : MemCtrl M} {ML : MemCtrlLaws M}.
Context {sys : Sys} {N K : nat} {leaf : nat -> CacheConf} {root : CacheConf} {TL : two_level sys N K leaf root}.
Notation W := (World A M).

(** Copies of a line in two leaves are both shared. *)
Definition swmr (w : W) : Prop := forall c d x s t, (c < N)%nat -> (d < N)%nat -> c <> d ->
  lst w c x s -> lst w d x t -> s = stS /\ t = stS.

(** A line in a leaf is in the shared cache, with at least the leaf's permission. *)
Definition inclusive (w : W) : Prop := forall c x s, (c < N)%nat -> lst w c x s ->
  exists t, lst w N x t /\ (s = stE \/ s = stM -> t = stE \/ t = stM).

Lemma quiet_swmr (w : W) : quiet (N := N) (K := K) (leaf := leaf) w -> swmr w.
Proof.
  intros [I _ _] c d x s t Hc Hd Hne Hs Ht. destruct (inv_root _ I) as (kN & HkN & Hwf & Hlen & Hdir & Hincl).
  pose proof Hs as (k & Hk & Hh). destruct (Hincl c k x s Hc Hk Hh) as (r & l & Hl & Hr & Hrne).
  destruct (lookup_lt_is_Some_2 (tcc kN) l) as [e He].
  { rewrite Hlen, <- (cw_len _ Hwf). apply lookup_lt_is_Some_1. by rewrite Hr. }
  pose proof (Hdir l x e r Hl He Hr) as D. destruct (dir_lst _ _ _ _ D) as [Hsh Hst].
  pose proof (Hst c s Hc Hs) as H1. pose proof (Hst d t Hd Ht) as H2.
  destruct (entry_isExclusive e) eqn:Ex; [|done]. exfalso.
  assert (c ∈ sharers e) as Hcs by (apply Hsh; split; [done|by exists s]).
  assert (d ∈ sharers e) as Hds by (apply Hsh; split; [done|by exists t]).
  pose proof (do_excl1 _ _ _ _ D) as Hn. unfold entry_isExclusive in Ex. apply andb_true_iff in Ex as [_ Ex].
  specialize (Hn Ex). rewrite (do_num _ _ _ _ D) in Hn.
  assert (size ({[c; d]} : gset nat) <= size (sharers e))%nat as Hsz by (apply subseteq_size; set_solver).
  rewrite size_union, !size_singleton in Hsz by set_solver. lia.
Qed.

Lemma quiet_inclusive (w : W) : quiet (N := N) (K := K) (leaf := leaf) w -> inclusive w.
Proof.
  intros [I _ _] c x s Hc (k & Hk & Hh). destruct (inv_root _ I) as (kN & HkN & Hwf & Hlen & Hdir & Hincl).
  destruct (Hincl c k x s Hc Hk Hh) as (r & Hr). exists r. split; [by exists kN|]. intros Hs.
  pose proof Hr as (l & Hl & Hrl & Hrne).
  destruct (lookup_lt_is_Some_2 (tcc kN) l) as [e He].
  { rewrite Hlen, <- (cw_len _ Hwf). apply lookup_lt_is_Some_1. by rewrite Hrl. }
  pose proof (Hdir l x e r Hl He Hrl) as D. pose proof (do_states _ _ _ _ D c k s Hc Hk Hh) as Hst.
  destruct (entry_isExclusive e) eqn:Ex; [by apply (do_excl _ _ _ _ D)|]. destruct Hs; congruence.
Qed.

Lemma wp_run_ops maps g ops : forall w : W,
  maps_ok (sys := sys) (N := N) (leaf := leaf) maps ->
  quiet (N := N) (K := K) (leaf := leaf) w -> locks w = ∅ -> recorders_ok (N := N) (leaf := leaf) w ->
  Forall (fun o => exists fc, op_ok (N := N) (leaf := leaf) (o_core o) fc (o_vAddr o) (o_cycle o)) ops ->
  wp (run_ops sys (S (S (S g))) ops) w (fun _ w' =>
    quiet (N := N) (K := K) (leaf := leaf) w' /\ locks w' = ∅ /\ recorders_ok (N := N) (leaf := leaf) w').
Proof.
  induction ops as [|o ops IH]; intros w Hmaps Q Hl Hr HF; [by apply wp_ret|].
  apply Forall_cons in HF as [[fc Ho] HF]. unfold run_ops. cbn [for_each]. apply wp_bind, wp_bind.
  eapply wp_mono; [by eapply (wp_load_store maps Hmaps g (o_core o) fc)|].
  intros r w1 (_ & Q1 & Hl1 & Hr1 & _). apply wp_ret. by apply (IH w1).
Qed.

(** The world as built: [init.cpp] connects the objects, nothing is cached. *)
Record initial (w : W) : Prop := {
  it_mems : mems_ok (K := K) w;
  it_recs i r : eventRecorders w !! i = Some (Some r) -> tr r = None;
  it_cache c : (c <= N)%nat -> exists a n, caches w !! c = Some (cache_init (c <? N)%nat (ca_lines a) a n) /\
    ca_wf false a /\ (forall i x, ca_tag a i = Some x -> word 64 x) /\
    (forall fc x, (c < N)%nat -> fconf (leaf c) = Some fc -> word 64 x -> (Z.to_nat (u32 (Z.land x (setMask fc))) < n)%nat)
}.

Lemma cache_init_wf b a n : ca_wf false a -> (forall i x, ca_tag a i = Some x -> word 64 x) ->
  cache_wf (cache_init b (ca_lines a) a n).
Proof.
  intros Hwf Hw. constructor; cbn [arr bcc cache_init]; [by eexists|apply length_replicate|done|].
  intros i Hi. apply lookup_replicate. split; [done|]. apply (ca_tag_lines false a i Hwf). by eexists.
Qed.

Lemma cache_init_holds b n (a : A) m x s : ~ holds (cache_init b n a m) x s.
Proof. intros (i & _ & Hs & Hne). cbn in Hs. apply lookup_replicate in Hs as [-> _]. done. Qed.

Lemma initial_quiet (w : W) : initial w -> quiet (N := N) (K := K) (leaf := leaf) w.
Proof.
  intros [Hm Hr Hc].
  assert (forall c x s, (c <= N)%nat -> ~ lst w c x s) as Hno.
  { intros c x s Hle (k & Hk & Hh). destruct (Hc c Hle) as (a & n & Ha & _).
    assert (k = cache_init (c <? N)%nat (ca_lines a) a n) as -> by congruence. by apply cache_init_holds in Hh. }
  constructor.
  - constructor; [done|done| |].
    + intros c Hlt. destruct (Hc c ltac:(lia)) as (a & n & Ha & Hwf & Hw & Hf). eexists. split; [done|].
      split; [by apply cache_init_wf|]. intros fc x Hfc Hx. cbn [filterArray cache_init]. rewrite length_replicate. by eapply Hf.
    + destruct (Hc N ltac:(lia)) as (a & n & Ha & Hwf & Hw & _). rewrite Nat.ltb_irrefl in Ha.
      eexists. split; [done|]. split; [by apply cache_init_wf|]. split; [by apply length_replicate|]. split.
      * intros j x e s _ He Hs. cbn in He, Hs. apply lookup_replicate in He as [-> _].
        apply dir_ok_empty; [done|done|]. intros c k st Hlt Hk Hh. eapply (Hno c x st); [lia|by exists k].
      * intros c k x st Hlt Hk Hh. exfalso. eapply (Hno c x st); [lia|by exists k].
  - destruct (Hc N ltac:(lia)) as (a & n & Ha & Hwf & _). by eexists.
  - intros c Hlt. destruct (Hc c ltac:(lia)) as (a & n & Ha & Hwf & _). by eexists.
Qed.

End sequences.
