(* ===== verification/HierarchyProps.v ===== *)
(** * Properties of the memory hierarchy

    Coherence of the two-level hierarchy (the results of TwoLevel and
    TwoLevelRun stated on their own terms, with a concrete system of two filter
    caches over one shared cache), and the first-time-miss accounting. *)

From S2P Require Import Prelude TimingEvent MemHier MTRand Hash ReplPolicies CacheArrays World Coherence Cache Translation Memory TwoLevel TwoLevelRun.
Local Open Scope Z_scope.

Module CoherenceProps.

(** A two-core system: 16-line 4-way LRU caches, one fixed-latency memory; a
    process per core, each with a read-only library named 7, at different
    addresses, and a writable page. *)
Definition demo_fc (c : nat) : FilterConf := mkFC 3 c 0 (Z.of_nat c + 1) (Z.shiftl (Z.of_nat c + 1) 58) 6.
Definition demo_region (start perm nm : Z) (sl : bool) : ProcMapInfo :=
  mkPM start (start + 0x1000) nm perm false (negb sl) sl false false false false false 0.
Definition demo_map (c : nat) : list ProcMapInfo :=
  [demo_region 0x1000 2 5 false; demo_region (0x10000 * (Z.of_nat c + 1)) 3 7 true]
  ++ replicate 998 (mkPM 0 0 0 0 false false false false false false false false 0).
Definition demo_leaf (c : nat) : CacheConf :=
  mkConf "l1d" true false false 4 3 c [RCache 2] [2] [] [] (Some (demo_fc c)).
Definition demo_root : CacheConf :=
  mkConf "l3" false false true 20 10 0 [RMem 0] [5] [0; 1]%nat [2; 2] None.
Definition demo_zinfo : ZInfo := mkZ 1 true 3 true false false 1 2 3 4 2 [1; 2] [demo_map 0; demo_map 1]
  (7 :: replicate 999 (max64 - 1)) (0x900000 :: replicate 999 0) 100.
Definition demo_sys : Sys := mkSys [demo_leaf 0; demo_leaf 1; demo_root] demo_zinfo.

Definition demo_array := ArrayProps.demo_array.
Definition demo_world : World (SetAssoc.t LRU.t) SimpleMemory.t :=
  mkW [cache_init true 16 demo_array 4; cache_init true 16 demo_array 4; cache_init false 16 demo_array 0]
      [SimpleMemory.mk 100] ∅ stI [None; None] (mkHeap ∅ 0).

Lemma demo_two_level : two_level demo_sys 2 1 demo_leaf demo_root.
Proof.
  constructor.
  - intros c Hc. split; [by destruct c as [|[|c]]; [..|lia]|].
    constructor; try done; try (by split; vm_compute). by eexists.
  - split; [done|]. constructor; try done; [lia|by repeat constructor].
  - done.
  - unfold MAX_CACHE_CHILDREN. lia.
Qed.

Lemma demo_maps : maps_ok (sys := demo_sys) (N := 2) (leaf := demo_leaf) demo_map.
Proof.
  intros c fc Hc [= <-] _. split; [destruct c as [|[|c]]; [by vm_compute..|lia]|].
  assert (forall p, p ∈ demo_map c -> sharable demo_zinfo p = true -> p = demo_region (0x10000 * (Z.of_nat c + 1)) 3 7 true) as Hsh.
  { intros p Hp Hs. apply elem_of_app in Hp as [Hp|Hp].
    - rewrite !elem_of_cons in Hp. destruct Hp as [-> | [-> | Hp]]; [done|done|by apply not_elem_of_nil in Hp].
    - apply elem_of_replicate in Hp as [-> _]. done. }
  constructor; [reflexivity|reflexivity|reflexivity|..].
  - intros p Hp Hs. rewrite (Hsh p Hp Hs). by eexists.
  - intros p Hp Hs. rewrite (Hsh p Hp Hs), max64_eq. cbn [base_of demo_map app pm_name demo_region Z.eqb Pos.eqb start_range end_range]. lia.
Qed.

Lemma demo_tags i x : ca_tag demo_array i = Some x -> word 64 x.
Proof. intros H. apply (lookup_replicate 16) in H as [-> _]. by split; vm_compute. Qed.

Lemma demo_initial : initial (N := 2) (K := 1) (leaf := demo_leaf) demo_world.
Proof.
  constructor.
  - intros m Hm. assert (m = 0)%nat as -> by lia. eexists. split; [done|]. by split; vm_compute.
  - intros i r H. by destruct i as [|[|i]].
  - intros c Hc. assert (c = 0 \/ c = 1 \/ c = 2)%nat as [-> | [-> | ->]] by lia.
    + exists demo_array, 4%nat. split; [done|]. split; [apply ArrayProps.demo_array_wf|]. split; [apply demo_tags|].
      intros fc x _ [= <-] [Hx _]. pose proof (Z.land_nonneg x 3). pose proof (land_le_r x 3 Hx ltac:(lia)).
      cbn [setMask demo_fc]. rewrite u32_small by (rewrite max32_eq; lia). lia.
    + exists demo_array, 4%nat. split; [done|]. split; [apply ArrayProps.demo_array_wf|]. split; [apply demo_tags|].
      intros fc x _ [= <-] [Hx _]. pose proof (land_le_r x 3 Hx ltac:(lia)).
      cbn [setMask demo_fc]. rewrite u32_small by (rewrite max32_eq; lia). lia.
    + exists demo_array, 0%nat. split; [done|]. split; [apply ArrayProps.demo_array_wf|]. split; [apply demo_tags|]. lia.
Qed.

Section props.
Context {A M : Type} {CA : CacheArray A} {CL : CacheArrayLaws A} {RA : RefreshArray A} {MC : MemCtrl M} {ML : MemCtrlLaws M}.
Variables (sys : Sys) (N K : nat) (leaf : nat -> CacheConf) (root : CacheConf).
Notation W := (World A M).

(** C1: any sequence of loads and stores by the cores of a two-level hierarchy
    (L1s over one shared inclusive cache over memories; any cache arrays and
    memory controllers meeting their contracts), with or without translation of
    shared-library pages by well-formed tables, from the freshly built system,
    runs to completion: no assertion, panic, out-of-range access or deadlock of
    the controllers, the caches or the filter caches is reachable, and all locks
    are released.  Afterwards two cores hold the same line only as shared
    copies, and every line of a core is in the shared cache with at least the
    core's permission.  Three levels of calls are enough. *)
Theorem run_coherent (maps : nat -> list ProcMapInfo) (g : nat) (ops : list Op) (w : W) :
  two_level sys N K leaf root ->
  maps_ok (sys := sys) (N := N) (leaf := leaf) maps ->
  initial (N := N) (K := K) (leaf := leaf) w -> locks w = ∅ -> recorders_ok (N := N) (leaf := leaf) w ->
  Forall (fun o => exists fc, op_ok (N := N) (leaf := leaf) (o_core o) fc (o_vAddr o) (o_cycle o)) ops ->
  exists w', run_ops sys (S (S (S g))) ops w = Ok (tt, w') /\ locks w' = ∅ /\
    swmr (N := N) w' /\ inclusive (N := N) w'.
Proof.
  intros TL Hmaps Hi Hl Hr HF. pose proof (initial_quiet w Hi) as Q.
  destruct (proj1 (wp_ok _ _ _) (wp_run_ops maps g ops w Hmaps Q Hl Hr HF)) as ([] & w' & E & Q' & Hl' & _).
  exists w'. split; [done|]. split; [done|]. split; [by eapply quiet_swmr|by eapply quiet_inclusive].
Qed.

(** C2: one access of a core in a quiescent system, a request of type GETS or
    GETX as [FilterCache::replace] makes it, returns a later cycle, leaves the
    system quiescent with the locks as they were, and leaves the line in the
    core's cache; after a GETX it is modified there and no other core has it. *)
Theorem access_grants (g c : nat) (req : MemReq) (w : W) :
  two_level sys N K leaf root ->
  quiet (N := N) (K := K) (leaf := leaf) w -> core_req (N := N) req c -> dummy w = stI ->
  locks w = core_locks (childLock req) -> is_Some (eventRecorders w !! srcId req) ->
  exists r w', access sys (S (S (S g))) (RCache c) req w = Ok (r, w') /\ cycle req <= r /\
    quiet (N := N) (K := K) (leaf := leaf) w' /\ locks w' = locks w /\
    (exists s, lst w' c (lineAddr req) s) /\
    (type req = GETX -> lst w' c (lineAddr req) stM /\
       forall d s, (d < N)%nat -> lst w' d (lineAddr req) s -> d = c).
Proof.
  intros TL Q R Hd Hl Hr.
  destruct (proj1 (wp_ok _ _ _) (wp_core_access g c req w Q R Hd Hl Hr)) as (r & w' & E & [Hr0 _] & Q' & Hl' & _ & s & Hs & Hgx).
  exists r, w'. split; [done|]. split; [done|]. split; [done|]. split; [done|]. split; [by exists s|].
  intros Ht. specialize (Hgx Ht). subst s. split; [done|]. intros d s Hlt Hds.
  destruct (decide (d = c)) as [|Hne]; [done|].
  destruct (quiet_swmr w' Q' d c (lineAddr req) s stM Hlt (cr_c _ _ R) Hne Hds Hs) as [_ ?]. done.
Qed.

End props.

(** The two processes read the same line of the library, and write each to its
    own page at the same virtual address; then lines of one set, so that the
    shared cache evicts. *)
Definition demo_ops : list Op :=
  [mkOp 0 true 0x10000 10; mkOp 1 true 0x20000 20; mkOp 0 false 0x1040 400; mkOp 1 false 0x1040 500;
   mkOp 0 true 0x2000 900; mkOp 0 true 0x3000 1000; mkOp 0 false 0x4000 1400; mkOp 1 true 0x5000 1800].

(** The valid lines of a cache. *)
Definition copies (k : CacheState (SetAssoc.t LRU.t)) : list (Z * MESIState) :=
  filter (fun p => p.2 <> stI) (zip (SetAssoc.array (arr k)) (bcc k)).

Lemma demo_op_ok c b v cyc : (c < 2)%nat -> word 64 (Z.shiftr v 6) -> 0 <= cyc < 10000 ->
  exists fc, op_ok (N := 2) (leaf := demo_leaf) (o_core (mkOp c b v cyc)) fc v cyc.
Proof.
  intros Hc Hv Hcyc. exists (demo_fc c). assert (c = 0 \/ c = 1)%nat as Hc2 by lia. constructor; try done.
  - by destruct Hc2 as [-> | ->]; split; vm_compute.
  - cbn [procMask demo_fc lineBits]. rewrite Z.lor_eq_0_iff. by destruct Hc2 as [-> | ->]; intros [H _].
  - lia.
  - unfold big. rewrite max64_eq. lia.
Qed.

Lemma run_coherent_witness :
  exists w', run_ops demo_sys 3 demo_ops demo_world = Ok (tt, w') /\ locks w' = ∅ /\
    swmr (N := 2) w' /\ inclusive (N := 2) w'.
Proof.
  apply (run_coherent demo_sys 2 1 demo_leaf demo_root demo_map 0 demo_ops demo_world).
  - apply demo_two_level.
  - apply demo_maps.
  - apply demo_initial.
  - reflexivity.
  - intros c fc Hc [= <-]. cbn [f_srcId demo_fc]. assert (c = 0 \/ c = 1)%nat as [-> | ->] by lia; by eexists.
  - repeat constructor; cbn [o_core o_vAddr o_cycle]; apply (demo_op_ok _ true); try lia; by split; vm_compute.
Defined.

(** Each copy as (process mask, line, state).  The library's line is shared; the
    writes of the two processes at the same virtual address (line 65) are to
    different lines. *)
Example demo_copies :
  match run_ops demo_sys 3 demo_ops demo_world with
  | Ok (_, w) => map (fun k => map (fun p => (Z.shiftr p.1 58, p.1 mod 2 ^ 58, p.2)) (copies k)) (caches w)
  | Fault _ => []
  end =
  [[(0, 147456, stS); (1, 192, stE); (1, 256, stM); (1, 65, stM)];
   [(0, 147456, stS); (2, 320, stE); (2, 65, stM)];
   [(0, 147456, stE); (2, 320, stE); (1, 192, stE); (1, 256, stM); (1, 65, stM); (2, 65, stM)]].
Proof. vm_compute. reflexivity. Qed.

Definition demo_req (t : AccessType) : MemReq := mkReq 64 t 0 DummyState 10 NoLock stI 0 0.

Lemma access_grants_witness :
  exists r w', access demo_sys 3 (RCache 0) (demo_req GETX) demo_world = Ok (r, w') /\ 10 <= r /\
    quiet (N := 2) (K := 1) (leaf := demo_leaf) w' /\ locks w' = ∅ /\
    (exists s, lst w' 0 64 s) /\
    (GETX = GETX -> lst w' 0 64 stM /\ forall d s, (d < 2)%nat -> lst w' d 64 s -> d = 0%nat).
Proof.
  apply (access_grants demo_sys 2 1 demo_leaf demo_root 0 0 (demo_req GETX) demo_world).
  - apply demo_two_level.
  - apply (initial_quiet (TL := demo_two_level)), demo_initial.
  - constructor; try done; cbn; [lia|by left].
  - reflexivity.
  - reflexivity.
  - by eexists.
Defined.

End CoherenceProps.
