(* ===== verification/FTMProps.v ===== *)
(** * Properties of the first-time-miss mechanism

    The process tables (ProcMaps) and the translation (Translation), the
    accounting of first-time misses and its owner bits (Coherence, Cache). *)

From stdpp Require Import functions.
From S2P Require Import Prelude TimingEvent MemHier MTRand Hash ReplPolicies CacheArrays World Coherence Cache Translation ProcMaps Memory HierarchyProps.
Local Open Scope Z_scope.

Module AddressProps.


(** C6: with well-formed tables the translation of an access returns, leaves
    everything but the cache's own counters (and so every lock) as it was, and
    gives the line the tables call for: the library's common address for a
    read-only page of a shared library, the process's own line otherwise. *)
Theorem translate_line {A M : Type} (sys : Sys) (c : nat) (fc : FilterConf) (m : list ProcMapInfo) (v : Z) (w : World A M) :
  (reads_tables (zinfo sys) = true -> process_map sys fc = Ok m /\ tables_ok (zinfo sys) m) ->
  (c < length (caches w))%nat -> LGlobal ∉ locks w ->
  exists perm region w', translate sys c fc v w = Ok ((line_of (zinfo sys) fc m v, perm, region), w') /\ counters c w w'.
Proof.
  intros Ht Hc Hl.
  destruct (proj1 (wp_ok _ _ _) (wp_translate sys c fc m (fun e => proj1 (Ht e)) (fun e => proj2 (Ht e)) v w Hc Hl))
    as ([[x perm] region] & w' & E & C & Ex). cbn [fst] in Ex. subst x. by exists perm, region, w'.
Qed.

(** A page of a process: its region, and where in the library's file it is. *)
Definition page_of (z : ZInfo) (m : list ProcMapInfo) (v : Z) (p : ProcMapInfo) (offset : Z) : Prop :=
  region_of m (u64 (Z.shiftl v 6)) = Some p /\ sharable z p = true /\
  offset = u64 (Z.shiftl v 6) - base_of m (pm_name p).

Lemma shared_page_line t ks z fc m v p off : libs_ok t ks -> reads_tables (with_tables t z) = true ->
  tables_ok (with_tables t z) m -> page_of (with_tables t z) m v p off ->
  pm_name p <> 0 -> pm_name p mod 256 = 0 ->
  exists i, ks !! i = Some (pm_name p) /\ line_of (with_tables t z) fc m v = off / 64 + 2 ^ 22 + Z.of_nat i * 2 ^ 26 /\
    0 <= off < 2 ^ 32.
Proof.
  intros L Hr T (Hp & Hs & Ho) H0 Hm. destruct (region_of_in _ _ _ Hp) as [Hin Ha].
  destruct (tab_span _ _ T p Hin Hs) as (B1 & B2 & B3). destruct (tab_lib _ _ T p Hin Hs) as [b Hb].
  cbn [sharedLibInfo_idx sharedLibInfo_libAddr with_tables] in Hb.
  destruct (libs_base_inv t ks (pm_name p) b L H0) as (i & Hi & Eb); [|done|].
  { intros E. rewrite E, max64_eq in Hm. by vm_compute in Hm. }
  exists i. split; [done|]. assert (0 <= off < 2 ^ 32) as Hoff by lia. split; [|done].
  pose proof (lookup_lt_Some _ _ _ Hi). pose proof (lo_room _ _ L).
  unfold line_of. rewrite Hr, Hp, Hs. cbn [sharedLibInfo_idx sharedLibInfo_libAddr with_tables]. rewrite Hb.
  assert (shared_line m p b (u64 (Z.shiftl v 6)) = off / 64 + 2 ^ 22 + Z.of_nat i * 2 ^ 26) as E.
  { unfold shared_line. rewrite <- Ho, Eb. unfold lib_addr. rewrite u64_small by (rewrite max64_eq; lia).
    rewrite Z.shiftr_div_pow2 by lia. change (2 ^ 6) with 64. Z.div_mod_to_equations. lia. }
  rewrite E. rewrite (proj2 (Z.eqb_neq _ _)); [done|]. Z.div_mod_to_equations. lia.
Qed.

(** C7: two processes reach the same line through read-only library pages exactly
    when the pages have the same library code and the same line of offset in it:
    sharing is complete within a code, and never crosses codes. *)
Theorem shared_lines_iff (t : Tables) (ks : list Z) (z : ZInfo) (fc1 fc2 : FilterConf) (m1 m2 : list ProcMapInfo)
    (v1 v2 : Z) (p1 p2 : ProcMapInfo) (off1 off2 : Z) :
  libs_ok t ks -> reads_tables (with_tables t z) = true ->
  tables_ok (with_tables t z) m1 -> tables_ok (with_tables t z) m2 ->
  page_of (with_tables t z) m1 v1 p1 off1 -> page_of (with_tables t z) m2 v2 p2 off2 ->
  pm_name p1 <> 0 -> pm_name p2 <> 0 -> pm_name p1 mod 256 = 0 -> pm_name p2 mod 256 = 0 ->
  line_of (with_tables t z) fc1 m1 v1 = line_of (with_tables t z) fc2 m2 v2 <->
  pm_name p1 = pm_name p2 /\ off1 / 64 = off2 / 64.
Proof.
  intros L Hr T1 T2 G1 G2 H1 H2 M1 M2.
  destruct (shared_page_line t ks z fc1 m1 v1 p1 off1 L Hr T1 G1 H1 M1) as (i1 & Hi1 & -> & B1).
  destruct (shared_page_line t ks z fc2 m2 v2 p2 off2 L Hr T2 G2 H2 M2) as (i2 & Hi2 & -> & B2). split.
  - intros E. assert (i1 = i2 /\ off1 / 64 = off2 / 64) as [-> ?] by (Z.div_mod_to_equations; lia). split; congruence.
  - intros [En ->]. rewrite (NoDup_lookup ks i1 i2 (pm_name p1) (lo_nodup _ _ L) Hi1); [done|congruence].
Qed.

Lemma private_line_bits k v : 0 <= k -> word 58 v -> Z.shiftr (Z.lor (Z.shiftl k 58) v) 58 = k.
Proof.
  intros Hk [H0 H1]. rewrite Z.shiftr_lor, Z.shiftr_shiftl_l by lia. change (58 - 58) with 0. rewrite Z.shiftl_0_r.
  rewrite (Z.shiftr_div_pow2 v) by lia. rewrite Z.div_small by lia. apply Z.lor_0_r.
Qed.

(** C8: isolation.  A page of a process other than process 0 that is not a
    read-only library page goes to a line no other process's access can go to,
    whatever the tables of the two processes. *)
Theorem private_isolated (z : ZInfo) (fc1 fc2 : FilterConf) (m1 m2 : list ProcMapInfo) (k1 k2 v1 v2 : Z) :
  procMask fc1 = Z.shiftl k1 58 -> procMask fc2 = Z.shiftl k2 58 -> 0 < k1 < 64 -> 0 <= k2 < 64 -> k1 <> k2 ->
  word 58 v1 -> word 58 v2 ->
  (forall p, region_of m1 (u64 (Z.shiftl v1 6)) = Some p -> sharable z p = false) ->
  line_of z fc1 m1 v1 <> line_of z fc2 m2 v2.
Proof.
  intros E1 E2 H1 H2 Hne W1 W2 Hpriv E.
  assert (line_of z fc1 m1 v1 = Z.lor (Z.shiftl k1 58) v1) as El.
  { rewrite <- E1. unfold line_of. destruct (reads_tables z); [|done]. destruct (region_of _ _) as [p|]; [|done].
    by rewrite (Hpriv p eq_refl). }
  rewrite El in E. apply (f_equal (fun x => Z.shiftr x 58)) in E. rewrite private_line_bits in E by (lia || done).
  destruct (line_of_cases z fc2 m2 v2) as [Ep|[_ [B0 B1]]].
  - unfold private_line in Ep. rewrite Ep, E2, private_line_bits in E by (lia || done). lia.
  - rewrite Z.shiftr_div_pow2, Z.div_small in E by lia. lia.
Qed.

(** the code of a file name or permission string identifies exactly its first
    four characters (names are printable text). *)
Theorem create_ul_first4 (s1 s2 : string) : plain s1 -> plain s2 ->
  create_ul s1 = create_ul s2 <-> first4 s1 = first4 s2.
Proof.
  intros H1 H2. rewrite !create_ul_code by done. split; [|by intros ->].
  intros [= E]. by apply code_inj; [apply first4_plain|apply first4_plain|].
Qed.

(** distinct processes, no more than there are cores, registered one after
    the other in a fresh system, are all accepted, listed in order, and get the
    distinct partition numbers 0, 1, 2, ... *)
Theorem register_all_distinct (numCores : nat) (ps : list Z) :
  NoDup ps -> 0 ∉ ps -> (length ps <= numCores)%nat ->
  register_all numCores ps (proc_list (tables_init numCores)) 0 =
    Ok (ps ++ replicate (numCores - length ps) 0, map Z.of_nat (seq 0 (length ps))).
Proof.
  intros Hnd H0 Hlen. pose proof (register_all_ok numCores ps [] Hnd H0 Hlen) as H. cbn [length app] in H.
  by rewrite Nat.sub_0_r in H.
Qed.

Lemma register_all_distinct_witness :
  register_all 4 [11; 12; 13] (replicate 4 0) 0 = Ok ([11; 12; 13; 0], [0; 1; 2]).
Proof. apply (register_all_distinct 4 [11; 12; 13]); [by repeat (constructor; [set_solver|]); constructor|set_solver|cbn; lia]. Defined.

(** ** Two processes with a common library

    Process 11 and process 12 map the same library at different addresses, each
    with its own program file and a stack. *)

Definition demo_files (pid : Z) : option (list string) :=
  if pid =? 11 then Some
    ["400000-401000 r-xp 00000000 08:01 12    /bin/prog";
     "7f0000000-7f0020000 r--p 00000000 08:01 77    /usr/lib/libm-2.31.so";
     "7f0020000-7f0040000 r-xp 00020000 08:01 77    /usr/lib/libm-2.31.so";
     "7fff00000-7fff20000 rw-p 00000000 00:00 0    [stack]"]%string
  else if pid =? 12 then Some
    ["500000-501000 r-xp 00000000 08:01 13    /bin/other";
     "7e0000000-7e0020000 r--p 00000000 08:01 77    /usr/lib/libm-2.31.so";
     "7e0020000-7e0040000 r-xp 00020000 08:01 77    /usr/lib/libm-2.31.so"]%string
  else None.

(** The permission codes are those of [perm_codes]. *)
Definition demo_z : ZInfo :=
  mkZ 1 true 3 false false false 490389139456 491625738240 490384224256 491630653440 2 [] [] [] [] 100.

Example demo_z_perms : perm_codes = Ok (perm_rxp demo_z, perm_rwp demo_z, perm_rwxp demo_z, perm_rp demo_z).
Proof. reflexivity. Qed.

Definition with_procs (l : list Z) (t : Tables) : Tables :=
  mkTables l (pp_idx t) (pp_info t) (sl_idx t) (sl_addr t) (sharedLibAddress t) (sharedLibEndAddress t).
Definition demo_tables : Tables := with_procs [11; 12] (tables_init 2).






Definition demo_codes : list Z :=
  omap (fun s => match create_ul s with Ok k => Some k | Fault _ => None end) ["prog"; "libm-2.31.so"; "other"]%string.



(** The tables after the remap, and the maps of the two processes. *)
Definition demo_after : Tables := match remap demo_files 2 demo_tables with Ok t => t | Fault _ => demo_tables end.
Definition demo_map (i : nat) : list ProcMapInfo := nth i (pp_info demo_after) [].
Definition demo_fc (pid k : Z) : FilterConf := mkFC 3 0 0 pid (Z.shiftl k 58) 6.
Definition demo_zt : ZInfo := with_tables demo_after demo_z.

(** The well-formedness of tables, decided. *)
Definition tables_check (z : ZInfo) (m : list ProcMapInfo) : bool :=
  (length m =? 1000)%nat && (length (sharedLibInfo_idx z) =? 1000)%nat && (length (sharedLibInfo_libAddr z) =? 1000)%nat &&
  forallb (fun p => negb (sharable z p) ||
    bool_decide (is_Some (lib_base (sharedLibInfo_idx z) (sharedLibInfo_libAddr z) (pm_name p))) &&
    ((0 <=? base_of m (pm_name p)) && (base_of m (pm_name p) <=? start_range p)) &&
    (end_range p <=? base_of m (pm_name p) + 2 ^ 32) && (end_range p <=? max64)) m.

Lemma tables_checked z m : tables_check z m = true -> tables_ok z m.
Proof.
  unfold tables_check. rewrite !andb_true_iff, !Nat.eqb_eq, forallb_forall. intros [[[H1 H2] H3] H4].
  assert (forall p, p ∈ m -> sharable z p = true ->
    is_Some (lib_base (sharedLibInfo_idx z) (sharedLibInfo_libAddr z) (pm_name p)) /\
    0 <= base_of m (pm_name p) <= start_range p /\ end_range p <= base_of m (pm_name p) + 2 ^ 32 /\ end_range p <= max64) as H.
  { intros p Hp Hs. specialize (H4 p ltac:(by apply list_elem_of_In)). rewrite Hs in H4. cbn [negb orb] in H4.
    rewrite !andb_true_iff, bool_decide_eq_true in H4. destruct H4 as [[[? [? ?]] ?] ?]. split; [done|lia]. }
  constructor; try done; intros p Hp Hs; by apply H.
Qed.

Definition libs_check (t : Tables) (ks : list Z) : bool :=
  bool_decide (sl_idx t = ks ++ replicate (1000 - length ks) 0) &&
  bool_decide (sl_addr t = map lib_addr (seq 0 (length ks)) ++ replicate (1000 - length ks) 0) &&
  bool_decide (NoDup ks) && forallb (fun k => negb (k =? 0) && (k mod 256 =? 0)) ks &&
  (sharedLibAddress t =? lib_addr (length ks)) && (sharedLibEndAddress t =? 0x10000000000) && (length ks <=? 255)%nat.

Lemma libs_checked t ks : libs_check t ks = true -> libs_ok t ks.
Proof.
  unfold libs_check. rewrite !andb_true_iff, !bool_decide_eq_true, forallb_forall, !Z.eqb_eq, Nat.leb_le.
  intros [[[[[[H1 H2] H3] H4] H5] H6] H7]. constructor; try done. intros k Hk.
  specialize (H4 k ltac:(by apply list_elem_of_In)). lia.
Qed.

Lemma demo_after_ok : libs_ok demo_after demo_codes /\ tables_ok demo_zt (demo_map 0) /\ tables_ok demo_zt (demo_map 1).
Proof.
  split; [apply libs_checked; by vm_compute|]. split; apply tables_checked; by vm_compute.
Qed.

(** The second library page of process 11, and of process 12. *)
Lemma demo_pages : exists p1 p2,
  page_of demo_zt (demo_map 0) (Z.shiftr 0x7f0021000 6) p1 0x21000 /\
  page_of demo_zt (demo_map 1) (Z.shiftr 0x7e0021000 6) p2 0x21000 /\
  pm_name p1 = nth 1 demo_codes 0 /\ pm_name p2 = nth 1 demo_codes 0.
Proof. exists (nth 2 (demo_map 0) no_region), (nth 2 (demo_map 1) no_region). split; [split; [by vm_compute|by vm_compute]|]. split; [split; [by vm_compute|by vm_compute]|]. by vm_compute. Qed.

Lemma shared_lines_iff_witness :
  line_of demo_zt (demo_fc 11 1) (demo_map 0) (Z.shiftr 0x7f0021000 6) =
  line_of demo_zt (demo_fc 12 2) (demo_map 1) (Z.shiftr 0x7e0021000 6).
Proof.
  destruct demo_after_ok as (L & T1 & T2). destruct demo_pages as (p1 & p2 & G1 & G2 & N1 & N2).
  apply (shared_lines_iff demo_after demo_codes demo_z _ _ _ _ _ _ p1 p2 0x21000 0x21000 L eq_refl T1 T2 G1 G2);
    rewrite ?N1, ?N2; by vm_compute.
Defined.

Lemma translate_line_witness :
  let sys := mkSys [] demo_zt in
  exists perm region w', translate sys 0 (demo_fc 11 1) (Z.shiftr 0x7f0021000 6) CoherenceProps.demo_world
    = Ok ((line_of demo_zt (demo_fc 11 1) (demo_map 0) (Z.shiftr 0x7f0021000 6), perm, region), w') /\
    counters 0 CoherenceProps.demo_world w'.
Proof.
  apply (translate_line (mkSys [] demo_zt) 0 (demo_fc 11 1) (demo_map 0)).
  - intros _. split; [by vm_compute|apply demo_after_ok].
  - cbn. lia.
  - by vm_compute.
Defined.

Lemma private_isolated_witness :
  line_of demo_zt (demo_fc 11 1) (demo_map 0) (Z.shiftr 0x7fff01000 6) <>
  line_of demo_zt (demo_fc 12 2) (demo_map 1) (Z.shiftr 0x7fff01000 6).
Proof.
  apply (private_isolated demo_zt _ _ _ _ 1 2); [reflexivity|reflexivity|lia|lia|lia|by split; vm_compute|by split; vm_compute|].
  intros p Hp. by vm_compute in Hp; injection Hp as <-.
Defined.

Lemma create_ul_first4_witness : create_ul "libc.so.6" = create_ul "libcrypt.so.1".
Proof. apply create_ul_first4; [split; [done|]; by repeat constructor..|reflexivity]. Defined.

(** ** What the tables get wrong *)







End AddressProps.
(** ** Accounting of first-time misses *)

Module AccountProps.


(** World [w] with cache [c] in state [k]. *)
Notation upd w c k := (set_caches w (<[c := k]> (caches w))).

Section account.
Context {A M : Type} `{CacheArray A}.
Notation W := (World A M).
Variables (sys : Sys) (c : nat) (cf : CacheConf).
Hypothesis Hcf : confs sys !! c = Some cf.
Hypothesis Hterm : terminal cf = false.














Context `{RefreshArray A}.



End account.


(** ** A three-level system: per core an l1d filter cache under an l2, one l3. *)

Definition fc (c : nat) : FilterConf := mkFC 3 c 0 0 (Z.shiftl 1 58) 6.
Definition z : ZInfo := mkZ 1 true 3 false false false 1 2 3 4 2 [] [] [] [] 100.








End AccountProps.
