(* ===== verification/IntrusiveList.v ===== *)
(** * Intrusive doubly-linked lists (src/src/intrusive_list.h)

    Nodes carry their links and the list that owns them; a list has its ends and
    a count.  The store holds all nodes and all lists: pointers are keys.  The
    specification maps each list to the sequence of its nodes; the scheduler and
    the ideal arrays use these lists. *)

From stdpp Require Import gmap sets.
From S2P Require Import Prelude.
Local Open Scope Z_scope.

Module IntrusiveList.

Record InListNode := mkNode { next : option nat; prev : option nat; owner : option nat }.

Record InList := mkList { head : option nat; tail : option nat; elems : Z }.

Record Store := mkStore { nodes : gmap nat InListNode; lists : gmap nat InList }.

Definition InListNode_new : InListNode := mkNode None None None.
Definition InList_new : InList := mkList None None 0.

Notation M := (ST Store).

Definition getNode (e : nat) : M InListNode :=
  s ← get; lift (match nodes s !! e with Some n => Ok n | None => Fault OutOfRange end).
Definition setNode (e : nat) (f : InListNode -> InListNode) : M unit :=
  n ← getNode e; modify (fun s => mkStore (<[e := f n]> (nodes s)) (lists s)).
Definition getList (l : nat) : M InList :=
  s ← get; lift (match lists s !! l with Some x => Ok x | None => Fault OutOfRange end).
Definition setList (l : nat) (f : InList -> InList) : M unit :=
  x ← getList l; modify (fun s => mkStore (nodes s) (<[l := f x]> (lists s))).

Definition set_next (p : option nat) (n : InListNode) : InListNode := mkNode p (prev n) (owner n).
Definition set_prev (p : option nat) (n : InListNode) : InListNode := mkNode (next n) p (owner n).
Definition set_owner (o : option nat) (n : InListNode) : InListNode := mkNode (next n) (prev n) o.
Definition set_head (p : option nat) (x : InList) : InList := mkList p (tail x) (elems x).
Definition set_tail (p : option nat) (x : InList) : InList := mkList (head x) p (elems x).
Definition set_elems (n : Z) (x : InList) : InList := mkList (head x) (tail x) n.

Definition at_node (p : option nat) (f : InListNode -> InListNode) : M unit :=
  match p with Some q => setNode q f | None => mret tt end.

(** *** Nodes *)

Definition unlink (e lst : nat) : M unit :=
  n ← getNode e;
  _ ← at_node (next n) (set_prev (prev n));
  n ← getNode e;
  _ ← at_node (prev n) (set_next (next n));
  _ ← setNode e (set_next None);
  _ ← setNode e (set_prev None);
  n ← getNode e;
  _ ← assertS (bool_decide (owner n = Some lst));
  setNode e (set_owner None).

Definition linkPrev (e p lst : nat) : M unit :=
  n ← getNode e;
  _ ← assertS (bool_decide (owner n = None));
  _ ← assertS (bool_decide (prev n = None /\ next n = None));
  np ← getNode p;
  _ ← match next np with
      | Some q =>
          nq ← getNode q;
          _ ← assertS (bool_decide (prev nq = Some p));
          _ ← setNode q (set_prev (Some e));
          setNode e (set_next (Some q))
      | None => mret tt
      end;
  _ ← setNode p (set_next (Some e));
  _ ← setNode e (set_prev (Some p));
  setNode e (set_owner (Some lst)).

(** *** Lists *)

Definition empty (l : nat) : M bool := x ← getList l; mret (bool_decide (head x = None)).
Definition front (l : nat) : M (option nat) := x ← getList l; mret (head x).
Definition back (l : nat) : M (option nat) := x ← getList l; mret (tail x).
Definition size (l : nat) : M Z := x ← getList l; mret (elems x).

Definition fresh_node (e : nat) : M unit :=
  n ← getNode e; assertS (bool_decide (next n = None /\ prev n = None /\ owner n = None)).

Definition push_front (l e : nat) : M unit :=
  _ ← fresh_node e;
  b ← empty l;
  _ ← (if (b : bool) then
         _ ← setList l (set_head (Some e)); setList l (set_tail (Some e))
       else
         x ← getList l;
         match head x with
         | None => throw AssertFailed
         | Some h =>
             nh ← getNode h;
             _ ← assertS (bool_decide (prev nh = None /\ owner nh = Some l));
             _ ← setNode e (set_next (Some h));
             _ ← setNode h (set_prev (Some e));
             setList l (set_head (Some e))
         end);
  _ ← setNode e (set_owner (Some l));
  setList l (fun x => set_elems (elems x +64 1) x).

Definition push_back (l e : nat) : M unit :=
  _ ← fresh_node e;
  b ← empty l;
  _ ← (if (b : bool) then
         _ ← setList l (set_head (Some e)); _ ← setList l (set_tail (Some e)); setNode e (set_owner (Some l))
       else
         x ← getList l;
         match tail x with
         | None => throw AssertFailed
         | Some t => _ ← linkPrev e t l; setList l (set_tail (Some e))
         end);
  setList l (fun x => set_elems (elems x +64 1) x).

Definition pop_front (l : nat) : M unit :=
  x ← getList l;
  match head x with
  | None => mret tt
  | Some e =>
      n ← getNode e;
      _ ← setList l (set_head (next n));
      _ ← unlink e l;
      x ← getList l;
      _ ← whenS (bool_decide (head x = None)) (setList l (set_tail None));
      setList l (fun x => set_elems (elems x -64 1) x)
  end.

(** [empty] looks at the head; the element is the tail. *)
Definition pop_back (l : nat) : M unit :=
  x ← getList l;
  match head x with
  | None => mret tt
  | Some _ =>
      match tail x with
      | None => throw OutOfRange
      | Some e =>
          n ← getNode e;
          _ ← setList l (set_tail (prev n));
          _ ← unlink e l;
          x ← getList l;
          _ ← whenS (bool_decide (tail x = None)) (setList l (set_head None));
          setList l (fun x => set_elems (elems x -64 1) x)
      end
  end.

Definition remove (l e : nat) : M unit :=
  x ← getList l;
  n ← getNode e;
  _ ← whenS (bool_decide (head x = Some e)) (setList l (set_head (next n)));
  _ ← whenS (bool_decide (tail x = Some e)) (setList l (set_tail (prev n)));
  _ ← unlink e l;
  setList l (fun x => set_elems (elems x -64 1) x).

Definition insertAfter (l p e : nat) : M unit :=
  n ← getNode e;
  _ ← assertS (bool_decide (owner n = None));
  np ← getNode p;
  _ ← assertS (bool_decide (owner np = Some l));
  _ ← linkPrev e p l;
  x ← getList l;
  _ ← whenS (bool_decide (tail x = Some p)) (setList l (set_tail (Some e)));
  setList l (fun x => set_elems (elems x +64 1) x).

End IntrusiveList.

(** ** What the lists promise *)

Module IntrusiveListSpec.
Import IntrusiveList.

(** The sequence of nodes of each list. *)
Notation seqs := (gmap nat (list nat)).

Definition unlisted (Q : seqs) (x : nat) : Prop := forall l xs, Q !! l = Some xs -> x ∉ xs.

Record nodes_ok (Q : seqs) (m : gmap nat InListNode) : Prop := {
  no_nodup l xs : Q !! l = Some xs -> NoDup xs;
  no_node l k x k' : Q !! l = Some (k ++ x :: k') -> m !! x = Some (mkNode (hd_error k') (last k) (Some l));
  no_free x n : m !! x = Some n -> unlisted Q x -> n = InListNode_new }.

Definition list_of (xs : list nat) : InList := mkList (hd_error xs) (last xs) (Z.of_nat (length xs)).

Record rep (Q : seqs) (s : Store) : Prop := {
  rep_nodes : nodes_ok Q (nodes s);
  rep_lists l : lists s !! l = list_of <$> Q !! l }.

Inductive op :=
  | PushFront (l e : nat)
  | PushBack (l e : nat)
  | PopFront (l : nat)
  | PopBack (l : nat)
  | Remove (l e : nat)
  | InsertAfter (l p e : nat).

Definition run (o : op) : ST Store unit :=
  match o with
  | PushFront l e => push_front l e
  | PushBack l e => push_back l e
  | PopFront l => pop_front l
  | PopBack l => pop_back l
  | Remove l e => remove l e
  | InsertAfter l p e => insertAfter l p e
  end.

Definition op_list (o : op) : nat :=
  match o with PushFront l _ | PushBack l _ | PopFront l | PopBack l | Remove l _ | InsertAfter l _ _ => l end.

Definition op_seq (o : op) (xs : list nat) : list nat :=
  match o with
  | PushFront _ e => e :: xs
  | PushBack _ e => xs ++ [e]
  | PopFront _ => List.tl xs
  | PopBack _ => removelast xs
  | Remove _ e => filter (fun x => x <> e) xs
  | InsertAfter _ p e => flat_map (fun x => if bool_decide (x = p) then [x; e] else [x]) xs
  end.

(** When the operation is allowed on a list. *)
Definition op_ok (Q : seqs) (o : op) (xs : list nat) : Prop :=
  match o with
  | PushFront _ e | PushBack _ e => unlisted Q e
  | PopFront _ | PopBack _ => True
  | Remove _ e => e ∈ xs
  | InsertAfter _ p e => unlisted Q e /\ p ∈ xs
  end.

Definition op_nodes (o : op) : list nat :=
  match o with
  | PushFront _ e | PushBack _ e | Remove _ e => [e]
  | PopFront _ | PopBack _ => []
  | InsertAfter _ p e => [p; e]
  end.

(** *** Links changed around a node *)

Definition alter_at (p : option nat) (f : InListNode -> InListNode) (m : gmap nat InListNode) : gmap nat InListNode :=
  match p with Some q => alter f q m | None => m end.

Lemma alter_at_eq x f m : alter_at (Some x) f m !! x = f <$> m !! x.
Proof. apply lookup_alter_eq. Qed.

Lemma alter_at_ne p x f m : p <> Some x -> alter_at p f m !! x = m !! x.
Proof. destruct p as [q|]; [|done]. intros Hne. apply lookup_alter_ne. congruence. Qed.

Lemma last_elem {A} (l : list A) x : last l = Some x -> x ∈ l.
Proof. intros Hl. apply last_Some in Hl as [l' ->]. set_solver. Qed.

Lemma hd_elem {A} (l : list A) x : hd_error l = Some x -> x ∈ l.
Proof. destruct l as [|y l]; [done|]. intros [= ->]. by left. Qed.

Lemma no_owner Q m l xs x : nodes_ok Q m -> Q !! l = Some xs -> x ∈ xs -> exists n, m !! x = Some n /\ owner n = Some l.
Proof.
  intros Hm Hq Hx. apply list_elem_of_split in Hx as (k & k' & ->). eexists. split; [by eapply no_node|done].
Qed.

Lemma no_disjoint Q m l l' xs xs' x : nodes_ok Q m -> Q !! l = Some xs -> Q !! l' = Some xs' -> x ∈ xs -> x ∈ xs' -> l = l'.
Proof.
  intros Hm Hl Hl' Hx Hx'. destruct (no_owner _ _ _ _ _ Hm Hl Hx) as (n & Hn & Ho).
  destruct (no_owner _ _ _ _ _ Hm Hl' Hx') as (n' & Hn' & Ho'). congruence.
Qed.

Lemma unlisted_insert (Q : seqs) l xs ys x : Q !! l = Some xs -> unlisted (<[l := ys]> Q) x -> x ∉ ys /\ (x ∉ xs -> unlisted Q x).
Proof.
  intros Hq Hu. split; [apply (Hu l); by rewrite lookup_insert_eq|]. intros Hx l' xs' Hl'.
  destruct (decide (l' = l)) as [->|Hne]; [congruence|]. apply (Hu l'). by rewrite lookup_insert_ne.
Qed.

(** A node added between the two parts of a list, and one taken out. *)
Definition link_in (e : nat) (k k' : list nat) (l : nat) (m : gmap nat InListNode) : gmap nat InListNode :=
  <[e := mkNode (hd_error k') (last k) (Some l)]>
    (alter_at (last k) (set_next (Some e)) (alter_at (hd_error k') (set_prev (Some e)) m)).

Definition link_out (e : nat) (k k' : list nat) (m : gmap nat InListNode) : gmap nat InListNode :=
  <[e := InListNode_new]>
    (alter_at (last k) (set_next (hd_error k')) (alter_at (hd_error k') (set_prev (last k)) m)).

(** Two splits of one list around a node. *)
Lemma split_at {A} (k k' j j' : list A) x : k ++ k' = j ++ x :: j' ->
  (exists i, k = j ++ x :: i /\ j' = i ++ k') \/ (exists i, k' = i ++ x :: j' /\ j = k ++ i).
Proof.
  intros E. apply app_eq_app in E as (i & [[-> E]|[-> E]]).
  - destruct i as [|y i]; cbn in E; [subst k'; right; exists []; by rewrite !app_nil_r|]. injection E as <- ->. left. by exists i.
  - right. by exists i.
Qed.

Lemma last_app_cons {A} (k i : list A) (y : A) : last (k ++ y :: i) = last (y :: i).
Proof. induction k as [|a k IH]; [done|]. cbn [app]. rewrite <- IH. by destruct k. Qed.

Lemma hd_app_cons {A} (k i : list A) (y : A) : hd_error ((y :: k) ++ i) = Some y.
Proof. done. Qed.

Lemma nodes_in Q m l k k' e : nodes_ok Q m -> Q !! l = Some (k ++ k') -> unlisted Q e ->
  nodes_ok (<[l := k ++ e :: k']> Q) (link_in e k k' l m).
Proof.
  intros Hm Hq He. pose proof (no_nodup _ _ Hm _ _ Hq) as Hnd. pose proof (He _ _ Hq) as Hek.
  rewrite not_elem_of_app in Hek. destruct Hek as [Hek Hek'].
  apply NoDup_app in Hnd as (Hnk & Hdisj & Hnk').
  assert (forall x n, x <> e -> last k <> Some x -> hd_error k' <> Some x -> m !! x = Some n -> link_in e k k' l m !! x = Some n) as Hold.
  { intros x n Hx H1 H2 Hn. unfold link_in. rewrite lookup_insert_ne by done. by rewrite !alter_at_ne. }
  split.
  - intros l' xs. rewrite lookup_insert_Some. intros [[<- <-]|[_ Hl']]; [|by eapply no_nodup].
    apply NoDup_app. split_and!; [done| |by apply NoDup_cons]. intros x Hx Hx'. apply elem_of_cons in Hx' as [->|Hx']; [done|by apply (Hdisj x)].
  - intros l' j x j'. rewrite lookup_insert_Some. intros [[<- E]|[Hne Hl']].
    + destruct (split_at k (e :: k') j j' x E) as [(i & -> & ->)|(i & E' & ->)].
      * assert (m !! x = Some (mkNode (hd_error (i ++ k')) (last j) (Some l))) as Hx.
        { apply (no_node _ _ Hm). by rewrite Hq, <- app_assoc. }
        apply NoDup_app in Hnk as (_ & Hd2 & Hnx). apply NoDup_cons in Hnx as [Hxi _].
        destruct i as [|y i].
        -- cbn [app hd_error] in *. unfold link_in. rewrite last_snoc, lookup_insert_ne by set_solver.
           rewrite alter_at_eq, alter_at_ne, Hx; [done|]. intros Eh. apply hd_elem in Eh. apply (Hdisj x); [set_solver|done].
        -- rewrite hd_app_cons in Hx. apply Hold; [set_solver| |intros Eh; apply hd_elem in Eh; apply (Hdisj x); [set_solver|done]|done].
           intros El. rewrite last_app_cons in El. change (last (y :: i) = Some x) in El. apply last_elem in El. done.
      * destruct i as [|y i]; cbn [app] in E'.
        -- injection E' as <- <-. rewrite app_nil_r. unfold link_in. by rewrite lookup_insert_eq.
        -- injection E' as <- ->. rewrite last_app_cons.
           assert (m !! x = Some (mkNode (hd_error j') (last (k ++ i)) (Some l))) as Hx.
           { apply (no_node _ _ Hm). by rewrite Hq, <- app_assoc. }
           assert (x ∉ k) as Hxk by (intros Hxk; apply (Hdisj x); [done|set_solver]).
           destruct i as [|y i].
           ++ unfold link_in. rewrite lookup_insert_ne by set_solver. rewrite alter_at_ne by (intros El; by apply last_elem in El).
              cbn [app hd_error]. rewrite alter_at_eq, Hx. by rewrite app_nil_r.
           ++ change (last (e :: y :: i)) with (last (y :: i)). rewrite last_app_cons in Hx.
              apply Hold; [set_solver|by intros El; apply last_elem in El| |done]. cbn. intros [= ->].
              cbn in Hnk'. apply NoDup_cons in Hnk' as [Hn _]. set_solver.
    + assert (x ∈ j ++ x :: j') as Hxin by set_solver.
      assert (x ∉ k ++ k') as Hxn by (intros Hx; apply Hne; by eapply (no_disjoint Q m l l')). rewrite not_elem_of_app in Hxn. destruct Hxn.
      apply Hold; [intros ->; by apply (He _ _ Hl')|by intros El; apply last_elem in El|by intros Eh; apply hd_elem in Eh|by eapply no_node].
  - intros x n Hx Hu. destruct (unlisted_insert _ _ _ _ _ Hq Hu) as [Hxn Hxu]. rewrite not_elem_of_app, not_elem_of_cons in Hxn.
    destruct Hxn as (Hxk & Hxe & Hxk'). unfold link_in in Hx. rewrite lookup_insert_ne in Hx by done.
    rewrite !alter_at_ne in Hx by (intros E; first [by apply last_elem in E|by apply hd_elem in E]).
    apply (no_free _ _ Hm x); [done|apply Hxu; rewrite not_elem_of_app; done].
Qed.

Lemma nodes_out Q m l k k' e : nodes_ok Q m -> Q !! l = Some (k ++ e :: k') ->
  nodes_ok (<[l := k ++ k']> Q) (link_out e k k' m).
Proof.
  intros Hm Hq. pose proof (no_nodup _ _ Hm _ _ Hq) as Hnd.
  apply NoDup_app in Hnd as (Hnk & Hdisj & Hnk'). apply NoDup_cons in Hnk' as [Hek' Hnk'].
  assert (e ∉ k) as Hek by (intros Hx; apply (Hdisj e Hx); by left).
  assert (forall x, x ∈ k -> x ∉ k') as Hkk by (intros x Hx Hx'; apply (Hdisj x Hx); by right).
  assert (forall x n, x <> e -> last k <> Some x -> hd_error k' <> Some x -> m !! x = Some n -> link_out e k k' m !! x = Some n) as Hold.
  { intros x n Hx H1 H2 Hn. unfold link_out. rewrite lookup_insert_ne by done. by rewrite !alter_at_ne. }
  split.
  - intros l' xs. rewrite lookup_insert_Some. intros [[<- <-]|[_ Hl']]; [|by eapply no_nodup]. by apply NoDup_app.
  - intros l' j x j'. rewrite lookup_insert_Some. intros [[<- E]|[Hne Hl']].
    + destruct (split_at k k' j j' x E) as [(i & -> & ->)|(i & -> & ->)].
      * assert (m !! x = Some (mkNode (hd_error (i ++ e :: k')) (last j) (Some l))) as Hx.
        { apply (no_node _ _ Hm). by rewrite Hq, <- app_assoc. }
        apply NoDup_app in Hnk as (_ & Hd2 & Hnx). apply NoDup_cons in Hnx as [Hxi _].
        destruct i as [|y i].
        -- cbn [app hd_error] in *. unfold link_out. rewrite last_snoc, lookup_insert_ne by set_solver.
           rewrite alter_at_eq, alter_at_ne, Hx; [done|]. intros Eh. apply hd_elem in Eh. apply (Hkk x); [set_solver|done].
        -- rewrite hd_app_cons in Hx. apply Hold; [set_solver| |intros Eh; apply hd_elem in Eh; apply (Hkk x); [set_solver|done]|done].
           intros El. rewrite last_app_cons in El. change (last (y :: i) = Some x) in El. by apply last_elem in El.
      * assert (m !! x = Some (mkNode (hd_error j') (last (k ++ e :: i)) (Some l))) as Hx.
        { apply (no_node _ _ Hm). by rewrite Hq, <- app_assoc. }
        assert (x ∉ k) as Hxk by (intros Hxk; apply (Hkk x); [done|set_solver]).
        rewrite last_app_cons in Hx. destruct i as [|y i].
        -- unfold link_out. rewrite lookup_insert_ne by set_solver. rewrite alter_at_ne by (intros El; by apply last_elem in El).
           cbn [app hd_error]. rewrite alter_at_eq, Hx. by rewrite app_nil_r.
        -- change (last (e :: y :: i)) with (last (y :: i)) in Hx. rewrite last_app_cons.
           apply Hold; [set_solver|by intros El; apply last_elem in El| |done]. cbn. intros [= ->].
           cbn in Hnk'. apply NoDup_cons in Hnk' as [Hn _]. set_solver.
    + assert (x ∈ j ++ x :: j') as Hxin by set_solver.
      assert (x ∉ k ++ e :: k') as Hxn by (intros Hx; apply Hne; by eapply (no_disjoint Q m l l')).
      rewrite not_elem_of_app, not_elem_of_cons in Hxn. destruct Hxn as (? & ? & ?).
      apply Hold; [done|by intros El; apply last_elem in El|by intros Eh; apply hd_elem in Eh|by eapply no_node].
  - intros x n Hx Hu. destruct (unlisted_insert _ _ _ _ _ Hq Hu) as [Hxn Hxu]. rewrite not_elem_of_app in Hxn.
    destruct Hxn as (Hxk & Hxk'). unfold link_out in Hx. rewrite lookup_insert_Some in Hx. destruct Hx as [[_ <-]|[Hne Hx]]; [done|].
    rewrite !alter_at_ne in Hx by (intros E; first [by apply last_elem in E|by apply hd_elem in E]).
    apply (no_free _ _ Hm x); [done|apply Hxu; rewrite not_elem_of_app, not_elem_of_cons; done].
Qed.

(** *** The primitives *)

Lemma alter_some {A} (f : A -> A) (m : gmap nat A) e n : m !! e = Some n -> alter f e m = <[e := f n]> m.
Proof. intros He. apply map_eq. intros x. destruct (decide (x = e)) as [->|]; [by rewrite lookup_alter_eq, lookup_insert_eq, He|by rewrite lookup_alter_ne, lookup_insert_ne]. Qed.

Lemma wp_getNode e s n (P : InListNode -> Store -> Prop) : nodes s !! e = Some n -> P n s -> wp (getNode e) s P.
Proof. intros He HP. unfold getNode. apply wp_bind, wp_get. eapply wp_lift; [by rewrite He|done]. Qed.

Lemma wp_setNode e f s n (P : unit -> Store -> Prop) : nodes s !! e = Some n ->
  P tt (mkStore (<[e := f n]> (nodes s)) (lists s)) -> wp (setNode e f) s P.
Proof. intros He HP. unfold setNode. apply wp_bind. by eapply wp_getNode. Qed.

Lemma wp_getList l s x (P : InList -> Store -> Prop) : lists s !! l = Some x -> P x s -> wp (getList l) s P.
Proof. intros He HP. unfold getList. apply wp_bind, wp_get. eapply wp_lift; [by rewrite He|done]. Qed.

Lemma wp_setList l f s x (P : unit -> Store -> Prop) : lists s !! l = Some x ->
  P tt (mkStore (nodes s) (<[l := f x]> (lists s))) -> wp (setList l f) s P.
Proof. intros He HP. unfold setList. apply wp_bind. by eapply wp_getList. Qed.

Lemma wp_at_node p f s (P : unit -> Store -> Prop) : (forall q, p = Some q -> is_Some (nodes s !! q)) ->
  P tt (mkStore (alter_at p f (nodes s)) (lists s)) -> wp (at_node p f) s P.
Proof.
  intros Hp HP. destruct p as [q|]; [|by destruct s; apply wp_ret]. destruct (Hp q eq_refl) as [n Hn].
  eapply wp_setNode; [exact Hn|]. cbn in HP. by rewrite (alter_some _ _ _ _ Hn) in HP.
Qed.

Lemma alter_at_is_some p f m x : is_Some (m !! x) -> is_Some (alter_at p f m !! x).
Proof.
  intros Hx. destruct p as [q|]; [|done]. cbn. destruct (decide (x = q)) as [->|]; [rewrite lookup_alter_eq; by apply fmap_is_Some|by rewrite lookup_alter_ne].
Qed.

Section ops.
Context (Q : seqs) (s : Store) (l : nat).
Hypothesis Hm : nodes_ok Q (nodes s).

Lemma member_node xs x : Q !! l = Some xs -> x ∈ xs -> is_Some (nodes s !! x).
Proof. intros Hl Hx. destruct (no_owner _ _ _ _ _ Hm Hl Hx) as (n & ? & _). by exists n. Qed.

Lemma wp_unlink k e k' (P : unit -> Store -> Prop) : Q !! l = Some (k ++ e :: k') ->
  P tt (mkStore (link_out e k k' (nodes s)) (lists s)) -> wp (unlink e l) s P.
Proof.
  intros Hq HP. pose proof (no_nodup _ _ Hm _ _ Hq) as Hnd.
  apply NoDup_app in Hnd as (Hnk & Hdisj & Hnk'). apply NoDup_cons in Hnk' as [Hek' Hnk'].
  assert (e ∉ k) as Hek by (intros Hx; apply (Hdisj e Hx); by left).
  pose proof (no_node _ _ Hm _ _ _ _ Hq) as He.
  assert (hd_error k' <> Some e) as H1 by (intros E; by apply hd_elem in E).
  assert (last k <> Some e) as H2 by (intros E; by apply last_elem in E).
  unfold unlink. apply wp_bind. eapply wp_getNode; [exact He|]. apply wp_bind, wp_at_node.
  { intros q E. apply (member_node _ _ Hq). apply hd_elem in E. set_solver. }
  apply wp_bind. cbn [next prev]. eapply wp_getNode; [cbn [nodes]; rewrite alter_at_ne by done; exact He|]. apply wp_bind, wp_at_node.
  { cbn [nodes prev]. intros q E. apply alter_at_is_some, (member_node _ _ Hq). apply last_elem in E. set_solver. }
  cbn [nodes lists next prev]. apply wp_bind. eapply wp_setNode; [cbn [nodes]; rewrite !alter_at_ne by done; exact He|].
  apply wp_bind. eapply wp_setNode; [cbn [nodes]; apply lookup_insert_eq|].
  apply wp_bind. eapply wp_getNode; [cbn [nodes]; apply lookup_insert_eq|].
  apply wp_bind, wp_assert; [by apply bool_decide_true|]. eapply wp_setNode; [cbn [nodes]; apply lookup_insert_eq|].
  cbn [nodes lists]. rewrite !insert_insert_eq. exact HP.
Qed.

Lemma wp_linkPrev k p k' e (P : unit -> Store -> Prop) : Q !! l = Some (k ++ p :: k') -> unlisted Q e -> is_Some (nodes s !! e) ->
  P tt (mkStore (link_in e (k ++ [p]) k' l (nodes s)) (lists s)) -> wp (linkPrev e p l) s P.
Proof.
  intros Hq Hu [n He] HP. pose proof (no_free _ _ Hm _ _ He Hu) as ->.
  pose proof (no_node _ _ Hm _ _ _ _ Hq) as Hp. pose proof (Hu _ _ Hq) as Hn. rewrite not_elem_of_app, not_elem_of_cons in Hn.
  destruct Hn as (Hnk & Hnp & Hnk'). pose proof (no_nodup _ _ Hm _ _ Hq) as Hnd.
  apply NoDup_app in Hnd as (_ & _ & Hnd). apply NoDup_cons in Hnd as [Hpk' _].
  unfold linkPrev. apply wp_bind. eapply wp_getNode; [exact He|]. do 2 (apply wp_bind, wp_assert; [by apply bool_decide_true|]).
  apply wp_bind. eapply wp_getNode; [exact Hp|]. cbn [next].
  unfold link_in in HP. rewrite last_snoc in HP. apply wp_bind. destruct k' as [|q k'].
  - cbn [hd_error alter_at] in *. apply wp_ret, wp_bind. eapply wp_setNode; [exact Hp|].
    apply wp_bind. eapply wp_setNode; [cbn [nodes]; rewrite lookup_insert_ne by done; exact He|].
    eapply wp_setNode; [cbn [nodes]; apply lookup_insert_eq|]. cbn [nodes lists]. rewrite insert_insert_eq.
    rewrite (alter_some _ _ _ _ Hp) in HP. exact HP.
  - rewrite not_elem_of_cons in Hnk', Hpk'. destruct Hnk' as [Hnq _], Hpk' as [Hpq _]. cbn [hd_error alter_at] in *.
    assert (nodes s !! q = Some (mkNode (hd_error k') (Some p) (Some l))) as Hqn.
    { rewrite <- (last_snoc p k). apply (no_node _ _ Hm). by rewrite Hq, <- app_assoc. }
    apply wp_bind. eapply wp_getNode; [exact Hqn|]. apply wp_bind, wp_assert; [by apply bool_decide_true|].
    apply wp_bind. eapply wp_setNode; [exact Hqn|]. eapply wp_setNode; [cbn [nodes]; rewrite lookup_insert_ne by done; exact He|].
    apply wp_bind. eapply wp_setNode; [cbn [nodes]; rewrite !lookup_insert_ne by done; exact Hp|].
    apply wp_bind. eapply wp_setNode; [cbn [nodes]; rewrite lookup_insert_ne, lookup_insert_eq by done; reflexivity|].
    eapply wp_setNode; [cbn [nodes]; apply lookup_insert_eq|]. cbn [nodes lists].
    rewrite (alter_some _ _ _ _ Hqn) in HP. rewrite (alter_some _ _ p (mkNode (Some q) (last k) (Some l))) in HP
      by (rewrite lookup_insert_ne by done; exact Hp).
    rewrite insert_insert_eq. rewrite (insert_insert_ne _ p e) by done. rewrite insert_insert_eq. exact HP.
Qed.

End ops.

(** *** The operations *)

Lemma rep_update Q s l ys m : rep Q s -> nodes_ok (<[l := ys]> Q) m ->
  rep (<[l := ys]> Q) (mkStore m (<[l := list_of ys]> (lists s))).
Proof.
  intros [_ Hl] Hm. split; [done|]. intros l'. cbn. destruct (decide (l' = l)) as [->|Hne]; [by rewrite !lookup_insert_eq|].
  rewrite !lookup_insert_ne by done. apply Hl.
Qed.

(** The lone node of a list that was empty. *)
Lemma alone Q s l e : rep Q s -> Q !! l = Some [] -> unlisted Q e ->
  nodes_ok (<[l := [e]]> Q) (<[e := mkNode None None (Some l)]> (nodes s)).
Proof. intros Hr Hl Hu. exact (nodes_in Q (nodes s) l [] [] e (rep_nodes _ _ Hr) Hl Hu). Qed.

(** A conditional update, and the ends of a list that loses a node. *)
Lemma wp_setIf (c : bool) l f s x (P : unit -> Store -> Prop) : lists s !! l = Some x ->
  P tt (mkStore (nodes s) (<[l := if c then f x else x]> (lists s))) -> wp (whenS c (setList l f)) s P.
Proof.
  intros Hx HP. destruct c; [by eapply wp_setList|]. apply wp_ret. rewrite (insert_id _ _ _ Hx) in HP. by destruct s.
Qed.

Lemma list_of_remove k e k' : NoDup (k ++ e :: k') -> Z.of_nat (length (k ++ k')) < max64 ->
  let x := list_of (k ++ e :: k') in
  let x1 := if bool_decide (head x = Some e) then set_head (hd_error k') x else x in
  let x2 := if bool_decide (tail x = Some e) then set_tail (last k) x1 else x1 in
  set_elems (elems x2 -64 1) x2 = list_of (k ++ k').
Proof.
  intros Hnd Hn. cbv zeta. apply NoDup_app in Hnd as (_ & Hdisj & Hnd). apply NoDup_cons in Hnd as [Hek' _].
  assert (e ∉ k) as Hek by (intros Hx; apply (Hdisj e Hx); by left).
  assert (Z.of_nat (length (k ++ e :: k')) -64 1 = Z.of_nat (length (k ++ k'))) as Hc.
  { rewrite !length_app in *. cbn [length]. rewrite Nat.add_succ_r. rewrite u64_small; lia. }
  assert (forall a b, hd_error (k ++ a) = hd_error (k ++ b) \/ k = []) as Hh by (intros; destruct k; [by right|by left]).
  unfold list_of. cbn [head tail]. rewrite last_app_cons.
  assert (last (k ++ k') = if decide (k' = []) then last k else last (e :: k')) as ->.
  { destruct k' as [|z k']; [by rewrite app_nil_r|]. by rewrite last_app_cons. }
  assert (bool_decide (last (e :: k') = Some e) = bool_decide (k' = [])) as ->.
  { apply bool_decide_ext. destruct k' as [|z k']; [done|]. split; [|done]. intros E. exfalso. apply Hek'.
    change (last (e :: z :: k')) with (last (z :: k')) in E. by apply last_elem in E. }
  assert (bool_decide (hd_error (k ++ e :: k') = Some e) = bool_decide (k = [])) as ->.
  { apply bool_decide_ext. destruct k as [|y k]; [done|]. cbn. split; [intros [= ->]; set_solver|done]. }
  repeat case_bool_decide; repeat case_decide; try done; subst; unfold set_elems, set_tail, set_head; cbn [head tail elems]; rewrite Hc; f_equal;
    try done; by destruct k.
Qed.

Section refines.
Context (Q : seqs) (s : Store) (l : nat) (xs : list nat).
Hypotheses (Hr : rep Q s) (Hl : Q !! l = Some xs).

Lemma the_list : lists s !! l = Some (list_of xs).
Proof. by rewrite (rep_lists _ _ Hr), Hl. Qed.

Lemma wp_fresh_node e (P : unit -> Store -> Prop) : unlisted Q e -> is_Some (nodes s !! e) -> P tt s -> wp (fresh_node e) s P.
Proof.
  intros Hu [n He] HP. pose proof (no_free _ _ (rep_nodes _ _ Hr) _ _ He Hu) as ->.
  unfold fresh_node. apply wp_bind. eapply wp_getNode; [exact He|]. apply wp_assert; [by apply bool_decide_true|done].
Qed.

Lemma count_up (n : nat) : Z.of_nat (S n) < max64 -> Z.of_nat n +64 1 = Z.of_nat (S n).
Proof. intros Hn. rewrite u64_small; lia. Qed.

Lemma count_down (n : nat) : Z.of_nat n < max64 -> Z.of_nat (S n) -64 1 = Z.of_nat n.
Proof. intros Hn. rewrite u64_small; lia. Qed.

Lemma wp_list_push_front e : unlisted Q e -> is_Some (nodes s !! e) -> Z.of_nat (length (e :: xs)) < max64 ->
  wp (push_front l e) s (fun _ s' => rep (<[l := e :: xs]> Q) s').
Proof.
  intros Hu He Hn. unfold push_front. apply wp_bind, wp_fresh_node; [done|done|].
  destruct He as [n He]. pose proof (no_free _ _ (rep_nodes _ _ Hr) _ _ He Hu) as ->.
  unfold empty. apply wp_bind, wp_bind. eapply wp_getList; [exact the_list|]. apply wp_ret. cbn [length] in Hn.
  pose proof (nodes_in Q (nodes s) l [] xs e (rep_nodes _ _ Hr) Hl Hu) as Hin. unfold link_in in Hin. cbn [last alter_at app] in Hin.
  pose proof the_list as Hls. destruct xs as [|h t] eqn:Ex; cbn [list_of hd_error head].
  - rewrite bool_decide_true by done. apply wp_bind, wp_bind. eapply wp_setList; [exact Hls|].
    eapply wp_setList; [cbn [lists]; apply lookup_insert_eq|]. apply wp_bind. eapply wp_setNode; [exact He|].
    eapply wp_setList; [cbn [lists]; apply lookup_insert_eq|]. cbn [lists nodes]. rewrite !insert_insert_eq.
    replace (set_elems _ _) with (list_of [e]) by (unfold list_of, set_elems; cbn; by rewrite (count_up 0) by lia).
    apply rep_update; [done|]. by apply alone.
  - rewrite bool_decide_false by done. apply wp_bind, wp_bind. eapply wp_getList; [exact Hls|]. cbn [list_of hd_error head].
    pose proof (no_node _ _ (rep_nodes _ _ Hr) l [] h t Hl) as Hh. pose proof (Hu _ _ Hl) as Hne. rewrite not_elem_of_cons in Hne. destruct Hne as [Hne _].
    apply wp_bind. eapply wp_getNode; [exact Hh|]. apply wp_bind, wp_assert; [by apply bool_decide_true|].
    apply wp_bind. eapply wp_setNode; [exact He|]. apply wp_bind. eapply wp_setNode; [cbn [nodes]; rewrite lookup_insert_ne by done; exact Hh|].
    eapply wp_setList; [exact Hls|]. apply wp_bind. eapply wp_setNode; [cbn [nodes]; rewrite lookup_insert_ne, lookup_insert_eq by done; reflexivity|].
    eapply wp_setList; [cbn [lists]; apply lookup_insert_eq|]. cbn [lists nodes]. rewrite insert_insert_eq.
    rewrite (insert_insert_ne _ h e), insert_insert_eq by done.
    cbn [hd_error alter_at] in Hin. rewrite (alter_some _ _ _ _ Hh) in Hin.
    replace (set_elems _ _) with (list_of (e :: h :: t)); [by apply rep_update|].
    unfold list_of, set_elems, set_head. cbn [head tail elems hd_error last length] in *. by rewrite count_up.
Qed.

Lemma wp_list_push_back e : unlisted Q e -> is_Some (nodes s !! e) -> Z.of_nat (length (xs ++ [e])) < max64 ->
  wp (push_back l e) s (fun _ s' => rep (<[l := xs ++ [e]]> Q) s').
Proof.
  intros Hu He Hn. unfold push_back. apply wp_bind, wp_fresh_node; [done|done|].
  unfold empty. apply wp_bind, wp_bind. eapply wp_getList; [exact the_list|]. apply wp_ret. rewrite length_app in Hn. cbn [length] in Hn.
  pose proof the_list as Hls. destruct xs as [|x t] eqn:Ex using rev_ind.
  - destruct He as [n He]. pose proof (no_free _ _ (rep_nodes _ _ Hr) _ _ He Hu) as ->. cbn [list_of hd_error head].
    rewrite bool_decide_true by done. apply wp_bind, wp_bind. eapply wp_setList; [exact Hls|]. apply wp_bind.
    eapply wp_setList; [cbn [lists]; apply lookup_insert_eq|]. eapply wp_setNode; [exact He|].
    eapply wp_setList; [cbn [lists]; apply lookup_insert_eq|]. cbn [lists nodes]. rewrite !insert_insert_eq.
    replace (set_elems _ _) with (list_of [e]) by (unfold list_of, set_elems; cbn; by rewrite (count_up 0) by lia).
    apply (rep_update Q s l [e]); [done|]. by apply alone.
  - clear IHt. unfold list_of. cbn [head]. rewrite bool_decide_false by by destruct t.
    apply wp_bind, wp_bind. eapply wp_getList; [exact Hls|]. cbn [list_of tail]. rewrite last_snoc.
    apply wp_bind. eapply (wp_linkPrev Q s l (rep_nodes _ _ Hr) t x [] e); [exact Hl|done|done|].
    eapply wp_setList; [exact Hls|]. eapply wp_setList; [cbn [lists]; apply lookup_insert_eq|]. cbn [lists nodes]. rewrite insert_insert_eq.
    replace (set_elems _ _) with (list_of ((t ++ [x]) ++ [e])).
    { apply rep_update; [done|]. apply nodes_in; [apply (rep_nodes _ _ Hr)|by rewrite app_nil_r|done]. }
    unfold list_of, set_elems, set_tail. cbn [head tail elems]. rewrite !last_snoc, !length_app in *. cbn [length] in *.
    replace (Z.of_nat (length t + 1) +64 1) with (Z.of_nat (length t + 1 + 1)) by (rewrite u64_small; lia).
    f_equal. by destruct t.
Qed.

Lemma wp_list_remove k e k' : xs = k ++ e :: k' -> Z.of_nat (length (k ++ k')) < max64 ->
  wp (remove l e) s (fun _ s' => rep (<[l := k ++ k']> Q) s').
Proof.
  intros Ex Hn. pose proof Hl as Hq. rewrite Ex in Hq. pose proof (no_nodup _ _ (rep_nodes _ _ Hr) _ _ Hq) as Hnd.
  pose proof (no_node _ _ (rep_nodes _ _ Hr) _ _ _ _ Hq) as He.
  unfold remove. apply wp_bind. eapply wp_getList; [exact the_list|]. apply wp_bind. eapply wp_getNode; [exact He|]. cbn [next prev].
  apply wp_bind. eapply wp_setIf; [exact the_list|]. apply wp_bind. eapply wp_setIf; [cbn [lists]; apply lookup_insert_eq|].
  cbn [lists nodes]. rewrite insert_insert_eq. apply wp_bind.
  apply (wp_unlink Q (mkStore (nodes s) _) l (rep_nodes _ _ Hr) k e k'); [exact Hq|].
  eapply wp_setList; [cbn [lists]; apply lookup_insert_eq|]. cbn [lists nodes]. rewrite insert_insert_eq.
  rewrite Ex, list_of_remove by done. apply rep_update; [done|]. by apply nodes_out, Hq; apply (rep_nodes _ _ Hr).
Qed.

Lemma wp_pop_front e k' : xs = e :: k' -> Z.of_nat (length k') < max64 ->
  wp (pop_front l) s (fun _ s' => rep (<[l := k']> Q) s').
Proof.
  intros Ex Hn. pose proof Hl as Hq. rewrite Ex in Hq.
  pose proof (no_node _ _ (rep_nodes _ _ Hr) _ [] _ _ Hq) as He. pose proof the_list as Hls. rewrite Ex in Hls.
  unfold pop_front. apply wp_bind. eapply wp_getList; [exact Hls|]. cbn [list_of hd_error head].
  apply wp_bind. eapply wp_getNode; [exact He|]. apply wp_bind. eapply wp_setList; [exact Hls|]. apply wp_bind.
  apply (wp_unlink Q (mkStore (nodes s) _) l (rep_nodes _ _ Hr) [] e k'); [exact Hq|]. cbn [next].
  apply wp_bind. eapply wp_getList; [cbn [lists]; apply lookup_insert_eq|].
  apply wp_bind. eapply wp_setIf; [cbn [lists]; apply lookup_insert_eq|].
  eapply wp_setList; [cbn [lists]; apply lookup_insert_eq|]. cbn [lists nodes]. rewrite !insert_insert_eq.
  replace (set_elems _ _) with (list_of k').
  - apply rep_update; [done|]. exact (nodes_out Q (nodes s) l [] k' e (rep_nodes _ _ Hr) Hq).
  - unfold list_of, set_elems, set_head, set_tail. destruct k' as [|y k']; [by cbn; rewrite (count_down 0) by (cbn in *; lia)|].
    cbn [hd_error head]. rewrite bool_decide_false by done. cbn [head tail elems last length] in *. by rewrite count_down.
Qed.

Lemma wp_pop_back k e : xs = k ++ [e] -> Z.of_nat (length k) < max64 ->
  wp (pop_back l) s (fun _ s' => rep (<[l := k]> Q) s').
Proof.
  intros Ex Hn. pose proof Hl as Hq. rewrite Ex in Hq.
  pose proof (no_node _ _ (rep_nodes _ _ Hr) _ _ _ _ Hq) as He. pose proof the_list as Hls. rewrite Ex in Hls.
  unfold pop_back. apply wp_bind. eapply wp_getList; [exact Hls|]. cbn [list_of head tail]. rewrite last_snoc.
  assert (is_Some (hd_error (k ++ [e]))) as [h ->] by by destruct k.
  apply wp_bind. eapply wp_getNode; [exact He|]. apply wp_bind. eapply wp_setList; [exact Hls|]. apply wp_bind.
  apply (wp_unlink Q (mkStore (nodes s) _) l (rep_nodes _ _ Hr) k e []); [exact Hq|]. cbn [prev].
  apply wp_bind. eapply wp_getList; [cbn [lists]; apply lookup_insert_eq|].
  apply wp_bind. eapply wp_setIf; [cbn [lists]; apply lookup_insert_eq|].
  eapply wp_setList; [cbn [lists]; apply lookup_insert_eq|]. cbn [lists nodes]. rewrite !insert_insert_eq.
  replace (set_elems _ _) with (list_of k).
  - apply rep_update; [done|]. pose proof (nodes_out Q (nodes s) l k [] e (rep_nodes _ _ Hr) Hq) as Hno. by rewrite app_nil_r in Hno.
  - unfold list_of, set_elems, set_head, set_tail. rewrite length_app. cbn [tail length].
    assert (Z.of_nat (length k + 1) -64 1 = Z.of_nat (length k)) as Hc by (rewrite Nat.add_1_r; by apply count_down).
    destruct k as [|y k]; [done|]. rewrite bool_decide_false by by destruct k using rev_ind; [|rewrite app_comm_cons, last_snoc].
    cbn [head tail elems]. by rewrite Hc.
Qed.

Lemma wp_insertAfter k p k' e : xs = k ++ p :: k' -> unlisted Q e -> is_Some (nodes s !! e) ->
  Z.of_nat (length (k ++ p :: e :: k')) < max64 ->
  wp (insertAfter l p e) s (fun _ s' => rep (<[l := k ++ p :: e :: k']> Q) s').
Proof.
  intros Ex Hu Hse Hn. pose proof Hl as Hq. rewrite Ex in Hq. pose proof (no_nodup _ _ (rep_nodes _ _ Hr) _ _ Hq) as Hnd.
  pose proof (no_node _ _ (rep_nodes _ _ Hr) _ _ _ _ Hq) as Hp. pose proof Hse as [n He].
  pose proof (no_free _ _ (rep_nodes _ _ Hr) _ _ He Hu) as ->.
  unfold insertAfter. apply wp_bind. eapply wp_getNode; [exact He|]. apply wp_bind, wp_assert; [by apply bool_decide_true|].
  apply wp_bind. eapply wp_getNode; [exact Hp|]. apply wp_bind, wp_assert; [by apply bool_decide_true|].
  apply wp_bind, (wp_linkPrev Q s l (rep_nodes _ _ Hr) k p k' e); [exact Hq|done|done|].
  apply wp_bind. eapply wp_getList; [exact the_list|]. apply wp_bind. eapply wp_setIf; [exact the_list|].
  eapply wp_setList; [cbn [lists]; apply lookup_insert_eq|]. cbn [lists nodes]. rewrite insert_insert_eq.
  replace (set_elems _ _) with (list_of (k ++ p :: e :: k')).
  - apply rep_update; [done|]. change (p :: e :: k') with ([p] ++ e :: k'). rewrite app_assoc.
    apply nodes_in; [apply (rep_nodes _ _ Hr)|by rewrite <- app_assoc|done].
  - rewrite Ex. unfold list_of, set_elems, set_tail. cbn [tail head elems]. rewrite !last_app_cons.
    assert (Z.of_nat (length (k ++ p :: k')) +64 1 = Z.of_nat (length (k ++ p :: e :: k'))) as Hc.
    { rewrite !length_app in *. cbn [length] in *. rewrite u64_small; lia. }
    assert (hd_error (k ++ p :: e :: k') = hd_error (k ++ p :: k')) as Eh by by destruct k.
    destruct k' as [|y k'].
    + cbn [last]. rewrite bool_decide_true by done. cbn [head tail elems]. by rewrite Hc, Eh.
    + change (last (p :: y :: k')) with (last (y :: k')). change (last (p :: e :: y :: k')) with (last (y :: k')).
      rewrite bool_decide_false; [cbn [head tail elems]; by rewrite Hc, Eh|].
      intros E. apply last_elem in E. apply NoDup_app in Hnd as (_ & _ & Hnd). apply NoDup_cons in Hnd as [Hnd _]. done.
Qed.

End refines.

Lemma nodup_split_last (xs : list nat) : xs = [] \/ exists k e, xs = k ++ [e].
Proof. destruct xs as [|x xs _] using rev_ind; [by left|right; by exists xs, x]. Qed.

(** An operation that is allowed does what its sequence says. *)
Lemma op_run_ok Q s o xs : rep Q s -> Q !! op_list o = Some xs -> op_ok Q o xs ->
  (forall e, e ∈ op_nodes o -> is_Some (nodes s !! e)) -> Z.of_nat (length (op_seq o xs)) < max64 ->
  wp (run o) s (fun _ s' => rep (<[op_list o := op_seq o xs]> Q) s').
Proof.
  intros Hr Hl Hok He Hn. pose proof (no_nodup _ _ (rep_nodes _ _ Hr) _ _ Hl) as Hnd.
  destruct o as [l e|l e|l|l|l e|l p e]; cbn [op_list op_ok op_nodes op_seq run] in *.
  - apply wp_list_push_front; [done|done|done|apply He; by left|done].
  - apply wp_list_push_back; [done|done|done|apply He; by left|done].
  - destruct xs as [|e k]; [|by eapply wp_pop_front].
    unfold pop_front. apply wp_bind. eapply wp_getList; [by rewrite (rep_lists _ _ Hr), Hl|]. cbn. apply wp_ret. by rewrite insert_id.
  - destruct (nodup_split_last xs) as [->|(k & e & ->)]; [|rewrite removelast_last in *; by eapply wp_pop_back].
    unfold pop_back. apply wp_bind. eapply wp_getList; [by rewrite (rep_lists _ _ Hr), Hl|]. cbn. apply wp_ret. by rewrite insert_id.
  - apply list_elem_of_split in Hok as (k & k' & ->). rewrite filter_without in * by done. by eapply wp_list_remove.
  - destruct Hok as [Hu Hp]. apply list_elem_of_split in Hp as (k & k' & ->). rewrite insert_after in * by done.
    rewrite <- app_assoc in *. eapply wp_insertAfter; try done. apply He. by right; left.
Qed.

(** A new node. *)
Lemma rep_new Q s e : unlisted Q e -> rep Q s -> rep Q (mkStore (<[e := InListNode_new]> (nodes s)) (lists s)).
Proof.
  intros Hu [[Hd Hn Hf] Hl]. split; [|done]. split; cbn [nodes]; [done|..].
  - intros l k x k' Hq. rewrite lookup_insert_ne; [by apply Hn|]. intros ->. apply (Hu _ _ Hq). set_solver.
  - intros x n. rewrite lookup_insert_Some. intros [[_ <-]|[_ Hx]]; [done|by apply Hf].
Qed.

(** *** No operation loses a node *)

Definition keeps {A} (m : ST Store A) : Prop :=
  forall s a s', m s = Ok (a, s') -> forall e, is_Some (nodes s !! e) -> is_Some (nodes s' !! e).

Lemma keeps_bind {A B} (m : ST Store A) (f : A -> ST Store B) : keeps m -> (forall a, keeps (f a)) -> keeps (mbind f m).
Proof.
  intros Hm Hf s b s' E e He. unfold mbind, ST_bind in E. destruct (m s) as [[a s1]|] eqn:E1; [|done].
  by eapply Hf, Hm.
Qed.

Lemma keeps_ret {A} (a : A) : keeps (mret a).
Proof. intros s b s' [= <- <-]. done. Qed.

Lemma keeps_get : keeps get.
Proof. intros s b s' [= <- <-]. done. Qed.

Lemma keeps_lift {A} (o : outcome A) : keeps (lift o).
Proof. intros s b s' E. unfold lift in E. destruct o; simplify_eq. done. Qed.

Lemma keeps_throw {A} f : keeps (throw (A := A) f).
Proof. done. Qed.

Lemma keeps_setNode e f : keeps (setNode e f).
Proof.
  apply keeps_bind; [apply keeps_bind; [apply keeps_get|intros s; apply keeps_lift]|]. intros n s b s' [= <- <-] x Hx. cbn.
  destruct (decide (x = e)) as [->|]; [by rewrite lookup_insert_eq|by rewrite lookup_insert_ne].
Qed.

Lemma keeps_setList l f : keeps (setList l f).
Proof.
  apply keeps_bind; [apply keeps_bind; [apply keeps_get|intros s; apply keeps_lift]|]. intros n s b s' [= <- <-] x Hx. done.
Qed.

Lemma keeps_run o : keeps (run o).
Proof.
  destruct o; cbn [run];
    unfold push_front, push_back, pop_front, pop_back, remove, insertAfter, linkPrev, unlink, fresh_node, empty, at_node, getNode, getList, whenS, assertS;
    repeat lazymatch goal with
      | |- keeps _ => first [ apply keeps_setNode | apply keeps_setList | apply keeps_ret | apply keeps_get | apply keeps_lift
                            | apply keeps_throw | apply keeps_bind | case_match ]
      | _ => intros ?
      end.
Qed.

(** *** Refused operations *)

Lemma bind_ok {A B} (m : ST Store A) (f : A -> ST Store B) s a s' : m s = Ok (a, s') -> mbind f m s = f a s'.
Proof. unfold mbind, ST_bind. by intros ->. Qed.

Lemma bind_fault {A B} (m : ST Store A) (f : A -> ST Store B) s e : m s = Fault e -> mbind f m s = Fault e.
Proof. unfold mbind, ST_bind. by intros ->. Qed.

Lemma getNode_ok e s n : nodes s !! e = Some n -> getNode e s = Ok (n, s).
Proof. intros He. unfold getNode, mbind, ST_bind, get, lift. by rewrite He. Qed.

Lemma getList_ok l s x : lists s !! l = Some x -> getList l s = Ok (x, s).
Proof. intros He. unfold getList, mbind, ST_bind, get, lift. by rewrite He. Qed.

Lemma setNode_ok e f s n : nodes s !! e = Some n -> setNode e f s = Ok (tt, mkStore (<[e := f n]> (nodes s)) (lists s)).
Proof. intros He. unfold setNode. by rewrite (bind_ok _ _ _ _ _ (getNode_ok _ _ _ He)). Qed.

Lemma assert_fault b (s : Store) : b = false -> assertS b s = Fault AssertFailed.
Proof. by intros ->. Qed.

(** The node of a store and the neighbours it names. *)
Lemma node_cases Q s x n : rep Q s -> nodes s !! x = Some n ->
  (unlisted Q x /\ n = InListNode_new) \/
  exists l k k', Q !! l = Some (k ++ x :: k') /\ n = mkNode (hd_error k') (last k) (Some l).
Proof.
  intros Hr Hx. destruct (decide (map_Exists (fun _ xs => x ∈ xs) Q)) as [(l & xs & Hl & Hin)|Hno].
  - right. apply list_elem_of_split in Hin as (k & k' & ->). exists l, k, k'. split; [done|].
    pose proof (no_node _ _ (rep_nodes _ _ Hr) _ _ _ _ Hl). congruence.
  - left. assert (unlisted Q x) as Hu by (intros l xs Hl Hin; apply Hno; by exists l, xs). split; [done|].
    by apply (no_free _ _ (rep_nodes _ _ Hr) x).
Qed.

(** [unlink] of a node that is in no list or in another one. *)
Lemma unlink_fault Q s ls e l n : rep Q s -> nodes s !! e = Some n -> owner n <> Some l ->
  unlink e l (mkStore (nodes s) ls) = Fault AssertFailed.
Proof.
  intros Hr He Ho. assert (forall q f ls' m, is_Some (m !! q) -> at_node (Some q) f (mkStore m ls') = Ok (tt, mkStore (alter f q m) ls')) as Hat.
  { intros q f ls' m [nq Hq]. cbn. rewrite (setNode_ok q f (mkStore m ls') nq Hq). cbn. by rewrite (alter_some _ _ _ _ Hq). }
  assert (exists m1, m1 !! e = Some n /\ unlink e l (mkStore (nodes s) ls) =
    (_ ← setNode e (set_next None); _ ← setNode e (set_prev None); n ← getNode e; _ ← assertS (bool_decide (owner n = Some l)); setNode e (set_owner None)) (mkStore m1 ls)) as (m1 & Hm1 & ->).
  { unfold unlink. rewrite (bind_ok _ _ _ _ _ (getNode_ok e (mkStore (nodes s) ls) n He)).
    destruct (node_cases _ _ _ _ Hr He) as [[_ ->]|(l' & k & k' & Hl' & ->)]; cbn [next prev].
    - exists (nodes s). split; [done|]. rewrite (bind_ok (at_node None _) _ (mkStore (nodes s) ls) tt (mkStore (nodes s) ls)) by done.
      rewrite (bind_ok _ _ _ _ _ (getNode_ok e (mkStore (nodes s) ls) _ He)).
      by rewrite (bind_ok (at_node None _) _ (mkStore (nodes s) ls) tt (mkStore (nodes s) ls)).
    - pose proof (no_nodup _ _ (rep_nodes _ _ Hr) _ _ Hl') as Hnd. apply NoDup_app in Hnd as (_ & Hdisj & Hnd). apply NoDup_cons in Hnd as [Hek' _].
      assert (e ∉ k) as Hek by (intros Hx; apply (Hdisj e Hx); by left).
      assert (forall x, x ∈ k ++ e :: k' -> is_Some (nodes s !! x)) as Hin by (intros x; by apply (member_node Q s l' (rep_nodes _ _ Hr))).
      set (m0 := alter_at (hd_error k') (set_prev (last k)) (nodes s)).
      assert (m0 !! e = nodes s !! e) as Hm0 by (apply alter_at_ne; intros E; by apply hd_elem in E).
      assert (at_node (hd_error k') (set_prev (last k)) (mkStore (nodes s) ls) = Ok (tt, mkStore m0 ls)) as E1.
      { unfold m0. destruct k' as [|y k']; [done|]. apply Hat, Hin. set_solver. }
      rewrite (bind_ok _ _ _ _ _ E1). rewrite (bind_ok _ _ _ _ _ (getNode_ok e (mkStore m0 ls) _ (eq_trans Hm0 He))). cbn [prev next].
      set (m1 := alter_at (last k) (set_next (hd_error k')) m0).
      assert (at_node (last k) (set_next (hd_error k')) (mkStore m0 ls) = Ok (tt, mkStore m1 ls)) as E2.
      { unfold m1. destruct (last k) as [z|] eqn:Ez; [|done]. apply Hat. unfold m0. apply alter_at_is_some, Hin. apply last_elem in Ez. set_solver. }
      rewrite (bind_ok _ _ _ _ _ E2). exists m1. split; [|done]. unfold m1. rewrite alter_at_ne by (intros E; by apply last_elem in E). by rewrite Hm0. }
  rewrite (bind_ok _ _ _ _ _ (setNode_ok e _ (mkStore m1 ls) _ Hm1)). cbn [nodes lists].
  rewrite (bind_ok _ _ _ _ _ (setNode_ok e _ (mkStore (<[e := _]> m1) ls) _ (lookup_insert_eq _ _ _))). cbn [nodes lists].
  rewrite (bind_ok _ _ _ _ _ (getNode_ok e (mkStore (<[e := _]> (<[e := _]> m1)) ls) _ (lookup_insert_eq _ _ _))).
  rewrite (bind_fault (assertS _) _ _ AssertFailed); [done|]. apply assert_fault, bool_decide_false. done.
Qed.

Lemma owner_of Q s x n l xs : rep Q s -> nodes s !! x = Some n -> Q !! l = Some xs -> owner n = Some l <-> x ∈ xs.
Proof.
  intros Hr Hx Hl. split.
  - intros Ho. destruct (node_cases _ _ _ _ Hr Hx) as [[_ ->]|(l' & k & k' & Hl' & ->)]; [done|]. injection Ho as ->.
    rewrite Hl in Hl'. injection Hl' as ->. set_solver.
  - intros Hin. destruct (no_owner _ _ _ _ _ (rep_nodes _ _ Hr) Hl Hin) as (n' & Hn' & ?). congruence.
Qed.

Lemma owned_not_fresh Q s x n : rep Q s -> nodes s !! x = Some n -> ~ unlisted Q x -> owner n <> None.
Proof. intros Hr Hx Hu. destruct (node_cases _ _ _ _ Hr Hx) as [[? _]|(l' & k & k' & Hl' & ->)]; done. Qed.

Lemma run_fault Q s o xs : rep Q s -> Q !! op_list o = Some xs -> ~ op_ok Q o xs ->
  (forall e, e ∈ op_nodes o -> is_Some (nodes s !! e)) -> run o s = Fault AssertFailed.
Proof.
  intros Hr Hl Hno He. assert (lists s !! op_list o = Some (list_of xs)) as Hls by by rewrite (rep_lists _ _ Hr), Hl.
  assert (forall e, is_Some (nodes s !! e) -> ~ unlisted Q e -> fresh_node e s = Fault AssertFailed) as Hfr.
  { intros e [n Hn] Hu. unfold fresh_node. rewrite (bind_ok _ _ _ _ _ (getNode_ok e s n Hn)). apply assert_fault, bool_decide_false.
    intros (_ & _ & E). by eapply owned_not_fresh. }
  destruct o as [l e|l e|l|l|l e|l p e]; cbn [op_list op_ok op_nodes run] in *; [| |done|done| |].
  1,2: unfold push_front, push_back; rewrite (bind_fault (fresh_node e) _ _ AssertFailed); [done|]; apply Hfr; [apply He; by left|done].
  - destruct (He e) as [n Hn]; [by left|]. assert (owner n <> Some l) as Ho by (rewrite (owner_of _ _ _ _ _ _ Hr Hn Hl); done).
    unfold remove. rewrite (bind_ok _ _ _ _ _ (getList_ok l s _ Hls)), (bind_ok _ _ _ _ _ (getNode_ok e s n Hn)). cbn [list_of head tail].
    rewrite !bool_decide_false by (intros E; apply Hno; first [by apply hd_elem|by apply last_elem]).
    rewrite (bind_ok _ _ s tt s) by done. rewrite (bind_ok _ _ s tt s) by done.
    pose proof (unlink_fault Q s (lists s) e l n Hr Hn Ho) as Hu. destruct s. by rewrite (bind_fault _ _ _ _ Hu).
  - destruct (He e) as [n Hn]; [by right; left|]. destruct (He p) as [np Hnp]; [by left|].
    unfold insertAfter. rewrite (bind_ok _ _ _ _ _ (getNode_ok e s n Hn)).
    destruct (decide (owner n = None)) as [Ho|Ho]; [|rewrite (bind_fault (assertS _) _ _ AssertFailed); [done|by apply assert_fault, bool_decide_false]].
    rewrite (bind_ok (assertS _) _ s tt s) by by rewrite bool_decide_true.
    rewrite (bind_ok _ _ _ _ _ (getNode_ok p s np Hnp)). rewrite (bind_fault (assertS _) _ _ AssertFailed); [done|]. apply assert_fault, bool_decide_false.
    intros E. apply Hno. split; [|by apply (owner_of _ _ _ _ _ _ Hr Hnp Hl)].
    destruct (node_cases _ _ _ _ Hr Hn) as [[? _]|(l' & k & k' & _ & ->)]; done.
Qed.

(** C20: The list operations implement sequences: a store that represents the
    sequences of its lists, after an operation the protocol allows (a free node
    inserted, a member removed or inserted after), represents the sequences
    with that one changed accordingly; a node of another list, a node already
    member_node or a predecessor that is not a member fails an assertion. *)
Theorem intrusive_list_refines Q s o xs :
  rep Q s -> Q !! op_list o = Some xs -> (forall e, e ∈ op_nodes o -> is_Some (nodes s !! e)) ->
  Z.of_nat (length (op_seq o xs)) < max64 ->
  (op_ok Q o xs -> exists s', run o s = Ok (tt, s') /\ rep (<[op_list o := op_seq o xs]> Q) s') /\
  (~ op_ok Q o xs -> run o s = Fault AssertFailed).
Proof.
  intros Hr Hl He Hn. split; [|intros Hno; by eapply run_fault]. intros Hok.
  pose proof (op_run_ok Q s o xs Hr Hl Hok He Hn) as Hw. apply wp_ok in Hw as ([] & s' & E & Hr'). by exists s'.
Qed.

(** ** Witness: two lists, three nodes *)

Definition demo : Store :=
  mkStore (<[0%nat := mkNode (Some 1%nat) None (Some 7%nat)]> (<[1%nat := mkNode None (Some 0%nat) (Some 7%nat)]> {[ 2%nat := InListNode_new ]}))
    (<[7%nat := mkList (Some 0%nat) (Some 1%nat) 2]> {[ 8%nat := InList_new ]}).

Definition demo_seqs : seqs := <[7%nat := [0; 1]%nat]> {[ 8%nat := [] ]}.

Lemma demo_rep : rep demo_seqs demo.
Proof.
  assert (forall l xs, demo_seqs !! l = Some xs -> (l = 7 /\ xs = [0; 1])%nat \/ (l = 8%nat /\ xs = [])) as Hd.
  { intros l xs. unfold demo_seqs. rewrite lookup_insert_Some, lookup_singleton_Some. intuition. }
  split; [split|].
  - intros l xs Hl. destruct (Hd _ _ Hl) as [[_ ->]|[_ ->]]; [|constructor]. apply (bool_decide_unpack (NoDup [0; 1]%nat)). by vm_compute.
  - intros l k x k' Hl. destruct (Hd _ _ Hl) as [[-> E]|[_ E]]; [|by destruct k].
    destruct k as [|a [|b [|c k]]]; cbn in E; simplify_eq/=; done.
  - intros x n Hx Hu. unfold demo in Hx. cbn [nodes] in Hx. rewrite !lookup_insert_Some, lookup_singleton_Some in Hx.
    destruct Hx as [[<- _]|[_ [[<- _]|[_ [_ <-]]]]]; [..|done]; exfalso; eapply (Hu 7%nat); try reflexivity; set_solver.
  - intros l. unfold demo, demo_seqs. cbn [lists]. destruct (decide (l = 7%nat)) as [->|H7]; [done|].
    rewrite !(lookup_insert_ne _ 7%nat) by done. destruct (decide (l = 8%nat)) as [->|H8]; [done|]. by rewrite !lookup_singleton_ne.
Qed.

Lemma intrusive_list_refines_witness :
  (op_ok demo_seqs (InsertAfter 7 0 2) [0; 1]%nat -> exists s', run (InsertAfter 7 0 2) demo = Ok (tt, s') /\
     rep (<[op_list (InsertAfter 7 0 2) := op_seq (InsertAfter 7 0 2) [0; 1]%nat]> demo_seqs) s') /\
  (~ op_ok demo_seqs (InsertAfter 7 0 2) [0; 1]%nat -> run (InsertAfter 7 0 2) demo = Fault AssertFailed).
Proof.
  apply (intrusive_list_refines demo_seqs demo (InsertAfter 7 0 2) [0; 1]%nat).
  - exact demo_rep.
  - reflexivity.
  - intros e He. apply elem_of_cons in He as [->|He]; [by eexists|]. apply elem_of_cons in He as [->|He]; [by eexists|]. by apply elem_of_nil in He.
  - rewrite max64_eq. by vm_compute.
Defined.

End IntrusiveListSpec.
