(* ===== verification/SimpleCore.v ===== *)
(** * Simple cores on the hierarchy (src/src/simple_core.h, simple_core.cpp; core.h, null_core.cpp)

    A core charges a cycle an instruction and what its filter caches answer for
    its fetches, loads and stores; when its clock passes the end of the phase its
    thread waits at the barrier.  [Mach] is the cores, the phase clock and the
    hierarchy they share.  A basic block's callback ([BblFunc]) is split where
    [TakeBarrier] blocks: [phase_check] is the test of its loop, and [Release] the
    end of the phase, after which each waiting thread tests again, or, if it was
    switched out meanwhile, returns. *)

From S2P Require Import Prelude TimingEvent MemHier MTRand ReplPolicies CacheArrays World Coherence Cache Translation Memory TwoLevel TwoLevelRun HierarchyProps.
Local Open Scope Z_scope.

(** [BblInfo] of core.h, without the decoded block: two 32-bit counts. *)
Record BblInfo := mkBbl { b_instrs : Z; b_bytes : Z }.

(** ** Null cores: IPC 1, no memory *)

Module NullCore.

Record t := mk { instrs : Z; curCycle : Z; phaseEndCycle : Z }.

Definition make : t := mk 0 0 0.
Definition getPhaseCycles (k : t) (globPhaseCycles : Z) : Z := curCycle k -64 globPhaseCycles.
Definition getCycles (k : t) : Z := instrs k.
Definition bbl (k : t) (b : BblInfo) : t := mk (instrs k +64 b_instrs b) (curCycle k +64 b_instrs b) (phaseEndCycle k).
Definition join (k : t) (globPhaseCycles phaseLength : Z) : t :=
  mk (instrs k) (Z.max (curCycle k) globPhaseCycles) (globPhaseCycles +64 phaseLength).

End NullCore.

(** ** Simple cores *)

Module SimpleCore.

(** [l1i], [l1d]: the filter caches, by their place among the caches. *)
Record t := mk { l1i : nat; l1d : nat; instrs : Z; curCycle : Z; phaseEndCycle : Z; haltedCycles : Z }.

(** The constructor leaves [phaseEndCycle] to the first [join]. *)
Definition make (i d : nat) (raw : Z) : t := mk i d 0 0 raw 0.

Definition set_clock (k : t) (n c : Z) : t := mk (l1i k) (l1d k) n c (phaseEndCycle k) (haltedCycles k).
Definition set_phaseEnd (k : t) (c : Z) : t := mk (l1i k) (l1d k) (instrs k) (curCycle k) c (haltedCycles k).

Definition getPhaseCycles (k : t) (phaseLength : Z) : Z := curCycle k mod phaseLength.
Definition getCycles (k : t) : Z := curCycle k -64 haltedCycles k.

(** The [cycles] statistic. *)
Definition cycles_stat (k : t) : outcome Z := _ ← check (haltedCycles k <=? curCycle k); mret (curCycle k -64 haltedCycles k).

Definition joined (k : t) (globPhaseCycles phaseLength : Z) : t :=
  let k := if curCycle k <? globPhaseCycles
    then mk (l1i k) (l1d k) (instrs k) globPhaseCycles (phaseEndCycle k) (haltedCycles k +64 (globPhaseCycles -64 curCycle k))
    else k in
  set_phaseEnd k (globPhaseCycles +64 phaseLength).

(** What the thread on a core is doing: none, running, at the barrier. *)
Inductive Status := Out | Run | Wait.
#[export] Instance Status_eq_dec : EqDecision Status.
Proof. solve_decision. Defined.

Record Mach (W : Type) := mkMach { cores : list t; status : list Status; globPhaseCycles : Z; world : W }.
Arguments mkMach {W}. Arguments cores {W}. Arguments status {W}. Arguments globPhaseCycles {W}. Arguments world {W}.

Section ops.
Context {A M : Type} `{CacheArray A} `{RefreshArray A} `{MemCtrl M}.
Variables (sys : Sys) (fuel : nat) (lineBits phaseLength : Z).
Notation S := (Mach (World A M)).

Definition set_cores (s : S) (l : list t) : S := mkMach l (status s) (globPhaseCycles s) (world s).
Definition set_status (s : S) (l : list Status) : S := mkMach (cores s) l (globPhaseCycles s) (world s).
Definition set_world (s : S) (w : World A M) : S := mkMach (cores s) (status s) (globPhaseCycles s) w.
Definition set_glob (s : S) (g : Z) : S := mkMach (cores s) (status s) g (world s).

Definition on_world {X} (m : ST (World A M) X) : ST S X := fun s =>
  match m (world s) with Ok (x, w) => Ok (x, set_world s w) | Fault e => Fault e end.

Definition core_get (c : nat) : ST S t := s ← get; lift (rd (cores s) c).
Definition core_put (c : nat) (k : t) : ST S unit := s ← get; l ← lift (wr (cores s) c k); put (set_cores s l).
Definition status_put (c : nat) (x : Status) : ST S unit := s ← get; l ← lift (wr (status s) c x); put (set_status s l).

(** An access of one of the core's caches, at the core's clock. *)
Definition access (c cache : nat) (isLoad : bool) (addr : Z) : ST S unit :=
  k ← core_get c;
  r ← on_world (load_store sys fuel cache isLoad addr (curCycle k));
  core_put c (set_clock k (instrs k) r).

Definition load (c : nat) (addr : Z) : ST S unit := k ← core_get c; access c (l1d k) true addr.
Definition store (c : nat) (addr : Z) : ST S unit := k ← core_get c; access c (l1d k) false addr.

(** The predicated forms: [PredLoadFunc], [PredStoreFunc]. *)
Definition pred_load (c : nat) (addr : Z) (pred : bool) : ST S unit := whenS pred (load c addr).
Definition pred_store (c : nat) (addr : Z) (pred : bool) : ST S unit := whenS pred (store c addr).

(** The fetches of a block; [n] bounds their number. *)
Fixpoint fetch (n : nat) (c : nat) (fetchAddr endBblAddr : Z) : ST S unit :=
  if fetchAddr <? endBblAddr then
    match n with
    | O => throw OutOfFuel
    | Datatypes.S n' =>
        k ← core_get c;
        _ ← access c (l1i k) true fetchAddr;
        fetch n' c (fetchAddr +64 2 ^ lineBits) endBblAddr
    end
  else mret tt.

Definition bbl (c : nat) (bblAddr : Z) (b : BblInfo) : ST S unit :=
  k ← core_get c;
  _ ← core_put c (set_clock k (instrs k +64 b_instrs b) (curCycle k +64 b_instrs b));
  fetch (Datatypes.S (Z.to_nat (b_bytes b / 2 ^ lineBits))) c bblAddr (bblAddr +64 b_bytes b).

Definition contextSwitch (c : nat) (gid : Z) : ST S unit :=
  k ← core_get c;
  whenS (gid =? -1) (
    _ ← on_world (Cache.contextSwitch (l1i k));
    on_world (Cache.contextSwitch (l1d k))).

Definition join (c : nat) : ST S unit :=
  s ← get; k ← core_get c; core_put c (joined k (globPhaseCycles s) phaseLength).

(** The test of [BblFunc]'s loop: past the end of the phase, the thread goes to
    [TakeBarrier]. *)
Definition phase_check (c : nat) : ST S unit :=
  s ← get;
  k ← core_get c;
  if phaseEndCycle k <? curCycle k then
    _ ← assertS (phaseEndCycle k =? globPhaseCycles s +64 phaseLength);
    _ ← core_put c (set_phaseEnd k (phaseEndCycle k +64 phaseLength));
    status_put c Wait
  else status_put c Run.

Definition BblFunc (c : nat) (bblAddr : Z) (b : BblInfo) : ST S unit := _ ← bbl c bblAddr b; phase_check c.

(** *** The cores together *)

Inductive Op :=
  | Join (c : nat)
  | Leave (c : nat)
  | Load (c : nat) (addr : Z) (pred : bool)
  | Store (c : nat) (addr : Z) (pred : bool)
  | Bbl (c : nat) (addr : Z) (b : BblInfo)
  | Switch (c : nat) (gid : Z)
  | Release (switched : list nat).

(** The end of a phase; the threads of [switched] find another core. *)
Definition release (switched : list nat) : ST S unit :=
  s ← get;
  _ ← put (set_glob s (globPhaseCycles s +64 phaseLength));
  for_each (fun c =>
    s ← get;
    x ← lift (rd (status s) c);
    if decide (x = Wait) then (if decide (c ∈ switched) then status_put c Run else phase_check c) else mret tt)
    (seq 0 (length (cores s))).

Definition exec (o : Op) : ST S unit :=
  match o with
  | Join c => _ ← join c; status_put c Run
  | Leave c => status_put c Out
  | Load c addr p => pred_load c addr p
  | Store c addr p => pred_store c addr p
  | Bbl c addr b => BblFunc c addr b
  | Switch c gid => contextSwitch c gid
  | Release l => release l
  end.

End ops.
End SimpleCore.

(** ** The cores never fail *)

Module SimpleCoreSpec.
Import SimpleCore.

Section spec.
Context {A M : Type} {CA : CacheArray A} {CL : CacheArrayLaws A} {RA : RefreshArray A} {MC : MemCtrl M} {ML : MemCtrlLaws M}.
Context {sys : Sys} {N K : nat} {leaf : nat -> CacheConf} {root : CacheConf} {TL : two_level sys N K leaf root}.
Context (maps : nat -> list ProcMapInfo) (mapped : maps_ok (sys := sys) (N := N) (leaf := leaf) maps).
Context (g : nat) (lineBits phaseLength : Z) (Hline : 6 <= lineBits <= 12) (Hlen : 0 < phaseLength < 2 ^ 60).
Notation W := (World A M).
Notation S := (Mach W).
Notation fuel := (Datatypes.S (Datatypes.S (Datatypes.S g))).

(** Between calls the hierarchy is coherent and its locks are free. *)
Record hier_ok (w : W) : Prop := {
  ho_quiet : quiet (N := N) (K := K) (leaf := leaf) w;
  ho_locks : locks w = ∅;
  ho_recs : recorders_ok (N := N) (leaf := leaf) w }.

(** An address that a cache of the first level takes. *)
Definition addr_ok (cache : nat) (vAddr : Z) : Prop :=
  exists fc, fconf (leaf cache) = Some fc /\ word 64 (Z.shiftr vAddr (World.lineBits fc)) /\ word 64 (procMask fc) /\
    Z.lor (procMask fc) (Z.shiftr vAddr (World.lineBits fc)) <> 0 /\ Z.land (reqFlags fc) PREFETCH = 0.

Record core_ok (glob : Z) (k : t) (x : Status) : Prop := {
  co_l1i : (l1i k < N)%nat;
  co_l1d : (l1d k < N)%nat;
  co_instrs : 0 <= instrs k <= curCycle k - haltedCycles k;
  co_halted : 0 <= haltedCycles k;
  co_clock : curCycle k < 2 ^ 62;
  co_run : x = Run -> phaseEndCycle k = glob + phaseLength;
  co_wait : x = Wait -> phaseEndCycle k = glob + 2 * phaseLength }.

(** Within [release], the cores of [late] are still to test for the new phase:
    those that wait have the deadline of a running core. *)
Definition deadline (late : list nat) (c : nat) (x : Status) : Status :=
  if decide (c ∈ late) then (if decide (x = Wait) then Run else x) else x.

Record inv_late (late : list nat) (s : S) : Prop := {
  inv_hier : hier_ok (world s);
  inv_len : length (status s) = length (cores s);
  inv_glob : 0 <= globPhaseCycles s < 2 ^ 61;
  inv_cores : forall c k x, cores s !! c = Some k -> status s !! c = Some x -> core_ok (globPhaseCycles s) k (deadline late c x) }.
Notation inv := (inv_late []).

Lemma deadline_nil c x : deadline [] c x = x.
Proof. unfold deadline. by rewrite decide_False by (apply not_elem_of_nil). Qed.

(** What a thread does: it loads, stores and runs blocks while it runs, with
    clocks and addresses short of the end of their words. *)
Definition legal (s : S) (o : Op) : Prop :=
  match o with
  | Join c => status s !! c = Some Out /\ globPhaseCycles s + phaseLength < 2 ^ 61
  | Leave c => status s !! c = Some Run
  | Load c addr _ | Store c addr _ => exists k, cores s !! c = Some k /\ status s !! c = Some Run /\ curCycle k < 2 ^ 61 /\ addr_ok (l1d k) addr
  | Bbl c addr b => exists k, cores s !! c = Some k /\ status s !! c = Some Run /\ curCycle k < 2 ^ 61 /\
      0 <= b_instrs b < max32 /\ 0 <= b_bytes b < max32 /\ 0 <= addr /\ addr + b_bytes b + 2 ^ lineBits < max64 /\
      forall a, addr <= a < addr + b_bytes b -> addr_ok (l1i k) a
  | Switch c _ => is_Some (cores s !! c)
  | Release _ => Run ∉ status s /\ globPhaseCycles s + phaseLength < 2 ^ 61
  end.

(** *** Rules for the parts of the state *)

Lemma wp_on_world {X} (m : ST W X) (s : S) (Q : X -> S -> Prop) :
  wp m (world s) (fun x w => Q x (set_world s w)) -> wp (on_world m) s Q.
Proof. unfold wp, on_world. by destruct (m (world s)) as [[x w]|]. Qed.

Lemma wp_core_get c (s : S) k (Q : t -> S -> Prop) : cores s !! c = Some k -> Q k s -> wp (core_get c) s Q.
Proof. intros Hk HQ. unfold core_get. apply wp_bind, wp_get. eapply wp_lift; [by apply rd_some|done]. Qed.

Lemma wp_core_put c (s : S) k k' (Q : unit -> S -> Prop) : cores s !! c = Some k -> Q tt (set_cores s (<[c := k']> (cores s))) -> wp (core_put c k') s Q.
Proof.
  intros Hk HQ. unfold core_put. apply wp_bind, wp_get, wp_bind. eapply wp_lift; [apply wr_lt; by eapply lookup_lt_Some|]. exact HQ.
Qed.

Lemma wp_status_put c (s : S) x x' (Q : unit -> S -> Prop) : status s !! c = Some x -> Q tt (set_status s (<[c := x']> (status s))) -> wp (status_put c x') s Q.
Proof.
  intros Hk HQ. unfold status_put. apply wp_bind, wp_get, wp_bind. eapply wp_lift; [apply wr_lt; by eapply lookup_lt_Some|]. exact HQ.
Qed.

(** A change of one core, and of its status. *)
Lemma inv_core late late' (s : S) c k x k' x' w : inv_late late s -> cores s !! c = Some k -> status s !! c = Some x -> hier_ok w ->
  (forall d, d <> c -> d ∈ late' <-> d ∈ late) -> core_ok (globPhaseCycles s) k' (deadline late' c x') ->
  inv_late late' (mkMach (<[c := k']> (cores s)) (<[c := x']> (status s)) (globPhaseCycles s) w).
Proof using.
  intros [Hh Hl Hg Hc] Hk Hx Hw Hlate Hk'. split; cbn; [done|by rewrite !length_insert|done|]. intros d j y Hj Hy.
  destruct (decide (c = d)) as [->|Hne].
  - rewrite list_lookup_insert_eq in Hj by (by eapply lookup_lt_Some). rewrite list_lookup_insert_eq in Hy by (by eapply lookup_lt_Some). by simplify_eq.
  - rewrite list_lookup_insert_ne in Hj by done. rewrite list_lookup_insert_ne in Hy by done. specialize (Hc d j y Hj Hy).
    assert (d ∈ late' <-> d ∈ late) as Hd by (apply Hlate; congruence). unfold deadline in *.
    destruct (decide (d ∈ late)) as [H1|H1], (decide (d ∈ late')) as [H2|H2]; [exact Hc|exfalso; by apply H2, Hd|exfalso; by apply H1, Hd|exact Hc].
Qed.

Lemma inv_core_now (s : S) c k x k' x' w : inv s -> cores s !! c = Some k -> status s !! c = Some x -> hier_ok w ->
  core_ok (globPhaseCycles s) k' x' -> inv (mkMach (<[c := k']> (cores s)) (<[c := x']> (status s)) (globPhaseCycles s) w).
Proof using. intros. by eapply inv_core. Qed.

Lemma core_at (s : S) c k x : inv s -> cores s !! c = Some k -> status s !! c = Some x -> core_ok (globPhaseCycles s) k x.
Proof using. intros I Hk Hx. rewrite <- (deadline_nil c x). by apply (inv_cores _ _ I). Qed.

Lemma status_at late (s : S) c : inv_late late s -> is_Some (cores s !! c) <-> is_Some (status s !! c).
Proof using. intros I. by rewrite !lookup_lt_is_Some, (inv_len _ _ I). Qed.

(** The machine with its parts put back as they were. *)
Lemma same_core (s : S) c k : cores s !! c = Some k -> set_cores s (<[c := k]> (cores s)) = s.
Proof. intros Hk. destruct s. cbn in *. unfold set_cores. cbn. by rewrite list_insert_id. Qed.

(** *** Accesses *)

Lemma wp_cache_access (w : W) cache isLoad addr cyc : hier_ok w -> (cache < N)%nat -> addr_ok cache addr -> 0 <= cyc < 2 ^ 62 ->
  wp (load_store sys fuel cache isLoad addr cyc) w (fun r w' => cyc <= r <= cyc + 2 * u32lat /\ hier_ok w').
Proof using mapped TL CL ML.
  intros [Hq Hl Hr] Hc (fc & Hfc & H1 & H2 & H3 & H4) Hcyc. eapply wp_mono.
  - apply (wp_load_store maps mapped g cache fc isLoad addr cyc); try done. split; try done; [lia|unfold big; rewrite max64_eq; lia].
  - intros r w' (Hr0 & Q & Hl' & Hr' & _). by split.
Qed.

(** What an access does to the machine: the core's clock moves, nothing else. *)
Definition moved (s : S) (c : nat) (k : t) (bound : Z) (s' : S) : Prop :=
  exists r w, s' = set_cores (set_world s w) (<[c := set_clock k (instrs k) r]> (cores s)) /\ hier_ok w /\ curCycle k <= r <= curCycle k + bound.

Lemma wp_access (s : S) c k cache isLoad addr : hier_ok (world s) -> cores s !! c = Some k -> (cache < N)%nat -> addr_ok cache addr ->
  0 <= curCycle k < 2 ^ 62 -> wp (access sys fuel c cache isLoad addr) s (fun _ => moved s c k (2 * u32lat)).
Proof using mapped TL CL ML.
  intros Hw Hk Hc Ha Hcyc. unfold access. apply wp_bind. eapply wp_core_get; [exact Hk|]. apply wp_bind, wp_on_world.
  eapply wp_mono; [by apply wp_cache_access|]. intros r w' [Hr Hw']. eapply wp_core_put; [exact Hk|]. by exists r, w'.
Qed.

(** Its end in a machine of the invariant. *)
Lemma moved_inv (s s' : S) c k x bound : inv s -> cores s !! c = Some k -> status s !! c = Some x -> curCycle k + bound < 2 ^ 62 ->
  moved s c k bound s' -> inv s'.
Proof using.
  intros I Hk Hx Hb (r & w & -> & Hw & Hr). destruct (core_at s c k x I Hk Hx) as [H1 H2 H3 H4 H5 H6 H7].
  destruct s as [cs st gl w0]. cbn [set_cores set_world cores status globPhaseCycles world] in *.
  rewrite <- (list_insert_id st c x Hx). eapply (inv_core_now (mkMach cs st gl w0)); [exact I|done|done|done|]. split; cbn; try done; lia.
Qed.

Lemma wp_fetch bound endA : forall n (s : S) c k addr, hier_ok (world s) -> cores s !! c = Some k -> (l1i k < N)%nat ->
  0 <= curCycle k -> curCycle k + Z.of_nat n * (2 * u32lat) <= bound -> bound < 2 ^ 62 -> 0 <= addr ->
  endA <= addr + Z.of_nat n * 2 ^ lineBits -> endA + 2 ^ lineBits < max64 -> (forall a, addr <= a < endA -> addr_ok (l1i k) a) ->
  wp (fetch sys fuel lineBits n c addr endA) s (fun _ => moved s c k (Z.of_nat n * (2 * u32lat))).
Proof using mapped TL CL ML Hline.
  pose proof (Z.pow_le_mono_r 2 6 lineBits ltac:(lia) ltac:(lia)) as H6. change (2 ^ 6) with 64 in H6.
  induction n as [|n IH]; intros s c k addr Hw Hk Hl H0 Hb Hb2 Ha He Hm Hok; cbn [fetch]; destruct (Z.ltb_spec addr endA) as [Hlt|Hge].
  1: lia.
  1,3: apply wp_ret; exists (curCycle k), (world s); split; [|split; [done|unfold u32lat; lia]];
    destruct s as [cs st gl w0]; cbn in *; rewrite (list_insert_id cs c); [done|by destruct k].
  assert (forall i, 0 <= i -> 0 <= i * (2 * u32lat)) as Hpos by (unfold u32lat; lia). pose proof (Hpos (Z.of_nat n)).
  apply wp_bind. eapply wp_core_get; [exact Hk|]. apply wp_bind. eapply wp_mono; [apply (wp_access s c k); try done; [apply Hok; lia|unfold u32lat in *; lia]|].
  intros _ s1 (r & w1 & -> & Hw1 & Hr). assert (c < length (cores s))%nat as Hc by (by eapply lookup_lt_Some).
  rewrite u64_small by lia. eapply wp_mono.
  - apply (IH _ c (set_clock k (instrs k) r) (addr + 2 ^ lineBits)); cbn; try done; try lia.
    + by apply list_lookup_insert_eq.
    + intros a Ha'. apply Hok. lia.
  - intros _ s2 (r2 & w2 & -> & Hw2 & Hr2). exists r2, w2. cbn in Hr2. split; [|split; [done|lia]].
    unfold set_cores, set_world. cbn. by rewrite list_insert_insert_eq.
Qed.

(** *** The operations *)

Lemma wp_core_put_inv late (s : S) c k x k' : inv_late late s -> cores s !! c = Some k -> status s !! c = Some x ->
  core_ok (globPhaseCycles s) k' (deadline late c x) -> wp (core_put c k') s (fun _ s' => inv_late late s' /\
    s' = set_cores s (<[c := k']> (cores s))).
Proof using.
  intros I Hk Hx Hk'. eapply wp_core_put; [exact Hk|]. split; [|done]. destruct s as [cs st gl w0]. cbn in *.
  unfold set_cores. cbn. rewrite <- (list_insert_id st c x Hx). eapply (inv_core late late (mkMach cs st gl w0)); try done. apply I.
Qed.

(** The core tests for the end of the phase; it leaves [late]. *)
Lemma wp_phase_check late late' (s : S) c k x : inv_late late s -> cores s !! c = Some k -> status s !! c = Some x ->
  c ∉ late' -> (forall d, d <> c -> d ∈ late' <-> d ∈ late) -> core_ok (globPhaseCycles s) k Run -> globPhaseCycles s + phaseLength < 2 ^ 62 ->
  wp (phase_check phaseLength c) s (fun _ s' => inv_late late' s' /\ globPhaseCycles s' = globPhaseCycles s /\ length (cores s') = length (cores s) /\
    forall d, d <> c -> status s' !! d = status s !! d).
Proof using Hlen.
  intros I Hk Hx Hc Hlate Hok Hg. pose proof (inv_glob _ _ I) as Hg0. assert (c < length (status s))%nat as Hlt by (by eapply lookup_lt_Some).
  unfold phase_check. apply wp_bind, wp_get, wp_bind. eapply wp_core_get; [exact Hk|]. pose proof Hok as [H1 H2 H3 H4 H5 H6 _]. specialize (H6 eq_refl).
  assert (globPhaseCycles s +64 phaseLength = globPhaseCycles s + phaseLength) as Eg by (apply u64_small; rewrite max64_eq; lia).
  assert (deadline late' c Wait = Wait /\ deadline late' c Run = Run) as [Ew Er] by (unfold deadline; by rewrite !decide_False).
  destruct (Z.ltb_spec (phaseEndCycle k) (curCycle k)).
  - apply wp_bind, wp_assert; [rewrite Eg; by apply Z.eqb_eq|]. apply wp_bind. eapply wp_core_put; [exact Hk|].
    eapply wp_status_put; [exact Hx|]. cbn. split_and!; [|done|by rewrite length_insert|intros d Hd; by apply list_lookup_insert_ne].
    eapply (inv_core late late' s c k x); try done; [apply I|]. rewrite Ew. split; cbn; try done. intros _. rewrite u64_small by (rewrite max64_eq; lia). lia.
  - eapply wp_status_put; [exact Hx|]. split_and!; [|done|done|intros d Hd; by apply list_lookup_insert_ne].
    destruct s as [cs st gl w0]. unfold set_status. cbn in *. rewrite <- (list_insert_id cs c k Hk).
    eapply (inv_core late late' (mkMach cs st gl w0)); try done; [apply I|]. by rewrite Er.
Qed.

Lemma wp_core_join (s : S) c : inv s -> legal s (Join c) -> wp (exec sys fuel lineBits phaseLength (Join c)) s (fun _ => inv_late []).
Proof using Hlen.
  intros I [Hx Hg]. pose proof (inv_glob _ _ I) as Hg0. destruct (proj2 (status_at _ s c I) ltac:(by eexists)) as [k Hk].
  destruct (core_at s c k Out I Hk Hx) as [H1 H2 H3 H4 H5 _ _]. cbn [exec]. unfold join. apply wp_bind, wp_bind, wp_get, wp_bind.
  eapply wp_core_get; [exact Hk|]. eapply wp_core_put; [exact Hk|]. eapply wp_status_put; [exact Hx|]. cbn.
  eapply (inv_core_now s c k Out); try done; [apply I|]. unfold joined. rewrite (u64_small (globPhaseCycles s + phaseLength)) by (rewrite max64_eq; lia).
  destruct (Z.ltb_spec (curCycle k) (globPhaseCycles s)); cbn.
  - rewrite (u64_small (globPhaseCycles s - curCycle k)), u64_small by (rewrite max64_eq; lia). split; cbn; try done; lia.
  - by split.
Qed.

Lemma wp_bbl_func (s : S) c addr b : inv s -> legal s (Bbl c addr b) -> wp (exec sys fuel lineBits phaseLength (Bbl c addr b)) s (fun _ => inv_late []).
Proof using mapped TL CL ML Hline Hlen.
  intros I (k & Hk & Hx & Hcyc & Hin & Hby & Ha & Hend & Hok). pose proof (core_at s c k Run I Hk Hx) as Hc. destruct Hc as [H1 H2 H3 H4 H5 H6 _].
  rewrite max32_eq in Hin, Hby. pose proof (Z.pow_le_mono_r 2 6 lineBits ltac:(lia) ltac:(lia)) as H64. change (2 ^ 6) with 64 in H64.
  cbn [exec]. unfold BblFunc, bbl. apply wp_bind, wp_bind. eapply wp_core_get; [exact Hk|]. apply wp_bind.
  rewrite !u64_small by (rewrite max64_eq in *; lia). set (k1 := set_clock k _ _).
  eapply wp_mono; [apply (wp_core_put_inv [] s c k Run k1); try done|].
  { rewrite deadline_nil. split; cbn; try done; lia. }
  intros _ s1 [I1 ->]. set (s1 := set_cores s _) in *. assert (c < length (cores s))%nat as Hlt by (by eapply lookup_lt_Some).
  set (n := Datatypes.S (Z.to_nat (b_bytes b / 2 ^ lineBits))).
  assert (0 <= b_bytes b / 2 ^ lineBits <= 2 ^ 26) as Hdiv.
  { split; [apply Z.div_pos; lia|]. apply Z.div_le_upper_bound; [lia|]. nia. }
  assert (Z.of_nat n = b_bytes b / 2 ^ lineBits + 1) as En by (unfold n; lia).
  pose proof (Z.mul_succ_div_gt (b_bytes b) (2 ^ lineBits) ltac:(lia)) as Hgt.
  assert (cores s1 !! c = Some k1) as Hk1 by (by apply list_lookup_insert_eq).
  assert (curCycle k1 + Z.of_nat n * (2 * u32lat) < 2 ^ 62) as Hfar by (rewrite En; unfold u32lat; cbn; lia).
  eapply wp_mono; [apply (wp_fetch (curCycle k1 + Z.of_nat n * (2 * u32lat)) _ n s1 c k1 addr); try done; first [apply I1|cbn; lia|rewrite En; lia]|].
  intros [] s2 Hmv. assert (inv s2) as I2 by (by eapply (moved_inv s1 s2 c k1 Run); try done).
  destruct Hmv as (r & w & -> & Hw & Hr). set (s2 := set_cores (set_world s1 w) _) in *. set (k2 := set_clock k1 (instrs k1) r) in *.
  assert (cores s2 !! c = Some k2) as Hk2 by (apply list_lookup_insert_eq; cbn; by rewrite length_insert).
  pose proof (inv_glob _ _ I) as Hg. eapply wp_mono; [apply (wp_phase_check [] [] s2 c k2 Run I2 Hk2 Hx); try done|].
  - apply not_elem_of_nil.
  - by eapply (core_at s2).
  - cbn. lia.
  - intros _ s3 [I3 _]. exact I3.
Qed.

Lemma wp_data (s : S) c isLoad addr p : inv s -> legal s (Load c addr p) ->
  wp (whenS p (k ← core_get c; access sys fuel c (l1d k) isLoad addr)) s (fun _ => inv_late []).
Proof using mapped TL CL ML.
  intros I (k & Hk & Hx & Hcyc & Hok). destruct (core_at s c k Run I Hk Hx) as [H1 H2 H3 H4 H5 _ _].
  apply wp_when; [intros _|done]. apply wp_bind. eapply wp_core_get; [exact Hk|].
  eapply wp_mono; [apply (wp_access s c k); try done; [apply I|lia]|]. intros [] s' Hmv. eapply (moved_inv s s' c k Run); try done. unfold u32lat. lia.
Qed.

Lemma wp_filter_switch (w : W) cache : hier_ok w -> (cache < N)%nat -> wp (Cache.contextSwitch cache) w (fun _ => hier_ok).
Proof using mapped TL Hline Hlen.
  intros [Q Hl Hr] Hc. destruct (quiet_leaf w cache Q Hc) as (k & Hk & _ & _). unfold Cache.contextSwitch.
  apply wp_bind, wp_lock; [rewrite Hl; set_solver|]. apply wp_bind. eapply wp_zoom; [exact Hk|]. apply wp_modify. apply wp_unlock.
  split; [|cbn; rewrite Hl; set_solver|done]. apply quiet_locks. set (k' := set_filterArray k _).
  apply (quiet_own (set_locks w _) cache k k'); [by apply quiet_locks|done|done|]. repeat split. cbn. by rewrite length_map.
Qed.

Lemma wp_switch (s : S) c gid : inv s -> legal s (Switch c gid) -> wp (exec sys fuel lineBits phaseLength (Switch c gid)) s (fun _ => inv_late []).
Proof using mapped TL Hline Hlen.
  intros I [k Hk]. destruct (proj1 (status_at _ s c I) ltac:(by eexists)) as [x Hx]. destruct (core_at s c k x I Hk Hx) as [H1 H2 _ _ _ _ _].
  cbn [exec]. unfold contextSwitch. apply wp_bind. eapply wp_core_get; [exact Hk|]. apply wp_when; [intros _|done].
  assert (forall s1 cache, inv s1 -> (cache < N)%nat -> wp (on_world (Cache.contextSwitch (M := M) cache)) s1 (fun _ => inv_late [])) as Hone.
  { intros s1 cache I1 Hc. apply wp_on_world. eapply wp_mono; [by apply wp_filter_switch, Hc; apply I1|]. intros [] w Hw. destruct I1. by split. }
  apply wp_bind. eapply wp_mono; [by apply Hone|]. intros [] s1 I1. by apply Hone.
Qed.

(** *** The end of a phase *)

Lemma late_drop late c (s : S) x : inv_late (c :: late) s -> status s !! c = Some x -> x <> Wait -> inv_late late s.
Proof using.
  intros [Hh Hl Hg Hc] Hx Hne. split; [done|done|done|]. intros d k y Hk Hy. specialize (Hc d k y Hk Hy).
  unfold deadline in *. destruct (decide (d = c)) as [->|Hd].
  - assert (y = x) as -> by congruence. rewrite decide_True in Hc by (by left). rewrite decide_False in Hc by done. by destruct (decide (c ∈ late)); rewrite ?decide_False.
  - destruct (decide (d ∈ late)) as [Hin|Hin]; [rewrite decide_True in Hc by (by right)|rewrite decide_False in Hc by (by rewrite elem_of_cons; intros [?|?])]; done.
Qed.

Lemma release_start (s : S) : inv s -> Run ∉ status s -> globPhaseCycles s + phaseLength < 2 ^ 61 ->
  inv_late (seq 0 (length (cores s))) (set_glob s (globPhaseCycles s +64 phaseLength)).
Proof using Hlen.
  intros I Hno Hg. pose proof (inv_glob _ _ I) as Hg0. rewrite u64_small by (rewrite max64_eq; lia).
  split; [apply I|apply I|cbn; lia|]. intros c k x Hk Hx. cbn in *. destruct (core_at s c k x I Hk Hx) as [H1 H2 H3 H4 H5 H6 H7].
  unfold deadline. rewrite decide_True by (apply elem_of_seq; pose proof (lookup_lt_Some _ _ _ Hk); lia).
  assert (x <> Run) as Hr by (intros ->; by apply Hno, list_elem_of_lookup_2 with c).
  split; try done; destruct (decide (x = Wait)) as [->|]; try done. intros _. rewrite (H7 eq_refl). lia.
Qed.

Lemma wp_release (s : S) l : inv s -> legal s (Release l) -> wp (exec sys fuel lineBits phaseLength (Release l)) s (fun _ => inv_late []).
Proof using mapped TL Hline Hlen.
  intros I [Hno Hg]. pose proof (inv_glob _ _ I) as Hg0. cbn [exec]. unfold release. apply wp_bind, wp_get, wp_bind.
  set (s0 := set_glob _ _). assert (globPhaseCycles s0 < 2 ^ 61) as Hg1 by (cbn; rewrite u64_small by (rewrite max64_eq; lia); lia).
  unfold wp at 1, put. set (n := length (cores s)). pose proof (release_start s I Hno Hg) as I0. fold n s0 in I0.
  eapply wp_mono; [apply (wp_for_each _ _ _ (fun pre s' => inv_late (drop (length pre) (seq 0 n)) s' /\ globPhaseCycles s' < 2 ^ 61 /\ length (cores s') = n))|].
  - by rewrite drop_0.
  - intros pre c rest s1 El (I1 & Hg2 & Hn). rewrite El, drop_app_length in I1.
    replace (drop (length (pre ++ [c])) (seq 0 n)) with rest by (rewrite El, length_app; cbn; rewrite <- drop_drop, drop_app_length; done).
    pose proof (NoDup_seq 0 n) as Hnd. rewrite El in Hnd. apply NoDup_app in Hnd as (_ & _ & Hnd). apply NoDup_cons in Hnd as [Hc _].
    assert (c < n)%nat as Hlt by (eapply (proj1 (elem_of_seq 0 n c)); rewrite El; set_solver).
    destruct (lookup_lt_is_Some_2 (cores s1) c) as [k Hk]; [by rewrite Hn|]. destruct (proj1 (status_at _ s1 c I1) ltac:(by eexists)) as [x Hx].
    apply wp_bind, wp_get, wp_bind. eapply wp_lift; [by apply rd_some|]. cbv beta. destruct (decide (x = Wait)) as [->|Hne].
    + pose proof (inv_cores _ _ I1 c k Wait Hk Hx) as Hcok. unfold deadline in Hcok. rewrite decide_True in Hcok by (by left). cbn in Hcok.
      assert (forall d, d <> c -> d ∈ rest <-> d ∈ c :: rest) as Hlate by (intros d Hd; rewrite elem_of_cons; naive_solver).
      destruct (decide (c ∈ l)).
      * eapply wp_status_put; [exact Hx|]. split; [|done]. destruct s1 as [cs st gl w0]. unfold set_status. cbn in *. rewrite <- (list_insert_id cs c k Hk).
        eapply (inv_core _ rest (mkMach cs st gl w0)); try done; [apply I1|]. unfold deadline. by rewrite decide_False.
      * eapply wp_mono; [apply (wp_phase_check (c :: rest) rest s1 c k Wait); try done; lia|]. intros [] s2 (I2 & Eg & El2 & _). split_and!; [done|lia|lia].
    + apply wp_ret. split; [by eapply late_drop|done].
  - intros [] s1 (I1 & _ & _). by rewrite drop_ge in I1.
Qed.

Lemma wp_exec (s : S) o : inv s -> legal s o -> wp (exec sys fuel lineBits phaseLength o) s (fun _ => inv_late []).
Proof using mapped TL CL ML Hline Hlen.
  intros I Hl. destruct o as [c|c|c addr p|c addr p|c addr b|c gid|l].
  - by apply wp_core_join.
  - cbn in *. destruct (proj2 (status_at _ s c I) ltac:(by eexists)) as [k Hk]. pose proof (core_at s c k Run I Hk Hl) as [H1 H2 H3 H4 H5 _ _].
    eapply wp_status_put; [exact Hl|]. destruct s as [cs st gl w0]. unfold set_status. cbn in *. rewrite <- (list_insert_id cs c k Hk).
    eapply (inv_core_now (mkMach cs st gl w0)); try done. exact (inv_hier _ _ I).
  - by apply (wp_data s c true addr p).
  - by apply (wp_data s c false addr p).
  - by apply wp_bbl_func.
  - by apply wp_switch.
  - by apply wp_release.
Qed.

(** *** Runs *)

Fixpoint legal_run (ops : list Op) (s : S) : Prop :=
  match ops with
  | [] => True
  | o :: ops' => legal s o /\ forall s', exec sys fuel lineBits phaseLength o s = Ok (tt, s') -> legal_run ops' s'
  end.

Lemma wp_machine_run ops : forall s : S, inv s -> legal_run ops s -> wp (for_each (exec sys fuel lineBits phaseLength) ops) s (fun _ => inv_late []).
Proof using mapped TL CL ML Hline Hlen.
  induction ops as [|o ops IH]; intros s I Hl; [by apply wp_ret|]. destruct Hl as [Ho Hl]. cbn [for_each].
  pose proof (wp_exec s o I Ho) as Hw. apply wp_ok in Hw as ([] & s1 & E & I1). apply wp_bind, wp_ok. exists tt, s1. split; [done|]. by apply IH, Hl.
Qed.

(** The machine as built. *)
Record built (s : S) : Prop := {
  bu_world : initial (N := N) (K := K) (leaf := leaf) (world s);
  bu_locks : locks (world s) = ∅;
  bu_recs : recorders_ok (N := N) (leaf := leaf) (world s);
  bu_status : status s = replicate (length (cores s)) Out;
  bu_glob : globPhaseCycles s = 0;
  bu_cores : Forall (fun k => exists i d raw, k = make i d raw /\ (i < N)%nat /\ (d < N)%nat) (cores s) }.

Lemma built_inv (s : S) : built s -> inv s.
Proof using TL.
  intros [Hw Hl Hr Hs Hg Hc]. split; [split; [by apply initial_quiet|done|done]|by rewrite Hs, length_replicate|rewrite Hg; lia|].
  intros c k x Hk Hx. rewrite deadline_nil. rewrite Hs in Hx. apply lookup_replicate in Hx as [-> _].
  destruct (proj1 (Forall_lookup _ _) Hc c k Hk) as (i & d & raw & -> & Hi & Hd). split; cbn; try done; lia.
Qed.

(** *** Legality, decided *)

Definition addr_b (cache : nat) (a b : Z) : bool :=
  match fconf (leaf cache) with
  | None => false
  | Some fc => (0 <=? World.lineBits fc) && (0 <=? a) && (b <=? max64) && (0 <? procMask fc) && (procMask fc <? max64) && (Z.land (reqFlags fc) PREFETCH =? 0)
  end.

Lemma addr_b_ok cache a b v : addr_b cache a b = true -> a <= v < b -> addr_ok cache v.
Proof using.
  unfold addr_b. destruct (fconf (leaf cache)) as [fc|] eqn:E; [|done]. rewrite !andb_true_iff, !Z.leb_le, !Z.ltb_lt, Z.eqb_eq.
  intros [[[[[H1 H2] H3] H4] H5] H6] Hv. exists fc. split; [done|]. rewrite max64_eq in *. split; [|split; [unfold word; lia|split; [|done]]].
  - apply word_shiftr; [lia|lia|]. unfold word. lia.
  - rewrite Z.lor_eq_0_iff. lia.
Qed.

Definition legal_b (s : S) (o : Op) : bool :=
  match o with
  | Join c => bool_decide (status s !! c = Some Out) && (globPhaseCycles s + phaseLength <? 2 ^ 61)
  | Leave c => bool_decide (status s !! c = Some Run)
  | Load c addr _ | Store c addr _ =>
      match cores s !! c with
      | Some k => bool_decide (status s !! c = Some Run) && (curCycle k <? 2 ^ 61) && addr_b (l1d k) addr (addr + 1)
      | None => false
      end
  | Bbl c addr b =>
      match cores s !! c with
      | Some k => bool_decide (status s !! c = Some Run) && (curCycle k <? 2 ^ 61) && (0 <=? b_instrs b) && (b_instrs b <? max32) &&
          (0 <=? b_bytes b) && (b_bytes b <? max32) && (0 <=? addr) && (addr + b_bytes b + 2 ^ lineBits <? max64) && addr_b (l1i k) addr (addr + b_bytes b)
      | None => false
      end
  | Switch c _ => bool_decide (is_Some (cores s !! c))
  | Release _ => negb (bool_decide (Run ∈ status s)) && (globPhaseCycles s + phaseLength <? 2 ^ 61)
  end.

Lemma legal_b_ok (s : S) o : legal_b s o = true -> legal s o.
Proof using.
  destruct o as [c|c|c addr p|c addr p|c addr b|c gid|l]; cbn; rewrite ?andb_true_iff, ?negb_true_iff, ?Z.ltb_lt, ?bool_decide_eq_true, ?bool_decide_eq_false; try done.
  1,2: destruct (cores s !! c) as [k|]; [|done]; rewrite !andb_true_iff, Z.ltb_lt, bool_decide_eq_true; intros [[H1 H2] H3]; exists k; split_and!; try done; eapply addr_b_ok; [exact H3|lia].
  destruct (cores s !! c) as [k|]; [|done]. rewrite !andb_true_iff, !Z.ltb_lt, !Z.leb_le, bool_decide_eq_true.
  intros [[[[[[[[H1 H2] H3] H4] H5] H6] H7] H8] H9]. exists k. split_and!; try done. intros a Ha. by eapply addr_b_ok.
Qed.

Fixpoint legal_run_b (ops : list Op) (s : S) : bool :=
  match ops with
  | [] => true
  | o :: ops' => legal_b s o && match exec sys fuel lineBits phaseLength o s with Ok (_, s') => legal_run_b ops' s' | Fault _ => true end
  end.

Lemma legal_run_b_ok ops : forall s, legal_run_b ops s = true -> legal_run ops s.
Proof using.
  induction ops as [|o ops IH]; intros s; [done|]. cbn. rewrite andb_true_iff. intros [Ho Hr]. split; [by apply legal_b_ok|].
  intros s' E. rewrite E in Hr. by apply IH.
Qed.

End spec.
End SimpleCoreSpec.

Module SimpleCoreProps.
Import SimpleCore SimpleCoreSpec.

(** C3: simple cores over a two-level hierarchy, from the machine as built: any
    sequence of joins, leaves, blocks, loads, stores, context switches and ends
    of phases, each when its thread can make it, runs to completion with every
    access it makes; the assertion of the block callback (the core's deadline is
    the end of the phase) and that of the cycle statistic never fail.  The
    hierarchy ends coherent and inclusive, with its locks free, and every core
    has counted at least a cycle for each instruction.  The fuel of the fetch
    loop is the block's length in lines plus one. *)
Theorem simple_cores_run {A M : Type} {CA : CacheArray A} {CL : CacheArrayLaws A} {RA : RefreshArray A} {MC : MemCtrl M} {ML : MemCtrlLaws M}
    (sys : Sys) (N K : nat) (leaf : nat -> CacheConf) (root : CacheConf) (maps : nat -> list ProcMapInfo)
    (g : nat) (lineBits phaseLength : Z) (ops : list Op) (s : Mach (World A M)) :
  two_level sys N K leaf root -> maps_ok (sys := sys) (N := N) (leaf := leaf) maps ->
  6 <= lineBits <= 12 -> 0 < phaseLength < 2 ^ 60 ->
  built (N := N) (K := K) (leaf := leaf) s ->
  legal_run (sys := sys) (leaf := leaf) g lineBits phaseLength ops s ->
  exists s', for_each (exec sys (S (S (S g))) lineBits phaseLength) ops s = Ok (tt, s') /\
    locks (world s') = ∅ /\ swmr (N := N) (world s') /\ inclusive (N := N) (world s') /\
    forall c k, cores s' !! c = Some k -> (exists n, cycles_stat k = Ok n /\ instrs k <= n) /\
      (status s' !! c = Some Run -> phaseEndCycle k = globPhaseCycles s' + phaseLength).
Proof.
  intros TL Hmaps Hline Hlen Hb Hl. pose proof (built_inv phaseLength s Hb) as I.
  destruct (proj1 (wp_ok _ _ _) (wp_machine_run maps Hmaps g lineBits phaseLength Hline Hlen ops s I Hl)) as ([] & s' & E & I').
  exists s'. split; [exact E|]. pose proof (inv_hier _ _ _ I') as [Q Hlk _]. split_and!; [done|by eapply quiet_swmr|by eapply quiet_inclusive|].
  intros c k Hk. destruct (proj1 (status_at _ _ _ _ I') (mk_is_Some _ _ Hk)) as [x Hx].
  destruct (core_at _ s' c k x I' Hk Hx) as [_ _ H3 H4 H5 H6 _]. split.
  - exists (curCycle k - haltedCycles k). unfold cycles_stat. rewrite (proj2 (Z.leb_le _ _)) by lia. cbn.
    split; [|lia]. f_equal. apply u64_small. rewrite max64_eq. lia.
  - intros Hr. apply H6. congruence.
Qed.

(** Two cores on the system of HierarchyProps, phases of 400 cycles: each runs a
    block of the library code both map, and data accesses; the first core's
    thread is switched out at the end of a phase and leaves. *)
Definition demo : Mach (World (SetAssoc.t LRU.t) SimpleMemory.t) :=
  mkMach [make 0 0 7; make 1 1 7] [Out; Out] 0 CoherenceProps.demo_world.

Definition demo_ops : list Op :=
  [Join 0; Join 1; Load 0 0x2000 true; Store 1 0x2000 true; Bbl 0 0x10000 (mkBbl 20 100); Bbl 1 0x20000 (mkBbl 20 300);
   Release []; Bbl 0 0x10040 (mkBbl 400 60); Bbl 1 0x20040 (mkBbl 600 60); Release [0%nat]; Switch 0 (-1); Leave 0; Release []; Join 0; Store 0 0x10080 false].

Example demo_clocks :
  match for_each (exec CoherenceProps.demo_sys 3 6 400) demo_ops demo with
  | Ok (_, s) => (globPhaseCycles s, status s, map (fun k => (instrs k, curCycle k, haltedCycles k)) (cores s))
  | Fault _ => (0, [], [])
  end = (1200, [Run; Run], [(420, 1200, 383); (620, 1210, 0)]).
Proof. vm_compute. reflexivity. Qed.

Lemma demo_built : built (N := 2) (K := 1) (leaf := CoherenceProps.demo_leaf) demo.
Proof.
  split; [apply CoherenceProps.demo_initial|done| |done|done|].
  - intros c fc Hc [= <-]. cbn [f_srcId CoherenceProps.demo_fc]. assert (c = 0 \/ c = 1)%nat as [-> | ->] by lia; by eexists.
  - apply Forall_cons_2; [|apply Forall_cons_2; [|apply Forall_nil_2]]; eexists _, _, _; (split; [done|lia]).
Qed.

Lemma simple_cores_run_witness :
  exists s', for_each (exec CoherenceProps.demo_sys 3 6 400) demo_ops demo = Ok (tt, s') /\
    locks (world s') = ∅ /\ swmr (N := 2) (world s') /\ inclusive (N := 2) (world s') /\
    forall c k, cores s' !! c = Some k -> (exists n, cycles_stat k = Ok n /\ instrs k <= n) /\
      (status s' !! c = Some Run -> phaseEndCycle k = globPhaseCycles s' + 400).
Proof.
  apply (simple_cores_run CoherenceProps.demo_sys 2 1 CoherenceProps.demo_leaf CoherenceProps.demo_root CoherenceProps.demo_map 0 6 400 demo_ops demo).
  - apply CoherenceProps.demo_two_level.
  - apply CoherenceProps.demo_maps.
  - lia.
  - lia.
  - apply demo_built.
  - apply legal_run_b_ok. vm_compute. reflexivity.
Defined.

End SimpleCoreProps.
