(* ===== verification/IdealArrays.v ===== *)
(** * The ideal cache array (IdealLRUArray of src/src/ideal_arrays.h)

    A fully associative array: a map from addresses to lines, and an intrusive
    list of all lines in LRU order.  It meets the contract of cache arrays, so
    the hierarchy can be built from it, and its hits are decided by reuse
    distance alone. *)

From stdpp Require Import gmap sets.
From S2P Require Import Prelude MemHier ReplPolicies CacheArrays UMon IntrusiveList.
Local Open Scope Z_scope.

Module IdealLRU.
Import IntrusiveList.

(** Node [i] of the store is [&array[i]]; its [lineId] is [i]. *)
Record t := mk { store : Store; lineAddrs : list Z; lineMap : gmap Z nat; numLines : nat }.

(** [lruList]. *)
Definition lruList : nat := 0.

Definition set_store (a : t) (s : Store) : t := mk s (lineAddrs a) (lineMap a) (numLines a).

(** A list operation on the array's store. *)
Definition on_list {B} (m : ST Store B) (a : t) : outcome (B * t) :=
  p ← m (store a); mret (p.1, set_store a p.2).

(** The constructor: the entries enter the list in order, each at its front. *)
Definition new_entry (i : nat) : ST Store unit :=
  _ ← modify (fun s => mkStore (<[i := InListNode_new]> (nodes s)) (lists s));
  push_front lruList i.

Definition make (n : nat) : outcome t :=
  p ← for_each new_entry (seq 0 n) (mkStore ∅ {[ lruList := InList_new ]});
  mret (mk p.2 (replicate n 0) ∅ n).

Definition to_front (i : nat) : ST Store unit := _ ← remove lruList i; push_front lruList i.

Definition lookup (a : t) (lineAddr : Z) (upd : option MemReq) : outcome (option nat * t) :=
  match lineMap a !! lineAddr with
  | None => mret (None, a)
  | Some lineId =>
      match upd with
      | Some _ => p ← on_list (to_front lineId) a; mret (Some lineId, p.2)
      | None => mret (Some lineId, a)
      end
  end.

(** [lruList.back()] is null only when there are no lines. *)
Definition preinsert (a : t) (_ : CCView) (lineAddr : Z) (_ : MemReq) : outcome (nat * Z * t) :=
  p ← on_list (back lruList) a;
  match p.1 with
  | None => Fault OutOfRange
  | Some e => wb ← rd (lineAddrs p.2) e; mret (e, wb, p.2)
  end.

Definition postinsert (a : t) (lineAddr : Z) (_ : MemReq) (lineId : nat) : outcome t :=
  old ← rd (lineAddrs a) lineId;
  let m := delete old (lineMap a) in
  _ ← check (bool_decide (m !! lineAddr = None));
  addrs ← wr (lineAddrs a) lineId lineAddr;
  p ← on_list (to_front lineId) (mk (store a) addrs (<[lineAddr := lineId]> m) (numLines a));
  mret p.2.

#[global] Instance ideal_array : CacheArray t :=
  { ca_lookup := lookup; ca_preinsert := preinsert; ca_postinsert := postinsert }.

#[global] Instance ideal_refresh : RefreshArray t := base_refresh t.

End IdealLRU.

Module IdealLRUSpec.
Import UMonSpec IntrusiveList IntrusiveListSpec IdealLRU.

(** The lines in LRU order, most recent first, and the map as the inverse of
    the tags. *)
Record wf_at (order : list nat) (a : t) : Prop := {
  wf_rep : rep {[ lruList := order ]} (store a);
  wf_nodes : forall i, (i < numLines a)%nat -> is_Some (nodes (store a) !! i);
  wf_order : order ≡ₚ seq 0 (numLines a);
  wf_lines : length (lineAddrs a) = numLines a;
  wf_count : Z.of_nat (numLines a) < max32;
  wf_map : forall x i, lineMap a !! x = Some i <-> x <> 0 /\ lineAddrs a !! i = Some x }.

Definition wf (a : t) : Prop := (0 < numLines a)%nat /\ exists order, wf_at order a.

Lemma order_lt order a i : wf_at order a -> i ∈ order <-> (i < numLines a)%nat.
Proof. intros H. rewrite (wf_order _ _ H), elem_of_seq. lia. Qed.

Lemma order_length order a : wf_at order a -> length order = numLines a.
Proof. intros H. by rewrite (wf_order _ _ H), length_seq. Qed.

Lemma order_nodup order a : wf_at order a -> NoDup order.
Proof. intros H. rewrite (wf_order _ _ H). apply NoDup_seq. Qed.

Lemma count_small n : Z.of_nat n < max32 -> Z.of_nat n < max64.
Proof. rewrite max32_eq, max64_eq. lia. Qed.

(** Moving a line to the front. *)
Lemma to_front_ok k i k' s : rep {[ lruList := k ++ i :: k' ]} s -> is_Some (nodes s !! i) ->
  Z.of_nat (length (k ++ i :: k')) < max64 ->
  exists s', to_front i s = Ok (tt, s') /\ rep {[ lruList := i :: k ++ k' ]} s' /\
    forall e, is_Some (nodes s !! e) -> is_Some (nodes s' !! e).
Proof.
  intros Hr Hi Hn. rewrite length_app in Hn. cbn [length] in Hn.
  pose proof (no_nodup _ _ (rep_nodes _ _ Hr) _ _ (lookup_singleton_eq lruList _)) as Hnd.
  assert (wp (run (Remove lruList i)) s (fun _ s' => rep (<[lruList := k ++ k']> {[ lruList := k ++ i :: k' ]}) s')) as Hw.
  { cbn [run]. eapply wp_list_remove; [done|apply lookup_singleton_eq|done|]. rewrite length_app. lia. }
  apply wp_ok in Hw as ([] & s1 & E1 & Hr1). pose proof (keeps_run _ _ _ _ E1) as K1. rewrite insert_singleton_eq in Hr1.
  assert (wp (run (PushFront lruList i)) s1 (fun _ s' => rep (<[lruList := i :: k ++ k']> {[ lruList := k ++ k' ]}) s')) as Hw.
  { cbn [run]. apply wp_list_push_front; [done|apply lookup_singleton_eq| |by apply K1|cbn [length]; rewrite length_app; lia].
    intros l xs Hl. apply lookup_singleton_Some in Hl as [_ <-]. rewrite NoDup_app, NoDup_cons in Hnd. set_solver. }
  apply wp_ok in Hw as ([] & s2 & E2 & Hr2). pose proof (keeps_run _ _ _ _ E2) as K2. rewrite insert_singleton_eq in Hr2.
  cbn [run] in E1, E2. exists s2. unfold to_front, mbind, ST_bind. rewrite E1, E2. split; [done|]. split; [done|]. intros e He. by apply K2, K1.
Qed.

Lemma front_ok k i k' a : wf_at (k ++ i :: k') a ->
  exists a', on_list (to_front i) a = Ok (tt, a') /\ wf_at (i :: k ++ k') a' /\
    lineAddrs a' = lineAddrs a /\ numLines a' = numLines a.
Proof.
  intros H. pose proof (order_length _ _ H) as Hlen. destruct H as [Hr Hn Ho Hl Hc Hm].
  assert (i < numLines a)%nat as Hi by (apply elem_of_seq with (j := 0%nat); rewrite <- Ho; set_solver).
  destruct (to_front_ok k i k' (store a) Hr (Hn i Hi)) as (s' & E & Hr' & Hk); [rewrite Hlen; by apply count_small|].
  exists (set_store a s'). unfold on_list. rewrite E. split; [done|]. split; [|done].
  split; cbn [store set_store lineAddrs lineMap numLines]; [done|by intros j Hj; apply Hk, Hn| |done|done|done].
  rewrite <- Ho. apply Permutation_middle.
Qed.

(** A line of a well-formed array, located in the order. *)
Lemma line_split order a i : wf_at order a -> (i < numLines a)%nat -> exists k k', order = k ++ i :: k'.
Proof. intros H Hi. apply list_elem_of_split. by eapply order_lt. Qed.

(** *** The operations *)

Lemma ideal_lookup_miss a x upd : (forall i, lineMap a !! x <> Some i) -> lookup a x upd = Ok (None, a).
Proof. intros Hn. unfold lookup. destruct (lineMap a !! x) as [i|] eqn:E; [by destruct (Hn i)|done]. Qed.

Lemma lookup_front k i k' a x req : wf_at (k ++ i :: k') a -> x <> 0 -> lineAddrs a !! i = Some x ->
  exists a', lookup a x (Some req) = Ok (Some i, a') /\ wf_at (i :: k ++ k') a' /\
    lineAddrs a' = lineAddrs a /\ numLines a' = numLines a.
Proof.
  intros H Hx Hi. unfold lookup. rewrite (proj2 (wf_map _ _ H x i) (conj Hx Hi)).
  destruct (front_ok k i k' a H) as (a' & E & Hw). rewrite E. by exists a'.
Qed.

Lemma preinsert_last k i a v x req : wf_at (k ++ [i]) a ->
  exists wb, preinsert a v x req = Ok (i, wb, a) /\ lineAddrs a !! i = Some wb.
Proof.
  intros H. assert (i < numLines a)%nat as Hi by (eapply order_lt; [done|set_solver]).
  rewrite <- (wf_lines _ _ H) in Hi. destruct (lookup_lt_is_Some_2 _ _ Hi) as [wb Hwb]. exists wb. split; [|done].
  pose proof (rep_lists _ _ (wf_rep _ _ H) lruList) as Hl. rewrite lookup_singleton_eq in Hl.
  assert (back lruList (store a) = Ok (Some i, store a)) as Eb.
  { unfold back. rewrite (bind_ok _ _ _ _ _ (getList_ok _ _ _ Hl)). cbn [list_of tail]. by rewrite last_snoc. }
  unfold preinsert, on_list. rewrite Eb. cbn. rewrite (rd_some _ _ _ Hwb). by destruct a.
Qed.

Lemma map_replace (addrs : list Z) (m : gmap Z nat) i old x :
  (forall y j, m !! y = Some j <-> y <> 0 /\ addrs !! j = Some y) -> addrs !! i = Some old -> x <> 0 ->
  (forall j, addrs !! j <> Some x) -> forall y j,
  <[x := i]> (delete old m) !! y = Some j <-> y <> 0 /\ <[i := x]> addrs !! j = Some y.
Proof.
  intros Hm Hi Hx Hno y j. pose proof (lookup_lt_Some _ _ _ Hi) as Hlt.
  rewrite lookup_insert_Some, lookup_delete_Some, Hm, list_lookup_insert_Some. split.
  - intros [[-> ->]|(Hxy & Hoy & Hy & Hj)]; [auto|]. split; [done|]. right. split; [|done]. intros ->. congruence.
  - intros [Hy [(-> & -> & _)|[Hij Hj]]]; [by left|]. right. split_and!; [|intros ->|done|done].
    + intros ->. by apply (Hno j).
    + apply Hij. assert (m !! y = Some i) as E1 by by apply Hm. assert (m !! y = Some j) as E2 by by apply Hm. congruence.
Qed.

Lemma postinsert_front k i k' a x req : wf_at (k ++ i :: k') a -> x <> 0 -> (forall j, lineAddrs a !! j <> Some x) ->
  exists a', postinsert a x req i = Ok a' /\ wf_at (i :: k ++ k') a' /\
    lineAddrs a' = <[i := x]> (lineAddrs a) /\ numLines a' = numLines a.
Proof.
  intros H Hx Hno. assert (i < numLines a)%nat as Hi by (eapply order_lt; [done|set_solver]).
  rewrite <- (wf_lines _ _ H) in Hi. destruct (lookup_lt_is_Some_2 _ _ Hi) as [old Hold].
  unfold postinsert. rewrite (rd_some _ _ _ Hold). cbn [mbind outcome_bind].
  rewrite bool_decide_true.
  2:{ rewrite lookup_delete_None. right. destruct (lineMap a !! x) as [j|] eqn:E; [|done]. apply (wf_map _ _ H) in E as [_ E]. by destruct (Hno j). }
  cbn [check mbind outcome_bind]. rewrite wr_lt by done. cbn [mbind outcome_bind].
  set (a1 := mk _ _ _ _). assert (wf_at (k ++ i :: k') a1) as H1.
  { destruct H as [Hr Hn Ho Hl Hc Hm]. split; cbn [a1 store lineAddrs lineMap numLines]; try done; [by rewrite length_insert|].
    by apply map_replace. }
  destruct (front_ok k i k' a1 H1) as (a' & E & Hw & Ha & Hn). rewrite E. by exists a'.
Qed.

(** *** The contract of cache arrays *)

#[global, refine] Instance ideal_laws : CacheArrayLaws t :=
  { ca_wf _ a := wf a; ca_lines := numLines; ca_tag a i := lineAddrs a !! i;
    ca_slot a x i := x <> 0 /\ (i < numLines a)%nat }.
Proof.
  - intros _ a i (_ & o & H). by rewrite lookup_lt_is_Some, (wf_lines _ _ H).
  - intros _ a i j x (_ & o & H) Hx Hi Hj. assert (lineMap a !! x = Some i) as E by by apply (wf_map _ _ H).
    apply (conj Hx), (wf_map _ _ H) in Hj. congruence.
  - intros _ a x upd i (H0 & o & H) _ Hx Hi. cbn. assert (i < numLines a)%nat as Hlt by (rewrite <- (wf_lines _ _ H); by eapply lookup_lt_Some).
    destruct (line_split _ _ _ H Hlt) as (k & k' & ->). destruct upd as [req|].
    + destruct (lookup_front k i k' a x req H Hx Hi) as (a' & E & Hw & Ha & Hn). exists a'. rewrite Ha, Hn.
      split_and!; try done. split; [by rewrite Hn|by eexists].
    + exists a. unfold lookup. rewrite (proj2 (wf_map _ _ H x i) (conj Hx Hi)). split_and!; try done. split; [done|by eexists].
  - intros _ a x upd (_ & o & H) _ Hx Hno. apply ideal_lookup_miss. intros i E. apply (wf_map _ _ H) in E as [_ E]. by apply (Hno i).
  - intros a v x req (H0 & o & H) _ Hx. cbn. destruct (nodup_split_last o) as [->|(k & i & ->)].
    { apply order_length in H. cbn in H. lia. }
    destruct (preinsert_last k i a v x req H) as (wb & E & Hwb). exists i, wb, a. split_and!; try done.
    + split; [done|by eexists].
    + eapply order_lt; [done|set_solver].
  - intros a x req i (H0 & o & H) _ [Hx Hi] Hno. cbn. destruct (line_split _ _ _ H Hi) as (k & k' & ->).
    destruct (postinsert_front k i k' a x req H Hx (Hno Hx)) as (a' & E & Hw & Ha & Hn). exists a'. rewrite Ha, Hn.
    assert (i < length (lineAddrs a))%nat by (by rewrite (wf_lines _ _ H)). split_and!; try done.
    + split; [by rewrite Hn|by eexists].
    + by apply list_lookup_insert_eq.
    + intros j Hj. by apply list_lookup_insert_ne.
Defined.

End IdealLRUSpec.

(** ** Hits by reuse distance *)

Module IdealProps.
Import UMonSpec IntrusiveList IntrusiveListSpec IdealLRU IdealLRUSpec.

(** The calls of a cache for one access: the lookup and, on a miss, the
    replacement. *)
Definition access (v : CCView) (req : MemReq) (x : Z) (a : t) : outcome (bool * t) :=
  '(o, a) ← lookup a x (Some req);
  match o with
  | Some _ => mret (true, a)
  | None => '(i, _, a) ← preinsert a v x req; a ← postinsert a x req i; mret (false, a)
  end.

Fixpoint run (v : CCView) (req : MemReq) (xs : list Z) (a : t) : outcome (list bool * t) :=
  match xs with
  | [] => mret ([], a)
  | x :: xs' => '(b, a) ← access v req x a; '(bs, a) ← run v req xs' a; mret (b :: bs, a)
  end.

(** A history has the last access first.  The accesses after the last one to
    [x], and how many addresses there are among them. *)
Fixpoint since (x : Z) (h : list Z) : option (list Z) :=
  match h with [] => None | y :: h' => if y =? x then Some [] else cons y <$> since x h' end.

Definition reuse_distance (x : Z) (h : list Z) : option nat := (fun s => length (remove_dups s)) <$> since x h.

Fixpoint hits (n : nat) (h xs : list Z) : list bool :=
  match xs with
  | [] => []
  | x :: xs' => match reuse_distance x h with Some d => (d <? n)%nat | None => false end :: hits n (x :: h) xs'
  end.

(** The addresses of a history in the order of their last access. *)
Fixpoint recency (h : list Z) : list Z :=
  match h with [] => [] | y :: h' => y :: filter (fun z => z <> y) (recency h') end.

Lemma recency_nodup h : NoDup (recency h).
Proof.
  induction h as [|y h IH]; cbn; [by apply NoDup_nil|]. apply NoDup_cons. split; [|by apply NoDup_filter].
  rewrite list_elem_of_filter. naive_solver.
Qed.

Lemma recency_elem h x : x ∈ recency h <-> x ∈ h.
Proof.
  induction h as [|y h IH]; cbn; [done|]. rewrite !elem_of_cons, list_elem_of_filter, IH.
  destruct (decide (x = y)); naive_solver.
Qed.

Lemma filter_none (l : list Z) x : x ∉ l -> filter (fun z => z <> x) l = l.
Proof.
  induction l as [|y l IH]; [done|]. rewrite not_elem_of_cons. intros [Hy Hl].
  rewrite filter_cons_True by done. by rewrite IH.
Qed.

Lemma since_none x h : since x h = None <-> x ∉ h.
Proof.
  induction h as [|y h IH]; cbn; [split; [intros _; apply not_elem_of_nil|done]|]. rewrite not_elem_of_cons.
  destruct (Z.eqb_spec y x) as [->|Hy]; [naive_solver|]. rewrite fmap_None, IH. naive_solver.
Qed.

Lemma since_recency x h s : since x h = Some s ->
  exists pre post, recency h = pre ++ x :: post /\ forall y, y ∈ pre <-> y ∈ s.
Proof.
  revert s. induction h as [|y h IH]; intros s; cbn; [done|]. destruct (Z.eqb_spec y x) as [->|Hy].
  - intros [= <-]. eexists [], _. split; [done|]. intros y. by rewrite elem_of_nil.
  - intros Hs. apply fmap_Some in Hs as (s' & Hs & ->). destruct (IH s' Hs) as (pre & post & E & Hin).
    exists (y :: filter (fun z => z <> y) pre), (filter (fun z => z <> y) post). split.
    + rewrite E, filter_app, filter_cons_True by done. done.
    + intros z. rewrite !elem_of_cons, list_elem_of_filter, <- Hin. destruct (decide (z = y)); naive_solver.
Qed.

(** The distance is the place in the order of recency. *)
Lemma reuse_place x h d : reuse_distance x h = Some d ->
  exists pre post, recency h = pre ++ x :: post /\ length pre = d.
Proof.
  unfold reuse_distance. intros Hd. apply fmap_Some in Hd as (s & Hs & ->).
  destruct (since_recency x h s Hs) as (pre & post & E & Hin). exists pre, post. split; [done|].
  pose proof (recency_nodup h) as Hn. rewrite E in Hn. apply NoDup_app in Hn as (Hn & _).
  apply Permutation_length. apply NoDup_Permutation; [done|apply NoDup_remove_dups|]. intros y. by rewrite elem_of_remove_dups.
Qed.

(** The tags of an array that has seen the history [h]: never-used lines have
    tag 0 and come last. *)
Definition stack (n : nat) (h : list Z) : list Z := take n (recency h ++ replicate n 0).

Lemma stack_length n h : length (stack n h) = n.
Proof. unfold stack. rewrite length_take, length_app, length_replicate. lia. Qed.

Lemma stack_elem n h x : x <> 0 -> x ∈ stack n h <-> exists d, reuse_distance x h = Some d /\ (d < n)%nat.
Proof.
  intros Hx. unfold stack. destruct (reuse_distance x h) as [d|] eqn:E.
  - destruct (reuse_place x h d E) as (pre & post & Eh & Hp). rewrite Eh, <- app_assoc. cbn [app].
    pose proof (recency_nodup h) as Hn. rewrite Eh in Hn. apply NoDup_app in Hn as (_ & Hd & _).
    assert (x ∉ pre) as Hpre by (intros Hin; apply (Hd x Hin); by left).
    rewrite take_app, elem_of_app, Hp. split.
    + intros [Hin|Hin].
      * exfalso. apply Hpre. by eapply subseteq_take.
      * exists d. split; [done|]. destruct (n - d)%nat eqn:End; [by apply elem_of_nil in Hin|lia].
    + intros (d' & [= <-] & Hlt). right. destruct (n - d)%nat eqn:End; [lia|]. by left.
  - unfold reuse_distance in E. apply fmap_None, since_none in E. split; [|naive_solver]. intros Hin. exfalso.
    assert (x ∈ recency h ++ replicate n 0) as Hin2 by (apply (subseteq_take n), Hin).
    apply elem_of_app in Hin2 as [Hin2|Hin2]; [by apply E, recency_elem|by apply elem_of_replicate in Hin2 as [-> _]].
Qed.

(** One access in the order of recency. *)
Lemma filter_stack x R K K' (n : nat) : take n R = K ++ x :: K' -> length (K ++ x :: K') = n -> x <> 0 ->
  (forall L, R = K ++ x :: L -> x ∉ K /\ x ∉ L) ->
  take n (x :: filter (fun z => z <> x) R) = x :: K ++ K'.
Proof.
  intros Ht Hl Hx Hu. rewrite length_app in Hl. cbn [length] in Hl. pose proof (take_drop n R) as E. rewrite Ht in E. rewrite <- app_assoc in E. cbn [app] in E.
  destruct (Hu _ (eq_sym E)) as [HK HL]. rewrite <- E, filter_app, filter_cons_False, !filter_none by naive_solver.
  destruct n as [|n]; [lia|]. cbn [take]. f_equal. rewrite app_assoc. rewrite take_app_le, take_ge; rewrite ?length_app; [done|lia|lia].
Qed.

Lemma stack_cons n h x : x <> 0 ->
  stack n (x :: h) = take n (x :: filter (fun z => z <> x) (recency h ++ replicate n 0)).
Proof.
  intros Hx. unfold stack. cbn [recency app]. rewrite filter_app. rewrite (filter_none (replicate n 0)); [done|].
  intros Hin. by apply elem_of_replicate in Hin as [-> _].
Qed.

Lemma recency_unique n h x K L : x <> 0 -> recency h ++ replicate n 0 = K ++ x :: L -> x ∉ K /\ x ∉ L.
Proof.
  intros Hx E. assert (x ∉ replicate n 0) as Hz by (intros Hin; by apply elem_of_replicate in Hin as [-> _]).
  destruct (split_at _ _ _ _ _ E) as [(i & Eh & ->)|(i & Eh & ->)].
  - pose proof (recency_nodup h) as Hn. rewrite Eh in Hn. apply NoDup_app in Hn as (_ & Hd & Hn). apply NoDup_cons in Hn as [Hi _].
    rewrite not_elem_of_app. split_and!; [|done|done]. intros Hin. apply (Hd x Hin). by left.
  - exfalso. apply Hz. rewrite Eh. set_solver.
Qed.

Lemma stack_hit n h x K K' : x <> 0 -> stack n h = K ++ x :: K' -> stack n (x :: h) = x :: K ++ K'.
Proof.
  intros Hx E. rewrite stack_cons by done. eapply filter_stack; [exact E|rewrite <- E; apply stack_length|done|].
  intros L. by apply recency_unique.
Qed.

Lemma stack_miss n h x K y : x <> 0 -> x ∉ stack n h -> stack n h = K ++ [y] -> stack n (x :: h) = x :: K.
Proof.
  intros Hx Hno E. rewrite stack_cons by done. pose proof (stack_length n h) as Hl. rewrite E, length_app in Hl. cbn in Hl.
  rewrite <- (take_drop n (recency h ++ replicate n 0)). change (take n (recency h ++ _)) with (stack n h).
  rewrite filter_app, filter_none by done. rewrite E. destruct n as [|n]; [lia|]. cbn [take]. f_equal.
  rewrite <- app_assoc. rewrite take_app_le by lia. apply take_ge. lia.
Qed.

(** *** The array follows the stack *)

Definition tag_at (a : t) (i : nat) : Z := lineAddrs a !!! i.

Definition follows (n : nat) (h : list Z) (a : t) : Prop :=
  numLines a = n /\ exists order, wf_at order a /\ map (tag_at a) order = stack n h.

Lemma tags_frame (a a' : t) i x (l : list nat) : lineAddrs a' = <[i := x]> (lineAddrs a) -> i ∉ l ->
  map (tag_at a') l = map (tag_at a) l.
Proof.
  intros Ha Hi. apply map_ext_in. intros j Hj. apply list_elem_of_In in Hj. unfold tag_at. rewrite Ha.
  apply list_lookup_total_insert_ne. intros ->. done.
Qed.

Lemma access_follows n h v req x a : (0 < n)%nat -> x <> 0 -> follows n h a ->
  exists a', access v req x a = Ok (match reuse_distance x h with Some d => (d <? n)%nat | None => false end, a') /\
    follows n (x :: h) a'.
Proof.
  intros Hn Hx (Hl & order & H & Htags). pose proof (order_nodup _ _ H) as Hnd.
  assert (x ∈ stack n h <-> match reuse_distance x h with Some d => (d <? n)%nat | None => false end = true) as Hhit.
  { rewrite stack_elem by done. destruct (reuse_distance x h); [|naive_solver]. rewrite Nat.ltb_lt. naive_solver. }
  assert (forall i, i ∈ order -> lineAddrs a !! i = Some (tag_at a i)) as Htag.
  { intros i Hi. apply list_lookup_lookup_total_lt. rewrite (wf_lines _ _ H). by eapply order_lt. }
  unfold access. destruct (decide (x ∈ stack n h)) as [Hin|Hout].
  - rewrite (proj1 Hhit Hin). rewrite <- Htags in Hin. apply list_elem_of_In, in_map_iff in Hin as (i & Hi & Hio).
    apply list_elem_of_In in Hio. pose proof (Htag i Hio) as Hit. rewrite Hi in Hit.
    apply list_elem_of_split in Hio as (k & k' & ->).
    destruct (lookup_front k i k' a x req H Hx Hit) as (a' & E & Hw & Ha & Hn'). rewrite E. exists a'. split; [done|].
    split; [congruence|]. exists (i :: k ++ k'). split; [done|].
    assert (map (tag_at a') (i :: k ++ k') = map (tag_at a) (i :: k ++ k')) as -> by (unfold tag_at; by rewrite Ha).
    rewrite map_app in Htags. cbn [map] in *. rewrite Hi in *. rewrite map_app. symmetry. by apply stack_hit.
  - destruct (match reuse_distance x h with Some d => (d <? n)%nat | None => false end); [naive_solver|].
    assert (forall j, lineAddrs a !! j <> Some x) as Hno.
    { intros j Hj. apply Hout. rewrite <- Htags. apply list_elem_of_In, in_map_iff. exists j.
      split; [unfold tag_at; by apply list_lookup_total_correct|]. apply list_elem_of_In. eapply order_lt; [done|].
      rewrite <- (wf_lines _ _ H). by eapply lookup_lt_Some. }
    rewrite ideal_lookup_miss by (intros i Hi; by apply (wf_map _ _ H) in Hi as [_ Hi%Hno]). cbn [mbind outcome_bind mret outcome_ret].
    destruct (nodup_split_last order) as [->|(k & i & ->)]; [apply order_length in H; cbn in H; lia|].
    destruct (preinsert_last k i a v x req H) as (wb & E & Hwb). rewrite E. cbn [mbind outcome_bind].
    destruct (postinsert_front k i [] a x req H Hx Hno) as (a' & E' & Hw & Ha & Hn'). rewrite E'. exists a'. split; [done|].
    split; [congruence|]. exists (i :: k ++ []). split; [done|]. rewrite app_nil_r. cbn [map]. rewrite map_app in Htags.
    rewrite (stack_miss n h x _ _ Hx Hout (eq_sym Htags)). apply NoDup_app in Hnd as (_ & Hd & _). f_equal.
    + unfold tag_at. rewrite Ha. apply list_lookup_total_insert_eq. by eapply lookup_lt_Some.
    + eapply tags_frame; [done|]. intros Hi. apply (Hd i Hi). by left.
Qed.

(** *** The array as built *)

Lemma new_entry_ok pre x s : x ∉ pre -> Z.of_nat (S (length pre)) < max64 -> rep {[ lruList := rev pre ]} s ->
  (forall i, i ∈ pre -> is_Some (nodes s !! i)) ->
  wp (new_entry x) s (fun _ s' => rep {[ lruList := rev (pre ++ [x]) ]} s' /\ forall i, i ∈ pre ++ [x] -> is_Some (nodes s' !! i)).
Proof.
  intros Hx Hc Hr Hk. unfold new_entry. apply wp_bind, wp_modify.
  assert (unlisted {[ lruList := rev pre ]} x) as Hu.
  { intros l xs Hl. apply lookup_singleton_Some in Hl as [_ <-]. by rewrite list_elem_of_In, <- in_rev, <- list_elem_of_In. }
  pose proof (rep_new _ _ _ Hu Hr) as Hr1. set (s1 := mkStore _ _) in *.
  assert (is_Some (nodes s1 !! x)) as Hs1 by (cbn [s1 nodes]; rewrite lookup_insert_eq; by eexists).
  assert (wp (push_front lruList x) s1 (fun _ s' => rep (<[lruList := x :: rev pre]> {[ lruList := rev pre ]}) s')) as Hw.
  { apply wp_list_push_front; [done|apply lookup_singleton_eq|done|done|]. cbn [length]. by rewrite length_rev. }
  apply wp_ok in Hw as ([] & s2 & E & Hr2). apply wp_ok. exists tt, s2. split; [done|].
  rewrite insert_singleton_eq in Hr2. rewrite rev_unit. split; [done|]. intros i Hi.
  apply (keeps_run (PushFront lruList x) s1 tt s2 E). apply elem_of_app in Hi as [Hi|Hi].
  - cbn [s1 nodes]. destruct (decide (i = x)) as [->|Hne]; [done|]. rewrite lookup_insert_ne by done. by apply Hk.
  - by apply list_elem_of_singleton in Hi as ->.
Qed.

Lemma make_ok n : Z.of_nat n < max32 -> exists a, make n = Ok a /\ follows n [] a.
Proof.
  intros Hc. unfold make.
  assert (wp (for_each new_entry (seq 0 n)) (mkStore ∅ {[ lruList := InList_new ]})
    (fun _ s => rep {[ lruList := rev (seq 0 n) ]} s /\ forall i, i ∈ seq 0 n -> is_Some (nodes s !! i))) as Hw.
  { apply (wp_for_each _ _ _ (fun pre s => rep {[ lruList := rev pre ]} s /\ forall i, i ∈ pre -> is_Some (nodes s !! i))).
    - split; [|by intros i Hi%elem_of_nil]. split.
      + split; cbn [nodes]; [intros l xs Hl; apply lookup_singleton_Some in Hl as [_ <-]; by apply NoDup_nil| |intros x y Hy; by rewrite lookup_empty in Hy].
        intros l k x k' Hl. apply lookup_singleton_Some in Hl as [_ Hl]. by destruct k.
      + intros l. cbn [lists]. destruct (decide (l = lruList)) as [->|Hne]; [by rewrite !lookup_singleton_eq|by rewrite !lookup_singleton_ne].
    - intros pre x rest s E [Hr Hk]. pose proof (NoDup_seq 0 n) as Hnd. rewrite E in Hnd. apply NoDup_app in Hnd as (_ & Hd & _).
      apply new_entry_ok; [intros Hin; apply (Hd x Hin); by left| |done|done].
      pose proof (f_equal length E) as El. rewrite length_seq, length_app in El. cbn in El.
      pose proof (count_small n Hc). lia. }
  apply wp_ok in Hw as ([] & s & E & Hr & Hk). rewrite E. eexists. split; [done|]. split; [done|].
  exists (rev (seq 0 n)). split; [split; cbn [store snd nodes numLines lineAddrs lineMap]|].
  - done.
  - intros i Hi. apply Hk, elem_of_seq. lia.
  - symmetry. apply Permutation_rev.
  - apply length_replicate.
  - done.
  - intros x i. rewrite lookup_empty. split; [done|]. intros [Hx Hi]. by apply lookup_replicate in Hi as [-> _].
  - unfold stack, tag_at. cbn [recency app lineAddrs]. rewrite take_ge by (by rewrite length_replicate).
    symmetry. apply replicate_as_Forall. split; [by rewrite length_map, length_rev, length_seq|]. apply Forall_map, Forall_forall.
    intros i Hi. rewrite list_elem_of_In, <- in_rev, <- list_elem_of_In, elem_of_seq in Hi. by rewrite lookup_total_replicate_2 by lia.
Qed.

Lemma run_follows n v req xs : (0 < n)%nat -> Forall (fun x => x <> 0) xs -> forall h a, follows n h a ->
  exists a', run v req xs a = Ok (hits n h xs, a').
Proof.
  intros Hn. induction 1 as [|x xs Hx _ IH]; intros h a Ha; [by exists a|]. cbn [run hits].
  destruct (access_follows n h v req x a Hn Hx Ha) as (a1 & E & H1). rewrite E. cbn [mbind outcome_bind].
  destruct (IH _ _ H1) as (a2 & E2). rewrite E2. by exists a2.
Qed.

(** C21: an ideal array of [n] lines, from its constructor on, serves any
    sequence of accesses to nonzero line addresses without a failed assertion
    or a null list end, and an access hits exactly when the line was accessed
    before and fewer than [n] other addresses have been accessed since: the
    linked list and the hash map together are a true LRU cache. *)
Theorem ideal_lru_reuse (n : nat) (v : CCView) (req : MemReq) (xs : list Z) :
  (0 < n)%nat -> Z.of_nat n < max32 -> Forall (fun x => x <> 0) xs ->
  exists a a', make n = Ok a /\ run v req xs a = Ok (hits n [] xs, a').
Proof.
  intros Hn Hc Hxs. destruct (make_ok n Hc) as (a & E & Ha).
  destruct (run_follows n v req xs Hn Hxs [] a Ha) as (a' & E'). by exists a, a'.
Qed.

Definition demo_req : MemReq := mkReq 0 GETS 0 DummyState 0 NoLock stI 0 0.
Definition demo_view : CCView := mkView (fun _ => 0) (fun _ => true) (fun _ _ => false).

Lemma ideal_lru_reuse_witness :
  exists a a', make 2 = Ok a /\ run demo_view demo_req [5; 6; 5; 7; 6; 7; 5] a =
    Ok ([false; false; true; false; false; true; false], a').
Proof.
  apply (ideal_lru_reuse 2 demo_view demo_req [5; 6; 5; 7; 6; 7; 5]); [lia|rewrite max32_eq; lia|by repeat constructor].
Defined.

(** The built array meets the contract. *)
Lemma make_wf n : (0 < n)%nat -> Z.of_nat n < max32 -> exists a, make n = Ok a /\ ca_wf false a.
Proof.
  intros Hn Hc. destruct (make_ok n Hc) as (a & E & Hl & o & H & _). exists a. split; [done|].
  split; [by rewrite Hl|by exists o].
Qed.

(** Line address 0: replacing a line that was never used erases the map entry of
    the cached line 0, whose next access misses with a line to spare. *)
Lemma ideal_zero_lost :
  (p ← make 3 ≫= run demo_view demo_req [0; 5; 0]; mret p.1) = Ok [false; false; false] /\
  hits 3 [] [0; 5; 0] = [false; false; true].
Proof. by vm_compute. Qed.

End IdealProps.
