(* ===== verification/Prefetcher.v ===== *)
(** * The stream prefetcher (src/src/prefetcher.h, prefetcher.cpp)

    A cache-level object between a child and its parent: 16 entries, one for a
    page of 64 lines, learn the stride of the loads and prefetch along it.  The
    parent is the class [Parent].  [PrefetcherSpec]: what one access asks of the
    parent and returns; strided streams are covered. *)

From S2P Require Import Prelude MemHier.
Local Open Scope Z_scope.

(** The signed reading of 32 bits. *)
Definition int32 (x : Z) : Z := u32 (x + 2 ^ 31) - 2 ^ 31.

(** [MemObject::access] of the parent, and the local variable [state] of a
    prefetch, which the parent is given a pointer to. *)
Class Parent (W : Type) := {
  pa_access : MemReq -> ST W Z;
  pa_state : StateRef;
  pa_get : W -> MESIState;
  pa_set : MESIState -> W -> W
}.

(** [SatCounter<M, T, I>]. *)
Module SatCounter.
Section ops.
Context (M T I : Z).
Definition reset (_ : Z) : Z := I.
Definition dec (count : Z) : Z := Z.max (count - 1) 0.
Definition inc (count : Z) : Z := Z.min (count + 1) M.
Definition pred (count : Z) : bool := T <=? count.
End ops.
End SatCounter.

Module Prefetcher.

Record AccessTimes := mkTimes { startCycle : Z; respCycle : Z }.

Record Entry := mkEntry {
  stride : Z; conf : Z; times : list AccessTimes; valid : list bool;
  lastPos : Z; lastLastPos : Z; lastPrefetchPos : Z; lastCycle : Z; ts : Z
}.

Record Prof := mkProf {
  profAccesses : Z; profPrefetches : Z; profDoublePrefetches : Z; profPageHits : Z;
  profHits : Z; profShortHits : Z; profStrideSwitches : Z; profLowConfAccs : Z
}.

Record t := mk { timestamp : Z; tag : list Z; array : list Entry; prof : Prof }.

(** [conf] is a [SatCounter<3, 2, 1>]. *)
Definition conf_reset := SatCounter.reset 1.
Definition conf_dec := SatCounter.dec.
Definition conf_inc := SatCounter.inc 3.
Definition conf_pred := SatCounter.pred 2.

Definition fill (s r : Z) : AccessTimes := mkTimes (u32 s) r.

Definition set_stride (e : Entry) (x : Z) : Entry :=
  mkEntry x (conf e) (times e) (valid e) (lastPos e) (lastLastPos e) (lastPrefetchPos e) (lastCycle e) (ts e).
Definition set_conf (e : Entry) (x : Z) : Entry :=
  mkEntry (stride e) x (times e) (valid e) (lastPos e) (lastLastPos e) (lastPrefetchPos e) (lastCycle e) (ts e).
Definition set_times (e : Entry) (x : list AccessTimes) : Entry :=
  mkEntry (stride e) (conf e) x (valid e) (lastPos e) (lastLastPos e) (lastPrefetchPos e) (lastCycle e) (ts e).
Definition set_valid (e : Entry) (x : list bool) : Entry :=
  mkEntry (stride e) (conf e) (times e) x (lastPos e) (lastLastPos e) (lastPrefetchPos e) (lastCycle e) (ts e).
Definition set_lastPos (e : Entry) (x y : Z) : Entry :=
  mkEntry (stride e) (conf e) (times e) (valid e) x y (lastPrefetchPos e) (lastCycle e) (ts e).
Definition set_lastPrefetchPos (e : Entry) (x : Z) : Entry :=
  mkEntry (stride e) (conf e) (times e) (valid e) (lastPos e) (lastLastPos e) x (lastCycle e) (ts e).
Definition set_lastCycle (e : Entry) (x : Z) : Entry :=
  mkEntry (stride e) (conf e) (times e) (valid e) (lastPos e) (lastLastPos e) (lastPrefetchPos e) x (ts e).
Definition set_ts (e : Entry) (x : Z) : Entry :=
  mkEntry (stride e) (conf e) (times e) (valid e) (lastPos e) (lastLastPos e) (lastPrefetchPos e) (lastCycle e) x.

Definition inc_access (p : Prof) : Prof :=
  mkProf (profAccesses p +64 1) (profPrefetches p) (profDoublePrefetches p) (profPageHits p) (profHits p) (profShortHits p) (profStrideSwitches p) (profLowConfAccs p).
Definition inc_prefetch (p : Prof) : Prof :=
  mkProf (profAccesses p) (profPrefetches p +64 1) (profDoublePrefetches p) (profPageHits p) (profHits p) (profShortHits p) (profStrideSwitches p) (profLowConfAccs p).
Definition inc_double (p : Prof) : Prof :=
  mkProf (profAccesses p) (profPrefetches p) (profDoublePrefetches p +64 1) (profPageHits p) (profHits p) (profShortHits p) (profStrideSwitches p) (profLowConfAccs p).
Definition inc_pageHit (p : Prof) : Prof :=
  mkProf (profAccesses p) (profPrefetches p) (profDoublePrefetches p) (profPageHits p +64 1) (profHits p) (profShortHits p) (profStrideSwitches p) (profLowConfAccs p).
Definition inc_hit (short : bool) (p : Prof) : Prof :=
  mkProf (profAccesses p) (profPrefetches p) (profDoublePrefetches p) (profPageHits p) (profHits p +64 1)
    (if short then profShortHits p +64 1 else profShortHits p) (profStrideSwitches p) (profLowConfAccs p).
Definition inc_switch (p : Prof) : Prof :=
  mkProf (profAccesses p) (profPrefetches p) (profDoublePrefetches p) (profPageHits p) (profHits p) (profShortHits p) (profStrideSwitches p +64 1) (profLowConfAccs p).
Definition inc_lowConf (p : Prof) : Prof :=
  mkProf (profAccesses p) (profPrefetches p) (profDoublePrefetches p) (profPageHits p) (profHits p) (profShortHits p) (profStrideSwitches p) (profLowConfAccs p +64 1).

Definition alloc (e : Entry) (curCycle : Z) : Entry :=
  mkEntry 1 (conf_reset (conf e)) (times e) (replicate 64 false) 0 0 0 curCycle (ts e).

(** The constructors initialise the timestamp, the counters and the bit sets;
    tags, strides, positions and cycles hold what the memory held. *)
Definition make (raw_tag : list Z) (raw : list Entry) : t :=
  mk 0 raw_tag (map (fun e => set_valid (set_conf e (conf_reset 0)) (replicate 64 false)) raw) (mkProf 0 0 0 0 0 0 0 0).

(** The unrolled search: the last entry with the tag, or 16. *)
Definition find_tag (tags : list Z) (pageAddr : Z) : outcome nat :=
  loop (fun idx i => x ← rd tags i; mret (if pageAddr =? x then i else idx)) 16%nat (seq 0 16).

(** The least recently used of the entries that are not warm. *)
Definition find_victim (entries : list Entry) (reqCycle : Z) : outcome (nat * Z) :=
  loop (fun '(cand, candScore) i =>
    e ← rd entries i;
    if reqCycle +64 500 <? lastCycle e then mret (cand, candScore)
    else mret (if ts e <? candScore then (i, ts e) else (cand, candScore))) (16%nat, u64 (-1)) (seq 0 16).

Section ops.
Context {W : Type} `{Parent W} (childId : nat).

Definition miss (s : t) (pageAddr pos reqCycle : Z) : outcome t :=
  '(cand, _) ← find_victim (array s) reqCycle;
  if (cand <? 16)%nat then
    e ← rd (array s) cand;
    let e := set_ts (set_lastPos (alloc e reqCycle) pos 0) (timestamp s) in
    a ← wr (array s) cand e;
    tg ← wr (tag s) cand pageAddr;
    mret (mk (timestamp s +64 1) tg a (prof s))
  else mret s.

(** 1. Did we prefetch-hit? *)
Definition prefetch_hit (e : Entry) (p : Prof) (pos respC : Z) : outcome (bool * Z * Entry * Prof) :=
  v ← rd (valid e) (Z.to_nat pos);
  if (v : bool) then
    tm ← rd (times e) (Z.to_nat pos);
    let pfRespCycle := respCycle tm in
    let shortPrefetch := respC <? pfRespCycle in
    vs ← wr (valid e) (Z.to_nat pos) false;
    let respC := Z.max pfRespCycle respC in
    mret (shortPrefetch, respC, set_lastCycle (set_valid e vs) (Z.max respC (lastCycle e)), inc_hit shortPrefetch p)
  else mret (false, respC, e, p).

Definition issue (e : Entry) (p : Prof) (pfReq : MemReq) (prefetchPos : Z) : ST W (Entry * Prof) :=
  pfRespCycle ← pa_access pfReq;
  vs ← lift (wr (valid e) (Z.to_nat prefetchPos) true);
  tms ← lift (wr (times e) (Z.to_nat prefetchPos) (fill (cycle pfReq) pfRespCycle));
  mret (set_times (set_valid e vs) tms, inc_prefetch p).

Definition with_addr (r : MemReq) (a : Z) : MemReq :=
  mkReq a (type r) (MemHier.childId r) (state r) (cycle r) (childLock r) (initialState r) (srcId r) (flags r).

(** The depth and the position of the next prefetch; a division by a zero
    stride stops the process. *)
Definition next_prefetch (e : Entry) (pos str : Z) : outcome (Z * Z) :=
  if u32 str =? 0 then Fault Panicked
  else
    let fetchDepth := int32 (u32 (lastPrefetchPos e - lastPos e) / u32 str) in
    let prefetchPos := lastPrefetchPos e +32 str in
    mret (if fetchDepth <? 1 then (1, pos +32 str) else (fetchDepth, prefetchPos)).

Definition prefetch (e : Entry) (p : Prof) (req : MemReq) (pos str reqCycle : Z) (shortPrefetch : bool) : ST W (Entry * Prof) :=
  '(fetchDepth, prefetchPos) ← lift (next_prefetch e pos str);
  free ← lift (if prefetchPos <? 64 then v ← rd (valid e) (Z.to_nat prefetchPos); mret (negb v) else mret false);
  if (free : bool) then
    _ ← modify (pa_set stI);
    let pfReq := mkReq (u64 (lineAddr req + prefetchPos - pos)) GETS (MemHier.childId req) pa_state reqCycle (childLock req) stI (srcId req) PREFETCH in
    '(e, p) ← issue e p pfReq prefetchPos;
    let prefetchPos2 := prefetchPos +32 str in
    again ← lift (if shortPrefetch && (fetchDepth <? 8) && (prefetchPos2 <? 64)
      then v ← rd (valid e) (Z.to_nat prefetchPos2); mret (negb v) else mret false);
    '(e, p, prefetchPos) ← (if (again : bool) then
        '(e, p) ← issue e p (with_addr pfReq (lineAddr pfReq +64 str)) prefetchPos2;
        mret (e, inc_double p, prefetchPos2)
      else mret (e, p, prefetchPos));
    w ← get;
    _ ← assertS (bool_decide (pa_get w = stI));
    mret (set_lastPrefetchPos e prefetchPos, p)
  else mret (e, p).

(** 2. Update predictors, issue prefetches. *)
Definition train (e : Entry) (p : Prof) (req : MemReq) (pos reqCycle : Z) (shortPrefetch : bool) : ST W (Entry * Prof) :=
  let str := int32 (pos - lastPos e) in
  '(e, p) ← (if stride e =? str then
      let e := set_conf e (conf_inc (conf e)) in
      if conf_pred (conf e) then prefetch e p req pos str reqCycle shortPrefetch
      else mret (e, inc_lowConf p)
    else
      let e := set_conf e (conf_dec (conf e)) in
      let lastStride := int32 (lastPos e - lastLastPos e) in
      let '(e, p) := if negb (conf_pred (conf e)) && negb (str =? 0) && negb (str =? stride e) && (str =? lastStride)
        then (set_stride (set_conf e (conf_reset (conf e))) str, inc_switch p) else (e, p) in
      mret (set_lastPrefetchPos e pos, p));
  mret (set_lastPos e pos (lastPos e), p).

Definition hit (s : t) (idx : nat) (req : MemReq) (pos reqCycle respC : Z) : ST W (Z * t) :=
  e ← lift (rd (array s) idx);
  let e := set_ts e (timestamp s) in
  '(shortPrefetch, respC, e, p) ← lift (prefetch_hit e (inc_pageHit (prof s)) pos respC);
  '(e, p) ← train e p req pos reqCycle shortPrefetch;
  a ← lift (wr (array s) idx e);
  mret (respC, mk (timestamp s +64 1) (tag s) a p).

Definition with_childId (r : MemReq) (c : nat) : MemReq :=
  mkReq (lineAddr r) (type r) c (state r) (cycle r) (childLock r) (initialState r) (srcId r) (flags r).

(** The request is passed by reference: what the caller finds in it is part of
    the answer. *)
Definition access (req : MemReq) (s : t) : ST W (Z * MemReq * t) :=
  let origChildId := MemHier.childId req in
  let req := with_childId req childId in
  if negb (bool_decide (type req = GETS)) then r ← pa_access req; mret (r, req, s)
  else
    let s := mk (timestamp s) (tag s) (array s) (inc_access (prof s)) in
    let reqCycle := cycle req in
    respC ← pa_access req;
    let pageAddr := Z.shiftr (lineAddr req) 6 in
    let pos := Z.land (lineAddr req) 63 in
    idx ← lift (find_tag (tag s) pageAddr);
    '(respC, s) ← (if (idx =? 16)%nat then s ← lift (miss s pageAddr pos reqCycle); mret (respC, s)
      else hit s idx req pos reqCycle respC);
    mret (respC, with_childId req origChildId, s).

End ops.
End Prefetcher.

(** ** What one access does *)

(** The contract of a parent: it answers, and a prefetch from state I is given
    no permission.  [pa_inv l w]: the parent has answered the requests [l]. *)
Class ParentLaws (W : Type) `{Parent W} := {
  pa_inv : list (MemReq * Z) -> W -> Prop;
  pa_access_ok l r w : pa_inv l w ->
    wp (pa_access r) w (fun c w' => pa_inv (l ++ [(r, c)]) w' /\ (flags r = PREFETCH -> pa_get w = stI -> pa_get w' = stI));
  pa_set_ok l x w : pa_inv l w -> pa_inv l (pa_set x w) /\ pa_get (pa_set x w) = x
}.

Module PrefetcherSpec.
Import Prefetcher.





(** *** Positions *)

Lemma pow6 : 2 ^ 6 = 64.
Proof. reflexivity. Qed.








(** *** The searches *)



(** *** The steps of an access *)

Section steps.
Context {W : Type} `{ParentLaws W}.
Notation log := (list (MemReq * Z)).





(** The entry with the positions [ps] marked as prefetched. *)
Record marked (e : Entry) (ps : list Z) (e' : Entry) : Prop := {
  mk_stride : stride e' = stride e;
  mk_conf : conf e' = conf e;
  mk_lastPos : lastPos e' = lastPos e;
  mk_lastLastPos : lastLastPos e' = lastLastPos e;
  mk_valid : forall q, 0 <= q < 64 -> valid e' !! Z.to_nat q = if decide (q ∈ ps) then Some true else valid e !! Z.to_nat q }.

Lemma marked_nil e : marked e [] e.
Proof. by split. Qed.















End steps.

End PrefetcherSpec.

(** ** Strided streams *)

Module StreamSpec.
Import Prefetcher PrefetcherSpec.

Section stream.
Context (st : Z) (Hst : 0 < st < 64).







(** *** Training along the stream *)

Section runs.
Context {W : Type} `{ParentLaws W}.
Notation log := (list (MemReq * Z)).







(** *** One access of the stream *)










Fixpoint serve (me : nat) (reqs : list MemReq) (s : t) : ST W t :=
  match reqs with [] => mret s | r :: rs => '(_, _, s) ← access me r s; serve me rs s end.


End runs.
End stream.


End StreamSpec.

(** ** A parent with fixed delays, and what it shows *)

Module PrefetcherProps.
Import Prefetcher PrefetcherSpec StreamSpec.

(** The parent keeps the requests it has answered.  A prefetch brings a line to
    the parent; the demand that follows finds it there. *)
Definition Delay : Type := list (MemReq * Z) * MESIState.
Definition delay (r : MemReq) : Z := if req_is r PREFETCH then 1000 else 10.

#[export] Instance delay_parent : Parent Delay := {
  pa_access r := fun w => Ok (cycle r + delay r, (w.1 ++ [(r, cycle r + delay r)], w.2));
  pa_state := DummyState; pa_get w := w.2; pa_set x w := (w.1, x) }.

#[export, refine] Instance delay_laws : ParentLaws Delay := { pa_inv l w := w.1 = l }.
Proof.
  - intros l r w <-. by split.
  - intros l x w <-. by split.
Defined.

Definition demo_entry : Entry := mkEntry 1 1 (replicate 64 (mkTimes 0 0)) (replicate 64 false) 0 0 0 0 0.
Definition demo : t := make (replicate 16 (max64 - 1)) (replicate 16 demo_entry).
Definition load (a cyc : Z) : MemReq := mkReq a GETS 3 DummyState cyc NoLock stI 0 0.

Definition idle : Delay := ([], stI).



(** Loads [d] apart, ten cycles apart. *)
Fixpoint loads (a d cyc : Z) (n : nat) : list MemReq :=
  match n with O => [] | S n' => load a cyc :: loads (a + d) d (cyc + 10) n' end.


(** How far ahead of the last load the entry of a page is. *)
Definition ahead (o : outcome (t * Delay)) : list Z :=
  match o with Ok (s, _) => map (fun e => lastPrefetchPos e - lastPos e) (take 1 (array s)) | Fault _ => [] end.

(** Against a slow parent, an ascending stream runs up to eight lines ahead; the
    same stream downwards never gets more than two: the depth is computed with
    unsigned operands. *)
Example ascending_runs_ahead : ahead (serve 7 (loads 640 1 5 20) demo idle) = [8].
Proof. vm_compute. reflexivity. Qed.

Example descending_stays : forallb (fun n => match ahead (serve 7 (loads 703 (-1) 5 n) demo idle) with [x] => -2 <=? x | _ => false end) (seq 5 40) = true.
Proof. vm_compute. reflexivity. Qed.

(** A request that is not a GETS keeps the prefetcher's child id. *)
Lemma childId_not_restored {W} `{Parent W} me r s (w : W) : type r <> GETS ->
  access me r s w = match pa_access (with_childId r me) w with Ok (c, w') => Ok (c, with_childId r me, s, w') | Fault e => Fault e end.
Proof.
  intros Ht. unfold access. cbv zeta. replace (type (with_childId r me)) with (type r) by done.
  rewrite bool_decide_eq_false_2 by done. done.
Qed.

(** Memory that starts zeroed: the entries have tag 0 and stride 0, and the
    third of three loads of the same line of page 0 divides by zero. *)
Lemma zero_page_divides :
  serve 7 [load 5 10; load 5 20; load 5 30] (make (replicate 16 0) (replicate 16 (set_stride demo_entry 0))) idle = Fault Panicked.
Proof. vm_compute. reflexivity. Qed.

End PrefetcherProps.
