(* ===== verification/DDRMem.v ===== *)
(** * The DDR3 memory controller (src/src/ddr_mem.h, ddr_mem.cpp)

    One channel: read and write queues over pools of request nodes, an overflow
    queue, the banks of every rank with their queues of requests in first-ready
    order, the activation windows of the ranks, and the events that tick the
    controller.  Requests are named by their node in their pool; an intrusive list
    is the sequence of its nodes (IntrusiveList shows that the pointers refine
    that), so that [!req->prev] is being the head of one's bank list.  The events
    of the contention simulation the controller touches are in its state: the
    scheduling events ever allocated, with the cycle each is queued for, and the
    accesses handed to it.  [trace] logs, latest first, what leaves the controller:
    the column commands with the activation each needed, the refreshes, and the
    completions. *)

From Stdlib Require Import Ascii.
From S2P Require Import Prelude Floats MemHier MTRand ReplPolicies CacheArrays TimingEvent World Memory.
Local Open Scope Z_scope.

(** ** The window of activations *)

Module ActWindow.

Record t := mk { buf : list Z; idx : nat }.

Definition init (size : nat) : t := mk (replicate size 0) 0.
#[export] Instance inhabited : Inhabited t := populate (init 0).

Section ops.
Variable size : nat.

Definition inc (i : nat) : nat := if bool_decide (i < size - 1)%nat then S i else 0%nat.
Definition dec (i : nat) : nat := match i with O => (size - 1)%nat | S j => j end.

(** The [while] of [addActivation], which ends with the place for the new cycle. *)
Fixpoint shift (fuel : nat) (b : list Z) (idx cur : nat) (actCycle : Z) : outcome (list Z * nat) :=
  p ← rd b (dec cur);
  if actCycle <? p then
    match fuel with
    | O => Fault OutOfFuel
    | S fuel =>
        b ← wr b cur p;
        if bool_decide (dec cur = idx) then mret (b, dec cur) else shift fuel b idx (dec cur) actCycle
    end
  else mret (b, cur).
End ops.

Definition minActCycle (w : t) : outcome Z := rd (buf w) (idx w).

Definition addActivation (w : t) (actCycle : Z) : outcome t :=
  m ← minActCycle w;
  _ ← check (m <=? actCycle);
  let size := length (buf w) in
  '(b, cur) ← shift size size (buf w) (idx w) (idx w) actCycle;
  b ← wr b cur actCycle;
  mret (mk b (inc size (idx w))).

End ActWindow.

(** ** Requests and queues *)

Record AddrLoc := mkLoc { row : Z; bank : nat; rank : nat; col : Z }.

(** [q_ev]: the access to answer, null once a write has been answered. *)
Record Request := mkRequest {
  q_addr : Z; q_loc : AddrLoc; q_write : bool; rowHitSeq : Z;
  arrivalCycle : Z; startSysCycle : Z; q_ev : option nat
}.

Definition set_q_ev (r : Request) e := mkRequest (q_addr r) (q_loc r) (q_write r) (rowHitSeq r) (arrivalCycle r) (startSysCycle r) e.
Definition set_arrival (r : Request) x := mkRequest (q_addr r) (q_loc r) (q_write r) (rowHitSeq r) x (startSysCycle r) (q_ev r).
Definition set_rowHitSeq (r : Request) x := mkRequest (q_addr r) (q_loc r) (q_write r) x (arrivalCycle r) (startSysCycle r) (q_ev r).

(** A zeroed node. *)
Definition request0 : Request := mkRequest 0 (mkLoc 0 0 0 0) false 0 0 0 None.
#[export] Instance Request_inhabited : Inhabited Request := populate request0.

Module RequestQueue.

(** The nodes' elements, the requests in order of arrival, the free nodes. *)
Record t := mk { elems : list Request; reqList : list nat; freeList : list nat }.

Definition init (size : nat) : t := mk (replicate size request0) [] (seq 0 size).
Definition empty (q : t) : bool := bool_decide (reqList q = []).
Definition full (q : t) : bool := bool_decide (freeList q = []).
Definition size (q : t) : Z := Z.of_nat (length (reqList q)).

Definition alloc (q : t) : outcome (nat * t) :=
  _ ← check (negb (full q));
  match last (freeList q) with
  | Some n => mret (n, mk (elems q) (reqList q ++ [n]) (removelast (freeList q)))
  | None => Fault OutOfRange
  end.

Definition remove (q : t) (n : nat) : t :=
  mk (elems q) (filter (fun x => x <> n) (reqList q)) (freeList q ++ [n]).

Definition set (q : t) (n : nat) (r : Request) : outcome t :=
  l ← wr (elems q) n r; mret (mk l (reqList q) (freeList q)).

End RequestQueue.

(** ** The controller *)

Module DDRMemory.

Record Bank := mkBank {
  openRow : Z; open : bool;
  minPreCycle : Z; lastActCycle : Z; lastCmdCycle : Z;
  curRowHits : Z;
  rdReqs : list nat; wrReqs : list nat
}.

Definition bank0 : Bank := mkBank 0 false 0 0 0 0 [] [].
#[export] Instance Bank_inhabited : Inhabited Bank := populate bank0.

(** What the constructor fixes. *)
Record Conf := mkConf {
  lineSize : Z; ranksPerChannel : nat; banksPerRank : nat;
  controllerSysLatency : Z; queueDepth : Z; rowHitLimit : Z; deferredWrites : bool; closedPage : bool;
  tBL : Z; tCL : Z; tRCD : Z; tRTP : Z; tRP : Z; tRRD : Z; tRAS : Z; tFAW : Z; tWTR : Z; tWR : Z; tRFC : Z; tREFI : Z;
  colShift : Z; colMask : Z; rankShift : Z; rankMask : Z; bankShift : Z; bankMask : Z; rowShift : Z;
  minRdLatency : Z; minWrLatency : Z; preDelay : Z; postDelayRd : Z; postDelayWr : Z;
  sysFreqKHz : Z; memFreqKHz : Z
}.

Record Prof := mkProf {
  profReads : Z; profWrites : Z; profTotalRdLat : Z; profTotalWrLat : Z;
  profReadHits : Z; profWriteHits : Z; latencyHist : list Z
}.
Definition BINSIZE : Z := 10.
Definition NUMBINS : Z := 100.

(** [SchedEvent::State]; a scheduling event with its state as a timing event and
    the cycle it is queued for, and an access. *)
Inductive SState := IDLE | QUEUED | RUNNING | ANNULLED.
#[export] Instance SState_eq_dec : EqDecision SState.
Proof. solve_decision. Defined.

Record SchedEvent := mkSched { sched_state : SState; sched_timing : EventState; queuedFor : Z; sched_next : option nat }.
Record AccEvent := mkAcc { acc_addr : Z; acc_write : bool; acc_timing : EventState }.

(** The log. [act]: the cycle of the activation a command needed, [cas] the
    command's own. *)
Inductive Out :=
  | Arrived (ev : nat) (cycle : Z)
  | Command (rank bank : nat) (row : Z) (write : bool) (act : option Z) (cas : Z)
  | Refreshed (start done : Z)
  | Done (ev : nat) (cycle : Z).

Record DDR := mkDDR {
  minRespCycle : Z; lastCmdWasWrite : bool;
  rdQueue : RequestQueue.t; wrQueue : RequestQueue.t; overflowQueue : list Request;
  banks : list (list Bank); rankActWindows : list ActWindow.t;
  nextSchedEvent : option nat; nextSchedCycle : Z; eventFreelist : option nat;
  prof : Prof;
  schedEvents : list SchedEvent; accEvents : gmap nat AccEvent; trace : list Out
}.

Definition set_minRespCycle (s : DDR) x : DDR :=
  mkDDR x (lastCmdWasWrite s) (rdQueue s) (wrQueue s) (overflowQueue s) (banks s) (rankActWindows s) (nextSchedEvent s) (nextSchedCycle s) (eventFreelist s) (prof s) (schedEvents s) (accEvents s) (trace s).
Definition set_lastCmdWasWrite (s : DDR) x : DDR :=
  mkDDR (minRespCycle s) x (rdQueue s) (wrQueue s) (overflowQueue s) (banks s) (rankActWindows s) (nextSchedEvent s) (nextSchedCycle s) (eventFreelist s) (prof s) (schedEvents s) (accEvents s) (trace s).
Definition set_rdQueue (s : DDR) x : DDR :=
  mkDDR (minRespCycle s) (lastCmdWasWrite s) x (wrQueue s) (overflowQueue s) (banks s) (rankActWindows s) (nextSchedEvent s) (nextSchedCycle s) (eventFreelist s) (prof s) (schedEvents s) (accEvents s) (trace s).
Definition set_wrQueue (s : DDR) x : DDR :=
  mkDDR (minRespCycle s) (lastCmdWasWrite s) (rdQueue s) x (overflowQueue s) (banks s) (rankActWindows s) (nextSchedEvent s) (nextSchedCycle s) (eventFreelist s) (prof s) (schedEvents s) (accEvents s) (trace s).
Definition set_overflowQueue (s : DDR) x : DDR :=
  mkDDR (minRespCycle s) (lastCmdWasWrite s) (rdQueue s) (wrQueue s) x (banks s) (rankActWindows s) (nextSchedEvent s) (nextSchedCycle s) (eventFreelist s) (prof s) (schedEvents s) (accEvents s) (trace s).
Definition set_banks (s : DDR) x : DDR :=
  mkDDR (minRespCycle s) (lastCmdWasWrite s) (rdQueue s) (wrQueue s) (overflowQueue s) x (rankActWindows s) (nextSchedEvent s) (nextSchedCycle s) (eventFreelist s) (prof s) (schedEvents s) (accEvents s) (trace s).
Definition set_rankActWindows (s : DDR) x : DDR :=
  mkDDR (minRespCycle s) (lastCmdWasWrite s) (rdQueue s) (wrQueue s) (overflowQueue s) (banks s) x (nextSchedEvent s) (nextSchedCycle s) (eventFreelist s) (prof s) (schedEvents s) (accEvents s) (trace s).
Definition set_nextSchedEvent (s : DDR) x : DDR :=
  mkDDR (minRespCycle s) (lastCmdWasWrite s) (rdQueue s) (wrQueue s) (overflowQueue s) (banks s) (rankActWindows s) x (nextSchedCycle s) (eventFreelist s) (prof s) (schedEvents s) (accEvents s) (trace s).
Definition set_nextSchedCycle (s : DDR) x : DDR :=
  mkDDR (minRespCycle s) (lastCmdWasWrite s) (rdQueue s) (wrQueue s) (overflowQueue s) (banks s) (rankActWindows s) (nextSchedEvent s) x (eventFreelist s) (prof s) (schedEvents s) (accEvents s) (trace s).
Definition set_eventFreelist (s : DDR) x : DDR :=
  mkDDR (minRespCycle s) (lastCmdWasWrite s) (rdQueue s) (wrQueue s) (overflowQueue s) (banks s) (rankActWindows s) (nextSchedEvent s) (nextSchedCycle s) x (prof s) (schedEvents s) (accEvents s) (trace s).
Definition set_prof (s : DDR) x : DDR :=
  mkDDR (minRespCycle s) (lastCmdWasWrite s) (rdQueue s) (wrQueue s) (overflowQueue s) (banks s) (rankActWindows s) (nextSchedEvent s) (nextSchedCycle s) (eventFreelist s) x (schedEvents s) (accEvents s) (trace s).
Definition set_schedEvents (s : DDR) x : DDR :=
  mkDDR (minRespCycle s) (lastCmdWasWrite s) (rdQueue s) (wrQueue s) (overflowQueue s) (banks s) (rankActWindows s) (nextSchedEvent s) (nextSchedCycle s) (eventFreelist s) (prof s) x (accEvents s) (trace s).
Definition set_accEvents (s : DDR) x : DDR :=
  mkDDR (minRespCycle s) (lastCmdWasWrite s) (rdQueue s) (wrQueue s) (overflowQueue s) (banks s) (rankActWindows s) (nextSchedEvent s) (nextSchedCycle s) (eventFreelist s) (prof s) (schedEvents s) x (trace s).
Definition set_trace (s : DDR) x : DDR :=
  mkDDR (minRespCycle s) (lastCmdWasWrite s) (rdQueue s) (wrQueue s) (overflowQueue s) (banks s) (rankActWindows s) (nextSchedEvent s) (nextSchedCycle s) (eventFreelist s) (prof s) (schedEvents s) (accEvents s) x.

Definition neg1 : Z := max64 - 1. (* -1ul *)

(** *** Parts of the state *)

(** The queue of a kind of request, and a bank's list for it. *)
Definition the_queue (w : bool) (s : DDR) : RequestQueue.t := if w then wrQueue s else rdQueue s.
Definition set_the_queue (w : bool) (s : DDR) (q : RequestQueue.t) : DDR := if w then set_wrQueue s q else set_rdQueue s q.
Definition bank_reqs (w : bool) (b : Bank) : list nat := if w then wrReqs b else rdReqs b.
Definition set_reqs (w : bool) (b : Bank) (l : list nat) : Bank :=
  mkBank (openRow b) (open b) (minPreCycle b) (lastActCycle b) (lastCmdCycle b) (curRowHits b)
         (if w then rdReqs b else l) (if w then l else wrReqs b).

Definition bank_get (l : AddrLoc) : ST DDR Bank := s ← get; bs ← lift (rd (banks s) (rank l)); lift (rd bs (bank l)).
Definition bank_put (l : AddrLoc) (b : Bank) : ST DDR unit :=
  s ← get; bs ← lift (rd (banks s) (rank l)); bs ← lift (wr bs (bank l) b); bss ← lift (wr (banks s) (rank l) bs);
  put (set_banks s bss).

Definition req_get (w : bool) (n : nat) : ST DDR Request := s ← get; lift (rd (RequestQueue.elems (the_queue w s)) n).
Definition req_put (w : bool) (n : nat) (r : Request) : ST DDR unit :=
  s ← get; q ← lift (RequestQueue.set (the_queue w s) n r); put (set_the_queue w s q).
Definition req_alloc (w : bool) : ST DDR nat :=
  s ← get; '(n, q) ← lift (RequestQueue.alloc (the_queue w s)); _ ← put (set_the_queue w s q); mret n.

(** [!req->prev]: first in its bank's list. *)
Definition first_in_bank (w : bool) (n : nat) : ST DDR bool :=
  r ← req_get w n; b ← bank_get (q_loc r); mret (bool_decide (head (bank_reqs w b) = Some n)).

Definition log (o : Out) : ST DDR unit := modify (fun s => set_trace s (o :: trace s)).

(** [hold], [release] and [done] of an access. *)
Definition acc_get (ev : nat) : ST DDR AccEvent :=
  s ← get; match accEvents s !! ev with Some a => mret a | None => throw OutOfRange end.
Definition acc_move (ev : nat) (a b : EventState) : ST DDR unit :=
  e ← acc_get ev;
  _ ← assertS (bool_decide (acc_timing e = a));
  modify (fun s => set_accEvents s (<[ev := mkAcc (acc_addr e) (acc_write e) b]> (accEvents s))).
Definition acc_hold (ev : nat) : ST DDR unit := acc_move ev EV_RUNNING EV_HELD.
Definition acc_release (ev : nat) : ST DDR unit := acc_move ev EV_HELD EV_RUNNING.
Definition acc_done (ev : nat) (doneCycle : Z) : ST DDR unit := _ ← acc_move ev EV_RUNNING EV_DONE; log (Done ev doneCycle).

(** A pointer that must not be null. *)
Definition deref {A} (p : option A) : ST DDR A := match p with Some x => mret x | None => throw OutOfRange end.

(** *** Scheduling events *)

Definition sched_get (e : nat) : ST DDR SchedEvent := s ← get; lift (rd (schedEvents s) e).
Definition sched_put (e : nat) (x : SchedEvent) : ST DDR unit :=
  s ← get; l ← lift (wr (schedEvents s) e x); put (set_schedEvents s l).
Definition sched_set (e : nat) (st : SState) : ST DDR unit :=
  x ← sched_get e; sched_put e (mkSched st (sched_timing x) (queuedFor x) (sched_next x)).
Definition sched_set_next (e : nat) (nx : option nat) : ST DDR unit :=
  x ← sched_get e; sched_put e (mkSched (sched_state x) (sched_timing x) (queuedFor x) nx).

(** [TimingEvent::hold] and [requeue]. *)
Definition sched_hold (e : nat) : ST DDR unit :=
  x ← sched_get e;
  _ ← assertS (bool_decide (sched_timing x = EV_RUNNING));
  sched_put e (mkSched (sched_state x) EV_HELD (queuedFor x) (sched_next x)).
Definition sched_requeue (e : nat) (cycle : Z) : ST DDR unit :=
  x ← sched_get e;
  _ ← assertS (bool_decide (sched_timing x = EV_RUNNING) || bool_decide (sched_timing x = EV_HELD));
  sched_put e (mkSched (sched_state x) EV_QUEUED cycle (sched_next x)).

(** [new SchedEvent]: made running, then held. *)
Definition sched_new : ST DDR nat :=
  s ← get; _ ← put (set_schedEvents s (schedEvents s ++ [mkSched IDLE EV_HELD 0 None])); mret (length (schedEvents s)).

Definition sched_enqueue (e : nat) (cycle : Z) : ST DDR unit :=
  x ← sched_get e;
  _ ← assertS (bool_decide (sched_state x = IDLE));
  _ ← sched_set e QUEUED;
  sched_requeue e cycle.

Definition annul (e : nat) : ST DDR unit :=
  x ← sched_get e;
  _ ← assertS (bool_decide (sched_state x = QUEUED));
  sched_set e ANNULLED.

Definition recycleEvent (ev : nat) : ST DDR unit :=
  s ← get;
  _ ← assertS (negb (bool_decide (nextSchedEvent s = Some ev)));
  x ← sched_get ev;
  _ ← assertS (bool_decide (sched_next x = None));
  _ ← sched_set_next ev (eventFreelist s);
  modify (fun s => set_eventFreelist s (Some ev)).

Section controller.
Variable c : Conf.

(** *** Clock domains *)

Definition sysToMemCycle (sysCycle : Z) : Z := u64 (sysCycle * memFreqKHz c) / sysFreqKHz c +64 1.
Definition memToSysCycle (memCycle : Z) : Z := u64 ((memCycle +64 1) * sysFreqKHz c) / memFreqKHz c.
Definition matchingMemToSysCycle (memCycle : Z) : Z := u64 (u64 (2 * memCycle - 1) * sysFreqKHz c) / memFreqKHz c / 2.

(** *** Queueing *)

Definition mapLineAddr (lineAddr : Z) : outcome AddrLoc :=
  let l := mkLoc (Z.shiftr lineAddr (rowShift c))
                 (Z.to_nat (Z.land (Z.shiftr lineAddr (bankShift c)) (bankMask c)))
                 (Z.to_nat (Z.land (Z.shiftr lineAddr (rankShift c)) (rankMask c)))
                 (Z.land (Z.shiftr lineAddr (colShift c)) (colMask c)) in
  _ ← check (bool_decide (rank l < ranksPerChannel c)%nat);
  _ ← check (bool_decide (bank l < banksPerRank c)%nat);
  mret l.

(** The latest request of a row in a bank's list: the [while (m)] of [queue],
    given the list from its back. *)
Fixpoint last_same_row (w : bool) (rw : Z) (rev_q : list nat) : ST DDR (option nat) :=
  match rev_q with
  | [] => mret None
  | m :: rest =>
      r ← req_get w m;
      if row (q_loc r) =? rw then mret (Some m) else last_same_row w rw rest
  end.

(** [InList::insertAfter]. *)
Fixpoint insertAfter (m n : nat) (l : list nat) : list nat :=
  match l with [] => [] | x :: l => if bool_decide (x = m) then x :: n :: l else x :: insertAfter m n l end.

(** A write is answered at once. *)
Definition answer_write (w : bool) (n : nat) (memCycle : Z) : ST DDR unit :=
  r ← req_get w n;
  whenS (q_write r) (
    ev ← deref (q_ev r);
    _ ← req_put w n (set_q_ev r None);
    _ ← acc_release ev;
    acc_done ev (memToSysCycle memCycle +64 minWrLatency c -64 preDelay c -64 postDelayWr c)).

(** The place in the bank's list, in first-ready order, with at most
    [rowHitLimit] hits of a row put before other requests. *)
Definition place (w : bool) (n : nat) : ST DDR unit :=
  r ← req_get w n;
  b ← bank_get (q_loc r);
  let q := bank_reqs w b in
  m ← last_same_row w (row (q_loc r)) (rev q);
  match m with
  | Some m =>
      rm ← req_get w m;
      if rowHitSeq rm <? rowHitLimit c then
        _ ← req_put w n (set_rowHitSeq r (rowHitSeq rm +64 1));
        bank_put (q_loc r) (set_reqs w b (insertAfter m n q))
      else
        _ ← req_put w n (set_rowHitSeq r 0);
        bank_put (q_loc r) (set_reqs w b (q ++ [n]))
  | None =>
      if open b && (row (q_loc r) =? openRow b) && (curRowHits b <? rowHitLimit c) && bool_decide (q = []) then
        _ ← req_put w n (set_rowHitSeq r (curRowHits b +64 1));
        bank_put (q_loc r) (set_reqs w b (n :: q))
      else
        _ ← req_put w n (set_rowHitSeq r 0);
        bank_put (q_loc r) (set_reqs w b (q ++ [n]))
  end.

Definition queue (w : bool) (n : nat) (memCycle : Z) : ST DDR unit :=
  _ ← answer_write w n memCycle;
  r ← req_get w n;
  _ ← req_put w n (set_arrival r memCycle);
  place w n.

(** *** Timing *)

(** The precharge and activation cycles of a request that misses the row buffer. *)
Definition pre_cycle (r : Request) (b : Bank) : outcome Z :=
  if negb (open b) then mret (minPreCycle b)
  else _ ← check (negb (row (q_loc r) =? openRow b)); mret (Z.max (arrivalCycle r) (minPreCycle b)).

Definition act_cycle (r : Request) (b : Bank) (preCycle minAct : Z) : Z :=
  Z.max (Z.max (arrivalCycle r) (Z.max (preCycle +64 tRP c) (lastActCycle b +64 tRRD c))) (minAct +64 tFAW c).

Definition row_hit (r : Request) (b : Bank) : bool := (row (q_loc r) =? openRow b) && open b.

Definition win_get (l : AddrLoc) : ST DDR ActWindow.t := s ← get; lift (rd (rankActWindows s) (rank l)).

Definition findMinCmdCycle (r : Request) : ST DDR Z :=
  b ← bank_get (q_loc r);
  if row_hit r b then mret (Z.max (arrivalCycle r) (lastCmdCycle b +64 1))
  else
    preCycle ← lift (pre_cycle r b);
    w ← win_get (q_loc r);
    minAct ← lift (ActWindow.minActCycle w);
    mret (act_cycle r b preCycle minAct +64 tRCD c).

(** The queue's first request that can issue now, with the least cycle seen. *)
Fixpoint scan (w : bool) (curCycle : Z) (l : list nat) (minSchedCycle : Z) : ST DDR (Z * option nat) :=
  match l with
  | [] => mret (minSchedCycle, None)
  | n :: rest =>
      first ← first_in_bank w n;
      if first : bool then
        r ← req_get w n;
        minCmdCycle ← findMinCmdCycle r;
        if minCmdCycle <=? curCycle then mret (Z.min minSchedCycle minCmdCycle, Some n)
        else scan w curCycle rest (Z.min minSchedCycle minCmdCycle)
      else scan w curCycle rest minSchedCycle
  end.

(** *** Issue *)

(** The activation, when the row buffer does not hold the row. *)
Definition activate (r : Request) (minCmdCycle : Z) : ST DDR (Z * option Z) :=
  b ← bank_get (q_loc r);
  if row_hit r b then mret (minCmdCycle, None)
  else
    preCycle ← lift (pre_cycle r b);
    w ← win_get (q_loc r);
    minAct ← lift (ActWindow.minActCycle w);
    let actCycle := act_cycle r b preCycle minAct in
    w' ← lift (ActWindow.addActivation w actCycle);
    _ ← bank_put (q_loc r) (mkBank (row (q_loc r)) true
          (if open b then preCycle +64 tRAS c else minPreCycle b) actCycle (lastCmdCycle b) (curRowHits b) (rdReqs b) (wrReqs b));
    s ← get;
    ws ← lift (wr (rankActWindows s) (rank (q_loc r)) w');
    _ ← put (set_rankActWindows s ws);
    mret (Z.max minCmdCycle (actCycle +64 tRCD c), Some actCycle).

(** The request after the first in its bank's list hits the row too. *)
Definition next_hits (w : bool) (l : list nat) : ST DDR bool :=
  match l with
  | _ :: n :: _ => r ← req_get w n; mret (negb (rowHitSeq r =? 0))
  | _ => mret false
  end.

(** The column command, and the precharge it allows. *)
Definition column (w : bool) (r : Request) (minCmdCycle : Z) : ST DDR Z :=
  s ← get;
  let cmdCycle := Z.max minCmdCycle (minRespCycle s -64 tCL c) in
  let resp := cmdCycle +64 tCL c +64 tBL c in
  _ ← put (set_lastCmdWasWrite (set_minRespCycle s resp) (q_write r));
  b ← bank_get (q_loc r);
  nh ← next_hits w (bank_reqs w b);
  let open' := if closedPage c && negb nh then false else open b in
  let pre := Z.max (minPreCycle b) (Z.max (lastActCycle b +64 tRAS c)
               (if q_write r then resp +64 tWR c else cmdCycle +64 tRTP c)) in
  _ ← assertS (lastCmdCycle b <? cmdCycle);
  _ ← bank_put (q_loc r) (mkBank (openRow b) open' pre (lastActCycle b) cmdCycle (rowHitSeq r) (rdReqs b) (wrReqs b));
  mret cmdCycle.

Definition prof_rd (p : Prof) (lat : Z) (hit : bool) (hist : list Z) : Prof :=
  mkProf (profReads p +64 1) (profWrites p) (profTotalRdLat p +64 lat) (profTotalWrLat p)
         (if hit then profReadHits p +64 1 else profReadHits p) (profWriteHits p) hist.
Definition prof_wr (p : Prof) (lat : Z) (hit : bool) : Prof :=
  mkProf (profReads p) (profWrites p +64 1) (profTotalRdLat p) (profTotalWrLat p +64 lat)
         (profReadHits p) (if hit then profWriteHits p +64 1 else profWriteHits p) (latencyHist p).

Definition respond (r : Request) (hit : bool) (sysCycle : Z) : ST DDR unit :=
  s ← get;
  let doneSysCycle := memToSysCycle (minRespCycle s) +64 controllerSysLatency c in
  let scDelay := u32 (doneSysCycle -64 startSysCycle r) in
  match q_ev r with
  | Some ev =>
      a ← acc_get ev;
      _ ← assertS (negb (acc_write a) && negb (q_write r));
      _ ← assertS (sysCycle <=? doneSysCycle);
      _ ← acc_release ev;
      _ ← acc_done ev (doneSysCycle -64 preDelay c -64 postDelayRd c);
      s ← get;
      hist ← lift (upd (latencyHist (prof s)) (Z.to_nat (Z.min (NUMBINS - 1) (scDelay / BINSIZE))) (fun x => x +64 1));
      put (set_prof s (prof_rd (prof s) scDelay hit hist))
  | None => put (set_prof s (prof_wr (prof s) scDelay hit))
  end.

(** The request leaves its queue and its bank's list. *)
Definition dequeue (w : bool) (n : nat) (l : AddrLoc) : ST DDR unit :=
  s ← get;
  _ ← put (set_the_queue w s (RequestQueue.remove (the_queue w s) n));
  b ← bank_get l;
  bank_put l (set_reqs w b (tail (bank_reqs w b))).

(** [trySchedule] from the ready request on. *)
Definition issue (w : bool) (n : nat) (curCycle sysCycle : Z) : ST DDR Z :=
  s ← get;
  r ← req_get w n;
  let minCmdCycle := Z.max curCycle (minRespCycle s -64 tCL c) in
  let minCmdCycle := if lastCmdWasWrite s && negb (q_write r) then Z.max minCmdCycle (minRespCycle s +64 tWTR c) else minCmdCycle in
  '(minCmdCycle, act) ← activate r minCmdCycle;
  cmdCycle ← column w r minCmdCycle;
  _ ← log (Command (rank (q_loc r)) (bank (q_loc r)) (row (q_loc r)) (q_write r) act cmdCycle);
  _ ← respond r (bool_decide (act = None)) sysCycle;
  _ ← dequeue w n (q_loc r);
  s ← get;
  mret (if RequestQueue.empty (rdQueue s) && RequestQueue.empty (wrQueue s) then neg1 else minRespCycle s -64 tCL c).

(** Writes go first when there are no reads, or while their queue is long. *)
Definition write_turn (s : DDR) : bool :=
  let size := RequestQueue.size (wrQueue s) in
  RequestQueue.empty (rdQueue s) || (u32 (3 * queueDepth c) / 4 <? size) || (lastCmdWasWrite s && (queueDepth c / 4 <? size)).

Definition trySchedule (curCycle sysCycle : Z) : ST DDR Z :=
  s ← get;
  if RequestQueue.empty (rdQueue s) && RequestQueue.empty (wrQueue s) then mret neg1
  else if curCycle +64 tCL c <? minRespCycle s then mret (minRespCycle s -64 tCL c)
  else
    let w := write_turn s in
    _ ← assertS (negb (RequestQueue.empty (the_queue w s)));
    '(minSchedCycle, ir) ← scan w curCycle (RequestQueue.reqList (the_queue w s)) neg1;
    match ir with
    | None => mret minSchedCycle
    | Some n => issue w n curCycle sysCycle
    end.

(** *** The handlers *)

Definition use_wr (write : bool) : bool := deferredWrites c && write.

(** A scheduling event for a request first in its bank, if it can issue before
    the one there is. *)
Definition schedule_earlier (r : Request) (memCycle sysCycle : Z) : ST DDR unit :=
  s ← get;
  let m := Z.max memCycle (minRespCycle s -64 tCL c -64 tBL c) in
  m ← (if m <? nextSchedCycle s then f ← findMinCmdCycle r; mret (Z.max m f) else mret m);
  whenS (m <? nextSchedCycle s) (
    _ ← match nextSchedEvent s with Some e => annul e | None => mret tt end;
    s ← get;
    e ← match eventFreelist s with
        | Some e =>
            x ← sched_get e;
            _ ← modify (fun s => set_eventFreelist s (sched_next x));
            _ ← sched_set_next e None;
            mret e
        | None => sched_new
        end;
    _ ← modify (fun s => set_nextSchedEvent s (Some e));
    _ ← sched_enqueue e (Z.max (matchingMemToSysCycle m) sysCycle);
    modify (fun s => set_nextSchedCycle s m)).

Definition enqueue (ev : nat) (sysCycle : Z) : ST DDR unit :=
  let memCycle := sysToMemCycle sysCycle in
  a ← acc_get ev;
  s ← get;
  let overflow := RequestQueue.full (rdQueue s) || RequestQueue.full (wrQueue s) in
  let w := use_wr (acc_write a) in
  if overflow then
    loc ← lift (mapLineAddr (acc_addr a));
    _ ← acc_hold ev;
    modify (fun s => set_overflowQueue s (overflowQueue s ++ [mkRequest (acc_addr a) loc (acc_write a) 0 memCycle sysCycle (Some ev)]))
  else
    n ← req_alloc w;
    r ← req_get w n;
    loc ← lift (mapLineAddr (acc_addr a));
    _ ← req_put w n (mkRequest (acc_addr a) loc (acc_write a) (rowHitSeq r) memCycle sysCycle (Some ev));
    _ ← acc_hold ev;
    _ ← queue w n memCycle;
    first ← first_in_bank w n;
    whenS first (r ← req_get w n; schedule_earlier r memCycle sysCycle).

Definition admit_overflow (memCycle minSchedCycle : Z) : ST DDR Z :=
  s ← get;
  match overflowQueue s with
  | ovfReq :: rest =>
      if negb (RequestQueue.full (rdQueue s)) && negb (RequestQueue.full (wrQueue s)) then
        let w := use_wr (q_write ovfReq) in
        n ← req_alloc w;
        _ ← req_put w n ovfReq;
        _ ← modify (fun s => set_overflowQueue s rest);
        _ ← queue w n memCycle;
        first ← first_in_bank w n;
        if first : bool then
          s ← get;
          let minQueuedSchedCycle := Z.max memCycle (minRespCycle s -64 tCL c -64 tBL c) in
          m ← (if minQueuedSchedCycle <? minSchedCycle
               then r ← req_get w n; f ← findMinCmdCycle r; mret (Z.max minQueuedSchedCycle f) else mret minSchedCycle);
          mret (if minQueuedSchedCycle <? m then minQueuedSchedCycle else m)
        else mret minSchedCycle
      else mret minSchedCycle
  | [] => mret minSchedCycle
  end.

Definition tick (sysCycle : Z) : ST DDR Z :=
  let memCycle := sysToMemCycle sysCycle in
  s ← get;
  _ ← assertS (memCycle =? nextSchedCycle s);
  m ← trySchedule memCycle sysCycle;
  _ ← assertS (memCycle <=? m);
  m ← admit_overflow memCycle m;
  _ ← modify (fun s => set_nextSchedCycle s m);
  if m =? neg1 then _ ← modify (fun s => set_nextSchedEvent s None); mret 0
  else mret (Z.max (matchingMemToSysCycle m) sysCycle).

(** Over every bank: the latest of [x] and the banks' cycles, and the closing. *)
Definition refresh_start (s : DDR) (x : Z) : Z :=
  fold_left (fun m b => Z.max m (Z.max (minPreCycle b) (lastCmdCycle b))) (concat (banks s)) x.
Definition close (pre : Z) (b : Bank) : Bank :=
  mkBank (openRow b) false pre (lastActCycle b) (lastCmdCycle b) (curRowHits b) (rdReqs b) (wrReqs b).

Definition refresh (sysCycle : Z) : ST DDR unit :=
  let memCycle := sysToMemCycle sysCycle in
  s ← get;
  let minRefreshCycle := refresh_start s memCycle in
  _ ← assertS (memCycle <=? minRefreshCycle);
  let refreshDoneCycle := minRefreshCycle +64 tRFC c in
  _ ← assertS (tRP c <=? tRFC c);
  _ ← put (set_banks s (map (map (close (refreshDoneCycle -64 tRP c))) (banks s)));
  log (Refreshed minRefreshCycle refreshDoneCycle).

(** [SchedEvent::simulate], as [TimingEvent::run] calls it. *)
Definition simulate (e : nat) (startCycle : Z) : ST DDR unit :=
  x ← sched_get e;
  _ ← assertS (bool_decide (sched_timing x = EV_NONE) || bool_decide (sched_timing x = EV_QUEUED));
  _ ← sched_put e (mkSched (sched_state x) EV_RUNNING (queuedFor x) (sched_next x));
  if bool_decide (sched_state x = QUEUED) then
    _ ← sched_set e RUNNING;
    nextCycle ← tick startCycle;
    if negb (nextCycle =? 0) then _ ← sched_requeue e nextCycle; sched_set e QUEUED
    else _ ← sched_set e IDLE; _ ← sched_hold e; recycleEvent e
  else
    _ ← assertS (bool_decide (sched_state x = ANNULLED));
    _ ← sched_set e IDLE; _ ← sched_hold e; recycleEvent e.

(** *** The machine: the controller, its refresh event, and the clock of its domain *)

Record Mach := mkMach { ddr : DDR; refreshAt : Z; now : Z }.

Definition on_ddr {A} (m : ST DDR A) : ST Mach A := fun s =>
  match m (ddr s) with Ok (a, d) => Ok (a, mkMach d (refreshAt s) (now s)) | Fault e => Fault e end.

(** [RefreshEvent]'s interval, of 32 bits. *)
Definition refInterval : Z := u32 (memToSysCycle (tREFI c)).

(** What the domain runs next: an access that starts, a scheduling event, the
    refresh event. *)
Inductive Op := Access (ev : nat) (addr : Z) (write : bool) (cycle : Z) | Tick (e : nat) | Refresh.

Definition step (o : Op) : ST Mach unit :=
  s ← get;
  match o with
  | Access ev addr write cycle =>
      _ ← put (mkMach (ddr s) (refreshAt s) cycle);
      on_ddr (_ ← modify (fun d => set_accEvents d (<[ev := mkAcc addr write EV_RUNNING]> (accEvents d)));
              _ ← log (Arrived ev cycle);
              enqueue ev cycle)
  | Tick e =>
      x ← on_ddr (sched_get e);
      _ ← put (mkMach (ddr s) (refreshAt s) (queuedFor x));
      on_ddr (simulate e (queuedFor x))
  | Refresh =>
      _ ← put (mkMach (ddr s) (refreshAt s +64 refInterval) (refreshAt s));
      on_ddr (refresh (refreshAt s))
  end.

Fixpoint run (ops : list Op) : ST Mach unit :=
  match ops with [] => mret tt | o :: ops => _ ← step o; run ops end.

(** The controller as built, before any event. The constructor does not set
    [lastCmdWasWrite]: it is what the memory held. *)
Definition initial (wrote : bool) : DDR :=
  mkDDR (u32 (tCL c + tBL c + 1)) wrote
        (RequestQueue.init (Z.to_nat (queueDepth c))) (RequestQueue.init (Z.to_nat (queueDepth c))) []
        (replicate (ranksPerChannel c) (replicate (banksPerRank c) bank0))
        (replicate (ranksPerChannel c) (ActWindow.init 4))
        None neg1 None (mkProf 0 0 0 0 0 0 (replicate (Z.to_nat NUMBINS) 0)) [] ∅ [].
Definition mach0 (wrote : bool) : Mach := mkMach (initial wrote) 0 0.

End controller.

(** *** Construction *)

Record Tech := mkTech {
  tCK : spec_float; e_tBL : Z; e_tCL : Z; e_tRCD : Z; e_tRTP : Z; e_tRP : Z; e_tRRD : Z; e_tRAS : Z; e_tFAW : Z;
  e_tWTR : Z; e_tWR : Z; e_tRFC : Z; e_tREFI : Z
}.

(** The technologies by name: [initTech]'s cases. *)
Definition tech_params (tech : string) : outcome Tech :=
  if String.eqb tech "DDR3-1333-CL10" then mret (mkTech (f64 3 (-1)) 4 10 10 5 10 4 24 20 5 10 74 5200)
  else if String.eqb tech "DDR3-1066-CL7" then mret (mkTech (f64 15 (-3)) 4 7 7 4 7 4 18 18 4 7 59 4160)
  else if String.eqb tech "DDR3-1066-CL8" then mret (mkTech (f64 15 (-3)) 4 8 8 4 8 4 20 20 4 8 59 4160)
  else Fault Panicked.

(** The burst of a line of another size than 64 bytes. *)
Definition scale_tBL (lineSize tBL : Z) : outcome Z :=
  if isPow2 lineSize && (64 <=? lineSize) then mret (u32 (lineSize * tBL) / 64)
  else if lineSize =? 32 then mret (tBL / 2)
  else Fault Panicked.

Definition mem_freq (tCK : spec_float) : Z := f64_trunc (f64_div (f64_div (f64_of_Z (10 ^ 9)) tCK) (f64_of_Z 1000)).

Definition initTech (lineSize : Z) (tech : string) : outcome (Tech * Z * Z) :=
  t ← tech_params tech;
  _ ← check (f64_ltb (f64_of_Z 0) (tCK t));
  _ ← check (forallb (fun x => negb (x =? 0))
       [e_tBL t; e_tCL t; e_tRCD t; e_tRTP t; e_tRP t; e_tRRD t; e_tRAS t; e_tFAW t; e_tWTR t; e_tWR t; e_tRFC t; e_tREFI t]);
  bl ← scale_tBL lineSize (e_tBL t);
  mret (t, bl, mem_freq (tCK t)).

Definition ilog2 (x : Z) : Z := if x =? 0 then 0 else Z.log2 x.

(** [Tokenize] of config.cpp with the delimiter of the address mapping: a token up
    to the next delimiter, after which delimiters are skipped. *)
Fixpoint span_token (s : list ascii) : list ascii * list ascii :=
  match s with
  | [] => ([], [])
  | a :: s' => if bool_decide (a = ":"%char) then ([], s) else let '(t, r) := span_token s' in (a :: t, r)
  end.
Fixpoint skip_delims (s : list ascii) : list ascii :=
  match s with a :: s' => if bool_decide (a = ":"%char) then skip_delims s' else s | [] => [] end.
Fixpoint Tokenize (fuel : nat) (s : list ascii) : list string :=
  let '(t, r) := span_token s in
  String.string_of_list_ascii t ::
    match skip_delims r, fuel with
    | [], _ | _, O => []
    | s', S fuel => Tokenize fuel s'
    end.

(** Shifts and masks of the three fields, in the order col, rank, bank; a shift no
    token sets keeps what the memory held. *)
Record Fields := mkFields { f_col : Z * Z; f_rank : Z * Z; f_bank : Z * Z; startBit : Z }.

Definition computeShiftAndMask (start bits : Z) (f : Z * Z) : outcome ((Z * Z) * Z) :=
  if negb (f.2 =? 0) then Fault Panicked
  else mret ((start, u32 (Z.shiftl 1 bits - 1)), start +32 bits).

Definition map_token (colBits rankBits bankBits : Z) (fs : Fields) (t : string) : outcome Fields :=
  if String.eqb t "col" then
    '(f, st) ← computeShiftAndMask (startBit fs) colBits (f_col fs); mret (mkFields f (f_rank fs) (f_bank fs) st)
  else if String.eqb t "rank" then
    '(f, st) ← computeShiftAndMask (startBit fs) rankBits (f_rank fs); mret (mkFields (f_col fs) f (f_bank fs) st)
  else if String.eqb t "bank" then
    '(f, st) ← computeShiftAndMask (startBit fs) bankBits (f_bank fs); mret (mkFields (f_col fs) (f_rank fs) f st)
  else Fault Panicked.

Definition addr_fields (addrMapping : string) (colBits rankBits bankBits : Z) (raw : Z * Z * Z) : outcome Fields :=
  let tokens := Tokenize (String.length addrMapping) (String.list_ascii_of_string addrMapping) in
  if negb (bool_decide (length tokens = 3%nat)) then Fault Panicked
  else let '(rc, rr, rb) := raw in
       loop (map_token colBits rankBits bankBits) (mkFields (rc, 0) (rr, 0) (rb, 0) 0) (rev tokens).

Definition make (lineSize colSize : Z) (ranks banks : nat) (sysFreqMHz : Z) (tech addrMapping : string)
    (controllerSysLatency queueDepth rowHitLimit : Z) (deferredWrites closedPage : bool) (raw : Z * Z * Z) : outcome Conf :=
  let sysFreqKHz := u32 (1000 * sysFreqMHz) in
  '(t, bl, memFreqKHz) ← initTech lineSize tech;
  if sysFreqKHz / 2 <=? memFreqKHz then Fault Panicked else
  let colBits := ilog2 (u32 (colSize / 8 * 64) / lineSize) in
  fs ← addr_fields addrMapping colBits (ilog2 (Z.of_nat ranks)) (ilog2 (Z.of_nat banks)) raw;
  let conf rdLat := mkConf lineSize ranks banks controllerSysLatency queueDepth rowHitLimit deferredWrites closedPage
    bl (e_tCL t) (e_tRCD t) (e_tRTP t) (e_tRP t) (e_tRRD t) (e_tRAS t) (e_tFAW t) (e_tWTR t) (e_tWR t) (e_tRFC t) (e_tREFI t)
    (f_col fs).1 (f_col fs).2 (f_rank fs).1 (f_rank fs).2 (f_bank fs).1 (f_bank fs).2 (startBit fs)
    rdLat controllerSysLatency controllerSysLatency (rdLat -32 controllerSysLatency) 0 sysFreqKHz memFreqKHz in
  mret (conf (controllerSysLatency +32 memToSysCycle (conf 0) (u32 (e_tCL t + bl - 1)))).

(** *** The bound phase

    [access] answers at once with the unloaded latency, and records for the weave
    phase the event of a read or a write of the core's recorder, if it has one. *)

Record AccRecord := mkAccRecord {
  r_addr : Z; r_reqCycle : Z; r_respCycle : Z; r_type : AccessType;
  r_write : bool; r_minStartCycle : Z; r_preDelay : Z; r_postDelay : Z
}.
Record Bound := mkBound { conf : Conf; hasRecorder : nat -> bool; records : list (nat * AccRecord) }.

Definition access (m : Bound) (req : MemReq) : outcome (Z * MESIState * Bound) :=
  let c := conf m in
  if bool_decide (type req = PUTS) then mret (MemHier.cycle req, mem_state req, m)
  else
    let isWrite := bool_decide (type req = PUTX) in
    let respCycle := MemHier.cycle req +64 (if isWrite then minWrLatency c else minRdLatency c) in
    let r := mkAccRecord (lineAddr req) (MemHier.cycle req) respCycle (type req) isWrite (MemHier.cycle req)
               (preDelay c) (if isWrite then postDelayWr c else postDelayRd c) in
    mret (respCycle, mem_state req,
          if hasRecorder m (srcId req) then mkBound c (hasRecorder m) (records m ++ [(srcId req, r)]) else m).

#[export] Instance ctrl : MemCtrl Bound := { mem_access := access }.

End DDRMemory.
