(* ===== verification/DDRBase.v ===== *)
(** * Lemmas on the parts of the DDR controller

    The clock domains, the activation window, the rows of a bank's queue, the
    request pools, and the primitive accesses of DDRMem. *)

From Stdlib Require Import Ascii.
From S2P Require Import Prelude Floats MemHier MTRand ReplPolicies CacheArrays TimingEvent World Memory DDRMem.
Local Open Scope Z_scope.
Import DDRMemory.
#[local] Existing Instance ActWindow.inhabited.

(** ** Clock domains *)

(** The conversions without overflow. *)
Definition s2m (c : Conf) (x : Z) : Z := x * memFreqKHz c / sysFreqKHz c + 1.
Definition m2s (c : Conf) (m : Z) : Z := (m + 1) * sysFreqKHz c / memFreqKHz c.
Definition mm2s (c : Conf) (m : Z) : Z := (2 * m - 1) * sysFreqKHz c / memFreqKHz c / 2.

Record freq_ok (c : Conf) : Prop := {
  fo_mem : 0 < memFreqKHz c;
  fo_sys : memFreqKHz c < sysFreqKHz c / 2;
  fo_32 : sysFreqKHz c < 2 ^ 32
}.

Section clocks.
Context (c : Conf) (F : freq_ok c).

Lemma freq_half : 2 * memFreqKHz c < sysFreqKHz c.
Proof using F. destruct F as [H1 H2 H3]. pose proof (Z.div_mod (sysFreqKHz c) 2 ltac:(lia)). pose proof (Z.mod_pos_bound (sysFreqKHz c) 2 ltac:(lia)). lia. Qed.

Lemma s2m_pos x : 0 <= x -> 1 <= s2m c x.
Proof using F. intros Hx. destruct F. pose proof freq_half. unfold s2m. pose proof (Z.div_pos (x * memFreqKHz c) (sysFreqKHz c) ltac:(nia) ltac:(lia)). lia. Qed.

Lemma s2m_mono x y : x <= y -> s2m c x <= s2m c y.
Proof using F. intros Hx. destruct F. pose proof freq_half. unfold s2m. pose proof (Z.div_le_mono (x * memFreqKHz c) (y * memFreqKHz c) (sysFreqKHz c) ltac:(lia) ltac:(nia)). lia. Qed.

Lemma s2m_le x : 0 <= x -> s2m c x <= x + 1.
Proof using F.
  intros Hx. destruct F. pose proof freq_half. unfold s2m.
  enough (x * memFreqKHz c / sysFreqKHz c <= x) by lia. apply Z.div_le_upper_bound; nia.
Qed.

(** A system cycle ends before the memory cycle that contains it is over. *)
Lemma m2s_s2m x m : 0 <= x -> s2m c x <= m -> x <= m2s c m.
Proof using F.
  intros Hx Hm. destruct F. pose proof freq_half. unfold s2m, m2s in *. apply Z.div_le_lower_bound; [lia|].
  pose proof (Z.div_mod (x * memFreqKHz c) (sysFreqKHz c) ltac:(lia)).
  pose proof (Z.mod_pos_bound (x * memFreqKHz c) (sysFreqKHz c) ltac:(lia)).
  nia.
Qed.

Lemma m2s_add x m L : 0 <= x -> 0 <= L -> s2m c x + L <= m -> x <= m2s c m - m2s c (L - 1).
Proof using F.
  intros Hx HL Hm. destruct F. pose proof freq_half.
  pose proof (m2s_s2m x (m - L) Hx ltac:(lia)) as H0. unfold m2s in *.
  replace (L - 1 + 1) with L by lia.
  enough ((m - L + 1) * sysFreqKHz c / memFreqKHz c + L * sysFreqKHz c / memFreqKHz c <= (m + 1) * sysFreqKHz c / memFreqKHz c) by lia.
  apply Z.div_le_lower_bound; [lia|].
  pose proof (Z.mul_div_le ((m - L + 1) * sysFreqKHz c) (memFreqKHz c) ltac:(lia)).
  pose proof (Z.mul_div_le (L * sysFreqKHz c) (memFreqKHz c) ltac:(lia)). lia.
Qed.

(** The round trip through the system clock. *)
Lemma mm2s_back m : 1 <= m -> s2m c (mm2s c m) = m.
Proof using F.
  intros Hm. destruct F. pose proof freq_half. unfold s2m, mm2s.
  rewrite Z.div_div by lia.
  remember ((2 * m - 1) * sysFreqKHz c / (memFreqKHz c * 2)) as x eqn:Ex.
  enough (x * memFreqKHz c / sysFreqKHz c = m - 1) by lia.
  pose proof (Z.div_mod ((2 * m - 1) * sysFreqKHz c) (memFreqKHz c * 2) ltac:(lia)).
  pose proof (Z.mod_pos_bound ((2 * m - 1) * sysFreqKHz c) (memFreqKHz c * 2) ltac:(lia)). rewrite <- Ex in *.
  symmetry. apply (Z.div_unique_pos _ _ _ (x * memFreqKHz c - (m - 1) * sysFreqKHz c)); nia.
Qed.

Lemma mm2s_max m x : 1 <= m -> 0 <= x -> s2m c x <= m -> s2m c (Z.max (mm2s c m) x) = m.
Proof using F.
  intros Hm Hx Hle. destruct (Z.max_spec (mm2s c m) x) as [[Hl ->]|[_ ->]]; [|by apply mm2s_back].
  pose proof (s2m_mono _ _ (Z.lt_le_incl _ _ Hl)) as H. rewrite mm2s_back in H by done. lia.
Qed.

Lemma mm2s_pos m : 1 <= m -> 1 <= mm2s c m.
Proof using F. intros Hm. destruct F. pose proof freq_half. unfold mm2s. rewrite Z.div_div by lia. apply Z.div_le_lower_bound; nia. Qed.

Lemma mm2s_le m : 1 <= m -> mm2s c m <= m2s c m.
Proof using F.
  intros Hm. destruct F. pose proof freq_half. unfold mm2s, m2s. rewrite Z.div_div by lia.
  apply Z.div_le_lower_bound; [lia|].
  pose proof (Z.mul_div_le ((2 * m - 1) * sysFreqKHz c) (memFreqKHz c * 2) ltac:(lia)). nia.
Qed.

(** [n] memory cycles in system cycles bring the memory clock [n] further. *)
Lemma s2m_m2s x n : 0 <= x -> 0 <= n -> s2m c x + n <= s2m c (x + m2s c n).
Proof using F.
  intros Hx Hn. destruct F. pose proof freq_half. unfold s2m, m2s.
  enough (x * memFreqKHz c / sysFreqKHz c + n <= (x + (n + 1) * sysFreqKHz c / memFreqKHz c) * memFreqKHz c / sysFreqKHz c) by lia.
  apply Z.div_le_lower_bound; [lia|].
  pose proof (Z.div_mod ((n + 1) * sysFreqKHz c) (memFreqKHz c) ltac:(lia)).
  pose proof (Z.mod_pos_bound ((n + 1) * sysFreqKHz c) (memFreqKHz c) ltac:(lia)).
  pose proof (Z.mul_div_le (x * memFreqKHz c) (sysFreqKHz c) ltac:(lia)). nia.
Qed.

(** The code's conversions, while the products fit. *)
Lemma sysToMemCycle_eq x : 0 <= x -> x * sysFreqKHz c < 2 ^ 62 -> sysToMemCycle c x = s2m c x.
Proof using F.
  intros Hx Hb. destruct F. pose proof freq_half. pose proof (s2m_le x Hx). pose proof (s2m_pos x Hx). pose proof max64_eq. unfold sysToMemCycle, s2m in *.
  rewrite (u64_small (x * memFreqKHz c)) by nia. rewrite u64_small by nia. done.
Qed.

Lemma memToSysCycle_eq m : 0 <= m -> (m + 1) * sysFreqKHz c < 2 ^ 63 -> memToSysCycle c m = m2s c m.
Proof using F. intros Hm Hb. destruct F. pose proof freq_half. pose proof max64_eq. unfold memToSysCycle, m2s. rewrite (u64_small (m + 1)) by nia. rewrite u64_small by nia. done. Qed.

Lemma matching_eq m : 1 <= m -> (m + 1) * sysFreqKHz c < 2 ^ 63 -> matchingMemToSysCycle c m = mm2s c m.
Proof using F. intros Hm Hb. destruct F. pose proof freq_half. pose proof max64_eq. unfold matchingMemToSysCycle, mm2s. rewrite (u64_small (2 * m - 1)) by nia. rewrite u64_small by nia. done. Qed.
End clocks.

(** ** The activation window *)

(** The cycles kept, the oldest first. *)
Definition win_view (w : ActWindow.t) : list Z := drop (ActWindow.idx w) (ActWindow.buf w) ++ take (ActWindow.idx w) (ActWindow.buf w).

Definition win_ok (w : ActWindow.t) : Prop := length (ActWindow.buf w) = 4%nat /\ (ActWindow.idx w < 4)%nat.

Lemma win_ok_init : win_ok (ActWindow.init 4).
Proof. split; [done|cbn; lia]. Qed.

Lemma win_view_cons w : win_ok w -> exists x l, win_view w = x :: l.
Proof.
  intros [Hl Hi]. unfold win_view. destruct w as [[|b0 [|b1 [|b2 [|b3 [|]]]]] [|[|[|[|i]]]]]; cbn in *; try lia; by eexists _, _.
Qed.

Lemma win_min w x l : win_ok w -> win_view w = x :: l -> ActWindow.minActCycle w = Ok x.
Proof.
  intros (Hl & Hi) Hv. apply rd_some. unfold win_view in Hv.
  destruct w as [[|b0 [|b1 [|b2 [|b3 [|]]]]] [|[|[|[|i]]]]]; cbn in *; try lia; by simplify_eq.
Qed.

(** Whatever their order, [addActivation] replaces the cycle it bounds the new one
    with by the new one. *)
Lemma win_add w x l a : win_ok w -> win_view w = x :: l -> x <= a ->
  exists w', ActWindow.addActivation w a = Ok w' /\ win_ok w' /\ win_view w' ≡ₚ a :: l.
Proof.
  intros Hok Hv Ha. pose proof (win_min w x l Hok Hv) as Hmin. destruct Hok as (Hl & Hi). unfold ActWindow.addActivation.
  rewrite Hmin. cbn [mbind outcome_bind]. rewrite (proj2 (Z.leb_le _ _) Ha). cbn [check mbind outcome_bind].
  unfold win_view in Hv. destruct w as [[|b0 [|b1 [|b2 [|b3 [|]]]]] i]; cbn in Hl; try lia. cbn [ActWindow.buf ActWindow.idx] in *.
  destruct i as [|[|[|[|i]]]]; [..|lia]; cbn in Hv; simplify_eq; cbn -[Z.ltb wr bool_decide];
    repeat (first [ rewrite wr_lt by (cbn; lia) | rewrite bool_decide_false by lia | rewrite bool_decide_true by lia
                  | match goal with |- context [a <? ?y] => destruct (Z.ltb_spec a y) end ]; cbn -[Z.ltb wr bool_decide]);
    (eexists; split; [reflexivity|]; split; [split; [done|unfold ActWindow.inc; cbn -[bool_decide]; try case_bool_decide; lia]|];
     cbn; solve_Permutation).
Qed.

(** At most four activations in a window of [F] cycles: [view] are the cycles kept,
    each of which a later activation exceeds by [F] once it is the oldest. *)
Definition within (F t x : Z) : Prop := t <= x < t + F.
#[export] Instance within_dec F t x : Decision (within F t x).
Proof. unfold within. apply _. Defined.

Definition faw_inv (F : Z) (acts view : list Z) : Prop :=
  forall t, (length (filter (within F t) acts) + length (filter (fun x => (x < t)%Z) view) <= 4)%nat.

Lemma faw_add F acts v l a view' : 0 < F -> faw_inv F acts (v :: l) -> v + F <= a -> view' ≡ₚ a :: l ->
  faw_inv F (a :: acts) view'.
Proof.
  intros HF H Ha Hp t. specialize (H t). rewrite Hp. rewrite !filter_cons in H. rewrite (filter_cons (within F t)), (filter_cons (fun x => (x < t)%Z) a). unfold within in *.
  repeat case_decide; cbn [length] in *; lia.
Qed.

Lemma faw_init F : faw_inv F [] (win_view (ActWindow.init 4)).
Proof. intros t. rewrite filter_nil. apply (length_filter (fun x => (x < t)%Z)). Qed.

(** ** The rows of a bank's queue

    [row] and [seq] of the requests of a list: after a request of the row, at most
    [lim] more of it are put before others. *)
Section rows.
Variable lim : Z.

Record RowSeq := mkRS { rs_row : nat -> Z; rs_seq : nat -> Z }.

Fixpoint find_row (f : RowSeq) (rw : Z) (l : list nat) : option nat :=
  match l with [] => None | m :: l => if rs_row f m =? rw then Some m else find_row f rw l end.

(** A request that is not the first of its run follows the one before it. *)
Fixpoint runs (f : RowSeq) (l : list nat) : Prop :=
  match l with
  | x :: (y :: _) as l' => (rs_seq f y <> 0 -> rs_row f y = rs_row f x /\ rs_seq f y = rs_seq f x + 1) /\ runs f l'
  | _ => True
  end.
Definition seqs_ok (f : RowSeq) (l : list nat) : Prop := Forall (fun x => 0 <= rs_seq f x <= lim) l.

Definition more_hits (f : RowSeq) (l : list nat) : bool := match l with y :: _ => negb (rs_seq f y =? 0) | [] => false end.

(** How many requests of the list can still be served before [x]. *)
Fixpoint ahead (f : RowSeq) (x : nat) (l : list nat) : Z :=
  match l with
  | [] => 0
  | y :: l' => if bool_decide (y = x) then 0 else 1 + (if more_hits f l' then 0 else lim - rs_seq f y) + ahead f x l'
  end.

Definition agree (f f' : RowSeq) (l : list nat) : Prop := forall x, x ∈ l -> rs_row f' x = rs_row f x /\ rs_seq f' x = rs_seq f x.

Lemma agree_cons f f' x l : agree f f' (x :: l) -> agree f f' l.
Proof. intros H y Hy. apply H. by right. Qed.

Lemma agree_app_l f f' l k : agree f f' (l ++ k) -> agree f f' l.
Proof. intros H y Hy. apply H, elem_of_app. by left. Qed.

Lemma runs_agree f f' l : agree f f' l -> runs f l -> runs f' l.
Proof.
  induction l as [|x [|y l] IH]; [done|done|]. intros H [H1 H2]. split; [|apply IH; [by eapply agree_cons|done]].
  destruct (H x ltac:(left)) as [-> ->]. destruct (H y ltac:(right; left)) as [-> ->]. done.
Qed.

Lemma seqs_agree f f' l : agree f f' l -> seqs_ok f l -> seqs_ok f' l.
Proof. intros H Hs. apply Forall_forall. intros x Hx. destruct (H x Hx) as [_ ->]. by eapply Forall_forall in Hs. Qed.

Lemma more_hits_agree f f' l : agree f f' l -> more_hits f' l = more_hits f l.
Proof. destruct l as [|y l]; [done|]. intros H. cbn. by destruct (H y ltac:(left)) as [_ ->]. Qed.

Lemma ahead_agree f f' x l : agree f f' l -> ahead f' x l = ahead f x l.
Proof.
  induction l as [|y l IH]; [done|]. intros H. cbn. rewrite IH, (more_hits_agree f f' l) by (by eapply agree_cons).
  by destruct (H y ltac:(left)) as [_ ->].
Qed.

Lemma find_row_some f rw l m : find_row f rw (rev l) = Some m ->
  exists l1 l2, l = l1 ++ m :: l2 /\ rs_row f m = rw /\ Forall (fun x => rs_row f x <> rw) l2.
Proof.
  induction l as [|x l IH] using rev_ind; [done|]. rewrite rev_unit. cbn [find_row]. destruct (Z.eqb_spec (rs_row f x) rw) as [E|N].
  - intros [= <-]. exists l, []. done.
  - intros H. destruct (IH H) as (l1 & l2 & -> & Hm & Hl). exists l1, (l2 ++ [x]). rewrite <- app_assoc. split; [done|].
    split; [done|]. apply Forall_app. by repeat constructor.
Qed.

Lemma find_row_none f rw l : find_row f rw (rev l) = None -> Forall (fun x => rs_row f x <> rw) l.
Proof.
  induction l as [|x l IH] using rev_ind; [constructor|]. rewrite rev_unit. cbn [find_row]. destruct (Z.eqb_spec (rs_row f x) rw) as [E|N]; [done|].
  intros H. apply Forall_app. by repeat constructor; [apply IH|].
Qed.

Lemma insertAfter_app m n l1 l2 : m ∉ l1 -> insertAfter m n (l1 ++ m :: l2) = l1 ++ m :: n :: l2.
Proof.
  induction l1 as [|x l1 IH]; cbn; [by rewrite bool_decide_true by done|].
  rewrite not_elem_of_cons. intros [Hx Hn]. rewrite bool_decide_false by done. by rewrite IH.
Qed.

Lemma runs_app f l1 x l2 : runs f (l1 ++ x :: l2) <-> runs f (l1 ++ [x]) /\ runs f (x :: l2).
Proof.
  induction l1 as [|y [|z l1] IH]; [cbn; tauto|cbn; tauto|]. cbn [app] in *. cbn [runs]. cbn [runs] in IH. tauto.
Qed.

Lemma runs_snoc f l n : rs_seq f n = 0 -> runs f l -> runs f (l ++ [n]).
Proof.
  intros Hn. induction l as [|y [|z l] IH]; [done|cbn; intuition lia|]. intros [H1 H2]. split; [done|]. by apply IH.
Qed.

(** No run goes on into the requests of other rows. *)
Lemma no_more_hits f m l1 l2 rw : runs f (l1 ++ m :: l2) -> rs_row f m = rw -> Forall (fun x => rs_row f x <> rw) l2 ->
  more_hits f l2 = false.
Proof.
  intros [_ H]%runs_app Hm Hl. destruct l2 as [|y l2]; [done|]. cbn in *. apply Forall_cons in Hl as [Hy _].
  destruct (Z.eqb_spec (rs_seq f y) 0) as [|N]; [done|]. destruct (proj1 H N). congruence.
Qed.

Lemma runs_insert f l1 m n l2 : runs f (l1 ++ m :: l2) -> more_hits f l2 = false ->
  rs_row f n = rs_row f m -> rs_seq f n = rs_seq f m + 1 -> runs f (l1 ++ m :: n :: l2).
Proof.
  intros [H1 H2]%runs_app Hm Hr Hs. apply runs_app. split; [done|]. split; [by intros _|].
  destruct l2 as [|y l2]; [done|]. destruct H2 as [_ H2]. split; [|done]. cbn in Hm. intros N.
  destruct (Z.eqb_spec (rs_seq f y) 0); [done|discriminate].
Qed.

Lemma ahead_snoc f x n l : x ∈ l -> ahead f x (l ++ [n]) = ahead f x l.
Proof.
  induction l as [|y l IH]; [by intros ?%not_elem_of_nil|]. intros Hx. cbn. case_bool_decide as Hy; [done|].
  apply elem_of_cons in Hx as [->|Hx]; [done|]. rewrite IH by done. by destruct l; [apply not_elem_of_nil in Hx|].
Qed.

Lemma ahead_insert f x l1 m n l2 : x ∈ l1 ++ m :: l2 -> x <> n -> more_hits f l2 = false -> 0 <= rs_seq f m ->
  rs_seq f n = rs_seq f m + 1 -> ahead f x (l1 ++ m :: n :: l2) = ahead f x (l1 ++ m :: l2).
Proof.
  intros Hx Hxn Hm H0 Hs. induction l1 as [|y l1 IH]; cbn [app ahead].
  - case_bool_decide; [done|]. rewrite bool_decide_false by done. rewrite Hm. cbn [more_hits].
    destruct (Z.eqb_spec (rs_seq f n) 0); [lia|]. cbn. lia.
  - case_bool_decide as Hy; [done|]. cbn [app] in Hx. apply elem_of_cons in Hx as [->|Hx]; [done|]. rewrite IH by done.
    by destruct l1.
Qed.

Lemma ahead_nonneg f x l : seqs_ok f l -> 0 <= ahead f x l.
Proof.
  induction l as [|y l IH]; cbn; [lia|]. intros [Hy Hl]%Forall_cons. specialize (IH Hl). case_bool_decide; [lia|].
  case_match; lia.
Qed.

Lemma ahead_bound f x l i : seqs_ok f l -> 0 <= lim -> l !! i = Some x -> ahead f x l <= (lim + 1) * Z.of_nat i.
Proof.
  revert i. induction l as [|y l IH]; intros i; [done|]. cbn [ahead]. intros [Hy Hl]%Forall_cons Hlim Hi. case_bool_decide; [nia|].
  destruct i as [|i]; [cbn in Hi; by simplify_eq|]. specialize (IH i Hl Hlim Hi). case_match; lia.
Qed.

Lemma ahead_tail f x y l : seqs_ok f (y :: l) -> x ∈ y :: l -> x <> y -> ahead f x l + 1 <= ahead f x (y :: l).
Proof. intros [Hy Hl]%Forall_cons Hx Hn. cbn [ahead]. rewrite bool_decide_false by done. case_match; lia. Qed.

Lemma runs_tail f y l : runs f (y :: l) -> runs f l.
Proof. destruct l; [done|]. by intros [_ H]. Qed.
End rows.

(** ** Primitive accesses *)

Definition same_bank (l l' : AddrLoc) : Prop := rank l = rank l' /\ bank l = bank l'.
#[export] Instance same_bank_dec l l' : Decision (same_bank l l').
Proof. unfold same_bank. apply _. Defined.

Definition bk (s : DDR) (l : AddrLoc) : Bank := banks s !!! rank l !!! bank l.
Definition set_bank (l : AddrLoc) (b : Bank) (s : DDR) : DDR :=
  set_banks s (<[rank l := <[bank l := b]> (banks s !!! rank l)]> (banks s)).
Definition req (w : bool) (s : DDR) (n : nat) : Request := RequestQueue.elems (the_queue w s) !!! n.
Definition live (w : bool) (s : DDR) : list nat := RequestQueue.reqList (the_queue w s).
Definition q_set (q : RequestQueue.t) (n : nat) (r : Request) : RequestQueue.t :=
  RequestQueue.mk (<[n := r]> (RequestQueue.elems q)) (RequestQueue.reqList q) (RequestQueue.freeList q).
Definition set_req (w : bool) (n : nat) (r : Request) (s : DDR) : DDR := set_the_queue w s (q_set (the_queue w s) n r).
Definition pool_size (w : bool) (s : DDR) : nat := length (RequestQueue.elems (the_queue w s)).

Section primitives.
Context (c : Conf).

Definition in_range (l : AddrLoc) : Prop := (rank l < ranksPerChannel c)%nat /\ (bank l < banksPerRank c)%nat.

Record shape (s : DDR) : Prop := {
  sh_ranks : length (banks s) = ranksPerChannel c;
  sh_banks : Forall (fun r => length r = banksPerRank c) (banks s);
  sh_wins : length (rankActWindows s) = ranksPerChannel c
}.

Lemma shape_rank s l : shape s -> in_range l -> banks s !! rank l = Some (banks s !!! rank l) /\ length (banks s !!! rank l) = banksPerRank c.
Proof.
  intros [H1 H2 _] [Hr _]. assert (banks s !! rank l = Some (banks s !!! rank l)) as H by (apply list_lookup_lookup_total_lt; lia).
  split; [done|]. by apply (Forall_lookup_1 _ _ _ _ H2) in H.
Qed.

Lemma shape_bank s l : shape s -> in_range l -> (banks s !!! rank l) !! bank l = Some (bk s l).
Proof. intros H Hl. destruct (shape_rank s l H Hl) as [_ Hb]. destruct Hl. apply list_lookup_lookup_total_lt. lia. Qed.

Lemma bk_set s l b l' : shape s -> in_range l -> bk (set_bank l b s) l' = if decide (same_bank l l') then b else bk s l'.
Proof.
  intros H Hl. destruct (shape_rank s l H Hl) as [Hr Hb]. destruct Hl as [Hl1 Hl2]. unfold bk, set_bank. cbn [banks set_banks].
  case_decide as Hs; [destruct Hs as [<- <-]; rewrite list_lookup_total_insert_eq by (rewrite (sh_ranks _ H); lia); apply list_lookup_total_insert_eq; lia|].
  destruct (decide (rank l = rank l')) as [E|E]; [|by rewrite list_lookup_total_insert_ne].
  rewrite <- E, list_lookup_total_insert_eq by (rewrite (sh_ranks _ H); lia). rewrite list_lookup_total_insert_ne; [done|].
  intros Eb. by apply Hs.
Qed.

Lemma shape_set_bank s l b : shape s -> in_range l -> shape (set_bank l b s).
Proof.
  intros H Hl. destruct (shape_rank s l H Hl) as [_ Hb]. destruct H as [H1 H2 H3]. split; cbn.
  - by rewrite length_insert.
  - apply Forall_insert; [done|by rewrite length_insert].
  - done.
Qed.

Lemma wp_bank_get s l Q : shape s -> in_range l -> Q (bk s l) s -> wp (bank_get l) s Q.
Proof.
  intros H Hl HQ. destruct (shape_rank s l H Hl) as [Hr Hb]. unfold bank_get. apply wp_bind, wp_get, wp_bind.
  eapply wp_lift; [by apply rd_some|]. eapply wp_lift; [by apply rd_some, shape_bank|done].
Qed.

Lemma wp_bank_put s l b (Q : unit -> DDR -> Prop) : shape s -> in_range l -> Q tt (set_bank l b s) -> wp (bank_put l b) s Q.
Proof.
  intros H Hl HQ. destruct (shape_rank s l H Hl) as [Hr Hb]. destruct H as [H1 H2 H3]. destruct Hl as [Hl1 Hl2]. unfold bank_put.
  apply wp_bind, wp_get, wp_bind. eapply wp_lift; [by apply rd_some|]. apply wp_bind. eapply wp_lift; [by apply wr_lt; lia|].
  apply wp_bind. eapply wp_lift; [by apply wr_lt; lia|]. done.
Qed.

Lemma wp_req_get w s n Q : (n < pool_size w s)%nat -> Q (req w s n) s -> wp (req_get w n) s Q.
Proof. intros Hn HQ. apply wp_bind, wp_get. by eapply wp_lift; [by apply rd_lt|]. Qed.

Lemma wp_req_put w s n r (Q : unit -> DDR -> Prop) : (n < pool_size w s)%nat -> Q tt (set_req w n r s) -> wp (req_put w n r) s Q.
Proof.
  intros Hn HQ. apply wp_bind, wp_get, wp_bind. unfold RequestQueue.set. rewrite wr_lt by done. by eapply wp_lift.
Qed.

Lemma wp_first_in_bank w s n Q : (n < pool_size w s)%nat -> shape s -> in_range (q_loc (req w s n)) ->
  Q (bool_decide (head (bank_reqs w (bk s (q_loc (req w s n)))) = Some n)) s -> wp (first_in_bank w n) s Q.
Proof. intros Hn H Hl HQ. apply wp_bind, wp_req_get; [done|]. by apply wp_bind, wp_bank_get. Qed.

Lemma wp_acc_move s ev e a b (Q : unit -> DDR -> Prop) : accEvents s !! ev = Some e -> acc_timing e = a ->
  Q tt (set_accEvents s (<[ev := mkAcc (acc_addr e) (acc_write e) b]> (accEvents s))) -> wp (acc_move ev a b) s Q.
Proof.
  intros He Ha HQ. unfold acc_move, acc_get. apply wp_bind, wp_bind, wp_get. rewrite He. apply wp_ret, wp_bind, wp_assert; [by apply bool_decide_true|].
  by apply wp_modify.
Qed.

(** [release] and [done] together. *)
Definition finish (ev : nat) (x : Z) (s : DDR) : DDR :=
  match accEvents s !! ev with
  | Some e => set_trace (set_accEvents s (<[ev := mkAcc (acc_addr e) (acc_write e) EV_DONE]> (accEvents s))) (Done ev x :: trace s)
  | None => s
  end.

Lemma wp_finish_ev s ev e x (Q : unit -> DDR -> Prop) : accEvents s !! ev = Some e -> acc_timing e = EV_HELD ->
  Q tt (finish ev x s) -> wp (_ ← acc_release ev; acc_done ev x) s Q.
Proof.
  intros He Ha HQ. apply wp_bind. eapply wp_acc_move; [done|done|]. apply wp_bind.
  eapply wp_acc_move; [cbn; by rewrite lookup_insert_eq|done|]. apply wp_modify. cbn. rewrite insert_insert_eq.
  unfold finish in HQ. by rewrite He in HQ.
Qed.
End primitives.

(** Projections through the updates of one queue. *)
Lemma the_queue_eq w s q : the_queue w (set_the_queue w s q) = q.
Proof. by destruct w. Qed.
Lemma the_queue_ne w s q : the_queue (negb w) (set_the_queue w s q) = the_queue (negb w) s.
Proof. by destruct w. Qed.
Lemma bank_reqs_eq w b l : bank_reqs w (set_reqs w b l) = l.
Proof. by destruct w. Qed.
Lemma bank_reqs_ne w b l : bank_reqs (negb w) (set_reqs w b l) = bank_reqs (negb w) b.
Proof. by destruct w. Qed.

Lemma req_set_req w s n r m : (n < pool_size w s)%nat -> req w (set_req w n r s) m = if decide (m = n) then r else req w s m.
Proof.
  intros Hn. unfold req, set_req. rewrite the_queue_eq. cbn. case_decide as E; [subst; by apply list_lookup_total_insert_eq|].
  by apply list_lookup_total_insert_ne.
Qed.
