(* ===== verification/DDRExec.v ===== *)
(** * What the operations of the DDR controller compute

    While cycles are far from overflow ([near]) the arithmetic of DDRMem is that of
    integers: the state [queue] leaves ([placed]), the least cycle of a request's
    command ([min_cmd]), what the scan finds ([scanned]), and the state a command
    leaves ([issued]). *)

From Stdlib Require Import Ascii.
From S2P Require Import Prelude Floats MemHier MTRand ReplPolicies CacheArrays TimingEvent World Memory DDRMem DDRBase.
Local Open Scope Z_scope.
Import DDRMemory.
#[local] Existing Instance ActWindow.inhabited.

(** ** What the operations compute *)

Definition rows_of (w : bool) (s : DDR) : RowSeq := mkRS (fun n => row (q_loc (req w s n))) (fun n => rowHitSeq (req w s n)).

Section exec.
Context (c : Conf).

(** The rank and the position [place] gives a request. *)
Definition place_at (f : RowSeq) (n : nat) (b : Bank) (rw : Z) (q : list nat) : Z * list nat :=
  match find_row f rw (rev q) with
  | Some m => if rs_seq f m <? rowHitLimit c then (rs_seq f m +64 1, insertAfter m n q) else (0, q ++ [n])
  | None => if open b && (rw =? openRow b) && (curRowHits b <? rowHitLimit c) && bool_decide (q = [])
            then (curRowHits b +64 1, n :: q) else (0, q ++ [n])
  end.

Definition placed (w : bool) (n : nat) (s : DDR) : DDR :=
  let r := req w s n in
  let b := bk s (q_loc r) in
  let p := place_at (rows_of w s) n b (row (q_loc r)) (bank_reqs w b) in
  set_bank (q_loc r) (set_reqs w b p.2) (set_req w n (set_rowHitSeq r p.1) s).

Lemma wp_last_same w rw l s (Q : option nat -> DDR -> Prop) : Forall (fun m => m < pool_size w s)%nat l ->
  Q (find_row (rows_of w s) rw l) s -> wp (last_same_row w rw l) s Q.
Proof.
  intros Hl. induction Hl as [|m l Hm Hl IH]; cbn [find_row last_same_row]; intros HQ; [by apply wp_ret|].
  apply wp_bind, wp_req_get; [done|]. cbn [rs_row rows_of] in HQ. case_match; [by apply wp_ret|by apply IH].
Qed.

Lemma shape_set_req s w n r : shape c s -> shape c (set_req w n r s).
Proof. intros [? ? ?]. by destruct w. Qed.
Lemma bk_set_req s w n r l : bk (set_req w n r s) l = bk s l.
Proof. by destruct w. Qed.
Lemma pool_set_req s w n r : pool_size w (set_req w n r s) = pool_size w s.
Proof. unfold pool_size, set_req. rewrite the_queue_eq. cbn. by rewrite length_insert. Qed.

Lemma wp_place_first w n s (Q : unit -> DDR -> Prop) : shape c s -> (n < pool_size w s)%nat -> in_range c (q_loc (req w s n)) ->
  Forall (fun m => m < pool_size w s)%nat (bank_reqs w (bk s (q_loc (req w s n)))) ->
  Q tt (placed w n s) -> wp (place c w n) s Q.
Proof.
  intros Hs Hn Hl Hq HQ. unfold place. apply wp_bind, wp_req_get; [done|]. apply wp_bind, (wp_bank_get c); [done|done|].
  cbv zeta. apply wp_bind, wp_last_same; [by apply Forall_rev|]. unfold placed, place_at in HQ. cbv zeta in HQ.
  destruct (find_row _ _ _) as [m|] eqn:Ef.
  - apply find_row_some in Ef as (l1 & l2 & Eq & _ & _). rewrite Eq in Hq. apply Forall_app in Hq as [_ [Hm _]%Forall_cons].
    apply wp_bind, wp_req_get; [done|]. cbn [rs_seq rows_of] in HQ. case_match; apply wp_bind, wp_req_put; try done;
      (apply (wp_bank_put c); [by apply shape_set_req|done|done]).
  - case_match; apply wp_bind, wp_req_put; try done; (apply (wp_bank_put c); [by apply shape_set_req|done|done]).
Qed.

(** A request as [queue] leaves it: a write has been answered. *)
Definition queued (r : Request) (mem : Z) : Request := set_arrival (if q_write r then set_q_ev r None else r) mem.
Definition answered (r : Request) (mem : Z) (s : DDR) : DDR :=
  match q_write r, q_ev r with
  | true, Some ev => finish ev (memToSysCycle c mem +64 minWrLatency c -64 preDelay c -64 postDelayWr c) s
  | _, _ => s
  end.

Lemma finish_set_req ev x w n r s : finish ev x (set_req w n r s) = set_req w n r (finish ev x s).
Proof. unfold finish. destruct w; cbn; destruct (accEvents s !! ev); done. Qed.

Lemma finish_req ev x s w n : req w (finish ev x s) n = req w s n.
Proof. unfold finish. destruct w, (accEvents s !! ev); done. Qed.

Lemma finish_pool ev x s w : pool_size w (finish ev x s) = pool_size w s.
Proof. unfold finish. destruct w, (accEvents s !! ev); done. Qed.

Lemma set_req_twice w n r r' s : set_req w n r (set_req w n r' s) = set_req w n r s.
Proof. unfold set_req, q_set. destruct w, s as [????????????? ?]; cbn; by rewrite list_insert_insert_eq. Qed.

Lemma shape_finish ev x s : shape c s -> shape c (finish ev x s).
Proof. unfold finish. intros [? ? ?]. by destruct (accEvents s !! ev). Qed.

Lemma bk_finish ev x s l : bk (finish ev x s) l = bk s l.
Proof. unfold finish, bk. by destruct (accEvents s !! ev). Qed.

Lemma wp_queue w n mem s (Q : unit -> DDR -> Prop) : let r := req w s n in
  shape c s -> (n < pool_size w s)%nat -> in_range c (q_loc r) ->
  Forall (fun m => m < pool_size w s)%nat (bank_reqs w (bk s (q_loc r))) ->
  (q_write r = true -> exists ev e, q_ev r = Some ev /\ accEvents s !! ev = Some e /\ acc_timing e = EV_HELD) ->
  Q tt (placed w n (set_req w n (queued r mem) (answered r mem s))) -> wp (queue c w n mem) s Q.
Proof.
  intros r Hs Hn Hl Hq Hw HQ. unfold queue, answer_write. apply wp_bind, wp_bind, wp_req_get; [done|]. fold r.
  unfold queued, answered in HQ. apply wp_when; intros Er; rewrite Er in *.
  - destruct (Hw eq_refl) as (ev & e & Ev & He & Ht). rewrite Ev in *. apply wp_bind, wp_ret, wp_bind, wp_req_put; [done|].
    eapply wp_finish_ev; [by destruct w|done|]. rewrite finish_set_req. set (s1 := finish _ _ s) in *.
    assert (pool_size w s1 = pool_size w s) as Ep by apply finish_pool.
    apply wp_bind, wp_req_get; [by rewrite pool_set_req, Ep|]. apply wp_bind, wp_req_put; [by rewrite pool_set_req, Ep|].
    rewrite req_set_req, decide_True, set_req_twice by (by rewrite ?Ep).
    apply wp_place_first; [by apply shape_set_req, shape_finish|by rewrite pool_set_req, Ep|..|done]; rewrite req_set_req, decide_True by (by rewrite ?Ep); cbn; [done|].
    rewrite bk_set_req, pool_set_req, Ep. unfold s1. by rewrite bk_finish.
  - apply wp_bind, wp_req_get; [done|]. apply wp_bind, wp_req_put; [done|]. fold r.
    apply wp_place_first; [by apply shape_set_req|by rewrite pool_set_req|..|done]; rewrite req_set_req, decide_True by done; cbn; [done|].
    by rewrite bk_set_req, pool_set_req.
Qed.
End exec.

(** ** Configurations *)

Definition small (x : Z) : Prop := 1 <= x < 2 ^ 16.

Record conf_ok (c : Conf) : Prop := {
  co_freq : freq_ok c;
  co_BL : small (tBL c); co_CL : small (tCL c); co_RCD : small (tRCD c); co_RTP : small (tRTP c); co_RP : small (tRP c);
  co_RRD : small (tRRD c); co_RAS : small (tRAS c); co_FAW : small (tFAW c); co_WTR : small (tWTR c); co_WR : small (tWR c);
  co_RFC : small (tRFC c); co_REFI : small (tREFI c);
  co_close : tRP c <= tRFC c; co_often : tRFC c <= tREFI c;
  co_depth : 1 <= queueDepth c;
  co_limit : 0 <= rowHitLimit c < 2 ^ 32;
  co_bank : 0 <= bankMask c /\ (Z.to_nat (bankMask c) < banksPerRank c)%nat;
  co_rank : 0 <= rankMask c /\ (Z.to_nat (rankMask c) < ranksPerChannel c)%nat;
  co_lat : 0 <= controllerSysLatency c < 2 ^ 32;
  co_pre : preDelay c = controllerSysLatency c; co_wr : minWrLatency c = controllerSysLatency c;
  co_postWr : postDelayWr c = 0; co_postRd : postDelayRd c = m2s c (tCL c + tBL c - 1);
  co_interval : m2s c (tREFI c) < 2 ^ 32
}.

(** How far past the clock a cycle of the state can be, refreshes apart. *)
Definition lead (c : Conf) : Z := 2 * tCL c + tWTR c + tBL c + tWR c + tRAS c + tRTP c.

(** A memory cycle far from overflow, in both clocks. *)
Definition fits (c : Conf) (m : Z) : Prop := 0 <= m /\ (m + 2 ^ 22) * sysFreqKHz c < 2 ^ 62.

Section timing.
Context (c : Conf) (C : conf_ok c).

Ltac conf := destruct C as [? [??] [??] [??] [??] [??] [??] [??] [??] [??] [??] [??] [??] ? ? ? [??] [??] [??] [??] ? ? ? ? ?]; unfold small, lead in *.

Lemma fits_word m x : fits c m -> 0 <= x <= m + 2 ^ 22 -> u64 x = x.
Proof using C.
  clear -C. intros [H1 H2] H. apply u64_small. destruct (co_freq c C). pose proof (freq_half c (co_freq c C)). pose proof max64_eq. nia.
Qed.

Lemma fits_mul m x : fits c m -> x <= m + 2 ^ 22 -> x * sysFreqKHz c < 2 ^ 62.
Proof using C.
  clear -C. intros [H1 H2] H. destruct (co_freq c C). pose proof (freq_half c (co_freq c C)).
  pose proof (Z.mul_le_mono_nonneg_r x (m + 2 ^ 22) (sysFreqKHz c) ltac:(lia) H). lia.
Qed.

Definition oldest (s : DDR) (l : AddrLoc) : Z := hd 0 (win_view (rankActWindows s !!! rank l)).
Definition pre_of (r : Request) (b : Bank) : Z := if open b then Z.max (arrivalCycle r) (minPreCycle b) else minPreCycle b.
Definition act_of (s : DDR) (r : Request) : Z :=
  let b := bk s (q_loc r) in
  Z.max (Z.max (arrivalCycle r) (Z.max (pre_of r b + tRP c) (lastActCycle b + tRRD c))) (oldest s (q_loc r) + tFAW c).
Definition hits (s : DDR) (r : Request) : bool := row_hit r (bk s (q_loc r)).
Definition min_cmd (s : DDR) (r : Request) : Z :=
  if hits s r then Z.max (arrivalCycle r) (lastCmdCycle (bk s (q_loc r)) + 1) else act_of s r + tRCD c.

(** Every cycle of the state is near the clock. *)
Definition nigh (m x : Z) : Prop := 0 <= x <= m + 2 ^ 20.
Record near (m : Z) (s : DDR) : Prop := {
  nr_fits : fits c m;
  nr_shape : shape c s;
  nr_bank : forall l, in_range c l -> nigh m (minPreCycle (bk s l)) /\ nigh m (lastActCycle (bk s l)) /\ nigh m (lastCmdCycle (bk s l));
  nr_win : forall rk, (rk < ranksPerChannel c)%nat -> win_ok (rankActWindows s !!! rk) /\ Forall (nigh m) (win_view (rankActWindows s !!! rk));
  nr_resp : tCL c + tBL c + 1 <= minRespCycle s <= m + 2 ^ 20
}.

Definition req_near (m : Z) (r : Request) : Prop := in_range c (q_loc r) /\ 0 <= arrivalCycle r <= m.

Lemma oldest_view m s l : near m s -> in_range c l ->
  exists vs, win_view (rankActWindows s !!! rank l) = oldest s l :: vs /\ nigh m (oldest s l).
Proof using.
  intros N [Hl _]. destruct (nr_win m s N _ Hl) as [Hok Hf]. unfold oldest. destruct (win_view_cons _ Hok) as (x & vs & E). rewrite E in *.
  exists vs. split; [done|]. by apply Forall_cons in Hf as [? _].
Qed.

Lemma wp_win_get m s l Q : near m s -> in_range c l -> Q (rankActWindows s !!! rank l) s -> wp (win_get l) s Q.
Proof using.
  intros N [Hl _] HQ. apply wp_bind, wp_get. eapply wp_lift; [|done]. apply rd_lt. by rewrite (sh_wins c s (nr_shape m s N)).
Qed.

Lemma pre_cycle_ok s r : hits s r = false -> pre_cycle r (bk s (q_loc r)) = Ok (pre_of r (bk s (q_loc r))).
Proof using.
  unfold hits, row_hit, pre_cycle, pre_of. destruct (open _); [|done]. rewrite andb_true_r. by intros ->.
Qed.

Lemma act_cycle_ok m s r : near m s -> req_near m r ->
  act_cycle c r (bk s (q_loc r)) (pre_of r (bk s (q_loc r))) (oldest s (q_loc r)) = act_of s r.
Proof using C.
  intros N [Hl Ha]. pose proof (nr_fits m s N) as F. destruct (nr_bank m s N _ Hl) as (H1 & H2 & H3).
  destruct (oldest_view m s _ N Hl) as (_ & _ & H4). unfold act_cycle, act_of, pre_of, nigh in *. conf.
  destruct (open _); rewrite !(fits_word m) by (done || lia); done.
Qed.

Lemma wp_find m s r Q : near m s -> req_near m r -> Q (min_cmd s r) s -> wp (findMinCmdCycle c r) s Q.
Proof using C.
  intros N R HQ. pose proof R as [Hl Ha]. pose proof (nr_fits m s N) as F. destruct (nr_bank m s N _ Hl) as (H1 & H2 & H3).
  destruct (oldest_view m s _ N Hl) as (vs & Ev & H4). pose proof (act_cycle_ok m s r N R) as Ea.
  unfold findMinCmdCycle. apply wp_bind, (wp_bank_get c); [apply (nr_shape m s N)|done|]. fold (hits s r). unfold min_cmd in HQ.
  destruct (hits s r) eqn:Eh; [apply wp_ret|].
  - unfold nigh in *. conf. by rewrite (fits_word m) by (done || lia).
  - apply wp_bind. eapply wp_lift; [by apply pre_cycle_ok|]. apply wp_bind, (wp_win_get m); [done|done|].
    apply wp_bind. eapply wp_lift; [eapply win_min; [by apply (nr_win m s N), Hl|exact Ev]|]. apply wp_ret. rewrite Ea.
    unfold act_of, pre_of, nigh in *. conf. destruct (open _); by rewrite (fits_word m) by (done || lia).
Qed.

(** *** The search for a request that can issue *)

Definition first (w : bool) (s : DDR) (n : nat) : Prop := head (bank_reqs w (bk s (q_loc (req w s n)))) = Some n.

Definition scanned (w : bool) (s : DDR) (cur : Z) (l : list nat) (acc : Z) (m : Z) (o : option nat) : Prop :=
  match o with
  | Some n => n ∈ l /\ first w s n /\ min_cmd s (req w s n) <= cur
  | None => (forall n, n ∈ l -> first w s n -> cur < min_cmd s (req w s n) /\ m <= min_cmd s (req w s n)) /\ m <= acc /\
            (m = acc \/ exists n, n ∈ l /\ first w s n /\ m = min_cmd s (req w s n))
  end.

Lemma scanned_cons w s cur n l acc acc' m o : acc' <= acc ->
  (first w s n -> cur < min_cmd s (req w s n) /\ acc' <= min_cmd s (req w s n)) ->
  (acc' = acc \/ first w s n /\ acc' = min_cmd s (req w s n)) ->
  scanned w s cur l acc' m o -> scanned w s cur (n :: l) acc m o.
Proof using.
  intros Ha Hn Hacc. destruct o as [k|]; cbn.
  - intros (H1 & H2 & H3). split; [by right|done].
  - intros (H1 & H2 & H3). split; [|split; [lia|]].
    + intros k [->|Hk]%elem_of_cons Hf; [specialize (Hn Hf); lia|by apply H1].
    + destruct H3 as [->|(k & Hk & Hf & ->)]; [|right; exists k; split; [by right|done]].
      destruct Hacc as [->|[Hf ->]]; [by left|]. right. exists n. split; [by left|done].
Qed.

Lemma wp_scan m w s cur l acc Q : near m s -> Forall (fun n => (n < pool_size w s)%nat /\ req_near m (req w s n)) l ->
  (forall x o, scanned w s cur l acc x o -> Q (x, o) s) -> wp (scan c w cur l acc) s Q.
Proof using C.
  intros N Hl. revert acc Q. induction Hl as [|n l [Hn R] Hl IH]; intros acc Q HQ; cbn [scan].
  { apply wp_ret, HQ. cbn. split; [by intros ? ?%elem_of_nil|]. split; [lia|by left]. }
  pose proof R as [Hr _]. apply wp_bind, (wp_first_in_bank c); [done|apply (nr_shape m s N)|done|]. case_bool_decide as Hf.
  - apply wp_bind, wp_req_get; [done|]. apply wp_bind, (wp_find m); [done|done|]. destruct (Z.leb_spec (min_cmd s (req w s n)) cur) as [Hle|Hgt].
    + apply wp_ret, HQ. split; [by left|done].
    + apply IH. intros x o Hx. apply HQ. eapply (scanned_cons w s cur n l acc); [..|exact Hx]; [lia|lia|].
      destruct (Z.min_spec acc (min_cmd s (req w s n))) as [[_ ->]|[_ ->]]; auto.
  - apply IH. intros x o Hx. apply HQ. eapply (scanned_cons w s cur n l acc); [..|exact Hx]; [lia|by intros Hf'|by left].
Qed.

(** *** Issuing a command *)

Definition turn (s : DDR) (r : Request) (cur : Z) : Z :=
  let x := Z.max cur (minRespCycle s - tCL c) in
  if lastCmdWasWrite s && negb (q_write r) then Z.max x (minRespCycle s + tWTR c) else x.
Definition cas_of (s : DDR) (r : Request) (cur : Z) : Z :=
  if hits s r then turn s r cur else Z.max (turn s r cur) (act_of s r + tRCD c).
Definition act_opt (s : DDR) (r : Request) : option Z := if hits s r then None else Some (act_of s r).

(** The bank once its row is open. *)
Definition opened (s : DDR) (r : Request) : Bank :=
  let b := bk s (q_loc r) in
  if hits s r then b
  else mkBank (row (q_loc r)) true (if open b then pre_of r b + tRAS c else minPreCycle b) (act_of s r) (lastCmdCycle b)
              (curRowHits b) (rdReqs b) (wrReqs b).

Definition wins_after (s : DDR) (r : Request) (ws : list ActWindow.t) : Prop :=
  if hits s r then ws = rankActWindows s
  else exists w', ws = <[rank (q_loc r) := w']> (rankActWindows s) /\ win_ok w' /\
         win_view w' ≡ₚ act_of s r :: tail (win_view (rankActWindows s !!! rank (q_loc r))).

(** The state with another bank and other windows. *)
Definition with_bank (l : AddrLoc) (b : Bank) (ws : list ActWindow.t) (s : DDR) : DDR := set_rankActWindows (set_bank l b s) ws.

Lemma set_bank_same l s : shape c s -> in_range c l -> set_bank l (bk s l) s = s.
Proof using.
  intros H Hl. destruct (shape_rank c s l H Hl) as [H1 _]. pose proof (shape_bank c s l H Hl) as H2.
  unfold set_bank. rewrite (list_insert_id _ _ _ H2), (list_insert_id _ _ _ H1). by destruct s.
Qed.

Lemma wp_activate m s r mc Q : near m s -> req_near m r -> nigh m mc ->
  (forall ws, wins_after s r ws ->
     Q (if hits s r then mc else Z.max mc (act_of s r + tRCD c), act_opt s r) (with_bank (q_loc r) (opened s r) ws s)) ->
  wp (activate c r mc) s Q.
Proof using C.
  intros N R Hmc HQ. pose proof R as [Hl Ha]. pose proof (nr_fits m s N) as F. pose proof (nr_shape m s N) as Hs.
  destruct (nr_bank m s N _ Hl) as (H1 & H2 & H3). destruct (oldest_view m s _ N Hl) as (vs & Ev & H4).
  pose proof (act_cycle_ok m s r N R) as Ea. unfold act_opt, wins_after, opened in HQ.
  unfold activate. apply wp_bind, (wp_bank_get c); [done|done|]. fold (hits s r). destruct (hits s r) eqn:Eh.
  { apply wp_ret. specialize (HQ _ eq_refl). unfold with_bank in HQ. rewrite set_bank_same in HQ by done. by destruct s. }
  apply wp_bind. eapply wp_lift; [by apply pre_cycle_ok|]. apply wp_bind, (wp_win_get m); [done|done|].
  destruct (nr_win m s N _ (proj1 Hl)) as [Hok _].
  apply wp_bind. eapply wp_lift; [eapply win_min; [done|exact Ev]|]. cbv zeta. rewrite Ea.
  destruct (win_add _ _ _ (act_of s r) Hok Ev) as (w' & Hw & Hok' & Hv).
  { unfold act_of. conf. lia. }
  assert ((rank (q_loc r) < length (rankActWindows s))%nat) as Hr by (rewrite (sh_wins c s Hs); apply Hl).
  apply wp_bind. eapply wp_lift; [exact Hw|]. apply wp_bind, (wp_bank_put c); [done|done|]. apply wp_bind, wp_get, wp_bind.
  eapply wp_lift; [by apply wr_lt|]. apply wp_bind, wp_ret.
  assert (forall x, 0 <= x <= m + 2 ^ 20 + 2 ^ 19 -> u64 x = x) as Hu by (intros x Hx; apply (fits_word m); [done|lia]).
  specialize (HQ (<[rank (q_loc r) := w']> (rankActWindows s))). rewrite Ev in HQ. cbn [tail] in HQ.
  unfold act_of, pre_of, nigh in *. conf. rewrite (Hu (_ + tRCD c)) by (destruct (open _); lia).
  replace (if open (bk s (q_loc r)) then _ +64 tRAS c else _) with
    (if open (bk s (q_loc r)) then Z.max (arrivalCycle r) (minPreCycle (bk s (q_loc r))) + tRAS c else minPreCycle (bk s (q_loc r))).
  2: { destruct (open _); [|done]. by rewrite Hu by lia. }
  assert (forall x y : Bank, x = y -> with_bank (q_loc r) x (<[rank (q_loc r):=w']> (rankActWindows s)) s = set_rankActWindows (set_bank (q_loc r) y s) (<[rank (q_loc r):=w']> (rankActWindows s))) as Hx by (by intros x y ->).
  erewrite Hx in HQ; [apply HQ|]; [by exists w'|]. by destruct (open _).
Qed.

(** The bank once the column command is issued; [o]: its row stays open. *)
Definition commanded (b : Bank) (r : Request) (cas : Z) (o : bool) : Bank :=
  mkBank (openRow b) o
    (Z.max (minPreCycle b) (Z.max (lastActCycle b + tRAS c) (if q_write r then cas + tCL c + tBL c + tWR c else cas + tRTP c)))
    (lastActCycle b) cas (rowHitSeq r) (rdReqs b) (wrReqs b).

Lemma wp_next_hits w l t (Q : bool -> DDR -> Prop) : Forall (fun n => n < pool_size w t)%nat l ->
  (forall x, Q x t) -> wp (next_hits w l) t Q.
Proof using.
  intros Hl HQ. unfold next_hits. destruct Hl as [|? ? _ [|n ? Hn _]]; [by apply wp_ret|by apply wp_ret|].
  apply wp_bind, wp_req_get; [done|]. apply wp_ret, HQ.
Qed.

Lemma wp_column m w t r mc (Q : Z -> DDR -> Prop) : let b := bk t (q_loc r) in
  fits c m -> shape c t -> in_range c (q_loc r) -> 0 <= mc <= m + 2 ^ 20 + 2 ^ 18 -> tCL c <= minRespCycle t <= m + 2 ^ 20 ->
  0 <= lastActCycle b <= m + 2 ^ 20 + 2 ^ 18 -> minRespCycle t - tCL c <= mc -> lastCmdCycle b < mc -> open b = true ->
  Forall (fun n => n < pool_size w t)%nat (bank_reqs w b) ->
  (forall o, Q mc (set_bank (q_loc r) (commanded b r mc o) (set_lastCmdWasWrite (set_minRespCycle t (mc + tCL c + tBL c)) (q_write r)))) ->
  wp (column c w r mc) t Q.
Proof using C.
  intros b F Hs Hl Hmc Hr Hla Hle Hlt Ho Hf HQ. assert (forall x, 0 <= x <= m + 2 ^ 20 + 2 ^ 19 -> u64 x = x) as Hu by (intros x Hx; apply (fits_word m); [done|lia]).
  unfold column. apply wp_bind, wp_get. cbv zeta. conf. rewrite (Hu (minRespCycle t - _)) by lia. rewrite (Z.max_l mc) by lia.
  rewrite (Hu (mc + _)) by lia. rewrite (Hu (mc + _ + _)) by lia. apply wp_bind, wp_modify.
  set (t' := set_lastCmdWasWrite _ _). assert (bk t' (q_loc r) = b) as Eb by done.
  apply wp_bind, (wp_bank_get c); [by destruct Hs|done|]. rewrite Eb. apply wp_bind, wp_next_hits; [by destruct w|]. intros x.
  apply wp_bind, wp_assert; [by apply Z.ltb_lt|]. apply wp_bind, (wp_bank_put c); [by destruct Hs|done|]. apply wp_ret.
  rewrite (Hu (lastActCycle b + _)) by lia. rewrite (Hu (mc + tRTP c)) by lia. rewrite (Hu (mc + tCL c + tBL c + tWR c)) by lia. apply HQ.
Qed.

(** The answer to a read. *)
Definition read_done (s : DDR) : Z := m2s c (minRespCycle s) - m2s c (tCL c + tBL c - 1).

Lemma wp_respond m t r h sys (Q : unit -> DDR -> Prop) : fits c m -> 0 <= sys -> s2m c sys <= m ->
  m + tCL c + tBL c <= minRespCycle t <= m + 2 ^ 20 + 2 ^ 19 -> length (latencyHist (prof t)) = Z.to_nat NUMBINS ->
  match q_ev r with
  | Some ev => q_write r = false /\ exists a, accEvents t !! ev = Some (mkAcc a false EV_HELD)
  | None => True end ->
  (forall p, length (latencyHist p) = Z.to_nat NUMBINS ->
     Q tt (set_prof (match q_ev r with Some ev => finish ev (read_done t) t | None => t end) p)) ->
  wp (respond c r h sys) t Q.
Proof using C.
  intros F Hsys Hs2m Hm Hh He HQ. pose proof (co_freq c C) as Fr. pose proof (freq_half c Fr) as Hfh. pose proof Fr as [Hf1 Hf2 Hf3].
  assert (m2s c (minRespCycle t) < 2 ^ 63 - 2 ^ 33) as Hb.
  { destruct F as [F0 F]. unfold m2s. apply Z.div_lt_upper_bound; [lia|].
    pose proof (fits_mul m (minRespCycle t + 1) (conj F0 F) ltac:(lia)).
    pose proof (Z.mul_le_mono_nonneg_r 1 (memFreqKHz c) (2 ^ 63 - 2 ^ 33) ltac:(lia) ltac:(lia)). lia. }
  pose proof (m2s_add c Fr sys (minRespCycle t) (tCL c + tBL c) Hsys ltac:(conf; lia) ltac:(lia)) as Hge.
  assert (0 <= m2s c (tCL c + tBL c - 1)) as H0 by (unfold m2s; conf; apply Z.div_pos; nia).
  unfold respond. apply wp_bind, wp_get. cbv zeta. rewrite memToSysCycle_eq; [|done|destruct F; conf; lia|].
  2: { pose proof (fits_mul m (minRespCycle t + 1) F ltac:(lia)). lia. }
  rewrite (co_pre c C), (co_postRd c C). pose proof (co_lat c C) as Hlat. rewrite (u64_small (m2s c _ + _)) by (pose proof max64_eq; lia).
  destruct (q_ev r) as [ev|]; [|apply wp_modify; by apply HQ].
  destruct He as (Ew & a & Ea). apply wp_bind. unfold acc_get. apply wp_bind, wp_get. rewrite Ea. apply wp_ret, wp_bind.
  apply wp_assert; [by rewrite Ew|]. apply wp_bind, wp_assert; [apply Z.leb_le; lia|].
  rewrite (u64_small (m2s c _ + controllerSysLatency c - controllerSysLatency c)) by (pose proof max64_eq; lia). rewrite (u64_small (_ - m2s c (tCL c + tBL c - 1))) by (pose proof max64_eq; lia).
  replace (m2s c (minRespCycle t) + controllerSysLatency c - controllerSysLatency c - m2s c (tCL c + tBL c - 1)) with (read_done t) by (unfold read_done; lia).
  set (x := read_done t) in *. set (y := u32 _).
  assert (forall (k : ST DDR unit) R, wp (_ ← (_ ← acc_release ev; acc_done ev x); k) t R -> wp (_ ← acc_release ev; _ ← acc_done ev x; k) t R) as Hassoc.
  { intros k R. unfold wp, mbind, ST_bind. destruct (acc_release ev t) as [[[] s']|]; [|done]. done. }
  apply Hassoc, wp_bind. eapply wp_finish_ev; [done|done|].
  apply wp_bind, wp_get. assert (prof (finish ev x t) = prof t) as Ep by (unfold finish; by destruct (accEvents t !! ev)).
  rewrite Ep. apply wp_bind. eapply wp_lift; [apply upd_lt; rewrite Hh|].
  { assert (0 <= y) as Hy by (unfold y; apply u32_bound). unfold NUMBINS, BINSIZE. pose proof (Z.div_pos y 10 Hy ltac:(lia)). lia. }
  apply wp_modify. apply HQ. cbn. by rewrite length_insert.
Qed.

(** The state a command leaves. *)
Record issued (w : bool) (n : nat) (m : Z) (s s' : DDR) : Prop := {
  is_shape : shape c s';
  is_bank l : bk s' l = if decide (same_bank (q_loc (req w s n)) l)
    then set_reqs w (commanded (opened s (req w s n)) (req w s n) (cas_of s (req w s n) m) (open (bk s' l)))
                  (tail (bank_reqs w (bk s l)))
    else bk s l;
  is_wins : wins_after s (req w s n) (rankActWindows s');
  is_resp : minRespCycle s' = cas_of s (req w s n) m + tCL c + tBL c;
  is_last : lastCmdWasWrite s' = q_write (req w s n);
  is_queue : the_queue w s' = RequestQueue.remove (the_queue w s) n;
  is_other : the_queue (negb w) s' = the_queue (negb w) s;
  is_ovf : overflowQueue s' = overflowQueue s;
  is_next : nextSchedEvent s' = nextSchedEvent s /\ nextSchedCycle s' = nextSchedCycle s /\ eventFreelist s' = eventFreelist s;
  is_sched : schedEvents s' = schedEvents s;
  is_prof : length (latencyHist (prof s')) = Z.to_nat NUMBINS;
  is_trace : let r := req w s n in
    let tr := Command (rank (q_loc r)) (bank (q_loc r)) (row (q_loc r)) (q_write r) (act_opt s r) (cas_of s r m) :: trace s in
    match q_ev r with
    | Some ev => trace s' = Done ev (m2s c (minRespCycle s') - m2s c (tCL c + tBL c - 1)) :: tr /\
        exists a, accEvents s !! ev = Some a /\ accEvents s' = <[ev := mkAcc (acc_addr a) (acc_write a) EV_DONE]> (accEvents s)
    | None => trace s' = tr /\ accEvents s' = accEvents s
    end
}.

(** What makes a request ready at the clock. *)
Record ready (w : bool) (n : nat) (m : Z) (s : DDR) : Prop := {
  rd_near : near m s;
  rd_pool : (n < pool_size w s)%nat;
  rd_req : req_near m (req w s n);
  rd_list : Forall (fun k => k < pool_size w s)%nat (bank_reqs w (bk s (q_loc (req w s n))));
  rd_cmd : min_cmd s (req w s n) <= m;
  rd_resp : minRespCycle s <= m + tCL c;
  rd_last : lastCmdCycle (bk s (q_loc (req w s n))) <= minPreCycle (bk s (q_loc (req w s n)));
  rd_prof : length (latencyHist (prof s)) = Z.to_nat NUMBINS;
  rd_ev : match q_ev (req w s n) with
    | Some ev => q_write (req w s n) = false /\ exists a, accEvents s !! ev = Some (mkAcc a false EV_HELD)
    | None => True end
}.

Lemma ready_bounds w n m s : ready w n m s -> let r := req w s n in
  m <= turn s r m <= m + tCL c + tWTR c /\ minRespCycle s - tCL c <= turn s r m /\
  (hits s r = false -> 0 <= act_of s r /\ act_of s r + tRCD c <= m) /\
  m <= cas_of s r m <= m + tCL c + tWTR c /\ lastCmdCycle (bk s (q_loc r)) < cas_of s r m /\
  lastCmdCycle (bk s (q_loc r)) < cas_of s r m /\ turn s r m <= cas_of s r m.
Proof using C.
  intros R r. pose proof (rd_cmd _ _ _ _ R) as Hc. pose proof (rd_resp _ _ _ _ R) as Hr. pose proof (rd_last _ _ _ _ R) as Hl.
  destruct (rd_req _ _ _ _ R) as [Hi Ha]. destruct (nr_bank _ _ (rd_near _ _ _ _ R) _ Hi) as (H1 & H2 & H3). fold r in Hc, Hl, Ha, H1, H2, H3.
  pose proof (nr_resp _ _ (rd_near _ _ _ _ R)) as Hm. unfold cas_of, turn, min_cmd, act_of, pre_of, nigh in *. conf.
  destruct (hits s r) eqn:Eh; destruct (lastCmdWasWrite s && negb (q_write r)); destruct (open (bk s (q_loc r))); repeat split; try lia; intros; try discriminate; lia.
Qed.

Lemma opened_eq w n m s : ready w n m s -> open (opened s (req w s n)) = true /\ lastCmdCycle (opened s (req w s n)) = lastCmdCycle (bk s (q_loc (req w s n))) /\
  0 <= lastActCycle (opened s (req w s n)) <= m + 2 ^ 20 /\ bank_reqs w (opened s (req w s n)) = bank_reqs w (bk s (q_loc (req w s n))) /\
  bank_reqs (negb w) (opened s (req w s n)) = bank_reqs (negb w) (bk s (q_loc (req w s n))).
Proof using C.
  intros R. destruct (ready_bounds _ _ _ _ R) as (_ & _ & Ha & _). destruct (rd_req _ _ _ _ R) as [Hi _].
  destruct (nr_bank _ _ (rd_near _ _ _ _ R) _ Hi) as (_ & H2 & _). unfold opened. unfold nigh in *. conf.
  destruct (hits s (req w s n)) eqn:Eh; [|cbn; destruct w; repeat split; lia].
  repeat split; try lia. unfold hits, row_hit in Eh. by apply andb_true_iff in Eh as [_ ?].
Qed.

(* a field of the final state, through the answer *)
Ltac answered_field t6 t5 t4 Ea3 w r :=
  unfold t6, t5, t4, finish; rewrite Ea3; destruct w, (q_ev r) as [ev|]; try done; match goal with |- context [accEvents ?s !! ?e] => by destruct (accEvents s !! e) end.

Lemma wp_issued_ok w n m sys s Q : ready w n m s -> first w s n -> 0 <= sys -> s2m c sys <= m ->
  (forall s', issued w n m s s' ->
     Q (if RequestQueue.empty (rdQueue s') && RequestQueue.empty (wrQueue s') then neg1 else minRespCycle s' - tCL c) s') ->
  wp (issue c w n m sys) s Q.
Proof using C.
  intros R Hf Hsys Hs2m HQ. pose proof (rd_near _ _ _ _ R) as N. destruct (rd_req _ _ _ _ R) as [Hl Ha]. pose proof (nr_shape m s N) as Hs.
  pose proof (nr_fits m s N) as F. pose proof (nr_resp m s N) as Hr. pose proof (rd_resp _ _ _ _ R) as Hr2.
  assert (forall x, 0 <= x <= m + 2 ^ 20 + 2 ^ 19 -> u64 x = x) as Hu by (intros x Hx; apply (fits_word m); [done|lia]).
  destruct (ready_bounds _ _ _ _ R) as (B1 & B2 & B3 & B4 & B5 & B6 & B7). destruct (opened_eq _ _ _ _ R) as (O1 & O2 & O3 & O4 & O5).
  unfold issue. apply wp_bind, wp_get, wp_bind, wp_req_get; [apply (rd_pool _ _ _ _ R)|]. set (r := req w s n) in *. cbv zeta.
  replace (if lastCmdWasWrite s && negb (q_write r) then _ else _) with (turn s r m).
  2: { unfold turn. conf. rewrite (Hu (minRespCycle s - tCL c)) by lia. by rewrite (Hu (minRespCycle s + tWTR c)) by lia. }
  apply wp_bind, (wp_activate m); [done|by split|unfold nigh; conf; lia|]. intros ws Hws.
  replace (if hits s r then turn s r m else _) with (cas_of s r m) by done.
  set (t1 := with_bank (q_loc r) (opened s r) ws s). assert (shape c t1) as Hs1.
  { pose proof (shape_set_bank c s (q_loc r) (opened s r) Hs Hl) as Hx. destruct Hx as [Hx1 Hx2 _]. split; [done|done|].
    cbn. unfold wins_after in Hws. destruct (hits s r); [by rewrite Hws; apply (sh_wins c s Hs)|]. destruct Hws as (w' & -> & _). rewrite length_insert. apply (sh_wins c s Hs). }
  assert (forall l, bk t1 l = if decide (same_bank (q_loc r) l) then opened s r else bk s l) as Hb1 by (intros l; by apply (bk_set c)).
  assert (bk t1 (q_loc r) = opened s r) as Eb1 by (rewrite Hb1; by rewrite decide_True).
  assert (forall k, pool_size k t1 = pool_size k s) as Ep by (by intros []).
  apply wp_bind, (wp_column m w t1); rewrite ?Eb1, ?O2, ?O4; [done|done|done|conf; lia|unfold t1; cbn; conf; lia|lia|unfold t1; cbn; lia|lia|done|..].
  { rewrite Ep. apply (rd_list _ _ _ _ R). }
  intros o. set (t2 := set_bank _ _ _). apply wp_bind, wp_modify. set (t3 := set_trace t2 _).
  assert (minRespCycle t3 = cas_of s r m + tCL c + tBL c) as Er3 by done.
  assert (accEvents t3 = accEvents s /\ prof t3 = prof s) as [Ea3 Ef3] by done.
  apply wp_bind, (wp_respond m t3); [done|done|done|rewrite Er3; conf; lia|apply (rd_prof _ _ _ _ R)|apply (rd_ev _ _ _ _ R)|]. intros p Hp.
  set (t4 := set_prof _ p). assert (forall k, the_queue k t4 = the_queue k s) as Eq4.
  { intros k. unfold t4, finish. rewrite Ea3. destruct k, (q_ev r) as [ev|]; try done; by destruct (accEvents s !! ev). }
  assert (banks t4 = banks t2 /\ rankActWindows t4 = ws) as [Ebk4 Ew4].
  { unfold t4, finish. rewrite Ea3. destruct (q_ev r) as [ev|]; [|done]. by destruct (accEvents s !! ev). }
  assert (shape c t4) as Hs4.
  { assert (shape c t2) as [? ? ?]; [|split; rewrite ?Ebk4, ?Ew4; done]. apply shape_set_bank; [by destruct Hs1|done]. }
  unfold dequeue. apply wp_bind, wp_bind, wp_get, wp_bind, wp_modify. rewrite Eq4. set (t5 := set_the_queue w t4 _).
  assert (forall l, bk t5 l = bk t2 l) as Hb5 by (intros l; unfold bk; rewrite <- Ebk4; by unfold t5; destruct w).
  assert (shape c t5) as Hs5 by (destruct Hs4; unfold t5; by destruct w).
  assert (forall l, bk t2 l = if decide (same_bank (q_loc r) l) then commanded (opened s r) r (cas_of s r m) o else bk s l) as Hb2.
  { intros l. unfold t2. rewrite (bk_set c) by (by destruct Hs1). case_decide as E; [done|]. change (bk t1 l = bk s l). rewrite Hb1. by rewrite decide_False. }
  apply wp_bind, (wp_bank_get c); [done|done|]. apply (wp_bank_put c); [done|done|]. rewrite Hb5, Hb2, decide_True by done.
  set (t6 := set_bank _ _ t5). apply wp_bind, wp_get, wp_ret.
  assert (forall k, the_queue k t6 = the_queue k t5) as Eq6 by (by intros []).
  assert (minRespCycle t6 = cas_of s r m + tCL c + tBL c) as Er6.
  { rewrite <- Er3. answered_field t6 t5 t4 Ea3 w r. }
  assert (forall l, bk t6 l = if decide (same_bank (q_loc r) l) then set_reqs w (commanded (opened s r) r (cas_of s r m) o)
    (tail (bank_reqs w (commanded (opened s r) r (cas_of s r m) o))) else bk s l) as Hb6.
  { intros l. unfold t6. rewrite (bk_set c) by done. case_decide; [done|]. by rewrite Hb5, Hb2, decide_False. }
  rewrite (Hu (minRespCycle t6 - tCL c)) by (rewrite Er6; conf; lia). apply HQ. split; fold r.
  - by apply shape_set_bank.
  - intros l. rewrite Hb6. destruct (decide (same_bank (q_loc r) l)) as [E|E]; [|done].
    assert (bank_reqs w (commanded (opened s r) r (cas_of s r m) o) = bank_reqs w (opened s r)) as -> by (by destruct w).
    rewrite O4. assert (bk s (q_loc r) = bk s l) as -> by (unfold bk; by destruct E as [-> ->]). by destruct w.
  - rewrite <- Ew4 in Hws. unfold t6, t5. by destruct w.
  - done.
  - answered_field t6 t5 t4 Ea3 w r.
  - rewrite Eq6. unfold t5. by rewrite the_queue_eq.
  - rewrite Eq6. unfold t5. by rewrite the_queue_ne, Eq4.
  - answered_field t6 t5 t4 Ea3 w r.
  - answered_field t6 t5 t4 Ea3 w r.
  - answered_field t6 t5 t4 Ea3 w r.
  - unfold t6, t5, t4. by destruct w.
  - cbv zeta. pose proof (rd_ev _ _ _ _ R) as He. fold r in He. rewrite Er6, <- Er3. unfold t6, t5, t4, finish. rewrite Ea3.
    destruct (q_ev r) as [ev|]; [|by destruct w]. destruct He as (_ & a & ->). split; [by destruct w|].
    exists (mkAcc a false EV_HELD). split; [done|by destruct w].
Qed.
End timing.
