(* ===== verification/DDRQueue.v ===== *)
(** * The queues of the DDR controller

    The read and write queues, their pools and the banks' lists hold the same
    requests, the lists in first-ready order ([wq_ok]); admitting a request and
    issuing one keep that, and neither brings a waiting request further from its
    turn than it was. *)

From Stdlib Require Import Ascii.
From S2P Require Import Prelude Floats MemHier MTRand ReplPolicies CacheArrays TimingEvent World Memory DDRMem DDRBase DDRExec.
Local Open Scope Z_scope.
Import DDRMemory.
#[local] Existing Instance ActWindow.inhabited.

Section queues.
Context (c : Conf) (C : conf_ok c).
Local Notation lim := (rowHitLimit c).
Local Notation issued := (issued c).
Local Notation ready := (ready c).

(** ** The place of a new request *)

Lemma place_at_spec f f' n b q : NoDup q -> n ∉ q -> agree f f' q -> runs f q -> seqs_ok lim f q -> 0 <= curRowHits b ->
  let p := place_at c f n b (rs_row f' n) q in
  rs_seq f' n = p.1 ->
  p.2 ≡ₚ n :: q /\ runs f' p.2 /\ seqs_ok lim f' p.2 /\ (forall x, x ∈ q -> ahead lim f' x p.2 = ahead lim f x q).
Proof using C.
  intros Hnd Hn Ha Hr Hs Hh p. pose proof (co_limit c C) as Hlim. pose proof max64_eq.
  pose proof (runs_agree f f' q Ha Hr) as Hr'. pose proof (seqs_agree lim f f' q Ha Hs) as Hs'.
  assert (rs_seq f' n = 0 -> (q ++ [n]) ≡ₚ n :: q /\ runs f' (q ++ [n]) /\ seqs_ok lim f' (q ++ [n]) /\
    (forall x, x ∈ q -> ahead lim f' x (q ++ [n]) = ahead lim f x q)) as Hback.
  { intros E0. split; [by rewrite Permutation_app_comm|]. split; [by apply runs_snoc|]. split; [apply Forall_app; split; [done|constructor; [lia|constructor]]|].
    intros x Hx. rewrite ahead_snoc by done. by apply ahead_agree. }
  unfold p, place_at. clear p. destruct (find_row f (rs_row f' n) (rev q)) as [m|] eqn:Ef.
  - destruct (Z.ltb_spec (rs_seq f m) lim) as [Hlt|]; [|apply Hback]. cbn [fst snd].
    apply find_row_some in Ef as (l1 & l2 & -> & Hm & Hl2). intros Ep.
    assert (m ∈ l1 ++ m :: l2) as Hin by set_solver. destruct (Ha m Hin) as [Em1 Em2].
    assert (0 <= rs_seq f m <= lim) as Hb by (by eapply Forall_forall in Hs).
    rewrite u64_small in Ep by lia.
    assert (more_hits f' l2 = false) as Hmh.
    { rewrite (more_hits_agree f f'); [by eapply (no_more_hits f m l1 l2)|]. intros y Hy. apply Ha. set_solver. }
    apply NoDup_app in Hnd as (_ & Hd & _). rewrite insertAfter_app by (intros Hml; apply (Hd m Hml); by left).
    assert (seqs_ok lim f' (l1 ++ m :: n :: l2)) as Hsn.
    { apply Forall_app in Hs' as [H1 [H2 H3]%Forall_cons]. apply Forall_app. repeat (constructor || split); try done; lia. }
    split; [solve_Permutation|]. split; [apply runs_insert; [done|done|congruence|congruence]|]. split; [done|].
    intros x Hx. rewrite ahead_insert; [by apply ahead_agree|done|by intros ->|done|lia|congruence].
  - destruct (open b && (rs_row f' n =? openRow b) && (curRowHits b <? lim) && bool_decide (q = [])) eqn:Eb; [|apply Hback].
    apply andb_true_iff in Eb as [Eb ->%bool_decide_eq_true]. apply andb_true_iff in Eb as [_ Eb%Z.ltb_lt]. cbn [fst snd].
    rewrite u64_small by lia. intros Ep. split; [done|]. split; [done|]. split; [constructor; [lia|constructor]|].
    intros x Hx. by apply not_elem_of_nil in Hx.
Qed.

(** ** The invariant *)

Record pool_ok (q : RequestQueue.t) : Prop := {
  po_len : length (RequestQueue.elems q) = Z.to_nat (queueDepth c);
  po_perm : RequestQueue.reqList q ++ RequestQueue.freeList q ≡ₚ seq 0 (Z.to_nat (queueDepth c))
}.

Record wq_ok (w : bool) (s : DDR) : Prop := {
  wq_pool : pool_ok (the_queue w s);
  wq_req n : n ∈ live w s -> in_range c (q_loc (req w s n)) /\ use_wr c (q_write (req w s n)) = w;
  wq_bank l : in_range c l -> bank_reqs w (bk s l) ≡ₚ filter (fun n => same_bank (q_loc (req w s n)) l) (live w s);
  wq_runs l : in_range c l -> runs (rows_of w s) (bank_reqs w (bk s l)) /\ seqs_ok lim (rows_of w s) (bank_reqs w (bk s l));
  wq_hits l : in_range c l -> 0 <= curRowHits (bk s l)
}.

Lemma pool_nodup q : pool_ok q -> NoDup (RequestQueue.reqList q) /\ NoDup (RequestQueue.freeList q) /\
  (forall n, n ∈ RequestQueue.reqList q -> n ∉ RequestQueue.freeList q) /\
  forall n, n ∈ RequestQueue.reqList q \/ n ∈ RequestQueue.freeList q -> (n < length (RequestQueue.elems q))%nat.
Proof using C.
  intros [Hl Hp]. assert (NoDup (RequestQueue.reqList q ++ RequestQueue.freeList q)) as Hnd by (rewrite Hp; apply NoDup_seq).
  apply NoDup_app in Hnd as (H1 & H2 & H3). split; [done|]. split; [done|]. split; [done|]. intros n Hn.
  assert (n ∈ seq 0 (Z.to_nat (queueDepth c))) as Hin by (rewrite <- Hp; set_solver). apply elem_of_seq in Hin. lia.
Qed.

Lemma live_pool w s n : wq_ok w s -> n ∈ live w s -> (n < pool_size w s)%nat.
Proof using C. intros H Hn. destruct (pool_nodup _ (wq_pool w s H)) as (_ & _ & _ & Hb). apply Hb. by left. Qed.

Lemma bank_live w s l n : wq_ok w s -> in_range c l -> n ∈ bank_reqs w (bk s l) <-> same_bank (q_loc (req w s n)) l /\ n ∈ live w s.
Proof using C. intros H Hl. rewrite (wq_bank w s H l Hl), list_elem_of_filter. done. Qed.

Lemma bank_nodup w s l : wq_ok w s -> in_range c l -> NoDup (bank_reqs w (bk s l)).
Proof using C. intros H Hl. rewrite (wq_bank w s H l Hl). apply NoDup_filter, (pool_nodup _ (wq_pool w s H)). Qed.

Lemma bank_pool w s l : wq_ok w s -> in_range c l -> Forall (fun n => n < pool_size w s)%nat (bank_reqs w (bk s l)).
Proof using C. intros H Hl. apply Forall_forall. intros n Hn. apply (live_pool w s); [done|]. by apply (bank_live w s l n H Hl) in Hn as [_ ?]. Qed.

(** The lists depend on the requests through their rows and ranks only. *)
Lemma list_filter_iff' {A} (P Q : A -> Prop) `{forall x, Decision (P x), forall x, Decision (Q x)} (l : list A) :
  (forall x, x ∈ l -> P x <-> Q x) -> filter P l = filter Q l.
Proof using.
  induction l as [|x l IH]; [done|]. intros Hx. rewrite !filter_cons. rewrite IH by (intros y Hy; apply Hx; by right).
  pose proof (Hx x ltac:(left)). repeat case_decide; tauto.
Qed.

Lemma rows_agree w s s' l : (forall n, n ∈ l -> q_loc (req w s' n) = q_loc (req w s n) /\ rowHitSeq (req w s' n) = rowHitSeq (req w s n)) ->
  agree (rows_of w s) (rows_of w s') l.
Proof using C. intros H n Hn. destruct (H n Hn) as [H1 H2]. cbn. by rewrite H1, H2. Qed.

(** States with the same queue and lists. *)
Section same_queue.
Context (w : bool) (s s' : DDR).
Context (Eq : the_queue w s' = the_queue w s).
Context (Eb : forall l, in_range c l -> bank_reqs w (bk s' l) = bank_reqs w (bk s l)).

Lemma same_req n : req w s' n = req w s n.
Proof using C Eq. unfold req. by rewrite Eq. Qed.
Lemma same_live : live w s' = live w s.
Proof using C Eq. unfold live. by rewrite Eq. Qed.
Lemma same_rows l : agree (rows_of w s) (rows_of w s') l.
Proof using C Eq. apply rows_agree. intros n _. by rewrite same_req. Qed.

Lemma wq_same : (forall l, in_range c l -> 0 <= curRowHits (bk s' l)) -> wq_ok w s -> wq_ok w s'.
Proof using C Eq Eb.
  intros Hh V. split; [rewrite Eq; apply V|intros n; rewrite same_live, same_req; apply (wq_req _ _ V)|..|done]; intros l Hl; rewrite Eb by done.
  - rewrite same_live, (wq_bank _ _ V l Hl).
    rewrite (list_filter_iff' (fun n => same_bank (q_loc (req w s' n)) l) (fun n => same_bank (q_loc (req w s n)) l)); [done|].
    intros n _. by rewrite same_req.
  - destruct (wq_runs _ _ V l Hl) as [R1 R2]. split; [eapply runs_agree|eapply seqs_agree]; [apply same_rows|done|apply same_rows|done].
Qed.

Lemma same_ahead l x : in_range c l -> ahead lim (rows_of w s') x (bank_reqs w (bk s' l)) = ahead lim (rows_of w s) x (bank_reqs w (bk s l)).
Proof using C Eq Eb. intros Hl. rewrite Eb by done. apply ahead_agree, same_rows. Qed.
End same_queue.

(** ** Admission *)

(** [t]: the state once [n] is taken from the free nodes and holds [r]. *)
Record taken (w : bool) (n : nat) (r : Request) (s t : DDR) : Prop := {
  tk_queue : the_queue w t = RequestQueue.mk (<[n := r]> (RequestQueue.elems (the_queue w s))) (live w s ++ [n])
                               (removelast (RequestQueue.freeList (the_queue w s)));
  tk_free : last (RequestQueue.freeList (the_queue w s)) = Some n;
  tk_other : the_queue (negb w) t = the_queue (negb w) s;
  tk_bk l : bk t l = bk s l;
  tk_shape : shape c t
}.

Section admission.
Context (w : bool) (n : nat) (r : Request) (s t : DDR).
Context (W : wq_ok w s) (K : taken w n r s t) (Hr : in_range c (q_loc r)) (Hw : use_wr c (q_write r) = w).

Lemma tk_fresh : n ∈ RequestQueue.freeList (the_queue w s) /\ n ∉ live w s /\ (n < length (RequestQueue.elems (the_queue w s)))%nat.
Proof using C K W.
  destruct (pool_nodup _ (wq_pool _ _ W)) as (_ & _ & Hd & Hb).
  assert (n ∈ RequestQueue.freeList (the_queue w s)) as Hin by (pose proof (tk_free _ _ _ _ _ K) as Hl; by apply last_Some_elem_of in Hl).
  split; [done|]. split; [intros Hn; by apply (Hd n)|]. apply Hb. by right.
Qed.

Lemma tk_pool : (n < pool_size w t)%nat.
Proof using C K W. unfold pool_size. rewrite (tk_queue _ _ _ _ _ K). cbn. rewrite length_insert. apply tk_fresh. Qed.

Lemma tk_req m : req w t m = if decide (m = n) then r else req w s m.
Proof using C K W.
  unfold req. rewrite (tk_queue _ _ _ _ _ K). cbn. case_decide as E; [subst m; apply list_lookup_total_insert_eq, tk_fresh|].
  by apply list_lookup_total_insert_ne.
Qed.

Lemma placed_req m : let p := place_at c (rows_of w t) n (bk t (q_loc r)) (row (q_loc r)) (bank_reqs w (bk t (q_loc r))) in
  req w (placed c w n t) m = if decide (m = n) then set_rowHitSeq r p.1 else req w s m.
Proof using C K W.
  unfold placed. rewrite (tk_req n), decide_True by done. set (p := place_at _ _ _ _ _ _). 
  change (req w (set_req w n (set_rowHitSeq r p.1) t) m = if decide (m = n) then set_rowHitSeq r p.1 else req w s m).
  rewrite req_set_req by apply tk_pool. case_decide; [done|]. by rewrite tk_req, decide_False.
Qed.

Let p := place_at c (rows_of w t) n (bk t (q_loc r)) (row (q_loc r)) (bank_reqs w (bk t (q_loc r))).
Local Notation s' := (placed c w n t).

Lemma placed_queue : the_queue w s' = RequestQueue.mk (<[n := set_rowHitSeq r p.1]> (RequestQueue.elems (the_queue w s))) (live w s ++ [n])
                               (removelast (RequestQueue.freeList (the_queue w s))).
Proof using C K W.
  unfold placed. rewrite (tk_req n), decide_True by done. fold p.
  change (the_queue w (set_req w n (set_rowHitSeq r p.1) t) = RequestQueue.mk (<[n := set_rowHitSeq r p.1]> (RequestQueue.elems (the_queue w s))) (live w s ++ [n])
                               (removelast (RequestQueue.freeList (the_queue w s)))).
  unfold set_req, q_set. rewrite the_queue_eq, (tk_queue _ _ _ _ _ K). cbn. by rewrite list_insert_insert_eq.
Qed.

Lemma placed_other : the_queue (negb w) s' = the_queue (negb w) s.
Proof using C K W.
  rewrite <- (tk_other _ _ _ _ _ K). unfold placed. change (the_queue (negb w) (set_req w n (set_rowHitSeq (req w t n)
    (place_at c (rows_of w t) n (bk t (q_loc (req w t n))) (row (q_loc (req w t n))) (bank_reqs w (bk t (q_loc (req w t n))))).1) t) = the_queue (negb w) t).
  unfold set_req. by rewrite the_queue_ne.
Qed.

Lemma placed_bk l : bk s' l = if decide (same_bank (q_loc r) l) then set_reqs w (bk s l) p.2 else bk s l.
Proof using C K W Hr.
  unfold placed. rewrite (tk_req n), decide_True by done. fold p.
  rewrite (bk_set c) by (done || apply shape_set_req, (tk_shape _ _ _ _ _ K)). case_decide as E; [|by rewrite bk_set_req, (tk_bk _ _ _ _ _ K)].
  rewrite (tk_bk _ _ _ _ _ K). unfold bk. by destruct E as [-> ->].
Qed.

Lemma placed_shape : shape c s'.
Proof using C K W Hr.
  unfold placed. rewrite (tk_req n), decide_True by done. apply shape_set_bank; [apply shape_set_req, (tk_shape _ _ _ _ _ K)|done].
Qed.

Lemma placed_req' m : req w s' m = if decide (m = n) then set_rowHitSeq r p.1 else req w s m.
Proof using C K W. apply placed_req; done. Qed.

Lemma placed_rows l : in_range c l -> agree (rows_of w t) (rows_of w s') (bank_reqs w (bk s l)) /\ agree (rows_of w s) (rows_of w t) (bank_reqs w (bk s l)) /\ n ∉ bank_reqs w (bk s l).
Proof using C K W.
  intros Hl. destruct (tk_fresh) as (_ & Hn & _).
  assert (n ∉ bank_reqs w (bk s l)) as Hnb by (intros Hin; by apply (bank_live w s l n W Hl) in Hin as [_ ?]).
  assert (forall k, k ∈ bank_reqs w (bk s l) -> k <> n) as Hne by (by intros k Hk ->).
  split; [|split; [|done]]; apply rows_agree; intros k Hk; specialize (Hne k Hk); rewrite ?placed_req', ?(tk_req), ?decide_False by done; done.
Qed.

(** The list the request joins. *)
Lemma placed_spec : let q := bank_reqs w (bk s (q_loc r)) in
  p.2 ≡ₚ n :: q /\ runs (rows_of w s') p.2 /\ seqs_ok lim (rows_of w s') p.2 /\
  (forall x, x ∈ q -> ahead lim (rows_of w s') x p.2 = ahead lim (rows_of w s) x q).
Proof using C K W Hr.
  intros q. destruct (placed_rows (q_loc r) Hr) as (A1 & A2 & Hn). destruct (wq_runs _ _ W _ Hr) as [R1 R2]. fold q in A1, A2, Hn, R1, R2.
  assert (bank_reqs w (bk t (q_loc r)) = q) as Eq by (unfold q; by rewrite (tk_bk _ _ _ _ _ K)).
  assert (rs_row (rows_of w s') n = row (q_loc r) /\ rs_seq (rows_of w s') n = p.1) as [Er Es].
  { cbn. by rewrite placed_req', decide_True. }
  destruct (place_at_spec (rows_of w t) (rows_of w s') n (bk t (q_loc r)) q) as (P1 & P2 & P3 & P4).
  - by apply bank_nodup.
  - done.
  - done.
  - by eapply runs_agree.
  - by eapply seqs_agree.
  - rewrite (tk_bk _ _ _ _ _ K). by apply (wq_hits _ _ W).
  - rewrite Er, Es. unfold p. by rewrite Eq.
  - rewrite Er in P1, P2, P3, P4. unfold p. rewrite Eq. split; [done|]. split; [done|]. split; [done|].
    intros x Hx. rewrite P4 by done. by apply ahead_agree.
Qed.

Lemma placed_ahead l x : in_range c l -> x ∈ bank_reqs w (bk s l) ->
  x ∈ bank_reqs w (bk s' l) /\ ahead lim (rows_of w s') x (bank_reqs w (bk s' l)) = ahead lim (rows_of w s) x (bank_reqs w (bk s l)).
Proof using C K W Hr.
  intros Hl Hx. rewrite placed_bk. destruct placed_spec as (P1 & _ & _ & P4). case_decide as E.
  - assert (bk s (q_loc r) = bk s l) as Eb by (unfold bk; by destruct E as [-> ->]). rewrite Eb in *. rewrite bank_reqs_eq.
    split; [rewrite P1; by right|by apply P4].
  - split; [done|]. destruct (placed_rows l Hl) as (A1 & A2 & _). rewrite (ahead_agree lim (rows_of w t)) by done. by apply ahead_agree.
Qed.

Lemma wq_placed : wq_ok w s'.
Proof using C K W Hr Hw.
  destruct (tk_fresh) as (Hf & Hn & Hlt). destruct placed_spec as (P1 & P2 & P3 & _).
  assert (live w s' = live w s ++ [n]) as El by (unfold live at 1; by rewrite placed_queue).
  assert (forall k, k ∈ live w s -> req w s' k = req w s k) as Hreq.
  { intros k Hk. rewrite placed_req', decide_False by (by intros ->). done. }
  assert (q_loc (req w s' n) = q_loc r /\ q_write (req w s' n) = q_write r) as [En1 En2] by (by rewrite placed_req', decide_True).
  split.
  - rewrite placed_queue. destruct (wq_pool _ _ W) as [H1 H2]. split; cbn; [by rewrite length_insert|]. rewrite <- H2.
    pose proof (tk_free _ _ _ _ _ K) as Hl. apply last_Some in Hl as [fl Hl]. rewrite Hl, removelast_last. unfold live. solve_Permutation.
  - intros k. rewrite El, elem_of_app, list_elem_of_singleton. intros [Hk| ->]; [rewrite Hreq by done; by apply (wq_req _ _ W)|].
    by rewrite En1, En2.
  - intros l Hl. rewrite placed_bk, El, filter_app.
    assert (filter (fun k => same_bank (q_loc (req w s' k)) l) (live w s) = filter (fun k => same_bank (q_loc (req w s k)) l) (live w s)) as ->.
    { apply list_filter_iff'. intros k Hk. by rewrite Hreq. }
    case_decide as E.
    + rewrite bank_reqs_eq, P1. assert (bk s (q_loc r) = bk s l) as -> by (unfold bk; by destruct E as [-> ->]).
      rewrite (wq_bank _ _ W l Hl). rewrite filter_cons_True by (by rewrite En1). rewrite filter_nil. solve_Permutation.
    + rewrite filter_cons_False by (by rewrite En1). rewrite filter_nil, app_nil_r. by apply (wq_bank _ _ W).
  - intros l Hl. rewrite placed_bk. case_decide as E; [by rewrite bank_reqs_eq|]. destruct (placed_rows l Hl) as (A1 & A2 & _).
    destruct (wq_runs _ _ W l Hl) as [R1 R2]. split; [eapply runs_agree; [exact A1|]; by eapply runs_agree|eapply seqs_agree; [exact A1|]; by eapply seqs_agree].
  - intros l Hl. rewrite placed_bk. pose proof (wq_hits _ _ W l Hl). case_decide; [by destruct w|done].
Qed.

Lemma placed_list l : bank_reqs (negb w) (bk s' l) = bank_reqs (negb w) (bk s l) /\ curRowHits (bk s' l) = curRowHits (bk s l).
Proof using C K W Hr. clear Hw. rewrite placed_bk. case_decide; [|done]. rewrite bank_reqs_ne. by destruct w. Qed.

Lemma wq_placed_other : wq_ok (negb w) s -> wq_ok (negb w) s'.
Proof using C K W Hr.
  intros V. apply (wq_same (negb w) s); [apply placed_other|intros l _; apply placed_list| |done].
  intros l Hl. destruct (placed_list l) as [_ ->]. by apply (wq_hits _ _ V).
Qed.
End admission.

(** ** Removal *)

Section removal.
Context (w : bool) (n : nat) (m : Z) (s s' : DDR).
Context (W : wq_ok w s) (Hn : n ∈ live w s) (Hf : first w s n) (I : issued w n m s s').
Local Notation r := (req w s n).

Lemma iss_req k : req w s' k = req w s k.
Proof using C I. unfold req. by rewrite (is_queue _ _ _ _ _ _ I). Qed.

Lemma iss_live : live w s' = filter (fun x => x <> n) (live w s).
Proof using C I. unfold live. by rewrite (is_queue _ _ _ _ _ _ I). Qed.

Lemma iss_range : in_range c (q_loc r).
Proof using C W Hn. by apply (wq_req _ _ W). Qed.

Lemma iss_list : bank_reqs w (bk s (q_loc r)) = n :: tail (bank_reqs w (bk s (q_loc r))).
Proof using C Hf. unfold first in Hf. destruct (bank_reqs w (bk s (q_loc r))) as [|x l]; [done|]. cbn in Hf. by simplify_eq. Qed.

Lemma iss_bk l : bank_reqs w (bk s' l) = (if decide (same_bank (q_loc r) l) then tail (bank_reqs w (bk s l)) else bank_reqs w (bk s l)) /\
  bank_reqs (negb w) (bk s' l) = bank_reqs (negb w) (bk s l).
Proof using C I.
  clear W Hn Hf. rewrite (is_bank _ _ _ _ _ _ I l). case_decide as E; [|done]. rewrite bank_reqs_eq, bank_reqs_ne. split; [done|].
  assert (bk s (q_loc r) = bk s l) as Eb by (unfold bk; by destruct E as [-> ->]). unfold opened. rewrite Eb. destruct (hits _ _), w; done.
Qed.

Lemma iss_hits l : curRowHits (bk s' l) = if decide (same_bank (q_loc r) l) then rowHitSeq r else curRowHits (bk s l).
Proof using C I. clear W Hn Hf. rewrite (is_bank _ _ _ _ _ _ I l). case_decide; [|done]. by destruct w. Qed.

Lemma iss_rows k : agree (rows_of w s) (rows_of w s') k.
Proof using C I. apply rows_agree. intros x _. by rewrite iss_req. Qed.

(** Every other request of the list is nearer its turn. *)
Lemma iss_ahead l x : in_range c l -> x ∈ bank_reqs w (bk s l) -> x <> n ->
  x ∈ bank_reqs w (bk s' l) /\
  ahead lim (rows_of w s') x (bank_reqs w (bk s' l)) + (if decide (same_bank (q_loc r) l) then 1 else 0) <= ahead lim (rows_of w s) x (bank_reqs w (bk s l)).
Proof using C W Hn Hf I.
  intros Hl Hx Hne. destruct (iss_bk l) as [-> _]. rewrite (ahead_agree lim (rows_of w s)) by apply iss_rows. case_decide as E; [|split; [done|lia]].
  pose proof iss_list as El. assert (bk s (q_loc r) = bk s l) as Eb by (unfold bk; by destruct E as [-> ->]). rewrite Eb in El.
  destruct (wq_runs _ _ W l Hl) as [_ Hs]. rewrite El in Hx, Hs |- *. cbn [tail]. split; [by apply elem_of_cons in Hx as [?|?]|].
  by apply ahead_tail.
Qed.

Lemma wq_issued : wq_ok w s'.
Proof using C W Hn Hf I.
  destruct (pool_nodup _ (wq_pool _ _ W)) as (Hnd & _ & _ & _). fold (live w s) in Hnd.
  destruct (list_elem_of_split _ _ Hn) as (k1 & k2 & Ek). pose proof Hnd as Hnd'. rewrite Ek in Hnd'.
  assert (live w s' = k1 ++ k2) as El by (rewrite iss_live, Ek; by apply filter_without).
  assert (n ∉ k1 ++ k2) as Hnn by (rewrite Ek in Hnd; intros Hin; clear -Hnd' Hin; rewrite <- Permutation_middle in Hnd'; apply NoDup_cons in Hnd' as [? _]; done).
  split.
  - rewrite (is_queue _ _ _ _ _ _ I). destruct (wq_pool _ _ W) as [H1 H2]. split; [done|]. cbn [RequestQueue.reqList RequestQueue.freeList RequestQueue.remove].
    fold (live w s). fold (live w s) in H2. rewrite <- H2, Ek. rewrite filter_without by done. solve_Permutation.
  - intros k Hk. rewrite iss_req. apply (wq_req _ _ W). rewrite Ek. rewrite El in Hk. set_solver.
  - intros l Hl. destruct (iss_bk l) as [-> _]. rewrite El.
    rewrite (list_filter_iff' (fun k => same_bank (q_loc (req w s' k)) l) (fun k => same_bank (q_loc (req w s k)) l)) by (intros k _; by rewrite iss_req).
    pose proof (wq_bank _ _ W l Hl) as Hb. rewrite Ek, filter_app in Hb. rewrite filter_app. case_decide as E.
    + pose proof iss_list as Eq. assert (bk s (q_loc r) = bk s l) as Eb by (unfold bk; by destruct E as [-> ->]). rewrite Eb in Eq.
      rewrite Eq in Hb. rewrite filter_cons_True in Hb by done. rewrite <- Permutation_middle in Hb. by apply Permutation.Permutation_cons_inv in Hb.
    + by rewrite filter_cons_False in Hb.
  - intros l Hl. destruct (iss_bk l) as [-> _]. destruct (wq_runs _ _ W l Hl) as [R1 R2].
    assert (runs (rows_of w s) (if decide (same_bank (q_loc r) l) then tail (bank_reqs w (bk s l)) else bank_reqs w (bk s l)) /\
            seqs_ok lim (rows_of w s) (if decide (same_bank (q_loc r) l) then tail (bank_reqs w (bk s l)) else bank_reqs w (bk s l))) as [S1 S2].
    { case_decide; [|done]. destruct (bank_reqs w (bk s l)) as [|x k]; [done|]. cbn [tail]. split; [by eapply runs_tail|by apply Forall_cons in R2 as [_ ?]]. }
    split; [eapply runs_agree; [apply iss_rows|done]|eapply seqs_agree; [apply iss_rows|done]].
  - intros l Hl. rewrite iss_hits. case_decide; [|by apply (wq_hits _ _ W)]. destruct (wq_runs _ _ W _ iss_range) as [_ R2]. rewrite iss_list in R2.
    apply Forall_cons in R2 as [R2 _]. cbn in R2. lia.
Qed.

Lemma wq_issued_other : wq_ok (negb w) s -> wq_ok (negb w) s'.
Proof using C W Hn Hf I.
  intros V. apply (wq_same (negb w) s); [apply (is_other _ _ _ _ _ _ I)|intros l _; apply iss_bk| |done].
  intros l Hl. rewrite iss_hits. case_decide; [|by apply (wq_hits _ _ V)]. destruct (wq_runs _ _ W _ iss_range) as [_ R2]. rewrite iss_list in R2.
  apply Forall_cons in R2 as [R2 _]. cbn in R2. lia.
Qed.
End removal.
End queues.
