(* ===== verification/DDRTiming.v ===== *)
(** * Timing of the DDR controller

    The timing constraints of a log of commands ([obeys]), and the part of the
    state's invariant that keeps them: what the banks, the activation windows and
    the bus remember of the log. *)

From Stdlib Require Import Ascii.
From S2P Require Import Prelude Floats MemHier MTRand ReplPolicies CacheArrays TimingEvent World Memory DDRMem DDRBase DDRExec.
Local Open Scope Z_scope.
Import DDRMemory.
#[local] Existing Instance ActWindow.inhabited.

Section timing.
Context (c : Conf) (C : conf_ok c).

Ltac conf := destruct C as [? [??] [??] [??] [??] [??] [??] [??] [??] [??] [??] [??] [??] ? ? ? [??] [??] [??] [??] ? ? ? ? ?]; unfold small, lead in *.

Local Notation act_of := (act_of c).
Local Notation min_cmd := (min_cmd c).
Local Notation near := (near c).
Local Notation req_near := (req_near c).
Local Notation scanned := (scanned c).
Local Notation turn := (turn c).
Local Notation cas_of := (cas_of c).
Local Notation act_opt := (act_opt c).
Local Notation opened := (opened c).
Local Notation wins_after := (wins_after c).
Local Notation commanded := (commanded c).
Local Notation read_done := (read_done c).
Local Notation issued := (issued c).
Local Notation ready := (ready c).

(** ** The timing constraints of a log *)

(** From a column command to the precharge of its bank. *)
Definition recovery (write : bool) : Z := if write then tCL c + tBL c + tWR c else tRTP c.

(** The row open in a bank after a log. *)
Fixpoint open_row (rk bn : nat) (tr : list Out) : option Z :=
  match tr with
  | [] => None
  | Command rk' bn' rw _ _ _ :: tr => if bool_decide (rk' = rk /\ bn' = bn) then Some rw else open_row rk bn tr
  | Refreshed _ _ :: _ => None
  | _ :: tr => open_row rk bn tr
  end.

(** A command and a refresh after an earlier entry. *)
Definition command_after (rk bn : nat) (wr : bool) (act : option Z) (cas : Z) (o : Out) : Prop :=
  match o with
  | Command rk' bn' _ wr' act' cas' =>
      cas' + tBL c <= cas /\ (wr' = true -> wr = false -> cas' + tCL c + tBL c + tWTR c <= cas) /\
      (rk' = rk -> bn' = bn -> forall a, act = Some a ->
         cas' + recovery wr' + tRP c <= a /\ forall a', act' = Some a' -> a' + tRAS c + tRP c <= a)
  | Refreshed _ d => forall a, act = Some a -> d <= a
  | _ => True
  end.
Definition refresh_after (start : Z) (o : Out) : Prop :=
  match o with
  | Command _ _ _ wr act cas => cas + recovery wr <= start /\ forall a, act = Some a -> a + tRAS c <= start
  | Refreshed _ d => d <= start + tRP c
  | _ => True
  end.

Definition entry_ok (e : Out) (older : list Out) : Prop :=
  match e with
  | Command rk bn rw wr act cas =>
      (forall a, act = Some a -> a + tRCD c <= cas) /\ (act = None -> open_row rk bn older = Some rw) /\
      Forall (command_after rk bn wr act cas) older
  | Refreshed start d => d = start + tRFC c /\ Forall (refresh_after start) older
  | Done ev x => exists x0, Arrived ev x0 ∈ older /\ x0 <= x
  | Arrived _ _ => True
  end.

(** The activations of a rank. *)
Definition acts (rk : nat) (tr : list Out) : list Z :=
  omap (fun o => match o with Command rk' _ _ _ (Some a) _ => if bool_decide (rk' = rk) then Some a else None | _ => None end) tr.

Fixpoint entries_ok (tr : list Out) : Prop :=
  match tr with [] => True | e :: tr => entry_ok e tr /\ entries_ok tr end.

(** The constraints of DDR3: each entry after those before it, and no more than four
    activations of a rank in a window of [tFAW]. *)
Definition obeys (tr : list Out) : Prop :=
  entries_ok tr /\ forall rk t, (length (filter (within (tFAW c) t) (acts rk tr)) <= 4)%nat.

(** ** The timing invariant *)

(** What a bank remembers of the log. *)
Definition covers (l : AddrLoc) (b : Bank) (o : Out) : Prop :=
  match o with
  | Command rk bn _ wr act cas => rk = rank l -> bn = bank l ->
      cas + recovery wr <= minPreCycle b /\ forall a, act = Some a -> a + tRAS c <= minPreCycle b
  | Refreshed _ d => d <= minPreCycle b + tRP c
  | _ => True
  end.
(** What the bus remembers. *)
Definition bus_covers (s : DDR) (o : Out) : Prop :=
  match o with
  | Command _ _ _ wr _ cas => cas + tCL c + tBL c <= minRespCycle s /\
      (wr = true -> lastCmdWasWrite s = false -> cas + tCL c + tBL c + tWTR c <= minRespCycle s - tCL c)
  | _ => True
  end.

Definition cmd_in_range (o : Out) : Prop :=
  match o with Command rk bn _ _ _ _ => (rk < ranksPerChannel c)%nat /\ (bn < banksPerRank c)%nat | _ => True end.

Record bank_ok (m lr : Z) (s : DDR) (l : AddrLoc) (b : Bank) : Prop := {
  bo_act : 0 <= lastActCycle b <= m;
  bo_cmd : 0 <= lastCmdCycle b <= m + lead c;
  bo_last : lastCmdCycle b <= minPreCycle b;
  bo_pre : minPreCycle b <= Z.max (m + lead c) (lr + lead c + tRFC c);
  bo_row : open b = true -> open_row (rank l) (bank l) (trace s) = Some (openRow b);
  bo_covers : Forall (covers l b) (trace s)
}.

(** At memory cycle [m], the last refresh at [lr]. *)
Record timed (m lr : Z) (s : DDR) : Prop := {
  ti_fits : fits c m;
  ti_ref : lr <= m;
  ti_one : 1 <= m;
  ti_shape : shape c s;
  ti_bank l : in_range c l -> bank_ok m lr s l (bk s l);
  ti_win rk : (rk < ranksPerChannel c)%nat ->
    win_ok (rankActWindows s !!! rk) /\ Forall (fun x => 0 <= x <= m) (win_view (rankActWindows s !!! rk)) /\
    faw_inv (tFAW c) (acts rk (trace s)) (win_view (rankActWindows s !!! rk));
  ti_cmds : Forall cmd_in_range (trace s);
  ti_resp : tCL c + tBL c + 1 <= minRespCycle s <= m + lead c;
  ti_bus : Forall (bus_covers s) (trace s);
  ti_entries : entries_ok (trace s)
}.

Lemma acts_range rk tr : Forall cmd_in_range tr -> (ranksPerChannel c <= rk)%nat -> acts rk tr = [].
Proof using.
  intros Hf Hrk. induction Hf as [|o tr Ho Hf IH]; [done|]. destruct o as [|rk' ? ? ? [a|] ?| |]; cbn in *; try done.
  rewrite bool_decide_false by lia. done.
Qed.

Lemma timed_near m lr s : timed m lr s -> near m s.
Proof using C.
  intros T. pose proof (ti_ref _ _ _ T) as Tr. pose proof (ti_resp _ _ _ T) as Tp. split; [apply T|apply T|..].
  - intros l Hl. destruct (ti_bank _ _ _ T l Hl) as [H1 H2 H3 H4 _ _]. unfold nigh. conf. lia.
  - intros rk Hrk. destruct (ti_win _ _ _ T rk Hrk) as (W1 & W2 & _). split; [done|]. eapply Forall_impl; [done|]. cbn. unfold nigh. lia.
  - conf. lia.
Qed.

Lemma timed_obeys m lr s : timed m lr s -> obeys (trace s).
Proof using.
  intros T. split; [apply T|]. intros rk t. destruct (decide (rk < ranksPerChannel c)%nat) as [H|H].
  - destruct (ti_win _ _ _ T rk H) as (_ & _ & Hf). specialize (Hf t). lia.
  - rewrite acts_range; [cbn; lia|apply (ti_cmds _ _ _ T)|lia].
Qed.

(** Time passes. *)
Lemma timed_later m m' lr s : timed m lr s -> m <= m' -> fits c m' -> timed m' lr s.
Proof using.
  intros T Hm Hf. pose proof (ti_ref _ _ _ T) as Tr. pose proof (ti_resp _ _ _ T) as Tp. pose proof (ti_one _ _ _ T) as To.
  split; [done|lia|lia|apply T|..|apply (ti_cmds _ _ _ T)|lia|apply (ti_bus _ _ _ T)|apply T].
  - intros l Hl. destruct (ti_bank _ _ _ T l Hl) as [H1 H2 H3 H4 H5 H6]. split; [lia|lia|done|lia|done|done].
  - intros rk Hrk. destruct (ti_win _ _ _ T rk Hrk) as (W1 & W2 & W3). split; [done|]. split; [|done].
    eapply Forall_impl; [done|]. cbn. lia.
Qed.

(** Entries of the log that are not commands. *)
Definition quiet (o : Out) : Prop := match o with Arrived _ _ | Done _ _ => True | _ => False end.

Definition same_timing (b b' : Bank) : Prop :=
  openRow b' = openRow b /\ open b' = open b /\ minPreCycle b' = minPreCycle b /\ lastActCycle b' = lastActCycle b /\ lastCmdCycle b' = lastCmdCycle b.

Lemma timed_quiet m lr s s' pre : timed m lr s -> shape c s' -> rankActWindows s' = rankActWindows s -> minRespCycle s' = minRespCycle s ->
  lastCmdWasWrite s' = lastCmdWasWrite s -> (forall l, in_range c l -> same_timing (bk s l) (bk s' l)) ->
  trace s' = pre ++ trace s -> Forall quiet pre -> entries_ok (trace s') -> timed m lr s'.
Proof using.
  intros T Hs Hw Hr Hl Hb Ht Hq He. 
  assert (forall rk bn, open_row rk bn (trace s') = open_row rk bn (trace s)) as Hrow.
  { intros rk bn. rewrite Ht. clear -Hq. induction Hq as [|o pre Ho Hq IH]; [done|]. by destruct o. }
  assert (forall rk, acts rk (trace s') = acts rk (trace s)) as Hacts.
  { intros rk. rewrite Ht. clear -Hq. induction Hq as [|o pre Ho Hq IH]; [done|]. by destruct o. }
  assert (forall P : Out -> Prop, (forall o, quiet o -> P o) -> Forall P (trace s) -> Forall P (trace s')) as Hall.
  { intros P Hp Hf. rewrite Ht. apply Forall_app. split; [|done]. by eapply Forall_impl. }
  split; [apply T|apply T|apply T|done|..|done].
  - intros l Hl'. destruct (Hb l Hl') as (E1 & E2 & E3 & E4 & E5). destruct (ti_bank _ _ _ T l Hl') as [H1 H2 H3 H4 H5 H6].
    split; rewrite ?E1, ?E2, ?E3, ?E4, ?E5, ?Hrow; try done. apply Hall; [by intros []|].
    eapply Forall_impl; [exact H6|]. intros []; cbn; rewrite ?E3; done.
  - intros rk Hrk. rewrite Hw, Hacts. by apply T.
  - apply Hall; [by intros []|apply (ti_cmds _ _ _ T)].
  - rewrite Hr. apply T.
  - apply Hall; [by intros []|]. eapply Forall_impl; [apply (ti_bus _ _ _ T)|]. intros []; cbn; rewrite ?Hr, ?Hl; done.
Qed.

(** *** A command keeps the timing invariant *)

Section command.
Context (w : bool) (n : nat) (m lr : Z) (s s' : DDR).
Context (T : timed m lr s) (R : ready w n m s) (I : issued w n m s s').
Local Notation r := (req w s n).
Local Notation l := (q_loc r).
Local Notation b := (bk s l).
Local Notation cas := (cas_of s r m).
Local Notation act := (act_of s r).

Lemma cmd_range : in_range c l.
Proof using R. apply (rd_req _ _ _ _ _ R). Qed.

Lemma cmd_bank : bank_ok m lr s l b.
Proof using T R. apply (ti_bank _ _ _ T), cmd_range. Qed.

(** The activation comes late enough. *)
Lemma cmd_act : hits s r = false ->
  minPreCycle b + tRP c <= act /\ lastActCycle b + tRRD c <= act /\ oldest s l + tFAW c <= act /\ 0 <= act /\ act + tRCD c <= m /\
  pre_of r b + tRP c <= act.
Proof using C R.
  intros Hh. destruct (ready_bounds _ C _ _ _ _ R) as (_ & _ & B3 & _). destruct (B3 Hh) as [B31 B32].
  unfold act_of, pre_of in *. destruct (open (bk s (q_loc (req w s n)))); lia.
Qed.

Lemma cmd_cas : m <= cas <= m + tCL c + tWTR c /\ minRespCycle s - tCL c <= cas /\
  (lastCmdWasWrite s = true -> q_write r = false -> minRespCycle s + tWTR c <= cas) /\
  (hits s r = false -> act + tRCD c <= cas).
Proof using C R.
  destruct (ready_bounds _ C _ _ _ _ R) as (B1 & B2 & B3 & B4 & B5 & B6 & B7). repeat split; try lia.
  - intros H1 H2. unfold turn in *. rewrite H1, H2 in *. cbn in *. lia.
  - intros H. destruct (B3 H) as [_ ?]. lia.
Qed.

Lemma cmd_after : Forall (command_after (rank l) (bank l) (q_write r) (act_opt s r) cas) (trace s).
Proof using C T R.
  pose proof (ti_bus _ _ _ T) as Hbus. pose proof (bo_covers _ _ _ _ _ cmd_bank) as Hcov. destruct cmd_cas as (K1 & K2 & K3 & K4).
  rewrite Forall_forall in *. intros o Ho. specialize (Hbus o Ho). specialize (Hcov o Ho).
  assert (forall a, act_opt s r = Some a -> hits s r = false /\ a = act) as Hact.
  { intros a. unfold act_opt. destruct (hits s r); [done|]. intros [= <-]. done. }
  destruct o as [| rk bn rw wr' act' cas' | st d |]; cbn in *; [done| | |done].
  - destruct Hbus as [U1 U2]. split; [lia|]. split.
    + intros -> Ew. destruct (lastCmdWasWrite s); [specialize (K3 eq_refl Ew); lia|]. specialize (U2 eq_refl eq_refl). lia.
    + intros -> -> a Ea. destruct (Hact a Ea) as [Hh ->]. destruct (cmd_act Hh) as (A1 & _). destruct (Hcov eq_refl eq_refl) as [V1 V2].
      split; [lia|]. intros a' Ha'. specialize (V2 a' Ha'). lia.
  - intros a Ea. destruct (Hact a Ea) as [Hh ->]. destruct (cmd_act Hh) as (A1 & _). lia.
Qed.

Lemma cmd_row : act_opt s r = None -> open_row (rank l) (bank l) (trace s) = Some (row l).
Proof using T R.
  unfold act_opt, hits, row_hit. destruct (Z.eqb_spec (row l) (openRow b)) as [E|]; [|done]. destruct (open b) eqn:Eo; [|done].
  intros _. rewrite E. by apply (bo_row _ _ _ _ _ cmd_bank).
Qed.

Lemma cmd_entry : entry_ok (Command (rank l) (bank l) (row l) (q_write r) (act_opt s r) cas) (trace s).
Proof using C T R.
  split; [|split; [apply cmd_row|apply cmd_after]]. destruct cmd_cas as (_ & _ & _ & K4). unfold act_opt.
  destruct (hits s r) eqn:Eh; intros a [= <-]. by apply K4.
Qed.

(** The bank after the command, its lists apart. *)
Local Notation b' := (commanded (opened s r) r cas (open (bk s' l))).

Lemma cmd_bank_after : 0 <= lastActCycle b' <= m /\ minPreCycle b <= minPreCycle b' <= Z.max (m + lead c) (lr + lead c + tRFC c) /\
  cas + recovery (q_write r) <= minPreCycle b' /\ (forall a, act_opt s r = Some a -> a + tRAS c <= minPreCycle b') /\ openRow b' = row l.
Proof using C T R.
  destruct cmd_bank as [P1 P2 P3 P4 _ _]. destruct cmd_cas as (K1 & K2 & _ & _). unfold recovery, lead in *.
  destruct (hits s r) eqn:Eh.
  - assert (openRow b = row l) as Er by (unfold hits, row_hit in Eh; apply andb_true_iff in Eh as [?%Z.eqb_eq _]; done).
    unfold commanded, opened, act_opt. rewrite Eh. cbn. clear -P1 P2 P3 P4 K1 K2 C Er. conf.
    destruct (q_write r); repeat split; try done; lia.
  - destruct (cmd_act Eh) as (A1 & A2 & _ & A4 & A5 & A6). unfold commanded, opened, act_opt. rewrite Eh.
    cbn. clear -P1 P2 P3 P4 K1 K2 A1 A2 A4 A5 A6 C. conf. unfold pre_of in *.
    destruct (q_write r), (open b); repeat split; try (intros a [= <-]); lia.
Qed.

Lemma cmd_bk l' : same_bank l l' -> same_timing b' (bk s' l').
Proof using I. clear -I. intros Hs. assert (bk s' l = bk s' l') as -> by (unfold bk; by destruct Hs as [-> ->]).
  pose proof (is_bank _ _ _ _ _ _ I l') as Hb. rewrite decide_True in Hb by done. remember (bk s' l') as x. rewrite Hb. cbn [openRow]. by destruct w.
Qed.

(** The log after the command, without the answer it may be followed by. *)
Local Notation cmd := (Command (rank l) (bank l) (row l) (q_write r) (act_opt s r) cas).

Lemma cmd_trace : exists pre, trace s' = pre ++ cmd :: trace s /\ Forall quiet pre /\
  match q_ev r with Some ev => pre = [Done ev (m2s c (minRespCycle s') - m2s c (tCL c + tBL c - 1))] | None => pre = [] end.
Proof using I.
  pose proof (is_trace _ _ _ _ _ _ I) as Ht. cbv zeta in Ht. destruct (q_ev r).
  - destruct Ht as [-> _]. eexists [_]. split; [done|]. by repeat constructor.
  - destruct Ht as [-> _]. exists []. by repeat constructor.
Qed.

Lemma cmd_acts rk : acts rk (trace s') = if bool_decide (rank l = rk) then (if hits s r then acts rk (trace s) else act :: acts rk (trace s)) else acts rk (trace s).
Proof using I.
  destruct cmd_trace as (pre & -> & Hq & _). assert (acts rk (pre ++ cmd :: trace s) = acts rk (cmd :: trace s)) as ->.
  { clear -Hq. induction Hq as [|o pre Ho Hq IH]; [done|]. by destruct o. }
  unfold acts, act_opt. cbn. destruct (hits s r), (bool_decide (rank l = rk)); done.
Qed.

Lemma cmd_open_row rk bn : open_row rk bn (trace s') = if bool_decide (rank l = rk /\ bank l = bn) then Some (row l) else open_row rk bn (trace s).
Proof using I.
  destruct cmd_trace as (pre & -> & Hq & _). clear -Hq. induction Hq as [|o pre Ho Hq IH]; [done|]. by destruct o.
Qed.

Lemma cmd_forall (P : Out -> Prop) : (forall o, quiet o -> P o) -> P cmd -> Forall P (trace s) -> Forall P (trace s').
Proof using I.
  intros H1 H2 H3. destruct cmd_trace as (pre & -> & Hq & _). apply Forall_app. split; [by eapply Forall_impl|by constructor].
Qed.

Lemma cmd_win rk : (rk < ranksPerChannel c)%nat ->
  win_ok (rankActWindows s' !!! rk) /\ Forall (fun x => 0 <= x <= m) (win_view (rankActWindows s' !!! rk)) /\
  faw_inv (tFAW c) (acts rk (trace s')) (win_view (rankActWindows s' !!! rk)).
Proof using C T R I.
  intros Hrk. destruct (ti_win _ _ _ T rk Hrk) as (W1 & W2 & W3). rewrite cmd_acts. pose proof (is_wins _ _ _ _ _ _ I) as Hw.
  unfold wins_after in Hw. destruct (hits s r) eqn:Eh; [rewrite Hw; by case_bool_decide|].
  destruct Hw as (w' & -> & Hok & Hv). destruct (cmd_act Eh) as (_ & _ & A3 & A4 & A5 & _).
  pose proof (sh_wins c s (ti_shape _ _ _ T)) as Hlen. case_bool_decide as E.
  - subst rk. rewrite list_lookup_total_insert_eq by lia. split; [done|].
    destruct (win_view_cons _ W1) as (x & vs & Ev). rewrite Ev in *. cbn [tail] in Hv. split.
    + rewrite Hv. apply Forall_cons. split; [conf; lia|]. by apply Forall_cons in W2 as [_ ?].
    + apply (faw_add _ _ x vs); [conf; lia|done| |done]. unfold oldest in A3. by rewrite Ev in A3.
  - by rewrite list_lookup_total_insert_ne.
Qed.

Lemma cmd_other l' : in_range c l' -> bank_ok m lr s' l' (bk s' l').
Proof using C T R I.
  intros Hl'. destruct (decide (same_bank l l')) as [E|E].
  - destruct (cmd_bk l' E) as (E1 & E2 & E3 & E4 & E5). destruct cmd_bank_after as (B1 & B2 & B3 & B4 & B5). destruct cmd_cas as (K1 & _).
    destruct E as [El Eb]. split; rewrite ?E1, ?E2, ?E3, ?E4, ?E5, ?cmd_open_row; [done|cbn [commanded lastCmdCycle]; conf; lia| |lia| |].
    + cbn [commanded lastCmdCycle] in *. unfold recovery in B3. conf. destruct (q_write r); lia.
    + intros _. rewrite bool_decide_true by done. by rewrite B5.
    + apply cmd_forall; [by intros []|cbn; rewrite E3; intros _ _; split; [lia|done]|].
      eapply Forall_impl; [apply (bo_covers _ _ _ _ _ cmd_bank)|]. intros [| | |]; cbn; rewrite ?E3; [done| |lia|done].
      rewrite El, Eb. intros Hc H1 H2. destruct (Hc H1 H2) as [V1 V2]. split; [lia|]. intros a Ha. specialize (V2 a Ha). lia.
  - assert (bk s' l' = bk s l') as -> by (rewrite (is_bank _ _ _ _ _ _ I); by rewrite decide_False).
    destruct (ti_bank _ _ _ T l' Hl') as [Q1 Q2 Q3 Q4 Q5 Q6]. split; try done.
    + rewrite cmd_open_row. by rewrite bool_decide_false.
    + apply cmd_forall; [by intros []|cbn|done]. intros H1 H2. exfalso. by apply E.
Qed.

Lemma timed_issued : entries_ok (trace s') -> timed m lr s'.
Proof using C T R I.
  intros He. destruct cmd_cas as (K1 & K2 & K3 & _). split; [apply T|apply T|apply T|apply I|apply cmd_other|apply cmd_win|..|done].
  - apply cmd_forall; [by intros []|apply cmd_range|apply (ti_cmds _ _ _ T)].
  - rewrite (is_resp _ _ _ _ _ _ I). pose proof (ti_one _ _ _ T) as To. conf. lia.
  - assert (minRespCycle s' = cas + tCL c + tBL c) as Er by apply I. assert (lastCmdWasWrite s' = q_write r) as Ew by apply I.
    apply cmd_forall; [by intros []|cbn; rewrite Er, Ew; split; [lia|by intros ->]|].
    pose proof (ti_bus _ _ _ T) as Hbus. pose proof cmd_after as Haft. rewrite Forall_forall in *. intros o Ho.
    specialize (Hbus o Ho). specialize (Haft o Ho). destruct o as [|? ? ? wr ? cas'| |]; cbn in *; [done| |done|done].
    rewrite Er, Ew. destruct Haft as (U1 & U2 & _). split; [conf; lia|]. intros H1 H2. specialize (U2 H1 H2). conf. lia.
Qed.
End command.

(** *** So does a refresh *)

Lemma fold_max (l : list Bank) x : let y := fold_left (fun m b => Z.max m (Z.max (minPreCycle b) (lastCmdCycle b))) l x in
  x <= y /\ Forall (fun b => minPreCycle b <= y /\ lastCmdCycle b <= y) l /\ forall B, x <= B -> Forall (fun b => minPreCycle b <= B /\ lastCmdCycle b <= B) l -> y <= B.
Proof using.
  revert x. induction l as [|b l IH]; intros x; cbn; [split; [lia|]; split; [constructor|]; by intros|].
  destruct (IH (Z.max x (Z.max (minPreCycle b) (lastCmdCycle b)))) as (H1 & H2 & H3). cbn in *. split; [lia|]. split.
  - constructor; [lia|done].
  - intros B Hx [Hb Hl]%Forall_cons. apply H3; [lia|done].
Qed.

Lemma concat_banks s b : shape c s -> b ∈ concat (banks s) <-> exists l, in_range c l /\ b = bk s l.
Proof using.
  intros Hs. rewrite list_elem_of_In, in_concat. split.
  - intros (bs & H1 & H2). apply list_elem_of_In in H1, H2. apply list_elem_of_lookup in H1 as [rk H1], H2 as [bn H2].
    exists (mkLoc 0 bn rk 0). split.
    + split; cbn; [apply lookup_lt_Some in H1; rewrite (sh_ranks _ _ Hs) in H1; done|].
      apply lookup_lt_Some in H2. pose proof (sh_banks _ _ Hs) as Hf. apply (Forall_lookup_1 _ _ _ _ Hf) in H1. by rewrite <- H1.
    + unfold bk. cbn. rewrite (list_lookup_total_correct _ _ _ H1). by rewrite (list_lookup_total_correct _ _ _ H2).
  - intros (l & Hl & ->). destruct (shape_rank c s l Hs Hl) as [H1 _]. pose proof (shape_bank c s l Hs Hl) as H2.
    eexists. split; apply list_elem_of_In, list_elem_of_lookup; by eexists.
Qed.

Lemma refresh_start_spec s x : shape c s -> x <= refresh_start s x /\
  (forall l, in_range c l -> minPreCycle (bk s l) <= refresh_start s x /\ lastCmdCycle (bk s l) <= refresh_start s x) /\
  forall B, x <= B -> (forall l, in_range c l -> minPreCycle (bk s l) <= B /\ lastCmdCycle (bk s l) <= B) -> refresh_start s x <= B.
Proof using.
  intros Hs. destruct (fold_max (concat (banks s)) x) as (H1 & H2 & H3). unfold refresh_start. split; [done|]. split.
  - intros l Hl. rewrite Forall_forall in H2. apply H2, concat_banks; [done|by exists l].
  - intros B Hx Hb. apply H3; [done|]. apply Forall_forall. intros b (l & Hl & ->)%concat_banks; [by apply Hb|done].
Qed.

Definition refreshed (s : DDR) (start : Z) : DDR :=
  set_trace (set_banks s (map (map (close (start + tRFC c - tRP c))) (banks s))) (Refreshed start (start + tRFC c) :: trace s).

Lemma wp_refresh m s sys Q : near m s -> sysToMemCycle c sys = m -> Q tt (refreshed s (refresh_start s m)) -> wp (refresh c sys) s Q.
Proof using C.
  intros N Em HQ. pose proof (nr_shape _ _ _ N) as Hs. destruct (refresh_start_spec s m Hs) as (H1 & _ & H3).
  assert (0 <= m) as Hm by apply (nr_fits _ _ _ N).
  assert (refresh_start s m <= m + 2 ^ 20) as H4.
  { apply H3; [lia|]. intros l Hl. destruct (nr_bank _ _ _ N l Hl) as (Q1 & _ & Q3). unfold nigh in *. lia. }
  unfold refresh. rewrite Em. apply wp_bind, wp_get, wp_bind, wp_assert; [by apply Z.leb_le|].
  apply wp_bind, wp_assert; [apply Z.leb_le; conf; lia|]. apply wp_bind, wp_modify, wp_modify.
  pose proof (nr_fits _ _ _ N) as F. assert (forall x, 0 <= x <= m + 2 ^ 20 + 2 ^ 19 -> u64 x = x) as Hu by (intros x Hx; apply (fits_word _ C m); [done|lia]).
  conf. rewrite (Hu (refresh_start s m + tRFC c)) by lia. by rewrite Hu by lia.
Qed.

Lemma bk_refreshed s start l : shape c s -> in_range c l -> bk (refreshed s start) l = close (start + tRFC c - tRP c) (bk s l).
Proof using.
  intros Hs Hl. destruct (shape_rank c s l Hs Hl) as [H1 _]. pose proof (shape_bank c s l Hs Hl) as H2. unfold bk at 1, refreshed. cbn.
  rewrite (list_lookup_total_correct (map _ _) (rank l) (map (close (start + tRFC c - tRP c)) (banks s !!! rank l))) by (by rewrite list_lookup_fmap, H1).
  apply list_lookup_total_correct. by rewrite list_lookup_fmap, H2.
Qed.

Lemma shape_refreshed s start : shape c s -> shape c (refreshed s start).
Proof using.
  intros [H1 H2 H3]. split; cbn; [by rewrite length_map| |done]. apply Forall_map. eapply Forall_impl; [exact H2|]. intros r <-. apply length_map.
Qed.

Lemma bank_zero : in_range c (mkLoc 0 0 0 0).
Proof using C. conf. split; cbn; lia. Qed.

Lemma timed_refresh m lr s : timed m lr s -> lr + tRFC c <= m -> timed m m (refreshed s (refresh_start s m)).
Proof using C.
  intros T Hlr. pose proof (ti_shape _ _ _ T) as Hs. destruct (refresh_start_spec s m Hs) as (H1 & H2 & H3).
  pose proof (ti_one _ _ _ T) as To. set (st := refresh_start s m) in *.
  assert (st <= m + lead c) as Hst.
  { apply H3; [conf; lia|]. intros l Hl. destruct (ti_bank _ _ _ T l Hl) as [_ B2 B3 B4 _ _]. lia. }
  assert (entry_ok (Refreshed st (st + tRFC c)) (trace s)) as He.
  { split; [done|]. apply Forall_forall. intros o Ho. destruct o as [|rk bn rw wr act cas|d0 d|]; cbn; [done| | |done].
    - pose proof (ti_cmds _ _ _ T) as Hc. rewrite Forall_forall in Hc. pose proof (Hc _ Ho) as Hin.
      destruct (ti_bank _ _ _ T (mkLoc 0 bn rk 0) Hin) as [_ _ _ _ _ B6]. destruct (H2 (mkLoc 0 bn rk 0) Hin) as [B _]. rewrite Forall_forall in B6.
      destruct (B6 _ Ho eq_refl eq_refl) as [V1 V2]. split; [lia|]. intros a Ha. specialize (V2 a Ha). lia.
    - destruct (ti_bank _ _ _ T _ bank_zero) as [_ _ _ _ _ B6]. destruct (H2 _ bank_zero) as [B _]. rewrite Forall_forall in B6.
      specialize (B6 _ Ho). unfold covers in B6. lia. }
  assert (forall rk, acts rk (trace (refreshed s st)) = acts rk (trace s)) as Ha by done.
  split; [apply T|lia|done|by apply shape_refreshed| |..].
  - intros l Hl. rewrite bk_refreshed by done. destruct (ti_bank _ _ _ T l Hl) as [B1 B2 B3 B4 B5 B6]. destruct (H2 l Hl) as [B7 B8].
    split; cbn -[covers]; [done|done|conf; lia|conf; lia|done|]. constructor; [cbn; conf; lia|].
    eapply Forall_impl; [exact B6|]. intros [| | |]; cbn; [done| |conf; lia|done]. intros Hc Hr Hb. destruct (Hc Hr Hb) as [V1 V2].
    split; [conf; lia|]. intros a Hx. specialize (V2 a Hx). conf. lia.
  - intros rk Hrk. rewrite Ha. by apply (ti_win _ _ _ T).
  - constructor; [done|apply (ti_cmds _ _ _ T)].
  - apply T.
  - constructor; [done|apply (ti_bus _ _ _ T)].
  - split; [done|apply T].
Qed.
End timing.
