(* ===== verification/DDREvents.v ===== *)
(** * Accesses through the DDR controller

    Every access that arrived is done or waits in exactly one place, held
    ([events_ok]); what admitting a request leaves ([admitted]), and that admitting
    and issuing keep this.  A completion is never earlier than the access. *)

From Stdlib Require Import Ascii.
From S2P Require Import Prelude Floats MemHier MTRand ReplPolicies CacheArrays TimingEvent World Memory DDRMem DDRBase DDRExec DDRQueue DDRTiming.
Local Open Scope Z_scope.
Import DDRMemory.
#[local] Existing Instance ActWindow.inhabited.

Section events.
Context (c : Conf) (C : conf_ok c).

Definition arrived (tr : list Out) : list nat := omap (fun o => match o with Arrived ev _ => Some ev | _ => None end) tr.
Definition dones (tr : list Out) : list nat := omap (fun o => match o with Done ev _ => Some ev | _ => None end) tr.

Definition waiting (w : bool) (s : DDR) : list nat := omap q_ev (map (req w s) (live w s)).
Definition held (s : DDR) : list nat := waiting false s ++ waiting true s ++ omap q_ev (overflowQueue s).

Definition waits (s : DDR) (ev : nat) (write : bool) (start : Z) : Prop :=
  (exists a, accEvents s !! ev = Some (mkAcc a write EV_HELD)) /\ Arrived ev start ∈ trace s.

Definition request_ok (m : Z) (s : DDR) (r : Request) : Prop :=
  0 <= arrivalCycle r <= m /\
  if q_write r then q_ev r = None else exists ev, q_ev r = Some ev /\ waits s ev false (startSysCycle r).
Definition overflow_ok (s : DDR) (r : Request) : Prop :=
  in_range c (q_loc r) /\ exists ev, q_ev r = Some ev /\ waits s ev (q_write r) (startSysCycle r).

(** [extra]: accesses held in no queue, on their way into one. *)
Record events_ok (now m : Z) (extra : list nat) (s : DDR) : Prop := {
  ev_perm : arrived (trace s) ≡ₚ dones (trace s) ++ extra ++ held s;
  ev_nodup : NoDup (arrived (trace s));
  ev_dom ev : is_Some (accEvents s !! ev) <-> ev ∈ arrived (trace s);
  ev_live w n : n ∈ live w s -> request_ok m s (req w s n);
  ev_ovf r : r ∈ overflowQueue s -> overflow_ok s r;
  ev_times ev x : Arrived ev x ∈ trace s -> 0 <= x <= now;
  ev_done ev : ev ∈ dones (trace s) -> exists a, accEvents s !! ev = Some a /\ acc_timing a = EV_DONE
}.

Lemma in_arrived tr ev : ev ∈ arrived tr <-> exists x, Arrived ev x ∈ tr.
Proof using C.
  unfold arrived. rewrite list_elem_of_omap. split.
  - intros (o & Ho & E). destruct o; simplify_eq. by eexists.
  - intros (x & Hx). by eexists.
Qed.

Lemma events_later now now' m m' extra s : events_ok now m extra s -> now <= now' -> m <= m' -> events_ok now' m' extra s.
Proof using C.
  intros [H1 H2 H3 H4 H5 H6 H7] Hn Hm. split; try done.
  - intros w n Hin. destruct (H4 w n Hin) as [Ha Hr]. split; [lia|done].
  - intros ev x Hx. specialize (H6 ev x Hx). lia.
Qed.

(** States with the same queues and accesses. *)
Lemma events_same now m extra s s' : (forall w, the_queue w s' = the_queue w s) -> overflowQueue s' = overflowQueue s ->
  accEvents s' = accEvents s -> arrived (trace s') = arrived (trace s) -> dones (trace s') = dones (trace s) ->
  (forall ev x, Arrived ev x ∈ trace s' <-> Arrived ev x ∈ trace s) -> events_ok now m extra s -> events_ok now m extra s'.
Proof using C.
  intros Eq Eo Ea E1 E2 Et [H1 H2 H3 H4 H5 H6 H7].
  assert (forall w n, req w s' n = req w s n) as Hreq by (intros w n; unfold req; by rewrite Eq).
  assert (forall w, live w s' = live w s) as Hlive by (intros w; unfold live; by rewrite Eq).
  assert (held s' = held s) as Eh.
  { unfold held, waiting. rewrite Eo, !Hlive. assert (forall w, map (req w s') (live w s) = map (req w s) (live w s)) as Hm by (intros w; apply map_ext; intros n; apply Hreq). by rewrite !Hm. }
  assert (forall ev wr st, waits s ev wr st -> waits s' ev wr st) as Hw by (intros ev wr st [W1 W2]; split; [by rewrite Ea|by apply Et]).
  split; rewrite ?Eh, ?E1, ?E2, ?Ea, ?Eo; try done.
  - intros w n. rewrite Hlive, Hreq. intros Hn. destruct (H4 w n Hn) as [Ha Hr]. split; [done|]. destruct (q_write _); [done|].
    destruct Hr as (ev & He & Hr). exists ev. auto.
  - intros r Hr. destruct (H5 r Hr) as (Hi & ev & He & Hr'). split; [done|]. exists ev. auto.
  - intros ev x Hx%Et. by apply (H6 ev).
Qed.

Lemma arrived_once now m extra s ev x y : events_ok now m extra s -> Arrived ev x ∈ trace s -> Arrived ev y ∈ trace s -> x = y.
Proof using C.
  intros E. pose proof (ev_nodup _ _ _ _ E) as Hnd. revert Hnd. generalize (trace s). clear E. intros tr. induction tr as [|o tr IH]; intros Hnd; [by intros ?%elem_of_nil|].
  rewrite !elem_of_cons. intros [<-|Hx] [Hy|Hy].
  - by simplify_eq.
  - cbn in Hnd. apply NoDup_cons in Hnd as [Hn _]. exfalso. apply Hn, in_arrived. by eexists.
  - subst o. cbn in Hnd. apply NoDup_cons in Hnd as [Hn _]. exfalso. apply Hn, in_arrived. by eexists.
  - apply IH; [|done|done]. destruct o; cbn in Hnd; [by apply NoDup_cons in Hnd as [_ ?]|done..].
Qed.

(** ** Finishing an access *)

Lemma waits_finish s s' ev x ev' wr st : waits s ev' wr st -> ev' <> ev ->
  trace s' = Done ev x :: trace s \/ (exists o, trace s' = Done ev x :: o :: trace s) -> (forall a, accEvents s !! ev = Some a -> accEvents s' = <[ev := mkAcc (acc_addr a) (acc_write a) EV_DONE]> (accEvents s)) ->
  is_Some (accEvents s !! ev) -> waits s' ev' wr st.
Proof using C.
  intros [(a & Ha) Ht] Hne Etr Ea [b Hb]. split.
  - exists a. rewrite (Ea b Hb). by rewrite lookup_insert_ne.
  - destruct Etr as [->|(o & ->)]; set_solver.
Qed.

Lemma held_distinct now m ev extra s w n ev' : events_ok now m (ev :: extra) s -> n ∈ live w s -> q_ev (req w s n) = Some ev' -> ev' <> ev.
Proof using C.
  intros E Hn Hq ->. pose proof (ev_nodup _ _ _ _ E) as Hnd. rewrite (ev_perm _ _ _ _ E) in Hnd.
  apply NoDup_app in Hnd as (_ & _ & Hnd). cbn in Hnd. apply NoDup_cons in Hnd as [Hnin _]. apply Hnin, elem_of_app. right.
  assert (ev ∈ waiting w s) as Hw.
  { unfold waiting. apply list_elem_of_omap. exists (req w s n). split; [|done]. by apply list_elem_of_fmap_2. }
  unfold held. destruct w; set_solver.
Qed.

Lemma held_distinct_ovf now m ev extra s r ev' : events_ok now m (ev :: extra) s -> r ∈ overflowQueue s -> q_ev r = Some ev' -> ev' <> ev.
Proof using C.
  intros E Hr Hq ->. pose proof (ev_nodup _ _ _ _ E) as Hnd. rewrite (ev_perm _ _ _ _ E) in Hnd.
  apply NoDup_app in Hnd as (_ & _ & Hnd). cbn in Hnd. apply NoDup_cons in Hnd as [Hnin _]. apply Hnin, elem_of_app. right.
  unfold held. rewrite !elem_of_app. right; right. apply list_elem_of_omap. by exists r.
Qed.

(** *** Admission *)

Record admitted (w : bool) (n : nat) (mem : Z) (r : Request) (s s' : DDR) : Prop := {
  ad_placed : exists t, taken c w n (queued r mem) s t /\ s' = placed c w n t;
  ad_ovf : overflowQueue s' = overflowQueue s;
  ad_resp : minRespCycle s' = minRespCycle s /\ lastCmdWasWrite s' = lastCmdWasWrite s;
  ad_wins : rankActWindows s' = rankActWindows s;
  ad_next : nextSchedEvent s' = nextSchedEvent s /\ nextSchedCycle s' = nextSchedCycle s /\ eventFreelist s' = eventFreelist s;
  ad_sched : schedEvents s' = schedEvents s;
  ad_prof : prof s' = prof s;
  ad_acc : match q_write r, q_ev r with
    | true, Some ev => trace s' = Done ev (m2s c mem) :: trace s /\
        exists a, accEvents s !! ev = Some a /\ accEvents s' = <[ev := mkAcc (acc_addr a) (acc_write a) EV_DONE]> (accEvents s)
    | _, _ => trace s' = trace s /\ accEvents s' = accEvents s
    end
}.

Section admission.
Context (w : bool) (n : nat) (now m : Z) (r : Request) (s s' : DDR) (ev : nat).
Context (W : wq_ok c w s) (Hr : in_range c (q_loc r)) (Hw : use_wr c (q_write r) = w).
Context (Ev : q_ev r = Some ev) (Hwait : waits s ev (q_write r) (startSysCycle r)).
Context (E : events_ok now m [ev] s) (A : admitted w n m r s s') (Hm : 0 <= m).

Lemma adm_live : live w s' = live w s ++ [n] /\ live (negb w) s' = live (negb w) s /\
  (forall k, req (negb w) s' k = req (negb w) s k) /\ (forall k, k ∈ live w s -> req w s' k = req w s k) /\
  exists sq, req w s' n = set_rowHitSeq (queued r m) sq.
Proof using All.
  destruct (ad_placed _ _ _ _ _ _ A) as (t & K & ->).
  pose proof (placed_queue c C w n _ s t W K) as Eq. pose proof (placed_other c C w n _ s t W K) as Eo.
  destruct (tk_fresh c C w n _ s t W K) as (_ & Hn & _).
  split; [unfold live at 1; by rewrite Eq|]. split; [unfold live; by rewrite Eo|]. split; [intros k; unfold req; by rewrite Eo|].
  split; [intros k Hk; rewrite (placed_req' c C w n _ s t W K); rewrite decide_False; [done|by intros ->]|].
  eexists. rewrite (placed_req' c C w n _ s t W K). by rewrite decide_True.
Qed.

Lemma adm_waiting : waiting w s' = waiting w s ++ (if q_write r then [] else [ev]) /\ waiting (negb w) s' = waiting (negb w) s.
Proof using All.
  destruct adm_live as (L1 & L2 & L3 & L4 & sq & L5). unfold waiting. rewrite L1, L2. split.
  - rewrite map_app. assert (map (req w s') (live w s) = map (req w s) (live w s)) as -> by (apply map_ext_in; intros k Hk; apply L4; by apply list_elem_of_In).
    rewrite omap_app. cbn. rewrite L5. unfold queued. cbn. destruct (q_write r); cbn; by rewrite ?Ev.
  - f_equal. apply map_ext. intros k. apply L3.
Qed.

Lemma adm_held : (if q_write r then [ev] else []) ++ held s' ≡ₚ [ev] ++ held s.
Proof using All.
  destruct adm_waiting as [H1 H2]. unfold held. rewrite (ad_ovf _ _ _ _ _ _ A).
  destruct w, (q_write r); cbn in *; rewrite H1, H2; solve_Permutation.
Qed.

Lemma events_admitted : events_ok now m [] s'.
Proof using All.
  destruct E as [H1 H2 H3 H4 H5 H6 H7]. destruct adm_live as (L1 & L2 & L3 & L4 & sq & L5). pose proof adm_held as Hh.
  pose proof (ad_acc _ _ _ _ _ _ A) as Hacc. rewrite Ev in Hacc.
  assert ((forall ev' x, Arrived ev' x ∈ trace s' <-> Arrived ev' x ∈ trace s) /\ arrived (trace s') = arrived (trace s) /\
          dones (trace s') = (if q_write r then [ev] else []) ++ dones (trace s)) as (T1 & T2 & T3).
  { destruct (q_write r); destruct Hacc as [-> _]; [|done]. split; [|done]. intros ev' x. set_solver. }
  assert (forall ev' wr st, waits s ev' wr st -> ev' <> ev \/ q_write r = false -> waits s' ev' wr st) as Hws.
  { intros ev' wr st [(a & Ha) Ht] Hne. split; [|by apply T1]. exists a. destruct (q_write r).
    - destruct Hacc as (_ & b & _ & ->). destruct Hne as [Hne|]; [|done]. by rewrite lookup_insert_ne.
    - by destruct Hacc as [_ ->]. }
  assert (forall k w', k ∈ live w' s -> forall ev', q_ev (req w' s k) = Some ev' -> ev' <> ev) as Hne.
  { intros k w' Hk ev' Hq. exact (held_distinct now m ev [] s w' k ev' E Hk Hq). }
  split.
  - rewrite T2, T3, H1. destruct (q_write r); cbn in *; [|by rewrite Hh]. rewrite <- Hh. solve_Permutation.
  - by rewrite T2.
  - intros ev'. rewrite T2, <- H3. destruct (q_write r); [|by destruct Hacc as [_ ->]]. destruct Hacc as (_ & a & Ha & ->).
    destruct (decide (ev' = ev)) as [->|]; [rewrite lookup_insert_eq, Ha; split; intros _; by eexists|by rewrite lookup_insert_ne].
  - intros w' k Hk. destruct (decide (w' = w)) as [->|Hw'].
    + rewrite L1 in Hk. apply elem_of_app in Hk as [Hk|Hk%list_elem_of_singleton].
      * rewrite L4 by done. destruct (H4 _ _ Hk) as [Ha Hq]. split; [done|]. destruct (q_write (req w s k)); [done|].
        destruct Hq as (ev' & Eq' & Hq). exists ev'. split; [done|]. apply Hws; [done|left; by eapply Hne].
      * subst k. rewrite L5. unfold queued. split; cbn; [lia|]. destruct (q_write r) eqn:Ewr; cbn; rewrite Ewr; [done|].
        exists ev. split; [done|]. apply Hws; [done|by right].
    + assert (w' = negb w) as -> by (by destruct w, w'). rewrite L2 in Hk. rewrite L3. destruct (H4 _ _ Hk) as [Ha Hq]. split; [done|].
      destruct (q_write (req (negb w) s k)); [done|]. destruct Hq as (ev' & Eq' & Hq). exists ev'. split; [done|]. apply Hws; [done|left; by eapply Hne].
  - rewrite (ad_ovf _ _ _ _ _ _ A). intros r' Hr'. destruct (H5 r' Hr') as (Hi & ev' & Eq' & Hq). split; [done|]. exists ev'. split; [done|].
    apply Hws; [done|]. left. exact (held_distinct_ovf now m ev [] s r' ev' E Hr' Eq').
  - intros ev' x Hx. by apply (H6 ev'), T1.
  - intros ev'. rewrite T3. destruct (q_write r); cbn [app].
    + destruct Hacc as (_ & a & Ha & ->). intros [->|Hd]%elem_of_cons; [rewrite lookup_insert_eq; by eexists|].
      destruct (decide (ev' = ev)) as [->|]; [rewrite lookup_insert_eq; by eexists|]. rewrite lookup_insert_ne by done. by apply H7.
    + destruct Hacc as [_ ->]. apply H7.
Qed.
End admission.

(** A completion after its access. *)
Lemma done_entry now m extra s s0 ev x wr st : events_ok now m extra s -> waits s ev wr st -> now <= x ->
  (forall o, o ∈ trace s -> o ∈ s0) -> entry_ok c (Done ev x) s0.
Proof using C. intros E [_ Ht] Hx Hs. exists st. split; [by apply Hs|]. pose proof (ev_times _ _ _ _ E _ _ Ht). lia. Qed.

(** *** Issue *)

Section issue.
Context (w : bool) (n : nat) (now m lr : Z) (s s' : DDR).
Context (W : wq_ok c w s) (Hn : n ∈ live w s) (I : issued c w n m s s') (E : events_ok now m [] s).
Local Notation r := (req w s n).

Lemma iss_waiting : (match q_ev r with Some ev => [ev] | None => [] end) ++ held s' ≡ₚ held s.
Proof using All.
  destruct (pool_nodup c C _ (wq_pool _ _ _ W)) as (Hnd & _). fold (live w s) in Hnd.
  destruct (list_elem_of_split _ _ Hn) as (k1 & k2 & Ek). rewrite Ek in Hnd.
  assert (live w s' = k1 ++ k2) as El by (rewrite (iss_live c C w n m s s' I), Ek; by apply filter_without).
  assert (forall k, req w s' k = req w s k) as Hreq by (intros k; by apply (iss_req c C w n m)).
  assert (waiting w s ≡ₚ (match q_ev r with Some ev => [ev] | None => [] end) ++ waiting w s') as Hw.
  { unfold waiting. rewrite El, Ek, !map_app. cbn [map]. rewrite !omap_app. cbn [omap list_omap].
    assert (forall k, map (req w s') k = map (req w s) k) as Hm by (intros k; apply map_ext; intros; apply Hreq). rewrite !Hm.
    destruct (q_ev r); cbn; solve_Permutation. }
  assert (waiting (negb w) s' = waiting (negb w) s) as Ho.
  { unfold waiting. assert (live (negb w) s' = live (negb w) s) as -> by (unfold live; by rewrite (is_other _ _ _ _ _ _ I)).
    f_equal. apply map_ext. intros k. unfold req. by rewrite (is_other _ _ _ _ _ _ I). }
  unfold held. rewrite (is_ovf _ _ _ _ _ _ I). clear -Hw Ho. destruct w; cbn in Ho; rewrite Ho, Hw; solve_Permutation.
Qed.

Lemma events_issued : events_ok now m [] s'.
Proof using All.
  pose proof E as [H1 H2 H3 H4 H5 H6 H7]. pose proof iss_waiting as Hh. pose proof (is_trace _ _ _ _ _ _ I) as Hacc. cbv zeta in Hacc.
  destruct (H4 _ _ Hn) as [_ Hrn].
  set (cmd := Command _ _ _ _ _ _) in *.
  assert ((forall ev' x, Arrived ev' x ∈ trace s' <-> Arrived ev' x ∈ trace s) /\ arrived (trace s') = arrived (trace s) /\
          dones (trace s') = (match q_ev r with Some ev => [ev] | None => [] end) ++ dones (trace s)) as (T1 & T2 & T3).
  { destruct (q_ev r); destruct Hacc as [-> _]; (split; [|done]); intros ev' x; unfold cmd; set_solver. }
  assert (NoDup (held s)) as Hnd.
  { rewrite H1 in H2. apply NoDup_app in H2 as (_ & _ & H2). done. }
  rewrite <- Hh in Hnd.
  assert (forall ev', ev' ∈ held s' -> q_ev r <> Some ev') as Hne.
  { intros ev' Hin Eq. rewrite Eq in Hnd. cbn in Hnd. by apply NoDup_cons in Hnd as [? _]. }
  assert (forall ev' wr st, waits s ev' wr st -> ev' ∈ held s' -> waits s' ev' wr st) as Hws.
  { intros ev' wr st [(a & Ha) Ht] Hin. split; [|by apply T1]. exists a. specialize (Hne _ Hin). destruct (q_ev r) as [ev|].
    - destruct Hacc as (_ & b & _ & ->). rewrite lookup_insert_ne; [done|congruence].
    - by destruct Hacc as [_ ->]. }
  assert (forall w' k, k ∈ live w' s' -> k ∈ live w' s /\ req w' s' k = req w' s k) as Hlive.
  { intros w' k Hk. destruct (decide (w' = w)) as [->|Hw'].
    - rewrite (iss_live c C w n m s s' I), list_elem_of_filter in Hk. split; [apply Hk|by apply (iss_req c C w n m)].
    - assert (w' = negb w) as -> by (clear -Hw'; by destruct w, w'). unfold live, req in *. by rewrite (is_other _ _ _ _ _ _ I) in *. }
  split.
  - rewrite T2, T3, H1. cbn [app]. rewrite <- Hh. destruct (q_ev r); cbn; [by rewrite <- Permutation_middle|done].
  - by rewrite T2.
  - intros ev'. rewrite T2, <- H3. destruct (q_ev r) as [ev|]; [|by destruct Hacc as [_ ->]]. destruct Hacc as (_ & a & Ha & ->).
    destruct (decide (ev' = ev)) as [->|]; [rewrite lookup_insert_eq, Ha; split; intros _; by eexists|by rewrite lookup_insert_ne].
  - intros w' k Hk. destruct (Hlive _ _ Hk) as [Hk' Er]. rewrite Er. destruct (H4 _ _ Hk') as [Ha Hq]. split; [done|].
    destruct (q_write (req w' s k)); [done|]. destruct Hq as (ev' & Eq' & Hq). exists ev'. split; [done|]. apply Hws; [done|].
    assert (ev' ∈ waiting w' s') as Hin.
    { unfold waiting. apply list_elem_of_omap. exists (req w' s' k). split; [by apply list_elem_of_fmap_2|by rewrite Er]. }
    unfold held. destruct w'; set_solver.
  - rewrite (is_ovf _ _ _ _ _ _ I). intros r' Hr'. destruct (H5 r' Hr') as (Hi & ev' & Eq' & Hq). split; [done|]. exists ev'. split; [done|].
    apply Hws; [done|]. unfold held. rewrite !elem_of_app. right; right. rewrite (is_ovf _ _ _ _ _ _ I). apply list_elem_of_omap. by exists r'.
  - intros ev' x Hx. by apply (H6 ev'), T1.
  - intros ev'. rewrite T3. destruct (q_ev r) as [ev|]; cbn [app].
    + destruct Hacc as (_ & a & Ha & ->). intros [->|Hd]%elem_of_cons; [rewrite lookup_insert_eq; by eexists|].
      destruct (decide (ev' = ev)) as [->|]; [rewrite lookup_insert_eq; by eexists|]. rewrite lookup_insert_ne by done. by apply H7.
    + destruct Hacc as [_ ->]. apply H7.
Qed.
End issue.
End events.
