(* ===== verification/DDRInv.v ===== *)
(** * The handlers of the DDR controller keep its invariant

    [core]: timing, queues and accesses; what an attempt to schedule does
    ([tried]) and what admitting from the overflow queue does ([drained]); then
    the scheduling events ([sched_ok]) and the handlers of the machine. *)

From Stdlib Require Import Ascii.
From S2P Require Import Prelude Floats MemHier MTRand ReplPolicies CacheArrays TimingEvent World Memory DDRMem DDRBase DDRExec DDRQueue DDRTiming DDREvents.
Local Open Scope Z_scope.
Import DDRMemory.
#[local] Existing Instance ActWindow.inhabited.

Section machine.
Context (c : Conf) (C : conf_ok c).

Ltac conf := destruct C as [? [??] [??] [??] [??] [??] [??] [??] [??] [??] [??] [??] [??] ? ? ? [??] [??] [??] [??] ? ? ? ? ?]; unfold small, lead in *.

(** ** The invariant without scheduling events *)

(** [now] is a system cycle, [m] its memory cycle, [lr] that of the last refresh. *)
Record core (now m lr : Z) (extra : list nat) (s : DDR) : Prop := {
  co_now : 0 <= now;
  co_mem : s2m c now = m;
  co_timed : timed c m lr s;
  co_wq w : wq_ok c w s;
  co_events : events_ok c now m extra s;
  co_prof : length (latencyHist (prof s)) = Z.to_nat NUMBINS
}.

(** Fields the queues do not touch. *)
Record same_rest (s t : DDR) : Prop := {
  sr_ovf : overflowQueue t = overflowQueue s;
  sr_resp : minRespCycle t = minRespCycle s /\ lastCmdWasWrite t = lastCmdWasWrite s;
  sr_wins : rankActWindows t = rankActWindows s;
  sr_next : nextSchedEvent t = nextSchedEvent s /\ nextSchedCycle t = nextSchedCycle s /\ eventFreelist t = eventFreelist s;
  sr_sched : schedEvents t = schedEvents s;
  sr_prof : prof t = prof s;
  sr_acc : accEvents t = accEvents s /\ trace t = trace s
}.

(** ** Admission *)

Definition alloc_queue (w : bool) (n : nat) (s : DDR) : DDR :=
  set_the_queue w s (RequestQueue.mk (RequestQueue.elems (the_queue w s)) (live w s ++ [n]) (removelast (RequestQueue.freeList (the_queue w s)))).

Lemma wp_req_alloc w s (Q : nat -> DDR -> Prop) : RequestQueue.full (the_queue w s) = false ->
  (forall n, last (RequestQueue.freeList (the_queue w s)) = Some n -> Q n (alloc_queue w n s)) -> wp (req_alloc w) s Q.
Proof using.
  intros Hf HQ. unfold req_alloc. apply wp_bind, wp_get, wp_bind. unfold RequestQueue.full in Hf. apply bool_decide_eq_false in Hf.
  destruct (RequestQueue.freeList (the_queue w s)) as [|x l] eqn:El; [done|]. assert (is_Some (last (x :: l))) as [n Hl] by (apply last_is_Some; done).
  eapply wp_lift. { unfold RequestQueue.alloc, RequestQueue.full. rewrite El, bool_decide_false by done. cbn [negb check mbind outcome_bind]. rewrite Hl. done. }
  apply wp_bind, wp_modify, wp_ret. specialize (HQ n Hl). unfold alloc_queue in HQ. by rewrite El in HQ.
Qed.

Lemma alloc_taken w n r s : shape c s -> wq_ok c w s -> last (RequestQueue.freeList (the_queue w s)) = Some n ->
  taken c w n r s (set_req w n r (alloc_queue w n s)) /\ (n < pool_size w (alloc_queue w n s))%nat /\ same_rest s (set_req w n r (alloc_queue w n s)).
Proof using C.
  intros Hs W Hl. split; [split|split].
  - unfold set_req, alloc_queue. by rewrite !the_queue_eq.
  - done.
  - unfold set_req, alloc_queue. by rewrite !the_queue_ne.
  - intros l. by destruct w.
  - destruct Hs. by destruct w.
  - unfold pool_size, alloc_queue. rewrite the_queue_eq. cbn. destruct (pool_nodup c C _ (wq_pool _ _ _ W)) as (_ & _ & _ & Hb). apply Hb. right.
    by apply last_Some_elem_of.
  - by destruct w.
Qed.

Lemma wp_admit w n m r ev sb t (Q : unit -> DDR -> Prop) : fits c m -> wq_ok c w sb -> taken c w n r sb t -> same_rest sb t ->
  in_range c (q_loc r) -> q_ev r = Some ev -> (exists a, accEvents sb !! ev = Some (mkAcc a (q_write r) EV_HELD)) ->
  (forall s', admitted c w n m r sb s' -> Q tt s') -> wp (queue c w n m) t Q.
Proof using C.
  intros F W K Sr Hr Ev (a & Ha) HQ. pose proof (tk_pool c C w n r sb t W K) as Hn. pose proof (tk_req c C w n r sb t W K n) as Er.
  rewrite decide_True in Er by done. pose proof Sr as [Q1 Q2 Q3 Q4 Q5 Q6 [Q7 Q8]].
  assert (memToSysCycle c m +64 minWrLatency c -64 preDelay c -64 postDelayWr c = m2s c m) as Ex.
  { pose proof (fits_mul c C m (m + 1) F ltac:(lia)) as Hb. pose proof (co_freq c C) as Fr. pose proof Fr as [Hf1 Hf2 Hf3]. destruct F as [F0 F].
    rewrite memToSysCycle_eq by (done || lia). rewrite (co_wr c C), (co_pre c C), (co_postWr c C). pose proof (co_lat c C).
    assert (0 <= m2s c m < 2 ^ 62) as Hm2s.
    { unfold m2s. pose proof (freq_half c Fr). split; [apply Z.div_pos; nia|]. apply Z.div_lt_upper_bound; [lia|].
      pose proof (Z.mul_le_mono_nonneg_r 1 (memFreqKHz c) (2 ^ 62) ltac:(lia) ltac:(lia)). lia. }
    pose proof max64_eq. rewrite (u64_small (m2s c m + _)) by lia. rewrite (u64_small (_ + _ - _)) by lia. rewrite u64_small by lia. lia. }
  apply (wp_queue c); rewrite ?Er; [apply K|done|done| |intros _; exists ev; rewrite Q7; by eexists|].
  { rewrite (tk_bk _ _ _ _ _ _ K). apply Forall_forall. intros k Hk. apply (bank_live c C w sb _ k W Hr) in Hk as [_ Hk].
    pose proof (live_pool c C w sb k W Hk). unfold pool_size in *. rewrite (tk_queue _ _ _ _ _ _ K). cbn. by rewrite length_insert. }
  apply HQ. set (t' := answered c r m t).
  assert ((forall k, the_queue k t' = the_queue k t) /\ banks t' = banks t /\ rankActWindows t' = rankActWindows t /\
    overflowQueue t' = overflowQueue t /\ minRespCycle t' = minRespCycle t /\ lastCmdWasWrite t' = lastCmdWasWrite t /\
    (nextSchedEvent t' = nextSchedEvent t /\ nextSchedCycle t' = nextSchedCycle t /\ eventFreelist t' = eventFreelist t) /\
    schedEvents t' = schedEvents t /\ prof t' = prof t) as (X1 & X2 & X3 & X4 & X5 & X6 & X7 & X8 & X9).
  { unfold t', answered. destruct (q_write r); [|done]. rewrite Ev. unfold finish. destruct (accEvents t !! ev); [|done]. split; [by intros []|done]. }
  assert (match q_write r, q_ev r with
    | true, Some ev => trace t' = Done ev (m2s c m) :: trace sb /\
        exists a, accEvents sb !! ev = Some a /\ accEvents t' = <[ev := mkAcc (acc_addr a) (acc_write a) EV_DONE]> (accEvents sb)
    | _, _ => trace t' = trace sb /\ accEvents t' = accEvents sb end) as X10.
  { unfold t', answered. rewrite Ev, Ex. destruct (q_write r); [|done]. unfold finish. rewrite Q7, Ha. cbn. rewrite Q8. split; [done|].
    exists (mkAcc a true EV_HELD). done. }
  clearbody t'. split; [exists (set_req w n (queued r m) t'); split; [split|done]|..]; unfold placed; rewrite ?set_req_twice.
  - unfold set_req. rewrite the_queue_eq, X1, (tk_queue _ _ _ _ _ _ K). unfold q_set. cbn. by rewrite list_insert_insert_eq.
  - apply K.
  - unfold set_req. rewrite the_queue_ne, X1. apply K.
  - intros l. rewrite bk_set_req. unfold bk. rewrite X2. apply (tk_bk _ _ _ _ _ _ K).
  - apply shape_set_req. destruct (tk_shape _ _ _ _ _ _ K). split; rewrite ?X2, ?X3; done.
  - rewrite <- Q1, <- X4. by destruct w.
  - rewrite <- (proj1 Q2), <- (proj2 Q2), <- X5, <- X6. by destruct w.
  - rewrite <- Q3, <- X3. by destruct w.
  - destruct Q4 as (<- & <- & <-). destruct X7 as (<- & <- & <-). by destruct w.
  - rewrite <- Q5, <- X8. by destruct w.
  - rewrite <- Q6, <- X9. by destruct w.
  - rewrite Ev in *. destruct (q_write r); destruct w; exact X10.
Qed.

Lemma core_admitted now m lr w n r ev s s' : core now m lr [ev] s -> in_range c (q_loc r) -> use_wr c (q_write r) = w -> q_ev r = Some ev ->
  waits s ev (q_write r) (startSysCycle r) -> admitted c w n m r s s' -> core now m lr [] s'.
Proof using C.
  intros [H1 H2 H3 H4 H5 H6] Hr Hw Ev Hwait A. pose proof (ad_placed _ _ _ _ _ _ _ A) as (t & K & Es).
  pose proof (ad_acc _ _ _ _ _ _ _ A) as Hacc. rewrite Ev in Hacc.
  assert (q_loc (queued r m) = q_loc r /\ q_write (queued r m) = q_write r) as [El Ew] by (unfold queued; destruct (q_write r) eqn:Ew; cbn; done).
  assert (in_range c (q_loc (queued r m))) as Hr2 by (by rewrite El). assert (use_wr c (q_write (queued r m)) = w) as Hw2 by (by rewrite Ew).
  assert (0 <= m) as Hm by (rewrite <- H2; pose proof (s2m_pos c (co_freq c C) now H1); lia).
  split; [done|done|..].
  - assert (exists pre, trace s' = pre ++ trace s /\ Forall quiet pre /\ entries_ok c (trace s')) as (pre & T1 & T2 & T3).
    { destruct (q_write r); destruct Hacc as [-> _]; [|exists []; split; [done|]; split; [constructor|apply H3]].
      exists [Done ev (m2s c m)]. split; [done|]. split; [by repeat constructor|]. split; [|apply H3].
      eapply (done_entry c C now m [ev] s); [done|done| |done]. apply (m2s_s2m c (co_freq c C)); [done|lia]. }
    apply (timed_quiet c m lr s s' pre); [done|rewrite Es; by apply (placed_shape c C w n (queued r m) s t)|apply A|apply A|apply A| |done|done|done].
    intros l _. rewrite Es, (placed_bk c C w n (queued r m) s t) by done. case_decide; [by destruct w|done].
  - intros k. destruct (decide (k = w)) as [->|Hk]; [rewrite Es; by apply (wq_placed c C w n (queued r m) s t)|].
    assert (k = negb w) as -> by (by destruct k, w). rewrite Es. by apply (wq_placed_other c C w n (queued r m) s t).
  - eapply (events_admitted c C w n now m r s s' ev); [apply H4|done|done|done|done|done|done|done].
  - by rewrite (ad_prof _ _ _ _ _ _ _ A).
Qed.

(** ** Scheduling *)

Lemma core_near now m lr x s : core now m lr x s -> near c m s.
Proof using C. intros K. apply (timed_near c C m lr), (co_timed _ _ _ _ _ K). Qed.

Lemma core_req now m lr x s w n : core now m lr x s -> n ∈ live w s -> (n < pool_size w s)%nat /\ req_near c m (req w s n).
Proof using C.
  intros K Hn. split; [by apply (live_pool c C w s n (co_wq _ _ _ _ _ K w))|]. destruct (ev_live _ _ _ _ _ (co_events _ _ _ _ _ K) w n Hn) as [Ha _].
  split; [|done]. by apply (wq_req _ _ _ (co_wq _ _ _ _ _ K w)).
Qed.

Lemma core_ready now m lr s w n : core now m lr [] s -> n ∈ live w s -> min_cmd c s (req w s n) <= m -> minRespCycle s <= m + tCL c ->
  ready c w n m s.
Proof using C.
  intros K Hn Hc Hr. destruct (core_req _ _ _ _ _ _ _ K Hn) as [Hp Hq]. pose proof Hq as [Hi _]. split; try done.
  - by eapply core_near.
  - apply (bank_pool c C w s); [apply (co_wq _ _ _ _ _ K)|done].
  - by apply (ti_bank _ _ _ _ (co_timed _ _ _ _ _ K) _ Hi).
  - apply (co_prof _ _ _ _ _ K).
  - destruct (ev_live _ _ _ _ _ (co_events _ _ _ _ _ K) w n Hn) as [_ He]. destruct (q_write (req w s n)) eqn:Ew; [by rewrite He|].
    destruct He as (ev & -> & (a & Ha) & _). split; [done|by exists a].
Qed.

Lemma core_issued now m lr s s' w n : core now m lr [] s -> n ∈ live w s -> first w s n -> ready c w n m s -> issued c w n m s s' -> core now m lr [] s'.
Proof using C.
  intros K Hn Hf R I. pose proof K as [H1 H2 H3 H4 H5 H6]. pose proof (cmd_entry c C w n m lr s H3 R) as He.
  pose proof (is_resp _ _ _ _ _ _ I) as Er. destruct (cmd_cas c C w n m s R) as (K1 & _).
  assert (entries_ok c (trace s')) as Ht.
  { pose proof (is_trace _ _ _ _ _ _ I) as Htr. cbv zeta in Htr.
    destruct (ev_live _ _ _ _ _ H5 w n Hn) as [_ Hq]. destruct (q_ev (req w s n)) as [ev|] eqn:Eq.
    - destruct Htr as [-> _]. split; [|by split; [|apply H3]]. destruct (q_write (req w s n)) eqn:Ew; [done|]. destruct Hq as (ev' & Eq' & Hw).
      injection Eq' as <-. eapply (done_entry c C now m [] s); [done|done| |intros o Ho; by right]. rewrite Er.
      pose proof (m2s_add c (co_freq c C) now (cas_of c s (req w s n) m + tCL c + tBL c) (tCL c + tBL c) H1 ltac:(conf; lia) ltac:(lia)). lia.
    - destruct Htr as [-> _]. split; [done|apply H3]. }
  split; [done|done|by apply (timed_issued c C w n m lr s s')|..].
  - intros k. destruct (decide (k = w)) as [->|Hk]; [by apply (wq_issued c C w n m s s')|].
    assert (k = negb w) as -> by (by destruct k, w). by apply (wq_issued_other c C w n m s s').
  - by apply (events_issued c C w n now m lr s s').
  - apply I.
Qed.

Definition idle (s : DDR) : Prop := live false s = [] /\ live true s = [].
#[local] Instance idle_dec s : Decision (idle s).
Proof using. unfold idle. apply _. Defined.
Definition far (m : Z) (s : DDR) : Prop := m + tCL c < minRespCycle s.

Lemma empty_live w s : RequestQueue.empty (the_queue w s) = bool_decide (live w s = []).
Proof using. done. Qed.

Lemma both_empty s : RequestQueue.empty (rdQueue s) && RequestQueue.empty (wrQueue s) = bool_decide (idle s).
Proof using.
  unfold RequestQueue.empty. fold (live false s) (live true s). unfold idle.
  change (RequestQueue.reqList (rdQueue s)) with (live false s). change (RequestQueue.reqList (wrQueue s)) with (live true s).
  repeat case_bool_decide; cbn; tauto.
Qed.

(** What an attempt to schedule does. *)
Inductive tried (m : Z) (s : DDR) : Z -> DDR -> Prop :=
  | Tried_idle : idle s -> tried m s neg1 s
  | Tried_far : ~ idle s -> far m s -> tried m s (minRespCycle s - tCL c) s
  | Tried_none x : ~ idle s -> ~ far m s -> scanned c (write_turn c s) s m (live (write_turn c s) s) neg1 x None -> live (write_turn c s) s <> [] -> tried m s x s
  | Tried_issue n s' : ~ far m s -> n ∈ live (write_turn c s) s -> first (write_turn c s) s n -> min_cmd c s (req (write_turn c s) s n) <= m ->
      issued c (write_turn c s) n m s s' -> tried m s (if bool_decide (idle s') then neg1 else minRespCycle s' - tCL c) s'.

Lemma wp_trySchedule now m lr s Q : core now m lr [] s -> (forall x s', tried m s x s' -> Q x s') -> wp (trySchedule c m now) s Q.
Proof using C.
  intros K HQ. pose proof (core_near _ _ _ _ _ K) as N. pose proof (nr_fits _ _ _ N) as F. pose proof (nr_resp _ _ _ N) as Hr.
  assert (forall x, 0 <= x <= m + 2 ^ 20 + 2 ^ 19 -> u64 x = x) as Hu by (intros x Hx; apply (fits_word c C m); [done|lia]).
  assert (0 <= m) as Hm by apply F.
  unfold trySchedule. apply wp_bind, wp_get. rewrite both_empty. case_bool_decide as Hi; [by apply wp_ret, HQ, Tried_idle|].
  rewrite (Hu (m + tCL c)) by (conf; lia). rewrite (Hu (minRespCycle s - tCL c)) by (conf; lia).
  destruct (Z.ltb_spec (m + tCL c) (minRespCycle s)) as [Hfar|Hnf]; [by apply wp_ret, HQ, Tried_far|].
  cbv zeta. set (w := write_turn c s). assert (live w s <> []) as Hne.
  { unfold w, write_turn. destruct (RequestQueue.empty (rdQueue s)) eqn:Er; cbn [orb].
    - intros Hl. apply Hi. split; [|done]. unfold RequestQueue.empty in Er. by apply bool_decide_eq_true in Er.
    - apply bool_decide_eq_false in Er. destruct (u32 (3 * queueDepth c) / 4 <? RequestQueue.size (wrQueue s)) eqn:E1; cbn [orb].
      + apply Z.ltb_lt in E1. unfold RequestQueue.size in E1. intros Hl. change (live true s) with (RequestQueue.reqList (wrQueue s)) in Hl. rewrite Hl in E1. cbn in E1.
        pose proof (Z.div_pos (u32 (3 * queueDepth c)) 4 ltac:(apply u32_bound) ltac:(lia)). lia.
      + destruct (lastCmdWasWrite s); cbn [andb]; [|done]. destruct (Z.ltb_spec (queueDepth c / 4) (RequestQueue.size (wrQueue s))) as [E2|]; [|done].
        unfold RequestQueue.size in E2. intros Hl. change (live true s) with (RequestQueue.reqList (wrQueue s)) in Hl. rewrite Hl in E2. cbn in E2.
        pose proof (Z.div_pos (queueDepth c) 4 ltac:(pose proof (co_depth c C); lia) ltac:(lia)). lia. }
  apply wp_bind, wp_assert; [rewrite empty_live; by rewrite bool_decide_false|]. apply wp_bind.
  eapply (wp_scan c C m); [done| |].
  { apply Forall_forall. intros n Hn. by apply (core_req now m lr [] s w n). }
  intros x [n|] Hx.
  - destruct Hx as (Hn & Hf & Hc). pose proof (core_ready _ _ _ _ _ _ K Hn Hc ltac:(lia)) as R.
    eapply (wp_issued_ok c C w n m); [done|done|apply K|by rewrite (co_mem _ _ _ _ _ K)|]. intros s' I. rewrite both_empty. apply HQ.
    eapply Tried_issue; [|done|done|done|done]. unfold far. lia.
  - apply wp_ret, HQ, Tried_none; [done|unfold far; lia|done|done].
Qed.

(** A cycle to come that the controller may ask to be ticked at. *)
Definition soon (m x : Z) : Prop := m <= x <= m + 2 ^ 21.

Lemma soon_neg1 m x : fits c m -> soon m x -> x < neg1.
Proof using C.
  intros F Hx. pose proof (fits_mul c C m x F). destruct F as [F0 F1]. unfold soon in Hx. destruct (co_freq c C). pose proof (freq_half c (co_freq c C)).
  pose proof max64_eq. unfold neg1. nia.
Qed.

Lemma min_cmd_bound m s r : near c m s -> req_near c m r -> 0 <= min_cmd c s r <= m + 2 ^ 21.
Proof using C.
  intros N [Hl Ha]. destruct (nr_bank c m s N _ Hl) as (H1 & H2 & H3). destruct (oldest_view c m s _ N Hl) as (_ & _ & H4).
  unfold min_cmd, act_of, pre_of, nigh in *. conf. destruct (hits s r), (open (bk s (q_loc r))); lia.
Qed.

Lemma some_first w s : wq_ok c w s -> live w s <> [] -> exists n, n ∈ live w s /\ first w s n.
Proof using C.
  intros W Hne. destruct (live w s) as [|k l] eqn:El; [done|]. assert (k ∈ live w s) as Hk by (rewrite El; by left).
  destruct (wq_req _ _ _ W k Hk) as [Hi _]. assert (k ∈ bank_reqs w (bk s (q_loc (req w s k)))) as Hb by (by apply (bank_live c C w s)).
  destruct (bank_reqs w (bk s (q_loc (req w s k)))) as [|h q] eqn:Eq; [by apply not_elem_of_nil in Hb|]. exists h.
  assert (h ∈ bank_reqs w (bk s (q_loc (req w s k)))) as Hh by (rewrite Eq; by left). apply (bank_live c C w s) in Hh as [Hs Hh]; [|done|done].
  rewrite <- El. split; [done|]. unfold first. assert (bk s (q_loc (req w s h)) = bk s (q_loc (req w s k))) as -> by (unfold bk; by destruct Hs as [-> ->]).
  by rewrite Eq.
Qed.

Definition same_sched (s s' : DDR) : Prop :=
  nextSchedEvent s' = nextSchedEvent s /\ nextSchedCycle s' = nextSchedCycle s /\ eventFreelist s' = eventFreelist s /\ schedEvents s' = schedEvents s.

(** What follows from an attempt. *)
Lemma tried_ok now m lr s x s' : core now m lr [] s -> tried m s x s' ->
  core now m lr [] s' /\ same_sched s s' /\ overflowQueue s' = overflowQueue s /\ m <= x /\
  (idle s' -> x = neg1) /\ (~ idle s' -> m < x <= m + 2 ^ 21).
Proof using C.
  intros K T. pose proof (core_near _ _ _ _ _ K) as N. pose proof (nr_fits _ _ _ N) as F. pose proof (nr_resp _ _ _ N) as Hr.
  assert (m < neg1) as Hneg by (pose proof (soon_neg1 m m F ltac:(unfold soon; lia)); lia).
  destruct T as [Hi|Hi Hf|x Hi Hf Hx Hl|n s' Hf Hn H1 H2 I].
  - do 3 (split; [done|]). split; [lia|]. by split.
  - unfold far in *. do 3 (split; [done|]). split; [conf; lia|]. split; [done|]. intros _. conf; lia.
  - assert (m < x <= m + 2 ^ 21) as Hb.
    { destruct Hx as (Hx1 & Hx2 & Hx3). destruct (some_first _ s (co_wq _ _ _ _ _ K (write_turn c s)) Hl) as (h & Hh & Hfh).
      destruct (core_req _ _ _ _ _ _ _ K Hh) as [_ Rh]. destruct (Hx1 h Hh Hfh) as [U1 U2]. pose proof (min_cmd_bound m s _ N Rh) as Ub.
      destruct Hx3 as [->|(n & Hn & Hfn & ->)]; [|destruct (Hx1 n Hn Hfn); lia].
      pose proof (soon_neg1 m (min_cmd c s (req (write_turn c s) s h)) F ltac:(unfold soon; lia)). lia. }
    do 3 (split; [done|]). split; [lia|]. by split.
  - pose proof (core_ready _ _ _ _ _ _ K Hn H2 ltac:(unfold far in Hf; lia)) as R. destruct (cmd_cas c C _ n m s R) as (K1 & _).
    pose proof (core_issued _ _ _ _ _ _ _ K Hn H1 R I) as K'. pose proof (is_resp _ _ _ _ _ _ I) as Er.
    assert (m < minRespCycle s' - tCL c <= m + 2 ^ 21) as Hb by (rewrite Er; conf; lia).
    split; [done|]. split; [split; [apply I|split; [apply I|split; [apply I|apply I]]]|]. split; [apply I|].
    case_bool_decide; (split; [lia|]); by split.
Qed.

(** ** Admission from the overflow queue *)

#[local] Instance first_dec w s n : Decision (first w s n).
Proof using. unfold first. apply _. Defined.

Definition first_slot (m : Z) (s : DDR) : Z := Z.max m (minRespCycle s - tCL c - tBL c).

Inductive drained (m : Z) (s : DDR) (x : Z) : Z -> DDR -> Prop :=
  | Drained_none : overflowQueue s = [] \/ RequestQueue.full (rdQueue s) = true \/ RequestQueue.full (wrQueue s) = true -> drained m s x x s
  | Drained_one w n r rest s' : overflowQueue s = r :: rest -> w = use_wr c (q_write r) -> admitted c w n m r (set_overflowQueue s rest) s' ->
      drained m s x (if decide (first w s' n) then Z.min x (first_slot m s) else x) s'.

Lemma core_take now m lr s r rest : core now m lr [] s -> overflowQueue s = r :: rest ->
  exists ev, q_ev r = Some ev /\ in_range c (q_loc r) /\ waits s ev (q_write r) (startSysCycle r) /\ core now m lr [ev] (set_overflowQueue s rest).
Proof using C.
  intros [H1 H2 H3 H4 H5 H6] Eo. destruct H5 as [E1 E2 E3 E4 E5 E6 E7]. destruct (E5 r) as (Hi & ev & Ev & Hw); [rewrite Eo; by left|].
  exists ev. split; [done|]. split; [done|]. split; [done|]. split; [done|done| | | |done].
  - apply (timed_quiet c m lr s _ []); try done; [by destruct (ti_shape _ _ _ _ H3)|apply H3].
  - intros w. apply (wq_same c C w s); [by destruct w|done| |apply H4]. intros l Hl. by apply (wq_hits _ _ _ (H4 w) l).
  - split; try done.
    + cbn [trace set_overflowQueue]. rewrite E1. unfold held. rewrite Eo. cbn [overflowQueue set_overflowQueue omap list_omap]. rewrite Ev.
      change (waiting false (set_overflowQueue s rest)) with (waiting false s). change (waiting true (set_overflowQueue s rest)) with (waiting true s). solve_Permutation.
    + intros r' Hr'. destruct (E5 r') as (Hi' & ev' & Ev' & Hw'); [rewrite Eo; by right|]. split; [done|]. by exists ev'.
Qed.

Lemma same_rest_ovf s t rest : same_rest s t -> same_rest (set_overflowQueue s rest) (set_overflowQueue t rest).
Proof using. by intros []. Qed.

Lemma wp_admit_overflow now m lr s x Q : core now m lr [] s -> m <= x -> (forall y s', drained m s x y s' -> Q y s') -> wp (admit_overflow c m x) s Q.
Proof using C.
  intros K Hx HQ. unfold admit_overflow. apply wp_bind, wp_get. destruct (overflowQueue s) as [|r rest] eqn:Eo; [apply wp_ret, HQ, Drained_none; by left|].
  destruct (RequestQueue.full (rdQueue s)) eqn:Ef1; [apply wp_ret, HQ, Drained_none; by auto|].
  destruct (RequestQueue.full (wrQueue s)) eqn:Ef2; [apply wp_ret, HQ, Drained_none; by auto|]. cbn [negb andb]. cbv zeta.
  set (w := use_wr c (q_write r)). destruct (core_take _ _ _ _ _ _ K Eo) as (ev & Ev & Hi & Hw & K1).
  pose proof (core_near _ _ _ _ _ K) as N. pose proof (nr_fits _ _ _ N) as F. pose proof (nr_shape _ _ _ N) as Hs.
  apply wp_bind, wp_req_alloc; [by destruct w|]. intros n Hn.
  destruct (alloc_taken w n r s Hs (co_wq _ _ _ _ _ K w) Hn) as (Tk & Hp & Sr).
  apply wp_bind, wp_req_put; [done|]. apply wp_bind, wp_modify. set (t := set_req w n r (alloc_queue w n s)) in *.
  apply wp_bind. eapply (wp_admit w n m r ev (set_overflowQueue s rest)); [done|apply K1| |by apply same_rest_ovf|done|done| |].
  { destruct Tk as [T1 T2 T3 T4 T5]. split; [destruct w; exact T1|destruct w; exact T2|destruct w; exact T3|exact T4|by destruct T5]. }
  { destruct Hw as [[a Ha] _]. by exists a. }
  intros s' A. pose proof (core_admitted _ _ _ _ _ _ _ _ _ K1 Hi eq_refl Ev Hw A) as K'. fold w in K'.
  destruct (adm_live c C w n now m r _ s' ev (co_wq _ _ _ _ _ K1 w) Hi eq_refl Ev Hw (co_events _ _ _ _ _ K1) A (proj1 F)) as (L1 & _ & _ & _ & sq & L5).
  assert (n ∈ live w s') as Hn' by (rewrite L1; set_solver). destruct (core_req _ _ _ _ _ _ _ K' Hn') as [Hp' Hr'].
  pose proof (core_near _ _ _ _ _ K') as N'. apply wp_bind, (wp_first_in_bank c); [done|apply N'|apply Hr'|].
  assert (minRespCycle s' = minRespCycle s) as Er by (by rewrite (proj1 (ad_resp _ _ _ _ _ _ _ A))).
  assert (first_slot m s = Z.max m (minRespCycle s' -64 tCL c -64 tBL c)) as Eslot.
  { unfold first_slot. rewrite Er. pose proof (nr_resp _ _ _ N) as Hr. assert (0 <= m) by apply F.
    conf. rewrite (fits_word c C m (minRespCycle s - tCL c)) by (done || lia). by rewrite (fits_word c C m) by (done || lia). }
  pose proof (Drained_one m s x w n r rest s' Eo eq_refl A) as D.
  case_bool_decide as Hfst; [rewrite decide_True in D by done|rewrite decide_False in D by done; by apply wp_ret, HQ].
  apply wp_bind, wp_get. cbv zeta. rewrite <- Eslot. apply wp_bind. destruct (Z.ltb_spec (first_slot m s) x) as [Hlt|Hge].
  - apply wp_bind, wp_req_get; [done|]. apply wp_bind, (wp_find c C m); [done|done|]. apply wp_ret, wp_ret.
    rewrite Z.min_r in D by lia. destruct (Z.ltb_spec (first_slot m s) (Z.max (first_slot m s) (min_cmd c s' (req w s' n)))) as [_|Hle]; [by apply HQ|].
    replace (Z.max _ _) with (first_slot m s) by lia. by apply HQ.
  - apply wp_ret, wp_ret. rewrite Z.min_l in D by lia. rewrite (proj2 (Z.ltb_ge _ _)) by lia. by apply HQ.
Qed.

Lemma admitted_live now m lr w n r ev s s' : core now m lr [ev] s -> in_range c (q_loc r) -> use_wr c (q_write r) = w -> q_ev r = Some ev ->
  waits s ev (q_write r) (startSysCycle r) -> admitted c w n m r s s' ->
  live w s' = live w s ++ [n] /\ live (negb w) s' = live (negb w) s /\ exists sq, req w s' n = set_rowHitSeq (queued r m) sq.
Proof using C.
  intros K Hi Hw Ev Hq A. pose proof (nr_fits _ _ _ (core_near _ _ _ _ _ K)) as F.
  destruct (adm_live c C w n now m r s s' ev (co_wq _ _ _ _ _ K w) Hi Hw Ev Hq (co_events _ _ _ _ _ K) A (proj1 F)) as (L1 & L2 & _ & _ & L5). done.
Qed.

(** The first request of an idle queue is the first of its bank. *)
Lemma admitted_first now m lr w n r ev s s' : core now m lr [ev] s -> in_range c (q_loc r) -> use_wr c (q_write r) = w -> q_ev r = Some ev ->
  waits s ev (q_write r) (startSysCycle r) -> admitted c w n m r s s' -> live w s = [] -> first w s' n.
Proof using C.
  intros K Hi Hw Ev Hq A El. destruct (admitted_live _ _ _ _ _ _ _ _ _ K Hi Hw Ev Hq A) as (L1 & _ & sq & L5).
  pose proof (core_admitted _ _ _ _ _ _ _ _ _ K Hi Hw Ev Hq A) as K'. rewrite El in L1. cbn in L1.
  destruct (some_first w s' (co_wq _ _ _ _ _ K' w) ltac:(by rewrite L1)) as (k & Hk & Hf). rewrite L1 in Hk.
  by apply list_elem_of_singleton in Hk as ->.
Qed.

Lemma drained_ok now m lr s x y s' : core now m lr [] s -> m <= x -> (idle s -> x = neg1) -> (~ idle s -> m < x <= m + 2 ^ 21) ->
  drained m s x y s' ->
  core now m lr [] s' /\ same_sched s s' /\ m <= y /\ (idle s' -> y = neg1) /\ (~ idle s' -> m <= y <= m + 2 ^ 21) /\
  (overflowQueue s' <> [] -> ~ idle s').
Proof using C.
  intros K Hx Hi Hni D. pose proof (core_near _ _ _ _ _ K) as N. pose proof (nr_fits _ _ _ N) as F. pose proof (nr_resp _ _ _ N) as Hr.
  destruct D as [Hfull|w n r rest s' Eo -> A].
  - split; [done|]. split; [done|]. split; [done|]. split; [done|]. split; [intros H; specialize (Hni H); lia|].
    intros Ho [Hl1 Hl2]. assert (exists w, RequestQueue.full (the_queue w s) = true) as [w Hf].
    { destruct Hfull as [|[Hf|Hf]]; [done|by exists false|by exists true]. }
    apply bool_decide_eq_true in Hf. destruct (wq_pool _ _ _ (co_wq _ _ _ _ _ K w)) as [_ Hp]. rewrite Hf, app_nil_r in Hp.
    assert (live w s = []) as El by (by destruct w). unfold live in El. rewrite El in Hp. apply Permutation_length in Hp. rewrite length_seq in Hp.
    pose proof (co_depth c C). cbn in Hp. lia.
  - destruct (core_take _ _ _ _ _ _ K Eo) as (ev & Ev & Hin & Hw & K1).
    pose proof (core_admitted _ _ _ _ _ _ _ _ _ K1 Hin eq_refl Ev Hw A) as K'.
    destruct (admitted_live _ _ _ _ _ _ _ _ _ K1 Hin eq_refl Ev Hw A) as (L1 & _).
    assert (~ idle s') as Hn.
    { intros [Hl1 Hl2]. destruct (use_wr c (q_write r)); [rewrite L1 in Hl2; by apply app_nil in Hl2 as [_ ?]|rewrite L1 in Hl1; by apply app_nil in Hl1 as [_ ?]]. }
    assert (m <= first_slot m s <= m + 2 ^ 21) as Hs by (unfold first_slot; conf; lia).
    split; [done|]. split; [split; [apply A|split; [apply A|split; [apply A|apply A]]]|].
    assert (m <= (if decide (first (use_wr c (q_write r)) s' n) then Z.min x (first_slot m s) else x) <= m + 2 ^ 21 ) as Hy.
    { case_decide as Hf; [lia|]. destruct (decide (idle s)) as [Hid|Hid]; [|specialize (Hni Hid); lia]. exfalso. apply Hf.
      eapply (admitted_first now m lr); [done|done|done|done|done|done|]. destruct Hid. by destruct (use_wr c (q_write r)). }
    split; [lia|]. split; [by intros ?|]. split; [done|done].
Qed.

(** ** Ticks *)

Definition next_tick (now y : Z) : Z := if y =? neg1 then 0 else Z.max (mm2s c y) now.

Record ticked (now m : Z) (s s' : DDR) (y : Z) : Prop := {
  tk_step : exists x s1 s2, tried m s x s1 /\ drained m s1 x y s2 /\
    s' = (if y =? neg1 then set_nextSchedEvent (set_nextSchedCycle s2 y) None else set_nextSchedCycle s2 y)
}.

(** States that differ in the scheduling of ticks only. *)
Record same_work (s s' : DDR) : Prop := {
  sw_queue w : the_queue w s' = the_queue w s;
  sw_ovf : overflowQueue s' = overflowQueue s;
  sw_banks : banks s' = banks s;
  sw_wins : rankActWindows s' = rankActWindows s;
  sw_bus : minRespCycle s' = minRespCycle s /\ lastCmdWasWrite s' = lastCmdWasWrite s;
  sw_prof : prof s' = prof s;
  sw_acc : accEvents s' = accEvents s /\ trace s' = trace s
}.

Lemma core_same now m lr x s s' : same_work s s' -> core now m lr x s -> core now m lr x s'.
Proof using C.
  intros [E1 E2 E3 E4 [E5 E6] E7 [E8 E9]] [H1 H2 H3 H4 H5 H6]. assert (forall l, bk s' l = bk s l) as Eb by (intros l; unfold bk; by rewrite E3).
  split; [done|done| | | |by rewrite E7].
  - apply (timed_quiet c m lr s s' []); try done; [|by intros l _; rewrite Eb|by rewrite E9; apply H3].
    destruct (ti_shape _ _ _ _ H3). split; rewrite ?E3, ?E4; done.
  - intros w. apply (wq_same c C w s); [done|by intros l _; rewrite Eb| |apply H4]. intros l Hl. rewrite Eb. by apply (wq_hits _ _ _ (H4 w) l).
  - by apply (events_same c C now m x s); rewrite ?E8, ?E9.
Qed.

Lemma next_tick_ok now m y : fits c (now + 1) -> 0 <= now -> s2m c now = m -> 1 <= m -> m <= y <= m + 2 ^ 21 ->
  now <= next_tick now y /\ s2m c (next_tick now y) = y /\ next_tick now y <> 0.
Proof using C.
  intros F Hn Hm H1 Hy. pose proof (co_freq c C) as Fr. assert (fits c m) as Fm.
  { pose proof (s2m_le c Fr now Hn). destruct F as [F0 F]. split; [lia|]. destruct Fr. pose proof (freq_half c (co_freq c C)).
    pose proof (Z.mul_le_mono_nonneg_r (m + 2 ^ 22) (now + 1 + 2 ^ 22) (sysFreqKHz c) ltac:(lia) ltac:(lia)). lia. }
  unfold next_tick. pose proof (soon_neg1 m y Fm ltac:(unfold soon; lia)). rewrite (proj2 (Z.eqb_neq _ _)) by lia.
  pose proof (mm2s_pos c Fr y ltac:(lia)). split; [lia|]. split; [|lia]. apply (mm2s_max c Fr); lia.
Qed.

Lemma wp_tick now m lr s Q : core now m lr [] s -> fits c (now + 1) -> nextSchedCycle s = m ->
  (forall y s', ticked now m s s' y -> Q (next_tick now y) s') -> wp (tick c now) s Q.
Proof using C.
  intros K Fn Hm HQ. pose proof K as [H1 H2 _ _ _ _]. pose proof (co_freq c C) as Fr. unfold tick. cbv zeta.
  assert (sysToMemCycle c now = m) as ->.
  { rewrite <- H2. apply (sysToMemCycle_eq c Fr); [done|]. apply (fits_mul c C (now + 1)); [done|lia]. }
  apply wp_bind, wp_get, wp_bind, wp_assert; [apply Z.eqb_eq; lia|].
  apply wp_bind, (wp_trySchedule now m lr); [done|]. intros x s1 T. destruct (tried_ok _ _ _ _ _ _ K T) as (K1 & _ & _ & Hx & Hi1 & Hn1).
  apply wp_bind, wp_assert; [by apply Z.leb_le|]. apply wp_bind, (wp_admit_overflow now m lr); [done|done|]. intros y s2 D.
  destruct (drained_ok _ _ _ _ _ _ _ K1 Hx Hi1 Hn1 D) as (K2 & _ & Hy & Hi2 & Hn2 & _).
  apply wp_bind, wp_modify. specialize (HQ y). unfold next_tick in HQ.
  assert (ticked now m s (if y =? neg1 then set_nextSchedEvent (set_nextSchedCycle s2 y) None else set_nextSchedCycle s2 y) y) as Tk by (split; by exists x, s1, s2).
  specialize (HQ _ Tk). destruct (Z.eqb_spec y neg1) as [->|Hne]; [by apply wp_bind, wp_modify, wp_ret|].
  assert (~ idle s2) as Hni by tauto. specialize (Hn2 Hni). apply wp_ret.
  pose proof (nr_fits _ _ _ (core_near _ _ _ _ _ K)) as F. pose proof (ti_one _ _ _ _ (co_timed _ _ _ _ _ K)).
  rewrite matching_eq; [done|done|lia|]. pose proof (fits_mul c C m (y + 1) F ltac:(lia)). lia.
Qed.

Lemma ticked_ok now m lr s s' y : core now m lr [] s -> ticked now m s s' y ->
  core now m lr [] s' /\ schedEvents s' = schedEvents s /\ eventFreelist s' = eventFreelist s /\ nextSchedCycle s' = y /\
  nextSchedEvent s' = (if y =? neg1 then None else nextSchedEvent s) /\
  (idle s' -> y = neg1) /\ (~ idle s' -> m <= y <= m + 2 ^ 21) /\ (overflowQueue s' <> [] -> ~ idle s').
Proof using C.
  intros K [(x & s1 & s2 & T & D & ->)]. destruct (tried_ok _ _ _ _ _ _ K T) as (K1 & (S1 & S2 & S3 & S4) & _ & Hx & Hi1 & Hn1).
  destruct (drained_ok _ _ _ _ _ _ _ K1 Hx Hi1 Hn1 D) as (K2 & (R1 & R2 & R3 & R4) & Hy & Hi2 & Hn2 & Ho).
  destruct (y =? neg1).
  - split; [apply (core_same now m lr [] s2); [by split; try intros []|done]|]. cbn. rewrite R3, R4, S3, S4. done.
  - split; [apply (core_same now m lr [] s2); [by split; try intros []|done]|]. cbn. rewrite R1, R3, R4, S1, S3, S4. done.
Qed.
End machine.
