(* ===== verification/DDRMach.v ===== *)
(** * Runs of the DDR controller

    The scheduling events ([sched_ok]), the invariant of the machine
    ([mach_ok]), and that legal steps return and keep it. *)

From Stdlib Require Import Ascii.
From S2P Require Import Prelude Floats MemHier MTRand ReplPolicies CacheArrays TimingEvent World Memory DDRMem DDRBase DDRExec DDRQueue DDRTiming DDREvents DDRInv.
Local Open Scope Z_scope.
Import DDRMemory.
#[local] Existing Instance ActWindow.inhabited.

Section machine.
Context (c : Conf) (C : conf_ok c).
Local Notation core := (core c).

(** ** Scheduling events *)

Definition queued_ev (q : Z) : SchedEvent := mkSched QUEUED EV_QUEUED q None.
Definition annulled_ev (q : Z) : SchedEvent := mkSched ANNULLED EV_QUEUED q None.
Definition free_ev (q : Z) (nx : option nat) : SchedEvent := mkSched IDLE EV_HELD q nx.

Fixpoint free_list (evs : list SchedEvent) (o : option nat) (fl : list nat) : Prop :=
  match fl with
  | [] => o = None
  | e :: fl => o = Some e /\ exists q nx, evs !! e = Some (free_ev q nx) /\ free_list evs nx fl
  end.

Record sched_ev (now : Z) (s : DDR) : Prop := {
  so_next : match nextSchedEvent s with
    | Some e => exists q, schedEvents s !! e = Some (queued_ev q) /\ now <= q /\ s2m c q = nextSchedCycle s
    | None => nextSchedCycle s = neg1
    end;
  so_other e x : schedEvents s !! e = Some x -> nextSchedEvent s <> Some e ->
    (exists q nx, x = free_ev q nx) \/ exists q, now <= q /\ x = annulled_ev q;
  so_free : exists fl, free_list (schedEvents s) (eventFreelist s) fl /\ NoDup fl
}.

(** A tick is to come just when a request waits. *)
Record sched_ok (now : Z) (s : DDR) : Prop := {
  so_ev : sched_ev now s;
  so_idle : nextSchedEvent s = None <-> idle s;
  so_ovf : overflowQueue s <> [] -> ~ idle s
}.

Lemma free_list_insert evs o fl e x : e ∉ fl -> free_list evs o fl -> free_list (<[e := x]> evs) o fl.
Proof using C.
  revert o. induction fl as [|k fl IH]; intros o Hn; [done|]. apply not_elem_of_cons in Hn as [Hk Hn]. intros [-> (q & nx & Hx & Hf)].
  split; [done|]. exists q, nx. rewrite list_lookup_insert_ne by done. split; [done|]. by apply IH.
Qed.

Lemma free_list_app evs o fl x : free_list evs o fl -> free_list (evs ++ [x]) o fl.
Proof using C.
  revert o. induction fl as [|k fl IH]; intros o; [done|]. intros [-> (q & nx & Hx & Hf)]. split; [done|]. exists q, nx.
  split; [by apply lookup_app_l_Some|]. by apply IH.
Qed.

Lemma free_list_idle evs o fl e : free_list evs o fl -> e ∈ fl -> exists q nx, evs !! e = Some (free_ev q nx).
Proof using C.
  revert o. induction fl as [|k fl IH]; intros o; [by intros _ ?%elem_of_nil|]. intros [_ (q & nx & Hx & Hf)] [->|Hin]%elem_of_cons; [by exists q, nx|].
  by apply (IH nx).
Qed.

Lemma wp_sched_get s e x Q : schedEvents s !! e = Some x -> Q x s -> wp (sched_get e) s Q.
Proof using C. intros He HQ. apply wp_bind, wp_get. eapply wp_lift; [by apply rd_some|done]. Qed.

Lemma wp_sched_put s e x (Q : unit -> DDR -> Prop) : (e < length (schedEvents s))%nat -> Q tt (set_schedEvents s (<[e := x]> (schedEvents s))) ->
  wp (sched_put e x) s Q.
Proof using C. intros He HQ. apply wp_bind, wp_get, wp_bind. eapply wp_lift; [by apply wr_lt|done]. Qed.

(** The events' updates are of one entry: the state with entry [e] of [s] replaced. *)
Definition with_ev (e : nat) (x : SchedEvent) (s : DDR) : DDR := set_schedEvents s (<[e := x]> (schedEvents s)).

Lemma with_ev_at e x s : (e < length (schedEvents s))%nat -> schedEvents (with_ev e x s) !! e = Some x.
Proof using C. intros He. cbn. by apply list_lookup_insert_eq. Qed.
Lemma with_ev_twice e x y s : with_ev e x (with_ev e y s) = with_ev e x s.
Proof using C. unfold with_ev. cbn. rewrite list_insert_insert_eq. by destruct s. Qed.
Lemma with_ev_len e x s : length (schedEvents (with_ev e x s)) = length (schedEvents s).
Proof using C. cbn. apply length_insert. Qed.

Lemma wp_sched_set s e x st (Q : unit -> DDR -> Prop) : schedEvents s !! e = Some x ->
  Q tt (with_ev e (mkSched st (sched_timing x) (queuedFor x) (sched_next x)) s) -> wp (sched_set e st) s Q.
Proof using C. intros He HQ. apply wp_bind. eapply wp_sched_get; [done|]. apply wp_sched_put; [by apply lookup_lt_Some in He|done]. Qed.

Lemma wp_sched_set_next s e x nx (Q : unit -> DDR -> Prop) : schedEvents s !! e = Some x ->
  Q tt (with_ev e (mkSched (sched_state x) (sched_timing x) (queuedFor x) nx) s) -> wp (sched_set_next e nx) s Q.
Proof using C. intros He HQ. apply wp_bind. eapply wp_sched_get; [done|]. apply wp_sched_put; [by apply lookup_lt_Some in He|done]. Qed.

Lemma wp_sched_hold s e x (Q : unit -> DDR -> Prop) : schedEvents s !! e = Some x -> sched_timing x = EV_RUNNING ->
  Q tt (with_ev e (mkSched (sched_state x) EV_HELD (queuedFor x) (sched_next x)) s) -> wp (sched_hold e) s Q.
Proof using C.
  intros He Ht HQ. apply wp_bind. eapply wp_sched_get; [done|]. apply wp_bind, wp_assert; [by apply bool_decide_true|].
  apply wp_sched_put; [by apply lookup_lt_Some in He|done].
Qed.

Lemma wp_sched_requeue s e x y (Q : unit -> DDR -> Prop) : schedEvents s !! e = Some x -> sched_timing x = EV_RUNNING \/ sched_timing x = EV_HELD ->
  Q tt (with_ev e (mkSched (sched_state x) EV_QUEUED y (sched_next x)) s) -> wp (sched_requeue e y) s Q.
Proof using C.
  intros He Ht HQ. apply wp_bind. eapply wp_sched_get; [done|]. apply wp_bind, wp_assert; [by destruct Ht as [-> | ->]|].
  apply wp_sched_put; [by apply lookup_lt_Some in He|done].
Qed.

(** A finished event goes to the free list. *)
Definition recycled (e : nat) (q : Z) (s : DDR) : DDR := set_eventFreelist (with_ev e (free_ev q (eventFreelist s)) s) (Some e).

Lemma wp_recycle s e q st (Q : unit -> DDR -> Prop) : schedEvents s !! e = Some (mkSched st EV_RUNNING q None) -> nextSchedEvent s <> Some e ->
  Q tt (recycled e q s) -> wp (_ ← sched_set e IDLE; _ ← sched_hold e; recycleEvent e) s Q.
Proof using C.
  intros He Hn HQ. assert (e < length (schedEvents s))%nat as Hl by (by apply lookup_lt_Some in He).
  apply wp_bind. eapply wp_sched_set; [done|]. cbn [sched_timing queuedFor sched_next].
  apply wp_bind. eapply wp_sched_hold; [by apply with_ev_at|done|]. rewrite with_ev_twice. cbn [sched_state sched_timing queuedFor sched_next].
  unfold recycleEvent. apply wp_bind, wp_get, wp_bind, wp_assert; [by rewrite bool_decide_false|].
  apply wp_bind. eapply wp_sched_get; [by apply with_ev_at|]. apply wp_bind, wp_assert; [done|].
  apply wp_bind. eapply wp_sched_set_next; [by apply with_ev_at|]. rewrite with_ev_twice. by apply wp_modify.
Qed.

(** *** Moves of the queues *)

(** The commands a log has for one list of a bank. *)
Definition command_of (w : bool) (l : AddrLoc) (o : Out) : Prop :=
  match o with Command rk bn _ wr _ _ => rk = rank l /\ bn = bank l /\ use_wr c wr = w | _ => False end.
#[local] Instance command_of_dec w l o : Decision (command_of w l o).
Proof using. destruct o; cbn; apply _. Defined.
Definition commands (w : bool) (l : AddrLoc) (tr : list Out) : nat := length (filter (command_of w l) tr).

(** A step changes the queues by admissions and issues. *)
Inductive move (s s' : DDR) : Prop :=
  | Mv_same : (forall w, the_queue w s' = the_queue w s) -> (forall w l, in_range c l -> bank_reqs w (bk s' l) = bank_reqs w (bk s l)) ->
      (forall w l, commands w l (trace s') = commands w l (trace s)) -> (forall o, o ∈ trace s -> o ∈ trace s') -> move s s'
  | Mv_admit w n m r : (forall k, wq_ok c k s) -> in_range c (q_loc r) -> admitted c w n m r s s' -> move s s'
  | Mv_issue w n m : (forall k, wq_ok c k s) -> n ∈ live w s -> first w s n -> issued c w n m s s' -> move s s'.

Lemma move_work s s' : same_work s s' -> move s s'.
Proof using. intros [E1 _ E2 _ _ _ [_ E3]]. apply Mv_same; [done|intros w l _; unfold bk; by rewrite E2|by rewrite E3|by rewrite E3]. Qed.

(** *** A scheduling event runs *)

Lemma recycled_work e q s : same_work s (recycled e q s).
Proof using C. by split; try intros []. Qed.
Lemma with_ev_work e x s : same_work s (with_ev e x s).
Proof using C. by split; try intros []. Qed.
Lemma same_work_trans s1 s2 s3 : same_work s1 s2 -> same_work s2 s3 -> same_work s1 s3.
Proof using C. intros [A1 A2 A3 A4 [A5 A6] A7 [A8 A9]] [B1 B2 B3 B4 [B5 B6] B7 [B8 B9]]. split; try (by intuition congruence). Qed.
Lemma same_work_idle s s' : same_work s s' -> idle s' <-> idle s.
Proof using C. intros [E _ _ _ _ _ _]. unfold idle, live. by rewrite !E. Qed.

(** What the run of a scheduling event leaves: a tick, whose event is queued again
    or free, or an annulled event free. *)
Inductive simulated (now m : Z) (e : nat) (s s' : DDR) : Prop :=
  | Sim_tick t y : nextSchedEvent s = Some e -> nextSchedCycle s = m ->
      ticked c now m (with_ev e (mkSched RUNNING EV_RUNNING now None) s) t y ->
      s' = (if y =? neg1 then recycled e now t else with_ev e (queued_ev (next_tick c now y)) t) -> simulated now m e s s'
  | Sim_annulled : nextSchedEvent s <> Some e -> schedEvents s !! e = Some (annulled_ev now) -> s' = recycled e now s -> simulated now m e s s'.

Lemma wp_simulate now0 now m lr s e x Q : core now m lr [] s -> fits c (now + 1) -> sched_ev now0 s -> now0 <= now ->
  schedEvents s !! e = Some x -> sched_timing x = EV_QUEUED -> queuedFor x = now ->
  (forall s', simulated now m e s s' -> Q tt s') -> wp (simulate c e now) s Q.
Proof using C.
  intros K Fn S Hnow He Ht Hq HQ. assert (e < length (schedEvents s))%nat as Hl by (by apply lookup_lt_Some in He).
  assert (s2m c now = m) as Hm by apply K. unfold simulate. apply wp_bind. eapply wp_sched_get; [done|].
  apply wp_bind, wp_assert; [by rewrite Ht|]. apply wp_bind, wp_sched_put; [done|]. fold (with_ev e (mkSched (sched_state x) EV_RUNNING (queuedFor x) (sched_next x)) s).
  destruct (decide (nextSchedEvent s = Some e)) as [En|En].
  - pose proof (so_next _ _ S) as Hn. rewrite En in Hn. destruct Hn as (q & Hqe & _ & Hsq). rewrite He in Hqe. injection Hqe as ->. cbn in Hq. subst q.
    cbn [sched_state queued_ev queuedFor sched_next]. rewrite bool_decide_true by done.
    apply wp_bind. eapply wp_sched_set; [by apply with_ev_at|]. rewrite with_ev_twice. cbn [sched_timing queuedFor sched_next].
    set (s1 := with_ev e _ s). assert (core now m lr [] s1) as K1 by (apply (core_same c C now m lr [] s); [apply with_ev_work|done]).
    apply wp_bind, (wp_tick c C now m lr); [done|done|by rewrite <- Hm|]. intros y t T.
    destruct (ticked_ok c C _ _ _ _ _ _ K1 T) as (K2 & E1 & E2 & E3 & E4 & Hi & Hni2 & _).
    assert (schedEvents t !! e = Some (mkSched RUNNING EV_RUNNING now None)) as Het by (rewrite E1; by apply with_ev_at).
    assert (e < length (schedEvents t))%nat as Hlt by (by apply lookup_lt_Some in Het).
    unfold next_tick at 1. destruct (Z.eqb_spec y neg1) as [->|Hne].
    + rewrite Z.eqb_refl. cbn [negb]. eapply wp_recycle; [done|by rewrite E4|]. apply HQ. eapply Sim_tick; [done|by rewrite <- Hm|exact T|done].
    + assert (~ idle t) as Hnt by tauto. pose proof (ti_one _ _ _ _ (co_timed _ _ _ _ _ _ K)) as Hone.
      destruct (next_tick_ok c C now m y Fn (co_now _ _ _ _ _ _ K) Hm Hone (Hni2 Hnt)) as (_ & _ & N3).
      assert (next_tick c now y = Z.max (mm2s c y) now) as Ent by (unfold next_tick; by rewrite (proj2 (Z.eqb_neq _ _))).
      rewrite <- Ent. rewrite (proj2 (Z.eqb_neq _ _)) by done. cbn [negb].
      apply wp_bind. eapply wp_sched_requeue; [done|by left|]. cbn [sched_state sched_next].
      eapply wp_sched_set; [by apply with_ev_at|]. rewrite with_ev_twice. cbn [sched_timing queuedFor sched_next].
      apply HQ. eapply Sim_tick; [done|by rewrite <- Hm|exact T|]. by rewrite (proj2 (Z.eqb_neq _ _)).
  - destruct (so_other _ _ S e x He En) as [(q & nx & ->)|(q & _ & ->)]; [done|]. cbn in Hq. subst q. cbn [sched_state annulled_ev queuedFor sched_next].
    rewrite bool_decide_false by done. apply wp_bind, wp_assert; [done|].
    eapply wp_recycle; [by apply with_ev_at|done|]. unfold recycled. rewrite with_ev_twice. apply HQ. by apply Sim_annulled.
Qed.

(** The event was the earliest queued. *)
Definition earliest (now : Z) (s : DDR) : Prop := forall e x, schedEvents s !! e = Some x -> sched_timing x = EV_QUEUED -> now <= queuedFor x.

Lemma sched_later now now' s : sched_ev now s -> earliest now' s -> sched_ev now' s.
Proof using C.
  intros [H1 H2 H3] He. split; [| |done].
  - destruct (nextSchedEvent s) as [e|]; [|done]. destruct H1 as (q & Hq & _ & H). exists q. split; [done|]. split; [by apply (He e _ Hq)|done].
  - intros e x Hx Hn. destruct (H2 e x Hx Hn) as [|(q & _ & ->)]; [by left|]. right. exists q. split; [by apply (He e _ Hx)|done].
Qed.

Lemma sched_recycled now now0 e q s s0 : sched_ev now s0 -> earliest now0 s0 -> schedEvents s = schedEvents s0 \/ (exists x, schedEvents s = <[e := x]> (schedEvents s0)) ->
  (nextSchedEvent s0 = Some e \/ schedEvents s0 !! e = Some (annulled_ev q)) ->
  eventFreelist s = eventFreelist s0 -> nextSchedEvent s <> Some e ->
  (forall e', nextSchedEvent s0 = Some e' -> nextSchedEvent s = Some e' \/ e' = e) ->
  match nextSchedEvent s with Some e' => nextSchedEvent s0 = Some e' /\ nextSchedCycle s = nextSchedCycle s0 | None => nextSchedCycle s = neg1 end ->
  sched_ev now0 (recycled e q s).
Proof using C.
  intros S He Hev Hwas Ef Hne Hkeep Hnext. pose proof (sched_later _ _ _ S He) as [H1 H2 H3].
  assert (e < length (schedEvents s0))%nat as Hl0.
  { destruct Hwas as [Hw|Hw]; [|by apply lookup_lt_Some in Hw]. rewrite Hw in H1. destruct H1 as (q0 & Hq0 & _). by apply lookup_lt_Some in Hq0. }
  assert (<[e := free_ev q (eventFreelist s)]> (schedEvents s) = <[e := free_ev q (eventFreelist s0)]> (schedEvents s0)) as Eev.
  { rewrite Ef. destruct Hev as [->|[x ->]]; [done|by rewrite list_insert_insert_eq]. }
  assert (forall e' x, e' <> e -> schedEvents (recycled e q s) !! e' = Some x -> schedEvents s0 !! e' = Some x) as Hoth.
  { intros e' x Hne'. cbn. rewrite Eev, list_lookup_insert_ne by done. done. }
  split.
  - cbn [nextSchedEvent recycled set_eventFreelist with_ev set_schedEvents nextSchedCycle]. destruct (nextSchedEvent s) as [e'|] eqn:En; [|done].
    destruct Hnext as (E0 & ->). rewrite E0 in H1. destruct H1 as (q' & Hq' & Hb & Hs). exists q'.
    split; [cbn; rewrite Eev, list_lookup_insert_ne by congruence; done|]. by split.
  - intros e' x Hx Hn'. destruct (decide (e' = e)) as [->|Hne'].
    + cbn in Hx. rewrite Eev, list_lookup_insert_eq in Hx by done. injection Hx as <-. left. by eexists _, _.
    + apply (H2 e' x); [by apply Hoth|]. intros E0. destruct (Hkeep _ E0) as [Hk|]; [|done]. by apply Hn'.
  - destruct H3 as (fl & Hfl & Hnd). exists (e :: fl).
    assert (e ∉ fl) as Hnin.
    { intros Hin. destruct (free_list_idle _ _ _ _ Hfl Hin) as (q0 & nx & Hx). unfold free_ev, annulled_ev, queued_ev in *. destruct Hwas as [Hw|Hw]; [|congruence].
      rewrite Hw in H1. destruct H1 as (q1 & Hq1 & _). congruence. }
    split; [|by constructor]. cbn. split; [done|]. exists q, (eventFreelist s). rewrite Eev, Ef, list_lookup_insert_eq by done. split; [done|].
    by apply free_list_insert.
Qed.

Lemma simulated_ok now0 now m lr e s s' : core now m lr [] s -> fits c (now + 1) -> sched_ok now0 s -> earliest now s ->
  simulated now m e s s' -> core now m lr [] s' /\ sched_ok now s'.
Proof using C.
  intros K Fn S He Sim. assert (s2m c now = m) as Hm by apply K. pose proof (ti_one _ _ _ _ (co_timed _ _ _ _ _ _ K)) as Hone.
  destruct Sim as [t y En Enc T ->|En Hev ->].
  - pose proof (so_next _ _ (so_ev _ _ S)) as Hn. rewrite En in Hn. destruct Hn as (q & Hq & _).
    assert (e < length (schedEvents s))%nat as Hl by (by apply lookup_lt_Some in Hq). set (s1 := with_ev e _ s) in *.
    assert (core now m lr [] s1) as K1 by (apply (core_same c C now m lr [] s); [apply with_ev_work|done]).
    destruct (ticked_ok c C _ _ _ _ _ _ K1 T) as (K2 & E1 & E2 & E3 & E4 & Hi & Hni2 & Hovf).
    destruct (Z.eqb_spec y neg1) as [->|Hne].
    + split; [apply (core_same c C now m lr [] t); [apply recycled_work|done]|].
      assert (idle t) as Hid.
      { destruct (decide (idle t)) as [|Hn]; [done|]. specialize (Hni2 Hn). pose proof (soon_neg1 c C m neg1 (nr_fits _ _ _ (core_near c C _ _ _ _ _ K)) Hni2). lia. }
      split; [|cbn; by rewrite E4|done].
      apply (sched_recycled now0 now e now t s); [apply S|done|right; rewrite E1; by eexists|by left|done|by rewrite E4| |by rewrite E4].
      intros e' E. right. congruence.
    + assert (~ idle t) as Hnt by tauto. split; [apply (core_same c C now m lr [] t); [apply with_ev_work|done]|].
      destruct (next_tick_ok c C now m y Fn (co_now _ _ _ _ _ _ K) Hm Hone (Hni2 Hnt)) as (N1 & N2 & N3).
      pose proof (sched_later _ _ _ (so_ev _ _ S) He) as [H1 H2 H3].
      assert (schedEvents (with_ev e (queued_ev (next_tick c now y)) t) = <[e := queued_ev (next_tick c now y)]> (schedEvents s)) as Eev.
      { cbn. rewrite E1. cbn. by rewrite list_insert_insert_eq. }
      split; [split| |].
      * cbn [nextSchedEvent with_ev set_schedEvents nextSchedCycle]. rewrite E4. change (nextSchedEvent s1) with (nextSchedEvent s). rewrite En. exists (next_tick c now y).
        change (set_schedEvents t _) with (with_ev e (queued_ev (next_tick c now y)) t). rewrite Eev, list_lookup_insert_eq by done.
        split; [done|]. split; [done|by rewrite N2].
      * intros e' x Hx Hn'. cbn [nextSchedEvent with_ev set_schedEvents] in Hn'. rewrite E4 in Hn'. change (nextSchedEvent s1) with (nextSchedEvent s) in Hn'.
        rewrite Eev, list_lookup_insert_ne in Hx by congruence. by apply (H2 e' x).
      * destruct H3 as (fl & Hfl & Hnd). exists fl. split; [|done]. change (eventFreelist (with_ev e (queued_ev (next_tick c now y)) t)) with (eventFreelist t). rewrite Eev, E2.
        apply free_list_insert; [|done]. intros Hin. destruct (free_list_idle _ _ _ _ Hfl Hin) as (q0 & nx & Hx). unfold queued_ev, free_ev in *. congruence.
      * cbn [nextSchedEvent with_ev set_schedEvents]. rewrite E4. change (nextSchedEvent s1) with (nextSchedEvent s). rewrite En. split; [done|]. by intros ?%Hnt.
      * intros Ho. by apply Hovf.
  - split; [apply (core_same c C now m lr [] s); [apply recycled_work|done]|].
    destruct S as [S Hi Ho]. pose proof (sched_later _ _ _ S He) as [H1 H2 H3]. split; [|done|done].
    apply (sched_recycled now0 now e now s s); [done|done|by left|by right|done|done|by left|].
    by destruct (nextSchedEvent s).
Qed.

Lemma ticked_moves now m lr s s' y : core now m lr [] s -> ticked c now m s s' y -> rtc move s s'.
Proof using C.
  intros K [(x & s1 & s2 & T & D & ->)]. destruct (tried_ok c C _ _ _ _ _ _ K T) as (K1 & _).
  assert (rtc move s s1) as M1.
  { destruct T as [| |? ? ? ? ?|n s1 Hf Hn H1 H2 I]; [done|done|done|]. apply rtc_once. eapply Mv_issue; [apply K|done|done|done]. }
  assert (rtc move s1 s2) as M2.
  { destruct D as [|w n r rest s2 Eo Ew A]; [done|]. destruct (core_take c C _ _ _ _ _ _ K1 Eo) as (ev & _ & Hin & _ & K2).
    apply (rtc_l _ _ (set_overflowQueue s1 rest)); [apply Mv_same; [by intros []|done|done|done]|]. apply rtc_once.
    eapply Mv_admit; [apply K2|done|done]. }
  etrans; [done|]. etrans; [done|]. apply rtc_once, move_work. by destruct (y =? neg1); split; try intros [].
Qed.

Lemma simulated_moves now m lr e s s' : core now m lr [] s -> simulated now m e s s' -> rtc move s s'.
Proof using C.
  intros K [t y En Enc T ->|En Hev ->]; [|apply rtc_once, move_work, recycled_work].
  set (s1 := with_ev e _ s) in *. assert (core now m lr [] s1) as K1 by (apply (core_same c C now m lr [] s); [apply with_ev_work|done]).
  apply (rtc_l _ _ s1); [apply move_work, with_ev_work|]. etrans; [by eapply ticked_moves|].
  apply rtc_once, move_work. destruct (y =? neg1); [apply recycled_work|apply with_ev_work].
Qed.

(** *** An event for an earlier tick *)

Definition annulled_old (s : DDR) : DDR :=
  match nextSchedEvent s with
  | Some e => match schedEvents s !! e with Some x => with_ev e (annulled_ev (queuedFor x)) s | None => s end
  | None => s
  end.
Definition fresh_event (s : DDR) : nat * DDR :=
  match eventFreelist s with
  | Some e => match schedEvents s !! e with
    | Some x => (e, with_ev e (free_ev (queuedFor x) None) (set_eventFreelist s (sched_next x)))
    | None => (e, s) end
  | None => (length (schedEvents s), set_schedEvents s (schedEvents s ++ [free_ev 0 None]))
  end.
Definition rescheduled (now y : Z) (s : DDR) : DDR :=
  let '(e, t) := fresh_event (annulled_old s) in
  set_nextSchedCycle (with_ev e (queued_ev (Z.max (mm2s c y) now)) (set_nextSchedEvent t (Some e))) y.

(** The events before the new one: the old event annulled. *)
Record half_ok (now : Z) (s : DDR) : Prop := {
  ho_all e x : schedEvents s !! e = Some x -> (exists q nx, x = free_ev q nx) \/ exists q, now <= q /\ x = annulled_ev q;
  ho_free : exists fl, free_list (schedEvents s) (eventFreelist s) fl /\ NoDup fl
}.

Lemma annulled_half now s : sched_ev now s -> half_ok now (annulled_old s).
Proof using C.
  intros [H1 H2 H3]. unfold annulled_old. destruct (nextSchedEvent s) as [e|] eqn:En; [|split; [|done]; intros e x Hx; by apply (H2 e x)].
  destruct H1 as (q & Hq & Hnow & _). rewrite Hq. cbn [queuedFor queued_ev]. split.
  - intros e' x. cbn. destruct (decide (e' = e)) as [->|Hne].
    + rewrite list_lookup_insert_eq by (by apply lookup_lt_Some in Hq). intros [= <-]. right. by exists q.
    + rewrite list_lookup_insert_ne by done. intros Hx. apply (H2 e' x Hx). congruence.
  - destruct H3 as (fl & Hfl & Hnd). exists fl. split; [|done]. cbn. apply free_list_insert; [|done].
    intros Hin. destruct (free_list_idle _ _ _ _ Hfl Hin) as (q0 & nx & Hx). unfold queued_ev, free_ev in *. congruence.
Qed.

(** The new event is free and off the free list. *)
Lemma fresh_half now s : half_ok now s -> let '(e, t) := fresh_event s in
  half_ok now t /\ (exists q, schedEvents t !! e = Some (free_ev q None)) /\ exists fl, free_list (schedEvents t) (eventFreelist t) fl /\ NoDup fl /\ e ∉ fl.
Proof using C.
  intros [H1 (fl & Hfl & Hnd)]. unfold fresh_event. destruct (eventFreelist s) as [e|] eqn:Ef.
  - destruct fl as [|e' fl]; [done|]. destruct Hfl as [[= <-] (q & nx & Hx & Hfl)]. rewrite Hx. cbn [queuedFor free_ev sched_next].
    apply NoDup_cons in Hnd as [Hn Hnd]. pose proof (lookup_lt_Some _ _ _ Hx) as Hl.
    assert (free_list (<[e := free_ev q None]> (schedEvents s)) nx fl) as Hfl' by (by apply free_list_insert).
    split; [split; [|by exists fl]|split; [exists q; cbn; by apply list_lookup_insert_eq|by exists fl]].
    intros e' x. cbn. destruct (decide (e' = e)) as [->|Hne]; [rewrite list_lookup_insert_eq by done; intros [= <-]; left; by eexists _, _|].
    rewrite list_lookup_insert_ne by done. apply H1.
  - destruct fl as [|e' fl]; [|by destruct Hfl]. split; [split|split].
    + intros e' x. cbn. intros Hx. apply lookup_app_Some in Hx as [Hx|[_ Hx]]; [by apply (H1 e')|].
      apply list_lookup_singleton_Some in Hx as [_ <-]. left. by eexists _, _.
    + exists []. split; [done|constructor].
    + exists 0. cbn. rewrite lookup_app_r by lia. by rewrite Nat.sub_diag.
    + exists []. split; [done|]. split; [constructor|set_solver].
Qed.

Lemma rescheduled_ok now y s : sched_ev now s -> s2m c (Z.max (mm2s c y) now) = y -> sched_ev now (rescheduled now y s).
Proof using C.
  intros S Hy. pose proof (fresh_half now _ (annulled_half now s S)) as Hf. unfold rescheduled. destruct (fresh_event (annulled_old s)) as [e t].
  destruct Hf as ([H1 _] & (q & Hq) & fl & Hfl & Hnd & Hnin). pose proof (lookup_lt_Some _ _ _ Hq) as Hl. split; cbn.
  - exists (Z.max (mm2s c y) now). rewrite list_lookup_insert_eq by done. split; [done|]. split; [lia|done].
  - intros e' x Hx Hn. rewrite list_lookup_insert_ne in Hx by congruence. by apply (H1 e').
  - exists fl. split; [|done]. by apply free_list_insert.
Qed.

Lemma rescheduled_work now y s : same_work s (rescheduled now y s) /\ nextSchedEvent (rescheduled now y s) <> None.
Proof using C.
  assert (same_work s (annulled_old s)) as H1.
  { unfold annulled_old. destruct (nextSchedEvent s) as [e|]; [|done]. destruct (schedEvents s !! e); [apply with_ev_work|done]. }
  unfold rescheduled, fresh_event. set (s1 := annulled_old s) in *. split; [apply (same_work_trans s s1); [done|]|].
  - destruct (eventFreelist s1) as [e|]; [destruct (schedEvents s1 !! e)|]; by split; try intros [].
  - destruct (eventFreelist s1) as [e|]; [destruct (schedEvents s1 !! e)|]; done.
Qed.

Lemma wp_annul s e q (Q : unit -> DDR -> Prop) : schedEvents s !! e = Some (queued_ev q) -> Q tt (with_ev e (annulled_ev q) s) -> wp (annul e) s Q.
Proof using C.
  intros He HQ. apply wp_bind. eapply wp_sched_get; [done|]. apply wp_bind, wp_assert; [done|]. by eapply wp_sched_set.
Qed.

Lemma wp_sched_enqueue s e q y (Q : unit -> DDR -> Prop) : schedEvents s !! e = Some (free_ev q None) -> Q tt (with_ev e (queued_ev y) s) ->
  wp (sched_enqueue e y) s Q.
Proof using C.
  intros He HQ. assert (e < length (schedEvents s))%nat as Hl by (by apply lookup_lt_Some in He).
  apply wp_bind. eapply wp_sched_get; [done|]. apply wp_bind, wp_assert; [done|]. apply wp_bind. eapply wp_sched_set; [done|].
  cbn [sched_timing queuedFor sched_next free_ev]. eapply wp_sched_requeue; [by apply with_ev_at|by right|]. by rewrite with_ev_twice.
Qed.

Lemma wp_schedule_earlier now m lr x s r (Q : unit -> DDR -> Prop) : core now m lr x s -> sched_ev now s -> req_near c m r ->
  (forall y, soon m y -> y < nextSchedCycle s -> Q tt (rescheduled now y s)) -> (nextSchedCycle s <= m + 2 ^ 21 -> Q tt s) ->
  wp (schedule_earlier c r m now) s Q.
Proof using C.
  intros K S R HQ1 HQ2. pose proof (core_near c C _ _ _ _ _ K) as N. pose proof (nr_fits _ _ _ N) as F. pose proof (nr_resp _ _ _ N) as Hr.
  pose proof (co_freq c C) as Fr. pose proof (ti_one _ _ _ _ (co_timed _ _ _ _ _ _ K)) as Hone. pose proof (min_cmd_bound c C m s r N R) as Hmc.
  unfold schedule_earlier. apply wp_bind, wp_get. cbv zeta.
  assert (minRespCycle s -64 tCL c -64 tBL c = minRespCycle s - tCL c - tBL c) as ->.
  { pose proof (co_CL c C) as [??]. pose proof (co_BL c C) as [??]. rewrite (fits_word c C m (minRespCycle s - tCL c)) by (done || lia). by rewrite (fits_word c C m) by (done || lia). }
  fold (first_slot c m s). assert (soon m (first_slot c m s)) as Hsl.
  { unfold soon, first_slot. pose proof (co_CL c C) as [??]. pose proof (co_BL c C) as [??]. lia. }
  set (y := if first_slot c m s <? nextSchedCycle s then Z.max (first_slot c m s) (min_cmd c s r) else first_slot c m s).
  assert (soon m y) as Hy by (unfold y, soon in *; case_match; lia).
  apply wp_bind. assert (forall P : Z -> DDR -> Prop, P y s -> wp (if first_slot c m s <? nextSchedCycle s then f ← findMinCmdCycle c r; mret (first_slot c m s `max` f) else mret (first_slot c m s)) s P) as Hfind.
  { intros P HP. unfold y in HP. destruct (first_slot c m s <? nextSchedCycle s); [|by apply wp_ret]. apply wp_bind, (wp_find c C m); [done|done|]. by apply wp_ret. }
  apply Hfind. clear Hfind. clearbody y. destruct (Z.ltb_spec y (nextSchedCycle s)) as [Hlt|Hge]; [|apply wp_ret, HQ2; unfold soon in Hy; lia].
  specialize (HQ1 y Hy Hlt). cbn [whenS]. pose proof (fresh_half now _ (annulled_half now s S)) as Hfr. unfold rescheduled in HQ1.
  assert (matchingMemToSysCycle c y = mm2s c y) as Em.
  { apply matching_eq; [done|unfold soon in Hy; lia|]. pose proof (fits_mul c C m (y + 1) F ltac:(unfold soon in Hy; lia)). lia. }
  apply wp_bind. assert (forall P : unit -> DDR -> Prop, P tt (annulled_old s) -> wp (match nextSchedEvent s with Some e => annul e | None => mret tt end) s P) as Hann.
  { intros P HP. unfold annulled_old in HP. pose proof (so_next _ _ S) as Hn. destruct (nextSchedEvent s) as [e|]; [|by apply wp_ret].
    destruct Hn as (q & Hq & _). rewrite Hq in HP. by eapply wp_annul. }
  apply Hann. clear Hann. set (s1 := annulled_old s) in *. apply wp_bind, wp_get. unfold fresh_event in *. apply wp_bind.
  destruct (eventFreelist s1) as [e|] eqn:Ef.
  - destruct (schedEvents s1 !! e) as [xe|] eqn:Ex; [|destruct Hfr as (_ & (q & Hq) & _); congruence].
    destruct Hfr as (_ & (q & Hq) & _). apply wp_bind. eapply wp_sched_get; [done|]. apply wp_bind, wp_modify, wp_bind.
    eapply wp_sched_set_next; [exact Ex|]. apply wp_ret, wp_bind, wp_modify, wp_bind.
    assert (exists qf nx, xe = free_ev qf nx) as (qf & nx & ->).
    { destruct (annulled_half now s S) as [Hall (fl & Hfl & _)]. fold s1 in Hfl. rewrite Ef in Hfl. destruct fl as [|e' fl]; [done|].
      destruct Hfl as [[= <-] (qf & nx & Hx & _)]. exists qf, nx. congruence. }
    eapply (wp_sched_enqueue _ _ qf); [cbn; rewrite list_lookup_insert_eq; [done|by apply lookup_lt_Some in Ex]|]. apply wp_modify. rewrite Em. exact HQ1.
  - destruct Hfr as (_ & (q & Hq) & _). unfold sched_new. apply wp_bind, wp_get, wp_bind, wp_modify, wp_ret, wp_bind, wp_modify, wp_bind.
    eapply (wp_sched_enqueue _ _ 0); [cbn; rewrite lookup_app_r by lia; by rewrite Nat.sub_diag|]. apply wp_modify. rewrite Em. exact HQ1.
Qed.

(** ** Accesses *)

Lemma fits_mem now : 0 <= now -> fits c (now + 1) -> fits c (s2m c now).
Proof using C.
  intros Hn [F0 F]. pose proof (co_freq c C) as Fr. pose proof (s2m_le c Fr now Hn). pose proof (s2m_pos c Fr now Hn). split; [lia|].
  destruct Fr. pose proof (freq_half c (co_freq c C)).
  pose proof (Z.mul_le_mono_nonneg_r (s2m c now + 2 ^ 22) (now + 1 + 2 ^ 22) (sysFreqKHz c) ltac:(lia) ltac:(lia)). lia.
Qed.

Lemma core_later now now' m lr x s : core now m lr x s -> now <= now' -> fits c (now' + 1) -> core now' (s2m c now') lr x s.
Proof using C.
  intros [H1 H2 H3 H4 H5 H6] Hn F. pose proof (co_freq c C) as Fr.
  assert (m <= s2m c now') as Hm by (rewrite <- H2; by apply s2m_mono).
  split; [lia|done| |done| |done].
  - apply (timed_later c m); [done|done|]. apply fits_mem; [lia|done].
  - by apply (events_later c C now now' m).
Qed.

(** An access that starts, before a queue holds it. *)
Definition arrive (ev : nat) (addr : Z) (write : bool) (st : EventState) (now : Z) (s : DDR) : DDR :=
  set_trace (set_accEvents s (<[ev := mkAcc addr write st]> (accEvents s))) (Arrived ev now :: trace s).

Lemma core_arrive now m lr s ev addr write : core now m lr [] s -> accEvents s !! ev = None ->
  core now m lr [ev] (arrive ev addr write EV_HELD now s) /\ waits (arrive ev addr write EV_HELD now s) ev write now.
Proof using C.
  intros [H1 H2 H3 H4 [E1 E2 E3 E4 E5 E6 E7] H6] Hnew. set (s' := arrive ev addr write EV_HELD now s).
  assert (ev ∉ arrived (trace s)) as Hn by (intros Hin%E3; rewrite Hnew in Hin; by destruct Hin).
  assert (forall k wr st, waits s k wr st -> waits s' k wr st) as Hw.
  { intros k wr st [(a & Ha) Ht]. split; [exists a; cbn; rewrite lookup_insert_ne by congruence; done|by right]. }
  split; [split; [done|done| | | |done]|split; [exists addr; cbn; by rewrite lookup_insert_eq|by left]].
  - apply (timed_quiet c m lr s s' [Arrived ev now]); try done; [by destruct (ti_shape _ _ _ _ H3)|by repeat constructor|split; [done|apply H3]].
  - intros w. apply (wq_same c C w s); [by destruct w|done| |apply H4]. intros l Hl. by apply (wq_hits _ _ _ (H4 w) l).
  - split.
    + cbn [trace s' arrive set_trace arrived omap list_omap dones]. change (held s') with (held s). fold (arrived (trace s)) (dones (trace s)).
      rewrite E1. solve_Permutation.
    + cbn. by constructor.
    + intros k. cbn. rewrite elem_of_cons. fold (arrived (trace s)). rewrite <- E3. destruct (decide (k = ev)) as [->|Hk].
      * rewrite lookup_insert_eq. split; [by left|by eexists].
      * rewrite lookup_insert_ne by done. split; [by right|by intros [?|?]].
    + intros w n Hin. destruct (E4 w n) as [Ha Hq]; [by destruct w|]. assert (req w s' n = req w s n) as -> by (by destruct w). split; [done|].
      destruct (q_write (req w s n)); [done|]. destruct Hq as (k & Hk & Hq). exists k. auto.
    + intros r Hr. destruct (E5 r Hr) as (Hi & k & Hk & Hq). split; [done|]. exists k. auto.
    + intros k x. cbn. intros [[= -> ->]|Hx]%elem_of_cons; [lia|by apply (E6 k)].
    + intros k Hk. cbn in Hk. destruct (E7 k Hk) as (a & Ha & Ht). exists a. split; [|done]. cbn. rewrite lookup_insert_ne by congruence. done.
Qed.

(** The masks are within the ranks and banks there are. *)
Lemma mapLineAddr_ok addr : 0 <= addr -> exists l, mapLineAddr c addr = Ok l /\ in_range c l.
Proof using C.
  intros Ha. pose proof (co_bank c C) as [Hb1 Hb2]. pose proof (co_rank c C) as [Hr1 Hr2].
  pose proof (land_le_r (Z.shiftr addr (bankShift c)) (bankMask c) ltac:(by apply Z.shiftr_nonneg) Hb1).
  pose proof (land_le_r (Z.shiftr addr (rankShift c)) (rankMask c) ltac:(by apply Z.shiftr_nonneg) Hr1).
  unfold mapLineAddr. set (l := mkLoc _ _ _ _). assert (in_range c l) as [H1 H2] by (split; cbn; lia).
  exists l. rewrite !bool_decide_true by done. done.
Qed.

Lemma sched_ev_same now s s' : same_sched s s' -> sched_ev now s -> sched_ev now s'.
Proof using C. intros (E1 & E2 & E3 & E4) [H1 H2 H3]. split; rewrite ?E1, ?E2, ?E3, ?E4; done. Qed.

Lemma adm_busy w n l s : live w s = l ++ [n] -> ~ idle s.
Proof using C. clear C. intros El [I1 I2]. destruct w; [rewrite El in I2; by apply app_nil in I2 as [_ ?]|rewrite El in I1; by apply app_nil in I1 as [_ ?]]. Qed.

(** What an access leaves. *)
Lemma wp_ddr_enqueue now m lr s ev addr write (Q : unit -> DDR -> Prop) : core now m lr [] s -> fits c (now + 1) -> sched_ok now s ->
  accEvents s !! ev = None -> 0 <= addr ->
  (forall s', core now m lr [] s' -> sched_ok now s' -> rtc move s s' -> Q tt s') ->
  wp (enqueue c ev now) (arrive ev addr write EV_RUNNING now s) Q.
Proof using C.
  intros K Fn S Hnew Haddr HQ. set (s0 := arrive ev addr write EV_RUNNING now s). set (sb := arrive ev addr write EV_HELD now s).
  destruct (core_arrive now m lr s ev addr write K Hnew) as [Kb Hwait]. fold sb in Kb, Hwait.
  destruct (mapLineAddr_ok addr Haddr) as (loc & El & Hloc). pose proof (co_freq c C) as Fr. pose proof (co_now _ _ _ _ _ _ K) as Hn0.
  assert (sysToMemCycle c now = m) as Em.
  { rewrite <- (co_mem _ _ _ _ _ _ K). apply (sysToMemCycle_eq c Fr); [done|]. apply (fits_mul c C (now + 1)); [done|lia]. }
  assert (accEvents s0 !! ev = Some (mkAcc addr write EV_RUNNING)) as Hacc by (cbn; by rewrite lookup_insert_eq).
  assert (same_sched s sb) as Ss by done.
  unfold enqueue. rewrite Em. cbv zeta. apply wp_bind. unfold acc_get. apply wp_bind, wp_get. rewrite Hacc. apply wp_ret, wp_bind, wp_get.
  cbn [acc_addr acc_write]. rewrite El. set (w := use_wr c write).
  set (r := mkRequest addr loc write 0 m now (Some ev)).
  assert (forall t, accEvents t = accEvents s0 -> forall P : unit -> DDR -> Prop, P tt (set_accEvents t (accEvents sb)) -> wp (acc_hold ev) t P) as Hhold.
  { intros t Et P HP. eapply wp_acc_move; [rewrite Et; done|done|]. cbn [acc_addr acc_write]. rewrite Et. cbn. rewrite insert_insert_eq. exact HP. }
  destruct (RequestQueue.full (rdQueue s0) || RequestQueue.full (wrQueue s0)) eqn:Eov.
  - apply wp_bind. eapply wp_lift; [done|]. apply wp_bind, Hhold; [done|]. apply wp_modify. 
    change (set_accEvents s0 (accEvents sb)) with sb. set (s' := set_overflowQueue sb _). 
    assert (exists k, RequestQueue.full (the_queue k s) = true) as [k Hk] by (apply orb_true_iff in Eov as [?|?]; [by exists false|by exists true]).
    assert (~ idle s) as Hni.
    { intros [I1 I2]. assert (live k s = []) as Elk by (by destruct k). destruct (wq_pool _ _ _ (co_wq _ _ _ _ _ _ K k)) as [_ Hp].
      apply bool_decide_eq_true in Hk. unfold live in Elk. rewrite Hk, Elk in Hp. apply Permutation_length in Hp. rewrite length_seq in Hp.
      pose proof (co_depth c C). cbn in Hp. lia. }
    apply HQ.
    + destruct Kb as [H1 H2 H3 H4 H5 H6]. split; [done|done| | | |done].
      * apply (timed_quiet c m lr sb s' []); try done; [by destruct (ti_shape _ _ _ _ H3)|apply H3].
      * intros k'. apply (wq_same c C k' sb); [by destruct k'|done| |apply H4]. intros l Hl. by apply (wq_hits _ _ _ (H4 k') l).
      * destruct H5 as [E1 E2 E3 E4 E5 E6 E7]. split; try done.
        -- cbn [trace s' set_overflowQueue]. rewrite E1. unfold held. cbn [overflowQueue s' set_overflowQueue]. rewrite omap_app. cbn.
           change (waiting false s') with (waiting false sb). change (waiting true s') with (waiting true sb). solve_Permutation.
        -- intros r' Hr'. cbn [overflowQueue s' set_overflowQueue] in Hr'. apply elem_of_app in Hr' as [Hr'|Hr'%list_elem_of_singleton]; [by apply E5|].
           subst r'. split; [done|]. exists ev. done.
    + destruct S as [[S1 S2 S3] S4 S5]. split; [by split|done|]. by intros _.
    + apply rtc_once, Mv_same; [by intros []|done|done|intros o Ho; by right].
  - apply orb_false_iff in Eov as [Ef1 Ef2].
    pose proof (nr_shape _ _ _ (core_near c C _ _ _ _ _ K)) as Hs.
    apply wp_bind, wp_req_alloc; [by destruct w|]. intros n Hl.
    assert (shape c s0) as Hs0 by (by destruct Hs). assert (wq_ok c w s0) as W0.
    { apply (wq_same c C w s); [by destruct w|done| |apply K]. intros l Hin. by apply (wq_hits _ _ _ (co_wq _ _ _ _ _ _ K w) l). }
    destruct (alloc_taken c C w n request0 s0 Hs0 W0 Hl) as (_ & Hp & _).
    apply wp_bind, wp_req_get; [done|]. apply wp_bind. eapply wp_lift; [done|]. apply wp_bind, wp_req_put; [done|].
    set (r1 := mkRequest addr loc write _ m now (Some ev)). destruct (alloc_taken c C w n r1 s0 Hs0 W0 Hl) as (Tk & _ & Sr).
    apply wp_bind, Hhold; [by destruct w|]. set (t := set_accEvents _ (accEvents sb)).
    apply wp_bind. eapply (wp_admit c C w n m r1 ev sb t); [apply (nr_fits _ _ _ (core_near c C _ _ _ _ _ K))|apply Kb| | |done|done| |].
    { destruct Tk as [T1 T2 T3 T4 T5]. split; [destruct w; exact T1|destruct w; exact T2|destruct w; exact T3|exact T4|by destruct T5]. }
    { destruct Sr as [Q1 Q2 Q3 Q4 Q5 Q6 [Q7 Q8]]. split; try done. }
    { destruct Hwait as [[a Ha] _]. by exists a. }
    intros s2 A. pose proof (core_admitted c C now m lr w n r1 ev sb s2 Kb Hloc eq_refl eq_refl Hwait A) as K2.
    destruct (admitted_live c C now m lr w n r1 ev sb s2 Kb Hloc eq_refl eq_refl Hwait A) as (L1 & _).
    pose proof (adm_busy _ _ _ _ L1) as Hni. assert (n ∈ live w s2) as Hn2 by (rewrite L1; set_solver).
    destruct (core_req c C _ _ _ _ _ _ _ K2 Hn2) as [Hp2 Hr2]. pose proof (nr_shape _ _ _ (core_near c C _ _ _ _ _ K2)) as Hs2.
    assert (sched_ev now s2) as S2.
    { apply (sched_ev_same now s); [|apply S]. split; [apply A|split; [apply A|split; [apply A|apply A]]]. }
    assert (overflowQueue s2 <> [] -> ~ idle s2) as Ho2 by done.
    assert (rtc move s s2) as M2.
    { apply (rtc_l _ _ sb); [apply Mv_same; [by intros []|done|done|intros o Ho; by right]|]. apply rtc_once. eapply (Mv_admit _ _ w n m r1); [apply Kb|exact Hloc|exact A]. }
    apply wp_bind, (wp_first_in_bank c); [done|done|apply Hr2|]. case_bool_decide as Hfst; cbn [whenS].
    + apply wp_bind, wp_req_get; [done|]. apply (wp_schedule_earlier now m lr [] s2); [done|done|done|..].
      * intros y Hy Hlt. destruct (rescheduled_work now y s2) as [Hw Hne]. pose proof (same_work_idle _ _ Hw) as Hid.
        apply HQ; [by apply (core_same c C now m lr [] s2)| |by eapply rtc_r; [|apply move_work]]. split; [|by rewrite Hid|by rewrite Hid].
        apply rescheduled_ok; [done|]. pose proof (ti_one _ _ _ _ (co_timed _ _ _ _ _ _ K)) as Hone. unfold soon in Hy.
        apply (mm2s_max c Fr); [lia|done|]. rewrite (co_mem _ _ _ _ _ _ K). lia.
      * intros Hle. apply HQ; [done| |done]. split; [done| |done]. split; [|by intros ?%Hni]. intros En. exfalso. pose proof (so_next _ _ S2) as Hnx. rewrite En in Hnx.
        pose proof (soon_neg1 c C m m (nr_fits _ _ _ (core_near c C _ _ _ _ _ K)) ltac:(unfold soon; lia)). rewrite Hnx in Hle.
        pose proof (soon_neg1 c C m neg1 (nr_fits _ _ _ (core_near c C _ _ _ _ _ K)) ltac:(unfold soon; lia)). lia.
    + apply HQ; [done| |done]. split; [done| |done]. split; [|by intros ?%Hni]. intros En. exfalso. apply Hfst.
      apply (admitted_first c C now m lr w n r1 ev sb s2); try done.
      assert (nextSchedEvent s = None) as Ens by (rewrite <- En; symmetry; apply A). apply (so_idle _ _ S) in Ens as [I1 I2]. by destruct w.
Qed.

(** ** Steps of the machine *)

(** The cycle of the next step. *)
Definition op_cycle (s : Mach) (o : Op) : Z :=
  match o with
  | Access _ _ _ cycle => cycle
  | Tick e => match schedEvents (ddr s) !! e with Some x => queuedFor x | None => 0 end
  | Refresh => refreshAt s
  end.

(** The domain runs its events in the order of their cycles; an access is new, a
    scheduling event that runs was queued. *)
Record legal (s : Mach) (o : Op) : Prop := {
  lg_now : now s <= op_cycle s o;
  lg_fits : fits c (op_cycle s o + 1);
  lg_first : earliest (op_cycle s o) (ddr s);
  lg_op : match o with
    | Access ev addr _ _ => 0 <= addr /\ accEvents (ddr s) !! ev = None
    | Tick e => exists x, schedEvents (ddr s) !! e = Some x /\ sched_timing x = EV_QUEUED
    | Refresh => True
    end
}.

Fixpoint legal_run (ops : list Op) (s : Mach) : Prop :=
  match ops with [] => True | o :: ops => legal s o /\ forall s', step c o s = Ok (tt, s') -> legal_run ops s' end.

(** The invariant. *)
Record mach_ok (s : Mach) : Prop := {
  mo_core : exists m lr, core (now s) m lr [] (ddr s) /\ lr + tRFC c <= s2m c (refreshAt s);
  mo_sched : sched_ok (now s) (ddr s);
  mo_refresh : 0 <= refreshAt s
}.

Lemma wp_on_ddr {A} (k : ST DDR A) s (Q : A -> Mach -> Prop) : wp k (ddr s) (fun a d => Q a (mkMach d (refreshAt s) (now s))) -> wp (on_ddr k) s Q.
Proof using C. clear C. unfold wp, on_ddr. destruct (k (ddr s)) as [[a d]|]; auto. Qed.

Lemma sched_ok_later now' s : sched_ok (now s) (ddr s) -> earliest now' (ddr s) -> sched_ok now' (ddr s).
Proof using C. intros [H1 H2 H3] He. split; [by apply (sched_later (now s))|done|done]. Qed.

Lemma core_refresh now m lr s : core now m lr [] s -> lr + tRFC c <= m -> core now m m [] (refreshed c s (refresh_start s m)).
Proof using C.
  intros [H1 H2 H3 H4 H5 H6] Hlr. split; [done|done|by apply (timed_refresh c C m lr)| | |done].
  - assert (shape c s) as Hs by apply H3. intros w. apply (wq_same c C w s); [by destruct w|intros l Hl|intros l Hl|apply H4]; rewrite bk_refreshed by done.
    + by destruct w.
    + by apply (wq_hits _ _ _ (H4 w) l).
  - apply (events_same c C now m [] s); [by intros []|done|done|done|done| |done]. intros ev x. cbn. rewrite elem_of_cons. split; [by intros [?|?]|by right].
Qed.

Lemma wp_step s o : mach_ok s -> legal s o -> wp (step c o) s (fun _ s' => mach_ok s' /\ now s' = op_cycle s o /\ rtc move (ddr s) (ddr s') /\
    match o with Tick e => exists x m lr, schedEvents (ddr s) !! e = Some x /\ core (queuedFor x) m lr [] (ddr s) /\ simulated (queuedFor x) m e (ddr s) (ddr s') | _ => True end).
Proof using C.
  intros [(m & lr & K & Hr) S H0] [L1 L2 L3 L4]. set (t := op_cycle s o) in *.
  pose proof (core_later _ _ _ _ _ _ K L1 L2) as K'. pose proof (sched_ok_later _ _ S L3) as S'. pose proof (co_freq c C) as Fr.
  unfold step. apply wp_bind, wp_get. destruct o as [ev addr write cycle|e|]; cbn [op_cycle] in t.
  - apply wp_bind, wp_modify, wp_on_ddr. apply wp_bind, wp_modify, wp_bind, wp_modify. destruct L4 as [La Lb].
    eapply (wp_ddr_enqueue t (s2m c t) lr); [done|done|done|done|done|]. intros s' K2 S2 M2. split; [|done]. split; [|done|done]. by exists (s2m c t), lr.
  - destruct L4 as (x & Hx & Ht). unfold t in *. rewrite Hx in *. apply wp_bind, wp_on_ddr. eapply wp_sched_get; [done|]. apply wp_bind, wp_modify, wp_on_ddr.
    eapply (wp_simulate (now s)); [exact K'|done|apply S|done|done|done|done|]. intros s' Sim.
    assert (sched_ok (now s) (ddr s)) as S0 by done.
    destruct (simulated_ok _ _ _ _ _ _ _ K' L2 S0 L3 Sim) as [K2 S2]. split; [split; [|done|done]; by exists (s2m c (queuedFor x)), lr|].
    split; [done|]. split; [by eapply simulated_moves|]. by exists x, (s2m c (queuedFor x)), lr.
  - apply wp_bind, wp_modify, wp_on_ddr. cbn [ddr refreshAt now].
    assert (sysToMemCycle c (refreshAt s) = s2m c (refreshAt s)) as Em.
    { apply (sysToMemCycle_eq c Fr); [done|]. apply (fits_mul c C (t + 1)); [done|unfold t; lia]. }
    apply (wp_refresh c C (s2m c t)); [by apply (core_near c C) in K'|done|]. split; [|split; [done|split; [|done]]].
    2: { apply rtc_once. assert (shape c (ddr s)) as Hs by apply (nr_shape _ _ _ (core_near c C _ _ _ _ _ K')).
      apply Mv_same; [by intros []|intros w l Hl; rewrite bk_refreshed by done; by destruct w|done|intros x Hx; by right]. }
    pose proof (core_refresh _ _ _ _ K' Hr) as K2.
    assert (refreshAt s +64 refInterval c = refreshAt s + m2s c (tREFI c)) as Enext.
    { unfold refInterval. pose proof (co_interval c C) as Hi. destruct (co_REFI c C) as [HR1 HR2]. destruct Fr as [F1 F2 F3]. pose proof (freq_half c (co_freq c C)).
      assert (0 <= m2s c (tREFI c)) as Hm0 by (unfold m2s; apply Z.div_pos; nia).
      rewrite memToSysCycle_eq; [|done|lia|nia]. pose proof max32_eq. rewrite u32_small by lia. destruct L2 as [_ L2]. pose proof max64_eq. unfold t in L2.
      rewrite u64_small by nia. done. }
    assert (0 <= m2s c (tREFI c)) as Hm0.
    { unfold m2s. destruct (co_REFI c C) as [HR1 HR2]. destruct Fr as [F1 F2 F3]. pose proof (freq_half c (co_freq c C)). apply Z.div_pos; nia. }
    split; cbn [now ddr refreshAt].
    + exists (s2m c t), (s2m c t). split; [done|]. rewrite Enext. pose proof (s2m_m2s c Fr (refreshAt s) (tREFI c) H0 ltac:(destruct (co_REFI c C); lia)).
      pose proof (co_often c C). unfold t. lia.
    + destruct S' as [S1 S2 S3]. split; [|done|done]. apply (sched_ev_same t (ddr s)); [done|done].
    + lia.
Qed.

Lemma wp_legal_run ops s : mach_ok s -> legal_run ops s -> wp (run c ops) s (fun _ s' => mach_ok s').
Proof using C.
  revert s. induction ops as [|o ops IH]; intros s M L; [by apply wp_ret|]. destruct L as [L1 L2]. cbn [run].
  pose proof (wp_step s o M L1) as H. apply wp_ok in H as ([] & s1 & E & M1 & _). apply wp_bind. unfold wp at 1. rewrite E. apply IH; [done|by apply L2].
Qed.

(** *** The controller as built *)

Lemma mach0_ok wrote : mach_ok (mach0 c wrote).
Proof using C.
  pose proof (co_freq c C) as Fr. destruct Fr as [F1 F2 F3]. pose proof (freq_half c (co_freq c C)) as Fh.
  destruct (co_CL c C) as [C1 C2]. destruct (co_BL c C) as [B1 B2].
  assert (s2m c 0 = 1) as E0 by (unfold s2m; rewrite Z.mul_0_l, Z.div_0_l by lia; lia).
  assert (fits c 1) as F by (split; [lia|]; pose proof (Z.mul_le_mono_nonneg_r (sysFreqKHz c) (2 ^ 32) (1 + 2 ^ 22) ltac:(lia) ltac:(lia)); lia).
  assert (forall l, in_range c l -> bk (initial c wrote) l = bank0) as Eb.
  { intros l [H1 H2]. unfold bk, initial. cbn [banks]. rewrite lookup_total_replicate_2 by done. by apply lookup_total_replicate_2. }
  assert (shape c (initial c wrote)) as Hs.
  { split; cbn; [apply length_replicate| |apply length_replicate]. apply Forall_replicate, length_replicate. }
  split; [|split; [|done|done]|done]; cbn [mach0 ddr now refreshAt].
  - exists 1, (1 - tRFC c). split; [|rewrite E0; lia]. split; [done|done| | | |by cbn].
    + split; [done|destruct (co_RFC c C); lia|done|done| | |constructor| |constructor|done].
      * intros l Hl. rewrite Eb by done. split; cbn; try (unfold lead; destruct (co_RFC c C), (co_WTR c C), (co_WR c C), (co_RAS c C), (co_RTP c C); lia); first [done | constructor].
      * intros rk Hrk. cbn [rankActWindows initial trace]. rewrite lookup_total_replicate_2 by done.
        split; [apply win_ok_init|]. split; [cbn; repeat constructor; lia|apply faw_init].
      * cbn. pose proof max32_eq. rewrite u32_small by lia. unfold lead. destruct (co_WTR c C), (co_WR c C), (co_RAS c C), (co_RTP c C). lia.
    + intros w. split.
      * split; cbn; destruct w; cbn; rewrite ?length_replicate; done.
      * intros n Hn. destruct w; by apply not_elem_of_nil in Hn.
      * intros l Hl. rewrite Eb by done. by destruct w.
      * intros l Hl. rewrite Eb by done. destruct w; (split; [done|constructor]).
      * intros l Hl. by rewrite Eb.
    + split; cbn; [done|constructor| | | | |].
      * intros ev. rewrite lookup_empty. split; [by intros []|by intros ?%elem_of_nil].
      * intros w n Hn. destruct w; by apply not_elem_of_nil in Hn.
      * by intros r ?%elem_of_nil.
      * by intros ev x ?%elem_of_nil.
      * by intros ev ?%elem_of_nil.
  - split; [done|done|]. exists []. split; [done|constructor].
Qed.
End machine.
