(* ===== verification/DDRMake.v ===== *)
(** * The DDR controller's construction

    What the constructor accepts, a panic aside, is a configuration the theorems of
    the controller apply to ([made_conf_ok]). *)

From Stdlib Require Import Ascii.
From S2P Require Import Prelude Floats MemHier MTRand ReplPolicies CacheArrays TimingEvent World Memory DDRMem DDRBase DDRExec.
Local Open Scope Z_scope.
Import DDRMemory.

(** The constructor's arguments, within the widths the controller works at. *)
Record params_ok (lineSize : Z) (ranks banks : nat) (sysFreqMHz latency depth limit : Z) : Prop := {
  pa_line : 0 < lineSize < 2 ^ 20;
  pa_ranks : (0 < ranks)%nat /\ Z.of_nat ranks < 2 ^ 32;
  pa_banks : (0 < banks)%nat /\ Z.of_nat banks < 2 ^ 32;
  pa_freq : 0 < sysFreqMHz /\ 1000 * sysFreqMHz < 2 ^ 32;
  pa_latency : 0 <= latency < 2 ^ 32;
  pa_depth : 1 <= depth;
  pa_limit : 0 <= limit < 2 ^ 32
}.

Lemma bind_Ok {A B} (o : outcome A) (f : A -> outcome B) b : (a ← o; f a) = Ok b -> exists a, o = Ok a /\ f a = Ok b.
Proof. destruct o as [a|]; [|done]. intros H. by exists a. Qed.

(** ** Timing parameters *)

Record tech_ok (t : Tech) : Prop := {
  to_BL : e_tBL t = 4;
  to_params : Forall small [e_tCL t; e_tRCD t; e_tRTP t; e_tRP t; e_tRRD t; e_tRAS t; e_tFAW t; e_tWTR t; e_tWR t; e_tRFC t; e_tREFI t];
  to_CL : e_tCL t <= 10;
  to_REFI : e_tREFI t <= 5200;
  to_close : e_tRP t <= e_tRFC t;
  to_often : e_tRFC t <= e_tREFI t;
  to_mem : 533333 <= mem_freq (tCK t)
}.

Lemma tech_params_ok tech t : tech_params tech = Ok t -> tech_ok t.
Proof.
  unfold tech_params. repeat case_match; try done; intros [= <-]; (split; [done| |cbn; lia|cbn; lia|cbn; lia|cbn; lia|by vm_compute]);
    cbn; unfold small; repeat constructor; lia.
Qed.

Lemma scale_tBL_ok lineSize bl : 0 < lineSize < 2 ^ 20 -> scale_tBL lineSize 4 = Ok bl -> small bl.
Proof.
  intros Hl. unfold scale_tBL. case_match eqn:E.
  - apply andb_true_iff in E as [_ E]. apply Z.leb_le in E. pose proof max32_eq. rewrite u32_small by lia. intros [= <-].
    split; [apply Z.div_le_lower_bound|apply Z.div_lt_upper_bound]; lia.
  - case_match; [|done]. intros [= <-]. by vm_compute.
Qed.

(** ** Address mapping *)

Definition mask_ok (n : nat) (m : Z) : Prop := 0 <= m /\ (Z.to_nat m < n)%nat.

Lemma mask_zero n : (0 < n)%nat -> mask_ok n 0.
Proof. intros. split; [lia|cbn; lia]. Qed.

Lemma mask_full n : (0 < n)%nat -> Z.of_nat n < 2 ^ 32 -> mask_ok n (u32 (Z.shiftl 1 (ilog2 (Z.of_nat n)) - 1)).
Proof.
  intros H1 H2. unfold ilog2. rewrite (proj2 (Z.eqb_neq _ _)) by lia. rewrite Z.shiftl_1_l.
  pose proof (Z.log2_spec (Z.of_nat n) ltac:(lia)) as [L1 _]. pose proof (Z.log2_nonneg (Z.of_nat n)).
  pose proof (Z.pow_pos_nonneg 2 (Z.log2 (Z.of_nat n)) ltac:(lia) ltac:(lia)). pose proof max32_eq.
  rewrite u32_small by lia. split; lia.
Qed.

Section fields.
Context (colBits : Z) (ranks banks : nat) (Hr : (0 < ranks)%nat /\ Z.of_nat ranks < 2 ^ 32) (Hb : (0 < banks)%nat /\ Z.of_nat banks < 2 ^ 32).

Definition fields_ok (f : Fields) : Prop := mask_ok ranks (f_rank f).2 /\ mask_ok banks (f_bank f).2.

Lemma map_token_ok f t f' : fields_ok f -> map_token colBits (ilog2 (Z.of_nat ranks)) (ilog2 (Z.of_nat banks)) f t = Ok f' -> fields_ok f'.
Proof using Hr Hb.
  intros [F1 F2]. destruct Hr as [R1 R2], Hb as [B1 B2]. unfold map_token, computeShiftAndMask.
  repeat case_match; try done; cbn [mbind outcome_bind mret outcome_ret]; intros [= <-]; (split; [|]); cbn [f_rank f_bank snd]; try done; by apply mask_full.
Qed.

Lemma addr_fields_ok mapping raw f : addr_fields mapping colBits (ilog2 (Z.of_nat ranks)) (ilog2 (Z.of_nat banks)) raw = Ok f -> fields_ok f.
Proof using Hr Hb.
  unfold addr_fields. case_match; [done|]. destruct raw as [[rc rr] rb].
  assert (fields_ok (mkFields (rc, 0) (rr, 0) (rb, 0) 0)) as F by (split; apply mask_zero; lia).
  revert F. generalize (mkFields (rc, 0) (rr, 0) (rb, 0) 0). generalize (rev (Tokenize (String.length mapping) (String.list_ascii_of_string mapping))).
  intros l. induction l as [|t l IH]; intros f0 F; cbn [loop]; [by intros [= <-]|].
  intros (f1 & E1 & E2)%bind_Ok. apply (IH f1); [by apply (map_token_ok f0 t)|done].
Qed.
End fields.

(** ** The constructor *)

Lemma u32_sub_add a b : 0 <= b < 2 ^ 32 -> (u32 (a + b)) -32 a = b.
Proof. intros Hb. unfold wrap. rewrite Zminus_mod_idemp_l. replace (a + b - a) with b by lia. by apply Z.mod_small. Qed.

Lemma u32_add_sub a b : u32 (a + (u32 (a + b) -32 a)) = u32 (a + b).
Proof. unfold wrap. rewrite Zplus_mod_idemp_r. replace (a + ((a + b) mod 2 ^ 32 - a)) with ((a + b) mod 2 ^ 32) by lia. apply Zmod_mod. Qed.

Lemma scaled_bound x F M : 0 <= x < 2 ^ 18 -> 0 < F < 2 ^ 32 -> 533333 <= M -> 0 <= x * F / M < 2 ^ 32.
Proof.
  intros Hx HF HM. assert (0 <= x * F <= 2 ^ 18 * 2 ^ 32) by (split; [lia|apply Z.mul_le_mono_nonneg; lia]).
  split; [apply Z.div_pos; lia|apply Z.div_lt_upper_bound; lia].
Qed.

Theorem made_conf_ok lineSize colSize ranks banks sysFreqMHz tech mapping latency depth limit deferred closed raw c :
  params_ok lineSize ranks banks sysFreqMHz latency depth limit ->
  make lineSize colSize ranks banks sysFreqMHz tech mapping latency depth limit deferred closed raw = Ok c -> conf_ok c.
Proof.
  intros [P1 P2 P3 P4 P5 P6 P7]. unfold make. intros ([[t bl] mem] & E & H)%bind_Ok.
  unfold initTech in E. apply bind_Ok in E as (t' & Et & E). apply bind_Ok in E as (_ & _ & E). apply bind_Ok in E as (_ & _ & E).
  apply bind_Ok in E as (bl' & Eb & E). injection E as -> -> <-.
  destruct (tech_params_ok _ _ Et) as [T1 T2 T3 T4 T5 T6 T7]. rewrite T1 in Eb. pose proof (scale_tBL_ok _ _ P1 Eb) as Hbl.
  rewrite (u32_small (1000 * sysFreqMHz)) in H by (rewrite max32_eq; lia).
  destruct (Z.leb_spec (1000 * sysFreqMHz / 2) (mem_freq (tCK t))) as [|Hf]; [done|].
  apply bind_Ok in H as (fs & Ef & H). pose proof (addr_fields_ok _ _ _ P2 P3 _ _ _ Ef) as [Fr Fb]. injection H as <-. clear Ef.
  repeat (apply Forall_cons in T2 as [? T2]). unfold small in *.
  match goal with |- context [memToSysCycle ?c0 (u32 ?x)] => set (conf0 := c0) in *; set (x0 := x) in * end.
  assert (freq_ok conf0) as Fq by (split; cbn; lia).
  assert (0 <= x0 < 2 ^ 17) as Hx by (unfold x0; lia). pose proof (fun x Hx => scaled_bound x (1000 * sysFreqMHz) (mem_freq (tCK t)) Hx ltac:(lia) T7) as Hs.
  assert (memToSysCycle conf0 (u32 x0) = m2s conf0 x0) as Em.
  { pose proof max32_eq. rewrite u32_small by lia. apply (memToSysCycle_eq conf0 Fq); [lia|]. cbn.
    apply (Z.le_lt_trans _ (2 ^ 18 * 2 ^ 32)); [apply Z.mul_le_mono_nonneg; lia|lia]. }
  rewrite Em. clear Et Eb.
  split; cbn; try done; try lia.
  - split; cbn; lia.
  - rewrite u32_sub_add; [done|]. apply (Hs (x0 + 1)). lia.
  - apply (Hs (e_tREFI t + 1)). lia.
Qed.

(** ** The bound phase *)

(** The latencies the constructor fixed, and the records so far: each one's latency
    is that of its event when nothing else runs. *)
Definition record_ok (r : AccRecord) : Prop := r_respCycle r = u64 (r_reqCycle r + u32 (r_preDelay r + r_postDelay r)).
Definition bound_ok (m : Bound) : Prop :=
  minRdLatency (conf m) = u32 (preDelay (conf m) + postDelayRd (conf m)) /\
  minWrLatency (conf m) = u32 (preDelay (conf m) + postDelayWr (conf m)) /\
  Forall (fun x => record_ok x.2) (records m).

(** The controller meets the contract of the coherence proofs. *)
#[export, refine] Instance laws : MemCtrlLaws Bound := { mc_wf := bound_ok }.
Proof.
  intros m req (Hr & Hw & Hl) Hc Hb. cbn [mem_access ctrl]. unfold access. unfold mc_maxLat in *.
  case_bool_decide; [exists (MemHier.cycle req), m; split; [done|]; split; [done|lia]|]. cbv zeta.
  set (lat := if bool_decide (type req = PUTX) then _ else _).
  assert (0 <= lat < 2 ^ 32) as Hlat by (unfold lat; rewrite Hr, Hw; case_bool_decide; apply wrap_bound; lia).
  eexists _, _. split; [done|]. split; [|rewrite u64_small by lia; lia].
  case_match; [|done]. split; [done|]. split; [done|]. apply Forall_app. split; [done|]. apply Forall_singleton. unfold record_ok, lat. cbn.
  rewrite Hr, Hw. by case_bool_decide.
Defined.

Lemma made_bound lineSize colSize ranks banks sysFreqMHz tech mapping latency depth limit deferred closed raw c f :
  params_ok lineSize ranks banks sysFreqMHz latency depth limit ->
  make lineSize colSize ranks banks sysFreqMHz tech mapping latency depth limit deferred closed raw = Ok c -> bound_ok (mkBound c f []).
Proof.
  intros [_ _ _ _ P5 _ _]. unfold make. intros ([[t bl] mem] & _ & H)%bind_Ok. case_match; [done|].
  apply bind_Ok in H as (fs & _ & H). injection H as <-. unfold bound_ok. cbn. split; [|split; [|done]].
  - by rewrite u32_add_sub.
  - rewrite Z.add_0_r. by rewrite u32_small by (rewrite max32_eq; lia).
Qed.
