(* ===== verification/DDRProps.v ===== *)
(** * Properties of the DDR controller

    Runs of a controller the constructor accepts obey the timing constraints;
    without new accesses it drains; a read is overtaken a bounded number of times;
    a controller that runs, and what the constraints leave out. *)

From Stdlib Require Import Ascii.
From S2P Require Import Prelude Floats MemHier MTRand ReplPolicies CacheArrays TimingEvent World Memory DDRMem DDRBase DDRExec DDRQueue DDRTiming DDREvents DDRInv DDRMach DDRMake.
Local Open Scope Z_scope.
Import DDRMemory.
#[local] Existing Instance ActWindow.inhabited.

(** ** Draining *)

Section drain.
Context (c : Conf) (C : conf_ok c).
Local Notation core := (core c).

Definition requests (s : DDR) : nat := length (live false s) + length (live true s).
Definition is_annulled (x : SchedEvent) : Prop := sched_state x = ANNULLED.
#[local] Instance is_annulled_dec x : Decision (is_annulled x).
Proof. unfold is_annulled. apply _. Defined.
Definition annulled (s : DDR) : nat := length (filter is_annulled (schedEvents s)).


(** A tick at [nextSchedCycle] finds a ready request, or is not too early. *)
Definition can_issue (s : DDR) : Prop :=
  exists n, n ∈ live (write_turn c s) s /\ first (write_turn c s) s n /\ min_cmd c s (req (write_turn c s) s n) <= nextSchedCycle s.
Record left (s : DDR) (N : nat) : Prop := {
  lf_phase : exists p, (p <= 2)%nat /\ (6 * length (overflowQueue s) + 3 * requests s + p + annulled s <= N)%nat /\
    (~ idle s -> (p <= 1)%nat -> ~ far c (nextSchedCycle s) s) /\ (~ idle s -> p = 0%nat -> can_issue s)
}.

















End drain.

(** ** Overtaking *)

Section overtaking.
Context (c : Conf) (C : conf_ok c).

Lemma move_ahead s s' w l n ev : move c s s' -> in_range c l -> n ∈ bank_reqs w (bk s l) -> q_ev (req w s n) = Some ev -> q_write (req w s n) = false ->
  (exists x, Done ev x ∈ trace s') \/
  (n ∈ bank_reqs w (bk s' l) /\ q_ev (req w s' n) = Some ev /\ q_write (req w s' n) = false /\
   ahead (rowHitLimit c) (rows_of w s') n (bank_reqs w (bk s' l)) + Z.of_nat (commands c w l (trace s')) <=
   ahead (rowHitLimit c) (rows_of w s) n (bank_reqs w (bk s l)) + Z.of_nat (commands c w l (trace s))).
Proof using C.
  intros M Hl Hn Hev Hwr.
  destruct M as [Eq Eb Ec _|w' k m r Wk Hin A|w' k m Wk Hk Hf I].
  - right. rewrite (same_req c C w s s' (Eq w)), (same_ahead c C w s s' (Eq w) (Eb w) l n Hl), Eb, Ec by done. split; [done|]. split; [done|]. split; [done|lia].
  - right. pose proof (ad_placed _ _ _ _ _ _ _ A) as (t & K & Es).
    assert (commands c w l (trace s') = commands c w l (trace s)) as Ec.
    { pose proof (ad_acc _ _ _ _ _ _ _ A) as Hacc. destruct (q_write r), (q_ev r); destruct Hacc as [-> _]; done. }
    rewrite Ec. assert (in_range c (q_loc (queued r m))) as Hin2 by (unfold queued; by destruct (q_write r)).
    destruct (decide (w = w')) as [<-|Hw].
    + pose proof (proj1 (bank_live c C w s l n (Wk w) Hl) Hn) as [_ Hlive].
      destruct (placed_ahead c C w k _ s t (Wk w) K Hin2 l n Hl Hn) as [P1 P2]. rewrite Es. split; [done|].
      destruct (tk_fresh c C w k _ s t (Wk w) K) as (_ & Hkn & _).
      rewrite (placed_req' c C w k _ s t (Wk w) K), decide_False by (by intros ->). split; [done|]. split; [done|]. rewrite P2. lia.
    + assert (w = negb w') as -> by (by destruct w, w'). pose proof (placed_other c C w' k _ s t (Wk w') K) as Eo.
      rewrite <- Es in Eo. assert (forall l0, in_range c l0 -> bank_reqs (negb w') (bk s' l0) = bank_reqs (negb w') (bk s l0)) as Eb.
      { intros l0 _. rewrite Es. by apply (placed_list c C w' k _ s t (Wk w') K Hin2). }
      rewrite (same_req c C _ s s' Eo), (same_ahead c C _ s s' Eo Eb l n Hl), Eb by done. split; [done|]. split; [done|]. split; [done|lia].
  - assert (commands c w l (trace s') = (commands c w l (trace s) + (if decide (w = w' /\ same_bank (q_loc (req w' s k)) l) then 1 else 0))%nat) as Ec.
    { pose proof (is_trace _ _ _ _ _ _ I) as Ht. cbv zeta in Ht. destruct (wq_req _ _ _ (Wk w') k Hk) as [_ Hu].
      assert (commands c w l (trace s') = commands c w l (Command (rank (q_loc (req w' s k))) (bank (q_loc (req w' s k))) (row (q_loc (req w' s k)))
        (q_write (req w' s k)) (act_opt c s (req w' s k)) (cas_of c s (req w' s k) m) :: trace s)) as ->.
      { destruct (q_ev (req w' s k)); by destruct Ht as [-> _]. }
      unfold commands. rewrite filter_cons.
      assert (command_of c w l (Command (rank (q_loc (req w' s k))) (bank (q_loc (req w' s k))) (row (q_loc (req w' s k)))
        (q_write (req w' s k)) (act_opt c s (req w' s k)) (cas_of c s (req w' s k) m)) <-> w = w' /\ same_bank (q_loc (req w' s k)) l) as Hiff.
      { unfold same_bank. cbn [command_of]. rewrite Hu. split; [intros (? & ? & ?)|intros (? & ? & ?)]; by subst. }
      destruct (decide (w = w' /\ same_bank (q_loc (req w' s k)) l)) as [Hd|Hd].
      - rewrite decide_True by by apply Hiff. cbn [length]. lia.
      - rewrite decide_False by by rewrite Hiff. lia. }
    destruct (decide (w = w')) as [<-|Hw].
    + destruct (decide (k = n)) as [->|Hkn].
      * left. pose proof (is_trace _ _ _ _ _ _ I) as Ht. cbv zeta in Ht. rewrite Hev in Ht. destruct Ht as [-> _]. eexists. by left.
      * right. destruct (iss_ahead c C w k m s s' (Wk w) Hk Hf I l n Hl Hn ltac:(done)) as [P1 P2].
        rewrite (iss_req c C w k m s s' I). split; [done|]. split; [done|]. split; [done|]. rewrite Ec. repeat case_decide; try lia; intuition.
    + right. assert (w = negb w') as -> by (by destruct w, w'). pose proof (is_other _ _ _ _ _ _ I) as Eo.
      assert (forall l0, in_range c l0 -> bank_reqs (negb w') (bk s' l0) = bank_reqs (negb w') (bk s l0)) as Eb by (intros l0 _; by apply (iss_bk c C w' k m s s' I)).
      rewrite Ec, decide_False by (by intros [? _]).
      rewrite (same_req c C _ s s' Eo), (same_ahead c C _ s s' Eo Eb l n Hl), Eb by done. split; [done|]. split; [done|]. split; [done|lia].
Qed.

Lemma move_keeps s s' o : move c s s' -> o ∈ trace s -> o ∈ trace s'.
Proof using.
  intros [_ _ _ H|w k m r _ _ A|w k m _ _ _ I] Ho; [by apply H| |].
  - pose proof (ad_acc _ _ _ _ _ _ _ A) as Hacc. destruct (q_write r), (q_ev r); destruct Hacc as [-> _]; try right; done.
  - pose proof (is_trace _ _ _ _ _ _ I) as Ht. cbv zeta in Ht. destruct (q_ev (req w s k)); destruct Ht as [-> _]; by repeat right.
Qed.

Lemma moves_keep s s' o : rtc (move c) s s' -> o ∈ trace s -> o ∈ trace s'.
Proof using. induction 1 as [|x y z M _ IH]; [done|]. intros Ho. by apply IH, (move_keeps x). Qed.

Lemma moves_ahead s s' w l n ev : rtc (move c) s s' -> in_range c l -> n ∈ bank_reqs w (bk s l) -> q_ev (req w s n) = Some ev -> q_write (req w s n) = false ->
  (exists x, Done ev x ∈ trace s') \/
  (n ∈ bank_reqs w (bk s' l) /\ q_ev (req w s' n) = Some ev /\ q_write (req w s' n) = false /\
   ahead (rowHitLimit c) (rows_of w s') n (bank_reqs w (bk s' l)) + Z.of_nat (commands c w l (trace s')) <=
   ahead (rowHitLimit c) (rows_of w s) n (bank_reqs w (bk s l)) + Z.of_nat (commands c w l (trace s))).
Proof using C.
  intros M Hl. induction M as [x|x y z M M' IH]; intros Hn Hev Hwr; [by right|].
  destruct (move_ahead x y w l n ev M Hl Hn Hev Hwr) as [[v Hv]|(H1 & H2 & H3 & H4)]; [left; exists v; by apply (moves_keep y)|].
  destruct (IH H1 H2 H3) as [|(G1 & G2 & G3 & G4)]; [by left|]. right. split; [done|]. split; [done|]. split; [done|lia].
Qed.
End overtaking.

(** ** The controller as the constructor makes it *)

(** Runs split, and legality with them. *)
Lemma run_split c ops1 ops2 s : run c (ops1 ++ ops2) s = (_ ← run c ops1; run c ops2) s.
Proof.
  revert s. induction ops1 as [|o ops1 IH]; intros s; [done|]. cbn [app run]. unfold mbind, ST_bind.
  destruct (step c o s) as [[[] s']|]; [|done]. apply IH.
Qed.

Lemma legal_split c ops1 ops2 s : legal_run c (ops1 ++ ops2) s ->
  legal_run c ops1 s /\ forall s', run c ops1 s = Ok (tt, s') -> legal_run c ops2 s'.
Proof.
  revert s. induction ops1 as [|o ops1 IH]; intros s; cbn [app legal_run run]; [intros L; split; [done|by intros s' [= <-]]|].
  intros [L1 L2]. split; [split; [done|]; intros s' E; by apply (IH s' (L2 s' E))|].
  intros s'. unfold mbind, ST_bind. destruct (step c o s) as [[[] s1]|] eqn:E; [|done]. by apply (IH s1 (L2 s1 eq_refl)).
Qed.

Lemma reached c wrote ops : conf_ok c -> legal_run c ops (mach0 c wrote) -> exists s, run c ops (mach0 c wrote) = Ok (tt, s) /\ mach_ok c s.
Proof. intros C L. pose proof (wp_legal_run c C ops _ (mach0_ok c C wrote) L) as H. by apply wp_ok in H as ([] & s & E & M); exists s. Qed.

Lemma wp_moves c (C : conf_ok c) ops s : mach_ok c s -> legal_run c ops s ->
  wp (run c ops) s (fun _ s' => mach_ok c s' /\ rtc (move c) (ddr s) (ddr s')).
Proof.
  revert s. induction ops as [|o ops IH]; intros s M L; [by apply wp_ret|]. destruct L as [L1 L2]. cbn [run].
  pose proof (wp_step c C s o M L1) as H. apply wp_ok in H as ([] & s1 & E & M1 & _ & R & _). apply wp_bind. unfold wp at 1. rewrite E.
  eapply wp_mono; [apply IH; [done|by apply L2]|]. cbn. intros _ s2 [M2 R2]. split; [done|by transitivity (ddr s1)].
Qed.

Section made.
Context (lineSize colSize : Z) (ranks banks : nat) (sysFreqMHz : Z) (tech mapping : string).
Context (latency depth limit : Z) (deferred closed : bool) (raw : Z * Z * Z).
Local Notation made c := (make lineSize colSize ranks banks sysFreqMHz tech mapping latency depth limit deferred closed raw = Ok c).
Context (P : params_ok lineSize ranks banks sysFreqMHz latency depth limit).

(** C24: A DDR controller the constructor accepts, run with any legal interleaving of
    accesses, scheduling events and refreshes, never fails an assertion or leaves
    an array; the commands it issues obey the timing constraints (tRCD, tRAS, tRP,
    tRTP, tWR, tWTR, the data bus, tRFC, at most four activations of a rank in
    tFAW cycles); every access is answered at most once, not before it arrived,
    and is otherwise still held in a queue. *)
Theorem ddr_timing c wrote ops : made c -> legal_run c ops (mach0 c wrote) ->
  exists s, run c ops (mach0 c wrote) = Ok (tt, s) /\ obeys c (trace (ddr s)) /\
    NoDup (arrived (trace (ddr s))) /\ arrived (trace (ddr s)) ≡ₚ dones (trace (ddr s)) ++ held (ddr s).
Proof using P.
  intros E L. pose proof (made_conf_ok _ _ _ _ _ _ _ _ _ _ _ _ _ c P E) as C. destruct (reached c wrote ops C L) as (s & Er & [(m & lr & K & _) _ _]).
  exists s. split; [done|]. destruct (co_events _ _ _ _ _ _ K) as [E1 E2 _ _ _ _ _]. split; [apply (timed_obeys c m lr), K|done].
Qed.


(** C26: FR-FCFS is fair: a read with [i] requests before it in its bank's list is, at
    any later time, answered, or at most [(rowHitLimit + 1) * i] commands have gone
    to that list meanwhile, whatever accesses came since. *)
Theorem frfcfs_bound c wrote ops1 ops2 s1 s2 l i n ev : made c -> legal_run c (ops1 ++ ops2) (mach0 c wrote) ->
  run c ops1 (mach0 c wrote) = Ok (tt, s1) -> run c ops2 s1 = Ok (tt, s2) -> in_range c l ->
  rdReqs (bk (ddr s1) l) !! i = Some n -> q_ev (req false (ddr s1) n) = Some ev -> q_write (req false (ddr s1) n) = false ->
  ev ∈ dones (trace (ddr s2)) \/
  (n ∈ rdReqs (bk (ddr s2) l) /\ q_ev (req false (ddr s2) n) = Some ev /\
   Z.of_nat (commands c false l (trace (ddr s2))) <= Z.of_nat (commands c false l (trace (ddr s1))) + (limit + 1) * Z.of_nat i).
Proof using P.
  intros E L E1 E2 Hl Hi Hev Hwr. pose proof (made_conf_ok _ _ _ _ _ _ _ _ _ _ _ _ _ c P E) as C. apply legal_split in L as [L1 L2].
  destruct (reached c wrote ops1 C L1) as (s & Er & M). rewrite E1 in Er. injection Er as <-.
  pose proof (wp_moves c C ops2 s1 M (L2 s1 E1)) as H. apply wp_ok in H as ([] & s' & Er & M2 & R). rewrite E2 in Er. injection Er as <-.
  assert (n ∈ bank_reqs false (bk (ddr s1) l)) as Hn by (by apply list_elem_of_lookup; exists i).
  destruct (moves_ahead c C _ _ false l n ev R Hl Hn Hev Hwr) as [[x Hx]|(H1 & H2 & _ & H4)].
  - left. apply list_elem_of_omap. by exists (Done ev x).
  - right. split; [done|]. split; [done|].
    destruct M as [(m & lr & K & _) _ _], M2 as [(m2 & lr2 & K2 & _) _ _].
    destruct (wq_runs _ _ _ (co_wq _ _ _ _ _ _ K false) l Hl) as [_ S1]. destruct (wq_runs _ _ _ (co_wq _ _ _ _ _ _ K2 false) l Hl) as [_ S2].
    pose proof (ahead_nonneg _ _ n _ S2). destruct P as [_ _ _ _ _ _ P7].
    assert (rowHitLimit c = limit) as El.
    { unfold make in E. repeat (let H := fresh in apply bind_Ok in E as (? & H & E)). destruct x as [[t bl] mem]. case_match; [done|]. apply bind_Ok in E as (? & _ & E). by injection E as <-. }
    pose proof (ahead_bound _ _ n _ i S1 ltac:(lia) Hi). lia.
Qed.
End made.

(** ** Legality decided *)

Definition earliest_b (t : Z) (s : DDR) : bool :=
  forallb (fun x => negb (bool_decide (sched_timing x = EV_QUEUED)) || (t <=? queuedFor x)) (schedEvents s).
Definition fits_b (c : Conf) (m : Z) : bool := (0 <=? m) && ((m + 2 ^ 22) * sysFreqKHz c <? 2 ^ 62).
Definition legal_b (c : Conf) (s : Mach) (o : Op) : bool :=
  let t := op_cycle s o in
  (now s <=? t) && fits_b c (t + 1) && earliest_b t (ddr s) &&
  match o with
  | Access ev addr _ _ => (0 <=? addr) && bool_decide (accEvents (ddr s) !! ev = None)
  | Tick e => match schedEvents (ddr s) !! e with Some x => bool_decide (sched_timing x = EV_QUEUED) | None => false end
  | Refresh => true
  end.
Fixpoint legal_run_b (c : Conf) (ops : list Op) (s : Mach) : bool :=
  match ops with
  | [] => true
  | o :: ops => legal_b c s o && match step c o s with Ok (_, s') => legal_run_b c ops s' | Fault _ => true end
  end.

Lemma legal_b_sound c s o : legal_b c s o = true -> legal c s o.
Proof.
  unfold legal_b, fits_b, earliest_b. rewrite !andb_true_iff. intros [[[H1 [H2 H3]] H4] H5]. apply Z.leb_le in H1, H2. apply Z.ltb_lt in H3.
  split; [done|by split| |].
  - intros e x He Ht. rewrite forallb_forall in H4. apply list_elem_of_lookup_2, list_elem_of_In, H4 in He.
    rewrite bool_decide_true in He by done. by apply Z.leb_le in He.
  - destruct o as [ev addr wr cy|e|]; [|destruct (schedEvents (ddr s) !! e) as [x|]; [|done]|done].
    + apply andb_true_iff in H5 as [H5 H6]. apply Z.leb_le in H5. by apply bool_decide_eq_true in H6.
    + exists x. by apply bool_decide_eq_true in H5.
Qed.

Lemma legal_run_b_sound c ops s : legal_run_b c ops s = true -> legal_run c ops s.
Proof.
  revert s. induction ops as [|o ops IH]; intros s; cbn [legal_run_b legal_run]; [done|]. rewrite andb_true_iff. intros [H1 H2].
  split; [by apply legal_b_sound|]. intros s' E. rewrite E in H2. by apply IH.
Qed.

(** ** A controller and its runs *)

(** Four ranks of eight banks at 2 GHz, closed pages. *)
Definition demo_make : outcome Conf := make 64 8192 4 8 2000 "DDR3-1333-CL10" "rank:col:bank" 10 16 4 true true (0, 0, 0).
Definition conf_null : Conf := mkConf 0 0 0 0 0 0 false false 0 0 0 0 0 0 0 0 0 0 0 0 0 0 0 0 0 0 0 0 0 0 0 0 0 0.
Definition demo_conf : Conf := Eval vm_compute in match demo_make with Ok c => c | Fault _ => conf_null end.
Definition reached_by (c : Conf) (ops : list Op) : Mach := match run c ops (mach0 c false) with Ok (_, s) => s | Fault _ => mach0 c false end.

Lemma demo_params : params_ok 64 4 8 2000 10 16 4.
Proof. split; lia. Qed.

(** A refresh, reads of three banks, one of them of another row, and a write. *)
Definition demo_accesses : list Op :=
  [Refresh; Access 0 0 false 100; Access 1 8 true 110; Access 2 1 false 120; Access 3 262144 false 121; Access 4 16 false 121].
Definition demo_ticks : list nat := replicate 7 0%nat.
Definition demo_ops : list Op := demo_accesses ++ map Tick demo_ticks.

Lemma ddr_timing_witness : exists s, run demo_conf demo_ops (mach0 demo_conf false) = Ok (tt, s) /\ obeys demo_conf (trace (ddr s)) /\
  NoDup (arrived (trace (ddr s))) /\ arrived (trace (ddr s)) ≡ₚ dones (trace (ddr s)) ++ held (ddr s).
Proof.
  apply (ddr_timing 64 8192 4 8 2000 "DDR3-1333-CL10" "rank:col:bank" 10 16 4 true true (0, 0, 0) demo_params).
  - by vm_compute.
  - apply legal_run_b_sound. by vm_compute.
Defined.


(** Bank 0 of rank 0 has the reads 2, then 3 of another row, when a tick runs. *)
Definition bank00 : AddrLoc := mkLoc 0 0 0 0.
Definition demo_mid : Mach := Eval vm_compute in reached_by demo_conf demo_accesses.
Definition demo_later : Mach := Eval vm_compute in reached_by demo_conf (demo_accesses ++ [Tick 0]).

Lemma frfcfs_bound_witness : 3%nat ∈ dones (trace (ddr demo_later)) \/
  (13%nat ∈ rdReqs (bk (ddr demo_later) bank00) /\ q_ev (req false (ddr demo_later) 13) = Some 3%nat /\
   Z.of_nat (commands demo_conf false bank00 (trace (ddr demo_later))) <=
   Z.of_nat (commands demo_conf false bank00 (trace (ddr demo_mid))) + (4 + 1) * Z.of_nat 2).
Proof.
  apply (frfcfs_bound 64 8192 4 8 2000 "DDR3-1333-CL10" "rank:col:bank" 10 16 4 true true (0, 0, 0) demo_params demo_conf false demo_accesses [Tick 0] demo_mid demo_later).
  - by vm_compute.
  - apply legal_run_b_sound. by vm_compute.
  - by vm_compute.
  - by vm_compute.
  - split; cbn; lia.
  - by vm_compute.
  - by vm_compute.
  - by vm_compute.
Defined.

(** *** What the constraints leave out, and corners of the construction *)

(** tRRD is between activations of one bank: those of two banks of a rank, here 0 and
    1 of rank 0 after the refresh, may fall in one cycle. *)
Example acts_coincide : acts 0 (trace (ddr (reached_by demo_conf demo_ops))) = [143; 109; 75; 75] /\ tRRD demo_conf = 4.
Proof. vm_compute. by split. Qed.

(** An activation earlier than the three newest kept is put where the newest belongs:
    [minActCycle] is then the newest, 40, not 15. *)
Example window_misplaced : (w ← ActWindow.addActivation (ActWindow.mk [10; 20; 30; 40] 0) 15; ActWindow.minActCycle w) = Ok 40 /\
  (w ← ActWindow.addActivation (ActWindow.mk [10; 20; 30; 40] 0) 25; ActWindow.minActCycle w) = Ok 20.
Proof. vm_compute. by split. Qed.

(** With one rank, "rank" may be given twice and "bank" not at all: its shift is then
    whatever the memory held. *)
Example field_repeated : (f ← addr_fields "rank:col:rank" 7 0 3 (0, 0, 77); mret (f_bank f)) = Ok (77, 0) /\
  addr_fields "bank:col:bank" 7 0 3 (0, 0, 77) = Fault Panicked.
Proof. vm_compute. by split. Qed.
