(* ===== verification/Barrier.v ===== *)
(** * The phase barrier (src/src/barrier.h)

    Threads join, synchronise at, and leave the barrier; it lets at most
    [parallelThreads] of them run at a time and ends a phase when every thread
    has run.  The operations are those of the class, called with the scheduler
    lock held; where one blocks its caller, the caller goes on with [resume] when
    another operation has cleared its futex word.  The end-of-phase callback is
    a parameter that acts on a state [X] of its own (the scheduler's).

    [BarrierSpec] is the promise: three sets of threads and two rules. *)

From stdpp Require Import gmap sets.
From S2P Require Import Prelude MTRand.
Local Open Scope Z_scope.

Definition MAX_THREADS : nat := 2048.

Lemma MAX_THREADS_u32 : (0 < MAX_THREADS)%nat /\ Z.of_nat MAX_THREADS < max32.
Proof. rewrite max32_eq. split; [apply Nat.ltb_lt|apply Z.ltb_lt]; by vm_compute. Qed.

Global Opaque MAX_THREADS.

Module Barrier.

Inductive State := OFFLINE | WAITING | RUNNING | LEFT.

Global Instance State_eq_dec : EqDecision State.
Proof. solve_decision. Defined.

Record ThreadSyncInfo := tsi { state : State; futexWord : Z; lastIdx : nat }.

Record t := mk {
  parallelThreads : Z;
  threadList : list ThreadSyncInfo;
  runList : list nat;
  runListSize : nat;
  curThreadIdx : nat;
  runningThreads : Z;
  leftThreads : Z;
  phaseCount : Z;
  rnd : MTRand.t }.

(** The run list is zeroed by [gm_calloc]; the constructor leaves [lastIdx] as
    it finds it, [garbage]. *)
Definition make (_parallelThreads : Z) (garbage : nat -> nat) : t :=
  mk _parallelThreads ((fun tid => tsi OFFLINE 0 (garbage tid)) <$> seq 0 MAX_THREADS)
    (replicate MAX_THREADS 0%nat) 0 0 0 0 0 (MTRand.seed 0xBA77137).

(** Assignments to the fields. *)
Definition set_threads (tl : list ThreadSyncInfo) (b : t) : t :=
  mk (parallelThreads b) tl (runList b) (runListSize b) (curThreadIdx b) (runningThreads b)
    (leftThreads b) (phaseCount b) (rnd b).
Definition set_runList (rl : list nat) (n : nat) (b : t) : t :=
  mk (parallelThreads b) (threadList b) rl n (curThreadIdx b) (runningThreads b)
    (leftThreads b) (phaseCount b) (rnd b).
Definition set_cur (c : nat) (b : t) : t :=
  mk (parallelThreads b) (threadList b) (runList b) (runListSize b) c (runningThreads b)
    (leftThreads b) (phaseCount b) (rnd b).
Definition set_counts (r l : Z) (b : t) : t :=
  mk (parallelThreads b) (threadList b) (runList b) (runListSize b) (curThreadIdx b) r l
    (phaseCount b) (rnd b).
Definition set_phaseCount (p : Z) (b : t) : t :=
  mk (parallelThreads b) (threadList b) (runList b) (runListSize b) (curThreadIdx b)
    (runningThreads b) (leftThreads b) p (rnd b).
Definition set_rnd (g : MTRand.t) (b : t) : t :=
  mk (parallelThreads b) (threadList b) (runList b) (runListSize b) (curThreadIdx b)
    (runningThreads b) (leftThreads b) (phaseCount b) g.

Definition set_state (s : State) (i : ThreadSyncInfo) : ThreadSyncInfo :=
  tsi s (futexWord i) (lastIdx i).
Definition set_lastIdx (n : nat) (i : ThreadSyncInfo) : ThreadSyncInfo :=
  tsi (state i) (futexWord i) n.

Definition upd_thread (tid : nat) (f : ThreadSyncInfo -> ThreadSyncInfo) (b : t) : outcome t :=
  tl ← upd (threadList b) tid f; mret (set_threads tl b).

(** [checkRunList]: the wake-up of one thread, and the loop. *)
Definition wake (wtid idx : nat) (b : t) : outcome t :=
  w ← rd (threadList b) wtid;
  if bool_decide (futexWord w = 1) then
    b ← upd_thread wtid (fun _ => tsi RUNNING 0 idx) b;
    mret (set_counts (runningThreads b +32 1) (leftThreads b) b)
  else Fault Panicked.

Fixpoint checkRunList_loop (n : nat) (b : t) : outcome t :=
  if (runningThreads b <? parallelThreads b) && bool_decide (curThreadIdx b < runListSize b)%nat then
    match n with
    | O => Fault OutOfFuel
    | S n' =>
        let idx := curThreadIdx b in
        let b := set_cur (S idx) b in
        wtid ← rd (runList b) idx;
        w ← rd (threadList b) wtid;
        b ← (if bool_decide (state w = WAITING) then wake wtid idx b else mret b);
        checkRunList_loop n' b
    end
  else mret b.

Definition checkRunList (b : t) : outcome t :=
  checkRunList_loop (runListSize b - curThreadIdx b) b.

(** The pass over the run list that takes the threads that left offline. *)
Fixpoint cleanup_loop (n idx newSize : nat) (b : t) : outcome (nat * t) :=
  if bool_decide (idx < newSize)%nat then
    match n with
    | O => Fault OutOfFuel
    | S n' =>
        wtid ← rd (runList b) idx;
        w ← rd (threadList b) wtid;
        if bool_decide (state w = LEFT) then
          b ← upd_thread wtid (set_state OFFLINE) b;
          stid ← rd (runList b) (newSize - 1);
          rl ← wr (runList b) idx stid;
          b ← upd_thread stid (set_lastIdx idx) (set_runList rl (runListSize b) b);
          cleanup_loop n' idx (newSize - 1) b
        else cleanup_loop n' (S idx) newSize b
    end
  else mret (newSize, b).

Definition cleanup (b : t) : outcome t :=
  _ ← check (bool_decide (0 < runListSize b)%nat);
  '(newSize, b) ← cleanup_loop (runListSize b) 0 (runListSize b) b;
  _ ← check (bool_decide (Z.of_nat (runListSize b - newSize) = leftThreads b));
  mret (set_runList (runList b) newSize (set_counts (runningThreads b) 0 b)).

(** The Fisher-Yates shuffle, from the last element down.  [fuel] bounds the
    rejected draws of each [randInt]. *)
Section Shuffle.
Context (fuel : nat).

Definition swap_in_runList (i j : nat) (b : t) : outcome t :=
  itid ← rd (runList b) i;
  jtid ← rd (runList b) j;
  rl ← wr (runList b) i jtid;
  rl ← wr rl j itid;
  b ← upd_thread itid (set_lastIdx j) (set_runList rl (runListSize b) b);
  upd_thread jtid (set_lastIdx i) b.

Fixpoint shuffle (i : nat) (b : t) : outcome t :=
  match i with
  | O => mret b
  | S i' =>
      '(j, g) ← MTRand.randIntN fuel (rnd b) (Z.of_nat i);
      b ← swap_in_runList i (Z.to_nat j) (set_rnd g b);
      shuffle i' b
  end.

Definition start_phase (b : t) : outcome t :=
  let b := set_cur 0 b in
  let clean := bool_decide (Z.land (phaseCount b) 31 = 0) in
  let b := set_phaseCount (phaseCount b +32 1) b in
  b ← (if clean then cleanup b else mret b);
  if parallelThreads b <? Z.of_nat (runListSize b) then shuffle (runListSize b - 1) b
  else mret b.

Context {X : Type} (callback : X -> outcome X).

Definition checkEndPhase (s : t * X) : outcome (t * X) :=
  let '(b, x) := s in
  if bool_decide (curThreadIdx b = runListSize b) && bool_decide (runningThreads b = 0) then
    if bool_decide (leftThreads b = Z.of_nat (runListSize b)) then mret (b, x)
    else x ← callback x; b ← start_phase b; mret (b, x)
  else mret (b, x).

Definition tryWakeNext (s : t * X) : outcome (t * X) :=
  b ← checkRunList (fst s);
  '(b, x) ← checkEndPhase (b, snd s);
  b ← checkRunList b;
  mret (b, x).

(** If the thread has already run in this phase, it is moved to the position
    that is woken next. *)
Definition reschedule (tid : nat) (b : t) : outcome t :=
  i ← rd (threadList b) tid;
  let last := lastIdx i in
  if bool_decide (last < curThreadIdx b)%nat then
    let cur := (curThreadIdx b - 1)%nat in
    let b := set_cur cur b in
    r ← rd (runList b) last;
    _ ← check (bool_decide (tid = r));
    otherTid ← rd (runList b) cur;
    rl ← wr (runList b) last otherTid;
    rl ← wr rl cur tid;
    b ← upd_thread otherTid (set_lastIdx last) (set_runList rl (runListSize b) b);
    upd_thread tid (set_lastIdx cur) b
  else mret b.

Definition enlist (tid : nat) (b : t) : outcome t :=
  i ← rd (threadList b) tid;
  _ ← check (bool_decide (state i = LEFT \/ state i = OFFLINE));
  if bool_decide (state i = OFFLINE) then
    rl ← wr (runList b) (runListSize b) tid;
    mret (set_runList rl (S (runListSize b)) b)
  else reschedule tid (set_counts (runningThreads b) (leftThreads b -32 1) b).

Definition join (tid : nat) (s : t * X) : outcome (t * X) :=
  b ← enlist tid (fst s);
  b ← upd_thread tid (fun i => tsi WAITING 1 (lastIdx i)) b;
  tryWakeNext (b, snd s).

Definition leave (tid : nat) (s : t * X) : outcome (t * X) :=
  let '(b, x) := s in
  i ← rd (threadList b) tid;
  if bool_decide (state i = RUNNING) then
    b ← upd_thread tid (set_state LEFT) b;
    tryWakeNext (set_counts (runningThreads b -32 1) (leftThreads b +32 1) b, x)
  else
    _ ← check (bool_decide (state i = WAITING));
    b ← upd_thread tid (set_state LEFT) b;
    mret (set_counts (runningThreads b) (leftThreads b +32 1) b, x).

Definition sync (tid : nat) (s : t * X) : outcome (t * X) :=
  let '(b, x) := s in
  i ← rd (threadList b) tid;
  _ ← check (bool_decide (state i = RUNNING));
  b ← upd_thread tid (fun i => tsi WAITING 1 (lastIdx i)) b;
  tryWakeNext (set_counts (runningThreads b -32 1) (leftThreads b) b, x).

End Shuffle.

(** What [join] and [sync] do once the lock is released: a caller still WAITING
    blocks; it goes on when its futex word is no longer 1, and asserts that it
    has been set RUNNING.  [None]: still blocked. *)
Definition blocks (tid : nat) (b : t) : outcome bool :=
  i ← rd (threadList b) tid; mret (bool_decide (state i = WAITING)).

Definition resume (tid : nat) (b : t) : outcome (option unit) :=
  i ← rd (threadList b) tid;
  if bool_decide (futexWord i = 1) then mret None
  else _ ← check (bool_decide (state i = RUNNING)); mret (Some tt).


End Barrier.

(** ** What the barrier promises

    Threads yet to run in this phase, running, and done with it. *)

Module BarrierSpec.

Record astate := ast { todo : gset nat; running : gset nat; done : gset nat }.

Definition members (a : astate) : gset nat := todo a ∪ running a ∪ done a.

Section steps.
Context {X : Type} (P : Z) (callback : X -> outcome X).

(** What the barrier does by itself: let a thread run when fewer than [P] do;
    end the phase when all threads are done with it. *)
Inductive astep : astate * X -> astate * X -> Prop :=
  | step_wake T R D t x : t ∈ T -> Z.of_nat (size R) < P ->
      astep (ast T R D, x) (ast (T ∖ {[t]}) ({[t]} ∪ R) D, x)
  | step_phase D x x' : D <> ∅ -> callback x = Ok x' ->
      astep (ast ∅ ∅ D, x) (ast D ∅ ∅, x').

(** No rule applies. *)
Definition settled (a : astate) : Prop :=
  (todo a = ∅ \/ Z.of_nat (size (running a)) = P) /\
  (todo a = ∅ -> running a = ∅ -> done a = ∅).

(** A property of the client's state that waking keeps, and that lets the
    callback end a phase. *)
Record callback_laws (I : astate * X -> Prop) : Prop := {
  cl_wake T R D t x : t ∈ T -> I (ast T R D, x) -> I (ast (T ∖ {[t]}) ({[t]} ∪ R) D, x);
  cl_phase D x : D <> ∅ -> I (ast ∅ ∅ D, x) -> exists x', callback x = Ok x' /\ I (ast D ∅ ∅, x') }.

Lemma laws_steps I s s' : callback_laws I -> rtc astep s s' -> I s -> I s'.
Proof.
  intros [Hw Hp]. induction 1 as [|s s1 s' Hs _ IH]; [done|]. intros H. apply IH.
  destruct Hs as [T R D t x Ht _|D x x' HD E]; [by apply Hw|].
  destruct (Hp _ _ HD H) as (x'' & E' & H'). congruence.
Qed.
End steps.

Inductive call := Join (t : nat) | Leave (t : nat) | Sync (t : nat).

(** The effect of a call before the barrier settles. *)
Definition acall (c : call) (a : astate) : astate :=
  match c with
  | Join t => ast ({[t]} ∪ todo a) (running a) (done a)
  | Leave t => ast (todo a ∖ {[t]}) (running a ∖ {[t]}) (done a ∖ {[t]})
  | Sync t => ast (todo a) (running a ∖ {[t]}) ({[t]} ∪ done a)
  end.

End BarrierSpec.

(** ** The state behind the abstract one *)

Module BarrierInv.
Import Barrier BarrierSpec.

Global Instance tsi_inhabited : Inhabited ThreadSyncInfo := populate (tsi OFFLINE 0 0).

Definition st (tl : list ThreadSyncInfo) (t : nat) : State := state (tl !!! t).

Record core (tl : list ThreadSyncInfo) (rl : list nat) (n c : nat) : Prop := {
  core_tl : length tl = MAX_THREADS;
  core_rl : length rl = MAX_THREADS;
  core_n : (c <= n <= MAX_THREADS)%nat;
  core_inj i j t : (i < n)%nat -> (j < n)%nat -> rl !! i = Some t -> rl !! j = Some t -> i = j;
  core_lt k t : (k < n)%nat -> rl !! k = Some t -> (t < MAX_THREADS)%nat;
  core_mem t : (t < MAX_THREADS)%nat ->
    st tl t <> OFFLINE <-> exists k, (k < n)%nat /\ rl !! k = Some t;
  core_idx k t : (k < n)%nat -> rl !! k = Some t ->
    lastIdx (tl !!! t) = k \/ (st tl t = WAITING /\ (c <= k)%nat);
  core_waits t : (t < MAX_THREADS)%nat -> st tl t = WAITING -> futexWord (tl !!! t) = 1;
  core_runs t : (t < MAX_THREADS)%nat -> st tl t = RUNNING -> futexWord (tl !!! t) = 0 }.

Definition having (tl : list ThreadSyncInfo) (s : State) : gset nat :=
  filter (fun t => st tl t = s) (set_seq 0 (length tl)).

Definition ahead (b : t) : list nat := drop (curThreadIdx b) (take (runListSize b) (runList b)).

Definition abs (b : t) : astate :=
  ast (filter (fun t => t ∈ ahead b) (having (threadList b) WAITING))
    (having (threadList b) RUNNING)
    (filter (fun t => t ∉ ahead b) (having (threadList b) WAITING)).

Record wf (b : t) : Prop := {
  wf_core : core (threadList b) (runList b) (runListSize b) (curThreadIdx b);
  wf_running : runningThreads b = Z.of_nat (size (having (threadList b) RUNNING));
  wf_left : leftThreads b = Z.of_nat (size (having (threadList b) LEFT));
  wf_limit : 1 <= parallelThreads b < max32 /\ runningThreads b <= parallelThreads b;
  wf_rnd : MTRandSpec.wf (rnd b);
  wf_ran t : t ∈ ahead b -> st (threadList b) t <> RUNNING }.

Definition inv (b : t) : Prop := wf b /\ settled (parallelThreads b) (abs b).

(** The draws of a shuffle of [n] threads stay within the fuel. *)
Fixpoint draws (fuel i : nat) (g : MTRand.t) : outcome MTRand.t :=
  match i with
  | O => mret g
  | S i' => '(_, g) ← MTRand.randIntN fuel g (Z.of_nat i); draws fuel i' g
  end.

Definition draws_ok (fuel : nat) (b : t) : Prop :=
  forall n, (n < runListSize b)%nat -> is_ok (draws fuel n (rnd b)) = true.

Definition legal (b : t) (c : call) : Prop :=
  match c with
  | Join t => (t < MAX_THREADS)%nat /\ t ∉ members (abs b)
  | Sync t => t ∈ running (abs b)
  | Leave t => t ∈ running (abs b) \/
      (t ∈ members (abs b) /\ lastIdx (threadList b !!! t) < runListSize b /\
       runList b !! lastIdx (threadList b !!! t) = Some t)%nat
  end.

Definition run_call {X} (fuel : nat) (callback : X -> outcome X) (c : call) : Barrier.t * X -> outcome (Barrier.t * X) :=
  match c with
  | Join t => join fuel callback t
  | Leave t => leave fuel callback t
  | Sync t => sync fuel callback t
  end.

#[local] Opaque MTRandSpec.wf MTRand.N MTRand.seed.

(** *** Sets of threads *)

Lemma elem_having tl s t : t ∈ having tl s <-> st tl t = s /\ (t < length tl)%nat.
Proof. unfold having. rewrite elem_of_filter, elem_of_set_seq. intuition lia. Qed.

Global Opaque having.

Global Instance set_unfold_having tl s t :
  SetUnfoldElemOf t (having tl s) (st tl t = s /\ (t < length tl)%nat).
Proof. constructor. apply elem_having. Qed.

Lemma st_insert tl t i : (t < length tl)%nat -> st (<[t := i]> tl) t = state i.
Proof. intros Ht. unfold st. by rewrite list_lookup_total_insert_eq. Qed.

Lemma st_insert_ne tl t t' i : t <> t' -> st (<[t := i]> tl) t' = st tl t'.
Proof. intros Ht. unfold st. by rewrite list_lookup_total_insert_ne. Qed.

Lemma having_insert_in tl t i s : (t < length tl)%nat ->
  state i = s -> having (<[t := i]> tl) s = {[t]} ∪ having tl s.
Proof.
  intros Ht Hi. apply set_eq. intros t'. set_unfold. rewrite length_insert.
  destruct (decide (t = t')) as [<-|]; [rewrite st_insert by lia|rewrite st_insert_ne by done]; naive_solver.
Qed.

Lemma having_insert_out tl t i s : (t < length tl)%nat ->
  state i <> s -> having (<[t := i]> tl) s = having tl s ∖ {[t]}.
Proof.
  intros Ht Hi. apply set_eq. intros t'. set_unfold. rewrite length_insert.
  destruct (decide (t = t')) as [<-|]; [rewrite st_insert by lia|rewrite st_insert_ne by done]; naive_solver.
Qed.

Lemma having_ext tl tl' s : length tl' = length tl -> (forall t, st tl' t = st tl t) -> having tl' s = having tl s.
Proof. intros Hl H. apply set_eq. intros t. rewrite !elem_having. by rewrite H, Hl. Qed.

Lemma size_set_seq_nat a n : size (set_seq a n :> gset nat) = n.
Proof. rewrite <- list_to_set_seq, size_list_to_set by apply NoDup_seq. apply length_seq. Qed.

Lemma having_size tl s : (size (having tl s) <= length tl)%nat.
Proof.
  pose proof (subseteq_size (having tl s) (set_seq 0 (length tl))) as H. rewrite size_set_seq_nat in H.
  apply H. intros t. rewrite elem_having, elem_of_set_seq. lia.
Qed.

Lemma size_add (S : gset nat) t : t ∉ S -> size ({[t]} ∪ S) = Datatypes.S (size S).
Proof. intros H. rewrite (size_union {[t]} S) by set_solver. by rewrite size_singleton. Qed.

Lemma size_minus (S : gset nat) t : t ∈ S -> size S = Datatypes.S (size (S ∖ {[t]})).
Proof. intros H. rewrite <- (size_add _ t) by set_solver. f_equal. apply set_eq. intros u. destruct (decide (u = t)); set_solver. Qed.

Lemma not_in_remove (S : gset nat) t : t ∉ S -> S ∖ {[t]} = S.
Proof. set_solver. Qed.

(** *** The run list *)

Lemma elem_drop_take {A} (l : list A) n c x :
  x ∈ drop c (take n l) <-> exists k, (c <= k < n)%nat /\ l !! k = Some x.
Proof.
  rewrite list_elem_of_lookup. split.
  - intros [i Hi]. rewrite lookup_drop in Hi. apply lookup_take_Some in Hi as [? ?]. exists (c + i)%nat. split; [lia|done].
  - intros (k & Hk & Hx). exists (k - c)%nat. rewrite lookup_drop. replace (c + (k - c))%nat with k by lia.
    apply lookup_take_Some. split; [done|lia].
Qed.

Lemma core_weaken tl rl n c c' : core tl rl n c -> (c' <= c)%nat -> core tl rl n c'.
Proof.
  intros [] Hc. split; auto; [lia|]. intros k t Hk Hr. destruct (core_idx0 k t Hk Hr) as [|[? ?]]; [by left|].
  right. split; [done|lia].
Qed.

Lemma core_advance tl rl n c t : core tl rl n c -> (c < n)%nat -> rl !! c = Some t -> lastIdx (tl !!! t) = c ->
  core tl rl n (S c).
Proof.
  intros [] Hc Ht Hl. split; auto; [lia|]. intros k t' Hk Hr. destruct (core_idx0 k t' Hk Hr) as [|[? ?]]; [by left|].
  destruct (decide (k = c)) as [->|]; [left; congruence|]. right. split; [done|lia].
Qed.

Lemma core_set tl rl n c t i : core tl rl n c -> (t < MAX_THREADS)%nat ->
  (state i = OFFLINE <-> st tl t = OFFLINE) ->
  (forall k, (k < n)%nat -> rl !! k = Some t -> lastIdx i = k \/ (state i = WAITING /\ (c <= k)%nat)) ->
  (state i = WAITING -> futexWord i = 1) -> (state i = RUNNING -> futexWord i = 0) ->
  core (<[t := i]> tl) rl n c.
Proof.
  intros [] Ht Hs Hi Hw Hr. split; auto; [by rewrite length_insert| | | |].
  - intros t' Ht'. destruct (decide (t = t')) as [<-|]; [rewrite st_insert by lia|rewrite st_insert_ne by done; auto].
    rewrite Hs. auto.
  - intros k t' Hk Hr'. destruct (decide (t = t')) as [<-|].
    + rewrite st_insert, list_lookup_total_insert_eq by lia. auto.
    + rewrite st_insert_ne, list_lookup_total_insert_ne by done. auto.
  - intros t' Ht'. destruct (decide (t = t')) as [<-|].
    + rewrite st_insert, list_lookup_total_insert_eq by lia. auto.
    + rewrite st_insert_ne, list_lookup_total_insert_ne by done. auto.
  - intros t' Ht'. destruct (decide (t = t')) as [<-|].
    + rewrite st_insert, list_lookup_total_insert_eq by lia. auto.
    + rewrite st_insert_ne, list_lookup_total_insert_ne by done. auto.
Qed.

Lemma upd_thread_ok b tid f : length (threadList b) = MAX_THREADS -> (tid < MAX_THREADS)%nat ->
  upd_thread tid f b = Ok (set_threads (<[tid := f (threadList b !!! tid)]> (threadList b)) b).
Proof. intros Hl Ht. unfold upd_thread. rewrite upd_lt by lia. done. Qed.

Lemma elem_ahead b t : t ∈ ahead b <-> exists k, (curThreadIdx b <= k < runListSize b)%nat /\ runList b !! k = Some t.
Proof. apply elem_drop_take. Qed.

Lemma astate_eq a a' : todo a = todo a' -> running a = running a' -> done a = done a' -> a = a'.
Proof. destruct a, a'. cbn. congruence. Qed.

Lemma elem_todo b t : t ∈ todo (abs b) <-> t ∈ ahead b /\ st (threadList b) t = WAITING /\ (t < length (threadList b))%nat.
Proof. unfold abs. cbn [todo]. by rewrite elem_of_filter, elem_having. Qed.

Lemma elem_done b t : t ∈ done (abs b) <-> t ∉ ahead b /\ st (threadList b) t = WAITING /\ (t < length (threadList b))%nat.
Proof. unfold abs. cbn [done]. by rewrite elem_of_filter, elem_having. Qed.

Lemma abs_running b : running (abs b) = having (threadList b) RUNNING.
Proof. reflexivity. Qed.

Global Opaque abs.

(** *** Waking threads of the current phase *)

(** What waking leaves alone. *)
Record frame (b b' : t) : Prop := {
  fr_P : parallelThreads b' = parallelThreads b;
  fr_size : runListSize b' = runListSize b;
  fr_left : leftThreads b' = leftThreads b;
  fr_rnd : rnd b' = rnd b;
  fr_done : done (abs b') = done (abs b);
  fr_act : todo (abs b') ∪ running (abs b') = todo (abs b) ∪ running (abs b) }.

Lemma frame_refl b : frame b b.
Proof. by split. Qed.

Lemma frame_trans b1 b2 b3 : frame b1 b2 -> frame b2 b3 -> frame b1 b3.
Proof. intros [] []. split; congruence. Qed.

Lemma ahead_cons b t : curThreadIdx b <> runListSize b -> wf b -> runList b !! curThreadIdx b = Some t ->
  (forall u, u ∈ ahead b <-> u = t \/ u ∈ ahead (set_cur (S (curThreadIdx b)) b)) /\
  t ∉ ahead (set_cur (S (curThreadIdx b)) b).
Proof.
  intros Hc [Hwf _ _ _ _ _] Ht. pose proof (core_n _ _ _ _ Hwf). split.
  - intros u. rewrite !elem_ahead. cbn. split.
    + intros (k & Hk & Hu). destruct (decide (k = curThreadIdx b)) as [->|]; [left; congruence|].
      right. exists k. split; [lia|done].
    + intros [->|(k & Hk & Hu)]; [exists (curThreadIdx b)|exists k]; (split; [lia|done]).
  - rewrite elem_ahead. cbn. intros (k & Hk & Hu).
    pose proof (core_inj _ _ _ _ Hwf k (curThreadIdx b) t ltac:(lia) ltac:(lia) Hu Ht). lia.
Qed.

Section waking.
Context {X : Type} (callback : X -> outcome X).

Lemma skip_step b t : wf b -> curThreadIdx b <> runListSize b -> runList b !! curThreadIdx b = Some t ->
  st (threadList b) t <> WAITING ->
  wf (set_cur (S (curThreadIdx b)) b) /\ abs (set_cur (S (curThreadIdx b)) b) = abs b.
Proof.
  intros Hwf Hc Ht Hs. destruct (ahead_cons b t Hc Hwf Ht) as [Ha _].
  destruct Hwf as [Hco Hr Hl HP Hg Hran]. pose proof (core_n _ _ _ _ Hco). split.
  - constructor; [|exact Hr|exact Hl|exact HP|exact Hg|intros u Hu; apply Hran, Ha; by right]. cbn. apply core_advance with t; [exact Hco|lia|exact Ht|].
    destruct (core_idx _ _ _ _ Hco (curThreadIdx b) t ltac:(lia) Ht) as [Hi|[? ?]]; [exact Hi|contradiction].
  - apply astate_eq; [|by rewrite !abs_running|]; apply set_eq; intros u.
    + rewrite !elem_todo, Ha. cbn. naive_solver.
    + rewrite !elem_done, Ha. cbn. naive_solver.
Qed.

Lemma wake_step b t x : wf b -> curThreadIdx b <> runListSize b -> runList b !! curThreadIdx b = Some t ->
  st (threadList b) t = WAITING -> runningThreads b < parallelThreads b ->
  exists b', wake t (curThreadIdx b) (set_cur (S (curThreadIdx b)) b) = Ok b' /\ wf b' /\
    astep (parallelThreads b) callback (abs b, x) (abs b', x) /\ frame b b' /\
    curThreadIdx b' = S (curThreadIdx b).
Proof.
  intros Hwf Hc Ht Hs Hlt. destruct (ahead_cons b t Hc Hwf Ht) as [Ha Hna].
  destruct Hwf as [Hco Hr Hl HP Hg Hran]. pose proof (core_n _ _ _ _ Hco) as Hn.
  pose proof (core_tl _ _ _ _ Hco) as Htl.
  pose proof (core_lt _ _ _ _ Hco (curThreadIdx b) t ltac:(lia) Ht) as Hm.
  unfold wake. rewrite rd_lt by (cbn; lia). cbn [mbind outcome_bind threadList set_cur].
  rewrite bool_decide_true by by apply (core_waits _ _ _ _ Hco).
  rewrite upd_thread_ok by done. cbn [mbind outcome_bind mret outcome_ret].
  eexists. split; [done|].
  set (tl' := <[t := tsi RUNNING 0 (curThreadIdx b)]> (threadList b)).
  assert (forall u, st tl' u = if decide (u = t) then RUNNING else st (threadList b) u) as Hst.
  { intros u. unfold tl'. destruct (decide (u = t)) as [->|]; [by rewrite st_insert by lia|by rewrite st_insert_ne]. }
  assert (having tl' RUNNING = {[t]} ∪ having (threadList b) RUNNING) as Hrun by (apply having_insert_in; [lia|done]).
  assert (having tl' LEFT = having (threadList b) LEFT) as Hleft.
  { unfold tl'. rewrite having_insert_out by (done || lia). apply not_in_remove. rewrite elem_having, Hs. naive_solver. }
  assert (t ∉ having (threadList b) RUNNING) as Hnr by (rewrite elem_having, Hs; naive_solver).
  pose proof (size_add _ _ Hnr) as Hsz. pose proof max32_eq as H32.
  assert (runningThreads b +32 1 = runningThreads b + 1) as Hinc by (apply u32_small; lia).
  assert (length tl' = length (threadList b)) as Htl' by apply length_insert.
  set (b' := set_counts _ _ _).
  assert (todo (abs b') = todo (abs b) ∖ {[t]}) as E1.
  { apply set_eq. intros u. rewrite elem_of_difference, !elem_todo, Ha, elem_of_singleton. cbn [threadList b' set_counts set_threads set_cur].
    change (ahead b') with (ahead (set_cur (S (curThreadIdx b)) b)). fold tl'. rewrite Hst, Htl'. destruct (decide (u = t)); naive_solver. }
  assert (done (abs b') = done (abs b)) as E2.
  { apply set_eq. intros u. rewrite !elem_done, Ha. cbn [threadList b' set_counts set_threads set_cur].
    change (ahead b') with (ahead (set_cur (S (curThreadIdx b)) b)). fold tl'. rewrite Hst, Htl'. destruct (decide (u = t)); naive_solver. }
  assert (t ∈ todo (abs b)) as Hto by (apply elem_todo; rewrite Ha; split_and!; [auto|done|lia]).
  split; [|split; [|split; [|done]]].
  - split; cbn [threadList runList runListSize curThreadIdx runningThreads leftThreads rnd parallelThreads b' set_counts set_threads set_cur];
      fold tl'; [|rewrite Hinc, Hr, Hrun; lia|by rewrite Hleft|rewrite Hinc; lia|done|].
    2:{ intros u Hu. rewrite Hst. destruct (decide (u = t)) as [->|]; [by destruct Hna|]. apply Hran, Ha. by right. }
    apply core_advance with t; [|lia|done|by (unfold tl'; rewrite list_lookup_total_insert_eq by lia)].
    apply core_set; try done; [by rewrite Hs|].
    intros k Hk Hkt. left. exact (eq_sym (core_inj _ _ _ _ Hco k (curThreadIdx b) t Hk ltac:(lia) Hkt Ht)).
  - replace (abs b') with (ast (todo (abs b) ∖ {[t]}) ({[t]} ∪ running (abs b)) (done (abs b)))
      by (apply astate_eq; [done|by rewrite abs_running, <- Hrun|done]).
    replace (abs b) with (ast (todo (abs b)) (running (abs b)) (done (abs b))) at 1 by by destruct (abs b).
    apply step_wake; [done|]. rewrite abs_running. lia.
  - split; [reflexivity..|exact E2|]. rewrite E1. rewrite !abs_running. change (threadList b') with tl'. rewrite Hrun. apply set_eq. intros u.
    destruct (decide (u = t)) as [->|]; set_solver.
Qed.

Lemma checkRunList_spec b x : wf b ->
  exists b', checkRunList b = Ok b' /\ wf b' /\
    rtc (astep (parallelThreads b) callback) (abs b, x) (abs b', x) /\ frame b b' /\
    (runningThreads b' = parallelThreads b \/ curThreadIdx b' = runListSize b).
Proof.
  unfold checkRunList. remember (runListSize b - curThreadIdx b)%nat as n eqn:En.
  revert b En. induction n as [|n IH]; intros b En Hwf.
  - cbn [checkRunList_loop]. pose proof (core_n _ _ _ _ (wf_core _ Hwf)).
    rewrite (bool_decide_false (_ < _)%nat), andb_false_r by lia.
    exists b. split_and!; [done|done|apply rtc_refl|apply frame_refl|lia].
  - cbn [checkRunList_loop]. pose proof (core_n _ _ _ _ (wf_core _ Hwf)).
    destruct (Z.ltb_spec (runningThreads b) (parallelThreads b)) as [Hlt|Hge].
    2:{ cbn [andb]. exists b. split_and!; [done|done|apply rtc_refl|apply frame_refl|].
        pose proof (wf_limit _ Hwf). lia. }
    rewrite bool_decide_true by lia. cbn [andb].
    destruct (lookup_lt_is_Some_2 (runList b) (curThreadIdx b)) as [t Ht]; [rewrite (core_rl _ _ _ _ (wf_core _ Hwf)); lia|].
    pose proof (core_lt _ _ _ _ (wf_core _ Hwf) (curThreadIdx b) t ltac:(lia) Ht) as Hm.
    pose proof (core_tl _ _ _ _ (wf_core _ Hwf)) as Htl.
    cbn [runList threadList set_cur]. rewrite (rd_some _ _ _ Ht). cbn [mbind outcome_bind].
    rewrite rd_lt by lia. cbn [mbind outcome_bind].
    change (state (threadList b !!! t)) with (st (threadList b) t). case_bool_decide as Hs.
    + destruct (wake_step b t x Hwf ltac:(lia) Ht Hs Hlt) as (b1 & E1 & Hwf1 & Hst1 & Hf1 & Hc1).
      rewrite E1. cbn [mbind outcome_bind].
      destruct (IH b1) as (b2 & E2 & Hwf2 & Hst2 & Hf2 & Hend2); [rewrite Hc1, (fr_size _ _ Hf1); lia|done|].
      rewrite (fr_P _ _ Hf1) in *. exists b2. rewrite (fr_size _ _ Hf1) in Hend2.
      split_and!; [done|done|by eapply rtc_l|by eapply frame_trans|done].
    + destruct (skip_step b t Hwf ltac:(lia) Ht Hs) as [Hwf1 Hab].
      destruct (IH (set_cur (S (curThreadIdx b)) b)) as (b2 & E2 & Hwf2 & Hst2 & Hf2 & Hend2); [cbn; lia|done|].
      cbn [mret outcome_ret mbind outcome_bind]. exists b2. rewrite Hab in Hst2.
      split_and!; [done|done|done| |done].
      destruct Hf2 as [? ? ? ? Hd Ht2]. rewrite Hab in Hd, Ht2. by constructor.
Qed.
End waking.

(** *** The end of a phase *)

Lemma lookup_total_upd2 tl a d (f g : ThreadSyncInfo -> ThreadSyncInfo) u :
  (a < length tl)%nat -> (d < length tl)%nat ->
  <[d := g (<[a := f (tl !!! a)]> tl !!! d)]> (<[a := f (tl !!! a)]> tl) !!! u =
    (let i := if decide (u = a) then f (tl !!! u) else tl !!! u in if decide (u = d) then g i else i).
Proof.
  intros Ha Hd. cbv zeta. destruct (decide (u = d)) as [->|].
  - rewrite list_lookup_total_insert_eq by (rewrite length_insert; lia).
    destruct (decide (d = a)) as [->|]; [by rewrite list_lookup_total_insert_eq|by rewrite list_lookup_total_insert_ne].
  - rewrite list_lookup_total_insert_ne by done.
    destruct (decide (u = a)) as [->|]; [by rewrite list_lookup_total_insert_eq|by rewrite list_lookup_total_insert_ne].
Qed.

(** Two entries of the run list exchanged, with their back pointers. *)
Lemma core_swap tl rl n c i j a d : core tl rl n c -> (i < n)%nat -> (j < n)%nat ->
  rl !! i = Some a -> rl !! j = Some d ->
  let tl1 := <[a := set_lastIdx j (tl !!! a)]> tl in
  let tl2 := <[d := set_lastIdx i (tl1 !!! d)]> tl1 in
  core tl2 (<[j := a]> (<[i := d]> rl)) n c /\ (forall t, st tl2 t = st tl t).
Proof.
  intros Hco Hi Hj Ha Hd tl1 tl2. pose proof Hco as [Htl Hrl Hn Hinj Hlt Hmem Hidx Hw Hr].
  pose proof (Hlt _ _ Hi Ha) as HMa. pose proof (Hlt _ _ Hj Hd) as HMd.
  assert (forall u, tl2 !!! u = (let i0 := if decide (u = a) then set_lastIdx j (tl !!! u) else tl !!! u in
                                 if decide (u = d) then set_lastIdx i i0 else i0)) as Hat.
  { intros u. apply lookup_total_upd2; lia. }
  assert (forall u, st tl2 u = st tl u) as Hst.
  { intros u. unfold st. rewrite Hat. cbv zeta. by destruct (decide (u = d)), (decide (u = a)). }
  assert (forall u, futexWord (tl2 !!! u) = futexWord (tl !!! u)) as Hfu.
  { intros u. rewrite Hat. cbv zeta. by destruct (decide (u = d)), (decide (u = a)). }
  assert (forall k t, <[j := a]> (<[i := d]> rl) !! k = Some t <->
            (k = j /\ t = a) \/ (k <> j /\ k = i /\ t = d) \/ (k <> j /\ k <> i /\ rl !! k = Some t)) as Hlk.
  { intros k t. rewrite !list_lookup_insert_Some, length_insert. split.
    - intros [(-> & -> & _)|(? & [(-> & -> & _)|(? & ?)])]; auto.
    - intros [(-> & ->)|[(? & -> & ->)|(? & ? & ?)]]; [left|right|right]; split_and!; auto; lia. }
  split; [|exact Hst]. split.
  - unfold tl2, tl1. by rewrite !length_insert.
  - by rewrite !length_insert.
  - exact Hn.
  - intros k1 k2 t Hk1 Hk2. rewrite !Hlk. naive_solver.
  - intros k t Hk. rewrite Hlk. naive_solver.
  - intros t Ht. rewrite Hst, (Hmem _ Ht). split; intros (k & Hk & Hkt).
    + destruct (decide (k = i)) as [->|]; [exists j; rewrite Hlk; naive_solver|].
      destruct (decide (k = j)) as [->|]; [exists i; rewrite Hlk; destruct (decide (i = j)); naive_solver|].
      exists k. rewrite Hlk. naive_solver.
    + rewrite Hlk in Hkt. naive_solver.
  - intros k t Hk. rewrite Hlk, Hst, Hat. cbv zeta.
    intros [(-> & ->)|[(? & -> & ->)|(? & ? & Hkt)]].
    + left. destruct (decide (a = d)) as [->|]; [cbn; by apply (Hinj i j d)|]. by rewrite decide_True.
    + left. by rewrite decide_True.
    + rewrite !decide_False by (intros ->; naive_solver). by apply Hidx.
  - intros t Ht. rewrite Hst, Hfu. by apply Hw.
  - intros t Ht. rewrite Hst, Hfu. by apply Hr.
Qed.

(** A thread that left taken off the list: the last entry takes its place. *)
Lemma core_unlist tl rl n i w s : core tl rl n 0 -> (i < n)%nat ->
  rl !! i = Some w -> rl !! (n - 1)%nat = Some s ->
  let tl1 := <[w := set_state OFFLINE (tl !!! w)]> tl in
  let tl2 := <[s := set_lastIdx i (tl1 !!! s)]> tl1 in
  core tl2 (<[i := s]> rl) (n - 1) 0 /\
  (forall t, st tl2 t = if decide (t = w) then OFFLINE else st tl t).
Proof.
  intros Hco Hi Hrw Hrs tl1 tl2. pose proof Hco as [Htl Hrl Hn Hinj Hlt Hmem Hidx Hw Hr].
  pose proof (Hlt _ _ Hi Hrw) as HMw. pose proof (Hlt (n - 1)%nat s ltac:(lia) Hrs) as HMs.
  assert (forall u, tl2 !!! u = (let i0 := if decide (u = w) then set_state OFFLINE (tl !!! u) else tl !!! u in
                                 if decide (u = s) then set_lastIdx i i0 else i0)) as Hat.
  { intros u. apply lookup_total_upd2; lia. }
  assert (forall u, st tl2 u = if decide (u = w) then OFFLINE else st tl u) as Hst.
  { intros u. unfold st. rewrite Hat. cbv zeta. by destruct (decide (u = s)), (decide (u = w)). }
  assert (forall u, futexWord (tl2 !!! u) = futexWord (tl !!! u)) as Hfu.
  { intros u. rewrite Hat. cbv zeta. by destruct (decide (u = s)), (decide (u = w)). }
  assert (forall k t, <[i := s]> rl !! k = Some t <-> (k = i /\ t = s) \/ (k <> i /\ rl !! k = Some t)) as Hlk.
  { intros k t. rewrite list_lookup_insert_Some. split.
    - intros [(-> & -> & _)|[? ?]]; auto.
    - intros [(-> & ->)|[? ?]]; [left|right]; split_and!; auto; lia. }
  split; [|exact Hst]. split.
  - unfold tl2, tl1. by rewrite !length_insert.
  - by rewrite length_insert.
  - lia.
  - intros k1 k2 t Hk1 Hk2. rewrite !Hlk.
    intros [(-> & ->)|[Hn1 H1]] [(-> & E)|[Hn2 H2]]; try done.
    + pose proof (Hinj k2 (n - 1)%nat s ltac:(lia) ltac:(lia) H2 Hrs). lia.
    + subst. pose proof (Hinj k1 (n - 1)%nat s ltac:(lia) ltac:(lia) H1 Hrs). lia.
    + apply (Hinj _ _ t); auto; lia.
  - intros k t Hk. rewrite Hlk. intros [(-> & ->)|[? ?]]; [done|]. apply (Hlt k); [lia|done].
  - intros t Ht. rewrite Hst. destruct (decide (t = w)) as [->|Hne].
    + split; [done|]. intros (k & Hk & Hkt). rewrite Hlk in Hkt. exfalso. destruct Hkt as [(-> & ->)|[Hne Hkt]].
      * pose proof (Hinj i (n - 1)%nat s ltac:(lia) ltac:(lia) Hrw Hrs). lia.
      * pose proof (Hinj i k w ltac:(lia) ltac:(lia) Hrw Hkt). lia.
    + rewrite (Hmem _ Ht). split; intros (k & Hk & Hkt).
      * destruct (decide (k = n - 1)%nat) as [->|].
        -- exists i. rewrite Hlk. split; [|left; split; congruence]. destruct (decide (i = n - 1)%nat); [|lia]. subst i. congruence.
        -- exists k. rewrite Hlk. split; [lia|]. right. split; [congruence|done].
      * rewrite Hlk in Hkt. destruct Hkt as [(-> & ->)|[? ?]]; [exists (n - 1)%nat|exists k]; (split; [lia|done]).
  - intros k t Hk. rewrite Hlk, Hst, Hat. cbv zeta. intros [(-> & ->)|[Hne Hkt]].
    + left. by rewrite decide_True.
    + rewrite (decide_False (P := t = w)), (decide_False (P := t = w)), (decide_False (P := t = s)).
      * apply Hidx; [lia|done].
      * intros ->. pose proof (Hinj k (n - 1)%nat s ltac:(lia) ltac:(lia) Hkt Hrs). lia.
      * intros ->. apply Hne. by apply (Hinj _ _ w); [lia|..].
      * intros ->. apply Hne. by apply (Hinj _ _ w); [lia|..].
  - intros t Ht. rewrite Hst, Hfu. destruct (decide (t = w)); [done|]. by apply Hw.
  - intros t Ht. rewrite Hst, Hfu. destruct (decide (t = w)); [done|]. by apply Hr.
Qed.

(** What the loops leave of the barrier: thread list, run list, generator. *)
Definition with_lists (tl : list ThreadSyncInfo) (rl : list nat) (g : MTRand.t) (b : t) : t :=
  set_rnd g (set_threads tl (set_runList rl (runListSize b) b)).

Lemma having_left_zero tl rl n c : core tl rl n c ->
  (forall k t, (k < n)%nat -> rl !! k = Some t -> st tl t <> LEFT) -> having tl LEFT = ∅.
Proof.
  intros [Htl _ _ _ _ Hmem _ _ _] H. apply set_eq. intros t. rewrite elem_having, Htl. split; [|set_solver].
  intros [Hs Ht]. destruct (proj1 (Hmem t Ht) ltac:(congruence)) as (k & Hk & Hkt). by destruct (H k t Hk Hkt).
Qed.

Lemma cleanup_loop_spec m i n b : core (threadList b) (runList b) n 0 -> m = (n - i)%nat -> (i <= n)%nat ->
  (forall k t, (k < i)%nat -> runList b !! k = Some t -> st (threadList b) t <> LEFT) ->
  exists n' tl' rl', cleanup_loop m i n b = Ok (n', with_lists tl' rl' (rnd b) b) /\ core tl' rl' n' 0 /\
    (forall t, st tl' t = if decide (st (threadList b) t = LEFT) then OFFLINE else st (threadList b) t) /\
    n = (n' + size (having (threadList b) LEFT))%nat.
Proof.
  revert i n b. induction m as [|m IH]; intros i n b Hco Em Hi Hpre; cbn [cleanup_loop].
  - rewrite bool_decide_false by lia. exists n, (threadList b), (runList b). split; [by destruct b|]. split; [done|].
    assert (i = n) as -> by lia. pose proof (having_left_zero _ _ _ _ Hco Hpre) as H0. rewrite H0, size_empty.
    split; [|lia]. intros t. case_decide as Hs; [|done].
    destruct (decide (t < length (threadList b))%nat) as [Hl|Hl].
    + assert (t ∈ having (threadList b) LEFT) by by apply elem_having. set_solver.
    + unfold st in Hs. rewrite list_lookup_total_alt, (lookup_ge_None_2 (threadList b) t) in Hs by lia. discriminate Hs.
  - pose proof Hco as [Htl Hrl Hn Hinj Hlt Hmem _ _ _]. destruct (decide (i < n)%nat) as [Hin|]; [|lia]. rewrite bool_decide_true by lia.
    destruct (lookup_lt_is_Some_2 (runList b) i ltac:(lia)) as [w Hw]. pose proof (Hlt i w ltac:(lia) Hw) as HMw.
    rewrite (rd_some _ _ _ Hw). cbn [mbind outcome_bind]. rewrite rd_lt by lia. cbn [mbind outcome_bind].
    change (state (threadList b !!! w)) with (st (threadList b) w). case_bool_decide as Hs.
    + rewrite upd_thread_ok by done. cbn [mbind outcome_bind].
      destruct (lookup_lt_is_Some_2 (runList b) (n - 1)%nat ltac:(lia)) as [s Hrs].
      pose proof (Hlt (n - 1)%nat s ltac:(lia) Hrs) as HMs. cbn [runList set_threads].
      rewrite (rd_some _ _ _ Hrs). cbn [mbind outcome_bind]. rewrite wr_lt by lia. cbn [mbind outcome_bind].
      rewrite upd_thread_ok by (cbn; rewrite ?length_insert; done). cbn [mbind outcome_bind].
      cbn [threadList set_threads set_runList].
      destruct (core_unlist _ _ _ i w s Hco ltac:(lia) Hw Hrs) as [Hco1 Hst1]. cbv zeta in Hco1, Hst1.
      set (tl2 := <[s := _]> _) in *. set (rl2 := <[i := s]> _) in *. set (b2 := set_threads _ _).
      destruct (IH i (n - 1)%nat b2) as (n' & tl' & rl' & E & Hco' & Hst' & Hsz); [exact Hco1|lia|lia| |].
      { intros k t Hk Hkt. cbn in Hkt |- *. rewrite Hst1. case_decide as Hd; [done|].
        unfold rl2 in Hkt. rewrite list_lookup_insert_ne in Hkt by lia. by apply (Hpre k t). }
      exists n', tl', rl'. split; [exact E|]. split; [done|]. split.
      * intros t. rewrite Hst'. cbn. rewrite Hst1. destruct (decide (t = w)) as [->|]; [|done]. by rewrite Hs.
      * cbn in Hsz. assert (having tl2 LEFT = having (threadList b) LEFT ∖ {[w]}) as Hh.
        { apply set_eq. intros t. rewrite elem_of_difference, elem_of_singleton, !elem_having.
          rewrite (core_tl _ _ _ _ Hco1), Htl, Hst1. case_decide; naive_solver. }
        rewrite Hh in Hsz. rewrite (size_minus (having (threadList b) LEFT) w) by (apply elem_having; split; [done|lia]). lia.
    + apply IH; [done|lia|lia|]. intros k t Hk Hkt. destruct (decide (k = i)) as [->|]; [congruence|]. apply (Hpre k); [lia|done].
Qed.

Lemma shuffle_spec fuel i b : core (threadList b) (runList b) (runListSize b) 0 -> (i < runListSize b \/ i = 0)%nat ->
  MTRandSpec.wf (rnd b) -> is_ok (draws fuel i (rnd b)) = true ->
  exists tl' rl' g', shuffle fuel i b = Ok (with_lists tl' rl' g' b) /\ core tl' rl' (runListSize b) 0 /\
    (forall t, st tl' t = st (threadList b) t) /\ MTRandSpec.wf g'.
Proof.
  revert b. induction i as [|i IH]; intros b Hco Hi Hg Hd; cbn [shuffle draws] in *.
  - exists (threadList b), (runList b), (rnd b). split; [by destruct b|]. done.
  - destruct (MTRand.randIntN fuel (rnd b) (Z.of_nat (S i))) as [[j g]|] eqn:Er; [|done].
    cbn [mbind outcome_bind] in *. destruct (randInt_loop_spec _ _ _ _ _ _ Hg Er) as [Hj Hg'].
    pose proof Hco as [Htl Hrl Hn Hinj Hlt Hmem _ _ _].
    destruct (lookup_lt_is_Some_2 (runList b) (S i) ltac:(lia)) as [a Ha].
    destruct (lookup_lt_is_Some_2 (runList b) (Z.to_nat j) ltac:(lia)) as [d Hdj].
    pose proof (Hlt (S i) a ltac:(lia) Ha) as HMa. pose proof (Hlt (Z.to_nat j) d ltac:(lia) Hdj) as HMd.
    destruct (core_swap _ _ _ _ (S i) (Z.to_nat j) a d Hco ltac:(lia) ltac:(lia) Ha Hdj) as [Hco1 Hst1]. cbv zeta in Hco1, Hst1.
    unfold swap_in_runList. cbn [runList set_rnd]. rewrite (rd_some _ _ _ Ha). cbn [mbind outcome_bind].
    rewrite (rd_some _ _ _ Hdj). cbn [mbind outcome_bind]. rewrite wr_lt by lia. cbn [mbind outcome_bind].
    rewrite wr_lt by (rewrite length_insert; lia). cbn [mbind outcome_bind].
    rewrite upd_thread_ok by done. cbn [mbind outcome_bind].
    rewrite upd_thread_ok by (cbn; rewrite ?length_insert; done). cbn [mbind outcome_bind].
    set (b2 := set_threads _ _).
    destruct (IH b2) as (tl' & rl' & g' & E & Hco' & Hst' & Hg2); [exact Hco1|cbn; lia|exact Hg'|exact Hd|].
    exists tl', rl', g'. split; [exact E|]. split; [exact Hco'|]. split; [|done].
    intros t. rewrite Hst'. apply Hst1.
Qed.

Lemma ahead_end b : curThreadIdx b = runListSize b -> ahead b = [].
Proof. intros E. unfold ahead. rewrite E, drop_ge; [done|]. rewrite length_take. lia. Qed.

Lemma elem_ahead_start b t : core (threadList b) (runList b) (runListSize b) 0 -> curThreadIdx b = 0%nat ->
  t ∈ ahead b <-> (t < MAX_THREADS)%nat /\ st (threadList b) t <> OFFLINE.
Proof.
  intros [_ _ _ _ Hlt Hmem _ _ _] E. rewrite elem_ahead, E. split.
  - intros (k & Hk & Hkt). pose proof (Hlt k t ltac:(lia) Hkt) as Ht. split; [done|]. rewrite (Hmem _ Ht). exists k. split; [lia|done].
  - intros [Ht Hs]. destruct (proj1 (Hmem t Ht) Hs) as (k & Hk & Hkt). exists k. split; [lia|done].
Qed.

(** The state in which a new phase starts: every waiting thread is to run. *)
Lemma abs_phase_start b b' : wf b -> curThreadIdx b = runListSize b ->
  core (threadList b') (runList b') (runListSize b') 0 -> curThreadIdx b' = 0%nat ->
  (forall t, st (threadList b') t = WAITING <-> st (threadList b) t = WAITING) ->
  having (threadList b') RUNNING = ∅ ->
  abs b' = ast (done (abs b)) ∅ ∅.
Proof.
  intros Hwf Hc Hco Hc' Hst Hrun. pose proof (core_tl _ _ _ _ (wf_core _ Hwf)) as Hl.
  pose proof (core_tl _ _ _ _ Hco) as Hl'. apply astate_eq; cbn [todo running done].
  - apply set_eq. intros t. rewrite elem_todo, elem_done, (elem_ahead_start _ _ Hco Hc'), (ahead_end _ Hc), Hl, Hl', Hst.
    rewrite elem_of_nil. split; [naive_solver|]. intros (_ & Hs & Ht). split_and!; auto. apply Hst in Hs. congruence.
  - by rewrite abs_running.
  - apply set_eq. intros t. rewrite elem_done, (elem_ahead_start _ _ Hco Hc'), Hl'. split; [|set_solver].
    intros (Hn & Hs & Ht). destruct Hn. split; [done|]. congruence.
Qed.

Lemma not_running tl t : having tl RUNNING = ∅ -> st tl t <> RUNNING.
Proof.
  intros H Hs. destruct (decide (t < length tl)%nat) as [Ht|Ht].
  - assert (t ∈ having tl RUNNING) as Hin by by apply elem_having. rewrite H in Hin. set_solver.
  - unfold st in Hs. rewrite list_lookup_total_alt, (lookup_ge_None_2 tl t) in Hs by lia. discriminate Hs.
Qed.

Lemma start_phase_spec fuel b : wf b -> curThreadIdx b = runListSize b -> runningThreads b = 0 ->
  (0 < runListSize b)%nat -> draws_ok fuel b ->
  exists b', start_phase fuel b = Ok b' /\ wf b' /\ parallelThreads b' = parallelThreads b /\
    abs b' = ast (done (abs b)) ∅ ∅.
Proof.
  intros Hwf Hc Hr0 Hpos Hd. pose proof Hwf as [Hco Hr Hl HP Hg _].
  assert (having (threadList b) RUNNING = ∅) as Hrun.
  { apply leibniz_equiv, size_empty_inv. lia. }
  pose proof (core_weaken _ _ _ _ 0 Hco ltac:(lia)) as Hco0.
  unfold start_phase. cbn [phaseCount set_cur].
  set (b1 := set_phaseCount _ (set_cur 0 b)).
  assert (exists n tl rl g, (if bool_decide (Z.land (phaseCount b) 31 = 0) then cleanup b1 else mret b1) =
      Ok (set_runList rl n (set_threads tl (set_counts (runningThreads b) (Z.of_nat (size (having tl LEFT))) (set_rnd g b1)))) /\
      core tl rl n 0 /\ (forall t, st tl t = WAITING <-> st (threadList b) t = WAITING) /\
      having tl RUNNING = ∅ /\ (n <= runListSize b)%nat /\ g = rnd b) as (n & tl & rl & g & E & Hco1 & Hst1 & Hrun1 & Hn & ->).
  { case_bool_decide as Hcl.
    - unfold cleanup. cbn [runListSize b1 set_phaseCount set_cur]. rewrite bool_decide_true by lia.
      cbn [check mbind outcome_bind].
      destruct (cleanup_loop_spec (runListSize b) 0 (runListSize b) b1) as (n' & tl' & rl' & E & Hco' & Hst' & Hsz);
        [exact Hco0|lia|lia|lia|]. cbn [threadList b1 set_phaseCount set_cur] in *.
      rewrite E. cbn [mbind outcome_bind leftThreads runListSize runningThreads runList with_lists set_rnd set_threads set_runList b1 set_phaseCount set_cur].
      rewrite bool_decide_true by lia. cbn [check mbind outcome_bind].
      assert (having tl' LEFT = ∅) as H0.
      { apply set_eq. intros t. rewrite elem_having, Hst'. case_decide; set_solver. }
      exists n', tl', rl', (rnd b). rewrite H0, size_empty. split; [reflexivity|]. split; [done|].
      split; [intros t; rewrite Hst'; case_decide; [|done]; split; congruence|]. split; [|split; [lia|done]].
      apply set_eq. intros t. rewrite <- Hrun, !elem_having, Hst', (core_tl _ _ _ _ Hco'), (core_tl _ _ _ _ Hco).
      case_decide as Hd'; [rewrite Hd'|done]. split; intros [? ?]; congruence.
    - exists (runListSize b), (threadList b), (runList b), (rnd b). rewrite <- Hl.
      split; [by destruct b|]. split_and!; auto. }
  rewrite E. cbn [mbind outcome_bind parallelThreads set_runList set_threads set_counts set_rnd b1 set_phaseCount set_cur runListSize].
  set (b2 := set_runList _ _ _). pose proof (size_empty (C := gset nat)) as Hse.
  destruct (Z.ltb_spec (parallelThreads b) (Z.of_nat n)) as [Hlt|Hge].
  - destruct (shuffle_spec fuel (n - 1) b2) as (tl' & rl' & g' & E' & Hco' & Hst' & Hg'); [exact Hco1|cbn; lia|exact Hg| |].
    { apply Hd. lia. }
    rewrite E'. eexists. split; [done|].
    assert (forall s, having tl' s = having tl s) as Hh.
    { intros s. apply having_ext; [by rewrite (core_tl _ _ _ _ Hco'), (core_tl _ _ _ _ Hco1)|exact Hst']. }
    split; [|split; [done|]].
    + split; cbn; rewrite ?Hh; [exact Hco'| |done| |exact Hg'|]; [by rewrite Hrun1, Hse, Hr0|lia|].
      intros t _. cbn. rewrite Hst'. by apply not_running.
    + apply abs_phase_start; [done|done|exact Hco'|done| |cbn; by rewrite Hh]. intros t. cbn. rewrite Hst'. apply Hst1.
  - eexists. split; [done|]. split; [|split; [done|]].
    + split; cbn; [exact Hco1| |done| |exact Hg|]; [by rewrite Hrun1, Hse, Hr0|lia|].
      intros t _. by apply not_running.
    + by apply abs_phase_start.
Qed.

(** *** The calls before the barrier settles *)

Definition info (b : t) (u : nat) : ThreadSyncInfo := threadList b !!! u.

Lemma listed b u : wf b -> (u < MAX_THREADS)%nat -> st (threadList b) u <> OFFLINE ->
  exists k, (k < runListSize b)%nat /\ runList b !! k = Some u.
Proof. intros Hwf Hu. apply (core_mem _ _ _ _ (wf_core _ Hwf) u Hu). Qed.

Lemma elem_running b u : wf b -> u ∈ running (abs b) <-> st (threadList b) u = RUNNING /\ (u < MAX_THREADS)%nat.
Proof. intros Hwf. by rewrite abs_running, elem_having, (core_tl _ _ _ _ (wf_core _ Hwf)). Qed.

Lemma elem_members b u : wf b -> u ∈ members (abs b) <->
  (st (threadList b) u = RUNNING \/ st (threadList b) u = WAITING) /\ (u < MAX_THREADS)%nat.
Proof.
  intros Hwf. unfold members. rewrite !elem_of_union, (elem_running _ _ Hwf), elem_todo, elem_done, (core_tl _ _ _ _ (wf_core _ Hwf)).
  destruct (decide (u ∈ ahead b)); naive_solver.
Qed.

Lemma count_list b : wf b ->
  (size (having (threadList b) LEFT) + size (having (threadList b) WAITING) +
   size (having (threadList b) RUNNING) = runListSize b)%nat.
Proof.
  intros Hwf. pose proof (wf_core _ Hwf) as [Htl Hrl Hn Hinj Hlt Hmem _ _ _].
  assert (NoDup (take (runListSize b) (runList b))) as Hnd.
  { apply NoDup_alt. intros i j t. rewrite !lookup_take_Some. intros [Hi ?] [Hj ?]. by apply (Hinj i j t). }
  transitivity (size (list_to_set (take (runListSize b) (runList b)) :> gset nat)).
  2:{ rewrite size_list_to_set by done. rewrite length_take. lia. }
  rewrite <- size_union by (apply elem_of_disjoint; intros t; rewrite !elem_having; intros [? _] [? _]; congruence).
  rewrite <- size_union by (apply elem_of_disjoint; intros t; rewrite elem_of_union, !elem_having;
    intros [[? _]|[? _]] [? _]; congruence).
  f_equal. apply set_eq. intros t. rewrite !elem_of_union, !elem_having, elem_of_list_to_set, list_elem_of_lookup, Htl.
  setoid_rewrite lookup_take_Some. split.
  - intros H. assert ((t < MAX_THREADS)%nat /\ st (threadList b) t <> OFFLINE) as [Ht Hs] by (intuition congruence).
    destruct (proj1 (Hmem t Ht) Hs) as (k & Hk & Hkt). by exists k.
  - intros (k & Hkt & Hk). pose proof (Hlt k t Hk Hkt) as Ht.
    assert (st (threadList b) t <> OFFLINE) as Hs by (apply (Hmem t Ht); by exists k).
    destruct (st (threadList b) t); auto. by destruct Hs.
Qed.

Section one_thread.
Context (b : t) (u : nat) (Hwf : wf b) (Hu : (u < MAX_THREADS)%nat).

Lemma st_with i v : st (<[u := i]> (threadList b)) v = if decide (v = u) then state i else st (threadList b) v.
Proof.
  destruct (decide (v = u)) as [->|]; [|by apply st_insert_ne].
  apply st_insert. rewrite (core_tl _ _ _ _ (wf_core _ Hwf)). exact Hu.
Qed.

Lemma having_with i s : having (<[u := i]> (threadList b)) s =
  if decide (state i = s) then {[u]} ∪ having (threadList b) s else having (threadList b) s ∖ {[u]}.
Proof.
  assert (u < length (threadList b))%nat by by rewrite (core_tl _ _ _ _ (wf_core _ Hwf)).
  case_decide; [by apply having_insert_in|by apply having_insert_out].
Qed.

(** The counter that a set of threads has when [u] joins or leaves the set. *)
Lemma count_add s : st (threadList b) u <> s ->
  Z.of_nat (size ({[u]} ∪ having (threadList b) s)) = u32 (Z.of_nat (size (having (threadList b) s)) + 1).
Proof.
  intros Hs. assert (u ∉ having (threadList b) s) as Hn by (rewrite elem_having; naive_solver).
  pose proof MAX_THREADS_u32. pose proof (having_size (<[u := tsi s 0 0]> (threadList b)) s) as Hsz.
  rewrite having_with, decide_True, length_insert, (core_tl _ _ _ _ (wf_core _ Hwf)) in Hsz by done.
  rewrite (size_add _ _ Hn) in *. rewrite u32_small by lia. lia.
Qed.

Lemma count_remove s : st (threadList b) u = s ->
  Z.of_nat (size (having (threadList b) s ∖ {[u]})) = u32 (Z.of_nat (size (having (threadList b) s)) - 1).
Proof.
  intros Hs. assert (u ∈ having (threadList b) s) as Hn.
  { apply elem_having. by rewrite (core_tl _ _ _ _ (wf_core _ Hwf)). }
  pose proof MAX_THREADS_u32. pose proof (having_size (threadList b) s) as Hsz.
  rewrite (core_tl _ _ _ _ (wf_core _ Hwf)) in Hsz.
  rewrite (size_minus _ _ Hn) in *. rewrite u32_small by lia. lia.
Qed.

Lemma having_other s : st (threadList b) u <> s -> having (threadList b) s ∖ {[u]} = having (threadList b) s.
Proof. intros Hs. apply not_in_remove. rewrite elem_having. naive_solver. Qed.

Lemma sync_start : st (threadList b) u = RUNNING ->
  let b0 := set_counts (runningThreads b -32 1) (leftThreads b)
              (set_threads (<[u := tsi WAITING 1 (lastIdx (threadList b !!! u))]> (threadList b)) b) in
  wf b0 /\ abs b0 = acall (Sync u) (abs b).
Proof.
  intros Hs b0. pose proof Hwf as [Hco Hr Hl HP Hg Hran].
  pose proof (core_tl _ _ _ _ Hco) as Htl. pose proof max32_eq.
  assert (u ∉ ahead b) as Hna by (intros H1; by apply (Hran u H1)).
  pose proof (count_remove _ Hs) as Hcr. split.
  - split; cbn [threadList runList runListSize curThreadIdx runningThreads leftThreads parallelThreads rnd b0 set_counts set_threads].
    + apply core_set; [done|done|by rewrite Hs|intros k Hk Hkt|done|done].
      destruct (core_idx _ _ _ _ Hco k u Hk Hkt) as [|[? ?]]; [by left|congruence].
    + rewrite having_with, decide_False, Hr by done. by rewrite Hcr.
    + rewrite having_with, decide_False, having_other by (done || congruence). done.
    + rewrite Hr in *. split; [lia|]. rewrite <- Hcr. pose proof (size_minus (having (threadList b) RUNNING) u) as Hsz.
      rewrite elem_having, Htl in Hsz. specialize (Hsz (conj Hs Hu)). lia.
    + done.
    + intros v Hv. rewrite st_with. case_decide; [done|]. by apply Hran.
  - assert (forall v, v ∈ ahead b0 <-> v ∈ ahead b) as Ha by done.
    apply astate_eq; cbn [todo running done acall].
    + apply set_eq. intros v. rewrite !elem_todo, Ha. cbn [threadList b0 set_counts set_threads]. rewrite length_insert, st_with.
      case_decide; naive_solver.
    + rewrite !abs_running. cbn [threadList b0 set_counts set_threads]. by rewrite having_with, decide_False.
    + apply set_eq. intros v. rewrite elem_of_union, elem_of_singleton, !elem_done, Ha.
      cbn [threadList b0 set_counts set_threads]. rewrite length_insert, st_with, Htl. case_decide; naive_solver.
Qed.

Lemma leave_start : st (threadList b) u = RUNNING \/ st (threadList b) u = WAITING /\
    (lastIdx (threadList b !!! u) < runListSize b)%nat /\ runList b !! lastIdx (threadList b !!! u) = Some u ->
  let b0 := set_counts (if decide (st (threadList b) u = RUNNING) then runningThreads b -32 1 else runningThreads b)
              (leftThreads b +32 1)
              (set_threads (<[u := set_state LEFT (threadList b !!! u)]> (threadList b)) b) in
  wf b0 /\ abs b0 = acall (Leave u) (abs b).
Proof.
  intros Hs b0. pose proof Hwf as [Hco Hr Hl HP Hg Hran].
  pose proof (core_tl _ _ _ _ Hco) as Htl. pose proof max32_eq.
  assert (st (threadList b) u <> LEFT /\ st (threadList b) u <> OFFLINE) as [Hnl Hno] by (destruct Hs as [->|[-> _]]; done).
  split.
  - split; cbn [threadList runList runListSize curThreadIdx runningThreads leftThreads parallelThreads rnd b0 set_counts set_threads].
    + apply core_set; [done|done|done|intros k Hk Hkt|done|done].
      left. cbn. destruct (core_idx _ _ _ _ Hco k u Hk Hkt) as [|[? ?]]; [done|].
      destruct Hs as [|(_ & Hlt & Hlk)]; [congruence|]. apply (core_inj _ _ _ _ Hco _ k u); [lia|done|done|done].
    + rewrite having_with, (decide_False (P := state (set_state LEFT (threadList b !!! u)) = RUNNING)) by done.
      destruct (decide (st (threadList b) u = RUNNING)) as [Hrun|Hrun].
      * by rewrite Hr, (count_remove _ Hrun).
      * by rewrite having_other.
    + rewrite having_with, decide_True by done. by rewrite (count_add _ Hnl), Hl.
    + destruct (decide (st (threadList b) u = RUNNING)) as [Hrun|Hrun]; [|done].
      rewrite Hr in *. split; [lia|]. rewrite <- (count_remove _ Hrun).
      pose proof (size_minus (having (threadList b) RUNNING) u) as Hsz. rewrite elem_having, Htl in Hsz. specialize (Hsz (conj Hrun Hu)). lia.
    + done.
    + intros v Hv. rewrite st_with. case_decide; [done|]. by apply Hran.
  - assert (forall v, v ∈ ahead b0 <-> v ∈ ahead b) as Ha by done.
    apply astate_eq; cbn [todo running done acall].
    + apply set_eq. intros v. rewrite elem_of_difference, elem_of_singleton, !elem_todo, Ha.
      cbn [threadList b0 set_counts set_threads]. rewrite length_insert, st_with. case_decide; naive_solver.
    + rewrite !abs_running. cbn [threadList b0 set_counts set_threads]. by rewrite having_with, decide_False.
    + apply set_eq. intros v. rewrite elem_of_difference, elem_of_singleton, !elem_done, Ha.
      cbn [threadList b0 set_counts set_threads]. rewrite length_insert, st_with. case_decide; naive_solver.
Qed.

(** The caller of [join] made to wait, on the list as [enlist] leaves it. *)
Definition waiting_entry (last : nat) (i : ThreadSyncInfo) : ThreadSyncInfo := tsi WAITING 1 last.

Lemma core_enlist l : st (threadList b) u = OFFLINE -> (runListSize b < MAX_THREADS)%nat ->
  core (<[u := tsi WAITING 1 l]> (threadList b)) (<[runListSize b := u]> (runList b)) (S (runListSize b)) (curThreadIdx b).
Proof.
  intros Hs Hn. pose proof (wf_core _ Hwf) as Hco. pose proof Hco as [Htl Hrl Hcn Hinj Hlt Hmem Hidx Hw Hr].
  assert (forall k v, (k < S (runListSize b))%nat -> <[runListSize b := u]> (runList b) !! k = Some v <->
            (k = runListSize b /\ v = u) \/ ((k < runListSize b)%nat /\ runList b !! k = Some v)) as Hlk.
  { intros k v Hk. rewrite list_lookup_insert_Some. split.
    - intros [(-> & -> & _)|[? ?]]; [by left|right]. split; [lia|done].
    - intros [[-> ->]|[? ?]]; [left; split_and!; [done|done|lia]|right]. split; [lia|done]. }
  assert (forall k, (k < runListSize b)%nat -> runList b !! k <> Some u) as Hnu.
  { intros k Hk Hku. apply (proj2 (Hmem u Hu)); [by exists k|done]. }
  split.
  - by rewrite length_insert.
  - by rewrite length_insert.
  - lia.
  - intros i j v Hi Hj. rewrite !Hlk by done. intros [[-> ->]|[Hi' Hiv]] [[-> ?]|[Hj' Hjv]]; try done.
    + by destruct (Hnu j Hj').
    + subst. by destruct (Hnu i Hi').
    + by apply (Hinj i j v).
  - intros k v Hk. rewrite Hlk by done. intros [[-> ->]|[? ?]]; [done|]. by apply (Hlt k).
  - intros v Hv. rewrite st_with. case_decide as Hd.
    + subst. split; [|done]. intros _. exists (runListSize b). split; [lia|]. apply Hlk; [lia|by left].
    + rewrite (Hmem v Hv). split; intros (k & Hk & Hkv); exists k.
      * split; [lia|]. apply Hlk; [lia|by right].
      * rewrite Hlk in Hkv by lia. naive_solver.
  - intros k v Hk. rewrite Hlk, st_with by done. intros [[-> ->]|[Hk' Hkv]].
    + right. rewrite decide_True by done. split; [done|lia].
    + assert (v <> u) by (intros ->; by apply (Hnu k)). rewrite decide_False, list_lookup_total_insert_ne by done. by apply Hidx.
  - intros v Hv. rewrite st_with. case_decide as Hd; [subst; by rewrite list_lookup_total_insert_eq by lia|].
    rewrite list_lookup_total_insert_ne by done. by apply Hw.
  - intros v Hv. rewrite st_with. case_decide as Hd; [done|].
    rewrite list_lookup_total_insert_ne by done. by apply Hr.
Qed.

(** There is room for a thread that is not on the list. *)
Lemma room : st (threadList b) u = OFFLINE -> (runListSize b < MAX_THREADS)%nat.
Proof.
  intros Hs. rewrite <- (count_list b Hwf).
  pose proof (core_tl _ _ _ _ (wf_core _ Hwf)) as Htl.
  rewrite <- size_union by (apply elem_of_disjoint; intros v; rewrite !elem_having; intros [? _] [? _]; congruence).
  rewrite <- size_union by (apply elem_of_disjoint; intros v; rewrite elem_of_union, !elem_having;
    intros [[? _]|[? _]] [? _]; congruence).
  pose proof (size_add (having (threadList b) LEFT ∪ having (threadList b) WAITING ∪ having (threadList b) RUNNING) u) as Ha.
  rewrite !elem_of_union, !elem_having, Hs in Ha. specialize (Ha ltac:(naive_solver)).
  pose proof (subseteq_size ({[u]} ∪ (having (threadList b) LEFT ∪ having (threadList b) WAITING ∪ having (threadList b) RUNNING))
    (set_seq 0 MAX_THREADS)) as Hsub. rewrite size_set_seq_nat in Hsub. rewrite Ha in Hsub. apply Hsub.
  intros v. rewrite elem_of_set_seq, !elem_of_union, elem_of_singleton, !elem_having, Htl. intuition lia.
Qed.

Definition joins (b1 : Barrier.t) : Prop :=
  wf b1 /\ abs b1 = acall (Join u) (abs b) /\ parallelThreads b1 = parallelThreads b.

(** What a state must satisfy to be [b] with [u] waiting its turn. *)
Lemma joins_intro b1 : st (threadList b) u = OFFLINE \/ st (threadList b) u = LEFT ->
  core (threadList b1) (runList b1) (runListSize b1) (curThreadIdx b1) ->
  (forall v, st (threadList b1) v = if decide (v = u) then WAITING else st (threadList b) v) ->
  (forall v, v ∈ ahead b1 <-> v = u \/ (v <> u /\ v ∈ ahead b)) ->
  runningThreads b1 = runningThreads b ->
  leftThreads b1 = (if decide (st (threadList b) u = LEFT) then leftThreads b -32 1 else leftThreads b) ->
  parallelThreads b1 = parallelThreads b -> rnd b1 = rnd b -> joins b1.
Proof.
  intros Hs Hco1 Hst Ha Er El EP Eg. pose proof Hwf as [Hco Hr Hl HP Hg Hran].
  pose proof (core_tl _ _ _ _ Hco) as Htl. pose proof (core_tl _ _ _ _ Hco1) as Htl1.
  assert (forall s, having (threadList b1) s =
    if decide (WAITING = s) then {[u]} ∪ having (threadList b) s else having (threadList b) s ∖ {[u]}) as Hh.
  { intros s. rewrite <- (having_with (tsi WAITING 0 0)). apply having_ext; [by rewrite length_insert, Htl, Htl1|].
    intros v. by rewrite Hst, st_with. }
  split; [|split; [|done]].
  - split; [done| | | | |].
    + rewrite Er, Hr, Hh, decide_False, having_other by (done || (destruct Hs; congruence)). done.
    + rewrite El, Hl, Hh, (decide_False (P := WAITING = LEFT)) by done. case_decide as HL; [by rewrite count_remove|by rewrite having_other].
    + by rewrite EP, Er.
    + by rewrite Eg.
    + intros v. rewrite Ha, Hst. intros [->|[? Hv]]; [by rewrite decide_True|]. rewrite decide_False by done. by apply Hran.
  - apply astate_eq; cbn [todo running done acall].
    + apply set_eq. intros v. rewrite elem_of_union, elem_of_singleton, !elem_todo, Ha, Hst, Htl, Htl1.
      clear -Hs Hu. case_decide; naive_solver.
    + rewrite !abs_running, Hh, decide_False, having_other by (done || (destruct Hs; congruence)). done.
    + apply set_eq. intros v. rewrite !elem_done, Ha, Hst, Htl, Htl1. clear -Hs Hu. case_decide as Hd; [|naive_solver].
      subst. split; [naive_solver|]. intros (_ & Hw & _). destruct Hs; congruence.
Qed.

Lemma index_of_left : st (threadList b) u = LEFT ->
  exists k, (k < runListSize b)%nat /\ runList b !! k = Some u /\ lastIdx (threadList b !!! u) = k.
Proof.
  intros Hs. destruct (listed b u Hwf Hu) as (k & Hk & Hku); [by rewrite Hs|]. exists k.
  destruct (core_idx _ _ _ _ (wf_core _ Hwf) k u Hk Hku) as [|[? ?]]; [done|congruence].
Qed.

Lemma wait_core tl rl n c : core tl rl n c -> st tl u = LEFT ->
  core (<[u := tsi WAITING 1 (lastIdx (tl !!! u))]> tl) rl n c.
Proof.
  intros Hco Hs. apply core_set; [done|done|by rewrite Hs| |done|done].
  intros k Hk Hku. destruct (core_idx _ _ _ _ Hco k u Hk Hku) as [|[? ?]]; [by left|congruence].
Qed.

Definition wait (b1 : Barrier.t) : outcome Barrier.t := upd_thread u (fun i => tsi WAITING 1 (lastIdx i)) b1.

Lemma enlist_offline : st (threadList b) u = OFFLINE ->
  exists b1, (b0 ← enlist u b; wait b0) = Ok b1 /\ joins b1.
Proof.
  intros Hs. pose proof (wf_core _ Hwf) as Hco. pose proof Hco as [Htl Hrl Hn Hinj Hlt Hmem Hidx Hw Hr].
  pose proof (room Hs) as Hroom. unfold enlist. rewrite rd_lt by lia. cbn [mbind outcome_bind].
  change (state (threadList b !!! u)) with (st (threadList b) u). rewrite Hs. rewrite (bool_decide_true (OFFLINE = LEFT \/ _)) by by right.
  cbn [check mbind outcome_bind]. rewrite bool_decide_true by done. rewrite wr_lt by lia. cbn [mret outcome_ret mbind outcome_bind].
  unfold wait. rewrite upd_thread_ok by done. cbn [threadList set_runList]. eexists. split; [done|].
  pose proof (core_enlist (lastIdx (threadList b !!! u)) Hs Hroom) as Hco1.
  apply joins_intro; [by left|done|apply st_with| |done|by rewrite Hs|done|done].
  intros v. rewrite !elem_ahead. cbn. split.
  - intros (k & Hk & Hkv). destruct (decide (k = runListSize b)) as [->|Hne].
    + rewrite list_lookup_insert_eq in Hkv by lia. left. congruence.
    + rewrite list_lookup_insert_ne in Hkv by done. right. split; [|exists k; split; [lia|done]].
      intros ->. apply (proj2 (Hmem u Hu)); [exists k; split; [lia|done]|done].
  - intros [->|(Hne & k & Hk & Hkv)].
    + exists (runListSize b). rewrite list_lookup_insert_eq by lia. split; [lia|done].
    + exists k. rewrite list_lookup_insert_ne by lia. split; [lia|done].
Qed.

Lemma enlist_left : st (threadList b) u = LEFT ->
  exists b1, (b0 ← enlist u b; wait b0) = Ok b1 /\ joins b1.
Proof.
  intros Hs. pose proof (wf_core _ Hwf) as Hco. pose proof Hco as [Htl Hrl Hn Hinj Hlt Hmem Hidx Hw Hr].
  destruct (index_of_left Hs) as (last & Hl & Hlu & El).
  unfold enlist. rewrite rd_lt by lia. cbn [mbind outcome_bind].
  change (state (threadList b !!! u)) with (st (threadList b) u). rewrite Hs. rewrite (bool_decide_true (LEFT = LEFT \/ _)) by by left.
  cbn [check mbind outcome_bind]. rewrite (bool_decide_false (LEFT = OFFLINE)) by done.
  unfold reschedule. cbn [threadList set_counts curThreadIdx]. rewrite (rd_lt (threadList b) u) by lia. cbn [mbind outcome_bind]. rewrite El.
  case_bool_decide as Hc.
  - set (c := (curThreadIdx b - 1)%nat). assert (curThreadIdx b = S c) as Hcc by (unfold c; lia). cbn [runList set_cur set_counts]. rewrite (rd_some _ _ _ Hlu). cbn [mbind outcome_bind].
    rewrite bool_decide_true by done. cbn [check mbind outcome_bind].
    destruct (lookup_lt_is_Some_2 (runList b) c ltac:(lia)) as [o Ho]. rewrite (rd_some _ _ _ Ho). cbn [mbind outcome_bind].
    pose proof (Hlt c o ltac:(lia) Ho) as HMo.
    rewrite wr_lt by lia. cbn [mbind outcome_bind]. rewrite wr_lt by (rewrite length_insert; lia). cbn [mbind outcome_bind].
    rewrite upd_thread_ok by done. cbn [mbind outcome_bind].
    rewrite upd_thread_ok by (cbn; rewrite ?length_insert; done). cbn [mbind outcome_bind threadList set_threads set_runList set_cur set_counts].
    destruct (core_swap _ _ _ _ c last o u Hco ltac:(lia) Hl Ho Hlu) as [Hco1 Hst1]. cbv zeta in Hco1, Hst1.
    assert (<[c := u]> (<[last := o]> (runList b)) = <[last := o]> (<[c := u]> (runList b))) as Hsw.
    { destruct (decide (c = last)) as [->|]; [|by apply list_insert_insert_ne]. congruence. }
    rewrite Hsw. set (tl2 := <[u := _]> _) in *. unfold wait.
    rewrite upd_thread_ok by (try exact (core_tl _ _ _ _ Hco1); done). cbn [threadList set_threads set_runList set_cur set_counts].
    eexists. split; [done|].
    assert (st tl2 u = LEFT) as Hs2 by by rewrite Hst1.
    pose proof (wait_core _ _ _ _ (core_weaken _ _ _ _ c Hco1 ltac:(lia)) Hs2) as Hco2.
    apply joins_intro; [by right|exact Hco2| | |done|by rewrite Hs|done|done].
    + intros v. cbn. destruct (decide (v = u)) as [->|]; [|rewrite st_insert_ne by done; apply Hst1].
      rewrite st_insert; [done|]. rewrite (core_tl _ _ _ _ Hco1). done.
    + intros v. rewrite !elem_ahead. cbn. fold c. split.
      * intros (k & Hk & Hkv). destruct (decide (k = c)) as [->|Hne].
        -- left. destruct (decide (last = c)) as [->|].
           ++ rewrite list_lookup_insert_eq in Hkv by (rewrite length_insert; lia). congruence.
           ++ rewrite list_lookup_insert_ne, list_lookup_insert_eq in Hkv by (done || lia). congruence.
        -- rewrite !list_lookup_insert_ne in Hkv by lia. right. split; [|exists k; split; [lia|done]].
           intros ->. pose proof (Hinj k last u ltac:(lia) Hl Hkv Hlu). lia.
      * intros [->|(Hne & k & Hk & Hkv)].
        -- exists c. split; [lia|]. rewrite <- Hsw, list_lookup_insert_eq by (rewrite length_insert; lia). done.
        -- exists k. rewrite !list_lookup_insert_ne by lia. split; [lia|done].
  - cbn [mret outcome_ret mbind outcome_bind]. unfold wait. rewrite upd_thread_ok by done. cbn [threadList set_counts].
    eexists. split; [done|].
    apply joins_intro; [by right|by apply wait_core|apply st_with| |done|by rewrite Hs|done|done].
    intros v. split; [|intros [->|[? ?]]; [|done]].
    + intros Hv. destruct (decide (v = u)); [by left|by right].
    + apply elem_ahead. exists last. split; [cbn; lia|exact Hlu].
Qed.

Lemma enlist_spec : st (threadList b) u = OFFLINE \/ st (threadList b) u = LEFT ->
  exists b1, (b0 ← enlist u b; wait b0) = Ok b1 /\ joins b1.
Proof. intros [Hs|Hs]; [by apply enlist_offline|by apply enlist_left]. Qed.
End one_thread.

(** *** After every call *)

Lemma done_at_end b : ahead b = [] -> done (abs b) = having (threadList b) WAITING /\ todo (abs b) = ∅.
Proof.
  intros H. split; apply set_eq; intros t.
  - rewrite elem_done, elem_having, H, elem_of_nil. intuition.
  - rewrite elem_todo, H, elem_of_nil. set_solver.
Qed.

Lemma running_zero b : wf b -> runningThreads b = 0 <-> running (abs b) = ∅.
Proof.
  intros Hwf. rewrite abs_running, (wf_running _ Hwf). split; intros H.
  - apply leibniz_equiv, size_empty_inv. lia.
  - by rewrite H, size_empty.
Qed.

Lemma settled_after b : wf b -> (runningThreads b = parallelThreads b \/ curThreadIdx b = runListSize b) ->
  todo (abs b) ∪ running (abs b) <> ∅ \/ done (abs b) = ∅ -> settled (parallelThreads b) (abs b).
Proof.
  intros Hwf He Hne. pose proof (wf_running _ Hwf) as Hr. rewrite <- abs_running in Hr. pose proof (wf_limit _ Hwf).
  split.
  - destruct He as [He|He]; [right; lia|left; by apply done_at_end, ahead_end].
  - intros E1 E2. rewrite E1, E2 in Hne. set_solver.
Qed.

(** While some thread is still to run or running, no phase ends, whatever the
    callback. *)
Lemma tryWakeNext_goes_on {Y} fuel (cb : Y -> outcome Y) b x : wf b -> todo (abs b) ∪ running (abs b) <> ∅ ->
  exists b', tryWakeNext fuel cb (b, x) = Ok (b', x) /\ wf b' /\
    rtc (astep (parallelThreads b) cb) (abs b, x) (abs b', x) /\
    settled (parallelThreads b) (abs b') /\ parallelThreads b' = parallelThreads b /\
    done (abs b') = done (abs b) /\ todo (abs b') ∪ running (abs b') = todo (abs b) ∪ running (abs b).
Proof.
  intros Hwf Hne. unfold tryWakeNext. cbn [fst snd].
  destruct (checkRunList_spec cb b x Hwf) as (b1 & E1 & Hwf1 & Hs1 & Hf1 & He1). rewrite E1. cbn [mbind outcome_bind].
  pose proof (wf_limit _ Hwf1) as HP1. rewrite (fr_P _ _ Hf1) in HP1.
  rewrite <- (fr_act _ _ Hf1) in Hne. unfold checkEndPhase.
  assert (bool_decide (curThreadIdx b1 = runListSize b1) && bool_decide (runningThreads b1 = 0) = false) as ->.
  { apply andb_false_iff. rewrite !bool_decide_eq_false.
    destruct (decide (curThreadIdx b1 = runListSize b1)) as [Hc|]; [right|by left].
    intros Hr. apply Hne. apply running_zero in Hr; [|done]. by rewrite Hr, (proj2 (done_at_end _ (ahead_end _ Hc))). }
  cbn [mret outcome_ret mbind outcome_bind].
  destruct (checkRunList_spec cb b1 x Hwf1) as (b2 & E2 & Hwf2 & Hs2 & Hf2 & He2). rewrite E2. cbn [mbind outcome_bind].
  assert (parallelThreads b2 = parallelThreads b) as HPb2 by (rewrite <- (fr_P _ _ Hf1); apply (fr_P _ _ Hf2)).
  rewrite (fr_P _ _ Hf1) in Hs2. exists b2. split_and!; [done|done|by etrans| |done|..].
  - rewrite <- HPb2. apply settled_after; [done|by rewrite (fr_P _ _ Hf2), (fr_size _ _ Hf2)|].
    left. by rewrite (fr_act _ _ Hf2).
  - by rewrite (fr_done _ _ Hf2), (fr_done _ _ Hf1).
  - by rewrite (fr_act _ _ Hf2), (fr_act _ _ Hf1).
Qed.

Lemma not_member_off b u : wf b -> legal b (Join u) ->
  (u < MAX_THREADS)%nat /\ (st (threadList b) u = OFFLINE \/ st (threadList b) u = LEFT).
Proof.
  intros Hwf [Hu Hn]. split; [done|]. rewrite (elem_members _ _ Hwf) in Hn.
  destruct (st (threadList b) u) eqn:E; auto; destruct Hn; auto.
Qed.

Lemma join_settles {Y} fuel (cb : Y -> outcome Y) b u x : wf b -> legal b (Join u) ->
  exists b', join fuel cb u (b, x) = Ok (b', x) /\ inv b' /\
    rtc (astep (parallelThreads b) cb) (acall (Join u) (abs b), x) (abs b', x) /\ parallelThreads b' = parallelThreads b /\
    done (abs b') = done (abs b) /\ todo (abs b') ∪ running (abs b') = {[u]} ∪ (todo (abs b) ∪ running (abs b)).
Proof.
  intros Hwf Hl. destruct (not_member_off b u Hwf Hl) as [Hu Hs].
  destruct (enlist_spec b u Hwf Hu Hs) as (b1 & E1 & Hwf1 & Ha1 & HP1).
  destruct (tryWakeNext_goes_on fuel cb b1 x Hwf1) as (b2 & E2 & Hwf2 & Hs2 & Hst2 & HP2 & Hd2 & Ht2);
    [rewrite Ha1; cbn; set_solver|].
  exists b2. rewrite HP1, Ha1 in Hs2. rewrite HP1 in HP2. rewrite Ha1 in Hd2, Ht2.
  split_and!; [|split; [done|by rewrite HP2, <- HP1]|done|done|done|rewrite Ht2; cbn; set_solver].
  unfold join. cbn [fst snd]. destruct (enlist u b) as [b0|]; [|done]. cbn [mbind outcome_bind] in *.
  unfold wait in E1. rewrite E1. exact E2.
Qed.

(** The barrier as built. *)

Lemma st_make P garbage u : st (threadList (make P garbage)) u = OFFLINE.
Proof.
  unfold st, make. cbn [threadList]. rewrite list_lookup_total_alt, list_lookup_fmap.
  by destruct (seq 0 MAX_THREADS !! u).
Qed.

Lemma empty_inv b : 1 <= parallelThreads b < max32 -> MTRandSpec.wf (rnd b) ->
  length (threadList b) = MAX_THREADS -> length (runList b) = MAX_THREADS ->
  runListSize b = 0%nat -> curThreadIdx b = 0%nat -> runningThreads b = 0 -> leftThreads b = 0 ->
  (forall u, st (threadList b) u = OFFLINE) -> inv b.
Proof.
  intros HP Hg Htl Hrl Hn Hc Hr Hl Hst.
  assert (forall s, s <> OFFLINE -> having (threadList b) s = ∅) as Hh.
  { intros s Hs. apply set_eq. intros u. rewrite elem_having, Hst. set_solver. }
  assert (ahead b = []) as H0 by (apply ahead_end; congruence). destruct (done_at_end _ H0) as [Hd Ht].
  assert (abs b = ast ∅ ∅ ∅) as Ha.
  { apply astate_eq; [exact Ht|rewrite abs_running; by apply Hh|rewrite Hd; by apply Hh]. }
  split; [|rewrite Ha; by split; [left|]].
  split; rewrite ?Hn, ?Hc, ?Hh, ?size_empty by done; [|done|done|lia|done|].
  - split; try (intros; lia); try done.
    + intros u Hu. rewrite Hst. split; [intros []; reflexivity|intros (k & Hk & _); lia].
    + intros u Hu. by rewrite Hst.
    + intros u Hu. by rewrite Hst.
  - intros u. rewrite H0. set_solver.
Qed.

Lemma make_abs P garbage : abs (make P garbage) = ast ∅ ∅ ∅.
Proof.
  assert (forall s, s <> OFFLINE -> having (threadList (make P garbage)) s = ∅) as Hh.
  { intros s Hs. apply set_eq. intros u. rewrite elem_having, st_make. set_solver. }
  destruct (done_at_end (make P garbage) eq_refl) as [Hd Ht].
  apply astate_eq; [exact Ht|rewrite abs_running; by apply Hh|rewrite Hd; by apply Hh].
Qed.

Lemma make_inv P garbage : 1 <= P < max32 -> inv (make P garbage).
Proof.
  intros HP. apply empty_inv; [exact HP|apply MTRandSpec.seed_wf|cbn [threadList make]..|exact (st_make P garbage)]; try reflexivity.
Qed.

Section settling.
Context {X : Type} (fuel : nat) (callback : X -> outcome X) (I : astate * X -> Prop).
Hypothesis laws : callback_laws callback I.

Lemma tryWakeNext_spec b x : wf b -> draws_ok fuel b -> I (abs b, x) ->
  exists b' x', tryWakeNext fuel callback (b, x) = Ok (b', x') /\ wf b' /\ I (abs b', x') /\
    rtc (astep (parallelThreads b) callback) (abs b, x) (abs b', x') /\
    settled (parallelThreads b) (abs b') /\ parallelThreads b' = parallelThreads b.
Proof.
  intros Hwf Hd Hx. destruct (decide (todo (abs b) ∪ running (abs b) = ∅)) as [Hem|Hne].
  2:{ destruct (tryWakeNext_goes_on fuel callback b x Hwf Hne) as (b' & ? & ? & Hs & ? & ? & _). exists b', x.
      split_and!; try done. by apply (laws_steps _ _ _ _ _ laws Hs). }
  unfold tryWakeNext. cbn [fst snd].
  destruct (checkRunList_spec callback b x Hwf) as (b1 & E1 & Hwf1 & Hs1 & Hf1 & He1). rewrite E1. cbn [mbind outcome_bind].
  pose proof (wf_limit _ Hwf1) as HP1. rewrite (fr_P _ _ Hf1) in HP1. rewrite <- (fr_act _ _ Hf1) in Hem.
  assert (running (abs b1) = ∅) as Hrun1 by set_solver. pose proof (proj2 (running_zero _ Hwf1) Hrun1) as Hr0.
  assert (curThreadIdx b1 = runListSize b1) as Hc by (rewrite (fr_size _ _ Hf1); lia).
  destruct (done_at_end _ (ahead_end _ Hc)) as [Ed Et].
  pose proof (count_list _ Hwf1) as Hcnt. pose proof (wf_left _ Hwf1) as Hl.
  rewrite <- abs_running, Hrun1, size_empty in Hcnt.
  unfold checkEndPhase. rewrite !bool_decide_true by done. cbn [andb].
  case_bool_decide as Hall.
  - cbn [mret outcome_ret mbind outcome_bind].
    destruct (checkRunList_spec callback b1 x Hwf1) as (b2 & E2 & Hwf2 & Hs2 & Hf2 & He2). rewrite E2. cbn [mbind outcome_bind].
    assert (parallelThreads b2 = parallelThreads b) as HPb2 by (rewrite <- (fr_P _ _ Hf1); apply (fr_P _ _ Hf2)).
    rewrite (fr_P _ _ Hf1) in Hs2. exists b2, x. assert (rtc (astep (parallelThreads b) callback) (abs b, x) (abs b2, x)) as Hs by by etrans.
    split_and!; [done|done|by apply (laws_steps _ _ _ _ _ laws Hs)|done| |done].
    rewrite <- HPb2. apply settled_after; [done|by rewrite (fr_P _ _ Hf2), (fr_size _ _ Hf2)|].
    right. rewrite (fr_done _ _ Hf2), Ed. apply leibniz_equiv, size_empty_inv. lia.
  - assert (done (abs b1) <> ∅) as Hdn.
    { rewrite Ed. intros E0. rewrite E0, size_empty in Hcnt. lia. }
    assert (abs b1 = ast ∅ ∅ (done (abs b1))) as Eab1 by (apply astate_eq; cbn [todo running done]; [by rewrite Et|by rewrite Hrun1|reflexivity]).
    pose proof (laws_steps _ _ _ _ _ laws Hs1 Hx) as Hx1. rewrite Eab1 in Hx1.
    destruct (cl_phase _ _ laws _ _ Hdn Hx1) as (x' & Ecb & Hx'). rewrite Ecb. cbn [mbind outcome_bind].
    destruct (start_phase_spec fuel b1) as (b2 & E2 & Hwf2 & HP2 & Hab2); [done|done|done|lia| |].
    { intros n Hn. rewrite (fr_rnd _ _ Hf1). apply Hd. by rewrite <- (fr_size _ _ Hf1). }
    rewrite E2. cbn [mret outcome_ret mbind outcome_bind].
    destruct (checkRunList_spec callback b2 x' Hwf2) as (b3 & E3 & Hwf3 & Hs3 & Hf3 & He3). rewrite E3. cbn [mbind outcome_bind].
    assert (parallelThreads b2 = parallelThreads b) as HPb2 by (rewrite HP2; apply (fr_P _ _ Hf1)).
    assert (parallelThreads b3 = parallelThreads b) as HPb3 by (rewrite <- HPb2; apply (fr_P _ _ Hf3)).
    rewrite HPb2 in Hs3, He3. exists b3, x'. rewrite <- Hab2 in Hx'.
    split_and!; [done|done|by apply (laws_steps _ _ _ _ _ laws Hs3)| | |done].
    + etrans; [exact Hs1|]. eapply rtc_l; [|exact Hs3]. rewrite Hab2, Eab1 at 1. by constructor.
    + rewrite <- HPb3. apply settled_after; [done|by rewrite HPb3, (fr_size _ _ Hf3)|].
      left. rewrite (fr_act _ _ Hf3), Hab2. cbn. set_solver.
Qed.

Lemma sync_settles b u x : wf b -> I (acall (Sync u) (abs b), x) -> legal b (Sync u) -> draws_ok fuel b ->
  exists b' x', sync fuel callback u (b, x) = Ok (b', x') /\ inv b' /\ I (abs b', x') /\
    rtc (astep (parallelThreads b) callback) (acall (Sync u) (abs b), x) (abs b', x') /\ parallelThreads b' = parallelThreads b.
Proof.
  intros Hwf Hx Hl Hd. cbn in Hl. rewrite (elem_running _ _ Hwf) in Hl. destruct Hl as [Hs Hu].
  destruct (sync_start b u Hwf Hu Hs) as [Hwf0 Ha0]. set (b0 := set_counts _ _ _) in *. cbv zeta in Hwf0, Ha0.
  destruct (tryWakeNext_spec b0 x Hwf0 Hd) as (b' & x' & E & Hwf' & Hx' & Hst & Hse & HP);
    [by rewrite Ha0|]. exists b', x'. rewrite Ha0 in Hst. split_and!; [|split; [done|by rewrite HP]|done|done|done].
  pose proof (core_tl _ _ _ _ (wf_core _ Hwf)) as Htl.
  unfold sync. rewrite rd_lt by lia. cbn [mbind outcome_bind]. change (state (threadList b !!! u)) with (st (threadList b) u).
  rewrite bool_decide_true by done. cbn [check mbind outcome_bind]. rewrite upd_thread_ok by done. exact E.
Qed.

Lemma settled_remove P a u : 1 <= P -> settled P a -> u ∉ running a -> settled P (acall (Leave u) a).
Proof.
  intros HP [H1 H2] Hu. unfold settled. cbn [todo running done acall]. rewrite (not_in_remove _ _ Hu). split.
  - destruct H1 as [H1|H1]; [left; set_solver|by right].
  - intros _ E. destruct H1 as [H1|H1]; [rewrite (H2 H1 E); set_solver|]. rewrite E, size_empty in H1. lia.
Qed.

Lemma leave_settles b u x : inv b -> I (acall (Leave u) (abs b), x) -> legal b (Leave u) -> draws_ok fuel b ->
  exists b' x', leave fuel callback u (b, x) = Ok (b', x') /\ inv b' /\ I (abs b', x') /\
    rtc (astep (parallelThreads b) callback) (acall (Leave u) (abs b), x) (abs b', x') /\ parallelThreads b' = parallelThreads b.
Proof.
  intros [Hwf Hse0] Hx Hl Hd. cbn in Hl. rewrite (elem_running _ _ Hwf), (elem_members _ _ Hwf) in Hl.
  pose proof (core_tl _ _ _ _ (wf_core _ Hwf)) as Htl.
  assert ((u < MAX_THREADS)%nat) as Hu by tauto.
  pose proof (leave_start b u Hwf Hu) as Hls.
  unfold leave. rewrite rd_lt by lia. cbn [mbind outcome_bind]. change (state (threadList b !!! u)) with (st (threadList b) u).
  case_bool_decide as Hs.
  - destruct Hls as [Hwf0 Ha0]; [by left|]. rewrite decide_True in Hwf0, Ha0 by done. set (b0 := set_counts _ _ _) in Hwf0, Ha0.
    rewrite upd_thread_ok by done. cbn [mbind outcome_bind].
    destruct (tryWakeNext_spec b0 x Hwf0 Hd) as (b' & x' & E & Hwf' & Hx' & Hst & Hse & HP);
      [by rewrite Ha0|]. exists b', x'. rewrite Ha0 in Hst. split_and!; [exact E|split; [done|by rewrite HP]|done|done|done].
  - assert (st (threadList b) u = WAITING) as Hw by tauto. rewrite bool_decide_true by done. cbn [check mbind outcome_bind].
    destruct Hls as [Hwf0 Ha0]; [right; tauto|]. rewrite decide_False in Hwf0, Ha0 by done. set (b0 := set_counts _ _ _) in Hwf0, Ha0.
    rewrite upd_thread_ok by done. cbn [mbind outcome_bind]. exists b0, x. rewrite <- Ha0 in Hx |- *.
    split_and!; [done| |done|done|done]. split; [done|]. rewrite Ha0.
    apply settled_remove; [apply (wf_limit _ Hwf)|done|]. rewrite (elem_running _ _ Hwf). tauto.
Qed.

Lemma call_settles b x c : inv b -> I (acall c (abs b), x) -> legal b c -> draws_ok fuel b ->
  exists b' x', run_call fuel callback c (b, x) = Ok (b', x') /\ inv b' /\ I (abs b', x') /\
    rtc (astep (parallelThreads b) callback) (acall c (abs b), x) (abs b', x') /\ parallelThreads b' = parallelThreads b.
Proof.
  intros Hi Hx Hl Hd. destruct c as [u|u|u]; cbn [run_call].
  - destruct (join_settles fuel callback b u x (proj1 Hi) Hl) as (b' & ? & ? & Hs & ? & _). exists b', x.
    split_and!; try done. by apply (laws_steps _ _ _ _ _ laws Hs).
  - by apply leave_settles.
  - by apply sync_settles; [apply Hi|..].
Qed.

(** States reached from the constructor by legal calls that return. *)
Inductive reachable (P : Z) (x0 : X) : Barrier.t * X -> Prop :=
  | reach_init garbage : I (ast ∅ ∅ ∅, x0) -> reachable P x0 (make P garbage, x0)
  | reach_call b x c b' x' : reachable P x0 (b, x) -> legal b c -> draws_ok fuel b ->
      I (acall c (abs b), x) ->
      run_call fuel callback c (b, x) = Ok (b', x') -> reachable P x0 (b', x').

Lemma reachable_inv P x0 b x : 1 <= P < max32 -> reachable P x0 (b, x) ->
  inv b /\ I (abs b, x) /\ parallelThreads b = P.
Proof.
  intros HP Hr. remember (b, x) as s eqn:Es. revert b x Es.
  induction Hr as [g HI|b x c b' x' _ IH Hl Hd HI E]; intros b2 x2 [= <- <-].
  - split_and!; [by apply make_inv|by rewrite make_abs|done].
  - destruct (IH _ _ eq_refl) as (Hi & Hx & EP). destruct (call_settles b x c Hi HI Hl Hd) as (b2 & x2 & E2 & Hi2 & Hx2 & _ & EP2).
    rewrite E in E2. simplify_eq. split_and!; [done|done|congruence].
Qed.

End settling.

End BarrierInv.

(** ** Properties *)

Module BarrierProps.
Import Barrier BarrierSpec BarrierInv.

Section contract.
Context {X : Type} (fuel : nat) (callback : X -> outcome X) (I : astate * X -> Prop).
Hypothesis laws : callback_laws callback I.

(** C15: A call of the barrier implements its abstract effect: it returns, keeps
    the invariant, and what it does after changing the caller's state is a run of
    the two rules (let a thread go on while fewer than the limit run; end the
    phase, through the callback, when every thread has run), until none
    applies. *)
Theorem barrier_refines b x c :
  inv b -> I (acall c (abs b), x) -> legal b c -> draws_ok fuel b ->
  exists b' x', run_call fuel callback c (b, x) = Ok (b', x') /\ inv b' /\ I (abs b', x') /\
    rtc (astep (parallelThreads b) callback) (acall c (abs b), x) (abs b', x') /\
    settled (parallelThreads b) (abs b').
Proof.
  intros Hi Hx Hl Hd. destruct (call_settles fuel callback I laws b x c Hi Hx Hl Hd) as (b' & x' & E & Hi' & Hx' & Hs & HP).
  exists b', x'. split_and!; [done..|]. rewrite <- HP. apply Hi'.
Qed.

(** C16: No deadlock: after any calls from the constructor, at most the limit of
    threads run, some thread runs if any is in the barrier, and exactly the
    running ones are let go by the futex they wait on. *)
Theorem barrier_progress P x0 b x :
  1 <= P < max32 -> reachable fuel callback I P x0 (b, x) ->
  Z.of_nat (size (running (abs b))) <= P /\
  (members (abs b) <> ∅ -> running (abs b) <> ∅) /\
  forall u, u ∈ members (abs b) -> resume u b = Ok (if decide (u ∈ running (abs b)) then Some tt else None).
Proof.
  intros HP Hr. destruct (reachable_inv fuel callback I laws P x0 b x HP Hr) as ([Hwf [Hs1 Hs2]] & _ & EP).
  pose proof (wf_limit _ Hwf) as Hlim. rewrite EP in *. split_and!.
  - rewrite abs_running, <- (wf_running _ Hwf). lia.
  - intros Hm E. destruct Hs1 as [Ht|Ht]; [|rewrite E, size_empty in Ht; lia].
    apply Hm. unfold members. rewrite Ht, E, (Hs2 Ht E). set_solver.
  - intros u Hu. rewrite (elem_members _ _ Hwf) in Hu. destruct Hu as [Hs Hu].
    pose proof (wf_core _ Hwf) as Hco. pose proof (core_tl _ _ _ _ Hco) as Htl.
    unfold resume. rewrite rd_lt by lia. cbn [mbind outcome_bind].
    change (state (threadList b !!! u)) with (st (threadList b) u). case_decide as Hd; rewrite (elem_running _ _ Hwf) in Hd.
    + rewrite (core_runs _ _ _ _ Hco u Hu) by tauto. rewrite bool_decide_false by done. by rewrite bool_decide_true by tauto.
    + rewrite bool_decide_true; [done|]. apply (core_waits _ _ _ _ Hco u Hu). tauto.
Qed.
End contract.

(** Joining never ends a phase (the note in [join]): with any callback, even
    one that fails, the call returns without calling it, and the thread is then
    in the barrier. *)
Theorem join_ends_no_phase {X} fuel (callback : X -> outcome X) b u x :
  inv b -> legal b (Join u) ->
  exists b', join fuel callback u (b, x) = Ok (b', x) /\ inv b' /\
    done (abs b') = done (abs b) /\ todo (abs b') ∪ running (abs b') = {[u]} ∪ (todo (abs b) ∪ running (abs b)).
Proof.
  intros Hi Hl.  destruct (join_settles fuel callback b u x (proj1 Hi) Hl) as (b' & E & Hi' & _ & _ & Hd & Ht).
  exists b'. by split_and!.
Qed.


(** ** Witnesses: two threads, one at a time *)

Definition after (cs : list call) : Barrier.t * nat :=
  match loop (fun s c => run_call 4 (fun n => Ok (S n)) c s) (make 1 (fun _ => 0%nat), 0%nat) cs with
  | Ok s => s
  | Fault _ => (make 1 (fun _ => 0%nat), 0%nat)
  end.

Definition demo : Barrier.t := fst (after [Join 0; Join 1]).

Definition always (_ : astate * nat) : Prop := True.

Lemma always_ok : callback_laws (fun n => Ok (S n)) always.
Proof. split; [done|]. intros D x _ _. by exists (S x). Qed.

Lemma small u : (u < 5)%nat -> (u < MAX_THREADS)%nat.
Proof. intros Hu. assert (MAX_THREADS = 2048%nat) as -> by reflexivity. lia. Qed.

Lemma demo_reachable : reachable 4 (fun n => Ok (S n)) always 1 0%nat (demo, 0%nat).
Proof.
  assert (1 <= 1 < max32) as HP by (rewrite max32_eq; lia).
  assert (reachable 4 (fun n => Ok (S n)) always 1 0%nat (fst (after [Join 0]), 0%nat)) as H1.
  { apply reach_call with (make 1 (fun _ => 0%nat)) 0%nat (Join 0); [by apply reach_init| | |done|by vm_compute].
    - split; [apply small; lia|]. rewrite (elem_members _ _ (proj1 (make_inv 1 _ HP))), st_make. intros [[?|?] _]; discriminate.
    - intros n Hn. cbn in Hn. lia. }
  destruct (reachable_inv 4 _ always always_ok 1 0%nat _ _ HP H1) as ([Hwf _] & _).
  apply reach_call with (fst (after [Join 0])) 0%nat (Join 1); [exact H1| | |done|by vm_compute].
  - split; [apply small; lia|]. rewrite (elem_members _ _ Hwf). intros [[E|E] _]; vm_compute in E; discriminate.
  - intros n Hn. vm_compute in Hn. assert (n = 0%nat) as -> by lia. by vm_compute.
Qed.

Lemma demo_inv : inv demo.
Proof.
  assert (1 <= 1 < max32) as HP by (rewrite max32_eq; lia).
  exact (proj1 (reachable_inv 4 _ always always_ok 1 0%nat _ _ HP demo_reachable)).
Qed.

Lemma demo_draws : draws_ok 4 demo.
Proof. intros n Hn. vm_compute in Hn. destruct n as [|[|n]]; [by vm_compute|by vm_compute|lia]. Qed.

Lemma demo_legal : legal demo (Sync 0).
Proof. cbn [legal]. rewrite (elem_running _ _ (proj1 demo_inv)). split; [by vm_compute|apply small; lia]. Qed.

Lemma demo_legal_join : legal demo (Join 2).
Proof.
  split; [apply small; lia|]. rewrite (elem_members _ _ (proj1 demo_inv)). intros [[E|E] _]; vm_compute in E; discriminate.
Qed.

Lemma barrier_refines_witness :
  exists b' x', run_call 4 (fun n => Ok (S n)) (Sync 0) (demo, 0%nat) = Ok (b', x') /\ inv b' /\ always (abs b', x') /\
    rtc (astep (parallelThreads demo) (fun n => Ok (S n))) (acall (Sync 0) (abs demo), 0%nat) (abs b', x') /\
    settled (parallelThreads demo) (abs b').
Proof.
  apply (barrier_refines 4 (fun n => Ok (S n)) always).
  - exact always_ok.
  - exact demo_inv.
  - exact I.
  - exact demo_legal.
  - exact demo_draws.
Defined.

Lemma barrier_progress_witness :
  Z.of_nat (size (running (abs demo))) <= 1 /\
  (members (abs demo) <> ∅ -> running (abs demo) <> ∅) /\
  forall u, u ∈ members (abs demo) -> resume u demo = Ok (if decide (u ∈ running (abs demo)) then Some tt else None).
Proof.
  apply (barrier_progress 4 (fun n => Ok (S n)) always always_ok 1 0%nat demo 0%nat).
  - rewrite max32_eq. lia.
  - exact demo_reachable.
Defined.

Lemma join_ends_no_phase_witness :
  exists b', join 4 (fun _ : nat => Fault Panicked) 2 (demo, 0%nat) = Ok (b', 0%nat) /\ inv b' /\
    done (abs b') = done (abs demo) /\
    todo (abs b') ∪ running (abs b') = {[2%nat]} ∪ (todo (abs demo) ∪ running (abs demo)).
Proof.
  apply (join_ends_no_phase 4 (fun _ : nat => Fault Panicked) demo 2 0%nat).
  - exact demo_inv.
  - exact demo_legal_join.
Defined.

End BarrierProps.
