(* ===== verification/Scheduler.v ===== *)
(** * The thread scheduler (src/src/scheduler.h, scheduler.cpp)

    Threads of the simulated processes, the contexts (cores) they run on, the
    queues between them, and the calls the instrumentation makes: start, finish,
    join, leave, sync, sleep marking, fake leaves.  A call runs with the
    scheduler lock held from its start to the point where it blocks or returns;
    what a blocked caller does later is an operation of its own
    ([sync_handoff], [resumeContext]).

    A [ThreadInfo*] is a key of the heap [threads].  An intrusive list is a
    list; the owner that its nodes record is the queue a thread is in.  The
    cores, the statistics objects and the simulator's end-of-phase function
    are the class [Env], acting on a state [X]. *)

From stdpp Require Import gmap sets.
From S2P Require Import Prelude MTRand Barrier.
Local Open Scope Z_scope.

Module Scheduler.

Inductive ThreadState := STARTED | RUNNING | OUT | BLOCKED | SLEEPING | QUEUED.
Inductive ContextState := IDLE | USED.
Inductive FutexJoinAction := FJA_NONE | FJA_WAKE | FJA_WAIT.

Global Instance ThreadState_eq_dec : EqDecision ThreadState.
Proof. solve_decision. Defined.
Global Instance ContextState_eq_dec : EqDecision ContextState.
Proof. solve_decision. Defined.
Global Instance FutexJoinAction_eq_dec : EqDecision FutexJoinAction.
Proof. solve_decision. Defined.

Record FutexJoinInfo := mkFJ { action : FutexJoinAction; maxWakes : Z; wokenUp : Z }.

Record FakeLeaveInfo := mkFL { fl_pc : Z; fl_syscallNumber : Z; fl_arg0 : Z; fl_arg1 : Z }.

Record ThreadInfo := mkThread {
  gid : Z;
  state : ThreadState;
  cid : nat;
  handoffThread : option nat;
  futexWord : Z;
  needsJoin : bool;
  markedForSleep : bool;
  wakeupPhase : Z;
  mask : list bool;
  fakeLeave : option FakeLeaveInfo;
  futexJoin : FutexJoinInfo }.

Record ContextInfo := mkContext { cstate : ContextState; curThread : option nat }.

(** The intrusive lists that thread nodes can be on. *)
Inductive qname := RunQ | OutQ | SleepQ.
Global Instance qname_eq_dec : EqDecision qname.
Proof. solve_decision. Defined.

Record queues := mkQueues { runQueue : list nat; outQueue : list nat; sleepQueue : list nat }.

(** Event counters; the vector counters are the histograms. *)
Record stats := mkStats {
  threadsCreated : Z; threadsFinished : Z; scheduleEvents : Z; waitEvents : Z;
  handoffEvents : Z; sleepEvents : Z; occHist : list Z; runQueueHist : list Z }.

Record t (X : Type) := mk {
  numCores : nat;
  schedQuantum : Z;
  threads : gmap nat ThreadInfo;
  nextThread : nat;
  gidMap : gmap Z nat;
  contexts : list ContextInfo;
  freeList : list nat;
  qs : queues;
  curPhase : Z;
  numPhases : Z;
  scheduledThreads : Z;
  fakeLeaves : list nat;
  blockingSyscalls : list (gset Z);
  maxAllowedFutexWakeups : Z;
  unmatchedFutexWakeups : Z;
  rnd : MTRand.t;
  stat : stats;
  ext : X }.
Arguments mk {X}. Arguments numCores {X}. Arguments schedQuantum {X}. Arguments threads {X}.
Arguments nextThread {X}. Arguments gidMap {X}. Arguments contexts {X}. Arguments freeList {X}.
Arguments qs {X}. Arguments curPhase {X}. Arguments numPhases {X}. Arguments scheduledThreads {X}.
Arguments fakeLeaves {X}. Arguments blockingSyscalls {X}. Arguments maxAllowedFutexWakeups {X}.
Arguments unmatchedFutexWakeups {X}. Arguments rnd {X}. Arguments stat {X}. Arguments ext {X}.

(** What the scheduler calls on the rest of the simulator. *)
Class Env (X : Type) := {
  atSyncFunc : X -> X;
  addPhaseCycles : X -> X;
  core_join : nat -> X -> X;
  core_leave : nat -> X -> X;
  core_contextSwitch : nat -> Z -> X -> X;
  procStats_notifyDeschedule : X -> X;
  notifyDeschedule : nat -> Z -> X -> X }.

Definition getGid (pid tid : Z) : Z := Z.lor (u32 (Z.shiftl pid 16)) tid.
Definition getPid (gid : Z) : Z := Z.shiftr gid 16.
Definition getTid (gid : Z) : Z := Z.land gid 0xFFFF.

(** *** Assignments *)

Section setters.
Context {X : Type}.
Implicit Type s : t X.

Definition set_threads (m : gmap nat ThreadInfo) s : t X :=
  mk (numCores s) (schedQuantum s) m (nextThread s) (gidMap s) (contexts s) (freeList s) (qs s) (curPhase s)
    (numPhases s) (scheduledThreads s) (fakeLeaves s) (blockingSyscalls s) (maxAllowedFutexWakeups s)
    (unmatchedFutexWakeups s) (rnd s) (stat s) (ext s).
Definition set_gids (m : gmap Z nat) (n : nat) s : t X :=
  mk (numCores s) (schedQuantum s) (threads s) n m (contexts s) (freeList s) (qs s) (curPhase s)
    (numPhases s) (scheduledThreads s) (fakeLeaves s) (blockingSyscalls s) (maxAllowedFutexWakeups s)
    (unmatchedFutexWakeups s) (rnd s) (stat s) (ext s).
Definition set_contexts (l : list ContextInfo) (n : Z) s : t X :=
  mk (numCores s) (schedQuantum s) (threads s) (nextThread s) (gidMap s) l (freeList s) (qs s) (curPhase s)
    (numPhases s) n (fakeLeaves s) (blockingSyscalls s) (maxAllowedFutexWakeups s)
    (unmatchedFutexWakeups s) (rnd s) (stat s) (ext s).
Definition set_freeList (l : list nat) s : t X :=
  mk (numCores s) (schedQuantum s) (threads s) (nextThread s) (gidMap s) (contexts s) l (qs s) (curPhase s)
    (numPhases s) (scheduledThreads s) (fakeLeaves s) (blockingSyscalls s) (maxAllowedFutexWakeups s)
    (unmatchedFutexWakeups s) (rnd s) (stat s) (ext s).
Definition set_qs (q : queues) s : t X :=
  mk (numCores s) (schedQuantum s) (threads s) (nextThread s) (gidMap s) (contexts s) (freeList s) q (curPhase s)
    (numPhases s) (scheduledThreads s) (fakeLeaves s) (blockingSyscalls s) (maxAllowedFutexWakeups s)
    (unmatchedFutexWakeups s) (rnd s) (stat s) (ext s).
Definition set_phases (c n : Z) s : t X :=
  mk (numCores s) (schedQuantum s) (threads s) (nextThread s) (gidMap s) (contexts s) (freeList s) (qs s) c
    n (scheduledThreads s) (fakeLeaves s) (blockingSyscalls s) (maxAllowedFutexWakeups s)
    (unmatchedFutexWakeups s) (rnd s) (stat s) (ext s).
Definition set_fakes (l : list nat) (b : list (gset Z)) s : t X :=
  mk (numCores s) (schedQuantum s) (threads s) (nextThread s) (gidMap s) (contexts s) (freeList s) (qs s) (curPhase s)
    (numPhases s) (scheduledThreads s) l b (maxAllowedFutexWakeups s)
    (unmatchedFutexWakeups s) (rnd s) (stat s) (ext s).
Definition set_wakeups (m u : Z) s : t X :=
  mk (numCores s) (schedQuantum s) (threads s) (nextThread s) (gidMap s) (contexts s) (freeList s) (qs s) (curPhase s)
    (numPhases s) (scheduledThreads s) (fakeLeaves s) (blockingSyscalls s) m u (rnd s) (stat s) (ext s).
Definition set_rnd (g : MTRand.t) s : t X :=
  mk (numCores s) (schedQuantum s) (threads s) (nextThread s) (gidMap s) (contexts s) (freeList s) (qs s) (curPhase s)
    (numPhases s) (scheduledThreads s) (fakeLeaves s) (blockingSyscalls s) (maxAllowedFutexWakeups s)
    (unmatchedFutexWakeups s) g (stat s) (ext s).
Definition set_stat (f : stats -> stats) s : t X :=
  mk (numCores s) (schedQuantum s) (threads s) (nextThread s) (gidMap s) (contexts s) (freeList s) (qs s) (curPhase s)
    (numPhases s) (scheduledThreads s) (fakeLeaves s) (blockingSyscalls s) (maxAllowedFutexWakeups s)
    (unmatchedFutexWakeups s) (rnd s) (f (stat s)) (ext s).
Definition set_ext (f : X -> X) s : t X :=
  mk (numCores s) (schedQuantum s) (threads s) (nextThread s) (gidMap s) (contexts s) (freeList s) (qs s) (curPhase s)
    (numPhases s) (scheduledThreads s) (fakeLeaves s) (blockingSyscalls s) (maxAllowedFutexWakeups s)
    (unmatchedFutexWakeups s) (rnd s) (stat s) (f (ext s)).

Definition queue (n : qname) s : list nat :=
  match n with RunQ => runQueue (qs s) | OutQ => outQueue (qs s) | SleepQ => sleepQueue (qs s) end.
Definition set_queue (n : qname) (l : list nat) s : t X :=
  set_qs (match n with
          | RunQ => mkQueues l (outQueue (qs s)) (sleepQueue (qs s))
          | OutQ => mkQueues (runQueue (qs s)) l (sleepQueue (qs s))
          | SleepQ => mkQueues (runQueue (qs s)) (outQueue (qs s)) l
          end) s.
End setters.

Definition with_state (st : ThreadState) (th : ThreadInfo) : ThreadInfo :=
  mkThread (gid th) st (cid th) (handoffThread th) (futexWord th) (needsJoin th) (markedForSleep th)
    (wakeupPhase th) (mask th) (fakeLeave th) (futexJoin th).
Definition with_place (st : ThreadState) (c : nat) (th : ThreadInfo) : ThreadInfo :=
  mkThread (gid th) st c (handoffThread th) (futexWord th) (needsJoin th) (markedForSleep th)
    (wakeupPhase th) (mask th) (fakeLeave th) (futexJoin th).
Definition with_handoff (h : option nat) (th : ThreadInfo) : ThreadInfo :=
  mkThread (gid th) (state th) (cid th) h (futexWord th) (needsJoin th) (markedForSleep th)
    (wakeupPhase th) (mask th) (fakeLeave th) (futexJoin th).
Definition with_futexWord (w : Z) (j : bool) (th : ThreadInfo) : ThreadInfo :=
  mkThread (gid th) (state th) (cid th) (handoffThread th) w j (markedForSleep th)
    (wakeupPhase th) (mask th) (fakeLeave th) (futexJoin th).
Definition with_sleep (m : bool) (p w : Z) (th : ThreadInfo) : ThreadInfo :=
  mkThread (gid th) (state th) (cid th) (handoffThread th) w (needsJoin th) m
    p (mask th) (fakeLeave th) (futexJoin th).
Definition with_fakeLeave (f : option FakeLeaveInfo) (th : ThreadInfo) : ThreadInfo :=
  mkThread (gid th) (state th) (cid th) (handoffThread th) (futexWord th) (needsJoin th) (markedForSleep th)
    (wakeupPhase th) (mask th) f (futexJoin th).
Definition with_futexJoin (j : FutexJoinInfo) (th : ThreadInfo) : ThreadInfo :=
  mkThread (gid th) (state th) (cid th) (handoffThread th) (futexWord th) (needsJoin th) (markedForSleep th)
    (wakeupPhase th) (mask th) (fakeLeave th) j.

(** *** Counters *)

Definition inc_threadsCreated (x : stats) : stats :=
  mkStats (threadsCreated x +64 1) (threadsFinished x) (scheduleEvents x) (waitEvents x) (handoffEvents x) (sleepEvents x) (occHist x) (runQueueHist x).
Definition inc_threadsFinished (x : stats) : stats :=
  mkStats (threadsCreated x) (threadsFinished x +64 1) (scheduleEvents x) (waitEvents x) (handoffEvents x) (sleepEvents x) (occHist x) (runQueueHist x).
Definition inc_scheduleEvents (x : stats) : stats :=
  mkStats (threadsCreated x) (threadsFinished x) (scheduleEvents x +64 1) (waitEvents x) (handoffEvents x) (sleepEvents x) (occHist x) (runQueueHist x).
Definition inc_waitEvents (x : stats) : stats :=
  mkStats (threadsCreated x) (threadsFinished x) (scheduleEvents x) (waitEvents x +64 1) (handoffEvents x) (sleepEvents x) (occHist x) (runQueueHist x).
Definition inc_handoffEvents (x : stats) : stats :=
  mkStats (threadsCreated x) (threadsFinished x) (scheduleEvents x) (waitEvents x) (handoffEvents x +64 1) (sleepEvents x) (occHist x) (runQueueHist x).
Definition inc_sleepEvents (x : stats) : stats :=
  mkStats (threadsCreated x) (threadsFinished x) (scheduleEvents x) (waitEvents x) (handoffEvents x) (sleepEvents x +64 1) (occHist x) (runQueueHist x).
Definition set_hists (o r : list Z) (x : stats) : stats :=
  mkStats (threadsCreated x) (threadsFinished x) (scheduleEvents x) (waitEvents x) (handoffEvents x) (sleepEvents x) o r.

(** ** Operations *)

Section ops.
Context {X : Type} `{Env X}.
Notation M := (ST (t X)).

Definition getTh (p : nat) : M ThreadInfo :=
  s ← get; lift (match threads s !! p with Some th => Ok th | None => Fault OutOfRange end).
Definition setTh (p : nat) (f : ThreadInfo -> ThreadInfo) : M unit :=
  th ← getTh p; modify (fun s => set_threads (<[p := f th]> (threads s)) s).
Definition getCtx (c : nat) : M ContextInfo := s ← get; lift (rd (contexts s) c).

(** The list a thread's node is on, [None] when its owner is null. *)
Definition owner (p : nat) (s : t X) : option qname :=
  if bool_decide (p ∈ queue RunQ s) then Some RunQ
  else if bool_decide (p ∈ queue OutQ s) then Some OutQ
  else if bool_decide (p ∈ queue SleepQ s) then Some SleepQ else None.

Definition push_back (n : qname) (p : nat) : M unit :=
  s ← get; _ ← assertS (bool_decide (owner p s = None)); put (set_queue n (queue n s ++ [p]) s).
Definition push_front (n : qname) (p : nat) : M unit :=
  s ← get; _ ← assertS (bool_decide (owner p s = None)); put (set_queue n (p :: queue n s) s).
Definition remove (n : qname) (p : nat) : M unit :=
  s ← get; _ ← assertS (bool_decide (owner p s = Some n)); put (set_queue n (filter (fun x => x <> p) (queue n s)) s).
Definition insertAfter (n : qname) (prev p : nat) : M unit :=
  s ← get; _ ← assertS (bool_decide (owner p s = None)); _ ← assertS (bool_decide (owner prev s = Some n));
  put (set_queue n (flat_map (fun x => if bool_decide (x = prev) then [x; p] else [x]) (queue n s)) s).

Definition free_push_back (c : nat) : M unit :=
  s ← get; _ ← assertS (bool_decide (c ∉ freeList s)); put (set_freeList (freeList s ++ [c]) s).
Definition free_remove (c : nat) : M unit :=
  s ← get; _ ← assertS (bool_decide (c ∈ freeList s)); put (set_freeList (filter (fun x => x <> c) (freeList s)) s).

(** *** Contexts *)

Definition schedule (p c : nat) : M unit :=
  th ← getTh p;
  ctx ← getCtx c;
  _ ← assertS (bool_decide (state th = STARTED \/ state th = BLOCKED \/ state th = QUEUED));
  _ ← assertS (bool_decide (cstate ctx = IDLE));
  _ ← assertS (bool_decide (curThread ctx = None));
  _ ← setTh p (with_place RUNNING c);
  _ ← modify (fun s => set_contexts (<[c := mkContext USED (Some p)]> (contexts s)) (scheduledThreads s +32 1) s);
  _ ← modify (set_stat inc_scheduleEvents);
  modify (set_ext (core_contextSwitch c (gid th))).

Definition deschedule (p c : nat) (targetState : ThreadState) : M unit :=
  th ← getTh p;
  ctx ← getCtx c;
  _ ← assertS (bool_decide (state th = RUNNING \/ state th = OUT));
  _ ← assertS (bool_decide (cstate ctx = USED));
  _ ← assertS (bool_decide (c = cid th));
  _ ← assertS (bool_decide (curThread ctx = Some p));
  _ ← assertS (bool_decide (targetState = BLOCKED \/ targetState = QUEUED \/ targetState = SLEEPING));
  _ ← modify (set_ext procStats_notifyDeschedule);
  _ ← setTh p (with_state targetState);
  _ ← modify (fun s => set_contexts (<[c := mkContext IDLE None]> (contexts s)) (scheduledThreads s -32 1) s);
  _ ← modify (set_ext (core_contextSwitch c (-1)));
  modify (set_ext (notifyDeschedule c (getPid (gid th)))).

(** The part of [waitForContext] under the lock. *)
Definition waitForContext (p : nat) : M unit :=
  _ ← setTh p (fun th => with_futexWord 1 (needsJoin th) th); modify (set_stat inc_waitEvents).

Definition wakeup (p : nat) (join : bool) : M unit :=
  th ← getTh p;
  if bool_decide (futexWord th = 1) then setTh p (with_futexWord 0 join) else throw Panicked.

(** The first context of a list that a mask allows. *)
Fixpoint first_allowed (m : list bool) (l : list nat) : outcome (option nat) :=
  match l with
  | [] => mret None
  | c :: l' => b ← rd m c; if (b : bool) then mret (Some c) else first_allowed m l'
  end.

(** The first thread of a queue whose context the mask allows. *)
Fixpoint first_out (m : list bool) (l : list nat) : M (option nat) :=
  match l with
  | [] => mret None
  | p :: l' => th ← getTh p; b ← lift (rd m (cid th)); if (b : bool) then mret (Some p) else first_out m l'
  end.

(** The first thread of a queue that may run on a context. *)
Fixpoint first_for (c : nat) (l : list nat) : M (option nat) :=
  match l with
  | [] => mret None
  | p :: l' => th ← getTh p; b ← lift (rd (mask th) c); if (b : bool) then mret (Some p) else first_for c l'
  end.

Definition steal_out (th : ThreadInfo) : M (option nat) :=
  s ← get;
  o ← first_out (mask th) (queue OutQ s);
  match o with
  | None => mret None
  | Some p =>
      out ← getTh p;
      _ ← remove OutQ p;
      _ ← deschedule p (cid out) BLOCKED;
      mret (Some (cid out))
  end.

Definition schedThread (p : nat) : M (option nat) :=
  s ← get;
  th ← getTh p;
  _ ← assertS (bool_decide (cid th < numCores s)%nat);
  last ← getCtx (cid th);
  m ← (if bool_decide (cstate last = IDLE) then lift (rd (mask th) (cid th)) else mret false);
  ctx ← (if (m : bool) then _ ← free_remove (cid th); mret (Some (cid th))
         else
           c ← lift (first_allowed (mask th) (freeList s));
           match c with
           | Some c => _ ← free_remove c; mret (Some c)
           | None => steal_out th
           end);
  match ctx with
  | None => mret None
  | Some c => b ← lift (rd (mask th) c); _ ← assertS b; mret (Some c)
  end.

Definition schedContext (c : nat) : M (option nat) :=
  s ← get;
  o ← first_for c (queue RunQ s);
  match o with
  | None => mret None
  | Some p => _ ← remove RunQ p; mret (Some p)
  end.

(** *** The end of a quantum *)

Section Tick.
Context (fuel : nat).

Fixpoint shuffle (i : nat) (l : list nat) (g : MTRand.t) : outcome (list nat * MTRand.t) :=
  match i with
  | O => mret (l, g)
  | S i' =>
      '(j, g) ← MTRand.randIntN fuel g (Z.of_nat i);
      a ← rd l i;
      b ← rd l (Z.to_nat j);
      l ← wr l i b;
      l ← wr l (Z.to_nat j) a;
      shuffle i' l g
  end.

(** One thread of the run queue: the first available context it may run on is
    marked for handoff by its current thread. *)
Definition tick_thread (p : nat) (avail : list nat) : M (list nat) :=
  th ← getTh p;
  c ← lift (first_allowed (mask th) avail);
  match c with
  | None => mret avail
  | Some c =>
      ctx ← getCtx c;
      match curThread ctx with
      | None => throw AssertFailed
      | Some v =>
          _ ← setTh v (with_handoff (Some p));
          _ ← remove RunQ p;
          mret (filter (fun x => x <> c) avail)
      end
  end.

Fixpoint tick_loop (l : list nat) (avail : list nat) : M unit :=
  match l with
  | [] => mret tt
  | p :: l' =>
      if bool_decide (avail = []) then mret tt
      else avail ← tick_thread p avail; tick_loop l' avail
  end.

Definition schedTick : M unit :=
  s ← get;
  '(avail, g) ← lift (shuffle (numCores s - 1) (seq 0 (numCores s)) (rnd s));
  _ ← modify (set_rnd g);
  s ← get;
  tick_loop (queue RunQ s) avail.

(** *** The end of a phase: the barrier's callback *)

Fixpoint wake_sleepers (l : list nat) : M unit :=
  match l with
  | [] => mret tt
  | p :: l' =>
      th ← getTh p;
      s ← get;
      if wakeupPhase th <=? curPhase s then
        _ ← assertS (bool_decide (wakeupPhase th = curPhase s));
        _ ← setTh p (with_state BLOCKED);
        _ ← wakeup p false;
        s ← get;
        _ ← put (set_queue SleepQ (tail (queue SleepQ s)) s);
        wake_sleepers l'
      else mret tt
  end.

Definition callback : M unit :=
  s ← get;
  _ ← assertS (scheduledThreads s <=? Z.of_nat (numCores s));
  occ ← lift (upd (occHist (stat s)) (Z.to_nat (scheduledThreads s)) (fun x => x +64 1));
  let last := (length (runQueueHist (stat s)) - 1)%nat in
  let size := length (queue RunQ s) in
  let rqPos := if (size <? last)%nat then size else last in
  rq ← lift (upd (runQueueHist (stat s)) rqPos (fun x => x +64 1));
  _ ← modify (set_stat (set_hists occ rq));
  _ ← modify (set_ext atSyncFunc);
  _ ← modify (set_ext addPhaseCycles);
  _ ← modify (fun s => set_phases (curPhase s +64 1) (numPhases s +64 1) s);
  s ← get;
  _ ← assertS (bool_decide (curPhase s = numPhases s));
  _ ← wake_sleepers (queue SleepQ s);
  s ← get;
  if bool_decide (queue RunQ s = []) then mret tt
  else if bool_decide (schedQuantum s = 0) then throw Panicked
  else whenS (bool_decide (curPhase s `mod` schedQuantum s = 0)) schedTick.

Definition barCallback (s : t X) : outcome (t X) :=
  match callback s with Ok (_, s') => Ok s' | Fault e => Fault e end.

(** *** Calls of the threads, with the barrier *)

Notation MB := (ST (Barrier.t * t X)).

Definition onS {A} (m : M A) : MB A := fun '(b, s) =>
  match m s with Ok (a, s') => Ok (a, (b, s')) | Fault e => Fault e end.
Definition bar_join (c : nat) : MB unit := fun s =>
  match Barrier.join fuel barCallback c s with Ok s' => Ok (tt, s') | Fault e => Fault e end.
Definition bar_leave (c : nat) : MB unit := fun s =>
  match Barrier.leave fuel barCallback c s with Ok s' => Ok (tt, s') | Fault e => Fault e end.
Definition bar_sync (c : nat) : MB unit := fun s =>
  match Barrier.sync fuel barCallback c s with Ok s' => Ok (tt, s') | Fault e => Fault e end.

Definition core_join_at (c : nat) : M unit := modify (set_ext (core_join c)).

(** The thread of a gid: a missing one is an assertion of [join] and [finish],
    and a null pointer for the others. *)
Definition find_gid (e : fault) (g : Z) : M nat :=
  s ← get; lift (match gidMap s !! g with Some p => Ok p | None => Fault e end).
Definition lookup_gid : Z -> M nat := find_gid AssertFailed.
Definition deref_gid : Z -> M nat := find_gid OutOfRange.

Definition ThreadInfo_new (g : Z) (m : list bool) : M ThreadInfo :=
  s ← get;
  _ ← assertS (bool_decide (length m = numCores s));
  _ ← (if existsb id m then mret tt else throw Panicked);
  mret (mkThread g STARTED 0 None 0 false false 0 m None (mkFJ FJA_NONE 0 0)).

Definition start (pid tid : Z) (m : list bool) : M unit :=
  s ← get;
  let g := getGid pid tid in
  _ ← assertS (bool_decide (gidMap s !! g = None));
  th ← ThreadInfo_new g m;
  let p := nextThread s in
  _ ← put (set_gids (<[g := p]> (gidMap s)) (S p) (set_threads (<[p := th]> (threads s)) s));
  modify (set_stat inc_threadsCreated).

Definition finishFakeLeave (p : nat) : M unit :=
  th ← getTh p;
  _ ← assertS (bool_decide (fakeLeave th <> None));
  _ ← assertS (bool_decide (state th = RUNNING));
  s ← get;
  _ ← assertS (bool_decide (p ∈ fakeLeaves s));
  _ ← put (set_fakes (filter (fun x => x <> p) (fakeLeaves s)) (blockingSyscalls s) s);
  setTh p (with_fakeLeave None).

Definition futexWaitJoin (p : nat) : M unit :=
  th ← getTh p;
  _ ← assertS (bool_decide (action (futexJoin th) = FJA_WAIT));
  s ← get;
  if maxAllowedFutexWakeups s <=? unmatchedFutexWakeups s then mret tt
  else put (set_wakeups (maxAllowedFutexWakeups s) (unmatchedFutexWakeups s +32 1) s).

(** Wakes not matched at once are not waited for: the branch taken is the
    time-out. *)
Definition futexWakeJoin (p : nat) : M unit :=
  th ← getTh p;
  let j := futexJoin th in
  _ ← assertS (bool_decide (action j = FJA_WAKE));
  s ← get;
  _ ← assertS (maxWakes j <=? maxAllowedFutexWakeups s);
  _ ← assertS (wokenUp j <=? maxWakes j);
  let allowed := maxAllowedFutexWakeups s -32 (maxWakes j -32 wokenUp j) in
  _ ← assertS (unmatchedFutexWakeups s <=? allowed);
  put (set_wakeups (allowed -32 wokenUp j)
         (if wokenUp j <=? unmatchedFutexWakeups s then unmatchedFutexWakeups s -32 wokenUp j else 0) s).

Definition futex_join (p : nat) : M unit :=
  th ← getTh p;
  match action (futexJoin th) with
  | FJA_NONE => mret tt
  | FJA_WAIT => _ ← futexWaitJoin p; setTh p (fun th => with_futexJoin (mkFJ FJA_NONE (maxWakes (futexJoin th)) (wokenUp (futexJoin th))) th)
  | FJA_WAKE => _ ← futexWakeJoin p; setTh p (fun th => with_futexJoin (mkFJ FJA_NONE (maxWakes (futexJoin th)) (wokenUp (futexJoin th))) th)
  end.

(** How [join] ends: with a context at once (a fake leave), in the barrier on a
    context, or waiting for a context. *)
Inductive joined := JoinedAt (c : nat) | InBarrier (c : nat) | WaitsForContext.

Definition place (p : nat) : MB joined :=
  o ← onS (schedThread p);
  match o with
  | Some c =>
      _ ← onS (schedule p c);
      _ ← onS (core_join_at c);
      _ ← bar_join c;
      mret (InBarrier c)
  | None =>
      _ ← onS (setTh p (with_state QUEUED));
      _ ← onS (push_back RunQ p);
      _ ← onS (waitForContext p);
      mret WaitsForContext
  end.

Definition join (pid tid : Z) : MB joined :=
  p ← onS (lookup_gid (getGid pid tid));
  _ ← onS (futex_join p);
  th ← onS (getTh p);
  match fakeLeave th with
  | Some _ => _ ← onS (finishFakeLeave p); mret (JoinedAt (cid th))
  | None =>
      _ ← onS (assertS (negb (markedForSleep th)));
      _ ← onS (whenS (bool_decide (state th = SLEEPING))
                 (_ ← remove SleepQ p; setTh p (with_state BLOCKED)));
      th ← onS (getTh p);
      if bool_decide (state th = OUT) then
        _ ← onS (setTh p (with_state RUNNING));
        _ ← onS (remove OutQ p);
        _ ← onS (core_join_at (cid th));
        _ ← bar_join (cid th);
        mret (InBarrier (cid th))
      else
        _ ← onS (assertS (bool_decide (state th = BLOCKED \/ state th = STARTED)));
        place p
  end.

(** The rest of [waitForContext], once the futex lets the thread go ([None]
    while it blocks). *)
Definition resumeContext (p : nat) : MB (option nat) :=
  th ← onS (getTh p);
  if bool_decide (futexWord th = 1) then mret None
  else if needsJoin th then _ ← onS (core_join_at (cid th)); _ ← bar_join (cid th); mret (Some (cid th))
  else mret (Some (cid th)).

(** The place in the sleep queue: before a later front, or after the last thread
    of the queue's first stretch that is not later. *)
Fixpoint sleep_after (ph : Z) (cur : nat) (l : list nat) : M nat :=
  match l with
  | [] => mret cur
  | q :: l' => th ← getTh q; if wakeupPhase th <=? ph then sleep_after ph q l' else mret cur
  end.

Definition sleep_insert (p : nat) (ph : Z) : M unit :=
  s ← get;
  match queue SleepQ s with
  | [] => push_front SleepQ p
  | q :: l =>
      th ← getTh q;
      if ph <? wakeupPhase th then push_front SleepQ p
      else cur ← sleep_after ph q l; insertAfter SleepQ cur p
  end.

(** A queued thread takes over a context whose thread just left it. *)
Definition take_over (q c : nat) : M unit :=
  _ ← schedule q c; _ ← core_join_at c; wakeup q false.

Definition leave (pid tid : Z) (c : nat) : MB unit :=
  ctx ← onS (getCtx c);
  p ← onS (lift (match curThread ctx with Some p => Ok p | None => Fault OutOfRange end));
  th ← onS (getTh p);
  _ ← onS (assertS (bool_decide (gid th = getGid pid tid)));
  _ ← onS (assertS (bool_decide (state th = RUNNING)));
  _ ← onS (modify (set_ext (core_leave c)));
  if markedForSleep th then
    _ ← onS (setTh p (fun th => with_sleep false (wakeupPhase th) (futexWord th) th));
    _ ← onS (deschedule p c SLEEPING);
    _ ← onS (sleep_insert p (wakeupPhase th));
    _ ← onS (modify (set_stat inc_sleepEvents));
    o ← onS (schedContext c);
    match o with
    | Some q => onS (take_over q c)
    | None => _ ← onS (free_push_back c); bar_leave c
    end
  else
    o ← onS (schedContext c);
    match o with
    | Some q => _ ← onS (deschedule p c BLOCKED); onS (take_over q c)
    | None =>
        _ ← onS (setTh p (with_state OUT));
        _ ← onS (push_back OutQ p);
        bar_leave c
    end.

Definition sync (c : nat) : MB unit :=
  ctx ← onS (getCtx c);
  p ← onS (lift (match curThread ctx with Some p => Ok p | None => Fault OutOfRange end));
  th ← onS (getTh p);
  _ ← onS (assertS (negb (markedForSleep th)));
  bar_sync c.

(** What [sync] does once the barrier lets the thread go: hand its context over
    if it was told to. *)
Definition sync_handoff (p : nat) : MB joined :=
  th ← onS (getTh p);
  match handoffThread th with
  | None => _ ← onS (assertS (bool_decide (state th = RUNNING))); mret (JoinedAt (cid th))
  | Some dst =>
      _ ← onS (setTh p (with_handoff None));
      let c := cid th in
      _ ← onS (deschedule p c QUEUED);
      _ ← onS (schedule dst c);
      _ ← onS (wakeup dst false);
      _ ← onS (modify (set_stat inc_handoffEvents));
      o ← onS (schedThread p);
      match o with
      | Some c =>
          _ ← onS (schedule p c);
          _ ← onS (core_join_at c);
          _ ← bar_join c;
          mret (InBarrier c)
      | None =>
          _ ← onS (push_back RunQ p);
          _ ← onS (waitForContext p);
          mret WaitsForContext
      end
  end.

Definition finish (pid tid : Z) : MB unit :=
  p ← onS (lookup_gid (getGid pid tid));
  _ ← onS (modify (fun s => set_gids (delete (getGid pid tid) (gidMap s)) (nextThread s) s));
  th ← onS (getTh p);
  _ ← (if bool_decide (fakeLeave th <> None) then _ ← onS (finishFakeLeave p); leave pid tid (cid th) else mret tt);
  th ← onS (getTh p);
  _ ← (if bool_decide (state th = RUNNING) then leave pid tid (cid th) else mret tt);
  th ← onS (getTh p);
  _ ← onS (assertS (bool_decide (state th = STARTED \/ state th = OUT \/ state th = BLOCKED \/ state th = QUEUED)));
  s ← onS get;
  _ ← onS (if bool_decide (state th = QUEUED) then
             _ ← assertS (bool_decide (owner p s = Some RunQ)); remove RunQ p
           else if bool_decide (owner p s <> None) then
             _ ← assertS (bool_decide (owner p s = Some OutQ));
             _ ← remove OutQ p;
             _ ← deschedule p (cid th) BLOCKED;
             free_push_back (cid th)
           else mret tt);
  _ ← onS (modify (fun s => set_threads (delete p (threads s)) s));
  onS (modify (set_stat inc_threadsFinished)).

(** *** Sleeping *)

Definition markForSleep (pid tid : Z) (ph : Z) : M unit :=
  p ← deref_gid (getGid pid tid);
  th ← getTh p;
  _ ← assertS (negb (markedForSleep th));
  setTh p (with_sleep true ph 1).

Definition isSleeping (pid tid : Z) : M bool :=
  p ← deref_gid (getGid pid tid);
  th ← getTh p;
  mret (bool_decide (state th = SLEEPING)).

Definition notifySleepEnd (pid tid : Z) : M unit :=
  p ← deref_gid (getGid pid tid);
  th ← getTh p;
  _ ← assertS (negb (markedForSleep th));
  _ ← assertS (bool_decide (state th = SLEEPING \/ state th = BLOCKED));
  whenS (bool_decide (state th = SLEEPING)) (_ ← remove SleepQ p; setTh p (with_state BLOCKED)).

(** A process that ended abruptly: all its threads are finished. *)
Definition cleanup_thread (pid tid : Z) : MB unit :=
  b ← onS (isSleeping pid tid);
  _ ← (if (b : bool) then onS (notifySleepEnd pid tid) else mret tt);
  finish pid tid.

Definition processCleanup (pid : Z) : MB unit :=
  s ← onS get;
  for_each (cleanup_thread pid)
    (getTid <$> filter (fun g => getPid g = pid) (fst <$> map_to_list (gidMap s))).

Definition getScheduledPid (c : nat) : M Z :=
  ctx ← getCtx c;
  match cstate ctx, curThread ctx with
  | USED, Some p => th ← getTh p; mret (getPid (gid th))
  | USED, None => throw OutOfRange
  | IDLE, _ => mret (u32 (-1))
  end.

(** *** Fake leaves and futex matching *)

Definition syscallLeave (pid tid : Z) (c : nat) (pc : Z) (syscallNumber arg0 arg1 : Z) : MB unit :=
  ctx ← onS (getCtx c);
  p ← onS (lift (match curThread ctx with Some p => Ok p | None => Fault OutOfRange end));
  th ← onS (getTh p);
  _ ← onS (assertS (bool_decide (gid th = getGid pid tid)));
  _ ← onS (assertS (bool_decide (cid th = c)));
  _ ← onS (assertS (bool_decide (state th = RUNNING)));
  s ← onS get;
  bl ← onS (lift (match blockingSyscalls s !! Z.to_nat pid with Some b => Ok b | None => Fault AssertFailed end));
  if bool_decide (pc ∈ bl) || markedForSleep th then leave pid tid c
  else
    _ ← onS (assertS (bool_decide (fakeLeave th = None)));
    _ ← onS (setTh p (with_fakeLeave (Some (mkFL pc syscallNumber arg0 arg1))));
    onS (modify (fun s => set_fakes (fakeLeaves s ++ [p]) (blockingSyscalls s) s)).

Definition notifyFutexWakeStart (pid tid maxW : Z) : M unit :=
  p ← deref_gid (getGid pid tid);
  th ← getTh p;
  _ ← assertS (bool_decide (action (futexJoin th) = FJA_NONE));
  let w := Z.min maxW (Z.shiftl 1 24) in
  _ ← modify (fun s => set_wakeups (maxAllowedFutexWakeups s +32 w) (unmatchedFutexWakeups s) s);
  setTh p (fun th => with_futexJoin (mkFJ (action (futexJoin th)) w (wokenUp (futexJoin th))) th).

Definition notifyFutexWakeEnd (pid tid woken : Z) : M unit :=
  p ← deref_gid (getGid pid tid);
  setTh p (fun th => with_futexJoin (mkFJ FJA_WAKE (maxWakes (futexJoin th)) woken) th).

Definition notifyFutexWaitWoken (pid tid : Z) : M unit :=
  p ← deref_gid (getGid pid tid);
  setTh p (with_futexJoin (mkFJ FJA_WAIT 0 0)).

End Tick.
End ops.

(** The constructor: all contexts idle and free. *)
Definition make {X} (n : nat) (quantum : Z) (x : X) : t X :=
  mk n quantum ∅ 0 ∅ (replicate n (mkContext IDLE None)) (seq 0 n) (mkQueues [] [] []) 0 0 0 []
    (replicate MAX_THREADS ∅) 0 0 (MTRand.seed 0x5C73D9134)
    (mkStats 0 0 0 0 0 0 (replicate (S n) 0) (replicate (S (Nat.max n 16)) 0)) x.

End Scheduler.
