(* ===== verification/SchedulerInv.v ===== *)
(** * The invariant of the scheduler

    What holds of threads, contexts and queues when the scheduler lock is free,
    and how each primitive step of a call changes it.  The contexts [F] and the
    threads [G] are in flight: taken from their list by the call that is running,
    not yet put back.  [M] are the contexts whose thread runs, which are those
    in the barrier. *)

From stdpp Require Import gmap sets sorting.
From S2P Require Import Prelude MTRand Barrier Scheduler.
Local Open Scope Z_scope.

Module SchedulerInv.
Import Scheduler.

Definition qstate (n : qname) : ThreadState :=
  match n with RunQ => QUEUED | OutQ => OUT | SleepQ => SLEEPING end.

Notation idle := (mkContext IDLE None).
Notation used p := (mkContext USED (Some p)).

(** Set goals that need no quantified hypothesis. *)
Ltac qset :=
  repeat match goal with H : forall _ : ?A, _ |- _ => lazymatch type of A with Prop => fail | _ => clear H end end;
  set_solver.

(** Projections of an updated state. *)
Ltac proj := cbn [set_contexts set_threads set_gids set_freeList set_qs set_queue set_phases set_fakes
  set_wakeups set_rnd set_stat set_ext contexts threads freeList qs runQueue outQueue sleepQueue nextThread numCores
  curPhase numPhases scheduledThreads fakeLeaves gidMap schedQuantum rnd stat ext occHist runQueueHist] in *.

(** The number of contexts in use. *)
Definition busy (l : list ContextInfo) : nat := length (filter (fun x => cstate x = USED) l).

Lemma busy_insert l c x y : l !! c = Some x ->
  (busy (<[c := y]> l) + (if decide (cstate x = USED) then 1 else 0) =
   busy l + (if decide (cstate y = USED) then 1 else 0))%nat.
Proof.
  intros Hx. pose proof (lookup_lt_Some _ _ _ Hx) as Hc. unfold busy.
  rewrite insert_take_drop by done. rewrite <- (take_drop_middle l c x Hx) at 3.
  rewrite !filter_app, !filter_cons, !length_app. repeat case_decide; cbn [length]; lia.
Qed.

Lemma busy_le l : (busy l <= length l)%nat.
Proof. apply length_filter. Qed.

Section inv.
Context {X : Type}.
Implicit Type s : t X.

Definition placed (th : ThreadInfo) : Prop := state th = RUNNING \/ state th = OUT.

(** A context that a queued thread could be given. *)
Definition available (c : nat) s : Prop :=
  c ∈ freeList s \/ exists o tho, o ∈ queue OutQ s /\ threads s !! o = Some tho /\ cid tho = c.

Definition handed (q : nat) s : Prop :=
  exists v thv, threads s !! v = Some thv /\ handoffThread thv = Some q.

Record thread_ok (s : t X) (p : nat) (th : ThreadInfo) : Prop := {
  to_cid : (cid th < numCores s)%nat;
  to_mask : length (mask th) = numCores s;
  to_fresh : (p < nextThread s)%nat;
  to_mark : markedForSleep th = true ->
    state th = RUNNING /\ futexWord th = 1 /\ curPhase s < wakeupPhase th < max64;
  to_sleep : state th = SLEEPING -> curPhase s < wakeupPhase th < max64;
  to_fake : fakeLeave th <> None -> p ∈ fakeLeaves s /\ state th = RUNNING }.

Record sinv (M F G : gset nat) (s : t X) : Prop := {
  si_cores : (numCores s <= MAX_THREADS)%nat;
  si_len : length (contexts s) = numCores s;
  si_ctx c x : contexts s !! c = Some x -> x = idle \/
    exists p th, x = used p /\ threads s !! p = Some th /\ cid th = c /\ placed th;
  si_place p th : threads s !! p = Some th -> placed th -> contexts s !! cid th = Some (used p);
  si_free : NoDup (freeList s);
  si_free_iff c : c ∈ freeList s <-> contexts s !! c = Some idle /\ c ∉ F;
  si_flight c : c ∈ F -> contexts s !! c = Some idle;
  si_nodup n : NoDup (queue n s);
  si_queue n p : p ∈ queue n s -> p ∉ G /\ exists th, threads s !! p = Some th /\ state th = qstate n;
  si_queued n p th : threads s !! p = Some th -> state th = qstate n -> p ∉ G ->
    p ∈ queue n s \/ (n = RunQ /\ handed p s);
  si_handoff v thv q : threads s !! v = Some thv -> handoffThread thv = Some q ->
    state thv = RUNNING /\ q ∉ queue RunQ s /\ q ∉ G /\ v ∉ G /\ exists thq, threads s !! q = Some thq /\ state thq = QUEUED;
  si_handoff_inj v v' thv thv' q : threads s !! v = Some thv -> threads s !! v' = Some thv' ->
    handoffThread thv = Some q -> handoffThread thv' = Some q -> v = v';
  si_thread p th : threads s !! p = Some th -> thread_ok s p th;
  si_futex p th : threads s !! p = Some th -> p ∉ G -> state th = QUEUED \/ state th = SLEEPING -> futexWord th = 1;
  si_M c : c ∈ M <-> exists p th, contexts s !! c = Some (used p) /\ threads s !! p = Some th /\ state th = RUNNING;
  si_count : scheduledThreads s = Z.of_nat (busy (contexts s));
  si_W q thq c : q ∈ queue RunQ s -> threads s !! q = Some thq -> available c s -> mask thq !! c = Some false;
  si_sorted : StronglySorted (fun p q => forall thp thq, threads s !! p = Some thp -> threads s !! q = Some thq ->
    wakeupPhase thp <= wakeupPhase thq) (queue SleepQ s);
  si_gid g p : gidMap s !! g = Some p -> exists th, threads s !! p = Some th /\ gid th = g;
  si_phase : curPhase s = numPhases s /\ 0 <= curPhase s < max64 /\ 0 < schedQuantum s;
  si_hists : length (occHist (stat s)) = S (numCores s) /\ (0 < length (runQueueHist (stat s)))%nat;
  si_rnd : MTRandSpec.wf (rnd s) }.

Lemma StronglySorted_impl_elem {A} (R R' : relation A) (l : list A) :
  (forall a b, a ∈ l -> b ∈ l -> R a b -> R' a b) -> StronglySorted R l -> StronglySorted R' l.
Proof.
  induction l as [|a l IH]; intros HR Hs; constructor; inversion Hs; subst.
  - apply IH; [|done]. intros x y Hx Hy. apply HR; by right.
  - apply Forall_forall. intros y Hy. apply HR; [by left|by right|].
    match goal with H : Forall _ _ |- _ => rewrite Forall_forall in H; by apply H end.
Qed.

(** *** Fields the invariant does not read *)

Lemma sinv_same M F G s s' :
  numCores s' = numCores s -> contexts s' = contexts s -> threads s' = threads s -> freeList s' = freeList s ->
  qs s' = qs s -> nextThread s' = nextThread s -> curPhase s' = curPhase s -> numPhases s' = numPhases s ->
  scheduledThreads s' = scheduledThreads s -> fakeLeaves s' = fakeLeaves s -> gidMap s' = gidMap s ->
  schedQuantum s' = schedQuantum s -> rnd s' = rnd s ->
  length (occHist (stat s')) = length (occHist (stat s)) ->
  length (runQueueHist (stat s')) = length (runQueueHist (stat s)) ->
  sinv M F G s -> sinv M F G s'.
Proof.
  destruct s, s'. cbn. intros. subst.
  match goal with H : sinv _ _ _ _ |- _ => destruct H end. split; auto; cbn in *; try congruence; try lia.
  intros p th Hp. destruct (si_thread0 p th Hp). by split.
Qed.

(** *** Lookups *)

Lemma in_queue M F G s n p th : sinv M F G s -> threads s !! p = Some th -> p ∈ queue n s -> state th = qstate n.
Proof. intros Hi Hp Hq. destruct (si_queue _ _ _ _ Hi n p Hq) as (_ & th' & E & ?). congruence. Qed.

Lemma context_of M F G s c : sinv M F G s -> (c < numCores s)%nat ->
  contexts s !! c = Some idle \/
  exists p th, contexts s !! c = Some (used p) /\ threads s !! p = Some th /\ cid th = c /\ placed th.
Proof.
  intros Hi Hc. destruct (lookup_lt_is_Some_2 (contexts s) c) as [x Hx]; [by rewrite (si_len _ _ _ _ Hi)|].
  destruct (si_ctx _ _ _ _ Hi c x Hx) as [->|(p & th & -> & Hth & Hci & Hpl)]; [by left|right; eauto 6].
Qed.

Lemma held M F G s c p th : sinv M F G s -> contexts s !! c = Some (used p) -> threads s !! p = Some th ->
  cid th = c /\ placed th.
Proof.
  intros Hi Hc Hp. destruct (si_ctx _ _ _ _ Hi c _ Hc) as [?|(p' & th' & E & Hp' & ? & ?)]; [done|].
  injection E as <-. rewrite Hp in Hp'. by injection Hp' as <-.
Qed.

Lemma not_idle M F G s p th c : sinv M F G s -> threads s !! p = Some th -> placed th ->
  contexts s !! c = Some idle -> cid th <> c.
Proof. intros Hi Hp Hpl Hc <-. pose proof (si_place _ _ _ _ Hi p th Hp Hpl) as E. rewrite E in Hc. discriminate Hc. Qed.

Lemma placed_unique M F G s p p' th th' : sinv M F G s -> threads s !! p = Some th -> threads s !! p' = Some th' ->
  placed th -> placed th' -> cid th = cid th' -> p = p'.
Proof.
  intros Hi Hp Hp' H1 H2 E. pose proof (si_place _ _ _ _ Hi _ _ Hp H1) as E1.
  pose proof (si_place _ _ _ _ Hi _ _ Hp' H2) as E2. rewrite E in E1. congruence.
Qed.

Lemma count_place M F G s c p : sinv M F G s -> contexts s !! c = Some idle ->
  scheduledThreads s +32 1 = Z.of_nat (busy (<[c := used p]> (contexts s))).
Proof.
  intros Hi Hc. pose proof (busy_insert _ c _ (used p) Hc) as Hb. pose proof (busy_le (<[c := used p]> (contexts s))) as Hl.
  rewrite length_insert, (si_len _ _ _ _ Hi) in Hl. pose proof (si_cores _ _ _ _ Hi). pose proof MAX_THREADS_u32.
  rewrite decide_False, decide_True in Hb by done. rewrite (si_count _ _ _ _ Hi). rewrite u32_small; lia.
Qed.

Lemma count_unplace M F G s c p : sinv M F G s -> contexts s !! c = Some (used p) ->
  scheduledThreads s -32 1 = Z.of_nat (busy (<[c := idle]> (contexts s))).
Proof.
  intros Hi Hc. pose proof (busy_insert _ c _ idle Hc) as Hb. pose proof (busy_le (contexts s)) as Hl.
  rewrite (si_len _ _ _ _ Hi) in Hl. pose proof (si_cores _ _ _ _ Hi). pose proof MAX_THREADS_u32.
  rewrite decide_True, decide_False in Hb by done. rewrite (si_count _ _ _ _ Hi). rewrite u32_small; lia.
Qed.

(** *** A thread put on an idle context *)

Definition place_st (p : nat) (th : ThreadInfo) (c : nat) s : t X :=
  set_contexts (<[c := used p]> (contexts s)) (scheduledThreads s +32 1)
    (set_threads (<[p := with_place RUNNING c th]> (threads s)) s).

Lemma sinv_place M F G s p th c : sinv M F G s -> threads s !! p = Some th ->
  state th = STARTED \/ state th = BLOCKED \/ state th = QUEUED ->
  c ∈ F -> (forall n, p ∉ queue n s) -> ~ handed p s ->
  sinv ({[c]} ∪ M) (F ∖ {[c]}) (G ∖ {[p]}) (place_st p th c s).
Proof.
  intros Hi Hp Hs Hc Hq Hh. pose proof Hi as [].
  pose proof (si_flight0 c Hc) as Hidle. pose proof (lookup_lt_Some _ _ _ Hidle) as Hlt. rewrite si_len0 in Hlt.
  assert (~ placed th) as Hnp by (unfold placed; intuition congruence).
  assert (forall v thv, threads s !! v = Some thv -> placed thv -> p <> v) as Hne by (intros v thv Hv Hpl <-; congruence).
  assert (handoffThread th = None) as Hnh.
  { destruct (handoffThread th) as [q|] eqn:E; [|done]. destruct (si_handoff0 _ _ _ Hp E) as [? _]. intuition congruence. }
  split; unfold place_st; proj; try done.
  - by rewrite length_insert.
  - intros c' x. rewrite list_lookup_insert_Some. intros [(-> & <- & _)|[Hne' Hx]].
    + right. exists p, (with_place RUNNING c' th). rewrite lookup_insert_eq. split_and!; try done. by left.
    + destruct (si_ctx0 c' x Hx) as [->|(p' & th' & -> & Hp' & ? & ?)]; [by left|right].
      exists p', th'. rewrite lookup_insert_ne by (by eapply Hne). done.
  - intros p' th' Hp' Hpl'. rewrite lookup_insert_Some in Hp'. destruct Hp' as [[<- <-]|[Hn Hp']]; cbn.
    + by rewrite list_lookup_insert_eq by lia.
    + rewrite list_lookup_insert_ne; [by apply si_place0|]. intros E. by eapply not_idle.
  - intros c'. rewrite si_free_iff0, list_lookup_insert_Some. set_unfold. split.
    + intros [Hx Hn]. split; [|tauto]. right. split; [|done]. intros ->. done.
    + intros [[(-> & ? & _)|[? ?]] Hn]; [discriminate|]. split; [done|]. intros Hf. apply Hn. split; [done|congruence].
  - intros c' Hc'. apply elem_of_difference in Hc' as [Hc' Hn]. rewrite elem_of_singleton in Hn.
    rewrite list_lookup_insert_ne by congruence. by apply si_flight0.
  - intros n p' Hp'. change (queue n _) with (queue n s) in Hp'.
    destruct (si_queue0 n p' Hp') as (? & th' & ? & ?). split; [qset|]. exists th'.
    rewrite lookup_insert_ne; [done|]. intros ->. by apply (Hq n).
  - intros n p' th' Hp' Hst Hg. change (queue n _) with (queue n s).
    rewrite lookup_insert_Some in Hp'. destruct Hp' as [[<- <-]|[Hn Hp']]; [by destruct n|].
    destruct (si_queued0 n p' th' Hp' Hst) as [|(-> & v & thv & Hv & Hvh)]; [qset|by left|].
    right. split; [done|]. exists v, thv. proj. rewrite lookup_insert_ne; [done|]. intros ->. congruence.
  - intros v thv q Hv Hvh. rewrite lookup_insert_Some in Hv. destruct Hv as [[<- <-]|[Hn Hv]]; [cbn in Hvh; congruence|].
    destruct (si_handoff0 v thv q Hv Hvh) as (? & ? & ? & ? & thq & ? & ?). split_and!; [done|done|qset|qset|].
    exists thq. rewrite lookup_insert_ne; [done|]. intros ->. apply Hh. by exists v, thv.
  - intros v v' thv thv' q Hv Hv' E E'. rewrite lookup_insert_Some in Hv, Hv'.
    destruct Hv as [[<- <-]|[? Hv]]; [cbn in E; congruence|]. destruct Hv' as [[<- <-]|[? Hv']]; [cbn in E'; congruence|].
    by eapply si_handoff_inj0.
  - intros p' th' Hp'. rewrite lookup_insert_Some in Hp'. destruct Hp' as [[<- <-]|[Hn Hp']].
    + destruct (si_thread0 _ _ Hp) as [? ? ? Hm ? Hf]. split; cbn; auto; try done.
      * intros E. destruct (Hm E) as [? _]. intuition congruence.
      * intros E. destruct (Hf E) as [? ?]. intuition congruence.
    + destruct (si_thread0 _ _ Hp'). by split.
  - intros p' th' Hp' Hg Hst. rewrite lookup_insert_Some in Hp'. destruct Hp' as [[<- <-]|[Hn Hp']].
    + cbn in Hst. naive_solver.
    + apply (si_futex0 p'); auto. qset.
  - intros c'. rewrite elem_of_union, elem_of_singleton, si_M0. split.
    + intros [->|(p' & th' & Hx & Hp' & Hr)].
      * exists p, (with_place RUNNING c th). rewrite list_lookup_insert_eq, lookup_insert_eq by lia. done.
      * exists p', th'. rewrite list_lookup_insert_ne, lookup_insert_ne; [done| |].
        -- eapply Hne; [done|by left].
        -- intros ->. rewrite Hidle in Hx. discriminate.
    + intros (p' & th' & Hx & Hp' & Hr). destruct (decide (c' = c)) as [->|Hnc]; [by left|right].
      rewrite list_lookup_insert_ne in Hx by done. exists p', th'. rewrite lookup_insert_ne in Hp'; [done|].
      intros ->. by destruct (held _ _ _ _ _ _ _ Hi Hx Hp) as [_ ?].
  - by eapply count_place.
  - intros q thq c' Hq' Hqt Ha. change (queue RunQ _) with (queue RunQ s) in Hq'.
    rewrite lookup_insert_ne in Hqt by (intros ->; by apply (Hq RunQ)). apply (si_W0 q thq c'); [done|done|].
    destruct Ha as [Ha|(o & tho & Ho & Hot & Hc')]; [by left|right]. exists o, tho.
    change (queue OutQ _) with (queue OutQ s) in Ho. cbn in Hot.
    rewrite lookup_insert_ne in Hot by (intros ->; by apply (Hq OutQ)). done.
  - change (queue SleepQ _) with (queue SleepQ s).
    eapply StronglySorted_impl_elem; [|exact si_sorted0]. cbn. intros a b Ha Hb Hab tha thb Hta Htb.
    rewrite lookup_insert_ne in Hta, Htb by (intros ->; by apply (Hq SleepQ)). by apply Hab.
  - intros g p' Hg. destruct (si_gid0 g p' Hg) as (th' & Hth' & ?).
    destruct (decide (p = p')) as [<-|]; [exists (with_place RUNNING c th)|exists th'].
    + rewrite lookup_insert_eq. split; [done|]. cbn. congruence.
    + by rewrite lookup_insert_ne.
Qed.

(** *** A thread taken off its context *)

Definition unplace_st (p : nat) (th : ThreadInfo) (tgt : ThreadState) s : t X :=
  set_contexts (<[cid th := idle]> (contexts s)) (scheduledThreads s -32 1)
    (set_threads (<[p := with_state tgt th]> (threads s)) s).

Lemma sinv_unplace M F G s p th tgt : sinv M F G s -> threads s !! p = Some th -> placed th ->
  (forall n, p ∉ queue n s) -> handoffThread th = None -> markedForSleep th = false -> fakeLeave th = None ->
  tgt = BLOCKED \/ tgt = QUEUED \/ tgt = SLEEPING ->
  (tgt = SLEEPING -> curPhase s < wakeupPhase th < max64) ->
  sinv (M ∖ {[cid th]}) ({[cid th]} ∪ F) ({[p]} ∪ G) (unplace_st p th tgt s).
Proof.
  intros Hi Hp Hpl Hq Hh Hm Hfl Ht Hsl. pose proof Hi as [].
  pose proof (si_place0 p th Hp Hpl) as Hused. pose proof (lookup_lt_Some _ _ _ Hused) as Hlt.
  assert (~ placed (with_state tgt th)) as Hnp by (unfold placed; cbn; intuition congruence).
  assert (forall q thq, threads s !! q = Some thq -> state thq = QUEUED -> p <> q) as Hnq.
  { intros q thq E Es <-. unfold placed in Hpl. intuition congruence. }
  split; unfold unplace_st; proj; try done.
  - by rewrite length_insert.
  - intros c x. rewrite list_lookup_insert_Some. intros [(<- & <- & _)|[Hne Hx]]; [by left|].
    destruct (si_ctx0 c x Hx) as [->|(p' & th' & -> & Hp' & Ec & ?)]; [by left|right].
    exists p', th'. rewrite lookup_insert_ne by congruence. done.
  - intros p' th' Hp' Hpl'. rewrite lookup_insert_Some in Hp'. destruct Hp' as [[<- <-]|[Hn Hp']]; [done|].
    rewrite list_lookup_insert_ne; [by apply si_place0|]. intros E. apply Hn. by eapply placed_unique.
  - intros c. rewrite si_free_iff0, list_lookup_insert_Some. set_unfold. split.
    + intros [Hx Hn]. split; [right; split; [congruence|done]|]. intros [->|?]; [congruence|done].
    + intros [[(? & _)|[? ?]] Hn]; [destruct Hn; by left|]. split; [done|]. intros ?. apply Hn. by right.
  - intros c Hc. destruct (decide (cid th = c)) as [<-|]; [by rewrite list_lookup_insert_eq|].
    rewrite list_lookup_insert_ne by done. apply si_flight0. qset.
  - intros n p' Hp'. change (queue n _) with (queue n s) in Hp'.
    destruct (si_queue0 n p' Hp') as (? & th' & ? & ?). assert (p <> p') by (intros ->; by apply (Hq n)).
    split; [qset|]. exists th'. by rewrite lookup_insert_ne.
  - intros n p' th' Hp' Hst Hg. change (queue n _) with (queue n s).
    rewrite lookup_insert_Some in Hp'. destruct Hp' as [[<- <-]|[Hn Hp']]; [qset|].
    destruct (si_queued0 n p' th' Hp' Hst) as [|(-> & v & thv & Hv & Hvh)]; [qset|by left|].
    right. split; [done|]. exists v, thv. proj. rewrite lookup_insert_ne; [done|]. intros ->. congruence.
  - intros v thv q Hv Hvh. rewrite lookup_insert_Some in Hv. destruct Hv as [[<- <-]|[Hn Hv]]; [cbn in Hvh; congruence|].
    destruct (si_handoff0 v thv q Hv Hvh) as (? & ? & ? & ? & thq & Hthq & Hsq). pose proof (Hnq _ _ Hthq Hsq).
    split_and!; [done|done|qset|qset|]. exists thq. by rewrite lookup_insert_ne.
  - intros v v' thv thv' q Hv Hv' E E'. rewrite lookup_insert_Some in Hv, Hv'.
    destruct Hv as [[<- <-]|[? Hv]]; [cbn in E; congruence|]. destruct Hv' as [[<- <-]|[? Hv']]; [cbn in E'; congruence|].
    by eapply si_handoff_inj0.
  - intros p' th' Hp'. rewrite lookup_insert_Some in Hp'. destruct Hp' as [[<- <-]|[Hn Hp']].
    + destruct (si_thread0 _ _ Hp) as []. split; cbn; auto; [intros E; congruence|intros []; exact Hfl].
    + destruct (si_thread0 _ _ Hp'). by split.
  - intros p' th' Hp' Hg Hst. rewrite lookup_insert_Some in Hp'. destruct Hp' as [[<- <-]|[Hn Hp']]; [qset|].
    apply (si_futex0 p'); auto. qset.
  - intros c. rewrite elem_of_difference, elem_of_singleton, si_M0. split.
    + intros [(p' & th' & Hx & Hp' & Hr) Hne].
      assert (p <> p') by (intros <-; destruct (held _ _ _ _ _ _ _ Hi Hx Hp) as [? _]; congruence).
      exists p', th'. by rewrite list_lookup_insert_ne, lookup_insert_ne.
    + intros (p' & th' & Hx & Hp' & Hr). rewrite lookup_insert_Some in Hp'. destruct Hp' as [[<- <-]|[Hn Hp']].
      * destruct Hnp. by left.
      * rewrite list_lookup_insert_Some in Hx. destruct Hx as [(_ & ? & _)|[Hne Hx]]; [discriminate|]. eauto 7.
  - by eapply count_unplace.
  - intros q thq c' Hq' Hqt Ha. change (queue RunQ _) with (queue RunQ s) in Hq'.
    rewrite lookup_insert_ne in Hqt by (intros ->; by apply (Hq RunQ)). apply (si_W0 q thq c'); [done|done|].
    destruct Ha as [Ha|(o & tho & Ho & Hot & Hc')]; [by left|right]. exists o, tho.
    change (queue OutQ _) with (queue OutQ s) in Ho. proj.
    rewrite lookup_insert_ne in Hot by (intros ->; by apply (Hq OutQ)). done.
  - change (queue SleepQ _) with (queue SleepQ s).
    eapply StronglySorted_impl_elem; [|exact si_sorted0]. cbn. intros a b Ha Hb Hab tha thb Hta Htb.
    rewrite lookup_insert_ne in Hta, Htb by (intros ->; by apply (Hq SleepQ)). by apply Hab.
  - intros g p' Hg. destruct (si_gid0 g p' Hg) as (th' & Hth' & ?).
    destruct (decide (p = p')) as [<-|]; [exists (with_state tgt th)|exists th'].
    + rewrite lookup_insert_eq. split; [done|]. cbn. congruence.
    + by rewrite lookup_insert_ne.
Qed.

(** *** One thread changed in place *)

Lemma sinv_thread M M' F G G' s p th th' : sinv M F G s -> threads s !! p = Some th ->
  cid th' = cid th -> gid th' = gid th -> mask th' = mask th -> handoffThread th' = handoffThread th ->
  (placed th' <-> placed th) -> thread_ok s p th' ->
  (forall n, p ∈ queue n s -> state th' = qstate n /\ wakeupPhase th' = wakeupPhase th) ->
  (handoffThread th <> None -> state th' = RUNNING) -> (handed p s -> state th' = QUEUED) ->
  (forall n, state th' = qstate n -> p ∉ G' -> p ∈ queue n s \/ n = RunQ /\ handed p s) ->
  (p ∉ G' -> state th' = QUEUED \/ state th' = SLEEPING -> futexWord th' = 1) ->
  (G' = G \/ (G' = {[p]} ∪ G /\ (forall n, p ∉ queue n s) /\ ~ handed p s /\ handoffThread th = None)) ->
  (forall c, c ∈ M' <-> (c ∈ M /\ (placed th -> c <> cid th)) \/ (c = cid th /\ state th' = RUNNING)) ->
  sinv M' F G' (set_threads (<[p := th']> (threads s)) s).
Proof.
  intros Hi Hp Ec Eg Em Eh Hpl Hok Hq Hrun Hhd Hqd Hfx HG HM. pose proof Hi as [].
  assert (forall x, x ∉ G' -> x ∉ G) as HG1 by (intros x Hx Hx'; apply Hx; destruct HG as [->|[-> _]]; qset).
  assert (forall v thv, threads s !! v = Some thv ->
    exists thv', (<[p := th']> (threads s)) !! v = Some thv' /\ handoffThread thv' = handoffThread thv /\
      (thv' = thv \/ v = p /\ thv' = th')) as Hlk.
  { intros v thv Hv. destruct (decide (p = v)) as [<-|]; [exists th'|exists thv].
    - rewrite lookup_insert_eq. split_and!; [done|congruence|by right].
    - rewrite lookup_insert_ne by done. split_and!; [done|done|by left]. }
  assert (forall v thv', (<[p := th']> (threads s)) !! v = Some thv' ->
    exists thv, threads s !! v = Some thv /\ handoffThread thv' = handoffThread thv) as Hlk'.
  { intros v thv'. rewrite lookup_insert_Some. intros [[<- <-]|[? Hv]]; eauto. }
  split; proj; try done.
  - intros c x Hx. destruct (si_ctx0 c x Hx) as [->|(p' & th0 & -> & Hp' & ? & ?)]; [by left|right].
    destruct (decide (p = p')) as [<-|]; [exists p, th'|exists p', th0].
    + rewrite lookup_insert_eq. assert (th0 = th) as -> by congruence. split_and!; [done|done|congruence|by apply Hpl].
    + by rewrite lookup_insert_ne.
  - intros p' th0 Hp' Hpl'. rewrite lookup_insert_Some in Hp'. destruct Hp' as [[<- <-]|[Hn Hp']]; [|by apply si_place0].
    rewrite Ec. apply si_place0; [done|by apply Hpl].
  - intros n p' Hp'. change (queue n _) with (queue n s) in Hp'. destruct (si_queue0 n p' Hp') as (Hg & th0 & Hth0 & Hs0).
    split; [destruct HG as [->|(-> & Hnq & _)]; [done|]; intros Hin; set_unfold in Hin; destruct Hin as [->|]; [by apply (Hnq n)|done]|].
    destruct (decide (p = p')) as [<-|]; [exists th'; rewrite lookup_insert_eq; split; [done|by apply Hq]|].
    exists th0. by rewrite lookup_insert_ne.
  - intros n p' th0 Hp' Hst Hg. change (queue n _) with (queue n s).
    assert (p' ∈ queue n s \/ n = RunQ /\ handed p' s) as [?|(-> & v & thv & Hv & Hvh)]; [|by left|].
    + rewrite lookup_insert_Some in Hp'. destruct Hp' as [[<- <-]|[Hn Hp']]; [by apply Hqd|]. apply (si_queued0 n p' th0); auto.
    + right. split; [done|]. destruct (Hlk v thv Hv) as (thv' & Hv' & E & _). exists v, thv'. split; [exact Hv'|congruence].
  - intros v thv' q Hv Hvh. destruct (Hlk' v thv' Hv) as (thv & Hv0 & E). rewrite E in Hvh.
    destruct (si_handoff0 v thv q Hv0 Hvh) as (Hr & ? & ? & ? & thq & Hthq & Hsq).
    assert (handed q s) as Hhq by (exists v, thv; done).
    assert (q ∉ G' /\ v ∉ G') as [? ?].
    { destruct HG as [->|(-> & _ & Hnh & Hn0)]; [done|]. split; intros Hin; apply elem_of_union in Hin as [Hin|?]; try done;
        apply elem_of_singleton in Hin as ->; [done|congruence]. }
    split_and!; [|done|done|done|].
    + rewrite lookup_insert_Some in Hv. destruct Hv as [[<- <-]|[? Hv]]; [apply Hrun; congruence|congruence].
    + destruct (decide (p = q)) as [<-|]; [exists th'; rewrite lookup_insert_eq; split; [done|by apply Hhd]|].
      exists thq. by rewrite lookup_insert_ne.
  - intros v v' thv thv' q Hv Hv' E E'. destruct (Hlk' _ _ Hv) as (? & ? & ?). destruct (Hlk' _ _ Hv') as (? & ? & ?).
    eapply (si_handoff_inj0 _ _ _ _ q); [done|done|congruence|congruence].
  - intros p' th0 Hp'. rewrite lookup_insert_Some in Hp'. destruct Hp' as [[<- <-]|[Hn Hp']].
    + destruct Hok. by split.
    + destruct (si_thread0 _ _ Hp'). by split.
  - intros p' th0 Hp' Hg Hst. rewrite lookup_insert_Some in Hp'. destruct Hp' as [[<- <-]|[Hn Hp']]; [by apply Hfx|].
    apply (si_futex0 p'); auto.
  - intros c. rewrite HM, si_M0. split.
    + intros [[(p' & th0 & Hx & Hp' & Hr) Hne]|[-> Hr]].
      * exists p', th0. rewrite lookup_insert_ne; [done|]. intros <-. assert (th0 = th) as -> by congruence.
        destruct (held _ _ _ _ _ _ _ Hi Hx Hp) as [E Hpl0]. by apply (Hne Hpl0).
      * exists p, th'. rewrite lookup_insert_eq. split_and!; [|done|done]. apply si_place0; [done|]. apply Hpl. by left.
    + intros (p' & th0 & Hx & Hp' & Hr). rewrite lookup_insert_Some in Hp'. destruct Hp' as [[<- <-]|[Hn Hp']].
      * right. split; [|done]. by destruct (held _ _ _ _ _ _ _ Hi Hx Hp) as [<- _].
      * left. split; [by exists p', th0|]. intros Hpl0 ->. pose proof (si_place0 _ _ Hp Hpl0) as E. congruence.
  - intros q thq c Hq' Hqt Ha. change (queue RunQ _) with (queue RunQ s) in Hq'.
    assert (exists thq0, threads s !! q = Some thq0 /\ mask thq = mask thq0) as (thq0 & Hq0 & ->).
    { rewrite lookup_insert_Some in Hqt. destruct Hqt as [[<- <-]|[? ?]]; eauto. }
    apply (si_W0 q thq0 c); [done|done|].
    destruct Ha as [Ha|(o & tho & Ho & Hot & Hc')]; [by left|right]. change (queue OutQ _) with (queue OutQ s) in Ho. proj.
    rewrite lookup_insert_Some in Hot. destruct Hot as [[<- <-]|[? ?]]; [exists p, th|exists o, tho]; [|done].
    split_and!; [done|done|congruence].
  - change (queue SleepQ _) with (queue SleepQ s).
    eapply StronglySorted_impl_elem; [|exact si_sorted0]. cbn. intros a b Ha Hb Hab tha thb Hta Htb.
    assert (forall u thu, u ∈ queue SleepQ s -> <[p := th']> (threads s) !! u = Some thu ->
              exists thu0, threads s !! u = Some thu0 /\ wakeupPhase thu = wakeupPhase thu0) as Hw.
    { intros u thu Hu E. rewrite lookup_insert_Some in E. destruct E as [[<- <-]|[? ?]]; [|eauto].
      exists th. split; [done|]. by apply (Hq SleepQ). }
    destruct (Hw _ _ Ha Hta) as (tha0 & ? & ->). destruct (Hw _ _ Hb Htb) as (thb0 & ? & ->). by apply Hab.
  - intros g p' Hg. destruct (si_gid0 g p' Hg) as (th0 & Hth0 & ?).
    destruct (decide (p = p')) as [<-|]; [exists th'|exists th0].
    + rewrite lookup_insert_eq. split; [done|]. congruence.
    + by rewrite lookup_insert_ne.
Qed.

(** *** The lists *)

(** The invariant without the clauses on the lists of threads and contexts. *)
Lemma sinv_free_remove M F G s c : sinv M F G s -> c ∈ freeList s ->
  sinv M ({[c]} ∪ F) G (set_freeList (filter (fun x => x <> c) (freeList s)) s).
Proof.
  intros Hi Hc. pose proof Hi as []. split; proj; try done.
  - by apply NoDup_filter.
  - intros c'. rewrite list_elem_of_filter, si_free_iff0. qset.
  - intros c' Hc'. apply elem_of_union in Hc' as [Hc'|?]; [|by apply si_flight0].
    apply elem_of_singleton in Hc' as ->. by apply si_free_iff0.
  - intros p th Hp. destruct (si_thread0 p th Hp). by split.
  - intros q thq c' Hq Ht Ha. apply (si_W0 q thq c'); [done|done|].
    destruct Ha as [Ha|Ha]; [left|by right]. proj. by apply list_elem_of_filter in Ha as [_ ?].
Qed.

Lemma sinv_free_push M F G s c : sinv M F G s -> c ∈ F ->
  (forall q thq, q ∈ queue RunQ s -> threads s !! q = Some thq -> mask thq !! c = Some false) ->
  sinv M (F ∖ {[c]}) G (set_freeList (freeList s ++ [c]) s).
Proof.
  intros Hi Hc HW. pose proof Hi as []. split; proj; try done.
  - apply NoDup_app. split_and!; [done| |apply NoDup_singleton]. intros x Hx Hxc. apply list_elem_of_singleton in Hxc as ->.
    by apply si_free_iff0 in Hx as [_ ?].
  - intros c'. rewrite elem_of_app, list_elem_of_singleton, si_free_iff0. split.
    + intros [[? ?]| -> ]; [split; [done|qset]|]. split; [by apply si_flight0|qset].
    + intros [? Hn]. destruct (decide (c' = c)); [by right|left]. split; [done|qset].
  - intros c' Hc'. apply si_flight0. qset.
  - intros p th Hp. destruct (si_thread0 p th Hp). by split.
  - intros q thq c' Hq Ht Ha. destruct (decide (c' = c)) as [->|Hne]; [by apply (HW q)|].
    apply (si_W0 q thq c'); [done|done|]. destruct Ha as [Ha|Ha]; [left|by right]. proj.
    apply elem_of_app in Ha as [?|Ha]; [done|]. by apply list_elem_of_singleton in Ha.
Qed.

Lemma queue_set n n' l s : queue n' (set_queue n l s) = if decide (n' = n) then l else queue n' s.
Proof. by destruct n, n'. Qed.

Lemma queue_set_eq n l s : queue n (set_queue n l s) = l.
Proof. by destruct n. Qed.

Lemma handed_set n l q s : handed q (set_queue n l s) <-> handed q s.
Proof. done. Qed.

Lemma sinv_remove M F G s n p : sinv M F G s -> p ∈ queue n s ->
  sinv M F ({[p]} ∪ G) (set_queue n (filter (fun x => x <> p) (queue n s)) s).
Proof.
  intros Hi Hp. pose proof Hi as []. destruct (si_queue0 n p Hp) as (HpG & th & Hth & Hst).
  assert (forall n' x, x ∈ queue n' (set_queue n (filter (fun x => x <> p) (queue n s)) s) <-> x <> p /\ x ∈ queue n' s) as Hin.
  { intros n' x. rewrite queue_set. case_decide as Hd; [subst n'; by rewrite list_elem_of_filter|]. split; [|tauto].
    intros Hx. split; [|done]. intros ->. destruct (si_queue0 n' p Hx) as (_ & th' & E & Hs').
    rewrite Hth in E. injection E as <-. rewrite Hst in Hs'. by destruct n, n'. }
  split; proj; try done.
  - intros n'. rewrite queue_set. case_decide; [by apply NoDup_filter|done].
  - intros n' x. rewrite Hin. intros [Hne Hx]. destruct (si_queue0 n' x Hx) as (? & ?). split; [qset|done].
  - intros n' x thx Hx Hsx Hg. rewrite Hin, handed_set.
    destruct (si_queued0 n' x thx Hx Hsx) as [?|?]; [qset|left|by right]. split; [qset|done].
  - intros v thv q Hv Hvq. destruct (si_handoff0 v thv q Hv Hvq) as (Hr & Hnq & ? & ? & thq & Hthq & Hsq).
    split_and!; [done|by rewrite Hin; intros [_ ?]| | |by exists thq].
    + intros Hx. apply elem_of_union in Hx as [Hx|?]; [|done]. apply elem_of_singleton in Hx as ->.
      rewrite Hth in Hthq. injection Hthq as <-. rewrite Hsq in Hst. by destruct n.
    + intros Hx. apply elem_of_union in Hx as [Hx|?]; [|done]. apply elem_of_singleton in Hx as ->.
      rewrite Hth in Hv. injection Hv as <-. rewrite Hr in Hst. by destruct n.
  - intros x thx Hx. destruct (si_thread0 x thx Hx). by split.
  - intros x thx Hx Hg Hs. apply (si_futex0 x); [done|qset|done].
  - intros q thq c Hq Ht Ha. apply Hin in Hq as [_ Hq]. apply (si_W0 q thq c); [done|done|].
    destruct Ha as [Ha|(o & tho & Ho & ?)]; [by left|right]. apply Hin in Ho as [_ Ho]. by exists o, tho.
  - rewrite queue_set. case_decide; [|done]. subst n. clear -si_sorted0.
    induction (queue SleepQ s) as [|a l IH]; [by constructor|]. inversion si_sorted0; subst. rewrite filter_cons.
    case_decide; [|by apply IH]. constructor; [by apply IH|].
    match goal with H : Forall _ l |- _ => rewrite Forall_forall in H; rename H into Hf end.
    apply Forall_forall. intros x Hx. apply list_elem_of_filter in Hx as [_ Hx]. by apply Hf.
Qed.

(** A thread in flight put on the list of its state. *)
Lemma sinv_push M F G s n p th l : sinv M F G s -> threads s !! p = Some th -> state th = qstate n -> ~ handed p s ->
  (forall n', p ∉ queue n' s) -> NoDup l -> (forall x, x ∈ l <-> x = p \/ x ∈ queue n s) ->
  (n <> OutQ -> futexWord th = 1) ->
  (n = RunQ -> forall c, available c s -> mask th !! c = Some false) ->
  (n = OutQ -> forall q thq, q ∈ queue RunQ s -> threads s !! q = Some thq -> mask thq !! cid th = Some false) ->
  (n = SleepQ -> StronglySorted (fun p q => forall thp thq, threads s !! p = Some thp -> threads s !! q = Some thq ->
    wakeupPhase thp <= wakeupPhase thq) l) ->
  sinv M F (G ∖ {[p]}) (set_queue n l s).
Proof.
  intros Hi Hp Hst Hnh Hnq Hnd Hl Hfx HWr HWo Hso. pose proof Hi as [].
  assert (forall n' x, x ∈ queue n' (set_queue n l s) <-> (n' = n /\ x = p) \/ x ∈ queue n' s) as Hin.
  { intros n' x. rewrite queue_set. case_decide as Hd; [subst n'; rewrite Hl; tauto|]. tauto. }
  split; proj; try done.
  - intros n'. rewrite queue_set. by case_decide.
  - intros n' x. rewrite Hin. intros [[-> ->]|Hx]; [split; [qset|by exists th]|].
    destruct (si_queue0 n' x Hx) as (? & ?). split; [qset|done].
  - intros n' x thx Hx Hsx Hg. rewrite Hin, handed_set. destruct (decide (x = p)) as [->|Hne].
    + left. left. split; [|done]. rewrite Hp in Hx. injection Hx as <-. rewrite Hst in Hsx. by destruct n, n'.
    + destruct (si_queued0 n' x thx Hx Hsx) as [?|?]; [qset|left; by right|by right].
  - intros v thv q Hv Hvq. destruct (si_handoff0 v thv q Hv Hvq) as (Hr & Hq & ? & ? & thq & Hthq & Hsq).
    split_and!; [done| |qset|qset|by exists thq]. rewrite Hin. intros [[<- ->]|?]; [|done]. apply Hnh. by exists v, thv.
  - intros x thx Hx. destruct (si_thread0 x thx Hx). by split.
  - intros x thx Hx Hg Hs. destruct (decide (x = p)) as [->|Hne].
    + rewrite Hp in Hx. injection Hx as <-. apply Hfx. intros ->. cbn in Hst. rewrite Hst in Hs. naive_solver.
    + apply (si_futex0 x); [done|qset|done].
  - intros q thq c Hq Ht Ha. apply Hin in Hq.
    assert (available c s \/ n = OutQ /\ c = cid th) as Ha'.
    { destruct Ha as [Ha|(o & tho & Ho & Hto & Hco)]; [left; by left|]. apply Hin in Ho as [[<- ->]|Ho].
      - right. split; [done|]. proj. congruence.
      - left. right. by exists o, tho. }
    destruct Hq as [[<- ->]|Hq].
    + rewrite Hp in Ht. injection Ht as <-. destruct Ha' as [Ha'|[? _]]; [by apply HWr|done].
    + destruct Ha' as [Ha'|[-> ->]]; [by apply (si_W0 q thq c)|by apply (HWo eq_refl q)].
  - rewrite queue_set. case_decide as Hd; [by apply Hso|done].
Qed.

(** A thread that needs no list stops being in flight. *)
Lemma sinv_land M F G s p th : sinv M F G s -> threads s !! p = Some th ->
  (forall n, state th <> qstate n) -> sinv M F (G ∖ {[p]}) s.
Proof.
  intros Hi Hp Hs. pose proof Hi as []. split; try done.
  - intros n x Hx. destruct (si_queue0 n x Hx) as (? & ?). split; [qset|done].
  - intros n x thx Hx Hsx Hg. apply (si_queued0 n x thx); [done|done|]. intros Hx'. apply Hg. apply elem_of_difference.
    split; [done|]. intros Hxp. apply elem_of_singleton in Hxp as ->. rewrite Hp in Hx. injection Hx as <-. by apply (Hs n).
  - intros v thv q Hv Hvq. destruct (si_handoff0 v thv q Hv Hvq) as (? & ? & ? & ? & ?). split_and!; [done|done|qset|qset|done].
  - intros x thx Hx Hg Hsx. apply (si_futex0 x); [done| |done]. intros Hx'. apply Hg. apply elem_of_difference.
    split; [done|]. intros Hxp. apply elem_of_singleton in Hxp as ->. rewrite Hp in Hx. injection Hx as <-.
    destruct Hsx as [Hsx|Hsx]; [by apply (Hs RunQ)|by apply (Hs SleepQ)].
Qed.

(** *** Handoffs *)

Ltac by_if := match goal with |- context [decide ?P] => destruct (decide P) end; done.

Lemma lookup_handoff s v thv h u thu : threads s !! v = Some thv ->
  (<[v := with_handoff h thv]> (threads s)) !! u = Some thu ->
  exists thu0, threads s !! u = Some thu0 /\ thu = (if decide (u = v) then with_handoff h thu0 else thu0).
Proof.
  intros Hv. rewrite lookup_insert_Some. intros [[<- <-]|[Hne Hu]].
  - exists thv. by rewrite decide_True.
  - exists thu. by rewrite decide_False.
Qed.

Lemma handoff_lookup s v thv h u thu : threads s !! v = Some thv -> threads s !! u = Some thu ->
  (<[v := with_handoff h thv]> (threads s)) !! u = Some (if decide (u = v) then with_handoff h thu else thu).
Proof.
  intros Hv Hu. case_decide as Hd; [subst; rewrite lookup_insert_eq; congruence|by rewrite lookup_insert_ne].
Qed.

(** The handoff of [v] set or cleared: [h] and [G'] say how the handed threads
    change, the rest of the invariant does not see it. *)
Lemma sinv_rehand M F G G' s v thv h : sinv M F G s -> threads s !! v = Some thv ->
  let s' := set_threads (<[v := with_handoff h thv]> (threads s)) s in
  (forall n p, p ∈ queue n s -> p ∉ G') ->
  (forall p th, threads s !! p = Some th -> state th = QUEUED -> p ∉ G' -> p ∈ queue RunQ s \/ handed p s') ->
  (forall p th n, threads s !! p = Some th -> state th = qstate n -> p ∉ G' -> n <> RunQ -> p ∉ G) ->
  (forall p th, threads s !! p = Some th -> p ∉ G' -> state th = QUEUED \/ state th = SLEEPING -> futexWord th = 1) ->
  (forall u thu q, threads s !! u = Some thu -> (if decide (u = v) then h else handoffThread thu) = Some q ->
     state thu = RUNNING /\ q ∉ queue RunQ s /\ q ∉ G' /\ u ∉ G' /\ exists thq, threads s !! q = Some thq /\ state thq = QUEUED) ->
  (forall u thu q, threads s !! u = Some thu -> u <> v -> handoffThread thu = Some q -> h <> Some q) ->
  sinv M F G' s'.
Proof.
  intros Hi Hv s' Hq Hqd Hqd' Hfx Hh Hinj. pose proof Hi as [].
  assert (forall u thu, threads s' !! u = Some thu -> exists thu0, threads s !! u = Some thu0 /\
    thu = (if decide (u = v) then with_handoff h thu0 else thu0)) as Hlk by (intros u thu; by apply lookup_handoff).
  assert (forall u thu, threads s !! u = Some thu ->
    threads s' !! u = Some (if decide (u = v) then with_handoff h thu else thu)) as Hkl by (intros u thu; by apply handoff_lookup).
  split; try (unfold s'; proj; done).
  - intros c x Hx. destruct (si_ctx0 c x Hx) as [->|(p & th & -> & Hp & ? & ?)]; [by left|right].
    exists p, (if decide (p = v) then with_handoff h th else th). rewrite (Hkl _ _ Hp). by_if.
  - intros p th Hp Hpl. destruct (Hlk p th Hp) as (th0 & Hp0 & ->).
    assert (placed th0) by (destruct (decide (p = v)); done). pose proof (si_place0 p th0 Hp0). destruct (decide (p = v)); auto.
  - intros n p Hp. change (queue n s') with (queue n s) in Hp. destruct (si_queue0 n p Hp) as (_ & th & Hth & ?).
    split; [by apply (Hq n)|]. eexists. split; [by apply Hkl|]. by_if.
  - intros n p th Hp Hs Hg. change (queue n s') with (queue n s). destruct (Hlk p th Hp) as (th0 & Hp0 & ->).
    assert (state th0 = qstate n) as Hs0 by (destruct (decide (p = v)); done). destruct (decide (n = RunQ)) as [->|Hn].
    + destruct (Hqd p th0 Hp0 Hs0 Hg) as [?|?]; [by left|by right].
    + destruct (si_queued0 n p th0 Hp0 Hs0) as [?|[? _]]; [by eapply Hqd'|by left|done].
  - intros u thu q Hu Huq. destruct (Hlk u thu Hu) as (thu0 & Hu0 & ->).
    destruct (Hh u thu0 q Hu0) as (Hr & ? & ? & ? & thq & Hthq & ?); [rewrite <- Huq; by_if|].
    split_and!; [by_if|done|done|done|]. eexists. split; [by apply Hkl|]. by_if.
  - intros u u' thu thu' q Hu Hu' Huq Huq'. destruct (Hlk u thu Hu) as (thu0 & Hu0 & ->). destruct (Hlk u' thu' Hu') as (thu0' & Hu0' & ->).
    destruct (decide (u = v)) as [->|], (decide (u' = v)) as [->|]; try done; cbn in Huq, Huq'.
    + by destruct (Hinj u' thu0' q).
    + by destruct (Hinj u thu0 q).
    + by apply (si_handoff_inj0 _ _ thu0 thu0' q).
  - intros p th Hp. destruct (Hlk p th Hp) as (th0 & Hp0 & ->). destruct (si_thread0 p th0 Hp0). destruct (decide (p = v)); by split.
  - intros p th Hp Hg Hs. destruct (Hlk p th Hp) as (th0 & Hp0 & ->). pose proof (Hfx p th0 Hp0 Hg). destruct (decide (p = v)); auto.
  - intros c. rewrite si_M0. split; intros (p & th & Hc & Hp & Hr).
    + eexists p, _. split_and!; [exact Hc|by apply Hkl|]. by_if.
    + destruct (Hlk p th Hp) as (th0 & Hp0 & ->). exists p, th0. split_and!; [exact Hc|done|]. by destruct (decide (p = v)).
  - intros q thq c Hqq Ht Ha. destruct (Hlk q thq Ht) as (thq0 & Hq0 & ->).
    assert (mask thq0 !! c = Some false); [|destruct (decide (q = v)); done]. apply (si_W0 q thq0 c); [done|done|].
    destruct Ha as [Ha|(o & tho & Ho & Hto & ?)]; [by left|right]. destruct (Hlk o tho Hto) as (tho0 & Ho0 & ->).
    exists o, tho0. split_and!; [done|done|]. by destruct (decide (o = v)).
  - change (queue SleepQ s') with (queue SleepQ s). eapply StronglySorted_impl_elem; [|exact si_sorted0].
    cbv beta. intros a b _ _ Hab tha thb Ha Hb. destruct (Hlk a tha Ha) as (tha0 & Ha0 & ->). destruct (Hlk b thb Hb) as (thb0 & Hb0 & ->).
    pose proof (Hab _ _ Ha0 Hb0). by destruct (decide (a = v)), (decide (b = v)).
  - intros g p Hg. destruct (si_gid0 g p Hg) as (th & Hth & ?). eexists. split; [by apply Hkl|]. by_if.
Qed.

Lemma sinv_clear_handoff M F G s v thv q : sinv M F G s -> threads s !! v = Some thv -> handoffThread thv = Some q ->
  sinv M F ({[q]} ∪ G) (set_threads (<[v := with_handoff None thv]> (threads s)) s).
Proof.
  intros Hi Hv Hvq. pose proof Hi as []. destruct (si_handoff0 v thv q Hv Hvq) as (Hr & Hnq & HqG & HvG & thq & Hthq & Hsq).
  assert (v <> q) as Hvneq by (intros ->; congruence).
  apply sinv_rehand with G; [done|done|..].
  - intros n p Hp. destruct (si_queue0 n p Hp) as (? & th & Hth & Hst). intros Hin. apply elem_of_union in Hin as [Hin|?]; [|done].
    apply elem_of_singleton in Hin as ->. rewrite Hthq in Hth. injection Hth as <-. rewrite Hsq in Hst. by destruct n.
  - intros p th Hp Hs Hg. destruct (si_queued0 RunQ p th Hp Hs) as [?|(_ & u & thu & Hu & Huq)]; [qset|by left|right].
    exists u, thu. proj. rewrite lookup_insert_ne; [done|]. intros ->. rewrite Hv in Hu. injection Hu as <-. qset.
  - qset.
  - intros p th Hp Hg. apply (si_futex0 p th Hp). qset.
  - intros u thu q' Hu Huq. case_decide as Hd; [done|]. destruct (si_handoff0 u thu q' Hu Huq) as (? & ? & ? & ? & ?).
    assert (q' <> q) by (intros ->; apply Hd; by apply (si_handoff_inj0 _ _ thu thv q)).
    assert (u <> q) by (intros ->; congruence). split_and!; [done|done|qset|qset|done].
  - done.
Qed.

Lemma sinv_set_handoff M F G s v thv q thq : sinv M F ({[q]} ∪ G) s -> threads s !! v = Some thv -> handoffThread thv = None ->
  state thv = RUNNING -> threads s !! q = Some thq -> state thq = QUEUED -> futexWord thq = 1 -> q ∉ G -> v ∉ G ->
  sinv M F G (set_threads (<[v := with_handoff (Some q) thv]> (threads s)) s).
Proof.
  intros Hi Hv Hvh Hvr Hq Hqs Hqf HqG HvG. pose proof Hi as [].
  assert (v <> q) as Hvneq by (intros ->; congruence).
  apply sinv_rehand with ({[q]} ∪ G); [done|done|..].
  - intros n p Hp. destruct (si_queue0 n p Hp) as (? & _). qset.
  - intros p th Hp Hs Hg. destruct (decide (p = q)) as [->|Hne].
    + right. exists v, (with_handoff (Some q) thv). proj. by rewrite lookup_insert_eq.
    + destruct (si_queued0 RunQ p th Hp Hs) as [?|(_ & u & thu & Hu & Huq)]; [qset|by left|right].
      exists u, thu. proj. rewrite lookup_insert_ne; [done|]. intros ->. congruence.
  - intros p th n Hp Hs Hg Hn Hin. apply elem_of_union in Hin as [Hin|?]; [|done]. apply elem_of_singleton in Hin as ->.
    rewrite Hq in Hp. injection Hp as <-. rewrite Hqs in Hs. by destruct n.
  - intros p th Hp Hg Hs. destruct (decide (p = q)) as [->|Hne]; [congruence|]. apply (si_futex0 p th Hp); [qset|done].
  - intros u thu q' Hu Huq. case_decide as Hd.
    + injection Huq as <-. subst u. rewrite Hv in Hu. injection Hu as <-. split_and!; [done| |done|done|by exists thq].
      intros Hin. destruct (si_queue0 RunQ q Hin) as (Hin' & _). qset.
    + destruct (si_handoff0 u thu q' Hu Huq) as (? & ? & ? & ? & ?). split_and!; [done|done|qset|qset|done].
  - intros u thu q' Hu Hne Huq [= <-]. destruct (si_handoff0 u thu q Hu Huq) as (_ & _ & Hn & _). qset.
Qed.

(** *** Threads created and deleted *)

Lemma sinv_new M F G s p th : sinv M F G s -> p = nextThread s -> state th = STARTED -> handoffThread th = None ->
  markedForSleep th = false -> fakeLeave th = None -> (cid th < numCores s)%nat -> length (mask th) = numCores s ->
  gidMap s !! gid th = None ->
  sinv M F G (set_gids (<[gid th := p]> (gidMap s)) (S p) (set_threads (<[p := th]> (threads s)) s)).
Proof.
  intros Hi -> Hs Hh Hm Hf Hc Hk Hg0. pose proof Hi as [].
  assert (threads s !! nextThread s = None) as Hn.
  { destruct (threads s !! nextThread s) as [th'|] eqn:E; [|done]. destruct (si_thread0 _ _ E). lia. }
  assert (forall u thu, threads s !! u = Some thu -> <[nextThread s := th]> (threads s) !! u = Some thu) as Hkl.
  { intros u thu Hu. rewrite lookup_insert_ne; [done|]. intros <-. congruence. }
  assert (forall u thu, <[nextThread s := th]> (threads s) !! u = Some thu ->
    (u = nextThread s /\ thu = th) \/ threads s !! u = Some thu) as Hlk.
  { intros u thu. rewrite lookup_insert_Some. intros [[<- <-]|[? ?]]; [by left|by right]. }
  assert (~ placed th) as Hnp by (unfold placed; intuition congruence).
  split; proj; try done.
  - intros c x Hx. destruct (si_ctx0 c x Hx) as [->|(p & thp & -> & Hp & ?)]; [by left|right]. exists p, thp. by rewrite (Hkl _ _ Hp).
  - intros p thp Hp Hpl. destruct (Hlk _ _ Hp) as [[-> ->]|?]; [done|by apply si_place0].
  - intros n p Hp. change (queue n _) with (queue n s) in Hp. destruct (si_queue0 n p Hp) as (? & thp & ? & ?).
    split; [done|]. exists thp. split; [by apply Hkl|done].
  - intros n p thp Hp Hsp Hg. change (queue n _) with (queue n s). destruct (Hlk _ _ Hp) as [[-> ->]|Hp0]; [destruct n; cbn in Hsp; congruence|].
    destruct (si_queued0 n p thp Hp0 Hsp Hg) as [|(-> & u & thu & Hu & ?)]; [by left|right]. split; [done|].
    exists u, thu. split; [by apply Hkl|done].
  - intros u thu q Hu Huq. destruct (Hlk _ _ Hu) as [[-> ->]|Hu0]; [congruence|].
    destruct (si_handoff0 u thu q Hu0 Huq) as (? & ? & ? & ? & thq & ? & ?). split_and!; [done..|]. exists thq. split; [by apply Hkl|done].
  - intros u u' thu thu' q Hu Hu' E E'. destruct (Hlk _ _ Hu) as [[-> ->]|Hu0]; [congruence|].
    destruct (Hlk _ _ Hu') as [[-> ->]|Hu0']; [congruence|]. by apply (si_handoff_inj0 _ _ thu thu' q).
  - intros p thp Hp. destruct (Hlk _ _ Hp) as [[-> ->]|Hp0].
    + split; cbn; try done; try lia; intros; congruence.
    + destruct (si_thread0 _ _ Hp0). split; proj; auto.
  - intros p thp Hp Hg Hsp. destruct (Hlk _ _ Hp) as [[-> ->]|Hp0]; [intuition congruence|by apply (si_futex0 p)].
  - intros c. rewrite si_M0. split; intros (p & thp & Hx & Hp & Hr).
    + exists p, thp. split_and!; [done|by apply Hkl|done].
    + destruct (Hlk _ _ Hp) as [[-> ->]|Hp0]; [congruence|by exists p, thp].
  - intros q thq c Hq Ht Ha. change (queue RunQ _) with (queue RunQ s) in Hq.
    destruct (si_queue0 RunQ q Hq) as (_ & thq' & Hq' & _).
    destruct (Hlk _ _ Ht) as [[-> ->]|Hq0]; [congruence|]. apply (si_W0 q thq c); [done|done|].
    destruct Ha as [Ha|(o & tho & Ho & Hto & ?)]; [by left|right]. change (queue OutQ _) with (queue OutQ s) in Ho. proj.
    destruct (si_queue0 OutQ o Ho) as (_ & tho' & Ho' & _). exists o, tho.
    destruct (Hlk _ _ Hto) as [[-> ->]|Ho0]; [congruence|done].
  - change (queue SleepQ _) with (queue SleepQ s). eapply StronglySorted_impl_elem; [|exact si_sorted0].
    cbv beta. intros a b Ha Hb Hab tha thb Hta Htb. destruct (si_queue0 SleepQ a Ha) as (_ & ? & Ha' & _).
    destruct (si_queue0 SleepQ b Hb) as (_ & ? & Hb' & _).
    destruct (Hlk _ _ Hta) as [[-> ->]|?]; [congruence|]. destruct (Hlk _ _ Htb) as [[-> ->]|?]; [congruence|]. by apply Hab.
  - intros g p. rewrite lookup_insert_Some. intros [[<- <-]|[? Hg]]; [exists th; by rewrite lookup_insert_eq|].
    destruct (si_gid0 g p Hg) as (thp & ? & ?). exists thp. split; [by apply Hkl|done].
Qed.

Lemma sinv_delete M F G s p th : sinv M F G s -> threads s !! p = Some th -> ~ placed th ->
  (forall n, p ∉ queue n s) -> ~ handed p s -> (forall g, gidMap s !! g <> Some p) ->
  sinv M F (G ∖ {[p]}) (set_threads (delete p (threads s)) s).
Proof.
  intros Hi Hp Hnp Hnq Hnh Hng. pose proof Hi as [].
  assert (forall u thu, threads s !! u = Some thu -> p <> u -> delete p (threads s) !! u = Some thu) as Hkl.
  { intros u thu Hu Hne. by rewrite lookup_delete_ne. }
  assert (forall u thu, delete p (threads s) !! u = Some thu -> p <> u /\ threads s !! u = Some thu) as Hlk.
  { intros u thu. by rewrite lookup_delete_Some. }
  split; proj; try done.
  - intros c x Hx. destruct (si_ctx0 c x Hx) as [->|(u & thu & -> & Hu & ? & Hpl)]; [by left|right].
    exists u, thu. rewrite (Hkl u thu); [done|done|]. intros <-. congruence.
  - intros u thu Hu Hpl. destruct (Hlk _ _ Hu). by apply si_place0.
  - intros n u Hu. change (queue n _) with (queue n s) in Hu. destruct (si_queue0 n u Hu) as (? & thu & ? & ?).
    split; [qset|]. exists thu. split; [|done]. apply Hkl; [done|]. intros <-. by apply (Hnq n).
  - intros n u thu Hu Hsu Hg. change (queue n _) with (queue n s). destruct (Hlk _ _ Hu) as [Hne Hu0].
    destruct (si_queued0 n u thu Hu0 Hsu) as [|(-> & v & thv & Hv & ?)]; [qset|by left|right]. split; [done|].
    exists v, thv. split; [|done]. apply Hkl; [done|]. intros <-. destruct (si_handoff0 p thv u) as (Hr & _); [done|done|].
    apply Hnp. rewrite Hp in Hv. injection Hv as <-. by left.
  - intros u thu q Hu Huq. destruct (Hlk _ _ Hu) as [Hne Hu0].
    destruct (si_handoff0 u thu q Hu0 Huq) as (? & ? & ? & ? & thq & ? & ?). split_and!; [done|done|qset|qset|]. exists thq. split; [|done].
    apply Hkl; [done|]. intros <-. apply Hnh. by exists u, thu.
  - intros u u' thu thu' q Hu Hu' E E'. destruct (Hlk _ _ Hu), (Hlk _ _ Hu'). by apply (si_handoff_inj0 _ _ thu thu' q).
  - intros u thu Hu. destruct (Hlk _ _ Hu) as [_ Hu0]. destruct (si_thread0 _ _ Hu0). by split.
  - intros u thu Hu Hg Hsu. destruct (Hlk _ _ Hu) as [Hne Hu0]. apply (si_futex0 u); [done| |done]. qset.
  - intros c. rewrite si_M0. split; intros (u & thu & Hx & Hu & Hr).
    + exists u, thu. split_and!; [done| |done]. apply Hkl; [done|]. intros <-. apply Hnp. rewrite Hp in Hu. injection Hu as <-. by left.
    + destruct (Hlk _ _ Hu). by exists u, thu.
  - intros q thq c Hq Ht Ha. change (queue RunQ _) with (queue RunQ s) in Hq. destruct (Hlk _ _ Ht). apply (si_W0 q thq c); [done|done|].
    destruct Ha as [Ha|(o & tho & Ho & Hto & ?)]; [by left|right]. change (queue OutQ _) with (queue OutQ s) in Ho. proj.
    destruct (Hlk _ _ Hto). by exists o, tho.
  - change (queue SleepQ _) with (queue SleepQ s). eapply StronglySorted_impl_elem; [|exact si_sorted0].
    cbv beta. intros a b _ _ Hab tha thb Hta Htb. destruct (Hlk _ _ Hta), (Hlk _ _ Htb). by apply Hab.
  - intros g u Hg. destruct (si_gid0 g u Hg) as (thu & ? & ?). exists thu. split; [|done].
    apply Hkl; [done|]. intros <-. by apply (Hng g).
Qed.

(** *** The clock *)

Lemma sinv_clock M F G s : sinv M F G s ->
  (forall p th, threads s !! p = Some th -> markedForSleep th = false) ->
  (forall p th, threads s !! p = Some th -> state th = SLEEPING -> curPhase s +64 1 < wakeupPhase th) ->
  sinv M F G (set_phases (curPhase s +64 1) (numPhases s +64 1) s).
Proof.
  intros Hi Hm Hs. pose proof Hi as []. split; proj; try done.
  - intros p th Hp. destruct (si_thread0 _ _ Hp) as [? ? ? ? Hsl ?]. split; proj; try done.
    + rewrite (Hm p th Hp). done.
    + intros E. split; [by apply (Hs p)|]. by apply Hsl.
  - destruct si_phase0 as (-> & ? & ?). split_and!; [done| | |done]; pose proof (u64_bound (numPhases s + 1)); lia.
Qed.

End inv.
End SchedulerInv.
