(* ===== verification/SchedulerOps.v ===== *)
(** * The calls of the scheduler keep its invariant

    Each primitive as a step of the invariant, then the scheduling decisions,
    the end of a phase, and the calls of the threads on scheduler and barrier
    together. *)

From stdpp Require Import gmap sets sorting.
From S2P Require Import Prelude MTRand Barrier Scheduler SchedulerInv.
Local Open Scope Z_scope.

Module SchedulerOps.
Import Scheduler SchedulerInv.

#[local] Opaque MTRandSpec.wf MTRand.N MTRand.seed.

Section prims.
Context {X : Type} `{Env X}.
Implicit Type s : t X.

Lemma wp_getTh p s th (Q : ThreadInfo -> t X -> Prop) : threads s !! p = Some th -> Q th s -> wp (getTh p) s Q.
Proof. intros Hp HQ. unfold getTh. apply wp_bind, wp_get. apply wp_lift with th; [by rewrite Hp|done]. Qed.

Lemma wp_getCtx c s x (Q : ContextInfo -> t X -> Prop) : contexts s !! c = Some x -> Q x s -> wp (getCtx c) s Q.
Proof. intros Hc HQ. unfold getCtx. apply wp_bind, wp_get. apply wp_lift with x; [by apply rd_some|done]. Qed.

Lemma wp_setTh p f s th (Q : unit -> t X -> Prop) : threads s !! p = Some th ->
  Q tt (set_threads (<[p := f th]> (threads s)) s) -> wp (setTh p f) s Q.
Proof. intros Hp HQ. unfold setTh. apply wp_bind. eapply wp_getTh; [done|]. exact HQ. Qed.

Lemma wp_onS {A} (m : ST (t X) A) b s (Q : A -> Barrier.t * t X -> Prop) :
  wp m s (fun a s' => Q a (b, s')) -> wp (onS m) (b, s) Q.
Proof. unfold wp, onS. destruct (m s) as [[a s']|]; done. Qed.

Lemma sinv_ext M F G s f : sinv M F G s -> sinv M F G (set_ext f s).
Proof. by apply sinv_same. Qed.

Lemma sinv_stat M F G s f : length (occHist (f (stat s))) = length (occHist (stat s)) ->
  length (runQueueHist (f (stat s))) = length (runQueueHist (stat s)) ->
  sinv M F G s -> sinv M F G (set_stat f s).
Proof. intros ? ?. by apply sinv_same. Qed.

Lemma sinv_sets M M' F F' G G' s : sinv M F G s -> M' = M -> F' = F -> G' = G -> sinv M' F' G' s.
Proof. by intros Hi -> -> ->. Qed.

Lemma owner_in M F G s n p : sinv M F G s -> p ∈ queue n s -> owner p s = Some n.
Proof.
  intros Hi Hp. destruct (si_queue _ _ _ _ Hi n p Hp) as (_ & th & Hth & Hst). unfold owner.
  assert (forall n', p ∈ queue n' s -> n' = n) as Hu.
  { intros n' Hp'. destruct (si_queue _ _ _ _ Hi n' p Hp') as (_ & th' & Hth' & Hst').
    rewrite Hth in Hth'. injection Hth' as <-. rewrite Hst in Hst'. by destruct n, n'. }
  repeat case_bool_decide.
  - by rewrite (Hu RunQ).
  - by rewrite (Hu OutQ).
  - by rewrite (Hu SleepQ).
  - by destruct n.
Qed.

Lemma owner_out p s : (forall n, p ∉ queue n s) -> owner p s = None.
Proof. intros Hn. unfold owner. by rewrite !bool_decide_false. Qed.

Lemma wp_remove n p s (Q : unit -> t X -> Prop) : owner p s = Some n ->
  Q tt (set_queue n (filter (fun x => x <> p) (queue n s)) s) -> wp (remove n p) s Q.
Proof.
  intros Hp HQ. unfold remove. apply wp_bind, wp_get, wp_bind, wp_assert; [by apply bool_decide_true|exact HQ].
Qed.

Lemma wp_push_back n p s (Q : unit -> t X -> Prop) : (forall n', p ∉ queue n' s) ->
  Q tt (set_queue n (queue n s ++ [p]) s) -> wp (push_back n p) s Q.
Proof.
  intros Hp HQ. unfold push_back. apply wp_bind, wp_get, wp_bind, wp_assert; [|exact HQ].
  apply bool_decide_true. by apply owner_out.
Qed.

Lemma wp_push_front n p s (Q : unit -> t X -> Prop) : (forall n', p ∉ queue n' s) ->
  Q tt (set_queue n (p :: queue n s) s) -> wp (push_front n p) s Q.
Proof.
  intros Hp HQ. unfold push_front. apply wp_bind, wp_get, wp_bind, wp_assert; [|exact HQ].
  apply bool_decide_true. by apply owner_out.
Qed.

Lemma wp_free_remove c s (Q : unit -> t X -> Prop) : c ∈ freeList s ->
  Q tt (set_freeList (filter (fun x => x <> c) (freeList s)) s) -> wp (free_remove c) s Q.
Proof.
  intros Hc HQ. unfold free_remove. apply wp_bind, wp_get, wp_bind, wp_assert; [by apply bool_decide_true|exact HQ].
Qed.

Lemma wp_free_push_back c s (Q : unit -> t X -> Prop) : c ∉ freeList s ->
  Q tt (set_freeList (freeList s ++ [c]) s) -> wp (free_push_back c) s Q.
Proof.
  intros Hc HQ. unfold free_push_back. apply wp_bind, wp_get, wp_bind, wp_assert; [by apply bool_decide_true|exact HQ].
Qed.

Lemma wp_schedule p c s th (Q : unit -> t X -> Prop) : threads s !! p = Some th -> contexts s !! c = Some idle ->
  state th = STARTED \/ state th = BLOCKED \/ state th = QUEUED ->
  Q tt (set_ext (core_contextSwitch c (gid th)) (set_stat inc_scheduleEvents (place_st p th c s))) ->
  wp (schedule p c) s Q.
Proof.
  intros Hp Hc Hs HQ. unfold schedule. apply wp_bind. eapply wp_getTh; [done|]. apply wp_bind. eapply wp_getCtx; [done|].
  do 3 (apply wp_bind, wp_assert; [by apply bool_decide_true|]).
  apply wp_bind. eapply wp_setTh; [done|]. exact HQ.
Qed.

(** What a core and the statistics see of a thread taken off. *)
Definition off_core (c : nat) (x : X) : X := core_contextSwitch c (-1) (procStats_notifyDeschedule x).

Lemma wp_deschedule p s th tgt (Q : unit -> t X -> Prop) : threads s !! p = Some th -> contexts s !! cid th = Some (used p) ->
  placed th -> tgt = BLOCKED \/ tgt = QUEUED \/ tgt = SLEEPING ->
  Q tt (set_ext (notifyDeschedule (cid th) (getPid (gid th))) (set_ext (off_core (cid th)) (unplace_st p th tgt s))) ->
  wp (deschedule p (cid th) tgt) s Q.
Proof.
  intros Hp Hc Hs Ht HQ. unfold deschedule. apply wp_bind. eapply wp_getTh; [done|]. apply wp_bind. eapply wp_getCtx; [done|].
  do 5 (apply wp_bind, wp_assert; [by apply bool_decide_true|]).
  apply wp_bind, wp_modify, wp_bind. eapply wp_setTh; [exact Hp|]. exact HQ.
Qed.

(** *** Searches *)

Lemma mask_at M F G s p th c : sinv M F G s -> threads s !! p = Some th -> (c < numCores s)%nat ->
  exists b, mask th !! c = Some b.
Proof.
  intros Hi Hp Hc. destruct (si_thread _ _ _ _ Hi p th Hp). apply lookup_lt_is_Some_2. lia.
Qed.

Lemma first_allowed_spec M F G s p th l : sinv M F G s -> threads s !! p = Some th ->
  (forall c, c ∈ l -> (c < numCores s)%nat) ->
  (exists c, first_allowed (mask th) l = Ok (Some c) /\ c ∈ l /\ mask th !! c = Some true) \/
  (first_allowed (mask th) l = Ok None /\ forall c, c ∈ l -> mask th !! c = Some false).
Proof.
  intros Hi Hp. induction l as [|c l IH]; intros Hl; cbn [first_allowed]; [right; split; [done|]; intros c Hc; by apply elem_of_nil in Hc|].
  destruct (mask_at _ _ _ _ _ _ c Hi Hp) as [b Hb]; [apply Hl; by left|]. rewrite (rd_some _ _ _ Hb). cbn [mbind outcome_bind].
  destruct b; [left; exists c; split_and!; [done|by left|done]|].
  destruct IH as [(c' & E & ? & ?)|[E Hf]]; [intros c' Hc'; apply Hl; by right| |].
  - left. exists c'. split_and!; [done|by right|done].
  - right. split; [done|]. intros c' Hc'. apply elem_of_cons in Hc' as [->|]; [done|by apply Hf].
Qed.

Lemma wp_first_for M F G s c l (Q : option nat -> t X -> Prop) : sinv M F G s -> (c < numCores s)%nat ->
  (forall q, q ∈ l -> exists thq, threads s !! q = Some thq) ->
  (forall q thq, q ∈ l -> threads s !! q = Some thq -> mask thq !! c = Some true -> Q (Some q) s) ->
  ((forall q thq, q ∈ l -> threads s !! q = Some thq -> mask thq !! c = Some false) -> Q None s) ->
  wp (first_for c l) s Q.
Proof.
  intros Hi Hc. induction l as [|q l IH]; intros Hl HS HN; cbn [first_for].
  - apply wp_ret, HN. intros q thq Hq. by apply elem_of_nil in Hq.
  - destruct (Hl q) as [thq Hq]; [by left|]. apply wp_bind. eapply wp_getTh; [done|].
    destruct (mask_at _ _ _ _ _ _ c Hi Hq Hc) as [b Hb]. apply wp_bind. eapply wp_lift; [by apply rd_some|].
    destruct b; [apply wp_ret; apply (HS q thq); [by left|done|done]|]. apply IH.
    + intros q' Hq'. apply Hl. by right.
    + intros q' thq' Hq'. apply HS. by right.
    + intros Hf. apply HN. intros q' thq' Hq' Ht'. apply elem_of_cons in Hq' as [->|Hq']; [congruence|by apply (Hf q')].
Qed.

Lemma wp_first_out M F G s p th l (Q : option nat -> t X -> Prop) : sinv M F G s -> threads s !! p = Some th ->
  (forall o, o ∈ l -> exists tho, threads s !! o = Some tho) ->
  (forall o tho, o ∈ l -> threads s !! o = Some tho -> mask th !! cid tho = Some true -> Q (Some o) s) ->
  ((forall o tho, o ∈ l -> threads s !! o = Some tho -> mask th !! cid tho = Some false) -> Q None s) ->
  wp (first_out (mask th) l) s Q.
Proof.
  intros Hi Hp. induction l as [|o l IH]; intros Hl HS HN; cbn [first_out].
  - apply wp_ret, HN. intros q thq Hq. by apply elem_of_nil in Hq.
  - destruct (Hl o) as [tho Ho]; [by left|]. apply wp_bind. eapply wp_getTh; [done|].
    destruct (mask_at _ _ _ _ _ _ (cid tho) Hi Hp) as [b Hb]; [by destruct (si_thread _ _ _ _ Hi o tho Ho)|].
    apply wp_bind. eapply wp_lift; [by apply rd_some|].
    destruct b; [apply wp_ret; apply (HS o tho); [by left|done|done]|]. apply IH.
    + intros q' Hq'. apply Hl. by right.
    + intros q' thq' Hq'. apply HS. by right.
    + intros Hf. apply HN. intros q' thq' Hq' Ht'. apply elem_of_cons in Hq' as [->|Hq']; [congruence|by apply (Hf q')].
Qed.

Lemma queue_thread M F G s n q : sinv M F G s -> q ∈ queue n s -> exists thq, threads s !! q = Some thq.
Proof. intros Hi Hq. destruct (si_queue _ _ _ _ Hi n q Hq) as (_ & th & ? & _). by exists th. Qed.

(** *** The scheduling decisions *)

Lemma wp_schedContext M F G s c (Q : option nat -> t X -> Prop) : sinv M F G s -> (c < numCores s)%nat ->
  (forall q thq, q ∈ queue RunQ s -> threads s !! q = Some thq -> mask thq !! c = Some true ->
     Q (Some q) (set_queue RunQ (filter (fun x => x <> q) (queue RunQ s)) s)) ->
  ((forall q thq, q ∈ queue RunQ s -> threads s !! q = Some thq -> mask thq !! c = Some false) -> Q None s) ->
  wp (schedContext c) s Q.
Proof.
  intros Hi Hc HS HN. unfold schedContext. apply wp_bind, wp_get, wp_bind.
  eapply wp_first_for; [done|done|by intros q; apply (queue_thread _ _ _ _ _ _ Hi)| |].
  - intros q thq Hq Ht Hm. apply wp_bind. apply wp_remove; [by eapply owner_in|]. apply wp_ret. by apply (HS q thq).
  - intros Hf. apply wp_ret. by apply HN.
Qed.

(** What a decision leaves alone: threads with a handoff or a sleep mark, and
    the parts of the state that only other calls change. *)
Record calm s s' : Prop := {
  calm_busy v thv : threads s' !! v = Some thv -> handoffThread thv <> None \/ markedForSleep thv = true ->
    threads s !! v = Some thv;
  calm_queue n x : x ∈ queue n s' -> x ∈ queue n s;
  calm_cores : numCores s' = numCores s;
  calm_rnd : rnd s' = rnd s;
  calm_gids : gidMap s' = gidMap s;
  calm_phase : curPhase s' = curPhase s }.

Lemma calm_refl s : calm s s.
Proof. by split. Qed.

Lemma calm_trans s1 s2 s3 : calm s1 s2 -> calm s2 s3 -> calm s1 s3.
Proof.
  intros [b1 q1 ? ? ? ?] [b2 q2 ? ? ? ?]. split; [|auto|congruence..].
  intros v thv Hv Hb. apply b1; [|done]. by apply b2.
Qed.

Lemma calm_handed s s' q : calm s s' -> handed q s' -> handed q s.
Proof.
  intros Hc (v & thv & Hv & Hq). exists v, thv. split; [|done]. apply (calm_busy _ _ Hc); [done|left; congruence].
Qed.

(** A thread that is not busy changed into one that is not. *)
Lemma calm_thread s p th' : handoffThread th' = None -> markedForSleep th' = false ->
  calm s (set_threads (<[p := th']> (threads s)) s).
Proof.
  intros Hh Hm. split; proj; try done. intros v thv. rewrite lookup_insert_Some.
  intros [[<- <-]|[? ?]] Hb; [|done]. rewrite Hh, Hm in Hb. naive_solver.
Qed.

Lemma idle_not_running M F G s c : sinv M F G s -> c ∈ F -> c ∉ M.
Proof.
  intros Hi Hc. rewrite (si_M _ _ _ _ Hi). intros (p & th & E & _). rewrite (si_flight _ _ _ _ Hi c Hc) in E. discriminate E.
Qed.

Lemma out_quiet M F G s o tho : sinv M F G s -> o ∈ queue OutQ s -> threads s !! o = Some tho ->
  o ∉ G /\ placed tho /\ handoffThread tho = None /\ markedForSleep tho = false /\ fakeLeave tho = None /\ state tho = OUT.
Proof.
  intros Hi Ho Ht. destruct (si_queue _ _ _ _ Hi OutQ o Ho) as (HG & th & Hth & Hst). rewrite Ht in Hth. injection Hth as <-.
  destruct (si_thread _ _ _ _ Hi o tho Ht) as [_ _ _ Hm _ Hf]. cbn in Hst. split_and!; [done|by right| | | |done].
  - destruct (handoffThread tho) as [q|] eqn:E; [|done]. destruct (si_handoff _ _ _ _ Hi o tho q Ht E) as [? _]. congruence.
  - destruct (markedForSleep tho); [|done]. destruct Hm as [? _]; [done|congruence].
  - destruct (fakeLeave tho); [|done]. destruct Hf as [_ ?]; [done|congruence].
Qed.

Lemma handed_queued M F G s q thq : sinv M F G s -> threads s !! q = Some thq -> handed q s -> state thq = QUEUED.
Proof.
  intros Hi Hq (v & thv & Hv & Hvq). destruct (si_handoff _ _ _ _ Hi v thv q Hv Hvq) as (_ & _ & _ & _ & th & Hth & ?). congruence.
Qed.

(** The context of a thread that left in this phase is taken from it. *)
Lemma sinv_steal M F G s o tho : sinv M F G s -> o ∈ queue OutQ s -> threads s !! o = Some tho ->
  let s1 := set_queue OutQ (filter (fun x => x <> o) (queue OutQ s)) s in
  sinv M ({[cid tho]} ∪ F) G (unplace_st o tho BLOCKED s1) /\ calm s (unplace_st o tho BLOCKED s1).
Proof.
  intros Hi Ho Ht s1. destruct (out_quiet _ _ _ _ _ _ Hi Ho Ht) as (HG & Hpl & Hh & Hm & Hf & Hs).
  pose proof (sinv_remove _ _ _ _ _ _ Hi Ho) as Hi1. fold s1 in Hi1.
  assert (forall n, o ∉ queue n s1) as Hnq by (intros n Hin; destruct (si_queue _ _ _ _ Hi1 n o Hin) as [Hn _]; qset).
  pose proof (sinv_unplace _ _ _ _ o tho BLOCKED Hi1 Ht Hpl Hnq Hh Hm Hf ltac:(by left) ltac:(done)) as Hi2.
  assert (threads (unplace_st o tho BLOCKED s1) !! o = Some (with_state BLOCKED tho)) as Ho2
    by (unfold unplace_st; proj; by rewrite lookup_insert_eq).
  assert (sinv M ({[cid tho]} ∪ F) G (unplace_st o tho BLOCKED s1)) as Hi3.
  { eapply sinv_sets; [eapply sinv_land; [exact Hi2|exact Ho2|by intros []]| |reflexivity|].
    - symmetry. apply BarrierInv.not_in_remove. intros HM. apply (si_M _ _ _ _ Hi) in HM as (p & th & Hc & Hp & Hr).
      rewrite (si_place _ _ _ _ Hi o tho Ht Hpl) in Hc. injection Hc as <-. congruence.
    - apply set_eq. intros x. destruct (decide (x = o)) as [->|]; qset. }
  split; [done|]. apply calm_trans with s1; [|split; unfold unplace_st; proj; try done].
  - split; try done. intros n x. unfold s1. rewrite queue_set. case_decide; [subst; rewrite list_elem_of_filter; tauto|done].
  - intros v thv. rewrite lookup_insert_Some. intros [[<- <-]|[? ?]] Hb; [|done]. cbn in Hb. rewrite Hh, Hm in Hb. naive_solver.
Qed.

Lemma sinv_free_take M F G s c : sinv M F G s -> c ∈ freeList s ->
  let s1 := set_freeList (filter (fun x => x <> c) (freeList s)) s in sinv M ({[c]} ∪ F) G s1 /\ calm s s1.
Proof. intros Hi Hc s1. split; [by apply sinv_free_remove|by split]. Qed.

Lemma free_small M F G s c : sinv M F G s -> c ∈ freeList s -> (c < numCores s)%nat.
Proof.
  intros Hi Hc. apply (si_free_iff _ _ _ _ Hi) in Hc as [Hc _]. rewrite <- (si_len _ _ _ _ Hi). by eapply lookup_lt_Some.
Qed.

Lemma wp_schedThread M G s p th (Q : option nat -> t X -> Prop) : sinv M ∅ G s -> threads s !! p = Some th -> state th <> OUT ->
  (forall c s', sinv M {[c]} G s' -> calm s s' -> threads s' !! p = Some th -> Q (Some c) s') ->
  ((forall c, available c s -> mask th !! c = Some false) -> Q None s) ->
  wp (schedThread p) s Q.
Proof.
  intros Hi Hp Hno HS HN. unfold schedThread. apply wp_bind, wp_get, wp_bind. eapply wp_getTh; [done|].
  destruct (si_thread _ _ _ _ Hi p th Hp) as [Hcid _ _ _ _ _].
  apply wp_bind, wp_assert; [by apply bool_decide_true|]. apply wp_bind.
  destruct (lookup_lt_is_Some_2 (contexts s) (cid th)) as [x Hx]; [by rewrite (si_len _ _ _ _ Hi)|].
  eapply wp_getCtx; [exact Hx|]. apply wp_bind.
  assert (forall c s', sinv M {[c]} G s' -> calm s s' -> threads s' !! p = Some th -> mask th !! c = Some true ->
    wp (b ← lift (rd (mask th) c); _ ← assertS b; mret (Some c)) s' Q) as Hfin.
  { intros c s' Hi' Hc' Hp' Hm. apply wp_bind. eapply wp_lift; [by apply rd_some|]. apply wp_bind, wp_assert; [done|].
    apply wp_ret. by apply HS. }
  destruct (mask_at _ _ _ _ _ _ (cid th) Hi Hp Hcid) as [b Hb].
  assert (wp (if bool_decide (cstate x = IDLE) then lift (rd (mask th) (cid th)) else mret false) s
    (fun m s' => s' = s /\ (m = true -> cid th ∈ freeList s /\ mask th !! cid th = Some true))) as Hm.
  { case_bool_decide as Hidle; [|by apply wp_ret]. eapply wp_lift; [by apply rd_some|]. split; [done|]. intros ->. split; [|done].
    apply (si_free_iff _ _ _ _ Hi). split; [|qset]. destruct (si_ctx _ _ _ _ Hi _ _ Hx) as [->|(? & ? & -> & _)]; done. }
  eapply wp_mono; [exact Hm|]. cbv beta. intros m s' [-> Hmt]. apply wp_bind. destruct m.
  - destruct (Hmt eq_refl) as [Hf Hmk]. apply wp_bind. apply wp_free_remove; [done|]. apply wp_ret.
    destruct (sinv_free_take _ _ _ _ _ Hi Hf) as [Hi1 Hc1]. apply Hfin; [|done|done|done].
    eapply sinv_sets; [exact Hi1|done| |done]. qset.
  - apply wp_bind. clear Hmt Hm.
    destruct (first_allowed_spec _ _ _ _ _ _ (freeList s) Hi Hp) as [(c & E & Hf & Hmk)|[E Hnf]];
      [by intros c Hc; eapply free_small| |]; (eapply wp_lift; [exact E|]).
    + apply wp_bind. apply wp_free_remove; [done|]. apply wp_ret.
      destruct (sinv_free_take _ _ _ _ _ Hi Hf) as [Hi1 Hc1]. apply Hfin; [|done|done|done].
      eapply sinv_sets; [exact Hi1|done| |done]. qset.
    + unfold steal_out. apply wp_bind, wp_get, wp_bind.
      eapply wp_first_out; [done|done|by intros o; apply (queue_thread _ _ _ _ _ _ Hi)| |].
      * intros o tho Ho Ht Hmk. apply wp_bind. eapply wp_getTh; [done|]. apply wp_bind. apply wp_remove; [by eapply owner_in|].
        destruct (out_quiet _ _ _ _ _ _ Hi Ho Ht) as (HG & Hpl & _). pose proof (si_place _ _ _ _ Hi o tho Ht Hpl) as Hco.
        apply wp_bind. apply wp_deschedule; [done|done|done|by left|]. apply wp_ret.
        destruct (sinv_steal _ _ _ _ _ _ Hi Ho Ht) as [Hi1 Hc1].
        apply Hfin; [| | |done].
        -- apply sinv_ext, sinv_ext. eapply sinv_sets; [exact Hi1|done| |done]. qset.
        -- destruct Hc1. by split.
        -- unfold unplace_st. proj. rewrite lookup_insert_ne; [done|]. intros <-.
           destruct (out_quiet _ _ _ _ _ _ Hi Ho Hp) as (_ & _ & _ & _ & _ & ?). done.
      * intros Hno2. apply wp_ret, wp_ret, HN. intros c [Hc|(o & tho & Ho & Ht & <-)]; [by apply Hnf|by apply (Hno2 o)].
Qed.

(** *** The end of a phase *)

Lemma wp_wakeup p j s th (Q : unit -> t X -> Prop) : threads s !! p = Some th -> futexWord th = 1 ->
  Q tt (set_threads (<[p := with_futexWord 0 j th]> (threads s)) s) -> wp (wakeup p j) s Q.
Proof.
  intros Hp Hf HQ. unfold wakeup. apply wp_bind. eapply wp_getTh; [done|]. rewrite bool_decide_true by done. by eapply wp_setTh.
Qed.

(** What the end of a phase leaves alone. *)
Record phase_frame s s' : Prop := {
  pf_mark v thv' : threads s' !! v = Some thv' ->
    exists thv, threads s !! v = Some thv /\ markedForSleep thv' = markedForSleep thv;
  pf_threads v thv : threads s !! v = Some thv ->
    exists thv', threads s' !! v = Some thv' /\ (state thv' = state thv \/ (state thv = SLEEPING /\ state thv' = BLOCKED));
  pf_gids : gidMap s' = gidMap s;
  pf_cores : numCores s' = numCores s;
  pf_quantum : schedQuantum s' = schedQuantum s;
  pf_phase : curPhase s' = curPhase s /\ numPhases s' = numPhases s }.

Lemma phase_frame_refl s : phase_frame s s.
Proof. split; try done; intros v thv Hv; exists thv; auto. Qed.

Lemma phase_frame_trans s1 s2 s3 : phase_frame s1 s2 -> phase_frame s2 s3 -> phase_frame s1 s3.
Proof.
  intros [m1 t1 ? ? ? [? ?]] [m2 t2 ? ? ? [? ?]]. split; [| |congruence|congruence|congruence|split; congruence].
  - intros v thv Hv. destruct (m2 v thv Hv) as (thv2 & Hv2 & E2). destruct (m1 v thv2 Hv2) as (thv1 & Hv1 & E1).
    exists thv1. split; [done|congruence].
  - intros v thv Hv. destruct (t1 v thv Hv) as (thv1 & Hv1 & E1). destruct (t2 v thv1 Hv1) as (thv2 & Hv2 & E2).
    exists thv2. split; [done|intuition congruence].
Qed.

Lemma phase_frame_thread s p th th' : threads s !! p = Some th -> markedForSleep th' = markedForSleep th ->
  state th' = state th \/ (state th = SLEEPING /\ state th' = BLOCKED) ->
  phase_frame s (set_threads (<[p := th']> (threads s)) s).
Proof.
  intros Hp Hm Hs. split; proj; try done; intros v thv.
  - rewrite lookup_insert_Some. intros [[<- <-]|[? ?]]; eauto.
  - intros Hv. destruct (decide (p = v)) as [<-|]; [exists th'|exists thv; rewrite lookup_insert_ne by done; auto].
    rewrite lookup_insert_eq. split; [done|]. by rewrite Hp in Hv; injection Hv as <-.
Qed.

Lemma phase_frame_queue s n l : phase_frame s (set_queue n l s).
Proof. split; proj; try done; intros v thv Hv; exists thv; auto. Qed.

(** A sleeper at the front woken up. *)
Lemma sinv_wake M s p l th : sinv M ∅ ∅ s -> queue SleepQ s = p :: l -> threads s !! p = Some th ->
  sinv M ∅ ∅ (set_queue SleepQ l (set_threads (<[p := with_futexWord 0 false (with_state BLOCKED th)]> (threads s)) s)).
Proof.
  intros Hi Hq Hp. assert (p ∈ queue SleepQ s) as Hin by (rewrite Hq; by left).
  pose proof (in_queue _ _ _ _ _ _ _ Hi Hp Hin) as Hst. cbn in Hst.
  pose proof (sinv_remove _ _ _ _ _ _ Hi Hin) as Hi1.
  assert (filter (fun x => x <> p) (queue SleepQ s) = l) as Hl.
  { pose proof (si_nodup _ _ _ _ Hi SleepQ) as Hnd. rewrite Hq in *. apply NoDup_cons in Hnd as [Hn _].
    rewrite filter_cons_False by (intros Hne; by apply Hne). by apply filter_others. }
  rewrite Hl in Hi1. set (s1 := set_queue SleepQ l s) in *.
  assert (handoffThread th = None) as Hh.
  { destruct (handoffThread th) as [q|] eqn:E; [|done]. destruct (si_handoff _ _ _ _ Hi p th q Hp E) as [? _]. congruence. }
  assert (forall n, p ∉ queue n s1) as Hnq by (intros n Hn; destruct (si_queue _ _ _ _ Hi1 n p Hn) as [Hn' _]; set_solver).
  destruct (si_thread _ _ _ _ Hi p th Hp) as [? ? ? Hm ? Hf].
  set (th' := with_futexWord 0 false (with_state BLOCKED th)).
  assert (sinv M ∅ ({[p]} ∪ ∅) (set_threads (<[p := th']> (threads s1)) s1)) as Hi2.
  { apply sinv_thread with M ({[p]} ∪ ∅) th; try done.
    - unfold placed, th'. cbn. rewrite Hst. intuition congruence.
    - split; unfold th'; cbn; try done.
      + intros E. destruct (Hm E) as [? _]. congruence.
      + intros E. destruct (Hf E) as [_ ?]. congruence.
    - intros n Hn. by destruct (Hnq n).
    - intros Hhd. pose proof (handed_queued _ _ _ _ _ _ Hi1 Hp Hhd). congruence.
    - intros n E. by destruct n.
    - unfold th'. cbn. intros _ [E|E]; discriminate E.
    - by left.
    - intros c. unfold th'. cbn. split; [|intros [[? _]|[_ E]]; [done|discriminate E]].
      intros Hc. left. split; [done|]. intros [E|E]; congruence. }
  assert (threads (set_threads (<[p := th']> (threads s1)) s1) !! p = Some th') as Hp2 by (proj; by rewrite lookup_insert_eq).
  eapply sinv_sets; [exact (sinv_land _ _ _ _ _ _ Hi2 Hp2 ltac:(by intros []))|done|done|]. set_solver.
Qed.

Definition same_hands s s' : Prop := forall v thv', threads s' !! v = Some thv' ->
  exists thv, threads s !! v = Some thv /\ handoffThread thv' = handoffThread thv.

Lemma wp_wake_sleepers M old l s : sinv M ∅ ∅ (set_phases old old s) -> curPhase s = old +64 1 -> l = queue SleepQ s ->
  wp (wake_sleepers l) s (fun _ s' => sinv M ∅ ∅ (set_phases old old s') /\ phase_frame s s' /\ rnd s' = rnd s /\ same_hands s s' /\
    forall p th, threads s' !! p = Some th -> state th = SLEEPING -> curPhase s' < wakeupPhase th).
Proof.
  revert s. induction l as [|p l IH]; intros s Hi Hc Hl; cbn [wake_sleepers].
  - apply wp_ret. split_and!; [done|apply phase_frame_refl|done|by intros v thv; exists thv|]. intros p th Hp Hs.
    destruct (si_queued _ _ _ _ Hi SleepQ p th Hp Hs ltac:(set_solver)) as [Hin|[? _]]; [|done].
    change (queue SleepQ (set_phases old old s)) with (queue SleepQ s) in Hin. rewrite <- Hl in Hin. by apply elem_of_nil in Hin.
  - assert (p ∈ queue SleepQ s) as Hin by (rewrite <- Hl; by left).
    destruct (si_queue _ _ _ _ Hi SleepQ p Hin) as (_ & th & Hp & Hst). proj.
    destruct (si_thread _ _ _ _ Hi p th Hp) as [_ _ _ _ Hsl _]. specialize (Hsl Hst). proj.
    destruct (si_phase _ _ _ _ Hi) as (_ & Hold & _). proj.
    apply wp_bind. eapply wp_getTh; [done|]. apply wp_bind, wp_get.
    destruct (Z.leb_spec (wakeupPhase th) (curPhase s)) as [Hle|Hgt].
    + assert (wakeupPhase th = curPhase s) as Hw.
      { rewrite Hc in *. destruct (Z.eq_dec (old + 1) max64) as [E|E].
        - rewrite E in Hle. assert (u64 max64 = 0) as Hz by (rewrite max64_eq; reflexivity). lia.
        - rewrite u64_small in * by lia. lia. }
      apply wp_bind, wp_assert; [by apply bool_decide_true|].
      apply wp_bind. eapply wp_setTh; [done|]. apply wp_bind. eapply wp_wakeup; [proj; by rewrite lookup_insert_eq| |].
      { cbn. apply (si_futex _ _ _ _ Hi p th Hp); [set_solver|by right]. }
      proj. rewrite insert_insert_eq. apply wp_bind, wp_get, wp_bind.
      set (s1 := set_threads _ (set_threads _ s)).
      change (wp (put (set_queue SleepQ (tail (queue SleepQ s)) s1)) s1 (fun _ s' => wp (wake_sleepers l) s' 
        (fun _ s'0 => sinv M ∅ ∅ (set_phases old old s'0) /\ phase_frame s s'0 /\ rnd s'0 = rnd s /\ same_hands s s'0 /\
          forall p th, threads s'0 !! p = Some th -> state th = SLEEPING -> curPhase s'0 < wakeupPhase th))).
      rewrite <- Hl. cbn [tail]. set (s2 := set_queue SleepQ l s1).
      pose proof (sinv_wake M (set_phases old old s) p l th Hi (eq_sym Hl) Hp) as Hi2.
      specialize (IH s2 Hi2 Hc eq_refl). unfold wp at 1. cbn [put]. eapply wp_mono; [exact IH|]. cbv beta.
      intros ? s' (Hi' & Hf' & Hr' & Hh' & Hs'). split_and!; [done| |done| |done].
      * eapply phase_frame_trans; [|exact Hf']. eapply phase_frame_trans; [|apply phase_frame_queue]. apply (phase_frame_thread s p th); [done|done|by right].
      * intros v thv' Hv. destruct (Hh' v thv' Hv) as (thv & Hv2 & ->). unfold s2, s1 in Hv2. proj.
        rewrite lookup_insert_Some in Hv2. destruct Hv2 as [[<- <-]|[? ?]]; [by exists th|by exists thv].
    + apply wp_ret. split_and!; [done|apply phase_frame_refl|done|by intros v thv; exists thv|]. intros p' th' Hp' Hs'.
      destruct (si_queued _ _ _ _ Hi SleepQ p' th' Hp' Hs' ltac:(set_solver)) as [Hin'|[? _]]; [|done].
      pose proof (si_sorted _ _ _ _ Hi) as Hso. change (queue SleepQ (set_phases old old s)) with (queue SleepQ s) in *.
      rewrite <- Hl in Hso, Hin'. apply elem_of_cons in Hin' as [->|Hin']; [congruence|].
      inversion Hso; subst. match goal with H : Forall _ l |- _ => rewrite Forall_forall in H; specialize (H p' Hin' th th' Hp Hp') end. lia.
Qed.

Lemma tick_shuffle_spec fuel i (l : list nat) g : (i < length l \/ i = 0)%nat -> MTRandSpec.wf g -> is_ok (shuffle fuel i l g) = true ->
  exists l' g', shuffle fuel i l g = Ok (l', g') /\ (forall x, x ∈ l' -> x ∈ l) /\ MTRandSpec.wf g'.
Proof.
  revert l g. induction i as [|i IH]; intros l g Hi Hg Hok; cbn [shuffle] in *; [by exists l, g|].
  destruct (MTRand.randIntN fuel g (Z.of_nat (S i))) as [[j g1]|] eqn:Er; [|done]. cbn [mbind outcome_bind] in *.
  destruct (randInt_loop_spec _ _ _ _ _ _ Hg Er) as [Hj Hg1].
  destruct (lookup_lt_is_Some_2 l (S i) ltac:(lia)) as [a Ha]. destruct (lookup_lt_is_Some_2 l (Z.to_nat j) ltac:(lia)) as [b Hb].
  rewrite (rd_some _ _ _ Ha), (rd_some _ _ _ Hb) in *. cbn [mbind outcome_bind] in *.
  rewrite wr_lt in * by lia. cbn [mbind outcome_bind] in *. rewrite wr_lt in * by (rewrite length_insert; lia).
  cbn [mbind outcome_bind] in *. destruct (IH (<[Z.to_nat j := a]> (<[S i := b]> l)) g1) as (l' & g' & E & Hin & Hg'); [rewrite !length_insert; lia|done|done|].
  exists l', g'. split_and!; [done| |done]. intros x Hx. apply Hin in Hx. apply list_elem_of_lookup in Hx as [k Hk].
  rewrite !list_lookup_insert_Some in Hk. destruct Hk as [(_ & <- & _)|(_ & [(_ & <- & _)|(_ & Hk)])];
    by eapply list_elem_of_lookup_2.
Qed.

(** No thread has a handoff on a context that the tick may still give away. *)
Definition unclaimed (avail : list nat) s : Prop :=
  forall v thv, threads s !! v = Some thv -> handoffThread thv <> None -> cid thv ∉ avail.

Lemma tick_victim M s p th c avail : sinv M ∅ ∅ s -> p ∈ queue RunQ s -> threads s !! p = Some th ->
  (c < numCores s)%nat -> c ∈ avail -> mask th !! c = Some true -> unclaimed avail s ->
  exists v thv, contexts s !! c = Some (used v) /\ threads s !! v = Some thv /\ cid thv = c /\
    state thv = RUNNING /\ handoffThread thv = None.
Proof.
  intros Hi Hq Hp Hc Hav Hm Hun.
  assert (~ available c s) as Hna.
  { intros Ha. rewrite (si_W _ _ _ _ Hi p th c Hq Hp Ha) in Hm. discriminate Hm. }
  destruct (context_of _ _ _ _ _ Hi Hc) as [Hidle|(v & thv & Hv & Hth & Hci & Hpl)].
  - destruct Hna. left. apply (si_free_iff _ _ _ _ Hi). split; [done|set_solver].
  - exists v, thv. split_and!; [done|done|done| |].
    + destruct Hpl as [|Ho]; [done|]. destruct Hna. right. exists v, thv. split_and!; [|done|done].
      destruct (si_queued _ _ _ _ Hi OutQ v thv Hth Ho ltac:(set_solver)) as [|[? _]]; done.
    + destruct (handoffThread thv) eqn:E; [|done]. exfalso. apply (Hun v thv Hth); [congruence|]. by rewrite Hci.
Qed.

Lemma wp_tick_loop M l avail s : sinv M ∅ ∅ s -> NoDup l -> (forall p, p ∈ l -> p ∈ queue RunQ s) ->
  (forall c, c ∈ avail -> (c < numCores s)%nat) -> unclaimed avail s ->
  wp (tick_loop l avail) s (fun _ s' => sinv M ∅ ∅ s' /\ phase_frame s s').
Proof.
  revert avail s. induction l as [|p l IH]; intros avail s Hi Hnd Hl Hav Hun; cbn [tick_loop]; [by apply wp_ret; split; [|apply phase_frame_refl]|].
  case_bool_decide; [by apply wp_ret; split; [|apply phase_frame_refl]|].
  apply NoDup_cons in Hnd as [Hpl Hnd]. assert (p ∈ queue RunQ s) as Hpq by (apply Hl; by left).
  destruct (si_queue _ _ _ _ Hi RunQ p Hpq) as (_ & th & Hp & Hst).
  apply wp_bind. unfold tick_thread. apply wp_bind. eapply wp_getTh; [done|]. apply wp_bind.
  destruct (first_allowed_spec _ _ _ _ _ _ avail Hi Hp Hav) as [(c & E & Hc & Hm)|[E _]]; (eapply wp_lift; [exact E|]).
  2:{ apply wp_ret. apply IH; [done|done| |done|done]. intros q Hq. apply Hl. by right. }
  destruct (tick_victim _ _ _ _ _ _ Hi Hpq Hp (Hav c Hc) Hc Hm Hun) as (v & thv & Hv & Hth & Hci & Hr & Hh).
  apply wp_bind. eapply wp_getCtx; [exact Hv|]. cbn [curThread]. apply wp_bind. eapply wp_setTh; [done|].
  apply wp_bind. apply wp_remove; [exact (owner_in _ _ _ _ _ _ Hi Hpq)|]. apply wp_ret.
  set (s1 := set_queue RunQ (filter (fun x => x <> p) (queue RunQ s)) s).
  pose proof (sinv_remove _ _ _ _ _ _ Hi Hpq) as Hi1. fold s1 in Hi1.
  assert (v <> p) as Hvp by (intros ->; rewrite Hp in Hth; injection Hth as <-; cbn in Hst; congruence).
  pose proof (sinv_set_handoff M ∅ ∅ s1 v thv p th Hi1 Hth Hh Hr Hp Hst
    (si_futex _ _ _ _ Hi p th Hp ltac:(set_solver) ltac:(by left)) ltac:(set_solver) ltac:(set_solver)) as Hi2.
  change (set_threads (<[v := with_handoff (Some p) thv]> (threads s1)) s1) with
    (set_queue RunQ (filter (fun x => x <> p) (queue RunQ s)) (set_threads (<[v := with_handoff (Some p) thv]> (threads s)) s)) in Hi2.
  set (s2 := set_queue RunQ _ (set_threads _ s)) in *.
  assert (phase_frame s s2) as Hf.
  { eapply phase_frame_trans; [apply (phase_frame_thread s v thv (with_handoff (Some p) thv)); [done|done|by left]|apply phase_frame_queue]. }
  eapply wp_mono; [apply (IH (filter (fun x => x <> c) avail) s2 Hi2 Hnd)|].
  - intros q Hq. unfold s2. rewrite queue_set_eq. apply list_elem_of_filter. split; [by intros ->|]. apply Hl. by right.
  - intros c' Hc'. apply list_elem_of_filter in Hc' as [_ Hc']. by apply Hav.
  - intros u thu Hu Huh Hin. apply list_elem_of_filter in Hin as [Hne Hin]. unfold s2 in Hu. proj.
    rewrite lookup_insert_Some in Hu. destruct Hu as [[<- <-]|[? Hu]]; [done|]. by apply (Hun u thu).
  - cbv beta. intros ? s' [Hi' Hf']. split; [done|]. by eapply phase_frame_trans.
Qed.

(** Enough fuel for the shuffle of the next tick. *)
Definition tick_draws (fuel : nat) s : Prop :=
  is_ok (shuffle fuel (numCores s - 1) (seq 0 (numCores s)) (rnd s)) = true.

Lemma sinv_rnd M F G s g : MTRandSpec.wf g -> sinv M F G s -> sinv M F G (set_rnd g s).
Proof.
  intros Hg Hi. pose proof Hi as []. split; proj; try done.
  intros p th Hp. destruct (si_thread0 p th Hp). by split.
Qed.

Lemma wp_schedTick fuel M s : sinv M ∅ ∅ s -> tick_draws fuel s ->
  (forall v thv, threads s !! v = Some thv -> handoffThread thv = None) ->
  wp (schedTick fuel) s (fun _ s' => sinv M ∅ ∅ s' /\ phase_frame s s').
Proof.
  intros Hi Hd Hh. unfold schedTick. apply wp_bind, wp_get, wp_bind.
  destruct (tick_shuffle_spec fuel (numCores s - 1) (seq 0 (numCores s)) (rnd s)) as (avail & g & E & Hin & Hg);
    [rewrite length_seq; lia|apply (si_rnd _ _ _ _ Hi)|exact Hd|].
  eapply wp_lift; [exact E|]. apply wp_bind, wp_modify, wp_bind, wp_get.
  pose proof (sinv_rnd _ _ _ _ g Hg Hi) as Hi1.
  eapply wp_mono; [apply (wp_tick_loop M _ avail _ Hi1)|].
  - apply (si_nodup _ _ _ _ Hi1).
  - done.
  - intros c Hc. apply Hin, elem_of_seq in Hc. cbn. lia.
  - intros v thv Hv Hn. by destruct Hn; apply (Hh v).
  - cbv beta. intros ? s' [Hi' [? ? ? ? ? ?]]. split; [done|]. by split.
Qed.

(** Threads stay, and only sleepers change state. *)
Definition kept s s' : Prop := gidMap s' = gidMap s /\ forall v thv, threads s !! v = Some thv ->
  exists thv', threads s' !! v = Some thv' /\ (state thv' = state thv \/ (state thv = SLEEPING /\ state thv' = BLOCKED)).

Lemma wp_callback fuel M s : sinv M ∅ ∅ s -> tick_draws fuel s ->
  (forall v thv, threads s !! v = Some thv -> handoffThread thv = None /\ markedForSleep thv = false) ->
  wp (callback fuel) s (fun _ s' => sinv M ∅ ∅ s' /\
    (forall v thv, threads s' !! v = Some thv -> markedForSleep thv = false) /\
    curPhase s' = curPhase s +64 1 /\ numCores s' = numCores s /\ kept s s').
Proof.
  intros Hi Hd Hq. pose proof Hi as []. unfold callback. apply wp_bind, wp_get.
  pose proof (busy_le (contexts s)) as Hb. rewrite si_len0 in Hb. destruct si_hists0 as [Ho Hr].
  apply wp_bind, wp_assert; [apply Z.leb_le; lia|].
  destruct (lookup_lt_is_Some_2 (occHist (stat s)) (Z.to_nat (scheduledThreads s)) ltac:(lia)) as [a Ha].
  apply wp_bind. eapply wp_lift; [by apply upd_ok|].
  set (last := (length (runQueueHist (stat s)) - 1)%nat). set (pos := if (_ <? last)%nat then _ else last).
  assert (pos < length (runQueueHist (stat s)))%nat as Hpos.
  { unfold pos. destruct (Nat.ltb_spec (length (queue RunQ s)) last); unfold last in *; lia. }
  destruct (lookup_lt_is_Some_2 (runQueueHist (stat s)) pos Hpos) as [r Hrp].
  apply wp_bind. eapply wp_lift; [by apply upd_ok|].
  apply wp_bind, wp_modify, wp_bind, wp_modify, wp_bind, wp_modify, wp_bind, wp_modify, wp_bind, wp_get.
  set (s1 := set_phases _ _ _). destruct si_phase0 as (Eph & Hph & Hqu).
  apply wp_bind, wp_assert; [apply bool_decide_true; unfold s1; proj; by rewrite Eph|]. apply wp_bind.
  set (s0 := set_phases (curPhase s) (curPhase s) s1).
  assert (sinv M ∅ ∅ s0) as Hi0.
  { apply (sinv_same _ _ _ s); try reflexivity; [exact Eph|apply length_insert|apply length_insert|exact Hi]. }
  eapply wp_mono; [apply (wp_wake_sleepers M (curPhase s) _ s1 Hi0 eq_refl eq_refl)|].
  cbv beta. intros ? s2 (Hi2 & Hf2 & Hrnd & Hhd & Hsl).
  assert (forall v thv, threads s2 !! v = Some thv -> markedForSleep thv = false) as Hm2.
  { intros v thv Hv. destruct (pf_mark _ _ Hf2 v thv Hv) as (thv0 & Hv0 & ->). by apply (Hq v thv0). }
  assert (sinv M ∅ ∅ s2) as Hi2'.
  { pose proof (sinv_clock _ _ _ _ Hi2 Hm2) as Hc. destruct (pf_phase _ _ Hf2) as [E1 E2]. unfold s1 in E1, E2. proj.
    rewrite E1 in Hsl. specialize (Hc Hsl).
    refine (sinv_same _ _ _ _ s2 _ _ _ _ _ _ _ _ _ _ _ _ _ _ _ Hc); try reflexivity; [exact E1|]. rewrite E2, <- Eph. reflexivity. }
  assert (curPhase s2 = curPhase s +64 1 /\ numCores s2 = numCores s) as [Ec2 En2].
  { split; [apply (pf_phase _ _ Hf2)|apply (pf_cores _ _ Hf2)]. }
  assert (kept s s2) as Hk2 by (split; [apply (pf_gids _ _ Hf2)|apply (pf_threads _ _ Hf2)]).
  apply wp_bind, wp_get. case_bool_decide; [by apply wp_ret|].
  assert (0 < schedQuantum s2) as Hqu2 by (rewrite (pf_quantum _ _ Hf2); exact Hqu).
  rewrite bool_decide_false by lia. apply wp_when; [|done]. intros _.
  eapply wp_mono; [apply (wp_schedTick fuel M s2 Hi2')|].
  - unfold tick_draws. by rewrite En2, Hrnd.
  - intros v thv Hv. destruct (Hhd v thv Hv) as (thv0 & Hv0 & ->). by apply (Hq v thv0).
  - cbv beta. intros ? s3 [Hi3 Hf3]. split_and!; [done| | | |].
    + intros v thv Hv. destruct (pf_mark _ _ Hf3 v thv Hv) as (thv0 & Hv0 & ->). by apply (Hm2 v thv0).
    + rewrite (proj1 (pf_phase _ _ Hf3)). done.
    + by rewrite (pf_cores _ _ Hf3).
    + split; [rewrite (pf_gids _ _ Hf3); apply Hk2|]. intros v thv Hv. destruct (proj2 Hk2 v thv Hv) as (thv2 & Hv2 & ?). destruct (pf_threads _ _ Hf3 v thv2 Hv2) as (thv3 & Hv3 & ?).
      exists thv3. split; [done|intuition congruence].
Qed.

End prims.
End SchedulerOps.
