(* ===== verification/SchedulerCalls.v ===== *)
(** * The calls of the scheduler, on scheduler and barrier together

    [sched_inv] joins the two invariants: the threads of the barrier are the
    contexts whose thread runs.  Each call keeps it, returns without a failed
    assertion, and the end-of-phase callback meets what the barrier asks of it. *)

From stdpp Require Import gmap sets sorting.
From S2P Require Import Prelude MTRand Barrier Scheduler SchedulerInv SchedulerOps.
Local Open Scope Z_scope.

Module SchedulerCalls.
Import Scheduler SchedulerInv SchedulerOps.
Import BarrierSpec.

#[local] Opaque MTRandSpec.wf MTRand.N MTRand.seed.

Section calls.
Context {X : Type} `{Env X}.
Implicit Type s : t X.

(** A thread to which a handoff or a sleep mark is pending is yet to run or
    running in this phase. *)
Definition busy_runs (a : astate) s : Prop := forall v thv, threads s !! v = Some thv ->
  handoffThread thv <> None \/ markedForSleep thv = true -> cid thv ∈ todo a ∪ running a.

Definition SI (a : astate) s : Prop := sinv (members a) ∅ ∅ s /\ busy_runs a s.

Definition sched_inv (p : Barrier.t * t X) : Prop :=
  BarrierInv.inv (fst p) /\ SI (BarrierInv.abs (fst p)) (snd p).

Section fuel.
Context (fuel : nat) (J : t X -> Prop).
Hypothesis J_kept : forall s s', kept s s' -> J s -> J s'.

Definition phase_ready (p : astate * t X) : Prop :=
  SI (fst p) (snd p) /\ J (snd p) /\ (todo (fst p) ∪ running (fst p) = ∅ -> tick_draws fuel (snd p)).

(** The callback is what the barrier may call when a phase ends. *)
Lemma callback_ok : callback_laws (barCallback fuel) phase_ready.
Proof.
  split.
  - intros T R D c s Hc [[Hi Hb] [HJ Hd]]. cbn [fst snd todo running] in *.
    assert (T ∖ {[c]} ∪ ({[c]} ∪ R) = T ∪ R) as E by (apply set_eq; intros x; destruct (decide (x = c)) as [->|]; set_solver).
    split; [split|split]; cbn [fst snd todo running]; [|intros v thv Hv Hh; cbn [todo running]; rewrite E; by apply (Hb v)|done|by rewrite E].
    unfold members in *. cbn [todo running done] in *. by rewrite E.
  - intros D s HD [[Hi Hb] [HJ Hd]]. cbn [fst snd todo running] in *. specialize (Hd ltac:(set_solver)).
    assert (forall v thv, threads s !! v = Some thv -> handoffThread thv = None /\ markedForSleep thv = false) as Hq.
    { intros v thv Hv. pose proof (Hb v thv Hv) as Hv'. cbn [todo running] in Hv'.
      destruct (handoffThread thv); [exfalso; apply (not_elem_of_empty (C := gset nat) (cid thv)); set_solver|].
      destruct (markedForSleep thv); [exfalso; apply (not_elem_of_empty (C := gset nat) (cid thv)); set_solver|done]. }
    pose proof (wp_callback fuel _ s Hi Hd Hq) as Hw. apply wp_ok in Hw as ([] & s' & E & Hi' & Hm' & _ & _ & Hk).
    exists s'. unfold barCallback. rewrite E. split; [done|].
    assert (members (ast D ∅ ∅) = members (ast ∅ ∅ D)) as EM by (unfold members; cbn; set_solver).
    split; [|split; [by apply (J_kept s)|cbn [fst todo running]; intros E0; set_solver]]. split; cbn [fst snd]; [by rewrite EM|].
    intros v thv Hv [Hh|Hm]; [|rewrite (Hm' v thv Hv) in Hm; discriminate Hm]. cbn [todo running].
    destruct (handoffThread thv) as [q|] eqn:Eq; [|done].
    destruct (si_handoff _ _ _ _ Hi' v thv q Hv Eq) as (Hr & _).
    assert (cid thv ∈ members (ast ∅ ∅ D)) as Hin.
    { apply (si_M _ _ _ _ Hi'). exists v, thv. split_and!; [|done|done]. apply (si_place _ _ _ _ Hi'); [done|by left]. }
    unfold members in Hin. cbn in Hin. set_solver.
Qed.

(** *** Calls of the barrier *)

Lemma phase_ready_steps P (p p' : astate * t X) : phase_ready p -> rtc (astep P (barCallback fuel)) p p' -> phase_ready p'.
Proof. intros Hp Hr. exact (laws_steps _ _ _ _ _ callback_ok Hr Hp). Qed.

Lemma wp_bar_join c b s (Q : unit -> Barrier.t * t X -> Prop) : BarrierInv.inv b -> (c < MAX_THREADS)%nat ->
  c ∉ members (BarrierInv.abs b) -> SI (acall (Join c) (BarrierInv.abs b)) s -> J s ->
  (forall b', sched_inv (b', s) -> Q tt (b', s)) -> wp (bar_join fuel c) (b, s) Q.
Proof.
  intros Hb Hc Hn HS HJ HQ.
  destruct (BarrierInv.join_settles fuel (barCallback fuel) b c s (proj1 Hb)) as (b' & E & Hb' & Hst & _); [by split|].
  unfold wp, bar_join. rewrite E. apply HQ. split; [done|].
  assert (phase_ready (acall (Join c) (BarrierInv.abs b), s)) as Hp by (split_and!; [done|done|cbn; set_solver]).
  apply (phase_ready_steps _ _ _ Hp Hst).
Qed.

Lemma wp_bar_sync c b s (Q : unit -> Barrier.t * t X -> Prop) : BarrierInv.inv b -> c ∈ running (BarrierInv.abs b) ->
  SI (acall (Sync c) (BarrierInv.abs b)) s -> J s -> BarrierInv.draws_ok fuel b -> tick_draws fuel s ->
  (forall b' s', sched_inv (b', s') -> J s' -> Q tt (b', s')) -> wp (bar_sync fuel c) (b, s) Q.
Proof.
  intros Hb Hc HS HJ Hd Ht HQ.
  destruct (BarrierInv.sync_settles fuel (barCallback fuel) phase_ready callback_ok b c s (proj1 Hb)) as (b' & s' & E & Hb' & (HS' & HJ' & _) & _);
    [by split_and!|exact Hc|exact Hd|].
  unfold wp, bar_sync. rewrite E. by apply HQ.
Qed.

Lemma wp_bar_leave c b s (Q : unit -> Barrier.t * t X -> Prop) : BarrierInv.inv b -> c ∈ running (BarrierInv.abs b) ->
  SI (acall (Leave c) (BarrierInv.abs b)) s -> J s -> BarrierInv.draws_ok fuel b -> tick_draws fuel s ->
  (forall b' s', sched_inv (b', s') -> J s' -> Q tt (b', s')) -> wp (bar_leave fuel c) (b, s) Q.
Proof.
  intros Hb Hc HS HJ Hd Ht HQ.
  destruct (BarrierInv.leave_settles fuel (barCallback fuel) phase_ready callback_ok b c s Hb) as (b' & s' & E & Hb' & (HS' & HJ' & _) & _);
    [by split_and!|by left|exact Hd|].
  unfold wp, bar_leave. rewrite E. by apply HQ.
Qed.

End fuel.

(** *** Moves of one call *)

Lemma quiet M F G s p th : sinv M F G s -> threads s !! p = Some th -> state th <> RUNNING ->
  handoffThread th = None /\ markedForSleep th = false /\ fakeLeave th = None.
Proof.
  intros Hi Hp Hs. destruct (si_thread _ _ _ _ Hi p th Hp) as [_ _ _ Hm _ Hf]. split_and!.
  - destruct (handoffThread th) as [q|] eqn:E; [|done]. destruct (si_handoff _ _ _ _ Hi p th q Hp E) as [? _]. done.
  - destruct (markedForSleep th); [|done]. by destruct Hm.
  - destruct (fakeLeave th); [|done]. by destruct Hf.
Qed.

Lemma not_listed M F G s p th : sinv M F G s -> threads s !! p = Some th -> (forall n, state th <> qstate n) ->
  forall n, p ∉ queue n s.
Proof. intros Hi Hp Hs n Hn. by apply (Hs n), (in_queue _ _ _ _ _ _ _ Hi Hp). Qed.

Lemma not_handed M F G s p th : sinv M F G s -> threads s !! p = Some th -> state th <> QUEUED -> ~ handed p s.
Proof. intros Hi Hp Hs Hh. by apply Hs, (handed_queued _ _ _ _ _ _ Hi Hp). Qed.

(** A thread that is off its context put at the end of the run queue. *)
Lemma sinv_enqueue M G s p th j : sinv M ∅ G s -> threads s !! p = Some th -> ~ placed th -> G ⊆ {[p]} ->
  (forall n, p ∉ queue n s) -> ~ handed p s -> (forall c, available c s -> mask th !! c = Some false) ->
  sinv M ∅ ∅ (set_queue RunQ (queue RunQ s ++ [p])
    (set_threads (<[p := with_futexWord 1 j (with_state QUEUED th)]> (threads s)) s)).
Proof.
  intros Hi Hp Hpl HG Hq Hh HW. set (th' := with_futexWord 1 j (with_state QUEUED th)).
  destruct (quiet _ _ _ _ _ _ Hi Hp) as (Hn & Hm & Hf); [intros E; apply Hpl; by left|].
  set (s1 := set_threads (<[p := th']> (threads s)) s).
  assert (sinv M ∅ ({[p]} ∪ G) s1) as Hi1.
  { apply sinv_thread with M G th; try done.
    - unfold placed, th'. cbn. split; [intros [E|E]; discriminate E|done].
    - destruct (si_thread _ _ _ _ Hi p th Hp). split; unfold th'; cbn; try done; intros; congruence.
    - intros n Hn'. by destruct (Hq n).
    - intros n Hn' Hx. set_solver.
    - by right.
    - intros c. unfold th'. cbn. split; [|intros [[? _]|[_ E]]; [done|discriminate E]]. intros Hc. by left. }
  assert (threads s1 !! p = Some th') as Hp1 by (unfold s1; proj; by rewrite lookup_insert_eq).
  assert (~ handed p s1) as Hh1.
  { intros (v & thv & Hv & Hvp). unfold s1 in Hv. proj. rewrite lookup_insert_Some in Hv.
    destruct Hv as [[<- <-]|[_ Hv]]; [unfold th' in Hvp; cbn in Hvp; congruence|]. apply Hh. by exists v, thv. }
  assert (sinv M ∅ (({[p]} ∪ G) ∖ {[p]}) (set_queue RunQ (queue RunQ s1 ++ [p]) s1)) as Hi2.
  { apply sinv_push with th'; try done.
    - apply NoDup_app. split_and!; [apply (si_nodup _ _ _ _ Hi1)| |apply NoDup_singleton].
      intros x Hx Hx'. apply list_elem_of_singleton in Hx' as ->. by apply (Hq RunQ).
    - intros x. rewrite elem_of_app, list_elem_of_singleton. tauto.
    - intros _ c [Hc|(o & tho & Ho & Hto & Hco)]; [by apply HW; left|]. apply HW. right. exists o, tho.
      unfold s1 in Hto. proj. rewrite lookup_insert_ne in Hto; [done|]. intros <-. by apply (Hq OutQ). }
  eapply sinv_sets; [exact Hi2|done|done|]. set_solver.
Qed.

(** A sleeping thread taken off the sleep queue. *)
Lemma sinv_unsleep M s p th : sinv M ∅ ∅ s -> p ∈ queue SleepQ s -> threads s !! p = Some th ->
  sinv M ∅ ∅ (set_threads (<[p := with_state BLOCKED th]> (threads s))
    (set_queue SleepQ (filter (fun x => x <> p) (queue SleepQ s)) s)).
Proof.
  intros Hi Hin Hp. pose proof (in_queue _ _ _ _ _ _ _ Hi Hp Hin) as Hst. cbn in Hst.
  pose proof (sinv_remove _ _ _ _ _ _ Hi Hin) as Hi1. set (s1 := set_queue SleepQ _ s) in *.
  destruct (quiet _ _ _ _ _ _ Hi Hp) as (Hn & Hm & Hf); [congruence|].
  assert (forall n, p ∉ queue n s1) as Hnq by (intros n Hx; destruct (si_queue _ _ _ _ Hi1 n p Hx) as [Hn' _]; set_solver).
  set (th' := with_state BLOCKED th).
  assert (sinv M ∅ ({[p]} ∪ ∅) (set_threads (<[p := th']> (threads s1)) s1)) as Hi2.
  { apply sinv_thread with M ({[p]} ∪ ∅) th; try done.
    - unfold placed, th'. cbn. rewrite Hst. intuition congruence.
    - destruct (si_thread _ _ _ _ Hi p th Hp). split; unfold th'; cbn; try done; intros; congruence.
    - intros n Hx. by destruct (Hnq n).
    - intros Hhd. pose proof (handed_queued _ _ _ _ _ _ Hi1 Hp Hhd). congruence.
    - intros n E. by destruct n.
    - unfold th'. cbn. intros _ [E|E]; discriminate E.
    - by left.
    - intros c. unfold th'. cbn. split; [|intros [[? _]|[_ E]]; [done|discriminate E]].
      intros Hc. left. split; [done|]. intros [E|E]; congruence. }
  assert (threads (set_threads (<[p := th']> (threads s1)) s1) !! p = Some th') as Hp2 by (proj; by rewrite lookup_insert_eq).
  eapply sinv_sets; [exact (sinv_land _ _ _ _ _ _ Hi2 Hp2 ltac:(by intros []))|done|done|]. set_solver.
Qed.

(** A thread that left in this phase comes back to its context. *)
Lemma sinv_rejoin M s p th : sinv M ∅ ∅ s -> p ∈ queue OutQ s -> threads s !! p = Some th ->
  sinv ({[cid th]} ∪ M) ∅ ∅ (set_queue OutQ (filter (fun x => x <> p) (queue OutQ s))
    (set_threads (<[p := with_state RUNNING th]> (threads s)) s)).
Proof.
  intros Hi Hin Hp. destruct (out_quiet _ _ _ _ _ _ Hi Hin Hp) as (_ & Hpl & Hn & Hm & Hf & Hst).
  pose proof (sinv_remove _ _ _ _ _ _ Hi Hin) as Hi1. set (s1 := set_queue OutQ _ s) in Hi1.
  assert (forall n, p ∉ queue n s1) as Hnq by (intros n Hx; destruct (si_queue _ _ _ _ Hi1 n p Hx) as [Hn' _]; set_solver).
  set (th' := with_state RUNNING th).
  assert (sinv ({[cid th]} ∪ M) ∅ ({[p]} ∪ ∅) (set_threads (<[p := th']> (threads s1)) s1)) as Hi2.
  { apply sinv_thread with M ({[p]} ∪ ∅) th; try done.
    - unfold placed, th'. cbn. split; [done|by left].
    - destruct (si_thread _ _ _ _ Hi p th Hp). split; unfold th'; cbn; try done; intros; congruence.
    - intros n Hx. by destruct (Hnq n).
    - intros Hhd. pose proof (handed_queued _ _ _ _ _ _ Hi1 Hp Hhd). congruence.
    - intros n E. by destruct n.
    - unfold th'. cbn. intros _ [E|E]; discriminate E.
    - by left.
    - intros c. unfold th'. cbn. destruct (decide (c = cid th)) as [->|Hne].
      + split; [intros _; by right|set_solver].
      + split; [intros Hc; left; split; [set_solver|done]|set_solver]. }
  assert (threads (set_threads (<[p := th']> (threads s1)) s1) !! p = Some th') as Hp2 by (proj; by rewrite lookup_insert_eq).
  eapply sinv_sets; [exact (sinv_land _ _ _ _ _ _ Hi2 Hp2 ltac:(by intros []))|done|done|]. set_solver.
Qed.

(** A running thread leaves and keeps its context for the phase. *)
Lemma sinv_leave_out M s p th : sinv M ∅ ∅ s -> threads s !! p = Some th -> state th = RUNNING ->
  handoffThread th = None -> markedForSleep th = false -> fakeLeave th = None ->
  (forall q thq, q ∈ queue RunQ s -> threads s !! q = Some thq -> mask thq !! cid th = Some false) ->
  sinv (M ∖ {[cid th]}) ∅ ∅ (set_queue OutQ (queue OutQ s ++ [p])
    (set_threads (<[p := with_state OUT th]> (threads s)) s)).
Proof.
  intros Hi Hp Hs Hn Hm Hf HW. set (th' := with_state OUT th). set (s1 := set_threads (<[p := th']> (threads s)) s).
  assert (forall n, p ∉ queue n s) as Hnq by (eapply not_listed; [done..|]; intros []; cbn; congruence).
  assert (~ handed p s) as Hnh by (eapply not_handed; [done..|]; congruence).
  assert (placed th) as Hpl by by left.
  assert (sinv (M ∖ {[cid th]}) ∅ ({[p]} ∪ ∅) s1) as Hi1.
  { apply sinv_thread with M ∅ th; try done.
    - unfold placed, th'. cbn. split; [by left|by right].
    - destruct (si_thread _ _ _ _ Hi p th Hp). split; unfold th'; cbn; try done; intros; congruence.
    - intros n Hx. by destruct (Hnq n).
    - intros n E Hx. set_solver.
    - unfold th'. cbn. intros _ [E|E]; discriminate E.
    - by right.
    - intros c. unfold th'. cbn. split; [intros Hc; left; split; set_solver|intros [[? Hc]|[_ E]]; [set_solver|discriminate E]]. }
  assert (threads s1 !! p = Some th') as Hp1 by (unfold s1; proj; by rewrite lookup_insert_eq).
  assert (~ handed p s1) as Hh1.
  { intros (v & thv & Hv & Hvp). unfold s1 in Hv. proj. rewrite lookup_insert_Some in Hv.
    destruct Hv as [[<- <-]|[_ Hv]]; [unfold th' in Hvp; cbn in Hvp; congruence|]. apply Hnh. by exists v, thv. }
  assert (sinv (M ∖ {[cid th]}) ∅ (({[p]} ∪ ∅) ∖ {[p]}) (set_queue OutQ (queue OutQ s1 ++ [p]) s1)) as Hi2.
  { apply sinv_push with th'; try done.
    - apply NoDup_app. split_and!; [apply (si_nodup _ _ _ _ Hi1)| |apply NoDup_singleton].
      intros x Hx Hx'. apply list_elem_of_singleton in Hx' as ->. by apply (Hnq OutQ).
    - intros x. rewrite elem_of_app, list_elem_of_singleton. tauto.
    - intros _ q thq Hq Hqt. unfold s1 in Hqt. proj. rewrite lookup_insert_ne in Hqt; [by apply (HW q)|].
      intros <-. by apply (Hnq RunQ). }
  eapply sinv_sets; [exact Hi2|done|done|]. set_solver.
Qed.

Lemma running_at M F G s p th : sinv M F G s -> threads s !! p = Some th -> placed th ->
  cid th ∈ M <-> state th = RUNNING.
Proof.
  intros Hi Hp Hpl. rewrite (si_M _ _ _ _ Hi). split.
  - intros (q & thq & Hc & Hq & Hr). rewrite (si_place _ _ _ _ Hi p th Hp Hpl) in Hc. injection Hc as <-. congruence.
  - intros Hr. exists p, th. split_and!; [|done|done]. by apply (si_place _ _ _ _ Hi).
Qed.

(** A thread changed in fields that its place does not depend on. *)
Lemma sinv_tweak M F G s p th th' : sinv M F G s -> threads s !! p = Some th ->
  cid th' = cid th -> gid th' = gid th -> mask th' = mask th -> handoffThread th' = handoffThread th -> state th' = state th ->
  thread_ok s p th' -> (state th <> RUNNING -> wakeupPhase th' = wakeupPhase th) ->
  (p ∉ G -> state th = QUEUED \/ state th = SLEEPING -> futexWord th' = 1) ->
  sinv M F G (set_threads (<[p := th']> (threads s)) s).
Proof.
  intros Hi Hp Ec Eg Em Eh Es Hok Hw Hf. apply sinv_thread with M G th; try done.
  - unfold placed. by rewrite Es.
  - intros n Hn. pose proof (in_queue _ _ _ _ _ _ _ Hi Hp Hn) as Hst. rewrite Es. split; [done|]. apply Hw. by destruct n; rewrite Hst.
  - rewrite Es. destruct (handoffThread th) as [q|] eqn:E; [|done]. intros _. by destruct (si_handoff _ _ _ _ Hi p th q Hp E).
  - rewrite Es. by apply (handed_queued M F G).
  - intros n. rewrite Es. by apply (si_queued _ _ _ _ Hi).
  - by rewrite Es.
  - by left.
  - intros c. rewrite Es. destruct (decide (c = cid th)) as [->|Hn]; [|tauto].
    pose proof (running_at _ _ _ _ _ _ Hi Hp) as Hr.
    split.
    + intros Hc. destruct (decide (state th = RUNNING)); [by right|left]. split; [done|]. intros Hpl. by apply Hr in Hc.
    + intros [[? _]|[_ HR]]; [done|]. apply Hr; [by left|done].
Qed.

(** The list of threads that have not really left. *)
Lemma sinv_fakes M F G s l bl : sinv M F G s ->
  (forall p th, threads s !! p = Some th -> fakeLeave th <> None -> p ∈ l) -> sinv M F G (set_fakes l bl s).
Proof.
  intros Hi Hl. pose proof Hi as []. split; proj; try done.
  intros p th Hp. destruct (si_thread0 p th Hp) as [? ? ? ? ? Hf]. split; try done. intros E. split; [by apply (Hl p th)|by apply Hf].
Qed.

(** A queued thread in flight put on a context in flight, its futex released. *)
Definition install_st (q : nat) (thq : ThreadInfo) (c : nat) s : t X :=
  set_threads (<[q := with_futexWord 0 false (with_place RUNNING c thq)]> (threads s)) (place_st q thq c s).

Lemma sinv_install M F G s q thq c : sinv M F G s -> threads s !! q = Some thq -> state thq = QUEUED ->
  c ∈ F -> (forall n, q ∉ queue n s) -> ~ handed q s ->
  sinv ({[c]} ∪ M) (F ∖ {[c]}) (G ∖ {[q]}) (install_st q thq c s).
Proof.
  intros Hi Hq Hs Hc Hn Hh. destruct (quiet _ _ _ _ _ _ Hi Hq) as (Hh0 & Hm0 & Hf0); [congruence|].
  pose proof (sinv_place _ _ _ _ _ _ c Hi Hq ltac:(by right; right) Hc Hn Hh) as Hi1.
  assert (threads (place_st q thq c s) !! q = Some (with_place RUNNING c thq)) as Hq1
    by (unfold place_st; proj; by rewrite lookup_insert_eq).
  assert (install_st q thq c s = set_threads (<[q := with_futexWord 0 false (with_place RUNNING c thq)]>
    (threads (place_st q thq c s))) (place_st q thq c s)) as ->.
  { unfold install_st, place_st. proj. by rewrite insert_insert_eq. }
  apply sinv_tweak with (with_place RUNNING c thq); try done.
  - destruct (si_thread _ _ _ _ Hi1 q _ Hq1). split; cbn in *; try done; intros; congruence.
  - intros _ [E|E]; discriminate E.
Qed.

(** *** The sleep queue *)

Lemma StronglySorted_insert {A} (R : relation A) (p : A) l1 l2 : StronglySorted R (l1 ++ l2) ->
  (forall a, a ∈ l1 -> R a p) -> (forall b, b ∈ l2 -> R p b) -> StronglySorted R (l1 ++ p :: l2).
Proof.
  intros Hs H1 H2. induction l1 as [|a l1 IH]; cbn in *.
  - constructor; [done|]. by apply Forall_forall.
  - inversion Hs as [|? ? Hs' Hf]; subst. constructor; [apply IH; [done|]; intros; apply H1; by right|].
    rewrite Forall_app in *. destruct Hf as [? ?]. split; [done|]. constructor; [apply H1; by left|done].
Qed.

Definition wakes_by (ph : Z) s (q : nat) : Prop := forall thq, threads s !! q = Some thq -> wakeupPhase thq <= ph.

Lemma wp_sleep_after ph cur l s (Q : nat -> t X -> Prop) : (forall q, q ∈ l -> exists thq, threads s !! q = Some thq) ->
  wakes_by ph s cur ->
  (forall l1 cur' l2, cur :: l = l1 ++ cur' :: l2 -> (forall q, q ∈ l1 ++ [cur'] -> wakes_by ph s q) ->
     (forall q l3 thq, l2 = q :: l3 -> threads s !! q = Some thq -> ph < wakeupPhase thq) -> Q cur' s) ->
  wp (sleep_after ph cur l) s Q.
Proof.
  revert cur Q. induction l as [|q l IH]; intros cur Q Hl Hc HQ; cbn [sleep_after].
  - apply wp_ret. apply (HQ [] cur []); [done| |done]. intros q Hq. by apply list_elem_of_singleton in Hq as ->.
  - destruct (Hl q) as [thq Hq]; [by left|]. apply wp_bind. eapply wp_getTh; [done|].
    destruct (Z.leb_spec (wakeupPhase thq) ph) as [Hle|Hgt].
    + apply IH; [intros; apply Hl; by right|intros thq' E; congruence|]. intros l1 cur' l2 E Hw Hn.
      apply (HQ (cur :: l1) cur' l2); [by cbn; rewrite E| |done]. intros x Hx. apply elem_of_cons in Hx as [->|Hx]; [done|by apply Hw].
    + apply wp_ret. apply (HQ [] cur (q :: l)); [done| |].
      * intros x Hx. by apply list_elem_of_singleton in Hx as ->.
      * intros ? ? thq' [= <- _] Hq'. congruence.
Qed.

Lemma wp_sleep_insert M F G s p th (Q : unit -> t X -> Prop) : sinv M F G s -> threads s !! p = Some th ->
  (forall n, p ∉ queue n s) ->
  (forall l1 l2, queue SleepQ s = l1 ++ l2 ->
     StronglySorted (fun p q => forall thp thq, threads s !! p = Some thp -> threads s !! q = Some thq ->
       wakeupPhase thp <= wakeupPhase thq) (l1 ++ p :: l2) -> Q tt (set_queue SleepQ (l1 ++ p :: l2) s)) ->
  wp (sleep_insert p (wakeupPhase th)) s Q.
Proof.
  intros Hi Hp Hn HQ. pose proof (si_sorted _ _ _ _ Hi) as Hso. unfold sleep_insert. apply wp_bind, wp_get.
  assert (forall q, q ∈ queue SleepQ s -> exists thq, threads s !! q = Some thq) as Hth by (intros q; apply (queue_thread _ _ _ _ _ _ Hi)).
  destruct (queue SleepQ s) as [|q l] eqn:Eq.
  - apply wp_push_front; [done|]. rewrite Eq. apply (HQ [] []); [done|]. by constructor.
  - destruct (Hth q) as [thq Hq]; [by left|]. apply wp_bind. eapply wp_getTh; [done|].
    destruct (Z.ltb_spec (wakeupPhase th) (wakeupPhase thq)) as [Hlt|Hge].
    + apply wp_push_front; [done|]. rewrite Eq. apply (HQ [] (q :: l)); [done|]. constructor; [done|].
      inversion Hso as [|? ? _ Hf]; subst. constructor; [intros; simplify_eq; lia|].
      rewrite Forall_forall in *. intros b Hb thp thb Hp' Hb'. specialize (Hf b Hb thq thb Hq Hb'). simplify_eq. lia.
    + apply wp_bind. apply wp_sleep_after; [intros; apply Hth; by right|intros ? ?; simplify_eq; lia|].
      intros l1 cur l2 E Hw Hl2. rewrite E in *.
      assert (cur ∈ queue SleepQ s) as Hcur by (rewrite Eq; set_solver).
      unfold insertAfter. apply wp_bind, wp_get, wp_bind, wp_assert; [apply bool_decide_true; by apply owner_out|].
      apply wp_bind, wp_assert; [apply bool_decide_true; by eapply owner_in|].
      rewrite Eq, insert_after by (rewrite <- Eq; apply (si_nodup _ _ _ _ Hi)).
      apply (HQ (l1 ++ [cur]) l2); [by rewrite <- app_assoc|].
      replace (l1 ++ cur :: l2) with ((l1 ++ [cur]) ++ l2) in Hso by by rewrite <- app_assoc.
      apply StronglySorted_insert; [done| |].
      * intros a Ha tha thp Hta Htp. specialize (Hw a Ha tha Hta). simplify_eq. lia.
      * intros b Hb thp thb Htp Htb. destruct l2 as [|x l2]; [by apply elem_of_nil in Hb|].
        destruct (Hth x) as [thx Hx]; [set_solver|]. specialize (Hl2 x l2 thx eq_refl Hx).
        assert (wakeupPhase thx <= wakeupPhase thb); [|simplify_eq; lia].
        apply elem_of_cons in Hb as [->|Hb]; [simplify_eq; lia|].
        apply StronglySorted_app in Hso as (_ & _ & Hx2).
        inversion Hx2 as [|? ? _ Hf]; subst. rewrite Forall_forall in Hf. by apply (Hf b Hb).
Qed.

End calls.
End SchedulerCalls.
