(* ===== verification/SchedulerProps.v ===== *)
(** * What the calls of the scheduler guarantee

    Each call, from a state of the joint invariant and with the caller where the
    call finds it in a run, returns and re-establishes the invariant. *)

From stdpp Require Import gmap sets sorting.
From S2P Require Import Prelude MTRand Barrier Scheduler SchedulerInv SchedulerOps SchedulerCalls.
Local Open Scope Z_scope.

Module SchedulerProps.
Import Scheduler SchedulerInv SchedulerOps SchedulerCalls.
Import BarrierSpec.

#[local] Opaque MTRandSpec.wf MTRand.N MTRand.seed BarrierInv.abs.

Section calls.
Context {X : Type} `{Env X}.
Implicit Type s : t X.
Notation abs := BarrierInv.abs.

(** *** Threads with work pending *)

Lemma busy_thread a s p th' : handoffThread th' = None -> markedForSleep th' = false -> busy_runs a s ->
  busy_runs a (set_threads (<[p := th']> (threads s)) s).
Proof.
  intros Hh Hm Hb v thv. proj. rewrite lookup_insert_Some. intros [[<- <-]|[_ Hv]]; [intuition congruence|by apply (Hb v)].
Qed.

Lemma busy_calm a s s' : calm s s' -> busy_runs a s -> busy_runs a s'.
Proof. intros Hc Hb v thv Hv Hx. apply (Hb v thv); [|done]. by apply (calm_busy _ _ Hc). Qed.

Lemma busy_join a c s : busy_runs a s -> busy_runs (acall (Join c) a) s.
Proof. intros Hb v thv Hv Hx. specialize (Hb v thv Hv Hx). cbn. set_solver. Qed.

Lemma busy_running M F G s v thv : sinv M F G s -> threads s !! v = Some thv ->
  handoffThread thv <> None \/ markedForSleep thv = true -> state thv = RUNNING.
Proof.
  intros Hi Hv [Hh|Hm].
  - destruct (handoffThread thv) as [q|] eqn:E; [|done]. by destruct (si_handoff _ _ _ _ Hi v thv q Hv E).
  - by destruct (to_mark _ _ _ (si_thread _ _ _ _ Hi v thv Hv) Hm).
Qed.

Lemma busy_leave a c F G s : sinv (members a ∖ {[c]}) F G s -> busy_runs a s -> busy_runs (acall (Leave c) a) s.
Proof.
  intros Hi Hb v thv Hv Hx. specialize (Hb v thv Hv Hx). pose proof (busy_running _ _ _ _ _ _ Hi Hv Hx) as Hr.
  assert (cid thv ∈ members a ∖ {[c]}) as Hin by (eapply running_at; [done|done|by left|done]).
  cbn. set_solver.
Qed.

Lemma busy_sync a s p th : sinv (members a) ∅ ∅ s -> busy_runs a s -> threads s !! p = Some th -> placed th ->
  handoffThread th = None -> markedForSleep th = false -> busy_runs (acall (Sync (cid th)) a) s.
Proof.
  intros Hi Hb Hp Hpl Hh Hm v thv Hv Hx. pose proof (busy_running _ _ _ _ _ _ Hi Hv Hx) as Hr.
  assert (cid thv <> cid th) as Hne.
  { intros E. assert (v = p) as -> by (eapply placed_unique; [done|exact Hv|exact Hp|by left|done|done]).
    rewrite Hp in Hv. injection Hv as <-. intuition congruence. }
  specialize (Hb v thv Hv Hx). cbn. set_solver.
Qed.

Lemma members_leave a c : members (acall (Leave c) a) = members a ∖ {[c]}.
Proof. unfold members. cbn. set_solver. Qed.

Lemma members_join a c : members (acall (Join c) a) = {[c]} ∪ members a.
Proof. unfold members. cbn. set_solver. Qed.

Lemma members_sync a c : c ∈ running a -> members (acall (Sync c) a) = members a.
Proof.
  intros Hc. unfold members. cbn. apply set_eq. intros x. destruct (decide (x = c)) as [->|]; set_solver.
Qed.

(** *** Threads taken from the run queue *)

Lemma dequeued M F G s q thq : sinv M F G s -> q ∈ queue RunQ s -> threads s !! q = Some thq ->
  let s1 := set_queue RunQ (filter (fun x => x <> q) (queue RunQ s)) s in
  sinv M F ({[q]} ∪ G) s1 /\ (forall n, q ∉ queue n s1) /\ ~ handed q s1 /\ state thq = QUEUED /\ futexWord thq = 1.
Proof.
  intros Hi Hin Hq s1. pose proof (in_queue _ _ _ _ _ _ _ Hi Hq Hin) as Hst. cbn in Hst.
  pose proof (sinv_remove _ _ _ _ _ _ Hi Hin) as Hi1. fold s1 in Hi1. split_and!; [done| | |done|].
  - intros n Hx. destruct (si_queue _ _ _ _ Hi1 n q Hx) as [Hn _]. set_solver.
  - intros (v & thv & Hv & Hvq). by destruct (si_handoff _ _ _ _ Hi v thv q Hv Hvq) as (_ & Hn & _).
  - apply (si_futex _ _ _ _ Hi q); [done| |by left]. by destruct (si_queue _ _ _ _ Hi RunQ q Hin).
Qed.

Lemma wp_take_over M G s q thq c (Q : unit -> t X -> Prop) : sinv M {[c]} G s -> threads s !! q = Some thq ->
  state thq = QUEUED -> futexWord thq = 1 -> (forall n, q ∉ queue n s) -> ~ handed q s ->
  (forall s', sinv ({[c]} ∪ M) ∅ (G ∖ {[q]}) s' -> gidMap s' = gidMap s ->
     threads s' = <[q := with_futexWord 0 false (with_place RUNNING c thq)]> (threads s) -> Q tt s') ->
  wp (take_over q c) s Q.
Proof.
  intros Hi Hq Hs Hf Hn Hh HQ. pose proof (si_flight _ _ _ _ Hi c (elem_of_singleton_2 c c eq_refl)) as Hc.
  unfold take_over. apply wp_bind. eapply wp_schedule; [done|done|by right; right|].
  apply wp_bind, wp_modify. eapply wp_wakeup; [unfold place_st; proj; by rewrite lookup_insert_eq|done|]. apply HQ.
  - assert (sinv ({[c]} ∪ M) ∅ (G ∖ {[q]}) (install_st q thq c s)) as Hi1.
    { eapply sinv_sets; [exact (sinv_install _ _ _ _ _ _ _ Hi Hq Hs (elem_of_singleton_2 c c eq_refl) Hn Hh)|done|set_solver|done]. }
    refine (sinv_same _ _ _ _ _ _ _ _ _ _ _ _ _ _ _ _ _ _ _ _ Hi1); try reflexivity. unfold install_st, place_st. proj. by rewrite insert_insert_eq.
  - done.
  - unfold place_st. proj. by rewrite insert_insert_eq.
Qed.

(** *** Looking for a context *)

Lemma set_threads_id s p th : threads s !! p = Some th -> set_threads (<[p := th]> (threads s)) s = s.
Proof. destruct s. cbn. intros Hp. unfold set_threads. cbn. by rewrite insert_id. Qed.

Section fuel.
Context (fuel : nat).

Lemma wp_claim G b s p th (K : ST (Barrier.t * t X) joined) (Q : joined -> Barrier.t * t X -> Prop) :
  BarrierInv.inv b -> sinv (members (abs b)) ∅ G s -> busy_runs (abs b) s -> threads s !! p = Some th ->
  state th = STARTED \/ state th = BLOCKED \/ state th = QUEUED -> G ⊆ {[p]} ->
  (forall n, p ∉ queue n s) -> ~ handed p s ->
  (forall c b' s', sched_inv (b', s') -> Q (InBarrier c) (b', s')) ->
  ((forall c, available c s -> mask th !! c = Some false) -> wp K (b, s) Q) ->
  wp (o ← onS (schedThread p);
      match o with
      | Some c => _ ← onS (schedule p c); _ ← onS (core_join_at c); _ ← bar_join fuel c; mret (InBarrier c)
      | None => K
      end) (b, s) Q.
Proof.
  intros Hb Hi Hbr Hp Hs HG Hnq Hnh HI HN. destruct (quiet _ _ _ _ _ _ Hi Hp) as (Hh0 & Hm0 & Hf0); [intuition congruence|].
  apply wp_bind, wp_onS. eapply wp_schedThread; [exact Hi|exact Hp|intuition congruence| |exact HN].
  intros c s' Hi' Hc' Hp'. pose proof (si_flight _ _ _ _ Hi' c (elem_of_singleton_2 c c eq_refl)) as Hcx.
  apply wp_bind, wp_onS. eapply wp_schedule; [done|done|done|]. apply wp_bind, wp_onS, wp_modify. apply wp_bind.
  assert (forall n, p ∉ queue n s') as Hnq' by (intros n Hx; by apply (Hnq n), (calm_queue _ _ Hc')).
  assert (~ handed p s') as Hnh' by (intros Hx; by apply Hnh, (calm_handed _ _ _ Hc')).
  pose proof (sinv_place _ _ _ _ _ _ _ Hi' Hp' Hs (elem_of_singleton_2 c c eq_refl) Hnq' Hnh') as Hi2.
  pose proof (si_cores _ _ _ _ Hi') as Hco. pose proof (lookup_lt_Some _ _ _ Hcx) as Hlt. rewrite (si_len _ _ _ _ Hi') in Hlt.
  apply (wp_bar_join fuel (fun _ => True)); [done|done|lia|by eapply idle_not_running, elem_of_singleton| |done|].
  - split.
    + eapply sinv_sets; [apply sinv_ext, sinv_ext, sinv_stat; [done|done|exact Hi2]|by rewrite members_join| |]; set_solver.
    + apply busy_join. apply (busy_thread (abs b) s' p (with_place RUNNING c th)); [done|done|by eapply busy_calm].
  - intros b' HI'. apply wp_ret. by apply HI.
Qed.

(** The end of a call that waits for a context. *)
Lemma wp_queue_up M G b s s0 p th (Q : joined -> Barrier.t * t X -> Prop) :
  sinv M ∅ G s -> threads s !! p = Some th -> ~ placed th -> G ⊆ {[p]} -> (forall n, p ∉ queue n s) -> ~ handed p s ->
  (forall c, available c s -> mask th !! c = Some false) ->
  s0 = set_threads (<[p := with_state QUEUED th]> (threads s)) s ->
  (forall s', sinv M ∅ ∅ s' -> (forall a, busy_runs a s -> busy_runs a s') -> Q WaitsForContext (b, s')) ->
  wp (_ ← onS (push_back RunQ p); _ ← onS (waitForContext p); mret WaitsForContext) (b, s0) Q.
Proof.
  intros Hi Hp Hpl HG Hnq Hnh HW -> HQ. destruct (quiet _ _ _ _ _ _ Hi Hp) as (Hh0 & Hm0 & Hf0); [intros E; apply Hpl; by left|].
  apply wp_bind, wp_onS, wp_push_back; [done|]. unfold waitForContext. apply wp_bind, wp_onS, wp_bind.
  eapply wp_setTh; [proj; by rewrite lookup_insert_eq|]. apply wp_modify, wp_ret. proj. rewrite insert_insert_eq. apply HQ.
  - apply sinv_stat; [done|done|]. exact (sinv_enqueue M G s p th (needsJoin th) Hi Hp Hpl HG Hnq Hnh HW).
  - intros a Hb. exact (busy_thread a s p (with_futexWord 1 (needsJoin th) (with_state QUEUED th)) Hh0 Hm0 Hb).
Qed.

Lemma wp_place b s p th (Q : joined -> Barrier.t * t X -> Prop) : sched_inv (b, s) -> threads s !! p = Some th ->
  state th = BLOCKED \/ state th = STARTED -> (forall o b' s', sched_inv (b', s') -> Q o (b', s')) ->
  wp (place fuel p) (b, s) Q.
Proof.
  intros [Hb [Hi Hbr]] Hp Hs HQ. cbn [fst snd] in *. unfold place.
  assert (forall n, p ∉ queue n s) as Hnq by (eapply not_listed; [done..|]; intros []; cbn; intuition congruence).
  assert (~ handed p s) as Hnh by (eapply not_handed; [done..|]; intuition congruence).
  eapply wp_claim; [done|exact Hi|done|exact Hp|tauto|set_solver|done|done|by intros; apply HQ|]. intros HW.
  apply wp_bind, wp_onS. eapply wp_setTh; [done|].
  eapply wp_queue_up; [exact Hi|exact Hp|unfold placed; intuition congruence|set_solver|done|done|done|done|].
  intros s' Hi' Hb'. apply HQ. split; [done|]. split; [done|by apply Hb'].
Qed.

(** *** Leaving *)

Definition gone s s' (p : nat) (th : ThreadInfo) : Prop := gidMap s' = gidMap s /\
  (markedForSleep th = false -> exists th', threads s' !! p = Some th' /\ (state th' = BLOCKED \/ state th' = OUT)).

Lemma gone_kept s p th s1 s2 : kept s1 s2 -> gone s s1 p th -> gone s s2 p th.
Proof.
  intros [Hg Hk] [Hg1 Hp]. split; [congruence|]. intros Hm. destruct (Hp Hm) as (th1 & Hp1 & Hs1).
  destruct (Hk p th1 Hp1) as (th2 & Hp2 & ?). exists th2. split; [done|intuition congruence].
Qed.

(** The context [c] of thread [p], which has just left it, is handed over or
    leaves the barrier. *)
Lemma wp_pass_on b s sa p th c (Q : unit -> Barrier.t * t X -> Prop) : BarrierInv.inv b -> c ∈ running (abs b) ->
  sinv (members (abs b) ∖ {[c]}) {[c]} ∅ sa -> busy_runs (abs b) sa -> gone s sa p th ->
  (exists th1, threads sa !! p = Some th1 /\ state th1 <> QUEUED) ->
  BarrierInv.draws_ok fuel b -> tick_draws fuel sa ->
  (forall b' s', sched_inv (b', s') -> gone s s' p th -> Q tt (b', s')) ->
  wp (o ← onS (schedContext c);
      match o with
      | Some q => onS (take_over q c)
      | None => _ ← onS (free_push_back c); bar_leave fuel c
      end) (b, sa) Q.
Proof.
  intros Hb Hc Hi Hbr Hg (th1 & Hp1 & Hq1) Hd Ht HQ. pose proof (si_flight _ _ _ _ Hi c (elem_of_singleton_2 c c eq_refl)) as Hcx.
  pose proof (lookup_lt_Some _ _ _ Hcx) as Hlt. rewrite (si_len _ _ _ _ Hi) in Hlt.
  apply wp_bind, wp_onS. eapply wp_schedContext; [exact Hi|done| |].
  - intros q thq Hin Hq _. destruct (dequeued _ _ _ _ _ _ Hi Hin Hq) as (Hi1 & Hn & Hh & Hs & Hf).
    apply wp_onS. eapply wp_take_over; [exact Hi1|exact Hq|done|done|done|done|].
    intros s' Hi' Hg' Hth. cbn [threads set_queue] in Hth. apply HQ.
    + split; [done|]. split; cbn [fst snd].
      * eapply sinv_sets; [exact Hi'| |done|clear; set_solver].
        apply union_difference_singleton_L. unfold members. clear -Hc. set_solver.
      * intros v thv. rewrite Hth, lookup_insert_Some. intros [[<- <-]|[_ Hv]]; [|by apply (Hbr v)].
        cbn. destruct (quiet _ _ _ _ _ _ Hi Hq) as (? & ? & _); [congruence|]. intuition congruence.
    + destruct Hg as [Hg1 Hg2]. split; [rewrite Hg'; exact Hg1|]. intros Hm. destruct (Hg2 Hm) as (th2 & Hp2 & Hs2).
      exists th2. split; [|done]. rewrite Hth, lookup_insert_ne; [done|]. intros <-. proj. congruence.
  - intros HW. apply wp_bind, wp_onS. apply wp_free_push_back.
    { intros Hin. apply (si_free_iff _ _ _ _ Hi) in Hin as [_ Hn]. set_solver. }
    pose proof (sinv_free_push _ _ _ _ _ Hi (elem_of_singleton_2 c c eq_refl) HW) as Hi1.
    apply (wp_bar_leave fuel (fun s' => gone s s' p th)); [intros ? ?; apply gone_kept|done|done| |exact Hg|done|done|].
    + split; [|exact (busy_leave _ _ _ _ _ Hi Hbr)]. eapply sinv_sets; [exact Hi1|by rewrite members_leave| |done]. set_solver.
    + intros b' s' HI' Hg'. by apply HQ.
Qed.

(** A marked thread put to sleep, in the order of the queue. *)
Lemma wp_fall_asleep b s p th (K : ST (Barrier.t * t X) unit) (Q : unit -> Barrier.t * t X -> Prop) :
  sinv (members (abs b)) ∅ ∅ s -> busy_runs (abs b) s -> threads s !! p = Some th -> markedForSleep th = true ->
  handoffThread th = None -> fakeLeave th = None ->
  (forall s', sinv (members (abs b) ∖ {[cid th]}) {[cid th]} ∅ s' -> busy_runs (abs b) s' ->
     (exists th', threads s' !! p = Some th' /\ state th' = SLEEPING) ->
     gidMap s' = gidMap s -> rnd s' = rnd s -> numCores s' = numCores s -> wp K (b, s') Q) ->
  wp (_ ← onS (setTh p (fun th => with_sleep false (wakeupPhase th) (futexWord th) th));
      _ ← onS (deschedule p (cid th) SLEEPING);
      _ ← onS (sleep_insert p (wakeupPhase th));
      _ ← onS (modify (set_stat inc_sleepEvents)); K) (b, s) Q.
Proof.
  intros Hi Hbr Hp Hm Hh Hf HQ. set (c := cid th) in *.
  destruct (to_mark _ _ _ (si_thread _ _ _ _ Hi p th Hp) Hm) as (Hs & Hfx & Hwk).
  pose proof (si_place _ _ _ _ Hi p th Hp ltac:(by left)) as Hcx. fold c in Hcx.
  assert (forall n, p ∉ queue n s) as Hnq by (eapply not_listed; [done..|]; intros []; cbn; congruence).
  assert (~ handed p s) as Hnh by (eapply not_handed; [done..|]; congruence).
  apply wp_bind, wp_onS. eapply wp_setTh; [exact Hp|]. set (th1 := with_sleep false (wakeupPhase th) (futexWord th) th).
  set (s1 := set_threads (<[p := th1]> (threads s)) s).
  assert (sinv (members (abs b)) ∅ ∅ s1) as Hi1.
  { apply sinv_tweak with th; try done. destruct (si_thread _ _ _ _ Hi p th Hp). split; cbn; try done; intros; congruence. }
  assert (threads s1 !! p = Some th1) as Hp1 by (unfold s1; proj; by rewrite lookup_insert_eq).
  apply wp_bind, wp_onS. change c with (cid th1). eapply wp_deschedule; [exact Hp1|exact Hcx|by left|by right; right|].
  change (cid th1) with c.
  pose proof (sinv_unplace _ _ _ _ p th1 SLEEPING Hi1 Hp1 ltac:(by left) Hnq Hh eq_refl Hf ltac:(by right; right) ltac:(done)) as Hi2.
  apply (sinv_ext _ _ _ _ (off_core c)), (sinv_ext _ _ _ _ (notifyDeschedule c (getPid (gid th1)))) in Hi2.
  set (s2 := set_ext _ (set_ext _ _)) in Hi2. set (th2 := with_state SLEEPING th1).
  assert (threads s2 = <[p := th2]> (threads s)) as Ht2 by (unfold s2, unplace_st, s1; proj; by rewrite insert_insert_eq).
  assert (threads s2 !! p = Some th2) as Hp2 by (by rewrite Ht2, lookup_insert_eq).
  assert (handoffThread th2 = None /\ markedForSleep th2 = false) as [Hh2 Hm2] by done.
  assert (forall v thv, threads s2 !! v = Some thv -> handoffThread thv <> None \/ markedForSleep thv = true ->
    threads s !! v = Some thv) as Hold.
  { intros v thv. rewrite Ht2, lookup_insert_Some. intros [[<- <-]|[_ Hv]]; [intuition congruence|done]. }
  apply wp_bind, wp_onS. change (wakeupPhase th) with (wakeupPhase th2).
  eapply wp_sleep_insert; [exact Hi2|exact Hp2|exact Hnq|]. intros l1 l2 El Hso.
  assert (queue SleepQ s = l1 ++ l2) as El0 by exact El. pose proof (si_nodup _ _ _ _ Hi SleepQ) as Hnd. rewrite El0 in Hnd.
  assert (sinv (members (abs b) ∖ {[c]}) {[c]} ∅ (set_queue SleepQ (l1 ++ p :: l2) s2)) as Hi3.
  { eapply sinv_sets; [eapply (sinv_push _ _ _ _ SleepQ p th2 (l1 ++ p :: l2) Hi2 Hp2)|done|clear; set_solver|clear; set_solver]; try done.
    - intros (v & thv & Hv & Hvp). apply Hnh. exists v, thv. split; [|done]. apply Hold; [done|]. left. congruence.
    - apply NoDup_app in Hnd as (Hn1 & Hd & Hn2). specialize (Hnq SleepQ). rewrite El0, not_elem_of_app in Hnq. destruct Hnq.
      apply NoDup_app. split_and!; [done| |by apply NoDup_cons].
      intros x Hx Hx'. apply elem_of_cons in Hx' as [->|Hx']; [done|by apply (Hd x)].
    - intros x. change (queue SleepQ s2) with (queue SleepQ s). rewrite El0, !elem_of_app, elem_of_cons. tauto. }
  apply wp_bind, wp_onS, wp_modify. apply HQ; try done.
  - by apply sinv_stat.
  - intros v thv Hv Hx. exact (Hbr v thv (Hold v thv Hv Hx) Hx).
  - by exists th2.
Qed.

(** A thread's context handed to a queued one. *)
Lemma wp_hand_over b s p th q thq (Q : unit -> Barrier.t * t X -> Prop) : sched_inv (b, s) -> threads s !! p = Some th ->
  state th = RUNNING -> handoffThread th = None -> fakeLeave th = None -> markedForSleep th = false ->
  cid th ∈ members (abs b) -> q ∈ queue RunQ s -> threads s !! q = Some thq ->
  (forall s', sched_inv (b, s') -> gone s s' p th -> Q tt (b, s')) ->
  wp (_ ← onS (deschedule p (cid th) BLOCKED); onS (take_over q (cid th)))
    (b, set_queue RunQ (filter (fun x => x <> q) (queue RunQ s)) s) Q.
Proof.
  intros [Hb [Hi Hbr]] Hp Hs Hh Hf Hm Hc Hin Hq HQ. cbn [fst snd] in *. set (c := cid th) in *.
  destruct (dequeued _ _ _ _ _ _ Hi Hin Hq) as (Hi1 & Hn & Hh1 & Hs1 & Hf1). set (s1 := set_queue RunQ _ s) in *.
  destruct (quiet _ _ _ _ _ _ Hi Hq) as (Hhq & Hmq & _); [congruence|].
  assert (q <> p) as Hqp by (intros ->; congruence).
  pose proof (si_place _ _ _ _ Hi p th Hp ltac:(by left)) as Hcx.
  assert (forall n, p ∉ queue n s) as Hnq by (eapply not_listed; [done..|]; intros []; cbn; congruence).
  assert (forall n, p ∉ queue n s1) as Hnq1.
  { intros n. unfold s1. rewrite queue_set. case_decide; [|apply Hnq]. rewrite list_elem_of_filter. intros [_ Hx]. by apply (Hnq RunQ). }
  apply wp_bind, wp_onS. eapply wp_deschedule; [exact Hp|exact Hcx|by left|by left|].
  pose proof (sinv_unplace _ _ _ _ p th BLOCKED Hi1 Hp ltac:(by left) Hnq1 Hh Hm Hf ltac:(by left) ltac:(done)) as Hi2.
  apply (sinv_ext _ _ _ _ (off_core c)), (sinv_ext _ _ _ _ (notifyDeschedule c (getPid (gid th)))) in Hi2.
  set (s2 := set_ext _ (set_ext _ _)) in Hi2 |- *. set (th2 := with_state BLOCKED th).
  assert (threads s2 = <[p := th2]> (threads s)) as Ht2 by done.
  assert (threads s2 !! p = Some th2) as Hp2 by (by rewrite Ht2, lookup_insert_eq).
  assert (threads s2 !! q = Some thq) as Hq2 by (by rewrite Ht2, lookup_insert_ne).
  assert (sinv (members (abs b) ∖ {[c]}) {[c]} ({[q]} ∪ ∅) s2) as Hi3.
  { eapply sinv_sets; [exact (sinv_land _ _ _ _ _ _ Hi2 Hp2 ltac:(by intros []))|done|clear; set_solver|].
    apply set_eq. intros x. clear -Hqp. set_solver. }
  apply wp_onS. eapply wp_take_over; [exact Hi3|exact Hq2|done|done|done|..].
  - intros (v & thv & Hv & Hvq). rewrite Ht2, lookup_insert_Some in Hv.
    destruct Hv as [[<- <-]|[_ Hv]]; [cbn in Hvq; congruence|]. apply Hh1. by exists v, thv.
  - intros s' Hi' Hg' Hth. rewrite Ht2 in Hth. apply HQ.
    + split; [done|]. split; cbn [fst snd].
      * eapply sinv_sets; [exact Hi'|by apply union_difference_singleton_L|done|clear; set_solver].
      * intros v thv. rewrite Hth, !lookup_insert_Some.
        intros [[<- <-]|[_ [[<- <-]|[_ Hv]]]]; [cbn; intuition congruence..|by apply (Hbr v)].
    + split; [by rewrite Hg'|]. intros _. exists th2. rewrite Hth, lookup_insert_ne, lookup_insert_eq by done. auto.
Qed.

Lemma wp_leave b s p th pid tid (Q : unit -> Barrier.t * t X -> Prop) : sched_inv (b, s) -> threads s !! p = Some th ->
  gid th = getGid pid tid -> state th = RUNNING -> handoffThread th = None -> fakeLeave th = None ->
  cid th ∈ running (abs b) -> BarrierInv.draws_ok fuel b -> tick_draws fuel s ->
  (forall b' s', sched_inv (b', s') -> gone s s' p th -> Q tt (b', s')) ->
  wp (leave fuel pid tid (cid th)) (b, s) Q.
Proof.
  intros [Hb [Hi Hbr]] Hp Hg Hs Hh Hf Hc Hd Ht HQ. cbn [fst snd] in *.
  pose proof (si_place _ _ _ _ Hi p th Hp ltac:(by left)) as Hcx.
  assert (forall n, p ∉ queue n s) as Hnq by (eapply not_listed; [done..|]; intros []; cbn; congruence).
  unfold leave. apply wp_bind, wp_onS. eapply wp_getCtx; [exact Hcx|]. apply wp_bind, wp_onS. eapply wp_lift; [reflexivity|].
  apply wp_bind, wp_onS. eapply wp_getTh; [done|]. do 2 (apply wp_bind, wp_onS, wp_assert; [by apply bool_decide_true|]).
  apply wp_bind, wp_onS, wp_modify. set (s0 := set_ext (core_leave (cid th)) s).
  pose proof (sinv_ext _ _ _ _ (core_leave (cid th)) Hi) as Hi0. fold s0 in Hi0.
  destruct (markedForSleep th) eqn:Em.
  - apply wp_fall_asleep; try done. intros s' Hi' Hb' (th' & Hp' & Hs') Hg' Hr' Hn'.
    eapply wp_pass_on with (s := s) (p := p) (th := th); [done|exact Hc|done|done| |exists th'; split; [done|congruence]|done| |exact HQ].
    + split; [by rewrite Hg'|congruence].
    + unfold tick_draws. by rewrite Hr', Hn'.
  - apply wp_bind, wp_onS. eapply wp_schedContext; [exact Hi0|apply (to_cid _ _ _ (si_thread _ _ _ _ Hi p th Hp))| |].
    + intros q thq Hin Hq _. eapply (wp_hand_over b s0 p th q thq); try done.
      * unfold members. clear -Hc. set_solver.
      * intros s' HI' Hg'. by apply HQ.
    + intros HW. apply wp_bind, wp_onS. eapply wp_setTh; [exact Hp|].
      apply wp_bind, wp_onS, wp_push_back; [exact Hnq|].
      pose proof (sinv_leave_out _ _ _ _ Hi0 Hp Hs Hh Em Hf HW) as Hi1.
      apply (wp_bar_leave fuel (fun s' => gone s s' p th)); [intros ? ?; apply gone_kept|done|exact Hc| | |done|exact Ht|].
      * split; [by rewrite members_leave|]. eapply busy_leave; [exact Hi1|]. exact (busy_thread (abs b) s p (with_state OUT th) Hh Em Hbr).
      * split; [done|]. intros _. exists (with_state OUT th). split; [proj; by rewrite lookup_insert_eq|by right].
      * intros b' s' HI' Hg'. by apply HQ.
Qed.

(** *** Synchronising *)

Lemma wp_sync b s p th (Q : unit -> Barrier.t * t X -> Prop) : sched_inv (b, s) -> threads s !! p = Some th ->
  state th = RUNNING -> handoffThread th = None -> markedForSleep th = false ->
  cid th ∈ running (abs b) -> BarrierInv.draws_ok fuel b -> tick_draws fuel s ->
  (forall b' s', sched_inv (b', s') -> Q tt (b', s')) -> wp (sync fuel (cid th)) (b, s) Q.
Proof.
  intros [Hb [Hi Hbr]] Hp Hs Hh Hm Hc Hd Ht HQ. cbn [fst snd] in *.
  pose proof (si_place _ _ _ _ Hi p th Hp ltac:(by left)) as Hcx.
  unfold sync. apply wp_bind, wp_onS. eapply wp_getCtx; [exact Hcx|]. apply wp_bind, wp_onS. eapply wp_lift; [reflexivity|].
  apply wp_bind, wp_onS. eapply wp_getTh; [done|]. apply wp_bind, wp_onS, wp_assert; [by rewrite Hm|].
  apply (wp_bar_sync fuel (fun _ => True)); [done|done|done| |done|done|done|by intros; apply HQ].
  split; [by rewrite members_sync|]. apply (busy_sync _ _ p); [done|done|done|by left|done|done].
Qed.

Lemma wp_sync_handoff b s p th (Q : joined -> Barrier.t * t X -> Prop) : sched_inv (b, s) -> threads s !! p = Some th ->
  state th = RUNNING -> markedForSleep th = false -> fakeLeave th = None ->
  (forall o b' s', sched_inv (b', s') -> Q o (b', s')) -> wp (sync_handoff fuel p) (b, s) Q.
Proof.
  intros [Hb [Hi Hbr]] Hp Hs Hm Hf HQ. cbn [fst snd] in *. set (c := cid th).
  pose proof (si_place _ _ _ _ Hi p th Hp ltac:(by left)) as Hcx.
  unfold sync_handoff. apply wp_bind, wp_onS. eapply wp_getTh; [done|]. destruct (handoffThread th) as [dst|] eqn:Eh.
  2:{ apply wp_bind, wp_onS, wp_assert; [by apply bool_decide_true|]. by apply wp_ret, HQ. }
  destruct (si_handoff _ _ _ _ Hi p th dst Hp Eh) as (_ & Hdq & _ & _ & thd & Hdst & Hds).
  assert (dst <> p) as Hdp by (intros ->; congruence). destruct (quiet _ _ _ _ _ _ Hi Hdst) as (Hhd & Hmd & _); [congruence|].
  assert (futexWord thd = 1) as Hfx by (apply (si_futex _ _ _ _ Hi dst); [done|set_solver|by left]).
  pose proof (sinv_clear_handoff _ _ _ _ _ _ _ Hi Hp Eh) as Hi1. set (th1 := with_handoff None th) in *.
  apply wp_bind, wp_onS. eapply wp_setTh; [exact Hp|]. fold th1. set (s1 := set_threads (<[p := th1]> (threads s)) s) in *.
  assert (threads s1 !! p = Some th1) as Hp1 by (unfold s1; proj; by rewrite lookup_insert_eq).
  assert (forall n, p ∉ queue n s1) as Hnq1 by (eapply not_listed; [exact Hi1|exact Hp1|]; intros []; cbn; congruence).
  apply wp_bind, wp_onS. change (cid th) with (cid th1). eapply wp_deschedule; [exact Hp1|exact Hcx|by left|by right; left|].
  pose proof (sinv_unplace _ _ _ _ p th1 QUEUED Hi1 Hp1 ltac:(by left) Hnq1 eq_refl Hm Hf ltac:(by right; left) ltac:(done)) as Hi2.
  change (cid th1) with c in *.
  apply (sinv_ext _ _ _ _ (off_core c)), (sinv_ext _ _ _ _ (notifyDeschedule c (getPid (gid th1)))) in Hi2.
  set (s2 := set_ext _ (set_ext _ _)) in Hi2 |- *. set (th2 := with_state QUEUED th1).
  assert (threads s2 = <[p := th2]> (threads s)) as Ht2 by (unfold s2, unplace_st, s1; proj; by rewrite insert_insert_eq).
  assert (threads s2 !! dst = Some thd) as Hd2 by (by rewrite Ht2, lookup_insert_ne).
  assert (forall n, dst ∉ queue n s2) as Hnqd.
  { intros n Hx. change (queue n s2) with (queue n s) in Hx. destruct (si_queue _ _ _ _ Hi n dst Hx) as (_ & th' & Hth' & Hst).
    rewrite Hdst in Hth'. injection Hth' as <-. destruct n; cbn in Hst; congruence || done. }
  assert (forall v thv q, threads s2 !! v = Some thv -> handoffThread thv = Some q -> threads s !! v = Some thv /\ v <> p) as Hold.
  { intros v thv q. rewrite Ht2, lookup_insert_Some. intros [[<- <-]|[? ?]]; [discriminate|done]. }
  assert (~ handed dst s2) as Hnhd.
  { intros (v & thv & Hv & Hvq). destruct (Hold v thv dst Hv Hvq) as [Hv' Hne]. apply Hne. by apply (si_handoff_inj _ _ _ _ Hi v p thv th dst). }
  assert (~ handed p s2) as Hnhp.
  { intros (v & thv & Hv & Hvq). destruct (Hold v thv p Hv Hvq) as [Hv' Hne]. pose proof (handed_queued _ _ _ _ _ _ Hi Hp ltac:(by exists v, thv)). congruence. }
  pose proof (si_flight _ _ _ _ Hi2 c ltac:(clear; set_solver)) as Hc2.
  apply wp_bind, wp_onS. eapply wp_schedule; [exact Hd2|exact Hc2|by right; right|].
  apply wp_bind, wp_onS. eapply wp_wakeup; [unfold place_st; proj; by rewrite lookup_insert_eq|exact Hfx|].
  apply wp_bind, wp_onS, wp_modify. set (s3 := set_stat inc_handoffEvents _).
  assert (sinv (members (abs b)) ∅ {[p]} (install_st dst thd c s2)) as Hi3'.
  { eapply sinv_sets; [exact (sinv_install _ _ _ _ _ _ c Hi2 Hd2 Hds ltac:(clear; set_solver) Hnqd Hnhd)| | |].
    - apply union_difference_singleton_L. eapply running_at; [exact Hi|exact Hp|by left|done].
    - clear. set_solver.
    - apply set_eq. intros x. clear -Hdp. set_solver. }
  assert (threads s3 = <[dst := with_futexWord 0 false (with_place RUNNING c thd)]> (threads s2)) as Ht3.
  { unfold s3, place_st. proj. by rewrite insert_insert_eq. }
  assert (sinv (members (abs b)) ∅ {[p]} s3) as Hi3.
  { refine (sinv_same _ _ _ _ _ _ _ _ _ _ _ _ _ _ _ _ _ _ _ _ Hi3'); try reflexivity.
    rewrite Ht3. by unfold install_st, place_st; proj; rewrite ?insert_insert_eq. }
  assert (busy_runs (abs b) s3) as Hb3.
  { intros v thv. rewrite Ht3, lookup_insert_Some. intros [[<- <-]|[_ Hv]]; [cbn; intuition congruence|].
    rewrite Ht2, lookup_insert_Some in Hv. destruct Hv as [[<- <-]|[_ Hv]]; [cbn; intuition congruence|by apply (Hbr v)]. }
  assert (threads s3 !! p = Some th2) as Hp3 by (by rewrite Ht3, lookup_insert_ne, Ht2, lookup_insert_eq).
  assert (~ handed p s3) as Hnh3.
  { intros (v & thv & Hv & Hvq). apply Hnhp. exists v, thv. split; [|done]. rewrite Ht3, lookup_insert_Some in Hv.
    destruct Hv as [[<- <-]|[_ Hv]]; [cbn in Hvq; congruence|done]. }
  eapply wp_claim; [done|exact Hi3|done|exact Hp3|by right; right|done|exact Hnq1|exact Hnh3|by intros; apply HQ|]. intros HW.
  eapply wp_queue_up; [exact Hi3|exact Hp3|by intros [E|E]; discriminate E|done|exact Hnq1|exact Hnh3|exact HW| |].
  - symmetry. exact (set_threads_id s3 p th2 Hp3).
  - intros s' Hi' Hb'. apply HQ. split; [done|]. split; [done|by apply Hb'].
Qed.

(** *** Joining *)

(** The assertions of [futexWakeJoin]. *)
Definition futex_ok (th : ThreadInfo) s : Prop :=
  match action (futexJoin th) with
  | FJA_WAKE =>
      let j := futexJoin th in
      maxWakes j <= maxAllowedFutexWakeups s /\ wokenUp j <= maxWakes j /\
      unmatchedFutexWakeups s <= maxAllowedFutexWakeups s -32 (maxWakes j -32 wokenUp j)
  | _ => True
  end.

Lemma wp_futex_join p s th (Q : unit -> t X -> Prop) : threads s !! p = Some th -> futex_ok th s ->
  (forall j m u, Q tt (set_threads (<[p := with_futexJoin j th]> (threads s)) (set_wakeups m u s))) -> wp (futex_join p) s Q.
Proof.
  intros Hp Hok HQ. unfold futex_join. apply wp_bind. eapply wp_getTh; [done|]. unfold futex_ok in Hok.
  destruct (action (futexJoin th)) eqn:Ea.
  - apply wp_ret. specialize (HQ (futexJoin th) (maxAllowedFutexWakeups s) (unmatchedFutexWakeups s)).
    assert (with_futexJoin (futexJoin th) th = th) as E by by destruct th.
    assert (set_wakeups (maxAllowedFutexWakeups s) (unmatchedFutexWakeups s) s = s) as E2 by by destruct s.
    by rewrite E, E2, (set_threads_id s p th Hp) in HQ.
  - destruct Hok as (H1 & H2 & H3). unfold futexWakeJoin. apply wp_bind, wp_bind. eapply wp_getTh; [done|].
    apply wp_bind, wp_assert; [by apply bool_decide_true|]. apply wp_bind, wp_get.
    do 3 (apply wp_bind, wp_assert; [by apply Z.leb_le|]). unfold wp at 1. cbn [put]. eapply wp_setTh; [exact Hp|]. apply HQ.
  - unfold futexWaitJoin. apply wp_bind, wp_bind. eapply wp_getTh; [done|].
    apply wp_bind, wp_assert; [by apply bool_decide_true|]. apply wp_bind, wp_get. case_match.
    + apply wp_ret. eapply wp_setTh; [exact Hp|]. specialize (HQ (mkFJ FJA_NONE (maxWakes (futexJoin th)) (wokenUp (futexJoin th))) (maxAllowedFutexWakeups s) (unmatchedFutexWakeups s)).
      by replace (set_wakeups (maxAllowedFutexWakeups s) (unmatchedFutexWakeups s) s) with s in HQ by by destruct s.
    + unfold wp at 1. cbn [put]. eapply wp_setTh; [exact Hp|]. apply HQ.
Qed.

Lemma sched_tweak b s p th th' m u : sched_inv (b, s) -> threads s !! p = Some th ->
  cid th' = cid th -> gid th' = gid th -> mask th' = mask th -> handoffThread th' = handoffThread th -> state th' = state th ->
  thread_ok s p th' -> (state th <> RUNNING -> wakeupPhase th' = wakeupPhase th) ->
  (state th = QUEUED \/ state th = SLEEPING -> futexWord th' = 1) ->
  (markedForSleep th' = true -> markedForSleep th = true \/ cid th ∈ running (abs b)) ->
  sched_inv (b, set_threads (<[p := th']> (threads s)) (set_wakeups m u s)).
Proof.
  intros [Hb [Hi Hbr]] Hp Hc Hg Hk Hh Hs Hok Hw Hf Hm. cbn [fst snd] in *. split; [done|]. split; cbn [fst snd].
  - assert (sinv (members (abs b)) ∅ ∅ (set_threads (<[p := th']> (threads s)) s)) as Hi1
      by (eapply sinv_tweak; [exact Hi|exact Hp|done..|]; by intros _).
    refine (sinv_same _ _ _ _ _ _ _ _ _ _ _ _ _ _ _ _ _ _ _ _ Hi1); reflexivity.
  - intros v thv. proj. rewrite lookup_insert_Some. intros [[<- <-]|[_ Hv]]; [|by apply (Hbr v)]. rewrite Hh, Hc.
    intros [Hx|Hx]; [by apply (Hbr p th Hp); left|]. destruct (Hm Hx) as [Hx'|Hx']; [by apply (Hbr p th Hp); right|].
    clear -Hx'. set_solver.
Qed.

Lemma sched_futexJoin b s p th j m u : sched_inv (b, s) -> threads s !! p = Some th ->
  sched_inv (b, set_threads (<[p := with_futexJoin j th]> (threads s)) (set_wakeups m u s)).
Proof.
  intros HI Hp. pose proof HI as [_ [Hi _]]. cbn in Hi. eapply sched_tweak; try done.
  - destruct (si_thread _ _ _ _ Hi p th Hp). by split.
  - intros Hs. apply (si_futex _ _ _ _ Hi p th Hp); [set_solver|done].
  - by left.
Qed.

(** A fake leave begins or ends. *)
Lemma sched_fake b s p th f l bl : sched_inv (b, s) -> threads s !! p = Some th ->
  (f <> None -> p ∈ l /\ state th = RUNNING) -> (forall q, q <> p -> q ∈ fakeLeaves s -> q ∈ l) ->
  sched_inv (b, set_fakes l bl (set_threads (<[p := with_fakeLeave f th]> (threads s)) s)).
Proof.
  intros [Hb [Hi Hbr]] Hp Hf Hl. cbn [fst snd] in *. destruct (si_thread _ _ _ _ Hi p th Hp) as [? ? ? ? ? Hfk].
  set (s0 := set_threads (<[p := with_fakeLeave None th]> (threads s)) s).
  assert (sinv (members (abs b)) ∅ ∅ s0) as Hi0.
  { eapply sinv_tweak; [exact Hi|exact Hp|done..| |done|]; [by split|]. intros Hg Hs. by apply (si_futex _ _ _ _ Hi p th). }
  assert (sinv (members (abs b)) ∅ ∅ (set_fakes l bl s0)) as Hi1.
  { apply sinv_fakes; [done|]. intros q thq. unfold s0. proj. rewrite lookup_insert_Some. intros [[<- <-]|[Hne Hq]]; [done|].
    intros E. apply Hl; [done|]. by apply (to_fake _ _ _ (si_thread _ _ _ _ Hi q thq Hq)). }
  assert (threads (set_fakes l bl s0) !! p = Some (with_fakeLeave None th)) as Hp0 by (unfold s0; proj; by rewrite lookup_insert_eq).
  split; [done|]. split; cbn [fst snd].
  - assert (sinv (members (abs b)) ∅ ∅ (set_threads (<[p := with_fakeLeave f th]> (threads (set_fakes l bl s0))) (set_fakes l bl s0))) as Hi2.
    { eapply sinv_tweak; [exact Hi1|exact Hp0|done..| |done|]; [by split|]. intros Hg Hs. by apply (si_futex _ _ _ _ Hi p th). }
    refine (sinv_same _ _ _ _ _ _ _ _ _ _ _ _ _ _ _ _ _ _ _ _ Hi2); try reflexivity. unfold s0. proj. by rewrite insert_insert_eq.
  - intros v thv. proj. rewrite lookup_insert_Some. intros [[<- <-]|[_ Hv]]; [exact (Hbr p th Hp)|by apply (Hbr v)].
Qed.

Lemma wp_finishFakeLeave b s p th (Q : unit -> t X -> Prop) : sched_inv (b, s) -> threads s !! p = Some th -> fakeLeave th <> None ->
  (forall s', sched_inv (b, s') -> threads s' !! p = Some (with_fakeLeave None th) -> gidMap s' = gidMap s ->
     rnd s' = rnd s -> numCores s' = numCores s -> Q tt s') -> wp (finishFakeLeave p) s Q.
Proof.
  intros HI Hp Hf HQ. pose proof HI as [_ [Hi _]]. cbn in Hi. destruct (to_fake _ _ _ (si_thread _ _ _ _ Hi p th Hp) Hf) as [Hin Hs].
  unfold finishFakeLeave. apply wp_bind. eapply wp_getTh; [done|]. do 2 (apply wp_bind, wp_assert; [by apply bool_decide_true|]).
  apply wp_bind, wp_get, wp_bind, wp_assert; [by apply bool_decide_true|]. apply wp_bind. unfold wp at 1. cbn [put].
  eapply wp_setTh; [exact Hp|]. apply HQ; [|proj; by rewrite lookup_insert_eq|done..].
  refine (sched_fake b s p th None _ _ HI Hp _ _); [done|]. intros q Hq Hin'. by apply list_elem_of_filter.
Qed.

Lemma wp_find_gid e g s p (Q : nat -> t X -> Prop) : gidMap s !! g = Some p -> Q p s -> wp (find_gid e g) s Q.
Proof. intros Hg HQ. unfold find_gid. apply wp_bind, wp_get. eapply wp_lift; [by rewrite Hg|done]. Qed.

(** A sleeping or blocked thread taken off the sleep queue. *)
Lemma wp_unsleep b s p th (Q : unit -> t X -> Prop) : sched_inv (b, s) -> threads s !! p = Some th ->
  (forall s' th', sched_inv (b, s') -> threads s' !! p = Some th' -> gidMap s' = gidMap s ->
     state th' = (if decide (state th = SLEEPING) then BLOCKED else state th) -> fakeLeave th' = fakeLeave th -> Q tt s') ->
  wp (whenS (bool_decide (state th = SLEEPING)) (_ ← remove SleepQ p; setTh p (with_state BLOCKED))) s Q.
Proof.
  intros HI Hp HQ. pose proof HI as [Hb [Hi Hbr]]. cbn [fst snd] in *.
  apply wp_when; [intros Hs%bool_decide_eq_true|intros Hs%bool_decide_eq_false].
  - destruct (si_queued _ _ _ _ Hi SleepQ p th Hp Hs ltac:(set_solver)) as [Hin|[? _]]; [|done].
    apply wp_bind, wp_remove; [exact (owner_in _ _ _ _ _ _ Hi Hin)|]. eapply wp_setTh; [exact Hp|].
    destruct (quiet _ _ _ _ _ _ Hi Hp) as (Hh & Hm & Hf); [congruence|].
    apply (HQ _ (with_state BLOCKED th)); [|proj; by rewrite lookup_insert_eq|done|by rewrite decide_True|done].
    split; [done|]. split; cbn [fst snd]; [exact (sinv_unsleep _ _ _ _ Hi Hin Hp)|].
    exact (busy_thread (abs b) s p (with_state BLOCKED th) Hh Hm Hbr).
  - apply (HQ s th); [done|done|done|by rewrite decide_False|done].
Qed.

Lemma wp_rejoin b s p th (Q : joined -> Barrier.t * t X -> Prop) : sched_inv (b, s) -> threads s !! p = Some th ->
  state th = OUT -> (forall o b' s', sched_inv (b', s') -> Q o (b', s')) ->
  wp (_ ← onS (setTh p (with_state RUNNING)); _ ← onS (remove OutQ p); _ ← onS (core_join_at (cid th));
      _ ← bar_join fuel (cid th); mret (InBarrier (cid th))) (b, s) Q.
Proof.
  intros [Hb [Hi Hbr]] Hp Hs HQ. cbn [fst snd] in *.
  destruct (si_queued _ _ _ _ Hi OutQ p th Hp Hs ltac:(set_solver)) as [Hin|[? _]]; [|done].
  destruct (out_quiet _ _ _ _ _ _ Hi Hin Hp) as (_ & Hpl & Hh & Hm & _ & _).
  apply wp_bind, wp_onS. eapply wp_setTh; [exact Hp|]. apply wp_bind, wp_onS, wp_remove; [exact (owner_in _ _ _ _ _ _ Hi Hin)|].
  apply wp_bind, wp_onS, wp_modify, wp_bind. pose proof (si_cores _ _ _ _ Hi). pose proof (to_cid _ _ _ (si_thread _ _ _ _ Hi p th Hp)).
  apply (wp_bar_join fuel (fun _ => True)); [done|done|lia| | |done|].
  - rewrite (running_at _ _ _ _ _ _ Hi Hp Hpl). congruence.
  - split; [|apply busy_join; exact (busy_thread (abs b) s p (with_state RUNNING th) Hh Hm Hbr)].
    rewrite members_join. apply sinv_ext. exact (sinv_rejoin _ _ _ _ Hi Hin Hp).
  - intros b' HI'. by apply wp_ret, HQ.
Qed.

Lemma wp_join b s p th pid tid (Q : joined -> Barrier.t * t X -> Prop) : sched_inv (b, s) ->
  gidMap s !! getGid pid tid = Some p -> threads s !! p = Some th -> futex_ok th s ->
  fakeLeave th <> None \/ state th <> RUNNING /\ state th <> QUEUED ->
  (forall o b' s', sched_inv (b', s') -> Q o (b', s')) -> wp (join fuel pid tid) (b, s) Q.
Proof.
  intros HI Hg Hp Hfx Hs HQ. unfold join. apply wp_bind, wp_onS. eapply wp_find_gid; [exact Hg|].
  apply wp_bind, wp_onS. eapply wp_futex_join; [exact Hp|exact Hfx|]. intros j m u.
  pose proof (sched_futexJoin b s p th j m u HI Hp) as HI1. set (s1 := set_threads _ _) in *. set (th1 := with_futexJoin j th).
  assert (threads s1 !! p = Some th1) as Hp1 by (unfold s1; proj; by rewrite lookup_insert_eq).
  apply wp_bind, wp_onS. eapply wp_getTh; [exact Hp1|]. change (fakeLeave th1) with (fakeLeave th).
  destruct (fakeLeave th) as [f|] eqn:Ef.
  - apply wp_bind, wp_onS. eapply wp_finishFakeLeave; [exact HI1|exact Hp1|cbn; congruence|].
    intros s2 HI2 _ _ _ _. by apply wp_ret, HQ.
  - destruct Hs as [Hs|[Hs1 Hs2]]; [done|]. pose proof HI1 as [_ [Hi1 _]]. cbn in Hi1.
    destruct (quiet _ _ _ _ _ _ Hi1 Hp1) as (_ & Hm & _); [exact Hs1|].
    apply wp_bind, wp_onS, wp_assert; [by rewrite Hm|]. apply wp_bind, wp_onS.
    eapply wp_unsleep; [exact HI1|exact Hp1|]. intros s2 th2 HI2 Hp2 _ Hst2 _.
    apply wp_bind, wp_onS. eapply wp_getTh; [exact Hp2|]. change (state th1) with (state th) in Hst2.
    case_bool_decide as Ho; [by eapply wp_rejoin|].
    assert (state th2 = BLOCKED \/ state th2 = STARTED) as Hst.
    { revert Ho. rewrite Hst2. case_decide; [by left|]. destruct (state th); intuition congruence. }
    apply wp_bind, wp_onS, wp_assert; [by apply bool_decide_true|]. by eapply wp_place.
Qed.

(** *** Sleep marks, fake leaves, new threads *)

Lemma wp_markForSleep b s p th pid tid ph (Q : unit -> t X -> Prop) : sched_inv (b, s) ->
  gidMap s !! getGid pid tid = Some p -> threads s !! p = Some th -> state th = RUNNING -> markedForSleep th = false ->
  cid th ∈ running (abs b) -> curPhase s < ph < max64 -> (forall s', sched_inv (b, s') -> Q tt s') ->
  wp (markForSleep pid tid ph) s Q.
Proof.
  intros HI Hg Hp Hs Hm Hc Hph HQ. unfold markForSleep. apply wp_bind. eapply wp_find_gid; [exact Hg|].
  apply wp_bind. eapply wp_getTh; [exact Hp|]. apply wp_bind, wp_assert; [by rewrite Hm|]. eapply wp_setTh; [exact Hp|]. apply HQ.
  assert (set_wakeups (maxAllowedFutexWakeups s) (unmatchedFutexWakeups s) s = s) as E by by destruct s.
  pose proof HI as [_ [Hi _]]. cbn in Hi. destruct (si_thread _ _ _ _ Hi p th Hp).
  rewrite <- E at 2. eapply sched_tweak; try done; by right.
Qed.

Lemma wp_notifySleepEnd b s p th pid tid (Q : unit -> t X -> Prop) : sched_inv (b, s) ->
  gidMap s !! getGid pid tid = Some p -> threads s !! p = Some th -> state th = SLEEPING \/ state th = BLOCKED ->
  (forall s', sched_inv (b, s') -> Q tt s') -> wp (notifySleepEnd pid tid) s Q.
Proof.
  intros HI Hg Hp Hs HQ. pose proof HI as [_ [Hi _]]. cbn in Hi.
  destruct (quiet _ _ _ _ _ _ Hi Hp) as (_ & Hm & _); [intuition congruence|].
  unfold notifySleepEnd. apply wp_bind. eapply wp_find_gid; [exact Hg|]. apply wp_bind. eapply wp_getTh; [exact Hp|].
  apply wp_bind, wp_assert; [by rewrite Hm|]. apply wp_bind, wp_assert; [by apply bool_decide_true|].
  eapply wp_unsleep; [exact HI|exact Hp|]. intros s' th' HI' _ _ _ _. by apply HQ.
Qed.

Lemma wp_syscallLeave b s p th pid tid pc num a0 a1 (Q : unit -> Barrier.t * t X -> Prop) : sched_inv (b, s) ->
  threads s !! p = Some th -> gid th = getGid pid tid -> state th = RUNNING -> handoffThread th = None -> fakeLeave th = None ->
  cid th ∈ running (abs b) -> (Z.to_nat pid < length (blockingSyscalls s))%nat ->
  BarrierInv.draws_ok fuel b -> tick_draws fuel s ->
  (forall b' s', sched_inv (b', s') -> Q tt (b', s')) -> wp (syscallLeave fuel pid tid (cid th) pc num a0 a1) (b, s) Q.
Proof.
  intros HI Hp Hg Hs Hh Hf Hc Hpid Hd Ht HQ. pose proof HI as [_ [Hi _]]. cbn in Hi.
  pose proof (si_place _ _ _ _ Hi p th Hp ltac:(by left)) as Hcx. unfold syscallLeave.
  apply wp_bind, wp_onS. eapply wp_getCtx; [exact Hcx|]. apply wp_bind, wp_onS. eapply wp_lift; [reflexivity|].
  apply wp_bind, wp_onS. eapply wp_getTh; [done|]. do 3 (apply wp_bind, wp_onS, wp_assert; [by apply bool_decide_true|]).
  apply wp_bind, wp_onS, wp_get. destruct (lookup_lt_is_Some_2 _ _ Hpid) as [bl Hbl].
  apply wp_bind, wp_onS. eapply wp_lift; [by rewrite Hbl|].
  destruct (bool_decide (pc ∈ bl) || markedForSleep th) eqn:E.
  - eapply wp_leave; [exact HI|exact Hp|done..|]. intros b' s' HI' _. by apply HQ.
  - apply wp_bind, wp_onS, wp_assert; [by apply bool_decide_true|]. apply wp_bind, wp_onS. eapply wp_setTh; [exact Hp|].
    apply wp_onS, wp_modify, HQ. refine (sched_fake b s p th (Some _) (fakeLeaves s ++ [p]) _ HI Hp _ _).
    + intros _. split; [set_solver|done].
    + intros q _ Hq. set_solver.
Qed.

Lemma wp_start b s pid tid m (Q : unit -> t X -> Prop) : sched_inv (b, s) -> gidMap s !! getGid pid tid = None ->
  length m = numCores s -> existsb id m = true -> (forall s', sched_inv (b, s') -> Q tt s') -> wp (start pid tid m) s Q.
Proof.
  intros [Hb [Hi Hbr]] Hg Hm Hex HQ. cbn [fst snd] in *. unfold start. apply wp_bind, wp_get.
  apply wp_bind, wp_assert; [by apply bool_decide_true|]. unfold ThreadInfo_new. apply wp_bind, wp_bind, wp_get.
  apply wp_bind, wp_assert; [by apply bool_decide_true|]. apply wp_bind. rewrite Hex. apply wp_ret, wp_ret, wp_bind.
  set (th := mkThread (getGid pid tid) _ _ _ _ _ _ _ _ _ _).
  unfold wp at 1. cbn [put]. apply wp_modify, HQ. split; [done|]. split; cbn [fst snd].
  - apply sinv_stat; [done|done|]. apply (sinv_new _ _ _ s (nextThread s) th Hi); try done.
    cbn. destruct m; [discriminate Hex|]. cbn in Hm. lia.
  - exact (busy_thread (abs b) s (nextThread s) th eq_refl eq_refl Hbr).
Qed.

(** *** Finishing *)

Definition no_gid s (p : nat) : Prop := forall g, gidMap s !! g <> Some p.

Lemma sinv_gid_delete M F G s g p : sinv M F G s -> gidMap s !! g = Some p ->
  sinv M F G (set_gids (delete g (gidMap s)) (nextThread s) s) /\
  no_gid (set_gids (delete g (gidMap s)) (nextThread s) s) p.
Proof.
  intros Hi Hg. pose proof Hi as []. split; [split; proj; try done|].
  - intros q thq Hq. destruct (si_thread0 q thq Hq). by split.
  - intros g' q Hq. rewrite lookup_delete_Some in Hq. by apply (si_gid0 g'), Hq.
  - intros g' Hg'. cbn in Hg'. rewrite lookup_delete_Some in Hg'. destruct Hg' as [Hne Hg'].
    destruct (si_gid0 g p Hg) as (th & Hp & E). destruct (si_gid0 g' p Hg') as (th' & Hp' & E'). congruence.
Qed.

(** The context of a thread that left is freed. *)
Lemma wp_drop_out b s p th (Q : unit -> t X -> Prop) : sched_inv (b, s) -> threads s !! p = Some th -> state th = OUT ->
  (forall s', sched_inv (b, s') -> threads s' !! p = Some (with_state BLOCKED th) -> gidMap s' = gidMap s -> Q tt s') ->
  wp (_ ← remove OutQ p; _ ← deschedule p (cid th) BLOCKED; free_push_back (cid th)) s Q.
Proof.
  intros [Hb [Hi Hbr]] Hp Hs HQ. cbn [fst snd] in *.
  destruct (si_queued _ _ _ _ Hi OutQ p th Hp Hs ltac:(set_solver)) as [Hin|[? _]]; [|done].
  destruct (sinv_steal _ _ _ _ _ _ Hi Hin Hp) as [Hi1 Hc1].
  apply (sinv_ext _ _ _ _ (off_core (cid th))), (sinv_ext _ _ _ _ (notifyDeschedule (cid th) (getPid (gid th)))) in Hi1.
  apply wp_bind, wp_remove; [exact (owner_in _ _ _ _ _ _ Hi Hin)|].
  apply wp_bind. eapply wp_deschedule; [exact Hp|apply (si_place _ _ _ _ Hi p th Hp); by right|by right|by left|].
  apply wp_free_push_back.
  { intros Hf. apply (si_free_iff _ _ _ _ Hi1) in Hf as [_ Hn]. clear -Hn. set_solver. }
  apply HQ; [|unfold unplace_st; proj; by rewrite lookup_insert_eq|done]. split; [done|]. split; cbn [fst snd].
  - eapply sinv_sets; [eapply (sinv_free_push _ _ _ _ (cid th) Hi1); [clear; set_solver|]|done|clear; set_solver|done].
    intros q thq Hq Hqt. unfold unplace_st in Hqt. proj. rewrite lookup_insert_Some in Hqt.
    change (q ∈ queue RunQ s) in Hq. destruct Hqt as [[<- <-]|[_ Hqt]].
    + pose proof (in_queue _ _ _ _ _ _ _ Hi Hp Hq). cbn in *. congruence.
    + apply (si_W _ _ _ _ Hi q thq (cid th)); [done|done|]. right. by exists p, th.
  - intros v thv Hv Hx. apply (Hbr v thv); [|done]. by apply (calm_busy _ _ Hc1).
Qed.

Lemma sched_delete b s p th : sched_inv (b, s) -> threads s !! p = Some th ->
  state th = STARTED \/ state th = BLOCKED -> no_gid s p -> sched_inv (b, set_threads (delete p (threads s)) s).
Proof.
  intros [Hb [Hi Hbr]] Hp Hs Hg. cbn [fst snd] in *. split; [done|]. split; cbn [fst snd].
  - eapply sinv_sets; [eapply (sinv_delete _ _ _ _ _ _ Hi Hp)|done|done|set_solver].
    + unfold placed. intuition congruence.
    + eapply not_listed; [done..|]. intros []; cbn; intuition congruence.
    + eapply not_handed; [done..|]. intuition congruence.
    + exact Hg.
  - intros v thv. proj. rewrite lookup_delete_Some. intros [_ Hv]. by apply (Hbr v).
Qed.

(** The end of [finish], once the thread is off its context. *)
Lemma wp_finish_rest b s p th (Q : unit -> Barrier.t * t X -> Prop) : sched_inv (b, s) -> threads s !! p = Some th ->
  state th = STARTED \/ state th = OUT \/ state th = BLOCKED \/ (state th = QUEUED /\ p ∈ queue RunQ s) -> no_gid s p ->
  (forall b' s', sched_inv (b', s') -> threads s' !! p = None -> Q tt (b', s')) ->
  wp (s ← onS get;
      _ ← onS (if bool_decide (state th = QUEUED) then
                 _ ← assertS (bool_decide (owner p s = Some RunQ)); remove RunQ p
               else if bool_decide (owner p s <> None) then
                 _ ← assertS (bool_decide (owner p s = Some OutQ));
                 _ ← remove OutQ p;
                 _ ← deschedule p (cid th) BLOCKED;
                 free_push_back (cid th)
               else mret tt);
      _ ← onS (modify (fun s => set_threads (delete p (threads s)) s));
      onS (modify (set_stat inc_threadsFinished))) (b, s) Q.
Proof.
  intros HI Hp Hs Hg HQ. pose proof HI as [Hb [Hi Hbr]]. cbn [fst snd] in *.
  assert (forall s', sched_inv (b, set_threads (delete p (threads s')) s') ->
    wp (_ ← onS (modify (fun s => set_threads (delete p (threads s)) s)); onS (modify (set_stat inc_threadsFinished))) (b, s') Q) as Hend.
  { intros s' [_ [Hi' Hbr']]. cbn [fst snd] in *. apply wp_bind, wp_onS, wp_modify, wp_onS, wp_modify, HQ; [|cbn; by rewrite lookup_delete_eq].
    split; [done|]. split; cbn [fst snd]; [by apply sinv_stat|exact Hbr']. }
  apply wp_bind, wp_onS, wp_get, wp_bind, wp_onS. case_bool_decide as Hq.
  - destruct Hs as [Hs|[Hs|[Hs|[_ Hin]]]]; [congruence..|].
    pose proof (owner_in _ _ _ _ _ _ Hi Hin) as Ho. apply wp_bind, wp_assert; [by apply bool_decide_true|]. apply wp_remove; [done|].
    apply Hend. destruct (dequeued _ _ _ _ _ _ Hi Hin Hp) as (Hi1 & Hn1 & Hh1 & _ & _). split; [done|]. split; cbn [fst snd].
    + eapply sinv_sets; [eapply (sinv_delete _ _ _ _ _ _ Hi1 Hp)|done|done|clear; set_solver]; try done. intros [?|?]; congruence.
    + intros v thv. proj. rewrite lookup_delete_Some. intros [_ Hv]. by apply (Hbr v).
  - case_bool_decide as Ho.
    + assert (state th = OUT) as Hst.
      { assert (~ forall n, p ∉ queue n s) as Hn by (intros Hn; by apply Ho, owner_out).
        destruct Hs as [Hs|[Hs|[Hs|[? _]]]]; [exfalso|done|exfalso|done]; apply Hn; (eapply not_listed; [done..|]; intros []; cbn; congruence). }
      destruct (si_queued _ _ _ _ Hi OutQ p th Hp Hst ltac:(set_solver)) as [Hin|[? _]]; [|done].
      apply wp_bind, wp_assert; [apply bool_decide_true; by eapply owner_in|]. eapply wp_drop_out; [exact HI|exact Hp|exact Hst|].
      intros s' HI' Hp' Hg'. apply Hend. eapply sched_delete; [done|exact Hp'|by right|]. intros g. rewrite Hg'. apply Hg.
    + apply wp_ret, Hend. eapply sched_delete; [done|exact Hp| |done].
      destruct Hs as [Hs|[Hs|[Hs|[? _]]]]; [by left| |by right|done]. exfalso.
      destruct (si_queued _ _ _ _ Hi OutQ p th Hp Hs ltac:(set_solver)) as [Hin|[? _]]; [|done]. by rewrite (owner_in _ _ _ _ _ _ Hi Hin) in Ho.
Qed.

Definition can_finish b s (p : nat) (th : ThreadInfo) : Prop :=
  match state th with
  | STARTED | BLOCKED | OUT => True
  | QUEUED => p ∈ queue RunQ s
  | RUNNING => handoffThread th = None /\ markedForSleep th = false /\ cid th ∈ running (abs b)
  | SLEEPING => False
  end.

Lemma wp_finish b s p th pid tid (Q : unit -> Barrier.t * t X -> Prop) : sched_inv (b, s) ->
  gidMap s !! getGid pid tid = Some p -> threads s !! p = Some th -> can_finish b s p th ->
  BarrierInv.draws_ok fuel b -> tick_draws fuel s ->
  (forall b' s', sched_inv (b', s') -> threads s' !! p = None -> Q tt (b', s')) -> wp (finish fuel pid tid) (b, s) Q.
Proof.
  intros [Hb [Hi Hbr]] Hg Hp Hc Hd Ht HQ. cbn [fst snd] in *.
  destruct (sinv_gid_delete _ _ _ _ _ _ Hi Hg) as [Hi1 Hg1].
  destruct (si_gid _ _ _ _ Hi _ _ Hg) as (th0 & Hp0 & Egid). rewrite Hp in Hp0. injection Hp0 as <-.
  unfold finish. apply wp_bind, wp_onS. eapply wp_find_gid; [exact Hg|]. apply wp_bind, wp_onS, wp_modify.
  set (s1 := set_gids _ _ s) in *. assert (sched_inv (b, s1)) as HI1 by (split; [done|split; [done|exact Hbr]]).
  apply wp_bind, wp_onS. eapply wp_getTh; [exact Hp|].
  assert (forall b2 s2 th2, sched_inv (b2, s2) -> gidMap s2 = gidMap s1 -> threads s2 !! p = Some th2 ->
    state th2 = BLOCKED \/ state th2 = OUT ->
    wp (th ← onS (getTh p);
        _ ← onS (assertS (bool_decide (state th = STARTED \/ state th = OUT \/ state th = BLOCKED \/ state th = QUEUED)));
        s ← onS get;
        _ ← onS (if bool_decide (state th = QUEUED) then
                   _ ← assertS (bool_decide (owner p s = Some RunQ)); remove RunQ p
                 else if bool_decide (owner p s <> None) then
                   _ ← assertS (bool_decide (owner p s = Some OutQ));
                   _ ← remove OutQ p;
                   _ ← deschedule p (cid th) BLOCKED;
                   free_push_back (cid th)
                 else mret tt);
        _ ← onS (modify (fun s => set_threads (delete p (threads s)) s));
        onS (modify (set_stat inc_threadsFinished))) (b2, s2) Q) as Hrest.
  { intros b2 s2 th2 HI2 Hg2 Hp2 Hst2. apply wp_bind, wp_onS. eapply wp_getTh; [exact Hp2|].
    apply wp_bind, wp_onS, wp_assert; [apply bool_decide_true; intuition|].
    eapply wp_finish_rest; [exact HI2|exact Hp2|intuition| |exact HQ]. intros g. rewrite Hg2. apply Hg1. }
  apply wp_bind. destruct (decide (fakeLeave th = None)) as [Hf|Hf].
  - rewrite bool_decide_false by tauto. apply wp_ret, wp_bind, wp_onS. eapply wp_getTh; [exact Hp|]. apply wp_bind.
    destruct (decide (state th = RUNNING)) as [Hr|Hr].
    + rewrite bool_decide_true by done. unfold can_finish in Hc. rewrite Hr in Hc. destruct Hc as (Hh & Hm & Hcr).
      eapply wp_leave; [exact HI1|exact Hp|done..|]. intros b2 s2 HI2 [Hg2 Hgo]. destruct (Hgo Hm) as (th2 & Hp2 & Hst2). by apply (Hrest b2 s2 th2).
    + rewrite bool_decide_false by done. apply wp_ret, wp_bind, wp_onS. eapply wp_getTh; [exact Hp|].
      unfold can_finish in Hc. apply wp_bind, wp_onS, wp_assert; [apply bool_decide_true; by destruct (state th); auto|].
      eapply wp_finish_rest; [exact HI1|exact Hp| |exact Hg1|exact HQ]. destruct (state th); auto; done.
  - rewrite bool_decide_true by done. destruct (to_fake _ _ _ (si_thread _ _ _ _ Hi1 p th Hp) Hf) as [_ Hr].
    unfold can_finish in Hc. rewrite Hr in Hc. destruct Hc as (Hh & Hm & Hcr).
    apply wp_bind, wp_onS. eapply wp_finishFakeLeave; [exact HI1|exact Hp|done|]. intros s2 HI2 Hp2 Hg2 Hr2 Hn2.
    change (cid th) with (cid (with_fakeLeave None th)). eapply wp_leave; [exact HI2|exact Hp2|done..| |].
    { unfold tick_draws. by rewrite Hr2, Hn2. }
    intros b3 s3 HI3 [Hg3 Hgo]. destruct (Hgo Hm) as (th3 & Hp3 & Hst3).
    apply wp_bind, wp_onS. eapply wp_getTh; [exact Hp3|]. rewrite bool_decide_false by intuition congruence.
    apply wp_bind, wp_ret. apply (Hrest b3 s3 th3); [done|congruence|done|done].
Qed.

(** ** The calls, and when a thread makes them *)

Inductive scall :=
  | CStart (pid tid : Z) (m : list bool)
  | CJoin (pid tid : Z)
  | CLeave (pid tid : Z) (c : nat)
  | CSync (c : nat)
  | CHandoff (p : nat)
  | CFinish (pid tid : Z)
  | CMark (pid tid ph : Z)
  | CSleepEnd (pid tid : Z)
  | CSyscallLeave (pid tid : Z) (c : nat) (pc num a0 a1 : Z)
  | CWakeStart (pid tid maxW : Z)
  | CWakeEnd (pid tid woken : Z)
  | CWaitWoken (pid tid : Z).

Notation MB := (ST (Barrier.t * t X)).

Definition run (c : scall) : MB unit :=
  match c with
  | CStart pid tid m => onS (start pid tid m)
  | CJoin pid tid => _ ← join fuel pid tid; mret tt
  | CLeave pid tid c => leave fuel pid tid c
  | CSync c => sync fuel c
  | CHandoff p => _ ← sync_handoff fuel p; mret tt
  | CFinish pid tid => finish fuel pid tid
  | CMark pid tid ph => onS (markForSleep pid tid ph)
  | CSleepEnd pid tid => onS (notifySleepEnd pid tid)
  | CSyscallLeave pid tid c pc num a0 a1 => syscallLeave fuel pid tid c pc num a0 a1
  | CWakeStart pid tid maxW => onS (notifyFutexWakeStart pid tid maxW)
  | CWakeEnd pid tid woken => onS (notifyFutexWakeEnd pid tid woken)
  | CWaitWoken pid tid => onS (notifyFutexWaitWoken pid tid)
  end.

Definition thread_at s (pid tid : Z) (p : nat) (th : ThreadInfo) : Prop :=
  gidMap s !! getGid pid tid = Some p /\ threads s !! p = Some th.

(** A thread that executes on its context, with no handoff to answer. *)
Definition executes b (th : ThreadInfo) : Prop :=
  state th = RUNNING /\ handoffThread th = None /\ cid th ∈ running (abs b).

Definition legal (bs : Barrier.t * t X) (c : scall) : Prop :=
  let '(b, s) := bs in
  match c with
  | CStart pid tid m => gidMap s !! getGid pid tid = None /\ length m = numCores s /\ existsb id m = true
  | CJoin pid tid => exists p th, thread_at s pid tid p th /\ futex_ok th s /\
      (fakeLeave th <> None \/ state th <> RUNNING /\ state th <> QUEUED)
  | CLeave pid tid c => exists p th, thread_at s pid tid p th /\ cid th = c /\ executes b th /\ fakeLeave th = None
  | CSync c => exists p th, threads s !! p = Some th /\ cid th = c /\ executes b th /\ markedForSleep th = false
  | CHandoff p => exists th, threads s !! p = Some th /\ state th = RUNNING /\ markedForSleep th = false /\ fakeLeave th = None
  | CFinish pid tid => exists p th, thread_at s pid tid p th /\ can_finish b s p th
  | CMark pid tid ph => exists p th, thread_at s pid tid p th /\ state th = RUNNING /\ cid th ∈ running (abs b) /\
      markedForSleep th = false /\ curPhase s < ph < max64
  | CSleepEnd pid tid => exists p th, thread_at s pid tid p th /\ (state th = SLEEPING \/ state th = BLOCKED)
  | CSyscallLeave pid tid c _ _ _ _ => exists p th, thread_at s pid tid p th /\ cid th = c /\ executes b th /\
      fakeLeave th = None /\ (Z.to_nat pid < length (blockingSyscalls s))%nat
  | CWakeStart pid tid _ => exists p th, thread_at s pid tid p th /\ action (futexJoin th) = FJA_NONE
  | CWakeEnd pid tid _ | CWaitWoken pid tid => exists p th, thread_at s pid tid p th
  end.

Lemma wp_noteFutex b s pid tid p th j (Q : unit -> t X -> Prop) : sched_inv (b, s) -> thread_at s pid tid p th ->
  (forall s', sched_inv (b, s') -> Q tt s') ->
  wp (p ← deref_gid (getGid pid tid); setTh p (fun th => with_futexJoin (j th) th)) s Q.
Proof.
  intros HI [Hg Hp] HQ. apply wp_bind. eapply wp_find_gid; [exact Hg|]. eapply wp_setTh; [exact Hp|]. apply HQ.
  pose proof (sched_futexJoin b s p th (j th) (maxAllowedFutexWakeups s) (unmatchedFutexWakeups s) HI Hp) as HI1.
  by replace (set_wakeups (maxAllowedFutexWakeups s) (unmatchedFutexWakeups s) s) with s in HI1 by by destruct s.
Qed.

Lemma wp_run b s c : sched_inv (b, s) -> legal (b, s) c -> BarrierInv.draws_ok fuel b -> tick_draws fuel s ->
  wp (run c) (b, s) (fun _ p => sched_inv p).
Proof.
  intros HI Hl Hd Ht. pose proof HI as [_ [Hi _]]. cbn in Hi.
  assert (forall pid tid p th, thread_at s pid tid p th -> gid th = getGid pid tid) as Hgid.
  { intros pid tid p th [Hg Hp]. destruct (si_gid _ _ _ _ Hi _ _ Hg) as (th' & Hp' & E). congruence. }
  destruct c; cbn [run legal] in *.
  - destruct Hl as (? & ? & ?). apply wp_onS. by eapply wp_start.
  - destruct Hl as (p & th & [? ?] & ? & ?). apply wp_bind. by eapply wp_join.
  - destruct Hl as (p & th & Hat & <- & (? & ? & ?) & ?). eapply wp_leave; try done; [apply Hat|by eapply Hgid].
  - destruct Hl as (p & th & ? & <- & (? & ? & ?) & ?). by eapply wp_sync.
  - destruct Hl as (th & ? & ? & ? & ?). apply wp_bind. by eapply wp_sync_handoff.
  - destruct Hl as (p & th & [? ?] & ?). by eapply wp_finish.
  - destruct Hl as (p & th & [? ?] & ? & ? & ? & ?). apply wp_onS. by eapply wp_markForSleep.
  - destruct Hl as (p & th & [? ?] & ?). apply wp_onS. by eapply wp_notifySleepEnd.
  - destruct Hl as (p & th & Hat & <- & (? & ? & ?) & ? & ?). eapply wp_syscallLeave; try done; [apply Hat|by eapply Hgid].
  - destruct Hl as (p & th & [Hg Hp] & Ha). apply wp_onS. unfold notifyFutexWakeStart. apply wp_bind. eapply wp_find_gid; [exact Hg|].
    apply wp_bind. eapply wp_getTh; [exact Hp|]. apply wp_bind, wp_assert; [by apply bool_decide_true|].
    apply wp_bind, wp_modify. eapply wp_setTh; [exact Hp|]. exact (sched_futexJoin b s p th _ _ _ HI Hp).
  - destruct Hl as (p & th & Hat). apply wp_onS. by eapply (wp_noteFutex b s pid tid p th (fun th => mkFJ FJA_WAKE (maxWakes (futexJoin th)) woken)).
  - destruct Hl as (p & th & Hat). apply wp_onS. by eapply (wp_noteFutex b s pid tid p th (fun _ => mkFJ FJA_WAIT 0 0)).
Qed.

(** ** From the constructors *)

Inductive reach (P : Z) (n : nat) (quantum : Z) (x0 : X) : Barrier.t * t X -> Prop :=
  | reach_make garbage : reach P n quantum x0 (Barrier.make P garbage, make n quantum x0)
  | reach_run b s c p' : reach P n quantum x0 (b, s) -> legal (b, s) c -> BarrierInv.draws_ok fuel b -> tick_draws fuel s ->
      run c (b, s) = Ok (tt, p') -> reach P n quantum x0 p'.

Definition config_ok (P : Z) (n : nat) (quantum : Z) : Prop := 1 <= P < max32 /\ (n <= MAX_THREADS)%nat /\ 0 < quantum.

Lemma sched_make_inv P n quantum (x0 : X) garbage : config_ok P n quantum -> sched_inv (Barrier.make P garbage, make n quantum x0).
Proof.
  intros (HP & Hn & Hq). split; [by apply BarrierInv.make_inv|].
  assert (forall c x, contexts (make n quantum x0) !! c = Some x -> x = idle) as Hidle
    by (intros c x Hx; by apply lookup_replicate in Hx as [-> _]).
  split; cbn [fst snd].
  - rewrite BarrierInv.make_abs. split; try (cbn; done).
    + cbn. by rewrite length_replicate.
    + intros c x Hx. left. by eapply Hidle.
    + apply NoDup_seq.
    + intros c. cbn. rewrite elem_of_seq, lookup_replicate. split; [intros [_ ?]|intros [[_ ?] _]]; [|lia]. split; [split; [done|lia]|set_solver].
    + intros [] ; apply NoDup_nil_2.
    + intros [] p Hp; by apply elem_of_nil in Hp.
    + intros c. split; [cbn; set_solver|]. intros (p & th & Hc & _). specialize (Hidle _ _ Hc). discriminate Hidle.
    + cbn. unfold busy. replace (filter (fun x => cstate x = USED) (replicate n (mkContext IDLE None))) with (@nil ContextInfo); [done|].
      induction n as [|n' IH]; [done|]. cbn [replicate]. rewrite filter_cons_False by discriminate. apply IH; [lia|]. intros c x Hx. by apply lookup_replicate in Hx as [-> _].
    + constructor.
    + cbn. rewrite !length_replicate. split; [done|lia].
    + apply MTRandSpec.seed_wf.
  - intros v thv Hv. cbn in Hv. rewrite lookup_empty in Hv. discriminate Hv.
Qed.

Lemma reach_inv P n quantum (x0 : X) p : config_ok P n quantum -> reach P n quantum x0 p -> sched_inv p.
Proof.
  intros HP. induction 1 as [g|b s c p' _ IH Hl Hd Ht E]; [by apply sched_make_inv|].
  pose proof (wp_run b s c IH Hl Hd Ht) as Hw. unfold wp in Hw. by rewrite E in Hw.
Qed.

End fuel.
End calls.

(** ** Properties *)

Section properties.
Context {X : Type} `{Env X} (fuel : nat).
Notation abs := BarrierInv.abs.


(** C19: After any such calls from the constructors: the barrier holds exactly
    the contexts whose thread runs; no two threads hold one context; no thread
    waits in the run queue while a context its mask allows is free or kept by a
    thread that left; every queued thread is in the run queue or is the one a
    running thread must hand its context to; every sleeper is in the sleep queue
    and not overdue. *)
Theorem scheduler_work_conserving P n quantum (x0 : X) b s :
  config_ok P n quantum -> reach fuel P n quantum x0 (b, s) ->
  (forall c, c ∈ members (abs b) <->
     exists p th, contexts s !! c = Some (used p) /\ threads s !! p = Some th /\ state th = RUNNING) /\
  (forall p p' th th', threads s !! p = Some th -> threads s !! p' = Some th' -> placed th -> placed th' ->
     cid th = cid th' -> p = p') /\
  (forall q thq c, q ∈ queue RunQ s -> threads s !! q = Some thq -> (c < numCores s)%nat ->
     mask thq !! c = Some true -> c ∈ members (abs b)) /\
  (forall q thq, threads s !! q = Some thq -> state thq = QUEUED -> q ∈ queue RunQ s \/
     exists v thv, threads s !! v = Some thv /\ state thv = RUNNING /\ handoffThread thv = Some q) /\
  (forall q thq, threads s !! q = Some thq -> state thq = SLEEPING ->
     q ∈ queue SleepQ s /\ curPhase s < wakeupPhase thq).
Proof.
  intros HP Hr. destruct (reach_inv fuel P n quantum x0 _ HP Hr) as [_ [Hi _]]. cbn [fst snd] in Hi. split_and!.
  - apply (si_M _ _ _ _ Hi).
  - intros p p' th th'. by apply (placed_unique _ _ _ _ _ _ _ _ Hi).
  - intros q thq c Hq Ht Hc Hm. assert (~ available c s) as Hna.
    { intros Ha. rewrite (si_W _ _ _ _ Hi q thq c Hq Ht Ha) in Hm. discriminate Hm. }
    destruct (context_of _ _ _ _ _ Hi Hc) as [Hidle|(v & thv & Hv & Hth & Hci & Hpl)].
    + destruct Hna. left. apply (si_free_iff _ _ _ _ Hi). split; [done|set_solver].
    + apply (si_M _ _ _ _ Hi). exists v, thv. split_and!; [done|done|]. destruct Hpl as [|Ho]; [done|].
      destruct Hna. right. exists v, thv. split_and!; [|done|done].
      destruct (si_queued _ _ _ _ Hi OutQ v thv Hth Ho ltac:(set_solver)) as [|[? _]]; done.
  - intros q thq Hq Hs. destruct (si_queued _ _ _ _ Hi RunQ q thq Hq Hs ltac:(set_solver)) as [|(_ & v & thv & Hv & Hvq)]; [by left|right].
    exists v, thv. split_and!; [done|by destruct (si_handoff _ _ _ _ Hi v thv q Hv Hvq)|done].
  - intros q thq Hq Hs. split; [|by apply (to_sleep _ _ _ (si_thread _ _ _ _ Hi q thq Hq))].
    destruct (si_queued _ _ _ _ Hi SleepQ q thq Hq Hs ltac:(set_solver)) as [|[? _]]; done.
Qed.

End properties.

(** ** Witnesses: two threads of one process, one core *)

#[local] Instance unit_env : Env unit :=
  {| atSyncFunc := id; addPhaseCycles := id; core_join _ := id; core_leave _ := id;
     core_contextSwitch _ _ := id; procStats_notifyDeschedule := id; notifyDeschedule _ _ := id |}.

Definition after (cs : list scall) : Barrier.t * t unit :=
  let s0 := (Barrier.make 1 (fun _ => 0%nat), make 1 1 tt) in
  match loop (fun p c => match run 4 c p with Ok (_, p') => Ok p' | Fault e => Fault e end) s0 cs with
  | Ok p => p
  | Fault _ => s0
  end.

Definition new_thread (g : Z) : ThreadInfo := mkThread g STARTED 0 None 0 false false 0 [true] None (mkFJ FJA_NONE 0 0).

Definition start1 : Barrier.t * t unit := after [CStart 0 0 [true]].
Definition start2 : Barrier.t * t unit := after [CStart 0 0 [true]; CStart 0 1 [true]].
Definition demo : Barrier.t * t unit := after [CStart 0 0 [true]; CStart 0 1 [true]; CJoin 0 0].

Lemma demo_config : config_ok 1 1 1.
Proof. split_and!; [lia|rewrite max32_eq; lia| |lia]. pose proof MAX_THREADS_u32. lia. Qed.

Lemma sched_demo_draws b : (Barrier.runListSize b <=? 1)%nat = true -> BarrierInv.draws_ok 4 b.
Proof. intros Hb%Nat.leb_le n Hn. assert (n = 0%nat) as -> by lia. reflexivity. Qed.

Lemma legal_new_join b (s : t unit) pid tid p : gidMap s !! getGid pid tid = Some p ->
  threads s !! p = Some (new_thread (getGid pid tid)) -> legal (b, s) (CJoin pid tid).
Proof. intros Hg Hp. exists p, (new_thread (getGid pid tid)). split_and!; [by split|exact I|by right]. Qed.

Lemma legal_start b (s : t unit) pid tid : gidMap s !! getGid pid tid = None -> numCores s = 1%nat -> legal (b, s) (CStart pid tid [true]).
Proof. intros Hg Hn. by split_and!. Qed.

Lemma demo_reach : reach 4 1 1 1 tt (fst demo, snd demo).
Proof.
  assert (reach 4 1 1 1 tt (fst (after []), snd (after []))) as H0 by apply reach_make.
  assert (reach 4 1 1 1 tt (fst start1, snd start1)) as H1.
  { eapply (reach_run _ _ _ _ _ _ _ (CStart 0 0 [true]) _ H0).
    - apply legal_start; vm_compute; reflexivity.
    - apply sched_demo_draws. vm_compute. reflexivity.
    - vm_compute. reflexivity.
    - vm_compute. reflexivity. }
  assert (reach 4 1 1 1 tt (fst start2, snd start2)) as H2.
  { eapply (reach_run _ _ _ _ _ _ _ (CStart 0 1 [true]) _ H1).
    - apply legal_start; vm_compute; reflexivity.
    - apply sched_demo_draws. vm_compute. reflexivity.
    - vm_compute. reflexivity.
    - vm_compute. reflexivity. }
  eapply (reach_run _ _ _ _ _ _ _ (CJoin 0 0) _ H2).
  - apply legal_new_join with 0%nat; vm_compute; reflexivity.
  - apply sched_demo_draws. vm_compute. reflexivity.
  - vm_compute. reflexivity.
  - vm_compute. reflexivity.
Qed.




Lemma scheduler_work_conserving_witness :
  (forall c, c ∈ members (BarrierInv.abs (fst demo)) <->
     exists p th, contexts (snd demo) !! c = Some (used p) /\ threads (snd demo) !! p = Some th /\ state th = RUNNING) /\
  (forall p p' th th', threads (snd demo) !! p = Some th -> threads (snd demo) !! p' = Some th' -> placed th -> placed th' ->
     cid th = cid th' -> p = p') /\
  (forall q thq c, q ∈ queue RunQ (snd demo) -> threads (snd demo) !! q = Some thq -> (c < numCores (snd demo))%nat ->
     mask thq !! c = Some true -> c ∈ members (BarrierInv.abs (fst demo))) /\
  (forall q thq, threads (snd demo) !! q = Some thq -> state thq = QUEUED -> q ∈ queue RunQ (snd demo) \/
     exists v thv, threads (snd demo) !! v = Some thv /\ state thv = RUNNING /\ handoffThread thv = Some q) /\
  (forall q thq, threads (snd demo) !! q = Some thq -> state thq = SLEEPING ->
     q ∈ queue SleepQ (snd demo) /\ curPhase (snd demo) < wakeupPhase thq).
Proof.
  apply (scheduler_work_conserving 4 1 1 1 tt (fst demo) (snd demo)).
  - exact demo_config.
  - exact demo_reach.
Defined.

End SchedulerProps.
